(* ===== verification/_CoqProject ===== *)
-Q . S2P
Prelude.v
Slice.v
Status.v
OrderedMap.v
Coding.v
Crc32c.v
Crc32cSpec.v
Bloom.v
MemTable.v
WriteBatch.v
FileSystem.v
Wal.v
SSTable.v
Pointers.v
SSTableSpec.v
Version.v
DB.v
DBPaths.v
Layers.v
DBInv.v
DBFlush.v
DBReaders.v
Merge.v
DBCompact.v
DBRead.v
ReadErrors.v
DBWrite.v
DBOpen.v
DBSpec.v
QuietWrite.v
PowerLoss.v
DBSession.v
Unsynced.v
Sample.v
Frame.v
Concurrency.v
SampleRuns.v
Threads.v
Liveness.v
SoloRuns.v
ThreadsCorrect.v
Cli.v
CliSpec.v
CliThreads.v
Bench.v
ProgramCorrect.v
TestSuite.v
DBCorrect.v
StorageLemmas.v
StorageCorrect.v
PowerCorrect.v
Findings.v
CodecCorrect.v
