(* ===== verification/Prelude.v ===== *)
(** * ClomDB: a verification development

    ClomDB is an embedded key-value store written in C++17: a log-structured
    merge tree with a write-ahead log.  This library models its sources
    ([src/include/clomdb/], [src/src/]) and the two programs that come with it
    ([src/examples/]), and proves what makes them correct,
    under every pattern of I/O failures where the code promises that much, and
    across crashes of the process and power failures.  The repository's own
    tests ([src/tests/]) are run on the model.

    ** The program

    A [DB] object owns a [MemTable] (a sorted map with tombstones), a
    [WriteAheadLog], a [Version] (the table files of each of six levels) and an
    open [SSTableReader] per table.  [Write] appends the serialised
    [WriteBatch] to the log and applies it to the memtable.  When the memtable
    is large it is written out as a level-0 table, the [Version] is saved to
    the MANIFEST and the log is replaced by an empty one.  Compaction merges a
    level into the next.  [Get] asks the memtable, then the tables from the
    newest to the oldest; [NewIterator] merges everything into a snapshot.
    [Open] loads the manifest, removes tables it does not list, opens the
    others and replays the log.  A background thread may do the flushing and
    compacting.  Files are read and written with C stdio and [std::filesystem].

    ** The files, in dependency order

    Vocabulary:
    - [Prelude] (this file): byte strings ([char] sequences are lists of
      bytes), machine words as integers with their wrap-around written out, the
      state monad [ST] with the predicate [wp] (what holds of the result and
      the final state), and its rules.
    - [OrderedMap]: [std::map<std::string, V>] as its list of bindings in
      iteration order, refining stdpp's [gmap].
    - [FileSystem]: the C stdio and [std::filesystem] calls of the source on a
      disk of names, inodes and contents, with buffering; an oracle decides the
      outcome of every call.  [FaultFree] says that no call fails.  A crash is
      the oracle under which everything from some call on fails.  The world
      also records the content of each file at its last successful [fsync],
      which only a power failure looks at.

    Components, each with its definitions, invariant and lemmas:
    - [Slice] ([slice.h]), [Status] ([status.h], [options.h]), [Coding] and
      [Crc32c] ([coding.h]), [Bloom] ([bloom.h]), [MemTable] ([memtable.h],
      [iterator.h]), [WriteBatch] ([write_batch.h]).
    - [Crc32cSpec]: CRC-32C as its standard defines it, by polynomials over
      GF(2); it shares no definition with the source's.
    - [Pointers] ([coding.h], the loops of [write_batch.h] and [sstable.cpp] that
      decode): the decoders on a buffer with pointers and [size_t] arithmetic,
      where reading outside the buffer is an outcome ([Fault]).  The other files
      use the decoders on lists, which are proved to compute the same.
    - [Wal] ([wal.h], [wal.cpp]): the definitions and what a reader makes of a
      log file ([records]).
    - [SSTable] ([sstable.h], [sstable_format.h], [sstable.cpp]): writer and
      reader; [SSTableSpec]: the file format as a function and their proofs.
    - [Version] ([version.h], [version.cpp]).
    - [DB] ([db.h], [db.cpp]): the object as a record, every method as a
      computation on the object and the world; the names of the C++ methods
      are kept.  A method that contains the loop
      [while (NeedsCompactionLocked(&level))] has fuel and returns [None] when
      it runs out: five rounds always suffice when [l0_compaction_trigger] is
      positive (theorem [DBCorrect.compact_loop_terminates]), and no number of
      rounds does when it is not ([DBCorrect.compact_loop_diverges]).
    - [Concurrency]: the step relation of clients, background thread and
      shutdown, one step per critical section of [mutex_].
    - [Threads] ([db.h], [BackgroundLoop] and [Close] of [db.cpp]): the same
      system as threads with program counters: lock, body, unlock, the waiting
      and waking of [bg_cv_] and the join of [Close].  A thread's step is a
      function, a run is given by the scheduler's choices; [fair] says that a
      thread that has a step is not passed over for ever.
    - [Cli] ([examples/clomdb_cli.cpp]): [RunOne], [SplitLine] and [main] with
      their output streams and exit codes.  [Bench]
      ([examples/clomdb_bench.cpp]): its loops and its count of found keys.  In
      both the background thread may run between any two commands.

    Proofs about the database:
    - [DBPaths]: file names are injective and disjoint.  [Layers]: what a
      memtable or a table says about each key, and how newer layers shadow
      older ones.  [DBInv]: the invariant [db_ok] that ties the object to the
      files, and [durable], what a recovery finds.
    - [DBFlush], [DBReaders], [Merge], [DBCompact], [DBRead], [DBWrite],
      [DBOpen]: the specification of every method against that invariant, for
      every oracle.
    - [DBSpec]: the contract clients see: [represents db d m] (the object and
      the disk hold the map [m]) and [safe db d m] (and a recovery finds [m]).
      The theorems on crashes and interleavings use the contract only.
    - [QuietWrite]: a [Write] that does not flush: all it changes is the log and
      the memtable.  [ReadErrors]: a lookup whose first read fails.
    - [PowerLoss]: the disks a power failure can leave, and what remains of the
      log and the other files on them.  [Unsynced]: which files are never
      synced, and what [Open] makes of an empty manifest.
    - [DBSession]: the contract of a session without failures, from the files
      ([stored]) to the open object ([serves]) and back, with bounds on what it
      adds; the programs are verified against it.
    - [Frame]: which operations leave the flags of the object alone.
    - [Liveness]: who takes a step next, and what a fair run leads to.
    - [CliSpec]: the grammar of a line, the replies to a command
      ([answered]), the dialogue of a session, a whole run ([program]).
    - [CliThreads]: a run of [Threads] with one calling thread is a run of the
      calls one after the other with the background thread in between, so the
      schedules of [Cli] cover every interleaving of the tool's two threads.
    - [Sample], [SampleRuns], [SoloRuns]: concrete oracles and runs, the inputs
      of the witnesses.

    The properties, with a witness (a run of the definitions) for each one that
    has hypotheses:
    - [ThreadsCorrect] (C1-C5): linearizability of the calls of any number of
      threads, recovery from a crash at any I/O call of any of them, mutual
      exclusion and no lost wake-up, every call returns, the background thread
      does its work.
    - [PowerCorrect] (C6-C7): synced writes survive a power failure, until a
      flush moves them to files that are never synced: after the [Close] of any
      database that had something to flush, everything can be lost.
    - [DBCorrect] (C8-C16): the functional behaviour and crash safety of [Get],
      [Write], flush, compaction, iteration, [Open] and [Close], and the
      termination of the compaction loop; without a number, refinement of an
      atomic map and crash recovery for an object used by one caller at a time.
    - [ProgramCorrect] (C17-C22): every state reached from [Open] is well
      typed; the command line tool is a conversation with one persistent map,
      also as two threads, its tokenizer meets its grammar, it reports failures; the benchmark finds
      what it wrote.
    - [StorageCorrect] (C23-C30): torn and corrupted logs, atomic replacement
      and corruption of the manifest, round trips of log and table,
      point lookups.  [StorageLemmas] has their shared lemmas.
    - [Findings] (C31-C32): an acknowledged write behind a torn log record is
      lost, and a read error makes [Get] answer with old data, from any database
      that meets the conditions they state; without a number, runs that
      show more behaviours of this kind.
    - [CodecCorrect] (C33-C40): round trips of the encodings, decoders that stay
      inside any buffer, the checksum against its polynomial definition, the
      Bloom filter, the key order, batches, memtable and iterator.
    [TestSuite] runs the repository's tests and their harness, written on the
    model's operations, by evaluation.  Theorems without a number in these files
    are consequences worth stating that the numbered ones do not need.

    ** Bounds and assumptions

    Numbers keep their width.  The theorems on the database assume
    [has_room]: the data weighs at most 2^36 bytes and file numbers are at most
    2^62, so that no 64-bit size, no 32-bit count and no file number
    overflows; [batch_fits]: a batch that is not empty and takes less than 2^32
    bytes, which the 32-bit length fields need; [options_ok]: a bloom setting
    that is an [int] and not negative; [good_path]: a path that is not empty
    and does not end with a slash; [compaction_ok]: a positive compaction
    trigger.  [disciplined] asks the clients of [Threads] for [has_room] and
    [batch_fits] whenever they write, and for one closing thread at a time:
    [ThreadsCorrect.two_closes_join] shows why.  The benchmark's count is at
    most 2^26, where its data and file numbers are within these limits; the
    sessions of the tool have [roomy] bounds computed from their input.  Fuel of
    the other loops is the length of the input they consume, and a lemma next
    to each says it is enough.

    A crash is the death of the process: the disk keeps what was written to it.
    A power failure may besides undo, for each file, any part of what was
    written since its last [fsync]; the directory is journaled in
    [PowerLoss.power_loss], and in [PowerLoss.power_loss_since] each name may
    also fall back to what it was when the directory was last on stable storage.
    Recovery is modelled in full, with its failures.

    A [std::string] of any size can be made: where the source makes one of a
    size it read from a file ([SSTableReader::Open], [SSTableReader::Get]), a
    size beyond [max_size] or the memory throws there, and the model goes on to
    the short read that follows.  No table the program wrote has such a size.

    ** Not modelled

    The clock of the benchmark and the digits of its floating point rates,
    which are parameters of its report; [std::shuffle], a parameter of which
    only that it permutes is used; the registration of the tests and the text
    of a failing CHECK, and the counts of their longest loops, which are
    parameters that [TestSuite] evaluates at smaller values; the build files;
    memory exhaustion; a [Close] by two threads at once beyond the point where both
    stand at the join (the standard leaves it undefined); reads and writes of
    two databases on one directory at a time.  The destructors of
    [WriteAheadLog] and [SSTableReader] are definitions of their own: where the object of a method
    dies, its stream has nothing buffered, and lemmas say that the destructor
    then leaves the disk as it is. *)

From Stdlib Require Export ZArith Lia.
From Stdlib Require Export Strings.Byte.
From stdpp Require Export base tactics numbers list gmap sorting strings.

#[global] Open Scope Z_scope.
#[global] Set Default Goal Selector "!".

(** ** Byte strings

    A [std::string], a [Slice] and the content of a file are all sequences of
    [char]; they are lists of bytes here. *)

Abbreviation bytes := (list byte).

#[global] Instance byte_eq_dec : EqDecision byte := Byte.byte_eq_dec.

#[global] Instance byte_countable : Countable byte :=
  inj_countable Byte.to_N Byte.of_N Byte.of_to_N.

(** [static_cast<unsigned char>(c)] read as a number, and back. *)
Definition byte_val (b : byte) : Z := Z.of_N (Byte.to_N b).
Definition byte_of (z : Z) : byte :=
  default x00 (Byte.of_N (Z.to_N (z `mod` 256))).

(** A string literal of the source. *)
Definition str (s : string) : bytes := String.list_byte_of_string s.

Abbreviation zlen l := (Z.of_nat (length l)).

(** ** Unsigned machine words *)

Definition wrap32 (z : Z) : Z := z `mod` 2 ^ 32.
Definition wrap64 (z : Z) : Z := z `mod` 2 ^ 64.
Definition is_u32 (z : Z) : Prop := 0 ≤ z < 2 ^ 32.
Definition is_u64 (z : Z) : Prop := 0 ≤ z < 2 ^ 64.

(** [static_cast<long>] of a 64-bit unsigned value. *)
Definition to_long (z : Z) : Z := if z <? 2 ^ 63 then z else z - 2 ^ 64.

(** Prefixes and suffixes of a list by a machine integer.  Structural in the
    list, so that a huge count read from a corrupt file is harmless. *)
Fixpoint ztake {A} (n : Z) (l : list A) : list A :=
  match l with
  | [] => []
  | x :: l' => if n <=? 0 then [] else x :: ztake (n - 1) l'
  end.
Fixpoint zdrop {A} (n : Z) (l : list A) : list A :=
  match l with
  | [] => []
  | x :: l' => if n <=? 0 then x :: l' else zdrop (n - 1) l'
  end.

(** ** State monad

    [ST S A] is a computation that reads and updates a state of type [S]. *)

Definition ST (S A : Type) : Type := S → A * S.

#[global] Instance ST_ret S : MRet (ST S) := λ A a s, (a, s).
#[global] Instance ST_bind S : MBind (ST S) := λ A B f m s,
  let '(a, s') := m s in f a s'.

Definition gets {S A} (f : S → A) : ST S A := λ s, (f s, s).
Definition modify {S} (f : S → S) : ST S () := λ s, ((), f s).

(** A [for] loop over the elements of a list, for its effects. *)
Fixpoint for_each {S A} (l : list A) (body : A → ST S ()) : ST S () :=
  match l with
  | [] => mret ()
  | x :: l' => body x;; for_each l' body
  end.

(** Weakest precondition: [Q] holds of the result and final state of [m]. *)
Definition wp {S A} (m : ST S A) (Q : A → S → Prop) (s : S) : Prop :=
  Q (m s).1 (m s).2.

(** ** Byte conversions *)

Lemma byte_val_range b : 0 ≤ byte_val b < 256.
Proof. unfold byte_val. pose proof (Byte.to_N_bounded b). lia. Qed.

Lemma byte_of_val b : byte_of (byte_val b) = b.
Proof. destruct b; reflexivity. Qed.

Lemma byte_val_of z : byte_val (byte_of z) = z `mod` 256.
Proof.
  unfold byte_of, byte_val.
  pose proof (Z.mod_pos_bound z 256 ltac:(lia)) as Hr.
  destruct (Byte.of_N (Z.to_N (z `mod` 256))) as [b|] eqn:E; simpl.
  - apply Byte.to_of_N in E. rewrite E, Z2N.id; lia.
  - apply Byte.of_N_None_iff in E. lia.
Qed.

Lemma byte_val_of_small z : 0 ≤ z < 256 → byte_val (byte_of z) = z.
Proof. intros. rewrite byte_val_of. by apply Z.mod_small. Qed.

#[global] Instance byte_val_inj : Inj (=) (=) byte_val.
Proof. intros a b E. by rewrite <- (byte_of_val a), <- (byte_of_val b), E. Qed.

(** ** Words *)

Lemma wrap32_u32 z : is_u32 (wrap32 z).
Proof. unfold is_u32, wrap32. apply Z.mod_pos_bound. lia. Qed.
Lemma wrap64_u64 z : is_u64 (wrap64 z).
Proof. unfold is_u64, wrap64. apply Z.mod_pos_bound. lia. Qed.
Lemma wrap32_id z : is_u32 z → wrap32 z = z.
Proof. apply Z.mod_small. Qed.
Lemma wrap64_id z : is_u64 z → wrap64 z = z.
Proof. apply Z.mod_small. Qed.

(** ** Counted prefixes and suffixes *)

Section counted.
Context {A : Type}.
Implicit Types (l k : list A) (n : Z).

Lemma ztake_nonpos n l : n ≤ 0 → ztake n l = [].
Proof. intros. destruct l as [|x l]; simpl; [done|]. by destruct (Z.leb_spec n 0); [|lia]. Qed.
Lemma zdrop_nonpos n l : n ≤ 0 → zdrop n l = l.
Proof. intros. destruct l as [|x l]; simpl; [done|]. by destruct (Z.leb_spec n 0); [|lia]. Qed.

Lemma ztake_app l k : ztake (zlen l) (l ++ k) = l.
Proof.
  induction l as [|x l IH]; [by rewrite ztake_nonpos|].
  cbn [app ztake length]. destruct (Z.leb_spec (Z.of_nat (S (length l))) 0); [lia|].
  f_equal. replace (Z.of_nat (S (length l)) - 1) with (zlen l) by lia. apply IH.
Qed.
Lemma zdrop_app l k : zdrop (zlen l) (l ++ k) = k.
Proof.
  induction l as [|x l IH]; [by rewrite zdrop_nonpos|].
  cbn [app zdrop length]. destruct (Z.leb_spec (Z.of_nat (S (length l))) 0); [lia|].
  replace (Z.of_nat (S (length l)) - 1) with (zlen l) by lia. apply IH.
Qed.
Lemma ztake_all n l : zlen l ≤ n → ztake n l = l.
Proof.
  revert n. induction l as [|x l IH]; intros n; [done|].
  cbn [ztake length]. intros. destruct (Z.leb_spec n 0); [lia|].
  f_equal. apply IH. lia.
Qed.
Lemma zdrop_all n l : zlen l ≤ n → zdrop n l = [].
Proof.
  revert n. induction l as [|x l IH]; intros n; [done|].
  cbn [zdrop length]. intros. destruct (Z.leb_spec n 0); [lia|].
  apply IH. lia.
Qed.
Lemma ztake_app_le n l k : n ≤ zlen l → ztake n (l ++ k) = ztake n l.
Proof.
  revert n. induction l as [|x l IH]; intros n Hn; [by rewrite !ztake_nonpos|].
  cbn [ztake length app] in *. destruct (Z.leb_spec n 0); [done|].
  f_equal. apply IH. lia.
Qed.
Lemma zdrop_app_ge n l k : zlen l ≤ n → zdrop n (l ++ k) = zdrop (n - zlen l) k.
Proof.
  revert n. induction l as [|x l IH]; intros n Hn.
  { cbn. by rewrite Z.sub_0_r. }
  cbn [zdrop length app] in *. destruct (Z.leb_spec n 0); [lia|].
  rewrite IH by lia. f_equal. lia.
Qed.
Lemma ztake_length n l : 0 ≤ n → zlen (ztake n l) = Z.min n (zlen l).
Proof.
  revert n. induction l as [|x l IH]; intros n Hn; [cbn; lia|].
  cbn [ztake length]. destruct (Z.leb_spec n 0); [cbn; lia|].
  cbn [length]. rewrite !Nat2Z.inj_succ, IH by lia. lia.
Qed.
Lemma zdrop_zdrop a b l : 0 ≤ a → 0 ≤ b → zdrop b (zdrop a l) = zdrop (a + b) l.
Proof.
  revert a. induction l as [|x l IH]; intros a Ha Hb; [done|]. cbn [zdrop].
  destruct (Z.leb_spec a 0).
  - by replace (a + b) with b by lia.
  - destruct (Z.leb_spec (a + b) 0); [lia|]. rewrite IH by lia. f_equal. lia.
Qed.
Lemma ztake_zdrop n l : ztake n l ++ zdrop n l = l.
Proof.
  revert n. induction l as [|x l IH]; intros n; [done|].
  cbn. destruct (n <=? 0); [done|]. cbn. by rewrite IH.
Qed.
End counted.

Lemma take_zlen_app {A} n (l k : list A) : n = zlen l → ztake n (l ++ k) = l.
Proof. intros ->. apply ztake_app. Qed.
Lemma drop_zlen_app {A} n (l k : list A) : n = zlen l → zdrop n (l ++ k) = k.
Proof. intros ->. apply zdrop_app. Qed.

(** ** Filtering *)

Section filtering.
Context {A : Type} (P : A → Prop) `{∀ x, Decision (P x)}.
Lemma filter_all l : Forall P l → filter P l = l.
Proof. induction 1 as [|x l Hx _ IH]; [done|]. by rewrite filter_cons_True, IH. Qed.
Lemma filter_none l : Forall (λ x, ¬ P x) l → filter P l = [].
Proof. induction 1 as [|x l Hx _ IH]; [done|]. by rewrite filter_cons_False. Qed.
End filtering.

(** ** Rules of the weakest precondition *)

Section wp.
Context {S : Type}.

Lemma wp_ret {A} (a : A) (Q : A → S → Prop) s : Q a s → wp (mret a) Q s.
Proof. done. Qed.

Lemma wp_bind {A B} (m : ST S A) (f : A → ST S B) (Q : B → S → Prop) s :
  wp m (λ a s', wp (f a) Q s') s → wp (m ≫= f) Q s.
Proof. unfold wp, mbind, ST_bind. by destruct (m s). Qed.

Lemma wp_mono {A} (m : ST S A) (Q R : A → S → Prop) s :
  wp m Q s → (∀ a s', Q a s' → R a s') → wp m R s.
Proof. unfold wp. eauto. Qed.

Lemma wp_and {A} (m : ST S A) (Q R : A → S → Prop) s :
  wp m Q s → wp m R s → wp m (λ a s', Q a s' ∧ R a s') s.
Proof. unfold wp. eauto. Qed.

Lemma wp_gets {A} (f : S → A) (Q : A → S → Prop) s : Q (f s) s → wp (gets f) Q s.
Proof. done. Qed.

Lemma wp_modify (f : S → S) (Q : () → S → Prop) s : Q () (f s) → wp (modify f) Q s.
Proof. done. Qed.

(** Loop rule: an invariant indexed by the elements already visited. *)
Lemma wp_for_each_from {A} (l pre : list A) (body : A → ST S ())
    (I : list A → S → Prop) s :
  I pre s →
  (∀ vis x s', I vis s' → x ∈ l → wp (body x) (λ _, I (vis ++ [x])) s') →
  wp (for_each l body) (λ _, I (pre ++ l)) s.
Proof.
  revert s pre. induction l as [|x l IH]; intros s pre Hpre Hstep; simpl.
  { by rewrite app_nil_r. }
  apply wp_bind. eapply wp_mono; [apply Hstep; [done|set_solver]|].
  intros [] s' H'. replace (pre ++ x :: l) with ((pre ++ [x]) ++ l)
    by (by rewrite <- app_assoc).
  apply (IH s' (pre ++ [x]) H'). intros. apply Hstep; [done|set_solver].
Qed.

Lemma wp_for_each {A} (l : list A) (body : A → ST S ()) (I : list A → S → Prop) s :
  I [] s →
  (∀ vis x s', I vis s' → x ∈ l → wp (body x) (λ _, I (vis ++ [x])) s') →
  wp (for_each l body) (λ _, I l) s.
Proof. apply (wp_for_each_from l []). Qed.

Lemma run_bind {A B} (m : ST S A) (f : A → ST S B) s :
  (m ≫= f) s = f (m s).1 (m s).2.
Proof. unfold mbind, ST_bind. by destruct (m s). Qed.
Lemma run_bind_eq {A B} (m m' : ST S A) (f : A → ST S B) s s' : m s = m' s' → (m ≫= f) s = (m' ≫= f) s'.
Proof. intros E. by rewrite !run_bind, E. Qed.
Lemma run_bind_ret {A} (m : ST S A) s : (m ≫= mret) s = m s.
Proof. unfold mbind, ST_bind, mret, ST_ret. by destruct (m s). Qed.
End wp.

(** [wp_step lem]: apply the specification [lem] to the first statement of a
    block, leaving the rest with the specification's postcondition. *)
Ltac wp_step lem :=
  lazymatch goal with
  | |- wp (_ ≫= _) _ _ => apply wp_bind; eapply wp_mono; [eapply lem|]
  | |- wp _ _ _ => eapply wp_mono; [eapply lem|]
  end.

(** Linear arithmetic with division and remainder by constants. *)
Ltac div_lia := Z.to_euclidean_division_equations; lia.
