(* ===== verification/Slice.v ===== *)
(** * Slices: byte-string comparison

    [include/clomdb/slice.h].  A [Slice] is a non-owning view of a byte array;
    its value is the byte string it views.  The ordering below is also the one
    [std::map<std::string, _>] uses ([std::less<std::string>] compares with
    [char_traits<char>::compare], i.e. as [memcmp] does). *)

From S2P Require Import Prelude.

(** The constructors: the empty slice, [n] bytes at [d] (the list is the memory
    from [d] on), a [std::string], and a C string, which ends at its first NUL. *)
Definition Slice_empty : bytes := [].
Definition Slice_data (d : bytes) (n : Z) : bytes := ztake n d.
Definition Slice_string (s : bytes) : bytes := s.
Fixpoint strlen (s : bytes) : nat :=
  match s with
  | [] => 0
  | c :: s' => if decide (c = x00) then 0 else S (strlen s')
  end.
Definition Slice_cstring (s : bytes) : bytes := take (strlen s) s.

(** [size], [empty], [operator[]] (defined below the size only) and [ToString]. *)
Definition Slice_size (a : bytes) : Z := zlen a.
Definition Slice_is_empty (a : bytes) : bool := Slice_size a =? 0.
Definition Slice_at (a : bytes) (n : nat) : byte := nth n a x00.
Definition Slice_ToString (a : bytes) : bytes := ztake (Slice_size a) a.

(** [memcmp(a, b, n)]: the sign of the first difference of unsigned bytes. *)
Fixpoint memcmp (a b : bytes) (n : nat) : Z :=
  match n, a, b with
  | S n', x :: a', y :: b' =>
      if byte_val x <? byte_val y then -1
      else if byte_val y <? byte_val x then 1
      else memcmp a' b' n'
  | _, _, _ => 0
  end.

(** [Slice::compare]. *)
Definition Slice_compare (a b : bytes) : Z :=
  let min_len := if (length a <? length b)%nat then length a else length b in
  let r := memcmp a b min_len in
  if r =? 0 then
    if (length a <? length b)%nat then -1
    else if (length b <? length a)%nat then 1
    else r
  else r.

(** [Slice::starts_with], [operator==], [operator!=] and [operator<]. *)
Definition Slice_starts_with (a x : bytes) : bool :=
  (length x <=? length a)%nat && (memcmp a x (length x) =? 0).
Definition Slice_eqb (a b : bytes) : bool :=
  (length a =? length b)%nat && (memcmp a b (length a) =? 0).
Definition Slice_neb (a b : bytes) : bool := negb (Slice_eqb a b).
Definition Slice_ltb (a b : bytes) : bool := Slice_compare a b <? 0.

(** The order as a relation. *)
Definition key_lt (a b : bytes) : Prop := Slice_ltb a b = true.

(** Reference: lexicographic order on unsigned bytes, a proper prefix first. *)
Fixpoint lex_compare (a b : bytes) : Z :=
  match a, b with
  | [], [] => 0
  | [], _ :: _ => -1
  | _ :: _, [] => 1
  | x :: a', y :: b' =>
      if byte_val x <? byte_val y then -1
      else if byte_val y <? byte_val x then 1
      else lex_compare a' b'
  end.

(** ** Lemmas *)

Ltac byte_cmp :=
  repeat match goal with
  | |- context [byte_val ?x <? byte_val ?y] => destruct (Z.ltb_spec (byte_val x) (byte_val y))
  | H : context [byte_val ?x <? byte_val ?y] |- _ => destruct (Z.ltb_spec (byte_val x) (byte_val y))
  end.

Lemma Slice_compare_lex a b : Slice_compare a b = lex_compare a b.
Proof.
  revert b. induction a as [|x a IH]; intros [|y b]; try done.
  specialize (IH b). revert IH. unfold Slice_compare. cbn [length lex_compare].
  change (S (length a) <? S (length b))%nat with (length a <? length b)%nat.
  change (S (length b) <? S (length a))%nat with (length b <? length a)%nat.
  destruct (length a <? length b)%nat eqn:E1, (length b <? length a)%nat eqn:E2;
    cbn [memcmp]; byte_cmp; done.
Qed.

Lemma lex_compare_range a b : lex_compare a b = -1 ∨ lex_compare a b = 0 ∨ lex_compare a b = 1.
Proof. revert b. induction a as [|x a IH]; intros [|y b]; cbn; auto. byte_cmp; auto. Qed.

Lemma lex_compare_refl a : lex_compare a a = 0.
Proof. induction a as [|x a IH]; cbn; [done|]. byte_cmp; [lia|done]. Qed.

Lemma lex_compare_eq a b : lex_compare a b = 0 → a = b.
Proof.
  revert b. induction a as [|x a IH]; intros [|y b]; cbn; try done.
  byte_cmp; try done. intros E. f_equal; [apply (inj byte_val); lia|by apply IH].
Qed.

Lemma lex_compare_antisym a b : lex_compare b a = - lex_compare a b.
Proof.
  revert b. induction a as [|x a IH]; intros [|y b]; cbn; try done.
  byte_cmp; try done; try lia.
Qed.

Lemma lex_compare_trans a b c :
  lex_compare a b = -1 → lex_compare b c = -1 → lex_compare a c = -1.
Proof.
  revert b c. induction a as [|x a IH]; intros [|y b] [|z c]; cbn; try done.
  byte_cmp; try done; try lia. eauto.
Qed.

Lemma key_lt_lex a b : key_lt a b ↔ lex_compare a b = -1.
Proof.
  unfold key_lt, Slice_ltb. rewrite Slice_compare_lex, Z.ltb_lt.
  pose proof (lex_compare_range a b). lia.
Qed.

#[global] Instance key_lt_dec : RelDecision key_lt.
Proof. intros a b. unfold key_lt. apply _. Defined.

#[global] Instance key_lt_strict : StrictOrder key_lt.
Proof.
  split.
  - intros a Ha. apply key_lt_lex in Ha. by rewrite lex_compare_refl in Ha.
  - intros a b c. rewrite !key_lt_lex. apply lex_compare_trans.
Qed.

Lemma key_lt_trichotomy a b : key_lt a b ∨ a = b ∨ key_lt b a.
Proof.
  rewrite !key_lt_lex, (lex_compare_antisym a b).
  destruct (lex_compare_range a b) as [|[E|]]; [lia| |lia].
  right; left. by apply lex_compare_eq.
Qed.

Lemma key_lt_irrefl a : ¬ key_lt a a.
Proof. apply irreflexivity. apply _. Qed.

Lemma key_lt_asym a b : key_lt a b → ¬ key_lt b a.
Proof. intros H1 H2. by eapply key_lt_irrefl, transitivity. Qed.

Lemma key_lt_ne a b : key_lt a b → a ≠ b.
Proof. intros H ->. by eapply key_lt_irrefl. Qed.

Lemma Slice_ltb_false a b : Slice_ltb a b = false ↔ a = b ∨ key_lt b a.
Proof.
  split.
  - intros E. destruct (key_lt_trichotomy a b) as [H|]; [|done].
    unfold key_lt in H. congruence.
  - intros H. destruct (Slice_ltb a b) eqn:E; [|done].
    destruct H as [->|H]; exfalso; [by eapply key_lt_irrefl|by eapply key_lt_asym].
Qed.

Lemma memcmp_prefix a b : memcmp a b (length b) = 0 → (length b ≤ length a)%nat →
  b `prefix_of` a.
Proof.
  revert a. induction b as [|y b IH]; intros [|x a]; cbn; intros Hm Hl;
    try (by apply prefix_nil); [lia|].
  revert Hm. byte_cmp; try done. intros Hm.
  assert (x = y) as -> by (apply (inj byte_val); lia).
  apply prefix_cons, IH; [done|lia].
Qed.

Lemma memcmp_self a b : memcmp (b ++ a) b (length b) = 0.
Proof. induction b as [|y b IH]; [by destruct a|]. cbn. byte_cmp; [lia|done]. Qed.

Lemma Slice_starts_with_spec a x : Slice_starts_with a x = true ↔ x `prefix_of` a.
Proof.
  unfold Slice_starts_with. rewrite andb_true_iff, Nat.leb_le, Z.eqb_eq. split.
  - intros [? ?]. by apply memcmp_prefix.
  - intros [k ->]. rewrite length_app. split; [lia|apply memcmp_self].
Qed.

Lemma Slice_eqb_eq a b : Slice_eqb a b = true ↔ a = b.
Proof.
  unfold Slice_eqb. rewrite andb_true_iff, Nat.eqb_eq, Z.eqb_eq. split.
  - intros [El Em]. rewrite El in Em. apply memcmp_prefix in Em as [k ->]; [|lia].
    rewrite length_app in El. destruct k; [by rewrite app_nil_r|cbn in El; lia].
  - intros ->. split; [done|]. pose proof (memcmp_self [] b) as H. by rewrite app_nil_r in H.
Qed.

(** A slice of a C string has no NUL, and is the string up to it: a key with a
    NUL needs one of the other constructors. *)
Lemma Slice_cstring_spec s : x00 ∉ Slice_cstring s ∧ Slice_cstring s `prefix_of` s ∧
  (x00 ∉ s → Slice_cstring s = s) ∧ ∀ k rest, x00 ∉ k → Slice_cstring (k ++ (x00 :: rest)) = k.
Proof.
  unfold Slice_cstring. split_and!.
  - induction s as [|c s IH]; cbn; [set_solver|]. destruct (decide (c = x00)); set_solver.
  - apply prefix_take.
  - induction s as [|c s IH]; cbn; [done|]. intros H. apply not_elem_of_cons in H as [Hc H].
    destruct (decide (c = x00)); [congruence|]. cbn. by rewrite IH.
  - intros k rest. induction k as [|c k IH]; cbn; [done|]. intros H. apply not_elem_of_cons in H as [Hc H].
    destruct (decide (c = x00)); [congruence|]. cbn. by rewrite IH.
Qed.

Lemma Slice_ToString_id a : Slice_ToString a = a.
Proof. by apply ztake_all. Qed.
Lemma Slice_is_empty_spec a : Slice_is_empty a = true ↔ a = Slice_empty.
Proof. unfold Slice_is_empty, Slice_size. rewrite Z.eqb_eq. destruct a; cbn; split; try done; lia. Qed.
