(* ===== verification/Status.v ===== *)
(** * Status codes ([include/clomdb/status.h]) and options ([options.h]). *)

From S2P Require Import Prelude.

(** [Status::Code]. *)
Inductive Code :=
  | kOk | kNotFound | kCorruption | kIOError | kInvalidArgument
  | kNotSupported | kAlreadyExists.

#[global] Instance Code_eq_dec : EqDecision Code.
Proof. solve_decision. Defined.

(** [Status]: a code and a message. *)
Record Status := mkStatus { code : Code; msg : bytes }.

#[global] Instance Status_eq_dec : EqDecision Status.
Proof. solve_decision. Defined.

Definition OK : Status := mkStatus kOk [].
Definition NotFound (m : bytes) : Status := mkStatus kNotFound m.
Definition Corruption (m : bytes) : Status := mkStatus kCorruption m.
Definition IOError (m : bytes) : Status := mkStatus kIOError m.
Definition InvalidArgument (m : bytes) : Status := mkStatus kInvalidArgument m.
Definition NotSupported (m : bytes) : Status := mkStatus kNotSupported m.
Definition AlreadyExists (m : bytes) : Status := mkStatus kAlreadyExists m.

Definition ok (s : Status) : bool := bool_decide (code s = kOk).
Definition IsNotFound (s : Status) : bool := bool_decide (code s = kNotFound).
Definition IsCorruption (s : Status) : bool := bool_decide (code s = kCorruption).
Definition IsIOError (s : Status) : bool := bool_decide (code s = kIOError).

(** The static [names] table of [Status::ToString], indexed by the code. *)
Definition code_name (c : Code) : bytes :=
  match c with
  | kOk => str "OK" | kNotFound => str "NotFound" | kCorruption => str "Corruption"
  | kIOError => str "IOError" | kInvalidArgument => str "InvalidArgument"
  | kNotSupported => str "NotSupported" | kAlreadyExists => str "AlreadyExists"
  end.

(** [Status::ToString]. *)
Definition Status_ToString (s : Status) : bytes :=
  if ok s then str "OK" else code_name (code s) ++ str ": " ++ msg s.

(** [struct Options]; [size_t] and [int] fields are integers in range. *)
Record Options := mkOptions {
  create_if_missing : bool;
  error_if_exists : bool;
  memtable_flush_bytes : Z;
  l0_compaction_trigger : Z;
  level_size_multiplier : Z;
  level1_target_bytes : Z;
  bloom_bits_per_key : Z;
  sync_writes : bool;
  background_compaction : bool;
}.

(** The default member initialisers. *)
Definition default_options : Options :=
  mkOptions true false (4 * 1024 * 1024) 4 10 (16 * 1024 * 1024) 10 false true.

Record ReadOptions := mkReadOptions { verify_checksums : bool }.
Record WriteOptions := mkWriteOptions { sync : bool }.

(** Statement sequencing for functions returning [Status]:
    [if (!s.ok()) return s;] *)
Notation "'check' m ;; k" :=
  (m ≫= λ s, if ok s then k else mret s)
  (at level 100, m at next level, k at level 200, right associativity,
   format "'check'  m ;;  '//' k").

(** ** Lemmas *)

Lemma ok_true s : ok s = true ↔ code s = kOk.
Proof. unfold ok. by rewrite bool_decide_eq_true. Qed.
Lemma ok_OK : ok OK = true.
Proof. done. Qed.

(** Rule for [check]: an early return keeps the failed status. *)
Lemma wp_check {S} (m : ST S Status) (k : ST S Status) (Q : Status → S → Prop) s :
  wp m (λ r s', if ok r then wp k Q s' else Q r s') s → wp (check m;; k) Q s.
Proof.
  intros H. apply wp_bind. eapply wp_mono; [exact H|]. cbn beta.
  intros r s'. by destruct (ok r).
Qed.
