(* ===== verification/OrderedMap.v ===== *)
(** * [std::map<std::string, V>]

    An ordered map is the list of its bindings in iteration order: strictly
    increasing keys.  The operations the source uses are [m[k] = v], [find],
    [erase] and [lower_bound].  [omap_to_gmap] is its abstraction to a finite
    map; the refinement lemmas say that every operation implements the
    finite-map operation and keeps the list ordered. *)

From S2P Require Import Prelude Slice.

Section ordered_map.
Context {V : Type}.
Implicit Types (m : list (bytes * V)) (k : bytes) (v : V).

(** [m[k] = v] *)
Fixpoint omap_insert k v m : list (bytes * V) :=
  match m with
  | [] => [(k, v)]
  | (k', v') :: m' =>
      if Slice_ltb k k' then (k, v) :: (k', v') :: m'
      else if Slice_ltb k' k then (k', v') :: omap_insert k v m'
      else (k', v) :: m'
  end.

(** [m.find(k)] *)
Fixpoint omap_find k m : option V :=
  match m with
  | [] => None
  | (k', v') :: m' =>
      if Slice_ltb k k' then None
      else if Slice_ltb k' k then omap_find k m'
      else Some v'
  end.

(** [m.erase(k)] *)
Fixpoint omap_erase k m : list (bytes * V) :=
  match m with
  | [] => []
  | (k', v') :: m' =>
      if Slice_ltb k k' then (k', v') :: m'
      else if Slice_ltb k' k then (k', v') :: omap_erase k m'
      else m'
  end.

(** [m.lower_bound(k)]: the bindings from the first key not before [k]. *)
Fixpoint omap_lower_bound k m : list (bytes * V) :=
  match m with
  | [] => []
  | (k', v') :: m' => if Slice_ltb k' k then omap_lower_bound k m' else (k', v') :: m'
  end.

Definition omap_wf m : Prop := StronglySorted key_lt m.*1.
Definition omap_to_gmap m : gmap bytes V := list_to_map m.

Lemma omap_insert_not_nil k v m : omap_insert k v m ≠ [].
Proof. destruct m as [|[k' v'] m]; cbn; [done|]. by repeat case_match. Qed.
End ordered_map.
#[global] Arguments omap_to_gmap : simpl never.
#[global] Arguments omap_wf : simpl never.

(** ** Lemmas *)

(** Case analysis on the two comparisons of a search step. *)
Ltac key_cases k k' :=
  let E1 := fresh "Elt" in let E2 := fresh "Egt" in
  destruct (Slice_ltb k k') eqn:E1;
  [|destruct (Slice_ltb k' k) eqn:E2;
    [|assert (k = k') as ? by
        (apply Slice_ltb_false in E1 as [|E1]; [done|];
         apply Slice_ltb_false in E2 as [|E2]; [done|];
         by apply key_lt_asym in E1); subst k']];
  try change (key_lt k k') in E1; try change (key_lt k' k) in E2.

Section lemmas.
Context {V : Type}.
Implicit Types (m : list (bytes * V)) (k : bytes) (v : V).

Lemma omap_wf_cons k v m : omap_wf ((k, v) :: m) ↔
  Forall (key_lt k) m.*1 ∧ omap_wf m.
Proof. unfold omap_wf. cbn. apply StronglySorted_cons. Qed.

Lemma omap_wf_nil : omap_wf ([] : list (bytes * V)).
Proof. unfold omap_wf. constructor. Qed.

Lemma Forall_key_lt_notin k m : Forall (key_lt k) m.*1 → k ∉ m.*1.
Proof. rewrite Forall_forall. intros H Hk%H. by eapply key_lt_irrefl. Qed.

Lemma Forall_key_lt_weaken k k' (l : list bytes) :
  key_lt k k' → Forall (key_lt k') l → Forall (key_lt k) l.
Proof. intros Hk Hl. eapply Forall_impl; [done|]. intros x. by transitivity k'. Qed.

Lemma omap_wf_NoDup m : omap_wf m → NoDup m.*1.
Proof.
  induction m as [|[k v] m IH]; [constructor|].
  rewrite omap_wf_cons. intros [Hk Hm]. cbn. constructor; [|by apply IH].
  by apply Forall_key_lt_notin.
Qed.

Lemma omap_find_above k m : Forall (key_lt k) m.*1 → omap_to_gmap m !! k = None.
Proof. intros H. apply not_elem_of_list_to_map, Forall_key_lt_notin, H. Qed.

Lemma omap_to_gmap_nil : omap_to_gmap ([] : list (bytes * V)) = ∅.
Proof. done. Qed.

Lemma omap_to_gmap_cons k v m : omap_to_gmap ((k, v) :: m) = <[k := v]> (omap_to_gmap m).
Proof. done. Qed.

Lemma omap_find_spec k m : omap_wf m → omap_find k m = omap_to_gmap m !! k.
Proof.
  induction m as [|[k' v'] m IH]; [done|]. rewrite omap_wf_cons. intros [Hk' Hm].
  rewrite omap_to_gmap_cons. cbn. key_cases k k'.
  - rewrite lookup_insert_ne by (symmetry; by apply key_lt_ne).
    symmetry. apply omap_find_above. by eapply Forall_key_lt_weaken.
  - rewrite lookup_insert_ne by (by apply key_lt_ne). by apply IH.
  - by rewrite lookup_insert_eq.
Qed.

Lemma omap_insert_keys k v m k' :
  k' ∈ (omap_insert k v m).*1 → k' = k ∨ k' ∈ m.*1.
Proof.
  induction m as [|[k1 v1] m IH]; cbn; [set_solver|]. key_cases k k1; set_solver.
Qed.

Lemma omap_insert_wf k v m : omap_wf m → omap_wf (omap_insert k v m).
Proof.
  induction m as [|[k' v'] m IH]; cbn; [intros _; apply omap_wf_cons; repeat constructor|].
  rewrite omap_wf_cons. intros [Hk' Hm]. key_cases k k'; rewrite ?omap_wf_cons; [..|done].
  - split; [|done]. cbn. constructor; [done|]. by eapply Forall_key_lt_weaken.
  - split; [|by apply IH]. apply Forall_forall.
    intros x [->|Hx]%omap_insert_keys; [done|]. by eapply Forall_forall in Hk'.
Qed.

Lemma omap_insert_spec k v m : omap_wf m →
  omap_to_gmap (omap_insert k v m) = <[k := v]> (omap_to_gmap m).
Proof.
  induction m as [|[k' v'] m IH]; [done|].
  rewrite omap_wf_cons. intros [Hk' Hm]. cbn [omap_insert]. key_cases k k'.
  - done.
  - rewrite !omap_to_gmap_cons, IH by done. apply insert_insert_ne.
    intros ->. by eapply key_lt_irrefl.
  - by rewrite !omap_to_gmap_cons, insert_insert_eq.
Qed.

Lemma omap_erase_sub k m : (omap_erase k m).*1 ⊆ m.*1.
Proof. induction m as [|[k1 v1] m IH]; cbn; [done|]. key_cases k k1; set_solver. Qed.

Lemma omap_erase_wf k m : omap_wf m → omap_wf (omap_erase k m).
Proof.
  induction m as [|[k' v'] m IH]; cbn; [done|].
  rewrite omap_wf_cons. intros [Hk' Hm].
  key_cases k k'; rewrite ?omap_wf_cons; [done| |done].
  split; [|by apply IH]. apply Forall_forall.
  intros x Hx%omap_erase_sub. by eapply Forall_forall in Hk'.
Qed.

Lemma omap_erase_spec k m : omap_wf m →
  omap_to_gmap (omap_erase k m) = delete k (omap_to_gmap m).
Proof.
  induction m as [|[k' v'] m IH]; [intros _; by rewrite omap_to_gmap_nil, delete_empty|].
  rewrite omap_wf_cons. intros [Hk' Hm]. cbn [omap_erase].
  rewrite omap_to_gmap_cons. key_cases k k'.
  - rewrite delete_id; [done|]. rewrite lookup_insert_ne by (by apply not_eq_sym, key_lt_ne).
    apply omap_find_above. by eapply Forall_key_lt_weaken.
  - rewrite omap_to_gmap_cons, IH, delete_insert_ne; [done| |done].
    intros ->. by eapply key_lt_irrefl.
  - rewrite delete_insert_id; [done|]. by apply omap_find_above.
Qed.

Lemma omap_lower_bound_suffix k m :
  ∃ pre, m = pre ++ omap_lower_bound k m ∧ Forall (λ k', key_lt k' k) pre.*1.
Proof.
  induction m as [|[k' v'] m IH]; cbn; [by exists []|].
  destruct (Slice_ltb k' k) eqn:E; [|by exists []].
  destruct IH as [pre [Hm Hpre]]. exists ((k', v') :: pre).
  split; [by rewrite Hm at 1|]. cbn. by constructor.
Qed.

Lemma omap_lower_bound_ge k m : omap_wf m →
  Forall (λ k', ¬ key_lt k' k) (omap_lower_bound k m).*1.
Proof.
  induction m as [|[k' v'] m IH]; cbn; [constructor|].
  rewrite omap_wf_cons. intros [Hk' Hm]. destruct (Slice_ltb k' k) eqn:E; [by apply IH|].
  cbn. assert (¬ key_lt k' k) as Hk by (unfold key_lt; congruence).
  constructor; [done|]. eapply Forall_impl; [done|]. cbn.
  intros x Hx Hxk. apply Hk. by transitivity x.
Qed.

(** Two ordered maps with the same bindings are the same list. *)
Lemma omap_to_gmap_inj m1 m2 :
  omap_wf m1 → omap_wf m2 → omap_to_gmap m1 = omap_to_gmap m2 → m1 = m2.
Proof.
  intros H1 H2 E. pose proof (omap_wf_NoDup _ H1) as N1. pose proof (omap_wf_NoDup _ H2) as N2.
  assert (m1 ≡ₚ m2) as Hp.
  { apply list_to_map_inj; done. }
  clear E N1 N2. revert m2 H2 Hp. induction m1 as [|[k1 v1] m1 IH]; intros m2 H2 Hp.
  { by apply Permutation_nil_l in Hp. }
  destruct m2 as [|[k2 v2] m2]; [by apply Permutation_nil_r in Hp|].
  apply omap_wf_cons in H1 as [F1 H1]. pose proof H2 as H2'. apply omap_wf_cons in H2 as [F2 H2].
  assert ((k1, v1) = (k2, v2)) as E.
  { assert ((k1, v1) ∈ (k2, v2) :: m2) as [|Hin]%elem_of_cons by (rewrite <- Hp; set_solver); [done|].
    assert ((k2, v2) ∈ (k1, v1) :: m1) as [|Hin']%elem_of_cons by (rewrite Hp; set_solver); [done|].
    eapply (list_elem_of_fmap_2 fst) in Hin, Hin'. eapply Forall_forall in F1; [|done].
    eapply Forall_forall in F2; [|done]. by apply key_lt_asym in F1. }
  injection E as -> ->. f_equal. apply IH; [done..|]. by eapply Permutation_cons_inv.
Qed.

Lemma omap_to_gmap_elem m k v : omap_wf m → omap_to_gmap m !! k = Some v ↔ (k, v) ∈ m.
Proof. intros Hm. symmetry. by apply elem_of_list_to_map, omap_wf_NoDup. Qed.
End lemmas.

Create HintDb omap discriminated.
Create Rewrite HintDb omap.
#[export] Hint Resolve omap_wf_nil omap_insert_wf omap_erase_wf : omap.
#[export] Hint Rewrite @omap_insert_spec @omap_erase_spec using (eauto with omap) : omap.
