(* ===== verification/Coding.v ===== *)
(** * Integer and slice encodings ([include/clomdb/coding.h], lines 1-107)

    Little-endian fixed-width integers, LEB128 varints and length-prefixed
    slices.  A [const char* p] that advances towards a [limit] is the list of
    the bytes that remain before the limit; a null result is [None].
    [Pointers] has the same decoders on pointers into a buffer. *)

From S2P Require Import Prelude.

(** The [n] bytes of [v] in memory order on a little-endian machine, as
    [memcpy] copies them, and the integer read back from such bytes. *)
Fixpoint le_bytes (n : nat) (v : Z) : bytes :=
  match n with
  | O => []
  | S n' => byte_of v :: le_bytes n' (Z.shiftr v 8)
  end.
Fixpoint le_val (l : bytes) : Z :=
  match l with
  | [] => 0
  | b :: l' => byte_val b + 256 * le_val l'
  end.

Definition PutFixed32 (dst : bytes) (v : Z) : bytes := dst ++ le_bytes 4 v.
Definition PutFixed64 (dst : bytes) (v : Z) : bytes := dst ++ le_bytes 8 v.
Definition DecodeFixed32 (p : bytes) : Z := le_val (take 4 p).
Definition DecodeFixed64 (p : bytes) : Z := le_val (take 8 p).

(** The [while (v >= 0x80)] loop with a buffer of [n] bytes: the source's
    buffers of 5 and 10 bytes are never exceeded (see [varint_bytes_length]). *)
Fixpoint varint_bytes (n : nat) (v : Z) : bytes :=
  match n with
  | O => []
  | S n' =>
      if v >=? 128 then byte_of (Z.lor v 128) :: varint_bytes n' (Z.shiftr v 7)
      else [byte_of v]
  end.
Definition PutVarint32 (dst : bytes) (v : Z) : bytes := dst ++ varint_bytes 5 v.
Definition PutVarint64 (dst : bytes) (v : Z) : bytes := dst ++ varint_bytes 10 v.

(** [static_cast<uint32_t>(value.size())] truncates the length. *)
Definition PutLengthPrefixedSlice (dst value : bytes) : bytes :=
  PutVarint32 dst (wrap32 (zlen value)) ++ value.

(** The decoding loop: [for (shift = 0; shift <= last && p < limit; shift += 7)],
    on a result of [wrap]-reduced width. *)
Fixpoint varint_loop (wrap : Z → Z) (last : Z) (shift result : Z) (p : bytes) :
    option (Z * bytes) :=
  match p with
  | [] => None
  | b :: p' =>
      if shift <=? last then
        let byte := byte_val b in
        if negb (Z.land byte 128 =? 0) then
          varint_loop wrap last (shift + 7)
            (Z.lor result (wrap (Z.shiftl (Z.land byte 127) shift))) p'
        else Some (Z.lor result (wrap (Z.shiftl byte shift)), p')
      else None
  end.
Definition GetVarint32Ptr (p : bytes) : option (Z * bytes) := varint_loop wrap32 28 0 0 p.
Definition GetVarint64Ptr (p : bytes) : option (Z * bytes) := varint_loop wrap64 63 0 0 p.

(** Returns the slice and the advanced input; [None] is the [false] return. *)
Definition GetLengthPrefixedSlice (input : bytes) : option (bytes * bytes) :=
  match GetVarint32Ptr input with
  | None => None
  | Some (len, p) =>
      if zlen input <? (zlen input - zlen p) + len then None
      else Some (ztake len p, zdrop len p)
  end.

(** ** Lemmas: fixed-width integers *)

Lemma le_bytes_length n v : length (le_bytes n v) = n.
Proof. revert v. induction n; intros; cbn; [done|]. by rewrite IHn. Qed.

Lemma le_val_bytes n v : le_val (le_bytes n v) = v `mod` 2 ^ (8 * Z.of_nat n).
Proof.
  revert v. induction n as [|n IH]; intros v; cbn [le_bytes le_val]; [by rewrite Z.mod_1_r|].
  rewrite IH, byte_val_of, Z.shiftr_div_pow2 by lia. change (2 ^ 8) with 256.
  replace (8 * Z.of_nat (S n)) with (8 + 8 * Z.of_nat n) by lia.
  rewrite Z.pow_add_r by lia. change (2 ^ 8) with 256.
  rewrite Z.rem_mul_r by lia. lia.
Qed.

Lemma le_val_range l : 0 ≤ le_val l < 2 ^ (8 * zlen l).
Proof.
  induction l as [|b l IH]; cbn [le_val length]; [lia|].
  replace (8 * Z.of_nat (S (length l))) with (8 + 8 * zlen l) by lia.
  rewrite Z.pow_add_r by lia. pose proof (byte_val_range b). lia.
Qed.

Lemma le_bytes_val l : le_bytes (length l) (le_val l) = l.
Proof.
  induction l as [|b l IH]; [done|]. cbn [length le_bytes le_val].
  pose proof (byte_val_range b). f_equal.
  - apply (inj byte_val). rewrite byte_val_of.
    rewrite (Z.mul_comm 256), Z.mod_add, Z.mod_small; lia.
  - rewrite Z.shiftr_div_pow2 by lia. change (2 ^ 8) with 256.
    rewrite (Z.mul_comm 256), Z.div_add, Z.div_small by lia. by rewrite Z.add_0_l.
Qed.

Lemma DecodeFixed32_le v rest : is_u32 v → DecodeFixed32 (le_bytes 4 v ++ rest) = v.
Proof.
  intros Hv. unfold DecodeFixed32. rewrite take_app_length' by (by rewrite le_bytes_length).
  rewrite le_val_bytes. by apply Z.mod_small.
Qed.
Lemma DecodeFixed64_le v rest : is_u64 v → DecodeFixed64 (le_bytes 8 v ++ rest) = v.
Proof.
  intros Hv. unfold DecodeFixed64. rewrite take_app_length' by (by rewrite le_bytes_length).
  rewrite le_val_bytes. by apply Z.mod_small.
Qed.
Lemma DecodeFixed32_u32 p : is_u32 (DecodeFixed32 p).
Proof.
  unfold DecodeFixed32, is_u32. pose proof (le_val_range (take 4 p)) as [? H].
  split; [done|]. eapply Z.lt_le_trans; [exact H|].
  apply Z.pow_le_mono_r; [lia|]. rewrite length_take. lia.
Qed.
Lemma DecodeFixed64_u64 p : is_u64 (DecodeFixed64 p).
Proof.
  unfold DecodeFixed64, is_u64. pose proof (le_val_range (take 8 p)) as [? H].
  split; [done|]. eapply Z.lt_le_trans; [exact H|].
  apply Z.pow_le_mono_r; [lia|]. rewrite length_take. lia.
Qed.

(** ** Lemmas: varints *)

Lemma varint_byte_low v : Z.land (Z.lor v 128 `mod` 256) 127 = v `mod` 128.
Proof.
  change 127 with (Z.ones 7). change 128 with (2 ^ 7) at 2. change 256 with (2 ^ 8).
  rewrite <- (Z.land_ones v 7), <- (Z.land_ones _ 8) by lia. apply Z.bits_inj'. intros i Hi.
  rewrite !Z.land_spec, Z.lor_spec, !Z.testbit_ones by lia. change 128 with (2 ^ 7).
  rewrite Z.pow2_bits_eqb by lia.
  destruct (Z.ltb_spec i 7), (Z.ltb_spec i 8), (Z.eqb_spec 7 i), (Z.leb_spec 0 i);
    try lia; by destruct (Z.testbit v i).
Qed.

Lemma varint_byte_high v : Z.land (Z.lor v 128 `mod` 256) 128 = 128.
Proof.
  change 256 with (2 ^ 8). rewrite <- (Z.land_ones _ 8) by lia.
  apply Z.bits_inj'. intros i Hi.
  rewrite !Z.land_spec, Z.lor_spec, !Z.testbit_ones by lia. change 128 with (2 ^ 7).
  rewrite Z.pow2_bits_eqb by lia.
  destruct (Z.ltb_spec i 8), (Z.eqb_spec 7 i), (Z.leb_spec 0 i);
    try lia; by destruct (Z.testbit v i).
Qed.

Lemma land_small_128 v : 0 ≤ v < 128 → Z.land v 128 = 0.
Proof.
  intros. change 128 with (2 ^ 7). apply Z.bits_inj'. intros i Hi.
  rewrite Z.land_spec, Z.pow2_bits_eqb, Z.bits_0 by lia.
  destruct (Z.eqb_spec 7 i) as [<-|]; [|by rewrite andb_false_r].
  rewrite <- (Z.mod_small v (2 ^ 7)) by lia. rewrite Z.mod_pow2_bits_high by lia. done.
Qed.

(** A disjoint [|] is an addition. *)
Lemma lor_shiftl_add a b s : 0 ≤ s → 0 ≤ a < 2 ^ s → Z.lor a (Z.shiftl b s) = a + b * 2 ^ s.
Proof.
  intros Hs Ha. rewrite <- Z.shiftl_mul_pow2 by done. symmetry.
  rewrite <- Z.lxor_lor, Z.add_nocarry_lxor; [done|..].
  all: apply Z.bits_inj'; intros i Hi; rewrite Z.land_spec, Z.bits_0, Z.shiftl_spec by lia.
  all: destruct (Z.ltb_spec i s); [rewrite (Z.testbit_neg_r b) by lia; by rewrite andb_false_r|].
  all: rewrite <- (Z.mod_small a (2 ^ s)) by done; by rewrite Z.mod_pow2_bits_high by lia.
Qed.

Lemma varint_loop_bytes (w last : Z) n v shift result rest :
  0 ≤ shift → 0 ≤ v < 2 ^ (7 * Z.of_nat (S n)) → v * 2 ^ shift < 2 ^ w →
  0 ≤ result < 2 ^ shift → shift + 7 * Z.of_nat n ≤ last →
  varint_loop (λ z, z `mod` 2 ^ w) last shift result (varint_bytes (S n) v ++ rest)
  = Some (result + v * 2 ^ shift, rest).
Proof.
  revert v shift result. induction n as [|n IH]; intros v shift result Hs Hv Hw Hr Hl.
  - cbn [varint_bytes]. rewrite Z.geb_leb. change (2 ^ (7 * Z.of_nat 1)) with 128 in Hv.
    destruct (Z.leb_spec 128 v); [lia|]. cbn [app varint_loop].
    destruct (Z.leb_spec shift last); [|lia].
    rewrite byte_val_of_small, land_small_128 by lia. cbn [negb Z.eqb].
    rewrite Z.mod_small by (rewrite Z.shiftl_mul_pow2 by lia; lia).
    by rewrite lor_shiftl_add by lia.
  - remember (S n) as n1. cbn [varint_bytes]. rewrite Z.geb_leb.
    assert (0 < 2 ^ shift) by (apply Z.pow_pos_nonneg; lia).
    destruct (Z.leb_spec 128 v).
    + cbn [app varint_loop]. destruct (Z.leb_spec shift last); [|lia].
      rewrite byte_val_of, varint_byte_high, varint_byte_low. cbn [negb Z.eqb].
      pose proof (Z.mod_pos_bound v 128 ltac:(lia)).
      pose proof (Z.div_mod v 128 ltac:(lia)).
      rewrite Z.mod_small
        by (rewrite Z.shiftl_mul_pow2 by lia; split; [lia|];
            eapply Z.le_lt_trans; [|exact Hw]; apply Z.mul_le_mono_nonneg_r; lia).
      rewrite lor_shiftl_add by lia.
      rewrite Z.shiftr_div_pow2 by lia. change (2 ^ 7) with 128. subst n1.
      rewrite IH.
      * rewrite Z.pow_add_r by lia. change (2 ^ 7) with 128. do 2 f_equal. nia.
      * lia.
      * split; [lia|]. apply Z.div_lt_upper_bound; [lia|].
        replace (7 * Z.of_nat (S (S n))) with (7 + 7 * Z.of_nat (S n)) in Hv by lia.
        rewrite Z.pow_add_r in Hv by lia. lia.
      * rewrite Z.pow_add_r by lia. change (2 ^ 7) with 128. nia.
      * rewrite Z.pow_add_r by lia. change (2 ^ 7) with 128. nia.
      * lia.
    + cbn [app varint_loop]. destruct (Z.leb_spec shift last); [|lia].
      rewrite byte_val_of_small, land_small_128 by lia. cbn [negb Z.eqb].
      rewrite Z.mod_small by (rewrite Z.shiftl_mul_pow2 by lia; lia).
      by rewrite lor_shiftl_add by lia.
Qed.

Lemma GetVarint32_bytes v rest : is_u32 v →
  GetVarint32Ptr (varint_bytes 5 v ++ rest) = Some (v, rest).
Proof.
  intros Hv. unfold is_u32 in Hv. unfold GetVarint32Ptr, wrap32.
  rewrite varint_loop_bytes; [|lia..]. do 2 f_equal. lia.
Qed.
Lemma GetVarint64_bytes v rest : is_u64 v →
  GetVarint64Ptr (varint_bytes 10 v ++ rest) = Some (v, rest).
Proof.
  intros Hv. unfold is_u64 in Hv. unfold GetVarint64Ptr, wrap64.
  rewrite varint_loop_bytes; [|lia..]. do 2 f_equal. lia.
Qed.

(** The loop stops before the buffer is full: [n] bytes hold [7 * n] bits. *)
Lemma varint_bytes_length n v : (1 ≤ length (varint_bytes (S n) v) ≤ S n)%nat.
Proof.
  revert v. induction n as [|n IH]; intros v; [by cbn; destruct (v >=? 128); cbn; lia|].
  remember (S n) as n1. cbn [varint_bytes]. destruct (v >=? 128); cbn [length]; [|lia].
  specialize (IH (Z.shiftr v 7)). lia.
Qed.

(** Every byte but the last carries the continuation bit. *)
Lemma varint_bytes_shape n v : 0 ≤ v < 2 ^ (7 * Z.of_nat (S n)) →
  ∃ pre b, varint_bytes (S n) v = pre ++ [b] ∧
    Forall (λ c, Z.land (byte_val c) 128 ≠ 0) pre ∧ Z.land (byte_val b) 128 = 0.
Proof.
  revert v. induction n as [|n IH]; intros v Hv.
  - change (2 ^ (7 * Z.of_nat 1)) with 128 in Hv.
    cbn [varint_bytes]. rewrite Z.geb_leb. destruct (Z.leb_spec 128 v); [lia|].
    exists [], (byte_of v). rewrite byte_val_of_small, land_small_128 by lia. done.
  - remember (S n) as n1. cbn [varint_bytes]. rewrite Z.geb_leb. destruct (Z.leb_spec 128 v).
    + destruct (IH (Z.shiftr v 7)) as (pre & b & E & H1 & H2); subst n1.
      { rewrite Z.shiftr_div_pow2 by lia. change (2 ^ 7) with 128.
        split; [apply Z.div_pos; lia|]. apply Z.div_lt_upper_bound; [lia|].
        replace (7 * Z.of_nat (S (S n))) with (7 + 7 * Z.of_nat (S n)) in Hv by lia.
        rewrite Z.pow_add_r in Hv by lia. lia. }
      exists (byte_of (Z.lor v 128) :: pre), b. rewrite E. split_and!; [done| |done].
      constructor; [|done]. by rewrite byte_val_of, varint_byte_high.
    + exists [], (byte_of v). rewrite byte_val_of_small, land_small_128 by lia. done.
Qed.

(** ** Lemmas: length-prefixed slices *)

Definition lp_slice (value : bytes) : bytes := PutLengthPrefixedSlice [] value.

Lemma PutLengthPrefixedSlice_app dst value :
  PutLengthPrefixedSlice dst value = dst ++ lp_slice value.
Proof. unfold lp_slice, PutLengthPrefixedSlice, PutVarint32. by rewrite app_nil_l, <- app_assoc. Qed.

Lemma lp_slice_unfold value : lp_slice value = varint_bytes 5 (wrap32 (zlen value)) ++ value.
Proof. done. Qed.

(** A decoded varint is a word, and its bytes are a non-empty prefix. *)
Lemma varint_loop_suffix wrap last shift result p v q :
  varint_loop wrap last shift result p = Some (v, q) → ∃ pre, p = pre ++ q ∧ pre ≠ [].
Proof.
  revert shift result. induction p as [|b p IH]; intros shift result; cbn; [done|].
  destruct (shift <=? last); [|done]. destruct (negb _).
  - intros [pre [-> _]]%IH. by exists (b :: pre).
  - intros [= <- <-]. by exists [b].
Qed.

Lemma lor_word w a b : 0 ≤ w → 0 ≤ a < 2 ^ w → 0 ≤ b < 2 ^ w → 0 ≤ Z.lor a b < 2 ^ w.
Proof.
  intros Hw Ha Hb. split; [apply Z.lor_nonneg; lia|].
  rewrite <- (Z.mod_small a (2 ^ w)), <- (Z.mod_small b (2 ^ w)) by done.
  rewrite <- !Z.land_ones, <- Z.land_lor_distr_l, Z.land_ones by lia.
  apply Z.mod_pos_bound. by apply Z.pow_pos_nonneg.
Qed.

Lemma varint_loop_word w last shift result p v q : 0 ≤ w → 0 ≤ result < 2 ^ w →
  varint_loop (λ z, z `mod` 2 ^ w) last shift result p = Some (v, q) → 0 ≤ v < 2 ^ w.
Proof.
  intros Hw. assert (0 < 2 ^ w) by by apply Z.pow_pos_nonneg.
  revert shift result. induction p as [|b p IH]; intros shift result Hr; cbn [varint_loop]; [done|].
  destruct (shift <=? last); [|done]. destruct (negb _).
  - apply IH, lor_word; [done..|]. by apply Z.mod_pos_bound.
  - intros [= <- <-]. apply lor_word; [done..|]. by apply Z.mod_pos_bound.
Qed.

Lemma GetVarint32Ptr_suffix p v q :
  GetVarint32Ptr p = Some (v, q) → is_u32 v ∧ ∃ pre, p = pre ++ q ∧ pre ≠ [].
Proof.
  intros E. split; [|by eapply varint_loop_suffix].
  by eapply (varint_loop_word 32 28 0 0); [..|exact E].
Qed.

Lemma GetVarint64Ptr_suffix p v q :
  GetVarint64Ptr p = Some (v, q) → is_u64 v ∧ ∃ pre, p = pre ++ q ∧ pre ≠ [].
Proof.
  intros E. split; [|by eapply varint_loop_suffix].
  by eapply (varint_loop_word 64 63 0 0); [..|exact E].
Qed.

Lemma GetLengthPrefixedSlice_lp value rest : zlen value < 2 ^ 32 →
  GetLengthPrefixedSlice (lp_slice value ++ rest) = Some (value, rest).
Proof.
  intros Hv. unfold GetLengthPrefixedSlice. rewrite lp_slice_unfold, <- app_assoc.
  rewrite wrap32_id by (unfold is_u32; lia).
  rewrite GetVarint32_bytes by (unfold is_u32; lia).
  rewrite !length_app. destruct (Z.ltb_spec (Z.of_nat (length (varint_bytes 5 (zlen value)) +
    (length value + length rest)))
    (Z.of_nat (length (varint_bytes 5 (zlen value)) + (length value + length rest)) -
       Z.of_nat (length value + length rest) + zlen value)); [lia|].
  by rewrite ztake_app, zdrop_app.
Qed.

(** Whatever it parses lies inside the input: header, slice, rest. *)
Lemma GetLengthPrefixedSlice_inside input s rest :
  GetLengthPrefixedSlice input = Some (s, rest) →
  ∃ hdr, input = hdr ++ s ++ rest ∧ hdr ≠ [] ∧ zlen s < 2 ^ 32.
Proof.
  unfold GetLengthPrefixedSlice.
  destruct (GetVarint32Ptr input) as [[len p]|] eqn:E; [|done].
  apply GetVarint32Ptr_suffix in E as [Hu [pre [-> Hpre]]]. unfold is_u32 in Hu.
  rewrite length_app. case_match eqn:El; [done|]. apply Z.ltb_ge in El.
  intros [= <- <-]. exists pre. rewrite ztake_zdrop, ztake_length by lia.
  split_and!; [done|done|lia].
Qed.

Lemma GetLengthPrefixedSlice_shorter input s rest :
  GetLengthPrefixedSlice input = Some (s, rest) → (length rest < length input)%nat.
Proof.
  intros (hdr & -> & Hh & _)%GetLengthPrefixedSlice_inside.
  rewrite !length_app. destruct hdr; [done|]. cbn. lia.
Qed.

Lemma lp_slice_length value : (length value < length (lp_slice value) ≤ length value + 5)%nat.
Proof.
  rewrite lp_slice_unfold, length_app.
  pose proof (varint_bytes_length 4 (wrap32 (zlen value))). lia.
Qed.

#[global] Arguments le_bytes : simpl never.
#[global] Arguments varint_bytes : simpl never.
#[global] Arguments DecodeFixed32 : simpl never.
#[global] Arguments DecodeFixed64 : simpl never.
#[global] Arguments GetVarint32Ptr : simpl never.
#[global] Arguments GetLengthPrefixedSlice : simpl never.
#[global] Opaque lp_slice.

(** ** Codecs

    What a client of an encoding relies on: decoding an encoded value followed
    by anything gives the value back and leaves the rest. *)

Record codec (A : Type) := Codec {
  cenc : A → bytes;
  cdec : bytes → option (A * bytes);
  cdom : A → Prop;
}.
Arguments Codec {A}. Arguments cenc {A}. Arguments cdec {A}. Arguments cdom {A}.

Class Lawful {A} (c : codec A) : Prop := {
  decode_encode_app : ∀ a rest, cdom c a → cdec c (cenc c a ++ rest) = Some (a, rest);
  encode_nonempty : ∀ a, cenc c a ≠ [];
}.

Definition varint32_codec : codec Z := Codec (varint_bytes 5) GetVarint32Ptr is_u32.
Definition varint64_codec : codec Z := Codec (varint_bytes 10) GetVarint64Ptr is_u64.
Definition slice_codec : codec bytes :=
  Codec lp_slice GetLengthPrefixedSlice (λ v, zlen v < 2 ^ 32).

#[global] Instance varint32_lawful : Lawful varint32_codec.
Proof.
  split; [apply GetVarint32_bytes|]. intros a E.
  pose proof (varint_bytes_length 4 a) as H. cbn in E. rewrite E in H. cbn in H. lia.
Qed.
#[global] Instance varint64_lawful : Lawful varint64_codec.
Proof.
  split; [apply GetVarint64_bytes|]. intros a E.
  pose proof (varint_bytes_length 9 a) as H. cbn in E. rewrite E in H. cbn in H. lia.
Qed.
#[global] Instance slice_lawful : Lawful slice_codec.
Proof.
  split; [intros a rest; apply GetLengthPrefixedSlice_lp|]. intros a E.
  pose proof (lp_slice_length a) as H. cbn in E. rewrite E in H. cbn in H. lia.
Qed.

(** A stream of encoded values, and reading it back until it is empty. *)
Section stream.
Context {A} (c : codec A) `{!Lawful c}.

Fixpoint encode_all (l : list A) : bytes :=
  match l with [] => [] | a :: l' => cenc c a ++ encode_all l' end.
Fixpoint decode_all (fuel : nat) (p : bytes) : option (list A) :=
  match p, fuel with
  | [], _ => Some []
  | _, O => None
  | _, S fuel' => '(a, q) ← cdec c p; l ← decode_all fuel' q; Some (a :: l)
  end.

Lemma decode_encode_all l : Forall (cdom c) l →
  decode_all (length (encode_all l)) (encode_all l) = Some l.
Proof.
  assert (∀ fuel, (length (encode_all l) ≤ fuel)%nat → Forall (cdom c) l →
    decode_all fuel (encode_all l) = Some l) as H; [|intros; by apply H].
  induction l as [|a l IH]; intros fuel Hf Hl; [by destruct fuel|].
  apply Forall_cons in Hl as [Ha Hl]. cbn [encode_all] in *.
  pose proof (encode_nonempty a) as Hne. rewrite length_app in Hf.
  destruct (cenc c a) as [|b e] eqn:E; [done|]. cbn [length app] in *.
  destruct fuel as [|fuel]; [lia|]. cbn [decode_all].
  change (b :: e ++ encode_all l) with ((b :: e) ++ encode_all l).
  rewrite <- E, decode_encode_app by done. cbn. rewrite IH by (done || lia). done.
Qed.
End stream.
