(* ===== verification/Crc32c.v ===== *)
(** * CRC32C ([class CRC32C] of [include/clomdb/coding.h], lines 112-151)

    The byte-wise table implementation, proved equal to the bit-serial
    definition of the Castagnoli CRC, and the detection property the log and
    the manifest rely on: two byte strings that differ in exactly one byte
    have different checksums. *)

From S2P Require Import Prelude.

(** One step of the inner loop of [Table()]. *)
Definition crc_bit (c : Z) : Z :=
  if negb (Z.land c 1 =? 0) then Z.lxor 0x82F63B78 (Z.shiftr c 1) else Z.shiftr c 1.

(** [for (k = 0; k < 8; k++) c = ...] *)
Definition crc_entry (n : Z) : Z := Nat.iter 8 crc_bit n.

Definition Table : list Z := crc_entry <$> seqZ 0 256.

(** [table[(c ^ p[i]) & 0xFF] ^ (c >> 8)] *)
Definition crc_step (table : list Z) (c : Z) (b : byte) : Z :=
  Z.lxor (nth (Z.to_nat (Z.land (Z.lxor c (byte_val b)) 0xFF)) table 0) (Z.shiftr c 8).

Definition Extend (crc : Z) (data : bytes) : Z :=
  let table := Table in
  let c := Z.lxor crc 0xFFFFFFFF in
  Z.lxor (fold_left (crc_step table) data c) 0xFFFFFFFF.

Definition Value (data : bytes) : Z := Extend 0 data.

Definition Mask (crc : Z) : Z :=
  wrap32 (Z.lor (Z.shiftr crc 15) (wrap32 (Z.shiftl crc 17)) + 0xa282ead8).
Definition Unmask (masked : Z) : Z :=
  let rot := wrap32 (masked - 0xa282ead8) in
  Z.lor (Z.shiftr rot 17) (wrap32 (Z.shiftl rot 15)).

(** The same register fed bit by bit, without the table: a step towards the
    definition of the checksum, which is in [Crc32cSpec]. *)
Definition crc_bitwise_byte (c : Z) (b : byte) : Z := Nat.iter 8 crc_bit (Z.lxor c (byte_val b)).
Definition crc_bitwise (data : bytes) : Z :=
  Z.lxor (fold_left crc_bitwise_byte data 0xFFFFFFFF) 0xFFFFFFFF.

(** ** Lemmas: words under bit operations *)

Lemma u32_bits z : is_u32 z ↔ 0 ≤ z ∧ ∀ i, 32 ≤ i → Z.testbit z i = false.
Proof.
  unfold is_u32. split.
  - intros H. split; [lia|]. intros i Hi. rewrite <- (Z.mod_small z (2 ^ 32)) by done.
    by apply Z.mod_pow2_bits_high; lia.
  - intros [Hz Hb]. split; [done|]. assert (z = z `mod` 2 ^ 32) as ->; [|apply Z.mod_pos_bound; lia].
    apply Z.bits_inj'. intros i Hi. destruct (Z.ltb_spec i 32).
    + by rewrite Z.mod_pow2_bits_low by lia.
    + by rewrite Z.mod_pow2_bits_high, Hb by lia.
Qed.

Lemma lxor_u32 a b : is_u32 a → is_u32 b → is_u32 (Z.lxor a b).
Proof.
  rewrite !u32_bits. intros [Ha Ba] [Hb Bb]. split.
  - apply Z.lxor_nonneg. lia.
  - intros i Hi. by rewrite Z.lxor_spec, Ba, Bb.
Qed.

Lemma shiftr_u32 a n : 0 ≤ n → is_u32 a → is_u32 (Z.shiftr a n).
Proof.
  unfold is_u32. intros Hn Ha. rewrite Z.shiftr_div_pow2 by done.
  pose proof (Z.pow_pos_nonneg 2 n ltac:(lia) Hn).
  split; [apply Z.div_pos; lia|]. apply Z.div_lt_upper_bound; nia.
Qed.

Lemma crc_bit_u32 c : is_u32 c → is_u32 (crc_bit c).
Proof.
  intros H. unfold crc_bit. case_match; [apply lxor_u32|]; try by apply shiftr_u32.
  by unfold is_u32.
Qed.

(** ** Lemmas: the table is the bit-serial register (linearity) *)

Lemma crc_bit_odd c : crc_bit c =
  Z.lxor (if Z.odd c then 0x82F63B78 else 0) (Z.shiftr c 1).
Proof.
  unfold crc_bit. change 1 with (Z.ones 1) at 1. rewrite Z.land_ones by lia.
  change (2 ^ 1) with 2. rewrite Zmod_odd. by destruct (Z.odd c).
Qed.

Lemma crc_bit_lxor a b : crc_bit (Z.lxor a b) = Z.lxor (crc_bit a) (crc_bit b).
Proof.
  rewrite !crc_bit_odd, Z.shiftr_lxor. rewrite <- !Z.bit0_odd, Z.lxor_spec.
  apply Z.bits_inj'. intros i Hi. rewrite !Z.lxor_spec.
  destruct (Z.testbit a 0), (Z.testbit b 0); cbn [xorb]; rewrite ?Z.bits_0.
  all: destruct (Z.testbit (Z.shiftr a 1) i), (Z.testbit (Z.shiftr b 1) i);
    try by destruct (Z.testbit 0x82F63B78 i).
Qed.

Lemma crc_iter_lxor n a b :
  Nat.iter n crc_bit (Z.lxor a b) = Z.lxor (Nat.iter n crc_bit a) (Nat.iter n crc_bit b).
Proof. induction n as [|n IH]; [done|]. by rewrite !Nat.iter_succ, IH, crc_bit_lxor. Qed.

Lemma crc_iter_shiftl n a : Nat.iter n crc_bit (Z.shiftl a (Z.of_nat n)) = a.
Proof.
  revert a. induction n as [|n IH]; intros a; [by rewrite Z.shiftl_0_r|].
  rewrite Nat.iter_succ_r. rewrite <- (IH a) at 2. f_equal.
  replace (Z.of_nat (S n)) with (Z.of_nat n + 1) by lia.
  rewrite <- Z.shiftl_shiftl by lia. rewrite crc_bit_odd.
  rewrite <- Z.bit0_odd, Z.shiftl_spec_low by lia.
  rewrite Z.lxor_0_l, Z.shiftr_shiftl_l by lia. by rewrite Z.shiftl_0_r.
Qed.

Lemma split_byte c : c = Z.lxor (Z.land c 255) (Z.shiftl (Z.shiftr c 8) 8).
Proof.
  change 255 with (Z.ones 8). apply Z.bits_inj'. intros i Hi.
  rewrite Z.lxor_spec, Z.land_spec, Z.testbit_ones by lia.
  destruct (Z.ltb_spec i 8).
  - rewrite Z.shiftl_spec_low by lia. destruct (Z.leb_spec 0 i); [|lia].
    by rewrite andb_true_r, xorb_false_r.
  - rewrite Z.shiftl_spec_high, Z.shiftr_spec by lia. rewrite !andb_false_r.
    by rewrite Z.sub_add, xorb_false_l.
Qed.

Lemma land_255_range c : 0 ≤ Z.land c 255 < 256.
Proof. change 255 with (Z.ones 8). rewrite Z.land_ones by lia. apply Z.mod_pos_bound. lia. Qed.

Lemma Table_nth i : 0 ≤ i < 256 → nth (Z.to_nat i) Table 0 = crc_entry i.
Proof.
  intros Hi. unfold Table. rewrite nth_lookup, list_lookup_fmap, lookup_seqZ_lt by lia.
  cbn -[crc_entry]. by rewrite Z2Nat.id by lia.
Qed.

Lemma crc_step_bitwise c b : is_u32 c → crc_step Table c b = crc_bitwise_byte c b.
Proof.
  intros Hc. unfold crc_step, crc_bitwise_byte.
  rewrite Table_nth by apply land_255_range. unfold crc_entry.
  rewrite (split_byte (Z.lxor c (byte_val b))) at 2. rewrite crc_iter_lxor.
  change 8 with (Z.of_nat 8) at 3. rewrite crc_iter_shiftl. f_equal.
  rewrite Z.shiftr_lxor, (Z.shiftr_div_pow2 (byte_val b)) by lia.
  pose proof (byte_val_range b). rewrite (Z.div_small (byte_val b)) by done.
  by rewrite Z.lxor_0_r.
Qed.

Lemma byte_val_u32 b : is_u32 (byte_val b).
Proof. pose proof (byte_val_range b). unfold is_u32. lia. Qed.

Lemma crc_iter_u32 n c : is_u32 c → is_u32 (Nat.iter n crc_bit c).
Proof. intros. induction n; [done|]. rewrite Nat.iter_succ. by apply crc_bit_u32. Qed.

Lemma crc_step_u32 c b : is_u32 c → is_u32 (crc_step Table c b).
Proof.
  intros. rewrite crc_step_bitwise by done. apply crc_iter_u32, lxor_u32; [done|].
  apply byte_val_u32.
Qed.

Lemma crc_fold_u32 data c : is_u32 c → is_u32 (fold_left (crc_step Table) data c).
Proof. revert c. induction data as [|b data IH]; intros c Hc; cbn; [done|]. by apply IH, crc_step_u32. Qed.

Lemma Value_bitwise_aux data : Value data = crc_bitwise data.
Proof.
  unfold Value, Extend, crc_bitwise. cbv zeta. f_equal. rewrite Z.lxor_0_l.
  assert (is_u32 0xFFFFFFFF) as H by by unfold is_u32. revert H.
  generalize 0xFFFFFFFF as c. induction data as [|b data IH]; intros c Hc; cbn; [done|].
  rewrite IH by by apply crc_step_u32. by rewrite crc_step_bitwise.
Qed.

Lemma Extend_Value data more : Extend (Value data) more = Value (data ++ more).
Proof.
  unfold Value, Extend. cbv zeta. rewrite fold_left_app.
  by rewrite Z.lxor_assoc, Z.lxor_nilpotent, Z.lxor_0_r.
Qed.

Lemma Value_u32 data : is_u32 (Value data).
Proof.
  unfold Value, Extend. apply lxor_u32; [|by unfold is_u32].
  apply crc_fold_u32. by unfold is_u32.
Qed.

(** ** Lemmas: one changed byte changes the checksum *)

(** The top bytes of the table entries are pairwise distinct. *)
Lemma Table_top_injective i j : 0 ≤ i < 256 → 0 ≤ j < 256 →
  Z.shiftr (crc_entry i) 24 = Z.shiftr (crc_entry j) 24 → i = j.
Proof.
  assert (NoDup ((λ n, Z.shiftr (crc_entry n) 24) <$> seqZ 0 256)) as Hnd.
  { apply (bool_decide_unpack _). by vm_compute. }
  intros Hi Hj E. pose proof (NoDup_lookup _ (Z.to_nat i) (Z.to_nat j)
    (Z.shiftr (crc_entry i) 24) Hnd) as Hl.
  rewrite !list_lookup_fmap, !lookup_seqZ_lt in Hl by lia. cbn -[crc_entry] in Hl.
  rewrite !Z2Nat.id, !Z.add_0_l in Hl by lia. rewrite E in Hl.
  specialize (Hl eq_refl eq_refl). lia.
Qed.

Lemma shiftr_8_24 c : is_u32 c → Z.shiftr (Z.shiftr c 8) 24 = 0.
Proof.
  intros [? H]. rewrite Z.shiftr_shiftr, Z.shiftr_div_pow2 by lia. by apply Z.div_small.
Qed.

Lemma crc_step_injective c d a b : is_u32 c → is_u32 d →
  crc_step Table c a = crc_step Table d b →
  Z.land (Z.lxor c (byte_val a)) 255 = Z.land (Z.lxor d (byte_val b)) 255 ∧
  Z.shiftr c 8 = Z.shiftr d 8.
Proof.
  intros Hc Hd. unfold crc_step.
  rewrite !Table_nth by apply land_255_range. intros E.
  assert (Z.land (Z.lxor c (byte_val a)) 255 = Z.land (Z.lxor d (byte_val b)) 255) as Ei.
  { apply Table_top_injective; [apply land_255_range..|].
    apply (f_equal (λ z, Z.shiftr z 24)) in E. rewrite !Z.shiftr_lxor in E.
    by rewrite !shiftr_8_24, !Z.lxor_0_r in E. }
  split; [done|]. rewrite Ei in E.
  apply (f_equal (Z.lxor (crc_entry (Z.land (Z.lxor d (byte_val b)) 255)))) in E.
  by rewrite <- !Z.lxor_assoc, Z.lxor_nilpotent, !Z.lxor_0_l in E.
Qed.

Lemma land_lxor_255_cancel c a b :
  Z.land (Z.lxor c (byte_val a)) 255 = Z.land (Z.lxor c (byte_val b)) 255 → a = b.
Proof.
  intros E. apply (inj byte_val). change 255 with (Z.ones 8) in E.
  assert (∀ x : byte, byte_val x = Z.lxor (Z.land c (Z.ones 8)) (Z.land (Z.lxor c (byte_val x)) (Z.ones 8))) as H.
  { intros x. pose proof (byte_val_range x). apply Z.bits_inj'. intros i Hi.
    rewrite Z.lxor_spec, !Z.land_spec, Z.lxor_spec, Z.testbit_ones by lia.
    destruct (Z.ltb_spec i 8), (Z.leb_spec 0 i); try lia.
    - rewrite !andb_true_r. by destruct (Z.testbit c i), (Z.testbit (byte_val x) i).
    - rewrite !andb_false_r. rewrite <- (Z.mod_small (byte_val x) (2 ^ 8)) by done.
      by rewrite Z.mod_pow2_bits_high by lia. }
  by rewrite (H a), (H b), E.
Qed.

Lemma crc_step_inj_state c d b : is_u32 c → is_u32 d →
  crc_step Table c b = crc_step Table d b → c = d.
Proof.
  intros Hc Hd [El Eh]%crc_step_injective; [|done..].
  rewrite (split_byte c), (split_byte d), Eh. f_equal.
  change 255 with (Z.ones 8) in *. apply Z.bits_inj'. intros i Hi.
  apply (f_equal (λ z, Z.testbit z i)) in El.
  rewrite !Z.land_spec, !Z.lxor_spec, !Z.testbit_ones in * by lia.
  destruct (Z.ltb_spec i 8), (Z.leb_spec 0 i); try lia;
    rewrite ?andb_true_r, ?andb_false_r in *; try done.
  by destruct (Z.testbit c i), (Z.testbit d i), (Z.testbit (byte_val b) i).
Qed.

Lemma crc_fold_inj data c d : is_u32 c → is_u32 d →
  fold_left (crc_step Table) data c = fold_left (crc_step Table) data d → c = d.
Proof.
  revert c d. induction data as [|b data IH]; intros c d Hc Hd; cbn; [done|].
  intros E%IH; try by apply crc_step_u32. by apply crc_step_inj_state in E.
Qed.

Lemma Value_single_byte pre suf a b :
  Value (pre ++ a :: suf) = Value (pre ++ b :: suf) → a = b.
Proof.
  unfold Value, Extend. cbv zeta. intros E.
  assert (is_u32 (Z.lxor 0 0xFFFFFFFF)) as H0 by by unfold is_u32.
  apply (f_equal (λ z, Z.lxor z 0xFFFFFFFF)) in E.
  rewrite !Z.lxor_assoc, !Z.lxor_nilpotent, !Z.lxor_0_r in E.
  rewrite !fold_left_app in E. cbn [fold_left] in E.
  pose proof (crc_fold_u32 pre _ H0) as Hp.
  apply crc_fold_inj in E; try by apply crc_step_u32.
  apply crc_step_injective in E as [E _]; [|done..]. by apply land_lxor_255_cancel in E.
Qed.

(** ** Lemmas: masking *)

(** Rotating right by [a] and then by [b = 32 - a]. *)
Lemma rotate_inverse a b c : 0 < a → 0 < b → a + b = 32 → is_u32 c →
  let r := Z.lor (Z.shiftr c a) (wrap32 (Z.shiftl c b)) in
  is_u32 r ∧ Z.lor (Z.shiftr r b) (wrap32 (Z.shiftl r a)) = c.
Proof.
  intros Ha Hb' Hab Hc r. assert (is_u32 r) as Hr.
  { apply u32_bits. subst r. apply u32_bits in Hc as [Hc Hb]. split.
    - apply Z.lor_nonneg. split; [apply Z.shiftr_nonneg; lia|]. apply wrap32_u32.
    - intros i Hi. unfold wrap32. rewrite Z.lor_spec, Z.shiftr_spec, Hb by lia.
      by rewrite Z.mod_pow2_bits_high by lia. }
  split; [done|]. apply u32_bits in Hc as [Hc Hb]. apply Z.bits_inj'. intros i Hi.
  unfold wrap32. rewrite Z.lor_spec, Z.shiftr_spec by lia. subst r. unfold wrap32.
  rewrite Z.lor_spec, Z.shiftr_spec by lia. destruct (Z.ltb_spec i a).
  - rewrite !Z.mod_pow2_bits_low by lia. rewrite (Z.shiftl_spec_low _ a i) by lia.
    rewrite Hb, Z.shiftl_spec by lia. cbn [orb]. rewrite orb_false_r. f_equal. lia.
  - rewrite (Z.mod_pow2_bits_high _ 32 (i + b)) by lia.
    rewrite (Hb (i + b + a)) by lia. cbn [orb]. destruct (Z.ltb_spec i 32).
    + rewrite Z.mod_pow2_bits_low, Z.shiftl_spec, Z.lor_spec, (Z.shiftr_spec c a (i - a)) by lia.
      rewrite Z.mod_pow2_bits_low, Z.shiftl_spec by lia.
      rewrite (Z.testbit_neg_r c (i - a - b)), orb_false_r by lia. f_equal. lia.
    + rewrite Z.mod_pow2_bits_high by lia. by rewrite Hb.
Qed.

Lemma Unmask_Mask_aux crc : is_u32 crc → Unmask (Mask crc) = crc.
Proof.
  intros Hc. destruct (rotate_inverse 15 17 crc ltac:(lia) ltac:(lia) ltac:(lia) Hc) as [Hr E].
  cbv zeta in *. unfold Unmask, Mask. cbv zeta.
  set (r := Z.lor (Z.shiftr crc 15) (wrap32 (Z.shiftl crc 17))) in *.
  assert (wrap32 (wrap32 (r + 0xa282ead8) - 0xa282ead8) = r) as ->; [|exact E].
  unfold wrap32. rewrite Zminus_mod_idemp_l. unfold is_u32 in Hr.
  replace (r + 0xa282ead8 - 0xa282ead8) with r by lia. by apply Z.mod_small.
Qed.

Lemma Mask_Unmask_aux m : is_u32 m → Mask (Unmask m) = m.
Proof.
  intros Hm. unfold Unmask, Mask. cbv zeta. set (rot := wrap32 (m - 0xa282ead8)).
  destruct (rotate_inverse 17 15 rot ltac:(lia) ltac:(lia) ltac:(lia) (wrap32_u32 _)) as [_ E].
  cbv zeta in E. rewrite E. subst rot. unfold wrap32. rewrite Zplus_mod_idemp_l.
  unfold is_u32 in Hm. replace (m - 0xa282ead8 + 0xa282ead8) with m by lia. by apply Z.mod_small.
Qed.

Lemma Mask_u32 crc : is_u32 (Mask crc).
Proof. apply wrap32_u32. Qed.

#[global] Opaque Value.
