(* ===== verification/Crc32cSpec.v ===== *)
(** * The definition of CRC32C

    The CRC as its standards define it (RFC 3720, the iSCSI CRC): a remainder
    of polynomials over GF(2), with the generator given by its exponents, and
    without the shift register, the table or the constant of the source.  The
    source's [Value] is proved to compute it. *)

From Stdlib Require Import Btauto.
From S2P Require Import Prelude Crc32c.

(** ** Polynomials over GF(2)

    Bit [i] is the coefficient of [x^i]; the sum is [Z.lxor]. *)
Definition gf2_poly (exponents : list Z) : Z := foldr (λ e, Z.lxor (2 ^ e)) 0 exponents.

(** The product of [g] and of the terms of [q] below [x^n]; of [g] and [q]. *)
Fixpoint gf2_mul_low (n : nat) (q g : Z) : Z :=
  match n with
  | O => 0
  | S n => Z.lxor (gf2_mul_low n q g)
             (if Z.testbit q (Z.of_nat n) then Z.shiftl g (Z.of_nat n) else 0)
  end.
Definition gf2_mul (q g : Z) : Z := gf2_mul_low (Z.to_nat (Z.log2 q + 1)) q g.

(** [r] is the remainder of [p] divided by [g]. *)
Definition gf2_rem (p g r : Z) : Prop :=
  0 ≤ r < 2 ^ Z.log2 g ∧ ∃ q, 0 ≤ q ∧ p = Z.lxor (gf2_mul q g) r.

(** ** The checksum *)

(** x^32 + x^28 + x^27 + x^26 + x^25 + x^23 + x^22 + x^20 + x^19 + x^18 + x^14
    + x^13 + x^11 + x^10 + x^9 + x^8 + x^6 + 1 *)
Definition castagnoli : Z :=
  gf2_poly [32; 28; 27; 26; 25; 23; 22; 20; 19; 18; 14; 13; 11; 10; 9; 8; 6; 0].

(** The bits of a message, each byte from its lowest bit, as a polynomial: the
    first bit is the highest coefficient. *)
Definition bits_of (b : byte) : list bool := Z.testbit (byte_val b) <$> seqZ 0 8.
Definition message_bits (data : bytes) : list bool := data ≫= bits_of.
Definition bits_poly (bs : list bool) : Z := fold_left (λ p b, 2 * p + Z.b2z b) bs 0.

(** The dividend for a message of [n] bits: [x^32 M(x) + x^n (x^31 + ... + 1)],
    the second summand being the initial register of ones. *)
Definition crc_dividend (bs : list bool) : Z :=
  Z.lxor (Z.shiftl (bits_poly bs) 32) (Z.shiftl (Z.ones 32) (zlen bs)).

(** The word with the bits of [r] in the other order. *)
Definition reflect32 (r : Z) : Z :=
  foldr (λ i, Z.lxor (Z.shiftl (Z.b2z (Z.testbit r (31 - i))) i)) 0 (seqZ 0 32).

(** [c] is the CRC32C of [data]: the remainder, reflected and inverted. *)
Definition is_crc32c (data : bytes) (c : Z) : Prop :=
  ∃ r, gf2_rem (crc_dividend (message_bits data)) castagnoli r ∧
    c = Z.lxor (reflect32 r) (Z.ones 32).

(** ** Lemmas: division *)

Ltac zbits i := apply Z.bits_inj'; intros i ?; rewrite ?Z.lxor_spec.

Lemma gf2_mul_low_lxor n a b g :
  gf2_mul_low n (Z.lxor a b) g = Z.lxor (gf2_mul_low n a g) (gf2_mul_low n b g).
Proof.
  induction n as [|n IH]; [done|]. cbn [gf2_mul_low]. rewrite IH, Z.lxor_spec. zbits i.
  destruct (Z.testbit a _), (Z.testbit b _); cbn [xorb]; rewrite ?Z.bits_0; btauto.
Qed.

Lemma testbit_ge q n i : 0 ≤ q < 2 ^ n → n ≤ i → Z.testbit q i = false.
Proof.
  intros Hq Hi. destruct (Z.ltb_spec n 0) as [Hn|Hn]; [rewrite Z.pow_neg_r in Hq by done; lia|].
  rewrite <- (Z.mod_small q (2 ^ n)) by done. by apply Z.mod_pow2_bits_high.
Qed.

Lemma gf2_mul_low_more n k q g : 0 ≤ q < 2 ^ Z.of_nat n →
  gf2_mul_low (k + n) q g = gf2_mul_low n q g.
Proof.
  intros Hq. induction k as [|k IH]; [done|]. cbn [Nat.add gf2_mul_low].
  rewrite (testbit_ge q (Z.of_nat n)), Z.lxor_0_r by (done || lia). done.
Qed.

Lemma gf2_mul_low_eq n q g : 0 ≤ q < 2 ^ Z.of_nat n → gf2_mul_low n q g = gf2_mul q g.
Proof.
  intros Hq. unfold gf2_mul. set (k := Z.to_nat (Z.log2 q + 1)).
  destruct (decide (q = 0)) as [->|Hne].
  { rewrite <- (Nat.add_0_r n), <- (Nat.add_0_r k). by rewrite !gf2_mul_low_more. }
  pose proof (Z.log2_spec q ltac:(lia)). pose proof (Z.log2_nonneg q).
  assert (Z.log2 q < Z.of_nat n) by (apply Z.log2_lt_pow2; lia).
  replace n with (n - k + k)%nat by lia. apply gf2_mul_low_more.
  replace (Z.of_nat k) with (Z.succ (Z.log2 q)) by lia. lia.
Qed.

(** Appending a coefficient to the quotient. *)
Lemma gf2_mul_low_double n q g t :
  gf2_mul_low (S n) (2 * q + Z.b2z t) g =
  Z.lxor (2 * gf2_mul_low n q g) (if t then g else 0).
Proof.
  induction n as [|n IH].
  - cbn [gf2_mul_low Z.of_nat]. rewrite Z.testbit_0_r, Z.shiftl_0_r. by destruct t.
  - remember (S n) as n1. cbn [gf2_mul_low]. rewrite IH. subst n1. cbn [gf2_mul_low].
    rewrite Nat2Z.inj_succ, Z.testbit_succ_r by lia.
    rewrite (Z.mul_comm 2 (Z.lxor _ _)), <- (Z.shiftl_mul_pow2 _ 1), Z.shiftl_lxor by lia.
    rewrite (Z.mul_comm 2), <- (Z.shiftl_mul_pow2 _ 1) by lia.
    assert (Z.shiftl (if Z.testbit q (Z.of_nat n) then Z.shiftl g (Z.of_nat n) else 0) 1 =
      (if Z.testbit q (Z.of_nat n) then Z.shiftl g (Z.succ (Z.of_nat n)) else 0)) as ->
      by (destruct (Z.testbit q _); [by rewrite Z.shiftl_shiftl by lia|done]).
    rewrite !Z.lxor_assoc. f_equal. apply Z.lxor_comm.
Qed.

Lemma gf2_mul_double q g t : 0 ≤ q →
  gf2_mul (2 * q + Z.b2z t) g = Z.lxor (2 * gf2_mul q g) (if t then g else 0).
Proof.
  intros Hq. set (n := Z.to_nat (Z.log2 q + 1)). assert (0 ≤ q < 2 ^ Z.of_nat n) as Hn.
  { split; [done|]. destruct (decide (q = 0)) as [->|]; [done|].
    pose proof (Z.log2_spec q ltac:(lia)). pose proof (Z.log2_nonneg q).
    replace (Z.of_nat n) with (Z.succ (Z.log2 q)) by lia. lia. }
  rewrite <- (gf2_mul_low_eq n q), <- (gf2_mul_low_eq (S n)), gf2_mul_low_double; [done| |done].
  rewrite Nat2Z.inj_succ, Z.pow_succ_r by lia. destruct t; cbn; lia.
Qed.

Lemma gf2_mul_lxor a b g : 0 ≤ a → 0 ≤ b →
  gf2_mul (Z.lxor a b) g = Z.lxor (gf2_mul a g) (gf2_mul b g).
Proof.
  intros Ha Hb. assert (∀ z, 0 ≤ z → ∀ m, z ≤ m → z < 2 ^ m) as Hpow.
  { intros z Hz m Hm. pose proof (Z.pow_gt_lin_r 2 m). lia. }
  set (n := Z.to_nat (a + b + Z.lxor a b)).
  assert (0 ≤ Z.lxor a b) by (apply Z.lxor_nonneg; lia).
  rewrite <- !(gf2_mul_low_eq n) by (split; [done|apply Hpow; lia]). apply gf2_mul_low_lxor.
Qed.

(** The degree of a product. *)
Lemma gf2_mul_low_bound n q g i : 0 < g → Z.of_nat n + Z.log2 g ≤ i →
  Z.testbit (gf2_mul_low n q g) i = false.
Proof.
  intros Hg. induction n as [|n IH]; intros Hi; [apply Z.bits_0|]. cbn [gf2_mul_low].
  pose proof (Z.log2_nonneg g). rewrite Z.lxor_spec, IH by lia. cbn [xorb].
  case_match; [|apply Z.bits_0]. rewrite Z.shiftl_spec by lia. apply Z.bits_above_log2; lia.
Qed.

Lemma gf2_mul_degree q g : 0 < q → 0 < g → Z.testbit (gf2_mul q g) (Z.log2 q + Z.log2 g) = true.
Proof.
  intros Hq Hg. pose proof (Z.log2_nonneg q). pose proof (Z.log2_nonneg g).
  unfold gf2_mul. rewrite Z2Nat.inj_add, Nat.add_1_r by lia. cbn [gf2_mul_low].
  rewrite Z2Nat.id by done. rewrite Z.bit_log2 by done.
  rewrite Z.lxor_spec, gf2_mul_low_bound by lia. cbn [xorb].
  rewrite Z.shiftl_spec by lia. rewrite Z.add_simpl_l. by apply Z.bit_log2.
Qed.

(** There is one remainder. *)
Lemma gf2_rem_unique p g r r' : 0 < g → gf2_rem p g r → gf2_rem p g r' → r = r'.
Proof.
  intros Hg (Hr & q & Hq & ->) (Hr' & q' & Hq' & E). pose proof (Z.log2_nonneg g).
  assert (gf2_mul (Z.lxor q q') g = Z.lxor r r') as Em.
  { rewrite gf2_mul_lxor by done. apply (f_equal (Z.lxor (Z.lxor (gf2_mul q' g) r))) in E.
    zbits i. apply (f_equal (λ z, Z.testbit z i)) in E. rewrite !Z.lxor_spec in E.
    destruct (Z.testbit (gf2_mul q g) i), (Z.testbit (gf2_mul q' g) i), (Z.testbit r i),
      (Z.testbit r' i); done. }
  assert (0 ≤ Z.lxor q q') by (apply Z.lxor_nonneg; lia).
  destruct (decide (Z.lxor q q' = 0)) as [E0|Hne].
  - rewrite E0 in Em. by apply Z.lxor_eq.
  - pose proof (gf2_mul_degree (Z.lxor q q') g ltac:(lia) Hg) as Ht.
    pose proof (Z.log2_nonneg (Z.lxor q q')).
    rewrite Em, Z.lxor_spec, !(testbit_ge _ (Z.log2 g)) in Ht by lia. done.
Qed.

(** ** Lemmas: the register of the source is the remainder, reflected *)

Lemma reflect_fold (bit : Z → bool) (l : list Z) i : NoDup l → Forall (λ j, 0 ≤ j) l → 0 ≤ i →
  Z.testbit (foldr (λ j, Z.lxor (Z.shiftl (Z.b2z (bit j)) j)) 0 l) i = bool_decide (i ∈ l) && bit i.
Proof.
  intros Hn Hl Hi. induction Hl as [|j l Hj Hl IH]; [by rewrite bool_decide_false by (by intros ?%elem_of_nil); apply Z.bits_0|].
  apply NoDup_cons in Hn as [Hnj Hn]. cbn [foldr]. rewrite Z.lxor_spec, IH, Z.shiftl_spec by done.
  destruct (decide (i = j)) as [->|Hne].
  - rewrite Z.sub_diag, (bool_decide_false (j ∈ l)), bool_decide_true by (done || by left).
    cbn [andb]. rewrite xorb_false_r. by destruct (bit j).
  - assert (Z.testbit (Z.b2z (bit j)) (i - j) = false) as ->.
    { destruct (Z.ltb_spec (i - j) 0); [by apply Z.testbit_neg_r|].
      apply (testbit_ge _ 1); [by destruct (bit j)|lia]. }
    cbn [xorb]. f_equal. apply bool_decide_ext. rewrite elem_of_cons. naive_solver.
Qed.

Lemma reflect32_bit r i : 0 ≤ i →
  Z.testbit (reflect32 r) i = (i <? 32) && Z.testbit r (31 - i).
Proof.
  intros Hi. unfold reflect32. rewrite reflect_fold; [|apply NoDup_seqZ| |done].
  - f_equal. destruct (Z.ltb_spec i 32); [rewrite bool_decide_true|rewrite bool_decide_false];
      rewrite ?elem_of_seqZ; (done || lia).
  - apply Forall_forall. intros j Hj%elem_of_seqZ. lia.
Qed.

Lemma reflect32_u32 r : is_u32 (reflect32 r).
Proof.
  apply u32_bits. assert (∀ i, 32 ≤ i → Z.testbit (reflect32 r) i = false) as Hb.
  { intros i Hi. rewrite reflect32_bit by lia. by destruct (Z.ltb_spec i 32); [lia|]. }
  split; [|done]. apply Z.bits_iff_nonneg_ex. exists 32. intros i Hi. apply Hb. lia.
Qed.

Lemma reflect32_involutive c : is_u32 c → reflect32 (reflect32 c) = c.
Proof.
  intros [_ Hb]%u32_bits. zbits i. rewrite reflect32_bit by done.
  destruct (Z.ltb_spec i 32); cbn [andb]; [|by rewrite Hb].
  rewrite reflect32_bit by lia. destruct (Z.ltb_spec (31 - i) 32); [|lia]. cbn [andb]. f_equal. lia.
Qed.

(** The constant of the source is the generator without [x^32], reflected. *)
Lemma castagnoli_reflected : reflect32 castagnoli = 0x82F63B78 ∧ Z.log2 castagnoli = 32.
Proof. by vm_compute. Qed.

Lemma castagnoli_bit i : 0 ≤ i < 32 → Z.testbit 0x82F63B78 (31 - i) = Z.testbit castagnoli i.
Proof.
  intros Hi. destruct castagnoli_reflected as [<- _]. rewrite reflect32_bit by lia.
  destruct (Z.ltb_spec (31 - i) 32); [|lia]. cbn [andb]. f_equal. lia.
Qed.

(** One bit of the message: multiply by [x], add the bit, subtract the
    generator if the degree is 32. *)
Lemma reflect32_crc_bit c b : is_u32 c →
  reflect32 (crc_bit (Z.lxor c (Z.b2z b))) =
  Z.lxor (Z.lxor (2 * reflect32 c) (Z.shiftl (Z.b2z b) 32))
    (if xorb (Z.testbit c 0) b then castagnoli else 0).
Proof.
  intros [_ Hc]%u32_bits. rewrite crc_bit_odd, <- Z.bit0_odd, Z.lxor_spec, Z.b2z_bit0.
  set (top := xorb (Z.testbit c 0) b). zbits i. rewrite reflect32_bit by done.
  rewrite (Z.mul_comm 2), <- (Z.shiftl_mul_pow2 _ 1), !Z.shiftl_spec by lia.
  assert (∀ j, j ≠ 0 → Z.testbit (Z.b2z b) j = false) as Hb0.
  { intros j Hj. destruct (Z.ltb_spec j 0); [by apply Z.testbit_neg_r|].
    apply (testbit_ge _ 1); [by destruct b|lia]. }
  destruct (Z.ltb_spec i 32) as [Hi|Hi]; cbn [andb].
  - rewrite Z.lxor_spec, Z.shiftr_spec, Z.lxor_spec, !Hb0, !xorb_false_r by lia.
    assert (Z.testbit (if top then castagnoli else 0) i =
      Z.testbit (if top then 0x82F63B78 else 0) (31 - i)) as ->
      by (destruct top; [by rewrite castagnoli_bit by lia|by rewrite !Z.bits_0]).
    rewrite xorb_comm. f_equal. destruct (decide (i = 0)) as [->|].
    + rewrite (Z.testbit_neg_r (reflect32 c)) by lia. by apply Hc.
    + rewrite reflect32_bit by lia. destruct (Z.ltb_spec (i - 1) 32); [|lia]. cbn [andb]. f_equal. lia.
  - rewrite reflect32_bit by lia. destruct (decide (i = 32)) as [->|].
    + change (Z.testbit (if top then castagnoli else 0) 32) with (Z.testbit (if top then castagnoli else 0) 32).
      rewrite Z.b2z_bit0. cbn [Z.ltb Z.sub Z.add Z.opp Z.compare Pos.compare Pos.compare_cont andb].
      change (32 - 1 <? 32) with true. change (31 - (32 - 1)) with 0. cbn [andb]. fold top. by destruct top.
    + rewrite Hb0 by lia. destruct (Z.ltb_spec (i - 1) 32); [lia|]. cbn [andb xorb].
      destruct top; [|by rewrite Z.bits_0]. destruct castagnoli_reflected as [_ Hl].
      rewrite Z.bits_above_log2; [done|by vm_compute|lia].
Qed.

Definition crc_feed (c : Z) (b : bool) : Z := crc_bit (Z.lxor c (Z.b2z b)).

Lemma crc_feed_u32 bs c : is_u32 c → is_u32 (fold_left crc_feed bs c).
Proof.
  revert c. induction bs as [|b bs IH]; intros c Hc; [done|]. apply IH, crc_bit_u32, lxor_u32; [done|].
  unfold is_u32. by destruct b.
Qed.

(** Eight steps on the whole byte feed its bits, lowest first. *)
Lemma crc_bitwise_byte_feed c b : crc_bitwise_byte c b = fold_left crc_feed (bits_of b) c.
Proof.
  unfold crc_bitwise_byte. assert (∀ n z, 0 ≤ z < 2 ^ Z.of_nat n →
    Nat.iter n crc_bit (Z.lxor c z) = fold_left crc_feed (Z.testbit z <$> seqZ 0 (Z.of_nat n)) c) as H.
  { intros n. revert c. induction n as [|n IH]; intros c z Hz.
    { cbn in *. replace z with 0 by lia. by rewrite Z.lxor_0_r. }
    rewrite Nat.iter_succ_r.
    assert (crc_bit (Z.lxor c z) = Z.lxor (crc_feed c (Z.testbit z 0)) (Z.shiftr z 1)) as ->.
    { assert (Z.lxor c z = Z.lxor (Z.lxor c (Z.b2z (Z.testbit z 0))) (Z.shiftl (Z.shiftr z 1) 1)) as ->.
      { rewrite Z.lxor_assoc. f_equal. zbits i. destruct (decide (i = 0)) as [->|].
        - rewrite Z.b2z_bit0, Z.shiftl_spec_low by lia. by rewrite xorb_false_r.
        - rewrite (testbit_ge (Z.b2z _) 1) by (by destruct (Z.testbit z 0)) || lia.
          rewrite Z.shiftl_spec, Z.shiftr_spec by lia. cbn [xorb]. f_equal. lia. }
      rewrite crc_bit_lxor. f_equal. apply (crc_iter_shiftl 1). }
    rewrite IH.
    - rewrite Nat2Z.inj_succ, (seqZ_cons 0 (Z.succ _)) by lia. cbn [fmap list_fmap fold_left]. f_equal.
      rewrite Z.pred_succ. change (Z.succ 0) with (1 + 0). rewrite <- fmap_add_seqZ, <- list_fmap_compose.
      apply list_fmap_ext. intros i k Hk%list_elem_of_lookup_2%elem_of_seqZ. cbn.
      rewrite Z.shiftr_spec by lia. f_equal. lia.
    - rewrite Z.shiftr_div_pow2 by lia. change (2 ^ 1) with 2.
      rewrite Nat2Z.inj_succ, Z.pow_succ_r in Hz by lia.
      split; [apply Z.div_pos; lia|apply Z.div_lt_upper_bound; lia]. }
  apply (H 8%nat). apply byte_val_range.
Qed.

Lemma crc_bitwise_feed data :
  crc_bitwise data = Z.lxor (fold_left crc_feed (message_bits data) (Z.ones 32)) (Z.ones 32).
Proof.
  unfold crc_bitwise, message_bits. change 0xFFFFFFFF with (Z.ones 32). f_equal.
  generalize (Z.ones 32) as c. induction data as [|b data IH]; intros c; [done|].
  cbn [fold_left mbind list_bind]. rewrite fold_left_app, <- crc_bitwise_byte_feed. apply IH.
Qed.

(** The register after any bits is the reflected remainder of the dividend. *)
Lemma crc_feed_rem bs :
  gf2_rem (crc_dividend bs) castagnoli (reflect32 (fold_left crc_feed bs (Z.ones 32))).
Proof.
  split; [destruct castagnoli_reflected as [_ ->]; apply reflect32_u32|].
  induction bs as [|b bs (q & Hq & E)] using rev_ind; [by exists 0|].
  set (c := fold_left crc_feed bs (Z.ones 32)) in *.
  assert (is_u32 c) as Hc by by apply crc_feed_u32.
  exists (2 * q + Z.b2z (xorb (Z.testbit c 0) b)). split; [destruct (xorb _ _); cbn; lia|].
  rewrite fold_left_app. cbn [fold_left]. fold c. unfold crc_feed at 1.
  rewrite reflect32_crc_bit, gf2_mul_double by done.
  assert (crc_dividend (bs ++ [b]) = Z.lxor (2 * crc_dividend bs) (Z.shiftl (Z.b2z b) 32)) as ->.
  { unfold crc_dividend, bits_poly. rewrite fold_left_app. cbn [fold_left].
    fold (bits_poly bs). rewrite length_app, Nat2Z.inj_add. cbn [length].
    rewrite (Z.mul_comm 2 (Z.lxor _ _)), <- (Z.shiftl_mul_pow2 _ 1), Z.shiftl_lxor, !Z.shiftl_shiftl by lia.
    assert (2 * bits_poly bs + Z.b2z b = Z.lxor (Z.shiftl (bits_poly bs) 1) (Z.b2z b)) as ->.
    { rewrite <- Z.add_nocarry_lxor; [rewrite Z.shiftl_mul_pow2 by lia; lia|].
      apply Z.bits_inj'. intros i Hi. rewrite Z.land_spec, Z.bits_0. destruct (decide (i = 0)) as [->|].
      - by rewrite Z.shiftl_spec_low by lia.
      - rewrite (testbit_ge (Z.b2z b) 1) by (by destruct b) || lia. by rewrite andb_false_r. }
    rewrite Z.shiftl_lxor, Z.shiftl_shiftl, (Z.add_comm 1) by lia.
    rewrite !Z.lxor_assoc. f_equal. apply Z.lxor_comm. }
  rewrite E. rewrite (Z.mul_comm 2 (Z.lxor _ _)), <- (Z.shiftl_mul_pow2 _ 1), Z.shiftl_lxor by lia.
  rewrite !Z.shiftl_mul_pow2, !(Z.mul_comm _ (2 ^ 1)) by lia. change (2 ^ 1) with 2.
  zbits i. btauto.
Qed.

Lemma Value_crc32c data c : is_crc32c data c ↔ c = Value data.
Proof.
  rewrite Value_bitwise_aux, crc_bitwise_feed. set (f := fold_left _ _ _).
  assert (is_u32 f) as Hf by (by apply crc_feed_u32).
  pose proof (crc_feed_rem (message_bits data)) as Hr. fold f in Hr. split.
  - intros (r & Hr' & ->). assert (r = reflect32 f) as ->
      by (eapply gf2_rem_unique; [|exact Hr'|exact Hr]; by vm_compute).
    by rewrite reflect32_involutive.
  - intros ->. exists (reflect32 f). by rewrite reflect32_involutive.
Qed.
