(* ===== verification/Bloom.v ===== *)
(** * Bloom filter ([include/clomdb/bloom.h])

    Double hashing over a 32-bit Murmur-style hash.  The filter is the bit
    array followed by one byte holding the number of probes. *)

From S2P Require Import Prelude.

Definition bloom_m : Z := 0xc6a4a793.
Definition bloom_seed : Z := 0xbc9f1d34.

(** The [while (n >= 4)] loop followed by the [switch] on the tail. *)
Fixpoint bloom_hash_loop (h : Z) (data : bytes) : Z :=
  match data with
  | d0 :: d1 :: d2 :: d3 :: rest =>
      let w := Z.lor (Z.lor (Z.lor (byte_val d0) (Z.shiftl (byte_val d1) 8))
                 (Z.shiftl (byte_val d2) 16)) (Z.shiftl (byte_val d3) 24) in
      let h := wrap32 (h + w) in
      let h := wrap32 (h * bloom_m) in
      let h := Z.lxor h (Z.shiftr h 16) in
      bloom_hash_loop h rest
  | [] => h
  | d0 :: tail =>
      let h := match tail with
               | [_; d2] => wrap32 (h + Z.shiftl (byte_val d2) 16)
               | _ => h
               end in
      let h := match tail with
               | d1 :: _ => wrap32 (h + Z.shiftl (byte_val d1) 8)
               | _ => h
               end in
      let h := wrap32 (h + byte_val d0) in
      let h := wrap32 (h * bloom_m) in
      Z.lxor h (Z.shiftr h 24)
  end.

Definition BloomHash (key : bytes) : Z :=
  bloom_hash_loop (Z.lxor bloom_seed (wrap32 (wrap64 (zlen key * bloom_m)))) key.

(** The rotation used as the second hash. *)
Definition bloom_delta (h : Z) : Z := Z.lor (Z.shiftr h 17) (wrap32 (Z.shiftl h 15)).

(** [filter[bitpos / 8] |= static_cast<char>(1 << (bitpos % 8))] *)
Definition bloom_set (filter : bytes) (bitpos : Z) : bytes :=
  alter (λ b, byte_of (Z.lor (byte_val b) (Z.shiftl 1 (bitpos `mod` 8))))
    (Z.to_nat (bitpos `div` 8)) filter.

(** [filter[bitpos / 8] & (1 << (bitpos % 8))] *)
Definition bloom_test (filter : bytes) (bitpos : Z) : bool :=
  negb (Z.land (byte_val (nth (Z.to_nat (bitpos `div` 8)) filter x00))
          (Z.shiftl 1 (bitpos `mod` 8)) =? 0).

(** [for (j = 0; j < k; j++)] of [Build] and of [MayContain]. *)
Fixpoint bloom_add_loop (k : nat) (bits h delta : Z) (filter : bytes) : bytes :=
  match k with
  | O => filter
  | S k' => bloom_add_loop k' bits (wrap32 (h + delta)) delta
              (bloom_set filter (wrap32 (h `mod` bits)))
  end.
Fixpoint bloom_probe_loop (k : nat) (bits h delta : Z) (filter : bytes) : bool :=
  match k with
  | O => true
  | S k' => if bloom_test filter (wrap32 (h `mod` bits))
            then bloom_probe_loop k' bits (wrap32 (h + delta)) delta filter
            else false
  end.

(** [int k = static_cast<int>(bits_per_key * 0.69)], clamped to [1, 30].  For
    every [int] the truncated double product equals the truncated exact
    quotient wherever the clamp does not decide. *)
Definition bloom_k (bits_per_key : Z) : Z :=
  let k := (bits_per_key * 69) `quot` 100 in
  let k := if k <? 1 then 1 else k in
  if 30 <? k then 30 else k.

(** The number of bytes of the bit array, in [size_t] arithmetic. *)
Definition bloom_bytes (nkeys bits_per_key : Z) : Z :=
  let bits := wrap64 (nkeys * wrap64 bits_per_key) in
  let bits := if bits <? 64 then 64 else bits in
  wrap64 (bits + 7) `div` 8.

(** [BloomFilter::Build]. *)
Definition Build (keys : list bytes) (bits_per_key : Z) : bytes :=
  let k := bloom_k bits_per_key in
  let nbytes := bloom_bytes (zlen keys) bits_per_key in
  let bits := wrap64 (nbytes * 8) in
  let filter := replicate (Z.to_nat nbytes) x00 ++ [byte_of k] in
  fold_left (λ filter key,
    let h := BloomHash key in
    bloom_add_loop (Z.to_nat k) bits h (bloom_delta h) filter) keys filter.

(** [BloomFilter::MayContain]. *)
Definition MayContain (filter key : bytes) : bool :=
  let len := zlen filter in
  if len <? 1 then true else
  let nbytes := len - 1 in
  let bits := wrap64 (nbytes * 8) in
  if bits =? 0 then true else
  let k := byte_val (nth (Z.to_nat (len - 1)) filter x00) in
  if 30 <? k then true else
  let h := BloomHash key in
  bloom_probe_loop (Z.to_nat k) bits h (bloom_delta h) filter.

(** The arguments for which [Build] does not overflow [size_t]. *)
Definition bloom_fits (nkeys bits_per_key : Z) : Prop :=
  0 ≤ bits_per_key ∧ nkeys * bits_per_key + 64 < 2 ^ 63.

(** ** Lemmas: one bit *)

Lemma bloom_set_length f p : length (bloom_set f p) = length f.
Proof. apply length_alter. Qed.

Lemma bit_of_byte i : 0 ≤ i < 8 → ∀ z, Z.land z (Z.shiftl 1 i) ≠ 0 ↔ Z.testbit z i = true.
Proof.
  intros Hi z. rewrite Z.shiftl_1_l. split.
  - intros H. destruct (Z.testbit z i) eqn:E; [done|]. destruct H. apply Z.bits_inj'.
    intros j Hj. rewrite Z.land_spec, Z.pow2_bits_eqb, Z.bits_0 by lia.
    destruct (Z.eqb_spec i j) as [<-|]; [by rewrite E|by rewrite andb_false_r].
  - intros H E. apply (f_equal (λ z, Z.testbit z i)) in E.
    by rewrite Z.land_spec, Z.pow2_bits_true, H, Z.bits_0 in E by lia.
Qed.

Definition bit_at (f : bytes) (p : Z) : bool :=
  Z.testbit (byte_val (nth (Z.to_nat (p `div` 8)) f x00)) (p `mod` 8).

Lemma bloom_test_bit f p : bloom_test f p = bit_at f p.
Proof.
  unfold bloom_test, bit_at. pose proof (Z.mod_pos_bound p 8 ltac:(lia)) as Hp.
  pose proof (bit_of_byte _ Hp (byte_val (nth (Z.to_nat (p `div` 8)) f x00))) as H.
  destruct (Z.eqb_spec (Z.land (byte_val (nth (Z.to_nat (p `div` 8)) f x00))
    (Z.shiftl 1 (p `mod` 8))) 0) as [E|E]; cbn.
  - destruct (Z.testbit _ _); [|done]. by destruct (proj2 H eq_refl).
  - symmetry. by apply H.
Qed.

Lemma set_byte_testbit b i j : 0 ≤ i < 8 → 0 ≤ j < 8 →
  Z.testbit (byte_val (byte_of (Z.lor (byte_val b) (Z.shiftl 1 i)))) j =
  Z.testbit (byte_val b) j || (i =? j).
Proof.
  intros Hi Hj. rewrite byte_val_of. change 256 with (2 ^ 8).
  rewrite Z.mod_pow2_bits_low, Z.lor_spec, Z.shiftl_1_l, Z.pow2_bits_eqb by lia. done.
Qed.

Lemma bloom_set_bit f p q : 0 ≤ p → 0 ≤ q → p `div` 8 < zlen f →
  bit_at (bloom_set f p) q = bit_at f q || (p =? q).
Proof.
  intros Hp Hq Hl. unfold bit_at, bloom_set. rewrite !nth_lookup.
  pose proof (Z.mod_pos_bound p 8 ltac:(lia)). pose proof (Z.mod_pos_bound q 8 ltac:(lia)).
  pose proof (Z.div_mod p 8 ltac:(lia)). pose proof (Z.div_mod q 8 ltac:(lia)).
  pose proof (Z.div_pos p 8 ltac:(lia) ltac:(lia)). pose proof (Z.div_pos q 8 ltac:(lia) ltac:(lia)).
  destruct (decide (p `div` 8 = q `div` 8)) as [E|E].
  - rewrite E, list_lookup_alter_eq.
    destruct (lookup_lt_is_Some_2 f (Z.to_nat (q `div` 8))) as [b Hb]; [lia|].
    rewrite Hb. simpl.
    rewrite set_byte_testbit by lia. f_equal.
    destruct (Z.eqb_spec p q), (Z.eqb_spec (p `mod` 8) (q `mod` 8)); lia.
  - rewrite list_lookup_alter_ne by lia.
    destruct (Z.eqb_spec p q) as [->|]; [done|]. by rewrite orb_false_r.
Qed.

(** ** Lemmas: the probe loops *)

(** [g] has every bit of [f]. *)
Definition bits_sub (f g : bytes) : Prop := ∀ q, 0 ≤ q → bit_at f q = true → bit_at g q = true.

#[global] Instance bits_sub_preorder : PreOrder bits_sub.
Proof. split; [by intros f q|]. intros f g h H1 H2 q Hq H. by apply H2, H1. Qed.

Section filter.
(** The bit array has [nbytes] bytes, followed by the byte [kb]. *)
Context (nbytes : Z) (kb : byte).

Definition filter_shape (f : bytes) : Prop :=
  ∃ arr, f = arr ++ [kb] ∧ zlen arr = nbytes.

Lemma probe_position h : 0 < nbytes → 0 ≤ wrap32 (h `mod` (nbytes * 8)) < nbytes * 8.
Proof.
  intros Hn. pose proof (Z.mod_pos_bound h (nbytes * 8) ltac:(lia)) as H.
  pose proof (wrap32_u32 (h `mod` (nbytes * 8))) as [H0 _]. split; [done|].
  eapply Z.le_lt_trans; [|apply H]. unfold wrap32. apply Z.mod_le; lia.
Qed.

Lemma bloom_set_shape f p : 0 ≤ p < nbytes * 8 → filter_shape f →
  filter_shape (bloom_set f p) ∧ bits_sub f (bloom_set f p) ∧ bit_at (bloom_set f p) p = true.
Proof.
  intros Hp (arr & -> & Hl).
  assert (p `div` 8 < nbytes) by (apply Z.div_lt_upper_bound; lia).
  assert (0 ≤ p `div` 8) by (apply Z.div_pos; lia). split_and!.
  - unfold bloom_set. rewrite alter_app_l by lia. eexists. split; [done|].
    by rewrite length_alter.
  - intros q Hq H1. rewrite bloom_set_bit; [by rewrite H1|lia|lia|rewrite length_app; cbn; lia].
  - rewrite bloom_set_bit, Z.eqb_refl by (try lia; rewrite length_app; cbn; lia).
    by rewrite orb_true_r.
Qed.

Lemma bloom_add_loop_spec k h delta f : 0 < nbytes → filter_shape f →
  let g := bloom_add_loop k (nbytes * 8) h delta f in
  filter_shape g ∧ bits_sub f g ∧
  ∀ g', bits_sub g g' → bloom_probe_loop k (nbytes * 8) h delta g' = true.
Proof.
  intros Hn. revert h f. induction k as [|k IH]; intros h f Hf; cbn.
  { split_and!; [done|by intros q|done]. }
  pose proof (probe_position h Hn) as Hp.
  destruct (bloom_set_shape f _ Hp Hf) as (Hs & Hsub & Hbit).
  destruct (IH (wrap32 (h + delta)) _ Hs) as (Hg & Hsub' & Hprobe).
  split_and!; [done|by etrans|]. intros g' Hg'.
  rewrite bloom_test_bit, (Hg' _ (proj1 Hp)); [by apply Hprobe|].
  apply Hsub'; [lia|done].
Qed.
End filter.

Lemma bloom_k_range b : 1 ≤ bloom_k b ≤ 30.
Proof. unfold bloom_k. repeat case_match; lia. Qed.

Lemma bloom_bytes_fits n b : 0 ≤ n → bloom_fits n b →
  8 ≤ bloom_bytes n b ∧ bloom_bytes n b * 8 < 2 ^ 64 ∧
  bloom_bytes n b ≤ (n * b) `div` 8 + 8.
Proof.
  intros Hn [Hb Hf]. unfold bloom_bytes.
  destruct (decide (n = 0)) as [->|].
  { unfold wrap64. rewrite Z.mul_0_l. vm_compute. by split_and!. }
  assert (0 ≤ b ≤ n * b) by nia.
  rewrite (wrap64_id b) by (unfold is_u64; lia). rewrite (wrap64_id (n * b)) by (unfold is_u64; lia).
  assert (0 ≤ n * b) by lia. generalize dependent (n * b). intros m Hm [_ ?] ?.
  destruct (Z.ltb_spec m 64).
  - rewrite wrap64_id by (unfold is_u64; lia). change ((64 + 7) `div` 8) with 8. div_lia.
  - rewrite wrap64_id by (unfold is_u64; lia). div_lia.
Qed.

(** What [Build] returns: bit array and probe count, every key's bits set. *)
Lemma Build_shape keys b : bloom_fits (zlen keys) b →
  let n := bloom_bytes (zlen keys) b in
  let f := Build keys b in
  filter_shape n (byte_of (bloom_k b)) f ∧
  ∀ key, key ∈ keys → bloom_probe_loop (Z.to_nat (bloom_k b)) (n * 8)
    (BloomHash key) (bloom_delta (BloomHash key)) f = true.
Proof.
  intros Hf n f. subst f. unfold Build. cbv zeta.
  destruct (bloom_bytes_fits (zlen keys) b ltac:(lia) Hf) as (Hn & Hn' & _).
  fold n in Hn, Hn' |- *. rewrite (wrap64_id (n * 8)) by (unfold is_u64; lia).
  set (f0 := replicate (Z.to_nat n) x00 ++ [byte_of (bloom_k b)]).
  assert (filter_shape n (byte_of (bloom_k b)) f0) as H0.
  { eexists. split; [done|]. rewrite length_replicate. lia. }
  set (add := λ filter key, bloom_add_loop (Z.to_nat (bloom_k b)) (n * 8) (BloomHash key)
                              (bloom_delta (BloomHash key)) filter).
  change (filter_shape n (byte_of (bloom_k b)) (fold_left add keys f0) ∧
    ∀ key, key ∈ keys → bloom_probe_loop (Z.to_nat (bloom_k b)) (n * 8)
    (BloomHash key) (bloom_delta (BloomHash key)) (fold_left add keys f0) = true).
  assert (filter_shape n (byte_of (bloom_k b)) (fold_left add keys f0) ∧
    bits_sub f0 (fold_left add keys f0) ∧
    ∀ key, key ∈ keys → bloom_probe_loop (Z.to_nat (bloom_k b)) (n * 8)
    (BloomHash key) (bloom_delta (BloomHash key)) (fold_left add keys f0) = true) as H;
    [|naive_solver].
  clearbody f0. clear Hf. clearbody n. revert f0 H0. induction keys as [|key keys IH]; intros f0 H0; cbn.
  { split_and!; [done|by intros q|]. intros key Hk. by apply not_elem_of_nil in Hk. }
  destruct (bloom_add_loop_spec n _ (Z.to_nat (bloom_k b)) (BloomHash key)
    (bloom_delta (BloomHash key)) f0 ltac:(lia) H0) as (Hs & Hsub & Hprobe).
  destruct (IH _ Hs) as (Hs' & Hsub' & Hprobe'). split_and!; [done|by etrans|].
  intros key' [->|Hk]%elem_of_cons; [|by apply Hprobe'].
  apply Hprobe, Hsub'.
Qed.

Lemma Build_length keys b : bloom_fits (zlen keys) b →
  zlen (Build keys b) = bloom_bytes (zlen keys) b + 1.
Proof.
  intros Hf. destruct (Build_shape keys b Hf) as [(arr & E & Hl) _].
  rewrite E, length_app. cbn. lia.
Qed.

Lemma MayContain_Build keys b key : bloom_fits (zlen keys) b → key ∈ keys →
  MayContain (Build keys b) key = true.
Proof.
  intros Hf Hk. destruct (Build_shape keys b Hf) as [(arr & E & Hl) Hprobe].
  specialize (Hprobe key Hk). unfold MayContain. cbv zeta.
  destruct (bloom_bytes_fits (zlen keys) b ltac:(lia) Hf) as (Hn & Hn' & _).
  rewrite E in *. rewrite !length_app. cbn [length].
  replace (Z.of_nat (length arr + 1) - 1) with (bloom_bytes (zlen keys) b) by lia.
  rewrite (wrap64_id (_ * 8)) by (unfold is_u64; lia).
  rewrite app_nth2 by lia.
  replace (Z.to_nat (bloom_bytes (zlen keys) b) - length arr)%nat with 0%nat by lia.
  cbn [nth]. pose proof (bloom_k_range b).
  rewrite byte_val_of_small by lia. rewrite Hprobe. by repeat case_match.
Qed.
