(* ===== verification/MemTable.v ===== *)
(** * The memtable ([include/clomdb/memtable.h]) and the snapshot iterator
    ([include/clomdb/iterator.h]). *)

From S2P Require Import Prelude Slice OrderedMap.

(** [struct MemValue] *)
Record MemValue := mkMemValue { deleted : bool; mv_value : bytes }.

(** [class MemTable] *)
Record MemTable := mkMemTable {
  table : list (bytes * MemValue);
  approx_bytes : Z;
}.

Definition MemTable_new : MemTable := mkMemTable [] 0.

Definition MemTable_Put (mt : MemTable) (key value : bytes) : MemTable :=
  mkMemTable (omap_insert key (mkMemValue false value) (table mt))
    (wrap64 (approx_bytes mt + wrap64 (zlen key + zlen value))).

Definition MemTable_Delete (mt : MemTable) (key : bytes) : MemTable :=
  mkMemTable (omap_insert key (mkMemValue true []) (table mt))
    (wrap64 (approx_bytes mt + zlen key)).

(** [Get(key, value, deleted)]: the returned flag and the two out-parameters. *)
Definition MemTable_Get (mt : MemTable) (key value : bytes) (del : bool) :
    bool * bytes * bool :=
  match omap_find key (table mt) with
  | None => (false, value, del)
  | Some mv =>
      let del := deleted mv in
      let value := if negb del then mv_value mv else value in
      (true, value, del)
  end.

Definition ApproximateBytes (mt : MemTable) : Z := approx_bytes mt.
Definition EntryCount (mt : MemTable) : Z := zlen (table mt).
Definition MemTable_empty (mt : MemTable) : bool := bool_decide (table mt = []).
Definition MemTable_Clear (mt : MemTable) : MemTable := mkMemTable [] 0.

(** [class Iterator]: the snapshot and the bindings from [it_] to the end. *)
Record Iterator := mkIterator {
  snapshot_ : list (bytes * bytes);
  it_ : list (bytes * bytes);
}.

Definition Iterator_new (snapshot : list (bytes * bytes)) : Iterator := mkIterator snapshot snapshot.
Definition SeekToFirst (i : Iterator) : Iterator := mkIterator (snapshot_ i) (snapshot_ i).
Definition Seek (i : Iterator) (target : bytes) : Iterator :=
  mkIterator (snapshot_ i) (omap_lower_bound target (snapshot_ i)).
Definition Valid (i : Iterator) : bool := negb (bool_decide (it_ i = [])).
Definition Next (i : Iterator) : Iterator :=
  if Valid i then mkIterator (snapshot_ i) (tail (it_ i)) else i.
(** [key()] and [value()] dereference [it_]: undefined at the end. *)
Definition Iterator_key (i : Iterator) : option bytes := fst <$> head (it_ i).
Definition Iterator_value (i : Iterator) : option bytes := snd <$> head (it_ i).

(** The loop [for (; it->Valid(); it->Next())] of the clients, collecting what
    it visits; the length of the remaining bindings bounds its iterations. *)
Fixpoint drain (fuel : nat) (i : Iterator) : list (bytes * bytes) :=
  match fuel with
  | O => []
  | S fuel' =>
      if Valid i then
        match Iterator_key i, Iterator_value i with
        | Some k, Some v => (k, v) :: drain fuel' (Next i)
        | _, _ => []
        end
      else []
  end.
Definition scan (i : Iterator) : list (bytes * bytes) :=
  drain (S (length (it_ i))) i.

(** ** Abstraction: what a memtable says about each key

    [Some (Some v)]: live with value [v]; [Some None]: deleted; [None]: not in
    this table. *)

Abbreviation layer := (gmap bytes (option bytes)).

Definition mv_opt (mv : MemValue) : option bytes :=
  if deleted mv then None else Some (mv_value mv).

Definition mem_layer (mt : MemTable) : layer := mv_opt <$> omap_to_gmap (table mt).
Definition mem_wf (mt : MemTable) : Prop :=
  omap_wf (table mt) ∧ is_u64 (approx_bytes mt) ∧
  Forall (λ '(_, mv), deleted mv = true → mv_value mv = []) (table mt).

(** ** Lemmas *)

Lemma mem_wf_new : mem_wf MemTable_new.
Proof. split_and!; [constructor|by unfold is_u64|constructor]. Qed.

Lemma omap_insert_Forall {V} (P : bytes * V → Prop) k v m :
  P (k, v) → Forall P m → Forall P (omap_insert k v m).
Proof.
  intros Hk. induction m as [|[k' v'] m IH]; cbn; intros Hm; [by constructor|].
  apply Forall_cons in Hm as [Hk' Hm]. key_cases k k'; repeat constructor; auto.
Qed.

Lemma MemTable_Put_wf mt k v : mem_wf mt → mem_wf (MemTable_Put mt k v).
Proof.
  intros (H1 & H2 & H3). split_and!; cbn.
  - by apply omap_insert_wf.
  - apply wrap64_u64.
  - by apply omap_insert_Forall.
Qed.

Lemma MemTable_Delete_wf mt k : mem_wf mt → mem_wf (MemTable_Delete mt k).
Proof.
  intros (H1 & H2 & H3). split_and!; cbn.
  - by apply omap_insert_wf.
  - apply wrap64_u64.
  - by apply omap_insert_Forall.
Qed.

Lemma mem_layer_Put mt k v : mem_wf mt →
  mem_layer (MemTable_Put mt k v) = <[k := Some v]> (mem_layer mt).
Proof.
  intros (H & _). unfold mem_layer. cbn. by rewrite omap_insert_spec, fmap_insert.
Qed.

Lemma mem_layer_Delete mt k : mem_wf mt →
  mem_layer (MemTable_Delete mt k) = <[k := None]> (mem_layer mt).
Proof.
  intros (H & _). unfold mem_layer. cbn. by rewrite omap_insert_spec, fmap_insert.
Qed.

Lemma mem_layer_Clear mt : mem_layer (MemTable_Clear mt) = ∅.
Proof. unfold mem_layer. cbn. by rewrite omap_to_gmap_nil, fmap_empty. Qed.

Lemma MemTable_Get_layer mt k value del : mem_wf mt →
  MemTable_Get mt k value del =
  match mem_layer mt !! k with
  | None => (false, value, del)
  | Some None => (true, value, true)
  | Some (Some v) => (true, v, false)
  end.
Proof.
  intros (H & _). unfold MemTable_Get, mem_layer. rewrite omap_find_spec, lookup_fmap by done.
  destruct (omap_to_gmap (table mt) !! k) as [[[] v]|]; done.
Qed.

Lemma MemTable_empty_true mt : MemTable_empty mt = true ↔ table mt = [].
Proof. unfold MemTable_empty. by rewrite bool_decide_eq_true. Qed.

Lemma mem_layer_empty mt : MemTable_empty mt = true → mem_layer mt = ∅.
Proof. intros H%MemTable_empty_true. unfold mem_layer. rewrite H. apply fmap_empty. Qed.

Lemma drain_it fuel i : (length (it_ i) < fuel)%nat → drain fuel i = it_ i.
Proof.
  destruct i as [snap l]. cbn. revert l. induction fuel as [|fuel IH]; intros l Hf; [lia|].
  cbn [drain]. unfold Valid, Iterator_key, Iterator_value. cbn [it_ snapshot_].
  destruct l as [|[k v] l]; [done|]. cbn. f_equal. apply (IH l). cbn in Hf. lia.
Qed.

Lemma scan_it i : scan i = it_ i.
Proof. apply drain_it. lia. Qed.
