(* ===== verification/WriteBatch.v ===== *)
(** * Write batches ([include/clomdb/write_batch.h]) *)

From S2P Require Import Prelude Slice Status Coding OrderedMap MemTable.

(** [enum class RecordType] *)
Inductive RecordType := kPut | kDelete.
Definition RecordType_byte (t : RecordType) : byte :=
  byte_of (match t with kPut => 1 | kDelete => 2 end).

(** [class WriteBatch] *)
Record WriteBatch := mkWriteBatch { rep_ : bytes; count_ : Z }.

Definition WriteBatch_new : WriteBatch := mkWriteBatch [] 0.

Definition WriteBatch_Put (b : WriteBatch) (key value : bytes) : WriteBatch :=
  let rep := rep_ b ++ [RecordType_byte kPut] in
  let rep := PutLengthPrefixedSlice rep key in
  let rep := PutLengthPrefixedSlice rep value in
  mkWriteBatch rep (wrap64 (count_ b + 1)).

Definition WriteBatch_Delete (b : WriteBatch) (key : bytes) : WriteBatch :=
  let rep := rep_ b ++ [RecordType_byte kDelete] in
  let rep := PutLengthPrefixedSlice rep key in
  mkWriteBatch rep (wrap64 (count_ b + 1)).

Definition WriteBatch_Clear (b : WriteBatch) : WriteBatch := mkWriteBatch [] 0.
Definition Count (b : WriteBatch) : Z := count_ b.
Definition WriteBatch_empty (b : WriteBatch) : bool := count_ b =? 0.
Definition Data (b : WriteBatch) : bytes := rep_ b.
(** [SetData] replaces the representation only. *)
Definition SetData (b : WriteBatch) (d : bytes) : WriteBatch := mkWriteBatch d (count_ b).

(** "Handler is any type exposing those two methods." *)
Class Handler (H : Type) := {
  h_Put : bytes → bytes → H → H;
  h_Delete : bytes → H → H;
}.

(** The loop [while (!input.empty())]: an early [return Status] on the left,
    the number of operations seen on the right, with the handler's state. *)
Fixpoint Iterate_loop {H} `{Handler H} (fuel : nat) (input : bytes) (seen : Z) (h : H) :
    (Status + Z) * H :=
  match fuel with
  | O => (inr seen, h)
  | S fuel' =>
      match input with
      | [] => (inr seen, h)
      | tag :: input =>
          if decide (tag = RecordType_byte kPut) then
            match GetLengthPrefixedSlice input with
            | None => (inl (Corruption (str "malformed WriteBatch (put)")), h)
            | Some (key, input) =>
                match GetLengthPrefixedSlice input with
                | None => (inl (Corruption (str "malformed WriteBatch (put)")), h)
                | Some (value, input) =>
                    Iterate_loop fuel' input (wrap64 (seen + 1)) (h_Put key value h)
                end
            end
          else if decide (tag = RecordType_byte kDelete) then
            match GetLengthPrefixedSlice input with
            | None => (inl (Corruption (str "malformed WriteBatch (delete)")), h)
            | Some (key, input) =>
                Iterate_loop fuel' input (wrap64 (seen + 1)) (h_Delete key h)
            end
          else (inl (Corruption (str "unknown WriteBatch tag")), h)
      end
  end.

(** [Iterate(handler)]: every iteration consumes at least the tag byte, so the
    length of the representation is enough fuel. *)
Definition Iterate {H} `{Handler H} (b : WriteBatch) (h : H) : Status * H :=
  match Iterate_loop (length (rep_ b)) (rep_ b) 0 h with
  | (inl s, h') => (s, h')
  | (inr seen, h') =>
      if negb (seen =? count_ b) then (Corruption (str "WriteBatch count mismatch"), h')
      else (OK, h')
  end.

(** [struct MemTableHandler] of [src/db.cpp]. *)
#[global] Instance MemTableHandler : Handler MemTable := {
  h_Put k v mt := MemTable_Put mt k v;
  h_Delete k mt := MemTable_Delete mt k;
}.

(** ** Operations as data, and the handler that records them *)

Inductive op := OpPut (key value : bytes) | OpDelete (key : bytes).

#[global] Instance OpHandler : Handler (list op) := {
  h_Put k v l := l ++ [OpPut k v];
  h_Delete k l := l ++ [OpDelete k];
}.

(** A batch built by calling [Put] and [Delete] for each operation. *)
Definition batch_add (b : WriteBatch) (o : op) : WriteBatch :=
  match o with
  | OpPut k v => WriteBatch_Put b k v
  | OpDelete k => WriteBatch_Delete b k
  end.
Definition batch_of (ops : list op) : WriteBatch := fold_left batch_add ops WriteBatch_new.

Definition h_apply {H} `{Handler H} (h : H) (o : op) : H :=
  match o with OpPut k v => h_Put k v h | OpDelete k => h_Delete k h end.

(** Sizes representable in the format's 32-bit length fields. *)
Definition op_fits (o : op) : Prop :=
  match o with
  | OpPut k v => zlen k < 2 ^ 32 ∧ zlen v < 2 ^ 32
  | OpDelete k => zlen k < 2 ^ 32
  end.

Definition encode_op (o : op) : bytes :=
  match o with
  | OpPut k v => RecordType_byte kPut :: lp_slice k ++ lp_slice v
  | OpDelete k => RecordType_byte kDelete :: lp_slice k
  end.

(** The operations the loop hands to any handler. *)
Definition decoded_ops (rep : bytes) : list op :=
  (Iterate_loop (length rep) rep 0 ([] : list op)).2.

(** Effect of an operation on a layer, and on the abstract contents. *)
Definition layer_op (m : layer) (o : op) : layer :=
  match o with OpPut k v => <[k := Some v]> m | OpDelete k => <[k := None]> m end.
Definition map_op (m : gmap bytes bytes) (o : op) : gmap bytes bytes :=
  match o with OpPut k v => <[k := v]> m | OpDelete k => delete k m end.

(** ** Lemmas *)

Lemma batch_add_rep b o : rep_ (batch_add b o) = rep_ b ++ encode_op o.
Proof.
  destruct o as [k v|k]; cbn [batch_add encode_op WriteBatch_Put WriteBatch_Delete rep_];
    rewrite !PutLengthPrefixedSlice_app, <- !app_assoc; done.
Qed.

Lemma batch_of_rep ops : rep_ (batch_of ops) = concat (encode_op <$> ops).
Proof.
  unfold batch_of. change (concat (encode_op <$> ops)) with (rep_ WriteBatch_new ++ concat (encode_op <$> ops)).
  generalize WriteBatch_new as b. induction ops as [|o ops IH]; intros b; cbn.
  - by rewrite app_nil_r.
  - by rewrite IH, batch_add_rep, <- app_assoc.
Qed.

Lemma batch_of_count ops : zlen ops < 2 ^ 64 → count_ (batch_of ops) = zlen ops.
Proof.
  intros H. unfold batch_of. change (zlen ops) with (count_ WriteBatch_new + zlen ops).
  assert (0 ≤ count_ WriteBatch_new) as H0 by done.
  assert (count_ WriteBatch_new + zlen ops < 2 ^ 64) as H1 by done. revert H0 H1. clear H.
  generalize WriteBatch_new as b. induction ops as [|o ops IH]; intros b H0 H1; cbn [fold_left length].
  - cbn in *. lia.
  - cbn [length] in *. assert (count_ (batch_add b o) = count_ b + 1) as E.
    { destruct o; cbn; apply wrap64_id; unfold is_u64; lia. }
    rewrite IH, E; lia.
Qed.

Lemma tag_distinct : RecordType_byte kDelete ≠ RecordType_byte kPut.
Proof. done. Qed.

Section handler.
Context {T : Type} `{HT : Handler T}.
Implicit Types h : T.

(** One iteration on an encoded operation. *)
Lemma Iterate_loop_op fuel o rest seen h : op_fits o →
  Iterate_loop (S fuel) (encode_op o ++ rest) seen h =
  Iterate_loop fuel rest (wrap64 (seen + 1)) (h_apply h o).
Proof.
  intros Ho. destruct o as [k v|k]; cbn [encode_op app Iterate_loop op_fits] in *.
  - destruct (decide _) as [_|]; [|done].
    rewrite <- app_assoc, GetLengthPrefixedSlice_lp by apply Ho.
    by rewrite GetLengthPrefixedSlice_lp by apply Ho.
  - destruct (decide _) as [?|_]; [by destruct tag_distinct|].
    destruct (decide _) as [_|]; [|done]. by rewrite GetLengthPrefixedSlice_lp.
Qed.

Lemma encode_op_length o : (1 ≤ length (encode_op o))%nat.
Proof. destruct o; cbn; lia. Qed.

Lemma Iterate_loop_ops ops fuel seen h :
  Forall op_fits ops → 0 ≤ seen → seen + zlen ops < 2 ^ 64 →
  (length (concat (encode_op <$> ops)) ≤ fuel)%nat →
  Iterate_loop fuel (concat (encode_op <$> ops)) seen h =
  (inr (seen + zlen ops), fold_left h_apply ops h).
Proof.
  revert fuel seen h. induction ops as [|o ops IH]; intros fuel seen h Hf H0 H1 Hfuel.
  - cbn. rewrite Z.add_0_r. by destruct fuel.
  - apply Forall_cons in Hf as [Ho Hf]. cbn [fmap list_fmap concat length fold_left] in *.
    rewrite length_app in Hfuel. pose proof (encode_op_length o).
    destruct fuel as [|fuel]; [lia|]. rewrite Iterate_loop_op by done.
    rewrite wrap64_id by (unfold is_u64; lia). rewrite IH; [|done|lia..].
    do 2 f_equal. lia.
Qed.

(** More fuel than the input's length changes nothing. *)
Lemma Iterate_loop_fuel f1 f2 input seen h :
  (length input ≤ f1)%nat → (length input ≤ f2)%nat →
  Iterate_loop f1 input seen h = Iterate_loop f2 input seen h.
Proof.
  revert f2 input seen h. induction f1 as [|f1 IH]; intros f2 input seen h H1 H2.
  { destruct input; [|cbn in H1; lia]. by destruct f2. }
  destruct input as [|tag input]; [by destruct f2|].
  destruct f2 as [|f2]; [cbn in H2; lia|]. cbn [Iterate_loop length] in *.
  repeat case_match; try done;
    repeat match goal with
    | E : GetLengthPrefixedSlice _ = Some _ |- _ => apply GetLengthPrefixedSlice_shorter in E
    end; apply IH; lia.
Qed.

Lemma Iterate_batch_of ops h : Forall op_fits ops → zlen ops < 2 ^ 64 →
  Iterate (batch_of ops) h = (OK, fold_left h_apply ops h).
Proof.
  intros Hf Hn. unfold Iterate. rewrite batch_of_rep, batch_of_count by done.
  rewrite Iterate_loop_ops; [|done|lia..]. by rewrite Z.add_0_l, Z.eqb_refl.
Qed.

(** Every handler sees the same operations in the same order. *)
Lemma Iterate_loop_decoded fuel input seen h l :
  (Iterate_loop fuel input seen (l : list op)).1 = (Iterate_loop fuel input seen h).1 ∧
  ∃ ops, (Iterate_loop fuel input seen (l : list op)).2 = l ++ ops ∧
    (Iterate_loop fuel input seen h).2 = fold_left h_apply ops h.
Proof.
  revert input seen h l. induction fuel as [|fuel IH]; intros input seen h l; cbn [Iterate_loop].
  { split; [done|]. exists []. by rewrite app_nil_r. }
  assert (∀ r : Status + Z, r = r ∧ ∃ ops, l = l ++ ops ∧ h = fold_left h_apply ops h) as Hstop.
  { intros r. split; [done|]. exists []. by rewrite app_nil_r. }
  assert (∀ o i', (Iterate_loop fuel i' (wrap64 (seen + 1)) (h_apply l o)).1 =
      (Iterate_loop fuel i' (wrap64 (seen + 1)) (h_apply h o)).1 ∧
    ∃ ops, (Iterate_loop fuel i' (wrap64 (seen + 1)) (h_apply l o)).2 = l ++ ops ∧
      (Iterate_loop fuel i' (wrap64 (seen + 1)) (h_apply h o)).2 = fold_left h_apply ops h) as Hgo.
  { intros o i'. destruct (IH i' (wrap64 (seen + 1)) (h_apply h o) (h_apply l o))
      as [-> (ops & E1 & E2)]. split; [done|]. exists (o :: ops). rewrite E1, E2.
    split; [|done]. destruct o; cbn; by rewrite <- app_assoc. }
  destruct input as [|tag input]; [apply Hstop|].
  destruct (decide (tag = RecordType_byte kPut)).
  - destruct (GetLengthPrefixedSlice input) as [[k i1]|]; [|apply Hstop].
    destruct (GetLengthPrefixedSlice i1) as [[v i2]|]; [|apply Hstop]. apply (Hgo (OpPut k v)).
  - destruct (decide (tag = RecordType_byte kDelete)); [|apply Hstop].
    destruct (GetLengthPrefixedSlice input) as [[k i1]|]; [|apply Hstop]. apply (Hgo (OpDelete k)).
Qed.

Lemma Iterate_decoded b h : (Iterate b h).2 = fold_left h_apply (decoded_ops (rep_ b)) h.
Proof.
  unfold Iterate, decoded_ops.
  destruct (Iterate_loop_decoded (length (rep_ b)) (rep_ b) 0 h []) as [_ (ops & -> & E)].
  destruct (Iterate_loop _ _ _ h) as [[s|n] h'] eqn:El; cbn in *; [done|].
  by destruct (negb _).
Qed.
End handler.

Lemma decoded_ops_of ops : Forall op_fits ops → zlen ops < 2 ^ 64 →
  decoded_ops (rep_ (batch_of ops)) = ops.
Proof.
  intros Hf Hn. unfold decoded_ops. rewrite batch_of_rep, Iterate_loop_ops; [|done|lia..].
  cbn. clear. change ops with ([] ++ ops) at 2. generalize (@nil op) as l.
  induction ops as [|o ops IH]; intros l; cbn; [by rewrite app_nil_r|].
  rewrite IH. destruct o; cbn; by rewrite <- app_assoc.
Qed.

(** The memtable handler implements the operations on the layer. *)
Lemma mem_apply_wf mt ops : mem_wf mt → mem_wf (fold_left h_apply ops mt).
Proof.
  revert mt. induction ops as [|o ops IH]; intros mt Hm; cbn; [done|].
  apply IH. destruct o; cbn; [by apply MemTable_Put_wf|by apply MemTable_Delete_wf].
Qed.

Lemma mem_apply_layer mt ops : mem_wf mt →
  mem_layer (fold_left h_apply ops mt) = fold_left layer_op ops (mem_layer mt).
Proof.
  revert mt. induction ops as [|o ops IH]; intros mt Hm; cbn; [done|].
  rewrite IH by (destruct o; [by apply MemTable_Put_wf|by apply MemTable_Delete_wf]).
  f_equal. destruct o; cbn; [by apply mem_layer_Put|by apply mem_layer_Delete].
Qed.
