(* ===== verification/FileSystem.v ===== *)
(** * The file system and C stdio, as the source uses them

    The standard library's side of the program: [fopen], [fwrite], [fread],
    [fseek], [ftell], [fflush], [fclose], [fsync], [remove], [rename] and the
    [std::filesystem] calls.

    A disk maps canonical paths to inodes and inodes to contents, so that an
    open [FILE*] keeps denoting the same file when its name is unlinked.
    Output is buffered: bytes given to [fwrite] reach the file when the buffer
    spills, at [fflush] or at [fclose].

    Every call asks an oracle for its outcome.  A failing call may still have
    part of its effect (a short write, a partial flush), as far as the outcome
    says.  A crash of the process at some call is the oracle under which that
    call and every later one fail without effect: the disk it leaves is the
    final disk of the run.  Theorems that quantify over all oracles therefore
    cover all I/O errors and all crash points. *)

From S2P Require Import Prelude.

Inductive errno := ENOENT | EIO.
Definition strerror (e : errno) : bytes :=
  match e with
  | ENOENT => str "No such file or directory"
  | EIO => str "Input/output error"
  end.

(** The outcome of one call: whether it succeeds, how many of the given bytes
    a failing [fwrite] accepts (or a failing [fread] delivers), and how many
    buffered bytes reach the file. *)
Record outcome := mkOutcome { o_ok : bool; o_take : nat; o_spill : nat }.

Class Oracle := outcome_at : nat → outcome.

(** No call fails (buffers may still spill at any time). *)
Class FaultFree (O : Oracle) : Prop := fault_free n : o_ok (outcome_at n) = true.

Record Disk := mkDisk {
  d_files : gmap bytes nat;
  d_inodes : gmap nat bytes;
  d_next : nat;
  d_dirs : gset bytes;
}.

(** [w_disk] is what a running process sees; [w_stable] has the content each
    inode had when [fsync] last succeeded on it: what a power failure leaves of
    it at least ([PowerLoss]). *)
Record World := mkWorld { w_disk : Disk; w_clock : nat; w_stable : gmap nat bytes }.

(** [FILE*]: the object that owns the stream threads its value. *)
Record FILE := mkFILE { f_ino : nat; f_pos : Z; f_buf : bytes }.

Definition empty_disk : Disk := mkDisk ∅ ∅ 0 ∅.
(** After a boot everything on the disk is stable. *)
Definition booted (d : Disk) : World := mkWorld d 0 (d_inodes d).

(** ** Paths *)

Definition slash : byte := x2f.

(** Consecutive slashes name the same file as one. *)
Fixpoint canon (p : bytes) : bytes :=
  match p with
  | [] => []
  | c :: p' =>
      if decide (c = slash) then
        match p' with
        | c' :: _ => if decide (c' = slash) then canon p' else c :: canon p'
        | [] => [c]
        end
      else c :: canon p'
  end.

(** [fs::path(p) / name] for a plain file name: a separator is added unless
    [p] already ends with one (or is empty). *)
Definition path_append (p name : bytes) : bytes :=
  match last p with
  | None => name
  | Some c => if decide (c = slash) then p ++ name else p ++ slash :: name
  end.

(** [path.extension()] of a plain file name: from the last dot, unless there
    is none or it is the first character. *)
Fixpoint extension_from (seen : bytes) (name : bytes) (ext : bytes) : bytes :=
  match name with
  | [] => ext
  | c :: name' =>
      extension_from (seen ++ [c]) name'
        (if decide (c = x2e) then match seen with [] => [] | _ => c :: name' end else ext)
  end.
Definition extension (name : bytes) : bytes := extension_from [] name [].

(** ** Contents *)

Definition icontent (d : Disk) (i : nat) : bytes := default [] (d_inodes d !! i).
Definition resolve (d : Disk) (path : bytes) : option nat := d_files d !! canon path.
Definition content (d : Disk) (path : bytes) : option bytes := icontent d <$> resolve d path.

Definition append_to (i : nat) (data : bytes) (d : Disk) : Disk :=
  match data with
  | [] => d
  | _ => mkDisk (d_files d) (<[i := icontent d i ++ data]> (d_inodes d)) (d_next d) (d_dirs d)
  end.
Definition set_content (i : nat) (data : bytes) (d : Disk) : Disk :=
  mkDisk (d_files d) (<[i := data]> (d_inodes d)) (d_next d) (d_dirs d).
Definition create_file (path : bytes) (d : Disk) : Disk :=
  mkDisk (<[canon path := d_next d]> (d_files d)) (<[d_next d := []]> (d_inodes d))
    (S (d_next d)) (d_dirs d).
Definition unlink (path : bytes) (d : Disk) : Disk :=
  mkDisk (delete (canon path) (d_files d)) (d_inodes d) (d_next d) (d_dirs d).
Definition relink (from to : bytes) (i : nat) (d : Disk) : Disk :=
  mkDisk (<[canon to := i]> (delete (canon from) (d_files d))) (d_inodes d) (d_next d) (d_dirs d).

(** ** Calls *)

Section calls.
Context {O : Oracle}.

Definition tick : ST World outcome :=
  λ w, (outcome_at (w_clock w), mkWorld (w_disk w) (S (w_clock w)) (w_stable w)).
Definition get_disk : ST World Disk := gets w_disk.
Definition on_disk (f : Disk → Disk) : ST World () :=
  modify (λ w, mkWorld (f (w_disk w)) (w_clock w) (w_stable w)).

(** [fopen(path, "rb")] *)
Definition fopen_rb (path : bytes) : ST World (FILE + errno) :=
  o ← tick; d ← get_disk;
  if o_ok o then
    match resolve d path with
    | Some i => mret (inl (mkFILE i 0 []))
    | None => mret (inr ENOENT)
    end
  else mret (inr EIO).

(** [fopen(path, "wb")]: truncate or create. *)
Definition fopen_wb (path : bytes) : ST World (FILE + errno) :=
  o ← tick; d ← get_disk;
  if o_ok o then
    match resolve d path with
    | Some i => on_disk (set_content i []);; mret (inl (mkFILE i 0 []))
    | None => on_disk (create_file path);; mret (inl (mkFILE (d_next d) 0 []))
    end
  else mret (inr EIO).

(** [fopen(path, "ab")]: append, creating if missing. *)
Definition fopen_ab (path : bytes) : ST World (FILE + errno) :=
  o ← tick; d ← get_disk;
  if o_ok o then
    match resolve d path with
    | Some i => mret (inl (mkFILE i 0 []))
    | None => on_disk (create_file path);; mret (inl (mkFILE (d_next d) 0 []))
    end
  else mret (inr EIO).

(** [fwrite(data, 1, size, f)]: the number of bytes accepted.  The source
    writes sequentially from the end of the file only. *)
Definition fwrite (data : bytes) (f : FILE) : ST World (Z * FILE) :=
  o ← tick;
  let n := if o_ok o then length data else Nat.min (o_take o) (length data - 1) in
  let buf := f_buf f ++ take n data in
  on_disk (append_to (f_ino f) (take (o_spill o) buf));;
  mret (Z.of_nat n, mkFILE (f_ino f) (f_pos f) (drop (o_spill o) buf)).

(** [fflush(f) == 0] *)
Definition fflush (f : FILE) : ST World (bool * FILE) :=
  o ← tick;
  let n := if o_ok o then length (f_buf f) else o_spill o in
  on_disk (append_to (f_ino f) (take n (f_buf f)));;
  mret (o_ok o, mkFILE (f_ino f) (f_pos f) (drop n (f_buf f))).

(** [fclose(f) == 0]; the stream is gone in either case. *)
Definition fclose (f : FILE) : ST World bool :=
  o ← tick;
  let n := if o_ok o then length (f_buf f) else o_spill o in
  on_disk (append_to (f_ino f) (take n (f_buf f)));;
  mret (o_ok o).

(** [fsync(fileno(f)) == 0] *)
Definition make_stable (i : nat) (w : World) : World :=
  mkWorld (w_disk w) (w_clock w) (<[i := icontent (w_disk w) i]> (w_stable w)).
Definition fsync (f : FILE) : ST World bool :=
  o ← tick;
  if o_ok o then modify (make_stable (f_ino f));; mret true else mret false.

(** [fseek(f, off, SEEK_SET) == 0] *)
Definition fseek_set (off : Z) (f : FILE) : ST World (bool * FILE) :=
  o ← tick;
  if o_ok o && (0 <=? off) then mret (true, mkFILE (f_ino f) off (f_buf f))
  else mret (false, f).

(** [fseek(f, 0, SEEK_END) == 0] *)
Definition fseek_end (f : FILE) : ST World (bool * FILE) :=
  o ← tick; d ← get_disk;
  if o_ok o then mret (true, mkFILE (f_ino f) (zlen (icontent d (f_ino f))) (f_buf f))
  else mret (false, f).

(** [ftell(f)]: it has no failure on an open regular file. *)
Definition ftell (f : FILE) : ST World Z := o ← tick; mret (f_pos f).

(** [fread(_, 1, n, f)]: the bytes delivered. *)
Definition fread (n : Z) (f : FILE) : ST World (bytes * FILE) :=
  o ← tick; d ← get_disk;
  let avail := ztake n (zdrop (f_pos f) (icontent d (f_ino f))) in
  let data := if o_ok o then avail else take (o_take o) avail in
  mret (data, mkFILE (f_ino f) (f_pos f + zlen data) (f_buf f)).

(** [remove(path) == 0] *)
Definition remove (path : bytes) : ST World bool :=
  o ← tick; d ← get_disk;
  match resolve d path with
  | Some _ => if o_ok o then on_disk (unlink path);; mret true else mret false
  | None => mret false
  end.

(** [rename(from, to) == 0] *)
Definition rename (from to : bytes) : ST World bool :=
  o ← tick; d ← get_disk;
  match resolve d from with
  | Some i => if o_ok o then on_disk (relink from to i);; mret true else mret false
  | None => mret false
  end.

(** [fs::exists(path, ec)] *)
Definition fs_exists (path : bytes) : ST World bool :=
  o ← tick; d ← get_disk;
  mret (o_ok o && (bool_decide (canon (path ++ [slash]) ∈ d_dirs d) ||
                   bool_decide (is_Some (resolve d path)))).

(** [fs::create_directories(path, ec)]: whether it created, whether [ec] is set. *)
Definition add_dir (path : bytes) (d : Disk) : Disk :=
  mkDisk (d_files d) (d_inodes d) (d_next d) ({[canon (path ++ [slash])]} ∪ d_dirs d).
Definition fs_create_directories (path : bytes) : ST World (bool * bool) :=
  o ← tick; d ← get_disk;
  if o_ok o then
    on_disk (add_dir path);;
    mret (negb (bool_decide (canon (path ++ [slash]) ∈ d_dirs d)), false)
  else mret (false, true).

(** The file names listed by [fs::directory_iterator(path, ec)]. *)
Definition names_in (path : bytes) (d : Disk) : list bytes :=
  let dir := canon (path ++ [slash]) in
  omap (λ '(p, _), if decide (take (length dir) p = dir) then
                     let name := drop (length dir) p in
                     if decide (slash ∈ name) then None else Some name
                   else None)
    (map_to_list (d_files d)).
Definition fs_directory_iterator (path : bytes) : ST World (list bytes) :=
  o ← tick; d ← get_disk;
  mret (if o_ok o then names_in path d else []).

(** [fs::remove_all(path)]: the file or directory and everything below it;
    [false] when it throws. *)
Definition below (path p : bytes) : bool :=
  let dir := canon (path ++ [slash]) in
  bool_decide (p = canon path) || bool_decide (take (length dir) p = dir).
Definition remove_tree (path : bytes) (d : Disk) : Disk :=
  mkDisk (filter (λ kv, below path kv.1 = false) (d_files d)) (d_inodes d) (d_next d)
    (filter (λ p, below path p = false) (d_dirs d)).
Definition fs_remove_all (path : bytes) : ST World bool :=
  o ← tick;
  if o_ok o then on_disk (remove_tree path);; mret true else mret false.

(** [fs::file_size(path, ec)]: [static_cast<uintmax_t>(-1)] on error. *)
Definition fs_file_size (path : bytes) : ST World Z :=
  o ← tick; d ← get_disk;
  match content d path with
  | Some c => mret (if o_ok o then zlen c else 2 ^ 64 - 1)
  | None => mret (2 ^ 64 - 1)
  end.
End calls.

(** ** Lemmas: canonical paths *)

Lemma canon_app p s : slash ∉ s → canon (p ++ s) = canon p ++ s.
Proof.
  intros Hs. assert (canon s = s) as Hcs.
  { clear p. induction s as [|c s IH]; [done|]. cbn. apply not_elem_of_cons in Hs as [Hc Hs].
    destruct (decide (c = slash)); [congruence|]. by rewrite IH. }
  induction p as [|c p IH]; [done|]. cbn [app canon].
  destruct (decide (c = slash)) as [->|]; [|by rewrite IH].
  destruct p as [|c' p]; cbn [app] in *.
  - destruct s as [|c s]; [done|]. apply not_elem_of_cons in Hs as [Hc _].
    destruct (decide (c = slash)); [congruence|]. by rewrite Hcs.
  - destruct (decide (c' = slash)); by rewrite IH.
Qed.

(** Decidable side condition on a concrete file name. *)
Definition no_slash (s : bytes) : bool := bool_decide (slash ∉ s).
Lemma no_slash_spec s : no_slash s = true → slash ∉ s.
Proof. apply bool_decide_eq_true_1. Qed.

(** ** Well-formed disks and frames *)

(** Names denote distinct existing inodes; inode numbers are below [d_next]. *)
Record disk_wf (d : Disk) : Prop := {
  wf_file p i : d_files d !! p = Some i → (i < d_next d)%nat;
  wf_inode i c : d_inodes d !! i = Some c → (i < d_next d)%nat;
  wf_inj p q i : d_files d !! p = Some i → d_files d !! q = Some i → p = q;
}.

(** Only the files named by [P] (canonical paths) may have changed. *)
Record only_paths (P : gset bytes) (d d' : Disk) : Prop := {
  op_files q : q ∉ P → d_files d' !! q = d_files d !! q;
  op_inodes j : (j < d_next d)%nat → (∀ p, p ∈ P → d_files d !! p ≠ Some j) →
    d_inodes d' !! j = d_inodes d !! j;
  op_next : (d_next d ≤ d_next d')%nat;
  op_old p j : p ∈ P → (j < d_next d)%nat → d_files d' !! p = Some j →
    ∃ p', p' ∈ P ∧ d_files d !! p' = Some j;
  op_dirs : d_dirs d' = d_dirs d;
}.

#[global] Instance only_paths_refl P : Reflexive (only_paths P).
Proof. split; [done..|eauto|done]. Qed.

#[global] Instance only_paths_trans P : Transitive (only_paths P).
Proof.
  intros d1 d2 d3 [f1 i1 n1 o1 r1] [f2 i2 n2 o2 r2]. split.
  - intros q Hq. by rewrite f2, f1.
  - intros j Hj Hp. rewrite i2, i1; [done|done|done|lia|].
    intros p Hin E. destruct (o1 p j) as (p' & ? & ?); [done..|]. by eapply Hp.
  - lia.
  - intros p j Hp Hj E. destruct (o2 p j) as (p' & Hp' & E'); [done|lia|done|]. eauto.
  - by rewrite r2.
Qed.

Lemma only_paths_mono P Q d d' : disk_wf d → P ⊆ Q → only_paths P d d' → only_paths Q d d'.
Proof.
  intros Hwf HPQ [f i n o r]. split; [|..|done].
  - intros q Hq. apply f. set_solver.
  - intros j Hj Hp. apply i; [done|]. intros p Hin. apply Hp. set_solver.
  - done.
  - intros p j Hp Hj E. destruct (decide (p ∈ P)) as [Hin|Hin].
    + destruct (o p j) as (p' & ? & ?); [done..|]. exists p'. split; [set_solver|done].
    + exists p. split; [done|]. by rewrite <- f.
Qed.

(** A file outside [P] keeps its inode and content. *)
Lemma only_paths_file P d d' p i : disk_wf d → only_paths P d d' → p ∉ P →
  d_files d !! p = Some i → d_files d' !! p = Some i ∧ d_inodes d' !! i = d_inodes d !! i.
Proof.
  intros Hwf Hop Hp Hf. split.
  - by rewrite (op_files _ _ _ Hop).
  - apply (op_inodes _ _ _ Hop); [by eapply wf_file|].
    intros q Hq Hq'. by rewrite (wf_inj _ Hwf p q i) in Hp.
Qed.

Lemma only_paths_content P d d' path : disk_wf d → only_paths P d d' → canon path ∉ P →
  content d' path = content d path.
Proof.
  intros Hwf Hop Hp. unfold content, resolve. rewrite (op_files _ _ _ Hop) by done.
  destruct (d_files d !! canon path) as [i|] eqn:E; [|done]. cbn.
  destruct (only_paths_file P d d' _ i Hwf Hop Hp E) as [_ Ei]. unfold icontent. by rewrite Ei.
Qed.

Lemma icontent_set i c d : icontent (set_content i c d) i = c.
Proof. unfold icontent, set_content. cbn. by rewrite lookup_insert_eq. Qed.
Lemma icontent_append i c d : icontent (append_to i c d) i = icontent d i ++ c.
Proof.
  unfold append_to. destruct c; [by rewrite app_nil_r|].
  unfold icontent. cbn. by rewrite lookup_insert_eq.
Qed.

(** Changing the content of the inode that [p] names. *)
Lemma set_content_frame p i c d : disk_wf d → d_files d !! p = Some i →
  disk_wf (set_content i c d) ∧ only_paths {[p]} d (set_content i c d).
Proof.
  intros Hwf Hp. split; split; cbn.
  - apply Hwf.
  - intros j c' [[<- _]|[_ H]]%lookup_insert_Some; [by eapply wf_file|by eapply wf_inode].
  - apply Hwf.
  - done.
  - intros j Hj Hn. rewrite lookup_insert_ne; [done|]. intros <-. by eapply Hn; [apply elem_of_singleton|].
  - done.
  - intros q j ->%elem_of_singleton Hj E. exists p. split; [set_solver|done].
  - done.
Qed.

Lemma append_to_set i c d : c ≠ [] → append_to i c d = set_content i (icontent d i ++ c) d.
Proof. by destruct c. Qed.

Lemma create_frame path d : disk_wf d → resolve d path = None →
  disk_wf (create_file path d) ∧ only_paths {[canon path]} d (create_file path d).
Proof.
  intros Hwf Hr. split; split; cbn.
  - intros p i [[<- <-]|[_ H]]%lookup_insert_Some; [lia|]. apply wf_file in H; [lia|done].
  - intros i c [[<- <-]|[_ H]]%lookup_insert_Some; [lia|]. apply wf_inode in H; [lia|done].
  - intros p q i [[<- <-]|[? H]]%lookup_insert_Some [[<- E]|[? H']]%lookup_insert_Some; try done.
    + apply wf_file in H'; [lia|done].
    + subst. apply wf_file in H; [lia|done].
    + by eapply wf_inj.
  - intros q Hq. rewrite lookup_insert_ne; [done|set_solver].
  - intros j Hj _. rewrite lookup_insert_ne; [done|lia].
  - lia.
  - intros p j ->%elem_of_singleton Hj. rewrite lookup_insert_eq. intros [= <-]. lia.
  - done.
Qed.

Lemma unlink_frame path d : disk_wf d →
  disk_wf (unlink path d) ∧ only_paths {[canon path]} d (unlink path d).
Proof.
  intros Hwf. split; split; cbn.
  - intros p i [_ H]%lookup_delete_Some. by eapply wf_file.
  - apply Hwf.
  - intros p q i [_ H]%lookup_delete_Some [_ H']%lookup_delete_Some. by eapply wf_inj.
  - intros q Hq. rewrite lookup_delete_ne; [done|set_solver].
  - done.
  - done.
  - intros p j ->%elem_of_singleton _. by rewrite lookup_delete_eq.
  - done.
Qed.

Lemma relink_frame from to i d : disk_wf d → resolve d from = Some i →
  disk_wf (relink from to i d) ∧ only_paths {[canon from; canon to]} d (relink from to i d).
Proof.
  intros Hwf Hr. unfold resolve in Hr. split; split; cbn.
  - intros p j [[<- <-]|[_ [_ H]%lookup_delete_Some]]%lookup_insert_Some; by eapply wf_file.
  - apply Hwf.
  - intros p q j [[<- <-]|[? [? H]%lookup_delete_Some]]%lookup_insert_Some
      [[<- E]|[? [? H']%lookup_delete_Some]]%lookup_insert_Some; try done.
    + by destruct (wf_inj _ Hwf (canon from) q i).
    + subst. by destruct (wf_inj _ Hwf (canon from) p j).
    + by eapply wf_inj.
  - intros q Hq. rewrite lookup_insert_ne, lookup_delete_ne by set_solver. done.
  - done.
  - done.
  - intros p j Hp Hj [[<- <-]|[? [? H]%lookup_delete_Some]]%lookup_insert_Some.
    + exists (canon from). split; [set_solver|done].
    + exists p. done.
  - done.
Qed.

#[global] Arguments set_content : simpl never.
#[global] Arguments append_to : simpl never.
#[global] Arguments create_file : simpl never.
#[global] Arguments unlink : simpl never.
#[global] Arguments relink : simpl never.
#[global] Arguments icontent : simpl never.
#[global] Arguments resolve : simpl never.

(** ** Specifications of the calls, for every oracle *)

(** Unfold the one-call computations. *)
Ltac run_call :=
  unfold wp, fopen_rb, fopen_wb, fopen_ab, fwrite, fflush, fclose, fsync, fseek_set, fseek_end,
    ftell, fread, remove, rename, fs_exists, fs_create_directories, fs_directory_iterator,
    fs_remove_all, fs_file_size, get_disk, on_disk, gets, modify;
  unfold mbind, ST_bind, mret, ST_ret; cbn [fst snd tick w_disk w_clock w_stable].

Section specs.
Context {O : Oracle}.
Implicit Types (w : World) (f : FILE).

Lemma not_fault_free n : o_ok (outcome_at n) = false → ¬ FaultFree O.
Proof. intros E Hff. specialize (Hff n). congruence. Qed.

Lemma fopen_rb_spec path w :
  wp (fopen_rb path) (λ r w', w_disk w' = w_disk w ∧
    match r with
    | inl f => resolve (w_disk w) path = Some (f_ino f) ∧ f_pos f = 0 ∧ f_buf f = []
    | inr ENOENT => resolve (w_disk w) path = None
    | inr EIO => ¬ FaultFree O
    end) w.
Proof.
  run_call. destruct (o_ok _) eqn:E; cbn.
  - by destruct (resolve _ _) eqn:Er.
  - split; [done|]. by eapply not_fault_free.
Qed.

(** A stream open for writing on [path], all of whose buffered and stored
    bytes together are [c]. *)
Definition stored (d : Disk) f (c : bytes) : Prop := icontent d (f_ino f) ++ f_buf f = c.

Lemma fopen_wb_spec path w : disk_wf (w_disk w) →
  wp (fopen_wb path) (λ r w', match r with
    | inl f => disk_wf (w_disk w') ∧ only_paths {[canon path]} (w_disk w) (w_disk w') ∧
        resolve (w_disk w') path = Some (f_ino f) ∧ stored (w_disk w') f []
    | inr _ => w_disk w' = w_disk w ∧ ¬ FaultFree O
    end) w.
Proof.
  intros Hwf. run_call. destruct (o_ok _) eqn:E; cbn.
  - destruct (resolve _ _) as [i|] eqn:Er; cbn.
    + destruct (set_content_frame (canon path) i [] (w_disk w)) as [? ?]; [done..|].
      split_and!; [done..|]. unfold stored; cbn. by rewrite icontent_set.
    + destruct (create_frame path (w_disk w)) as [? ?]; [done..|].
      split_and!; [done|done|unfold resolve, create_file; cbn; by rewrite lookup_insert_eq|].
      unfold stored, icontent, create_file. cbn. by rewrite lookup_insert_eq.
  - split; [done|]. by eapply not_fault_free.
Qed.

Lemma fopen_ab_spec path w : disk_wf (w_disk w) →
  wp (fopen_ab path) (λ r w', match r with
    | inl f => disk_wf (w_disk w') ∧ only_paths {[canon path]} (w_disk w) (w_disk w') ∧
        resolve (w_disk w') path = Some (f_ino f) ∧
        stored (w_disk w') f (default [] (content (w_disk w) path)) ∧ f_buf f = []
    | inr _ => w_disk w' = w_disk w ∧ ¬ FaultFree O
    end) w.
Proof.
  intros Hwf. run_call. destruct (o_ok _) eqn:E; cbn.
  - destruct (resolve _ _) as [i|] eqn:Er; cbn.
    + split_and!; [done|reflexivity|done| |done]. unfold stored, content. rewrite Er. cbn.
      by rewrite app_nil_r.
    + destruct (create_frame path (w_disk w)) as [? ?]; [done..|].
      split_and!; [done|done|unfold resolve, create_file; cbn; by rewrite lookup_insert_eq| |done].
      unfold stored, icontent, content, create_file. rewrite Er. cbn. by rewrite lookup_insert_eq.
  - split; [done|]. by eapply not_fault_free.
Qed.

(** Writing through a stream on the file [p]: names do not change. *)
Definition writes (p : bytes) (d d' : Disk) : Prop :=
  disk_wf d' ∧ only_paths {[p]} d d' ∧ d_files d' = d_files d.

Lemma writes_then p d1 d2 d3 : writes p d1 d2 → writes p d2 d3 → writes p d1 d3.
Proof. intros (_ & O1 & F1) (W2 & O2 & F2). split_and!; [done|by etrans|congruence]. Qed.

Lemma append_writes p i data d : disk_wf d → d_files d !! p = Some i →
  writes p d (append_to i data d).
Proof.
  intros Hwf Hp. destruct (decide (data = [])) as [->|Hd]; [by split_and!|].
  rewrite append_to_set by done.
  by destruct (set_content_frame p i (icontent d i ++ data) d Hwf Hp).
Qed.

Lemma fwrite_spec p data f c w :
  disk_wf (w_disk w) → d_files (w_disk w) !! p = Some (f_ino f) → stored (w_disk w) f c →
  wp (fwrite data f) (λ '(n, f') w', writes p (w_disk w) (w_disk w') ∧ f_ino f' = f_ino f ∧
    (∃ k, (k ≤ length data)%nat ∧ n = Z.of_nat k ∧ stored (w_disk w') f' (c ++ take k data)) ∧
    (∃ x, icontent (w_disk w') (f_ino f) = icontent (w_disk w) (f_ino f) ++ x) ∧
    (FaultFree O → n = zlen data)) w.
Proof.
  intros Hwf Hp Hs. run_call. cbn -[take drop Nat.min]. split_and!.
  - by apply append_writes.
  - done.
  - eexists. split_and!; [|done|].
    + destruct (o_ok _); lia.
    + unfold stored in *. cbn. rewrite icontent_append, <- app_assoc, take_drop.
      by rewrite app_assoc, Hs.
  - rewrite icontent_append. eauto.
  - intros Hff. by rewrite (Hff (w_clock w)).
Qed.

Lemma fflush_spec p f c w :
  disk_wf (w_disk w) → d_files (w_disk w) !! p = Some (f_ino f) → stored (w_disk w) f c →
  wp (fflush f) (λ '(b, f') w', writes p (w_disk w) (w_disk w') ∧ f_ino f' = f_ino f ∧
    stored (w_disk w') f' c ∧
    (∃ x, icontent (w_disk w') (f_ino f) = icontent (w_disk w) (f_ino f) ++ x) ∧
    (b = true → f_buf f' = [] ∧ icontent (w_disk w') (f_ino f) = c) ∧
    (FaultFree O → b = true)) w.
Proof.
  intros Hwf Hp Hs. run_call. cbn -[take drop]. split_and!.
  - by apply append_writes.
  - done.
  - unfold stored in *. cbn. by rewrite icontent_append, <- app_assoc, take_drop.
  - rewrite icontent_append. eauto.
  - intros ->. rewrite drop_all, icontent_append, firstn_all. done.
  - intros Hff. apply (Hff (w_clock w)).
Qed.

Lemma fclose_spec p f c w :
  disk_wf (w_disk w) → d_files (w_disk w) !! p = Some (f_ino f) → stored (w_disk w) f c →
  wp (fclose f) (λ b w', writes p (w_disk w) (w_disk w') ∧
    (∃ x, icontent (w_disk w') (f_ino f) = icontent (w_disk w) (f_ino f) ++ x) ∧
    (∃ rest, icontent (w_disk w') (f_ino f) ++ rest = c) ∧
    (b = true → icontent (w_disk w') (f_ino f) = c) ∧
    (f_buf f = [] → icontent (w_disk w') (f_ino f) = c) ∧
    (FaultFree O → b = true)) w.
Proof.
  intros Hwf Hp Hs. run_call. cbn -[take drop]. unfold stored in Hs. split_and!.
  - by apply append_writes.
  - rewrite icontent_append. eauto.
  - rewrite icontent_append. eexists. rewrite <- app_assoc, take_drop. done.
  - intros ->. by rewrite icontent_append, firstn_all.
  - intros Hb. rewrite Hb in *. by rewrite icontent_append, take_nil.
  - intros Hff. apply (Hff (w_clock w)).
Qed.

(** Closing a stream with nothing buffered leaves the disk alone. *)
Lemma fclose_read_spec f w : f_buf f = [] →
  wp (fclose f) (λ b w', w_disk w' = w_disk w) w.
Proof. intros Hb. run_call. rewrite Hb, take_nil. done. Qed.

Lemma fsync_spec f w :
  wp (fsync f) (λ b w', w_disk w' = w_disk w ∧ (FaultFree O → b = true)) w.
Proof.
  run_call. destruct (o_ok _) eqn:E; cbn; (split; [done|]); [done|]. intros Hff.
  by rewrite (Hff (w_clock w)) in E.
Qed.

Lemma fseek_set_spec off f w :
  wp (fseek_set off f) (λ '(b, f') w', w_disk w' = w_disk w ∧ f_ino f' = f_ino f ∧
    f_buf f' = f_buf f ∧
    (if b then f_pos f' = off ∧ 0 ≤ off else f_pos f' = f_pos f) ∧
    (FaultFree O → 0 ≤ off → b = true)) w.
Proof.
  run_call. destruct (o_ok _) eqn:E, (Z.leb_spec 0 off); cbn; split_and!; try done; try lia.
  all: intros Hff; specialize (Hff (w_clock w)); congruence.
Qed.

Lemma fseek_end_spec f w :
  wp (fseek_end f) (λ '(b, f') w', w_disk w' = w_disk w ∧ f_ino f' = f_ino f ∧
    f_buf f' = f_buf f ∧
    (f_pos f' = if b then zlen (icontent (w_disk w) (f_ino f)) else f_pos f) ∧
    (FaultFree O → b = true)) w.
Proof.
  run_call. destruct (o_ok _) eqn:E; cbn; split_and!; try done.
  intros Hff. specialize (Hff (w_clock w)). congruence.
Qed.

Lemma ftell_spec f w :
  wp (ftell f) (λ n w', w_disk w' = w_disk w ∧ n = f_pos f) w.
Proof. done. Qed.

(** A read delivers a prefix of the available bytes, all of them if it does
    not fail; getting as many as asked for means getting them all. *)
Lemma fread_spec n f w :
  let avail := ztake n (zdrop (f_pos f) (icontent (w_disk w) (f_ino f))) in
  wp (fread n f) (λ '(data, f') w', w_disk w' = w_disk w ∧ f_ino f' = f_ino f ∧
    f_buf f' = f_buf f ∧
    f_pos f' = f_pos f + zlen data ∧
    data `prefix_of` avail ∧ (zlen data = zlen avail → data = avail) ∧
    (FaultFree O → data = avail)) w.
Proof.
  intros avail. run_call. fold avail. cbn -[take]. split_and!; [done..| | |].
  - destruct (o_ok _); [done|]. apply prefix_take.
  - destruct (o_ok _); [done|]. rewrite length_take. intros Hl. apply take_ge. lia.
  - intros Hff. by rewrite (Hff (w_clock w)).
Qed.

Lemma remove_spec path w : disk_wf (w_disk w) →
  wp (remove path) (λ b w', disk_wf (w_disk w') ∧
    only_paths {[canon path]} (w_disk w) (w_disk w') ∧
    (if b then w_disk w' = unlink path (w_disk w) else w_disk w' = w_disk w) ∧
    (FaultFree O → resolve (w_disk w') path = None)) w.
Proof.
  intros Hwf. run_call. destruct (resolve _ _) as [i|] eqn:Er; cbn; [|done].
  destruct (o_ok _) eqn:E; cbn.
  - destruct (unlink_frame path (w_disk w) Hwf). split_and!; [done..|].
    intros _. unfold resolve, unlink. cbn. apply lookup_delete_eq.
  - split_and!; try done. intros Hff. by destruct (not_fault_free _ E).
Qed.

Lemma rename_spec from to w : disk_wf (w_disk w) →
  wp (rename from to) (λ b w', disk_wf (w_disk w') ∧
    only_paths {[canon from; canon to]} (w_disk w) (w_disk w') ∧
    (if b then ∃ i, resolve (w_disk w) from = Some i ∧ w_disk w' = relink from to i (w_disk w)
     else w_disk w' = w_disk w) ∧
    (FaultFree O → is_Some (resolve (w_disk w) from) → b = true)) w.
Proof.
  intros Hwf. run_call. destruct (resolve _ _) as [i|] eqn:Er; cbn.
  - destruct (o_ok _) eqn:E; cbn.
    + destruct (relink_frame from to i (w_disk w) Hwf Er). split_and!; eauto.
    + split_and!; try done. intros Hff. by destruct (not_fault_free _ E).
  - by split_and!.
Qed.

Lemma fs_file_size_spec path w :
  wp (fs_file_size path) (λ n w', w_disk w' = w_disk w ∧ is_u64 n ∨ w_disk w' = w_disk w ∧
    ∃ c, content (w_disk w) path = Some c ∧ n = zlen c) w.
Proof.
  run_call. destruct (content _ _) as [c|] eqn:E; cbn; [|left; by unfold is_u64].
  destruct (o_ok _); [right; eauto|left; by unfold is_u64].
Qed.

Lemma fs_remove_all_spec path w : disk_wf (w_disk w) →
  wp (fs_remove_all path) (λ b w', disk_wf (w_disk w') ∧
    (if b then ∀ p, below path p = true → d_files (w_disk w') !! p = None else w_disk w' = w_disk w) ∧
    (FaultFree O → b = true)) w.
Proof.
  intros [Hf Hi Hinj]. run_call. destruct (o_ok _) eqn:E; cbn.
  2: { split_and!; [done|done|]. intros Hff. by rewrite (Hff (w_clock w)) in E. }
  assert (∀ p i, d_files (remove_tree path (w_disk w)) !! p = Some i → d_files (w_disk w) !! p = Some i) as Hsub.
  { intros p i H. cbn in H. by apply map_lookup_filter_Some in H as [? _]. }
  split_and!; [|intros p Hp; cbn; apply map_lookup_filter_None; right; intros i _ H; cbn in H; congruence|done].
  split; cbn [d_next remove_tree].
  - intros p i H%Hsub. by eapply Hf.
  - done.
  - intros p q i Hp%Hsub Hq%Hsub. by eapply Hinj.
Qed.

Lemma fs_exists_spec path w :
  wp (fs_exists path) (λ b w', w_disk w' = w_disk w ∧
    (b = true → canon (path ++ [slash]) ∈ d_dirs (w_disk w) ∨ is_Some (resolve (w_disk w) path)) ∧
    (FaultFree O → b = bool_decide (canon (path ++ [slash]) ∈ d_dirs (w_disk w)) ||
                       bool_decide (is_Some (resolve (w_disk w) path)))) w.
Proof.
  run_call. split_and!; [done|..].
  - intros [_ [H%bool_decide_eq_true|H%bool_decide_eq_true]%orb_true_iff]%andb_true_iff; auto.
  - intros Hff. by rewrite (Hff (w_clock w)).
Qed.

Lemma fs_create_directories_spec path w :
  wp (fs_create_directories path) (λ '(created, ec) w',
    (w_disk w' = w_disk w ∨ w_disk w' = add_dir path (w_disk w)) ∧ (FaultFree O → ec = false)) w.
Proof.
  run_call. destruct (o_ok _) eqn:E; cbn; [by auto|]. split; [by left|].
  intros Hff. by destruct (not_fault_free _ E).
Qed.

Lemma fs_directory_iterator_spec path w :
  wp (fs_directory_iterator path) (λ l w', w_disk w' = w_disk w ∧
    (l = names_in path (w_disk w) ∨ l = []) ∧
    (FaultFree O → l = names_in path (w_disk w))) w.
Proof.
  run_call. destruct (o_ok _) eqn:E; split_and!; auto.
  intros Hff. by destruct (not_fault_free _ E).
Qed.
End specs.
