(* ===== verification/Wal.v ===== *)
(** * The write-ahead log ([include/clomdb/wal.h], [src/wal.cpp])

    Records are framed as [masked CRC | length | payload] and appended to one
    file.  [ReplayAll] hands every valid record to a callback and stops at the
    first incomplete or corrupt one. *)

From S2P Require Import Prelude Status Coding Crc32c FileSystem.

(** [class WriteAheadLog] *)
Record WriteAheadLog := mkWal { file_ : option FILE; path_ : bytes }.
Definition Wal_new : WriteAheadLog := mkWal None [].

Section wal.
Context {O : Oracle}.

Definition Wal_Open (wal : WriteAheadLog) (path : bytes) : ST World (Status * WriteAheadLog) :=
  r ← fopen_ab path;
  match r with
  | inr e => mret (IOError (path ++ str ": " ++ strerror e), mkWal None path)
  | inl f => mret (OK, mkWal (Some f) path)
  end.

Definition Wal_Sync (wal : WriteAheadLog) : ST World (Status * WriteAheadLog) :=
  match file_ wal with
  | None => mret (IOError (str "WAL not open"), wal)
  | Some f =>
      '(b, f) ← fflush f;
      let wal := mkWal (Some f) (path_ wal) in
      if negb b then
        mret (IOError (path_ wal ++ str ": fflush failed: " ++ strerror EIO), wal)
      else
        b ← fsync f;
        if negb b then
          mret (IOError (path_ wal ++ str ": fsync failed: " ++ strerror EIO), wal)
        else mret (OK, wal)
  end.

(** The bytes [AddRecord] writes: [framed] is length and payload. *)
Definition framed (data : bytes) : bytes := PutFixed32 [] (wrap32 (zlen data)) ++ data.
Definition record (data : bytes) : bytes :=
  PutFixed32 [] (Mask (Value (framed data))) ++ framed data.

Definition Wal_AddRecord (wal : WriteAheadLog) (data : bytes) (sync : bool) :
    ST World (Status * WriteAheadLog) :=
  match file_ wal with
  | None => mret (IOError (str "WAL not open"), wal)
  | Some f =>
      let rec := record data in
      '(written, f) ← fwrite rec f;
      let wal := mkWal (Some f) (path_ wal) in
      if negb (written =? zlen rec) then
        mret (IOError (path_ wal ++ str ": short write to WAL"), wal)
      else if sync then Wal_Sync wal
      else
        '(b, f) ← fflush f;
        let wal := mkWal (Some f) (path_ wal) in
        if negb b then
          mret (IOError (path_ wal ++ str ": fflush failed: " ++ strerror EIO), wal)
        else mret (OK, wal)
  end.

Definition Wal_Close (wal : WriteAheadLog) : ST World (Status * WriteAheadLog) :=
  match file_ wal with
  | None => mret (OK, wal)
  | Some _ =>
      '(s, wal) ← Wal_Sync wal;
      match file_ wal with
      | None => mret (s, wal)
      | Some f =>
          b ← fclose f;
          let s := if negb b && ok s
                   then IOError (path_ wal ++ str ": fclose failed: " ++ strerror EIO) else s in
          mret (s, mkWal None (path_ wal))
      end
  end.

(** [~WriteAheadLog] *)
Definition Wal_Destroy (wal : WriteAheadLog) : ST World () :=
  match file_ wal with Some f => fclose f;; mret () | None => mret () end.

(** The reading loop; [t] is what the callback updates.  Each full iteration
    reads at least the 8 header bytes. *)
Fixpoint replay_loop {T} (fuel : nat) (callback : bytes → T → T) (f : FILE) (t : T) :
    ST World (FILE * T) :=
  match fuel with
  | 0%nat => mret (f, t)
  | S fuel' =>
      '(header, f) ← fread 8 f;
      if zlen header <? 8 then mret (f, t) else
      let stored_crc := Unmask (DecodeFixed32 header) in
      let length := DecodeFixed32 (drop 4 header) in
      '(buf, f) ← (if 0 <? length then fread length f else mret ([], f));
      if zlen buf <? length then mret (f, t) else
      let framed := PutFixed32 [] length ++ buf in
      let computed_crc := Value framed in
      if negb (computed_crc =? stored_crc) then mret (f, t)
      else replay_loop fuel' callback f (callback buf t)
  end.

Definition ReplayAll {T} (path : bytes) (callback : bytes → T → T) (t : T) :
    ST World (Status * T) :=
  r ← fopen_rb path;
  match r with
  | inr ENOENT => mret (OK, t)
  | inr e => mret (IOError (path ++ str ": " ++ strerror e), t)
  | inl f =>
      d ← get_disk;
      '(f, t) ← replay_loop (S (length (icontent d (f_ino f)))) callback f t;
      fclose f;; mret (OK, t)
  end.
End wal.

(** ** Specification: the records of a log file

    What a reader of the framing recognises in a byte string. *)
Fixpoint log_records (fuel : nat) (c : bytes) : list bytes :=
  match fuel with
  | O => []
  | S fuel' =>
      let header := ztake 8 c in
      if zlen header <? 8 then [] else
      let length := DecodeFixed32 (drop 4 header) in
      let buf := ztake length (zdrop 8 c) in
      if zlen buf <? length then [] else
      if negb (Value (PutFixed32 [] length ++ buf) =? Unmask (DecodeFixed32 header)) then []
      else buf :: log_records fuel' (zdrop length (zdrop 8 c))
  end.
Definition records (c : bytes) : list bytes := log_records (S (length c)) c.

(** The file written by adding the records [rs] to an empty log. *)
Definition log_of (rs : list bytes) : bytes := concat (record <$> rs).

#[global] Arguments framed : simpl never.
#[global] Arguments record : simpl never.
#[global] Arguments records : simpl never.

(** ** Lemmas: framing *)

Lemma framed_length data : zlen (framed data) = 4 + zlen data.
Proof. unfold framed, PutFixed32. rewrite !length_app, le_bytes_length. cbn. lia. Qed.
Lemma record_length data : zlen (record data) = 8 + zlen data.
Proof.
  unfold record. rewrite length_app, Nat2Z.inj_add, framed_length.
  unfold PutFixed32. rewrite app_nil_l, le_bytes_length. lia.
Qed.

Lemma record_unfold data : record data =
  le_bytes 4 (Mask (Value (framed data))) ++ le_bytes 4 (wrap32 (zlen data)) ++ data.
Proof. unfold record, framed, PutFixed32. by rewrite !app_nil_l. Qed.

Definition header_of (data : bytes) : bytes :=
  le_bytes 4 (Mask (Value (framed data))) ++ le_bytes 4 (wrap32 (zlen data)).

Lemma record_header data : record data = header_of data ++ data.
Proof. rewrite record_unfold. unfold header_of. by rewrite <- app_assoc. Qed.
Lemma header_of_length data : zlen (header_of data) = 8.
Proof. unfold header_of. by rewrite length_app, !le_bytes_length. Qed.

Lemma header_decode data rest : zlen data < 2 ^ 32 →
  DecodeFixed32 (header_of data ++ rest) = Mask (Value (framed data)) ∧
  DecodeFixed32 (drop 4 (header_of data ++ rest)) = zlen data.
Proof.
  intros Hd. unfold header_of. rewrite <- app_assoc.
  rewrite DecodeFixed32_le by apply Mask_u32. split; [done|].
  rewrite drop_app_length' by (by rewrite le_bytes_length).
  rewrite wrap32_id by (unfold is_u32; lia). rewrite DecodeFixed32_le; [done|]. unfold is_u32. lia.
Qed.

Lemma log_records_fuel f1 f2 c : (length c < f1)%nat → (length c < f2)%nat →
  log_records f1 c = log_records f2 c.
Proof.
  revert f2 c. induction f1 as [|f1 IH]; intros [|f2] c H1 H2; try lia.
  cbn [log_records]. destruct (Z.ltb_spec (zlen (ztake 8 c)) 8) as [|Hh]; [done|].
  rewrite ztake_length in Hh by lia.
  repeat (case_match; [done|]). f_equal.
  assert (zlen (zdrop 8 c) + 8 = zlen c).
  { pose proof (f_equal length (ztake_zdrop 8 c)) as E. rewrite length_app in E.
    pose proof (ztake_length 8 c ltac:(lia)). lia. }
  assert (∀ n (l : bytes), (length (zdrop n l) ≤ length l)%nat) as Hle.
  { intros n l. pose proof (f_equal length (ztake_zdrop n l)) as E. rewrite length_app in E. lia. }
  pose proof (Hle (DecodeFixed32 (drop 4 (ztake 8 c))) (zdrop 8 c)). apply IH; lia.
Qed.

Lemma zdrop_le {A} n (l : list A) : (length (zdrop n l) ≤ length l)%nat.
Proof. pose proof (f_equal length (ztake_zdrop n l)) as E. rewrite length_app in E. lia. Qed.

(** One step of the reader, without fuel. *)
Lemma records_unfold c : records c =
  let header := ztake 8 c in
  if zlen header <? 8 then [] else
  let length := DecodeFixed32 (drop 4 header) in
  let buf := ztake length (zdrop 8 c) in
  if zlen buf <? length then [] else
  if negb (Value (PutFixed32 [] length ++ buf) =? Unmask (DecodeFixed32 header)) then []
  else buf :: records (zdrop length (zdrop 8 c)).
Proof.
  unfold records at 1. cbn [log_records]. cbv zeta.
  destruct (Z.ltb_spec (zlen (ztake 8 c)) 8) as [|Hh]; [done|].
  rewrite ztake_length in Hh by lia.
  repeat (case_match; [done|]). f_equal. apply log_records_fuel; [|lia].
  pose proof (zdrop_le (DecodeFixed32 (drop 4 (ztake 8 c))) (zdrop 8 c)).
  pose proof (f_equal length (ztake_zdrop 8 c)) as E. rewrite length_app in E.
  pose proof (ztake_length 8 c ltac:(lia)). lia.
Qed.

Lemma records_cons data rest : zlen data < 2 ^ 32 →
  records (record data ++ rest) = data :: records rest.
Proof.
  intros Hd. rewrite records_unfold. cbv zeta. rewrite record_header, <- app_assoc.
  rewrite (take_zlen_app 8) by (by rewrite header_of_length).
  rewrite (drop_zlen_app 8) by (by rewrite header_of_length).
  rewrite header_of_length. cbn [Z.ltb Z.compare Pos.compare Pos.compare_cont].
  destruct (header_decode data [] Hd) as [E1 E2]. rewrite app_nil_r in E1, E2.
  rewrite E1, E2, ztake_app, zdrop_app, Z.ltb_irrefl.
  rewrite Unmask_Mask_aux by apply Value_u32.
  unfold framed at 1. rewrite wrap32_id by (unfold is_u32; lia). by rewrite Z.eqb_refl.
Qed.

Lemma records_log_of rs rest : Forall (λ r, zlen r < 2 ^ 32) rs →
  records (log_of rs ++ rest) = rs ++ records rest.
Proof.
  induction 1 as [|r rs Hr _ IH]; [done|]. unfold log_of in *. cbn.
  rewrite <- app_assoc, records_cons by done. by rewrite IH.
Qed.

(** A strict prefix of a record is not a record. *)
Lemma records_torn data k : zlen data < 2 ^ 32 → (k < length (record data))%nat →
  records (take k (record data)) = [].
Proof.
  intros Hd Hk. rewrite records_unfold. cbv zeta.
  set (c := take k (record data)). assert (length c = k) as Hc by (subst c; rewrite length_take; lia).
  destruct (Z.ltb_spec (zlen (ztake 8 c)) 8) as [|Hh]; [done|].
  rewrite ztake_length in Hh by lia.
  assert (∃ k', c = header_of data ++ take k' data ∧ (k' < length data)%nat) as (k' & Ec & Hk').
  { exists (k - 8)%nat. subst c. pose proof (header_of_length data). pose proof (record_length data).
    rewrite record_header, take_app, take_ge by lia. split; [do 2 f_equal; lia|lia]. }
  rewrite Ec, (take_zlen_app 8), (drop_zlen_app 8) by (by rewrite header_of_length).
  destruct (header_decode data [] Hd) as [_ E2]. rewrite app_nil_r in E2. rewrite E2.
  rewrite ztake_all by (rewrite length_take; lia). rewrite length_take.
  destruct (Z.ltb_spec (Z.of_nat (k' `min` length data)) (zlen data)); [done|lia].
Qed.

Lemma log_of_snoc rs r : log_of (rs ++ [r]) = log_of rs ++ record r.
Proof. unfold log_of. rewrite fmap_app, concat_app. cbn. by rewrite app_nil_r. Qed.

Lemma records_nil : records [] = [].
Proof. done. Qed.

(** ** Specifications of the operations, for every oracle *)

(** The log is open on the file [p]; [c] is everything given to it so far,
    stored or still buffered. *)
Definition wal_at (p : bytes) (wal : WriteAheadLog) (d : Disk) (c : bytes) : Prop :=
  ∃ f, file_ wal = Some f ∧ d_files d !! p = Some (f_ino f) ∧ stored d f c.

(** The same with nothing buffered: [c] is the content of the file. *)
Definition wal_flushed (p : bytes) (wal : WriteAheadLog) (d : Disk) (c : bytes) : Prop :=
  ∃ f, file_ wal = Some f ∧ d_files d !! p = Some (f_ino f) ∧ f_buf f = [] ∧
    icontent d (f_ino f) = c.

Definition file_content (d : Disk) (p : bytes) : bytes :=
  default [] (icontent d <$> d_files d !! p).

Lemma wal_flushed_at p wal d c : wal_flushed p wal d c → wal_at p wal d c.
Proof.
  intros (f & ? & ? & Hb & Hc). exists f. split_and!; [done..|].
  unfold stored. by rewrite Hb, Hc, app_nil_r.
Qed.

Lemma wal_flushed_content p wal d c : wal_flushed p wal d c → file_content d p = c.
Proof. intros (f & _ & Hp & _ & Hc). unfold file_content. by rewrite Hp. Qed.

Lemma file_content_ino d p i : d_files d !! p = Some i → file_content d p = icontent d i.
Proof. intros H. unfold file_content. by rewrite H. Qed.

(** The file only grows, within what was given to the log. *)
Definition grows (p : bytes) (d d' : Disk) : Prop :=
  writes p d d' ∧ ∃ x, file_content d' p = file_content d p ++ x.

Lemma grows_trans p d1 d2 d3 : grows p d1 d2 → grows p d2 d3 → grows p d1 d3.
Proof.
  intros [W1 [x E1]] [W2 [y E2]]. split; [by eapply writes_then|].
  exists (x ++ y). by rewrite E2, E1, app_assoc.
Qed.
Lemma grows_refl p d : disk_wf d → grows p d d.
Proof. split; [by split_and!|]. exists []. by rewrite app_nil_r. Qed.
Lemma grows_eq p d d' : disk_wf d → d' = d → grows p d d'.
Proof. intros ? ->. by apply grows_refl. Qed.

Section wal_specs.
Context {O : Oracle}.

Lemma Wal_Sync_spec p wal c w : disk_wf (w_disk w) → wal_at p wal (w_disk w) c →
  wp (Wal_Sync wal) (λ '(s, wal') w', grows p (w_disk w) (w_disk w') ∧
    wal_at p wal' (w_disk w') c ∧
    (ok s = true → wal_flushed p wal' (w_disk w') c) ∧ (FaultFree O → s = OK)) w.
Proof.
  intros Hwf (f & Hf & Hp & Hs). unfold Wal_Sync. rewrite Hf.
  apply wp_bind. eapply wp_mono; [by eapply fflush_spec|].
  intros [b f'] w1 (Hw & Hi & Hs' & [x Hx] & Hb & Hff). rewrite <- Hi in *.
  assert (d_files (w_disk w1) !! p = Some (f_ino f')) as Hp' by (by rewrite (proj2 (proj2 Hw))).
  assert (grows p (w_disk w) (w_disk w1)) as Hg.
  { split; [done|]. exists x. by rewrite !(file_content_ino _ _ _ Hp), !(file_content_ino _ _ _ Hp'). }
  destruct b; cbn [negb].
  - apply wp_bind. eapply wp_mono; [apply fsync_spec|]. intros b2 w2 [Ed Hff2]. rewrite <- Ed in *.
    destruct (Hb eq_refl) as [Hbuf Hc]. destruct b2; cbn [negb]; apply wp_ret; split_and!; try done.
    + by exists f'.
    + by exists f'.
    + by exists f'.
    + intros ?. by discriminate Hff2.
  - apply wp_ret. split_and!; try done; [by exists f'|]. intros ?. by discriminate Hff.
Qed.

Lemma Wal_AddRecord_spec p wal data sync c w :
  disk_wf (w_disk w) → wal_at p wal (w_disk w) c →
  wp (Wal_AddRecord wal data sync) (λ '(s, wal') w', grows p (w_disk w) (w_disk w') ∧
    (∃ k, wal_at p wal' (w_disk w') (c ++ take k (record data))) ∧
    (ok s = true → wal_flushed p wal' (w_disk w') (c ++ record data)) ∧
    (FaultFree O → s = OK)) w.
Proof.
  intros Hwf (f & Hf & Hp & Hs). unfold Wal_AddRecord. rewrite Hf. cbv zeta.
  apply wp_bind. eapply wp_mono; [by eapply fwrite_spec|].
  intros [n f1] w1 (Hw & Hi & (k & Hk & -> & Hs') & [x Hx] & Hff). rewrite <- Hi in *.
  assert (d_files (w_disk w1) !! p = Some (f_ino f1)) as Hp' by (by rewrite (proj2 (proj2 Hw))).
  assert (grows p (w_disk w) (w_disk w1)) as Hg.
  { split; [done|]. exists x. by rewrite !(file_content_ino _ _ _ Hp), !(file_content_ino _ _ _ Hp'). }
  assert (wal_at p (mkWal (Some f1) (path_ wal)) (w_disk w1) (c ++ take k (record data))) as Hat
    by (by exists f1).
  destruct (Z.eqb_spec (Z.of_nat k) (zlen (record data))) as [E|E]; cbn [negb].
  - apply Nat2Z.inj in E. subst k. rewrite firstn_all in *.
    destruct sync.
    + eapply wp_mono; [eapply Wal_Sync_spec; [apply Hw|exact Hat]|].
      intros [s wal'] w2 (Hg2 & Hat2 & Hfl & Hff2). split_and!; [by eapply grows_trans| |done|done].
      exists (length (record data)). by rewrite firstn_all.
    + apply wp_bind. eapply wp_mono; [eapply fflush_spec; [apply Hw|done|done]|].
      intros [b f2] w2 (Hw2 & Hi2 & Hs2 & [y Hy] & Hb & Hff2). rewrite <- Hi2 in *.
      assert (d_files (w_disk w2) !! p = Some (f_ino f2)) as Hp2 by (by rewrite (proj2 (proj2 Hw2))).
      assert (grows p (w_disk w) (w_disk w2)) as Hg2.
      { eapply grows_trans; [done|]. split; [done|]. exists y.
        by rewrite (file_content_ino _ _ _ Hp'), (file_content_ino _ _ _ Hp2). }
      assert (∃ k, wal_at p (mkWal (Some f2) (path_ wal)) (w_disk w2) (c ++ take k (record data))).
      { exists (length (record data)), f2. by rewrite firstn_all. }
      destruct b; cbn [negb]; apply wp_ret; split_and!; try done.
      * intros _. destruct (Hb eq_refl). by exists f2.
      * intros ?. by discriminate Hff2.
  - apply wp_ret. split_and!; [done|by exists k|done|]. intros Hff'. by rewrite Hff in E.
Qed.

Lemma Wal_Close_spec p wal c w : disk_wf (w_disk w) → wal_at p wal (w_disk w) c →
  wp (Wal_Close wal) (λ '(s, wal') w', grows p (w_disk w) (w_disk w') ∧ file_ wal' = None ∧
    (∃ rest, file_content (w_disk w') p ++ rest = c) ∧
    (ok s = true → file_content (w_disk w') p = c) ∧ (FaultFree O → s = OK)) w.
Proof.
  intros Hwf Hat. pose proof Hat as (f & Hf & _ & _). unfold Wal_Close. rewrite Hf.
  apply wp_bind. eapply wp_mono; [by eapply Wal_Sync_spec|].
  intros [s wal1] w1 (Hg & (f1 & Hf1 & Hp1 & Hs1) & Hfl & Hff). rewrite Hf1.
  apply wp_bind. eapply wp_mono; [eapply fclose_spec; [apply Hg|done|done]|].
  intros b w2 (Hw2 & [y Hy] & Hrest & Hb & Hbuf & Hff2).
  assert (d_files (w_disk w2) !! p = Some (f_ino f1)) as Hp2 by (by rewrite (proj2 (proj2 Hw2))).
  apply wp_ret. cbn beta iota. rewrite !(file_content_ino _ _ _ Hp2).
  split_and!; [|done|done| |].
  - eapply grows_trans; [done|]. split; [done|]. exists y.
    by rewrite (file_content_ino _ _ _ Hp1), (file_content_ino _ _ _ Hp2).
  - intros Hok. apply Hbuf. destruct (ok s) eqn:Es; [|by destruct b; cbn in Hok; congruence].
    destruct (Hfl eq_refl) as (f2 & E & _ & ? & _). by rewrite Hf1 in E; injection E as <-.
  - intros Hff'. by rewrite (Hff Hff'), (Hff2 Hff').
Qed.

(** After [Close], whatever failed in it, the destructor has nothing to do. *)
Lemma Wal_Close_destroy wal w : wp (Wal_Close wal) (λ '(_, wal') w', Wal_Destroy wal' w' = ((), w')) w.
Proof.
  unfold Wal_Close. destruct (file_ wal) as [f|] eqn:Hf.
  2: { apply wp_ret. unfold Wal_Destroy. by rewrite Hf. }
  apply wp_bind. unfold wp. destruct (Wal_Sync wal w) as [[s wal1] w1]. cbn [fst snd].
  destruct (file_ wal1) as [f1|] eqn:Hf1; [|unfold Wal_Destroy; cbn; by rewrite Hf1].
  unfold mbind, ST_bind. by destruct (fclose f1 w1).
Qed.

Lemma Wal_Open_spec wal path w : disk_wf (w_disk w) →
  wp (Wal_Open wal path) (λ '(s, wal') w', disk_wf (w_disk w') ∧
    only_paths {[canon path]} (w_disk w) (w_disk w') ∧
    file_content (w_disk w') (canon path) = file_content (w_disk w) (canon path) ∧
    path_ wal' = path ∧
    (if ok s then wal_flushed (canon path) wal' (w_disk w') (file_content (w_disk w) (canon path))
     else file_ wal' = None ∧ w_disk w' = w_disk w) ∧
    (FaultFree O → s = OK)) w.
Proof.
  intros Hwf. unfold Wal_Open. apply wp_bind. eapply wp_mono; [by apply fopen_ab_spec|].
  intros [f|e] w1.
  - intros (Hwf1 & Hop & Hr & Hs & Hb). apply wp_ret.
    assert (icontent (w_disk w1) (f_ino f) = file_content (w_disk w) (canon path)) as Hc.
    { unfold stored in Hs. rewrite Hb, app_nil_r in Hs. rewrite Hs. done. }
    split_and!; [done|done| |done| |done].
    + by rewrite (file_content_ino _ _ _ Hr).
    + by exists f.
  - intros [Ed Hff]. apply wp_ret. rewrite Ed. split_and!; [done|done|done|done|done|].
    intros Hff'. by destruct Hff.
Qed.
End wal_specs.

Section replay_specs.
Context {O : Oracle} {T : Type} (callback : bytes → T → T).

Definition apply_records (rs : list bytes) (t : T) : T := fold_left (λ t r, callback r t) rs t.

(** A full read is everything asked for. *)
Lemma full_read n (data avail : bytes) : 0 ≤ n → data `prefix_of` avail →
  zlen avail = Z.min n (zlen avail) → n ≤ zlen data → zlen data = zlen avail.
Proof. intros Hn [k ->]. rewrite length_app. lia. Qed.

(** The payload after a header, given the bytes that are there. *)
Lemma read_payload_spec len f w :
  let avail := ztake len (zdrop (f_pos f) (icontent (w_disk w) (f_ino f))) in 0 ≤ len →
  wp (if 0 <? len then fread len f else mret ([], f)) (λ '(buf, f') w', w_disk w' = w_disk w ∧
    f_ino f' = f_ino f ∧ f_buf f' = f_buf f ∧ f_pos f' = f_pos f + zlen buf ∧
    (len ≤ zlen buf → buf = avail) ∧ (FaultFree O → buf = avail)) w.
Proof.
  intros avail Hlen. destruct (Z.ltb_spec 0 len).
  - eapply wp_mono; [apply fread_spec|]. fold avail.
    intros [buf f2] w2 (Ed2 & Ei2 & Eb2 & Ep2 & Hpre2 & Hfull2 & Hff2).
    split_and!; [done..| |done]. intros Hb. apply Hfull2. eapply (full_read len); [lia|done| |done].
    subst avail. rewrite ztake_length; lia.
  - apply wp_ret. assert (avail = []) as -> by (subst avail; apply ztake_nonpos; lia).
    split_and!; try done. cbn. lia.
Qed.

Lemma replay_loop_spec fuel f t w : 0 ≤ f_pos f →
  let c := icontent (w_disk w) (f_ino f) in
  wp (replay_loop fuel callback f t) (λ '(f', t') w', w_disk w' = w_disk w ∧
    f_buf f' = f_buf f ∧
    ∃ rs, t' = apply_records rs t ∧ rs `prefix_of` log_records fuel (zdrop (f_pos f) c) ∧
      (FaultFree O → rs = log_records fuel (zdrop (f_pos f) c))) w.
Proof.
  revert f t w. induction fuel as [|fuel IH]; intros f t w Hpos c.
  { apply wp_ret. split_and!; [done|done|]. by exists []. }
  assert (∀ (f' : FILE) w', w_disk w' = w_disk w → f_buf f' = f_buf f →
    (FaultFree O → log_records (S fuel) (zdrop (f_pos f) c) = []) →
    wp (mret (f', t)) (λ '(f', t') w', w_disk w' = w_disk w ∧ f_buf f' = f_buf f ∧
      ∃ rs, t' = apply_records rs t ∧ rs `prefix_of` log_records (S fuel) (zdrop (f_pos f) c) ∧
        (FaultFree O → rs = log_records (S fuel) (zdrop (f_pos f) c))) w') as Hstop.
  { intros f' w' Ed Ei Hff. apply wp_ret. split_and!; [done|done|]. exists [].
    split_and!; [done|apply prefix_nil|]. intros Hff'. by rewrite Hff. }
  cbn [replay_loop]. apply wp_bind. eapply wp_mono; [apply fread_spec|].
  intros [hdr f1] w1 (Ed1 & Ei1 & Eb1 & Ep1 & Hpre1 & Hfull1 & Hff1). fold c in Hpre1, Hfull1, Hff1.
  destruct (Z.ltb_spec (zlen hdr) 8) as [Hh|Hh].
  { apply Hstop; [done|done|]. intros Hff. cbn [log_records]. rewrite <- (Hff1 Hff).
    by destruct (Z.ltb_spec (zlen hdr) 8); [|lia]. }
  assert (hdr = ztake 8 (zdrop (f_pos f) c)) as Eh.
  { apply Hfull1. eapply (full_read 8); [lia|done| |done]. rewrite ztake_length; lia. }
  assert (zlen hdr = 8) as Hl8.
  { pose proof (ztake_length 8 (zdrop (f_pos f) c) ltac:(lia)). rewrite <- Eh in *. lia. }
  cbv zeta. set (len := DecodeFixed32 (drop 4 hdr)).
  pose proof (DecodeFixed32_u32 (drop 4 hdr)) as Hlen. fold len in Hlen. unfold is_u32 in Hlen.
  set (avail := ztake len (zdrop 8 (zdrop (f_pos f) c))).
  apply wp_bind. eapply wp_mono; [apply read_payload_spec; lia|]. rewrite Ei1, Ed1, Ep1, Hl8. fold c.
  rewrite <- (zdrop_zdrop (f_pos f) 8) by lia. fold avail.
  intros [buf f2] w2 (Ed2 & Ei2 & Eb2 & Ep2 & Hfull2 & Hff2). cbn [log_records] in *.
  rewrite Eb1 in Eb2.
  rewrite <- Eh in *. fold len in Hstop. fold avail in Hstop.
  replace (zlen hdr <? 8) with false in * by (symmetry; apply Z.ltb_ge; lia).
  destruct (Z.ltb_spec (zlen buf) len) as [Hb|Hb].
  { apply Hstop; [done|done|]. intros Hff. rewrite <- (Hff2 Hff).
    by destruct (Z.ltb_spec (zlen buf) len); [|lia]. }
  pose proof (Hfull2 Hb) as ->. clear Hpre1 Hfull1 Hff1 Hfull2 Hff2.
  fold len. fold avail. replace (zlen avail <? len) with false in * by (symmetry; by apply Z.ltb_ge).
  destruct (negb _); [by apply Hstop|].
  assert (zlen avail = len) as Hla.
  { subst avail. rewrite ztake_length in * by lia. lia. }
  eapply wp_mono; [apply IH; lia|]. rewrite Ed2, Ei2, Ep2, Hla. fold c.
  replace (zdrop (f_pos f + 8 + len) c) with (zdrop len (zdrop 8 (zdrop (f_pos f) c)))
    by (rewrite !zdrop_zdrop by lia; f_equal; lia).
  intros [f3 t3] w3 (Ed3 & Eb3 & rs & -> & Hpre & Hff). split_and!; [congruence|congruence|].
  exists (avail :: rs). split_and!; [done|by apply prefix_cons|]. intros Hff'. by rewrite (Hff Hff').
Qed.

Lemma ReplayAll_spec path t w : disk_wf (w_disk w) →
  wp (ReplayAll path callback t) (λ '(s, t') w', disk_wf (w_disk w') ∧
    w_disk w' = w_disk w ∧
    ∃ rs, t' = apply_records rs t ∧ rs `prefix_of` records (file_content (w_disk w) (canon path)) ∧
      (FaultFree O → s = OK ∧ rs = records (file_content (w_disk w) (canon path)))) w.
Proof.
  intros Hwf. unfold ReplayAll. apply wp_bind. eapply wp_mono; [apply fopen_rb_spec|].
  intros [f|[]] w1 [Ed H].
  - destruct H as (Hr & Hp & Hbuf). apply wp_bind, wp_gets. apply wp_bind.
    eapply wp_mono; [apply replay_loop_spec; lia|].
    intros [f2 t2] w2 (Ed2 & Eb2 & rs & -> & Hpre & Hff).
    apply wp_bind. eapply wp_mono; [apply fclose_read_spec; congruence|].
    intros b w3 Ed3. apply wp_ret. rewrite Hp, zdrop_nonpos in * by lia.
    rewrite (file_content_ino _ _ _ Hr). rewrite Ed3, Ed2, Ed in *.
    split_and!; [done|done|]. exists rs. split_and!; [done|done|]. intros Hff'. by rewrite (Hff Hff').
  - apply wp_ret. rewrite Ed. split_and!; [done|done|]. exists [].
    unfold file_content. unfold resolve in H. by rewrite H.
  - apply wp_ret. rewrite Ed. split_and!; [done|done|]. exists [].
    split_and!; [done|apply prefix_nil|done].
Qed.
End replay_specs.
