(* ===== verification/SSTable.v ===== *)
(** * SSTables ([include/clomdb/sstable.h], [sstable_format.h], [src/sstable.cpp])

    Writer and reader of one immutable sorted table file.  The specification
    of the format and the proofs are in [SSTableSpec]. *)

From S2P Require Import Prelude Slice Status Coding Bloom FileSystem.

Definition kSSTableMagic : Z := 0x436c6f6d44420001.
Definition kSSTableFooterSize : Z := 40.

(** [enum class EntryType : uint8_t]; a byte read from a file is cast to it
    unchecked, so it is any byte. *)
Definition EntryType_kPut : byte := x01.
Definition EntryType_kDelete : byte := x02.

(** [struct SSTableEntry] *)
Record SSTableEntry := mkEntry { e_key : bytes; e_type : byte; e_value : bytes }.

#[global] Instance SSTableEntry_eq_dec : EqDecision SSTableEntry.
Proof. solve_decision. Defined.

Definition EncodeEntry (dst : bytes) (e : SSTableEntry) : bytes :=
  let dst := dst ++ [e_type e] in
  let dst := PutVarint32 dst (wrap32 (zlen (e_key e))) in
  let dst := dst ++ e_key e in
  if decide (e_type e = EntryType_kPut) then
    let dst := PutVarint32 dst (wrap32 (zlen (e_value e))) in
    dst ++ e_value e
  else dst.

(** The loop over the entries: data section, offsets, keys for the filter. *)
Record write_acc := mkAcc {
  w_data : bytes; w_offsets : list (bytes * Z); w_offset : Z; w_keys : list bytes }.
Definition write_entry (a : write_acc) (e : SSTableEntry) : write_acc :=
  let enc := EncodeEntry [] e in
  mkAcc (w_data a ++ enc) (w_offsets a ++ [(e_key e, w_offset a)])
    (wrap64 (w_offset a + zlen enc)) (w_keys a ++ [e_key e]).

(** The loop building the index section. *)
Definition index_add (index : bytes) (ko : bytes * Z) : bytes :=
  PutFixed64 (PutVarint32 index (wrap32 (zlen ko.1)) ++ ko.1) ko.2.

Definition footer_bytes (index_offset index_size filter_offset filter_size : Z) : bytes :=
  PutFixed64 (PutFixed64 (PutFixed64 (PutFixed64 (PutFixed64 [] index_offset) index_size)
    filter_offset) filter_size) kSSTableMagic.

Section sstable.
Context {O : Oracle}.

(** One [if (fwrite(...) != size) { fclose(f); return IOError }]. *)
Definition write_section (path what : bytes) (data : bytes) (f : FILE)
    (k : FILE → ST World Status) : ST World Status :=
  '(n, f) ← fwrite data f;
  if negb (n =? zlen data) then fclose f;; mret (IOError (path ++ str ": short write (" ++ what ++ str ")"))
  else k f.

(** [SSTableWriter::Write] *)
Definition SSTableWriter_Write (path : bytes) (entries : list SSTableEntry)
    (bloom_bits_per_key : Z) : ST World Status :=
  match entries with
  | [] => mret (InvalidArgument (str "refusing to write an empty SSTable"))
  | _ =>
      r ← fopen_wb path;
      match r with
      | inr e => mret (IOError (path ++ str ": " ++ strerror e))
      | inl f =>
          let acc := fold_left write_entry entries (mkAcc [] [] 0 []) in
          write_section path (str "data") (w_data acc) f (λ f,
          let index := fold_left index_add (w_offsets acc) [] in
          let index_offset := w_offset acc in
          write_section path (str "index") index f (λ f,
          let filter := Build (w_keys acc) bloom_bits_per_key in
          let filter_offset := wrap64 (index_offset + zlen index) in
          write_section path (str "filter") filter f (λ f,
          let footer := footer_bytes index_offset (zlen index) filter_offset (zlen filter) in
          write_section path (str "footer") footer f (λ f,
          '(b, f) ← fflush f;
          if negb b then fclose f;; mret (IOError (path ++ str ": fflush failed"))
          else fclose f;; mret OK))))
      end
  end.

(** [class SSTableReader] *)
Record SSTableReader := mkReader {
  r_path : bytes;
  index_ : list (bytes * Z);
  filter_ : bytes;
  min_key_ : bytes;
  max_key_ : bytes;
  file_size_ : Z;
  file_handle_ : option FILE;
}.
Definition SSTableReader_new : SSTableReader := mkReader [] [] [] [] [] 0 None.
Definition entry_count (r : SSTableReader) : Z := zlen (index_ r).

(** The index-parsing loop; [false] is the malformed case.  Every entry takes
    at least nine bytes, so the length of the buffer is enough fuel. *)
Fixpoint parse_index (fuel : nat) (input : bytes) (index : list (bytes * Z)) :
    bool * list (bytes * Z) :=
  match fuel with
  | 0%nat => (true, index)
  | S fuel' =>
      match input with
      | [] => (true, index)
      | _ =>
          match GetVarint32Ptr input with
          | None => (false, index)
          | Some (klen, p) =>
              if zlen input <? (zlen input - zlen p) + klen + 8 then (false, index)
              else
                let key := ztake klen p in
                let off := DecodeFixed64 (zdrop klen p) in
                parse_index fuel' (zdrop (klen + 8) p) (index ++ [(key, off)])
          end
      end
  end.

(** [if (size > 0) { fseek(offset) != 0 || fread(size) != size ... }] *)
Definition read_block (offset size : Z) (f : FILE) : ST World (option bytes * FILE) :=
  if 0 <? size then
    '(b, f) ← fseek_set (to_long offset) f;
    if negb b then mret (None, f) else
    '(data, f) ← fread size f;
    if negb (zlen data =? size) then mret (None, f) else mret (Some data, f)
  else mret (Some [], f).

(** The part of [SSTableReader::Open] that reads the sections the footer
    describes. *)
Definition open_sections (path : bytes) (sz : Z) (footer : bytes) (f : FILE) :
    ST World (Status * SSTableReader) :=
  let r1 := mkReader path [] [] [] [] sz None in
  let index_offset := DecodeFixed64 footer in
  let index_size := DecodeFixed64 (drop 8 footer) in
  let filter_offset := DecodeFixed64 (drop 16 footer) in
  let filter_size := DecodeFixed64 (drop 24 footer) in
  let magic := DecodeFixed64 (drop 32 footer) in
  if negb (magic =? kSSTableMagic) then
    fclose f;; mret (Corruption (path ++ str ": bad magic number, not a ClomDB SSTable"), r1)
  else
  '(ib, f) ← read_block index_offset index_size f;
  match ib with
  | None => fclose f;; mret (Corruption (path ++ str ": failed to read index block"), r1)
  | Some index_buf =>
      let '(good, index) := parse_index (length index_buf) index_buf [] in
      if negb good then
        fclose f;; mret (Corruption (path ++ str ": malformed index entry"),
                         mkReader path index [] [] [] sz None)
      else
      let min_key := match index with [] => [] | (k, _) :: _ => k end in
      let max_key := match last index with None => [] | Some (k, _) => k end in
      '(fb, f) ← read_block filter_offset filter_size f;
      match fb with
      | None =>
          fclose f;; mret (Corruption (path ++ str ": failed to read filter block"),
                           mkReader path index [] min_key max_key sz None)
      | Some filter => mret (OK, mkReader path index filter min_key max_key sz (Some f))
      end
  end.

(** [SSTableReader::Open] on a fresh reader. *)
Definition SSTableReader_Open (path : bytes) : ST World (Status * SSTableReader) :=
  let r0 := mkReader path [] [] [] [] 0 None in
  r ← fopen_rb path;
  match r with
  | inr e => mret (IOError (path ++ str ": " ++ strerror e), r0)
  | inl f =>
      '(b, f) ← fseek_end f;
      if negb b then fclose f;; mret (IOError (path ++ str ": fseek failed"), r0) else
      sz ← ftell f;
      if sz <? kSSTableFooterSize then
        fclose f;; mret (Corruption (path ++ str ": file too small to contain a valid footer"), r0)
      else
      let r1 := mkReader path [] [] [] [] sz None in
      '(b, f) ← fseek_set (sz - kSSTableFooterSize) f;
      if negb b then fclose f;; mret (IOError (path ++ str ": fseek failed"), r1) else
      '(footer, f) ← fread kSSTableFooterSize f;
      if negb (zlen footer =? kSSTableFooterSize) then
        fclose f;; mret (Corruption (path ++ str ": failed to read footer"), r1)
      else open_sections path sz footer f
  end.

(** [std::lower_bound] (halving a range) on the index, by key. *)
Fixpoint lower_bound_loop (fuel : nat) (index : list (bytes * Z)) (key : bytes)
    (first len : nat) : nat :=
  match fuel with
  | 0%nat => first
  | S fuel' =>
      if (len =? 0)%nat then first else
      let half := Nat.div2 len in
      let middle := (first + half)%nat in
      match index !! middle with
      | None => first
      | Some (k, _) =>
          if Slice_ltb k key then lower_bound_loop fuel' index key (S middle) (len - half - 1)
          else lower_bound_loop fuel' index key first half
      end
  end.
Definition lower_bound (index : list (bytes * Z)) (key : bytes) : nat :=
  lower_bound_loop (length index) index key 0 (length index).

(** Reading a varint byte by byte: at most five bytes, up to the first one
    without continuation bit, then [GetVarint32Ptr] on what was read. *)
Inductive varint_read := VShort | VBad | VOk (v : Z).

Fixpoint read_varint_loop (n : nat) (tmp : bytes) (f : FILE) : ST World (option bytes * FILE) :=
  match n with
  | 0%nat => mret (Some tmp, f)
  | S n' =>
      '(b, f) ← fread 1 f;
      match b with
      | [c] =>
          let tmp := tmp ++ [c] in
          if Z.land (byte_val c) 128 =? 0 then mret (Some tmp, f)
          else read_varint_loop n' tmp f
      | _ => mret (None, f)
      end
  end.
Definition read_varint (f : FILE) : ST World (varint_read * FILE) :=
  '(t, f) ← read_varint_loop 5 [] f;
  match t with
  | None => mret (VShort, f)
  | Some tmp =>
      match GetVarint32Ptr tmp with
      | None => mret (VBad, f)
      | Some (v, _) => mret (VOk v, f)
      end
  end.

(** [if (n > 0 && fread(_, 1, n, f) != n)]: what was read, whether it is all. *)
Definition read_counted (n : Z) (f : FILE) : ST World (bool * bytes * FILE) :=
  if 0 <? n then
    '(data, f) ← fread n f; mret (zlen data =? n, data, f)
  else mret (true, [], f).

(** The part of [SSTableReader::Get] that reads the entry at its offset: the
    flag returned and the two out-parameters. *)
Definition get_entry (offset : Z) (f : FILE) (value : bytes) (del : bool) :
    ST World (bool * bytes * bool) :=
  '(b, f) ← fseek_set (to_long offset) f;
  if negb b then mret (false, value, del) else
  '(tb, f) ← fread 1 f;
  match tb with
  | [type_byte] =>
      '(kl, f) ← read_varint f;
      match kl with
      | VOk klen =>
          '(b, _, f) ← read_counted klen f;
          if negb b then mret (false, value, del) else
          if decide (type_byte = EntryType_kDelete) then mret (true, value, true) else
          '(vl, f) ← read_varint f;
          match vl with
          | VOk vlen =>
              '(b, data, f) ← read_counted vlen f;
              let value := data ++ replicate (Z.to_nat (vlen - zlen data)) x00 in
              if negb b then mret (false, value, del) else mret (true, value, false)
          | _ => mret (false, value, del)
          end
      | _ => mret (false, value, del)
      end
  | _ => mret (false, value, del)
  end.

(** [SSTableReader::Get] *)
Definition SSTableReader_Get (r : SSTableReader) (key value : bytes) (del : bool) :
    ST World (bool * bytes * bool) :=
  if negb (bool_decide (filter_ r = [])) && negb (MayContain (filter_ r) key) then
    mret (false, value, del)
  else
  match index_ r !! lower_bound (index_ r) key, file_handle_ r with
  | Some (k, offset), Some f =>
      if negb (Slice_eqb k key) then mret (false, value, del)
      else get_entry offset f value del
  | _, _ => mret (false, value, del)
  end.

(** One iteration of the loop of [ReadAll]. *)
Definition read_entry (path : bytes) (f : FILE) : ST World ((Status + SSTableEntry) * FILE) :=
  '(tb, f) ← fread 1 f;
  match tb with
  | [type_byte] =>
      '(kl, f) ← read_varint f;
      match kl with
      | VShort => mret (inl (Corruption (path ++ str ": truncated key length")), f)
      | VBad => mret (inl (Corruption (path ++ str ": bad varint (key len)")), f)
      | VOk klen =>
          '(b, key, f) ← read_counted klen f;
          if negb b then mret (inl (Corruption (path ++ str ": truncated key")), f) else
          if decide (type_byte = EntryType_kPut) then
            '(vl, f) ← read_varint f;
            match vl with
            | VShort => mret (inl (Corruption (path ++ str ": truncated value length")), f)
            | VBad => mret (inl (Corruption (path ++ str ": bad varint (value len)")), f)
            | VOk vlen =>
                '(b, value, f) ← read_counted vlen f;
                if negb b then mret (inl (Corruption (path ++ str ": truncated value")), f)
                else mret (inr (mkEntry key type_byte value), f)
            end
          else mret (inr (mkEntry key type_byte []), f)
      end
  | _ => mret (inl (Corruption (path ++ str ": truncated data section")), f)
  end.

Fixpoint read_entries (n : nat) (path : bytes) (f : FILE) (out : list SSTableEntry) :
    ST World (Status * list SSTableEntry) :=
  match n with
  | 0%nat => mret (OK, out)
  | S n' =>
      '(r, f) ← read_entry path f;
      match r with
      | inl s => mret (s, out)
      | inr e => read_entries n' path f (out ++ [e])
      end
  end.

(** [~SSTableReader] *)
Definition SSTableReader_Destroy (r : SSTableReader) : ST World () :=
  match file_handle_ r with Some f => fclose f;; mret () | None => mret () end.

(** [SSTableReader::ReadAll] *)
Definition SSTableReader_ReadAll (r : SSTableReader) : ST World (Status * list SSTableEntry) :=
  match file_handle_ r with
  | None => mret (IOError (r_path r ++ str ": fseek failed"), [])
  | Some f =>
      '(b, f) ← fseek_set 0 f;
      if negb b then mret (IOError (r_path r ++ str ": fseek failed"), [])
      else read_entries (length (index_ r)) (r_path r) f []
  end.
End sstable.
