(* ===== verification/Pointers.v ===== *)
(** * The decoders on pointers

    The other files give a decoder the list of the bytes that remain.  Here the
    functions of [coding.h], the loop of [WriteBatch::Iterate] and the index
    loop of [SSTableReader::Open] work as in the source on a buffer and on
    pointers into it: reading outside the buffer, or handing out a slice
    that is read outside it, is [Fault], and sizes are computed in [size_t].
    They are proved to compute what the list functions compute, and never to
    fault, on any bytes. *)

From S2P Require Import Prelude Slice Status Coding OrderedMap MemTable WriteBatch FileSystem SSTable.

(** ** Memory *)

(** The outcome of code that may read outside the buffer. *)
Inductive checked (A : Type) := Fault | Done (a : A).
Arguments Fault {A}. Arguments Done {A} a.
#[global] Instance checked_ret : MRet checked := @Done.
#[global] Instance checked_bind : MBind checked := λ A B k m,
  match m with Fault => Fault | Done a => k a end.

(** [*p]: a pointer is an index of the buffer. *)
Definition load (mem : bytes) (p : Z) : checked byte :=
  if 0 <=? p then match mem !! Z.to_nat p with Some b => Done b | None => Fault end else Fault.
(** [memcpy(_, p, n)], [std::string(p, n)] *)
Definition load_bytes (mem : bytes) (p n : Z) : checked bytes :=
  if (0 <=? p) && (0 <=? n) && (p + n <=? zlen mem) then Done (ztake n (zdrop p mem)) else Fault.

(** [class Slice]: a pointer and a size. *)
Record SliceRep := mkSliceRep { data_ : Z; size_ : Z }.
Definition end_ (s : SliceRep) : Z := data_ s + size_ s.
Definition slice_bytes (mem : bytes) (s : SliceRep) : checked bytes :=
  load_bytes mem (data_ s) (size_ s).

(** ** Operations *)

(** [for (shift = 0; shift <= last && p < limit; shift += 7)] *)
Fixpoint varint_loop_at (wrap : Z → Z) (last : Z) (fuel : nat) (mem : bytes)
    (limit shift result p : Z) : checked (option (Z * Z)) :=
  match fuel with
  | O => Fault
  | S fuel =>
      if (shift <=? last) && (p <? limit) then
        b ← load mem p;
        let byte := byte_val b in
        if negb (Z.land byte 128 =? 0) then
          varint_loop_at wrap last fuel mem limit (shift + 7)
            (Z.lor result (wrap (Z.shiftl (Z.land byte 127) shift))) (p + 1)
        else mret (Some (Z.lor result (wrap (Z.shiftl byte shift)), p + 1))
      else mret None
  end.
Definition GetVarint32Ptr_at (mem : bytes) (p limit : Z) : checked (option (Z * Z)) :=
  varint_loop_at wrap32 28 6 mem limit 0 0 p.
Definition GetVarint64Ptr_at (mem : bytes) (p limit : Z) : checked (option (Z * Z)) :=
  varint_loop_at wrap64 63 11 mem limit 0 0 p.

(** The new [*result] and [*input]; [None] is the [false] return. *)
Definition GetLengthPrefixedSlice_at (mem : bytes) (input : SliceRep) :
    checked (option (SliceRep * SliceRep)) :=
  r ← GetVarint32Ptr_at mem (data_ input) (data_ input + size_ input);
  match r with
  | None => mret None
  | Some (len, p) =>
      if size_ input <? wrap64 (wrap64 (p - data_ input) + len) then mret None
      else mret (Some (mkSliceRep p len,
        mkSliceRep (p + len) (wrap64 (size_ input - (p - data_ input) - len))))
  end.

(** [WriteBatch::Iterate]: the handler reads the slices it is given. *)
Fixpoint Iterate_loop_at {H} `{Handler H} (fuel : nat) (mem : bytes) (input : SliceRep) (seen : Z)
    (h : H) : checked ((Status + Z) * H) :=
  match fuel with
  | O => Fault
  | S fuel =>
      if size_ input =? 0 then mret (inr seen, h) else
      tag ← load mem (data_ input);
      let input := mkSliceRep (data_ input + 1) (wrap64 (size_ input - 1)) in
      if decide (tag = RecordType_byte kPut) then
        r ← GetLengthPrefixedSlice_at mem input;
        match r with
        | None => mret (inl (Corruption (str "malformed WriteBatch (put)")), h)
        | Some (key, input) =>
            r ← GetLengthPrefixedSlice_at mem input;
            match r with
            | None => mret (inl (Corruption (str "malformed WriteBatch (put)")), h)
            | Some (value, input) =>
                k ← slice_bytes mem key; v ← slice_bytes mem value;
                Iterate_loop_at fuel mem input (wrap64 (seen + 1)) (h_Put k v h)
            end
        end
      else if decide (tag = RecordType_byte kDelete) then
        r ← GetLengthPrefixedSlice_at mem input;
        match r with
        | None => mret (inl (Corruption (str "malformed WriteBatch (delete)")), h)
        | Some (key, input) =>
            k ← slice_bytes mem key;
            Iterate_loop_at fuel mem input (wrap64 (seen + 1)) (h_Delete k h)
        end
      else mret (inl (Corruption (str "unknown WriteBatch tag")), h)
  end.

Definition Iterate_at {H} `{Handler H} (b : WriteBatch) (h : H) : checked (Status * H) :=
  r ← Iterate_loop_at (S (length (rep_ b))) (rep_ b) (mkSliceRep 0 (zlen (rep_ b))) 0 h;
  match r with
  | (inl s, h') => mret (s, h')
  | (inr seen, h') =>
      if negb (seen =? count_ b) then mret (Corruption (str "WriteBatch count mismatch"), h')
      else mret (OK, h')
  end.

(** The index loop of [SSTableReader::Open]. *)
Fixpoint parse_index_at (fuel : nat) (mem : bytes) (input : SliceRep) (index : list (bytes * Z)) :
    checked (bool * list (bytes * Z)) :=
  match fuel with
  | O => Fault
  | S fuel =>
      if size_ input =? 0 then mret (true, index) else
      r ← GetVarint32Ptr_at mem (data_ input) (data_ input + size_ input);
      match r with
      | None => mret (false, index)
      | Some (klen, p) =>
          if size_ input <? wrap64 (wrap64 (wrap64 (p - data_ input) + klen) + 8)
          then mret (false, index) else
          key ← load_bytes mem p klen;
          off ← load_bytes mem (p + klen) 8;
          parse_index_at fuel mem
            (mkSliceRep (p + klen + 8) (wrap64 (size_ input - (p + klen + 8 - data_ input))))
            (index ++ [(key, DecodeFixed64 off)])
      end
  end.

(** ** Slices that lie in the buffer *)

(** [s] lies in the buffer and holds [l]. *)
Definition views (mem : bytes) (s : SliceRep) (l : bytes) : Prop :=
  ∃ pre suf, mem = pre ++ l ++ suf ∧ data_ s = zlen pre ∧ size_ s = zlen l.

(** The slice of the last [n] bytes of [s]. *)
Definition suffix_rep (s : SliceRep) (n : Z) : SliceRep := mkSliceRep (end_ s - n) n.

(** ** Lemmas *)

Lemma views_bounds mem s l : views mem s l →
  0 ≤ data_ s ∧ 0 ≤ size_ s ∧ end_ s ≤ zlen mem ∧ size_ s = zlen l.
Proof. intros (pre & suf & -> & E1 & E2). unfold end_. rewrite E1, E2, !length_app. lia. Qed.

Lemma views_whole l : views l (mkSliceRep 0 (zlen l)) l.
Proof. exists [], []. by rewrite app_nil_r. Qed.

Lemma views_bytes mem s l : views mem s l → slice_bytes mem s = Done l.
Proof.
  intros (pre & suf & -> & E1 & E2). unfold slice_bytes, load_bytes. rewrite E1, E2, !length_app.
  rewrite (proj2 (Z.leb_le 0 _)), (proj2 (Z.leb_le 0 _)), (proj2 (Z.leb_le _ _)) by lia.
  cbn [andb]. by rewrite zdrop_app, ztake_app.
Qed.

(** A part of a slice. *)
Lemma views_sub mem s a b c s' : views mem s (a ++ b ++ c) →
  data_ s' = data_ s + zlen a → size_ s' = zlen b → views mem s' b.
Proof.
  intros (pre & suf & -> & E1 & E2) E3 E4. exists (pre ++ a), (c ++ suf).
  rewrite <- !app_assoc, length_app. split_and!; [done|lia|done].
Qed.

Lemma views_load_bytes mem s a b c p n : views mem s (a ++ b ++ c) →
  p = data_ s + zlen a → n = zlen b → load_bytes mem p n = Done b.
Proof.
  intros Hv -> ->. by apply (views_bytes mem (mkSliceRep _ _)), (views_sub mem s a b c _ Hv).
Qed.

Lemma views_suffix mem s a b : views mem s (a ++ b) → views mem (suffix_rep s (zlen b)) b.
Proof.
  intros Hv. pose proof (views_bounds _ _ _ Hv) as (_ & _ & _ & E). rewrite length_app in E.
  rewrite <- (app_nil_r b) in Hv at 1. eapply views_sub; [exact Hv| |done]. cbn. unfold end_. lia.
Qed.

Lemma views_load mem s b l : views mem s (b :: l) → load mem (data_ s) = Done b.
Proof.
  intros (pre & suf & -> & E & _). unfold load. rewrite E, Nat2Z.id.
  rewrite (proj2 (Z.leb_le 0 _)) by lia. cbn [app]. by rewrite list_lookup_middle by done.
Qed.

Lemma varint_loop_at_spec wrap last mem limit fuel : ∀ s l shift result,
  views mem s l → end_ s = limit → last < shift + 7 * (Z.of_nat fuel - 1) →
  varint_loop_at wrap last fuel mem limit shift result (data_ s) =
  Done ('(v, q) ← varint_loop wrap last shift result l; Some (v, limit - zlen q)) ∨ fuel = 0%nat.
Proof.
  induction fuel as [|fuel IH]; intros s l shift result Hv He Hf; [by right|left].
  pose proof (views_bounds _ _ _ Hv) as (_ & _ & _ & Es). unfold end_ in He.
  cbn [varint_loop_at]. destruct l as [|b l].
  { cbn in Es. rewrite (proj2 (Z.ltb_ge _ limit)) by lia. by rewrite andb_false_r. }
  cbn [length] in Es. rewrite (proj2 (Z.ltb_lt _ limit)), andb_true_r by lia. cbn [varint_loop].
  destruct (Z.leb_spec shift last); [|done].
  rewrite (views_load _ _ _ _ Hv). cbn [mbind checked_bind]. destruct (negb _).
  - destruct (IH (suffix_rep s (zlen l)) l (shift + 7)
      (Z.lor result (wrap (Z.shiftl (Z.land (byte_val b) 127) shift)))) as [E| ->]; [|unfold end_; cbn; unfold end_; lia|lia| |lia].
    { by apply (views_suffix mem s [b] l). }
    rewrite <- E. f_equal. cbn. unfold end_. lia.
  - cbn. do 3 f_equal. lia.
Qed.

Section input.
Context (mem : bytes) (Hmem : zlen mem < 2 ^ 63).
Implicit Types (s input : SliceRep) (l : bytes).

Lemma GetVarint32Ptr_at_spec s l : views mem s l →
  GetVarint32Ptr_at mem (data_ s) (end_ s) =
  Done ('(v, q) ← GetVarint32Ptr l; Some (v, end_ s - zlen q)).
Proof. intros Hv. by destruct (varint_loop_at_spec wrap32 28 mem (end_ s) 6 s l 0 0 Hv). Qed.
Lemma GetVarint64Ptr_at_spec s l : views mem s l →
  GetVarint64Ptr_at mem (data_ s) (end_ s) =
  Done ('(v, q) ← GetVarint64Ptr l; Some (v, end_ s - zlen q)).
Proof. intros Hv. by destruct (varint_loop_at_spec wrap64 63 mem (end_ s) 11 s l 0 0 Hv). Qed.

(** The header of a length-prefixed slice, in both models. *)
Lemma GetLengthPrefixedSlice_at_spec input l : views mem input l →
  GetLengthPrefixedSlice_at mem input =
  Done ('(v, q) ← GetLengthPrefixedSlice l;
        Some (mkSliceRep (end_ input - zlen q - zlen v) (zlen v), suffix_rep input (zlen q))).
Proof.
  intros Hv. pose proof (views_bounds _ _ _ Hv) as (H1 & H2 & H3 & Es). unfold end_ in *.
  unfold GetLengthPrefixedSlice_at, GetLengthPrefixedSlice.
  fold (end_ input). rewrite (GetVarint32Ptr_at_spec _ _ Hv). cbn [mbind checked_bind].
  destruct (GetVarint32Ptr l) as [[len p]|] eqn:E; [|done].
  apply GetVarint32Ptr_suffix in E as [Hu [pre [-> _]]]. unfold is_u32 in Hu.
  cbn [mbind option_bind]. rewrite length_app in *.
  assert (end_ input - zlen p - data_ input = zlen pre) as Ep by (unfold end_; lia). rewrite Ep.
  rewrite (wrap64_id (zlen pre)), (wrap64_id (zlen pre + len)) by (unfold is_u64; lia).
  replace (size_ input <? zlen pre + len) with
    (Z.of_nat (length pre + length p) <? Z.of_nat (length pre + length p) - zlen p + len) by (f_equal; lia).
  destruct (Z.ltb_spec (Z.of_nat (length pre + length p)) (Z.of_nat (length pre + length p) - zlen p + len)); [done|].
  cbn [mbind option_bind]. pose proof (ztake_length len p ltac:(lia)) as Ht.
  assert (zlen (zdrop len p) = zlen p - len) as Hd
    by (pose proof (f_equal length (ztake_zdrop len p)) as El; rewrite length_app in El; lia).
  rewrite wrap64_id by (unfold is_u64; lia). unfold suffix_rep, end_. rewrite Ht, Hd, Z.min_l by lia.
  cbn. do 3 f_equal; f_equal; lia.
Qed.

(** What it hands out lies in the input. *)
Lemma GetLengthPrefixedSlice_views input l v q : views mem input l →
  GetLengthPrefixedSlice l = Some (v, q) →
  let s := mkSliceRep (end_ input - zlen q - zlen v) (zlen v) in
  let rest := suffix_rep input (zlen q) in
  data_ input < data_ s ∧ end_ s = data_ rest ∧ end_ rest = end_ input ∧
  views mem s v ∧ views mem rest q.
Proof.
  intros Hv (hdr & -> & Hh & _)%GetLengthPrefixedSlice_inside s rest.
  pose proof (views_bounds _ _ _ Hv) as (_ & _ & _ & Es). rewrite !length_app in Es.
  assert (0 < zlen hdr) by (destruct hdr; [done|cbn; lia]).
  subst s rest. unfold suffix_rep, end_. cbn. split_and!; [lia..| |].
  - eapply views_sub; [exact Hv| |done]. cbn. lia.
  - rewrite app_assoc in Hv. by apply views_suffix in Hv.
Qed.

Lemma Iterate_loop_at_spec {H} `{Handler H} fuel : ∀ input l seen (h : H), views mem input l →
  (length l ≤ fuel)%nat →
  Iterate_loop_at (S fuel) mem input seen h = Done (Iterate_loop fuel l seen h).
Proof.
  induction fuel as [|fuel IH]; intros input l seen h Hv Hl;
    pose proof (views_bounds _ _ _ Hv) as (H1 & H2 & H3 & Es);
    (destruct l as [|tag l]; cbn in Hl; [cbn [Iterate_loop_at]; by rewrite Es|]); [lia|].
  remember (S fuel) as n. cbn [Iterate_loop_at]. subst n. cbn [Iterate_loop].
  rewrite (proj2 (Z.eqb_neq _ 0)), (views_load _ _ _ _ Hv) by (rewrite Es; cbn; lia).
  cbn [mbind checked_bind].
  assert (views mem (mkSliceRep (data_ input + 1) (wrap64 (size_ input - 1))) l) as Hv1.
  { unfold end_ in H3. cbn [length] in Es. rewrite wrap64_id by (unfold is_u64; lia).
    rewrite <- (app_nil_r l) in Hv. apply (views_sub mem input [tag] l [] _ Hv); cbn; lia. }
  clear Hv H1 H2 H3 Es. set (inp := mkSliceRep _ _) in *. destruct (decide _).
  - rewrite (GetLengthPrefixedSlice_at_spec _ _ Hv1); cbn [mbind checked_bind].
    destruct (GetLengthPrefixedSlice l) as [[k q]|] eqn:Ek; cbn [mbind option_bind]; [|done].
    destruct (GetLengthPrefixedSlice_views _ _ _ _ Hv1 Ek) as (_ & _ & _ & Hk & Hq).
    apply GetLengthPrefixedSlice_shorter in Ek.
    rewrite (GetLengthPrefixedSlice_at_spec _ _ Hq); cbn [mbind checked_bind].
    destruct (GetLengthPrefixedSlice q) as [[v q2]|] eqn:Ev; cbn [mbind option_bind]; [|done].
    destruct (GetLengthPrefixedSlice_views _ _ _ _ Hq Ev) as (_ & _ & _ & Hvv & Hq2).
    apply GetLengthPrefixedSlice_shorter in Ev.
    rewrite (views_bytes _ _ _ Hk), (views_bytes _ _ _ Hvv). cbn [mbind checked_bind].
    apply IH; [exact Hq2|lia].
  - destruct (decide _); [|done].
    rewrite (GetLengthPrefixedSlice_at_spec _ _ Hv1); cbn [mbind checked_bind].
    destruct (GetLengthPrefixedSlice l) as [[k q]|] eqn:Ek; cbn [mbind option_bind]; [|done].
    destruct (GetLengthPrefixedSlice_views _ _ _ _ Hv1 Ek) as (_ & _ & _ & Hk & Hq).
    apply GetLengthPrefixedSlice_shorter in Ek.
    rewrite (views_bytes _ _ _ Hk). cbn [mbind checked_bind]. apply IH; [exact Hq|lia].
Qed.

Lemma parse_index_at_spec fuel : ∀ input l index, views mem input l → (length l ≤ fuel)%nat →
  parse_index_at (S fuel) mem input index = Done (parse_index fuel l index).
Proof.
  induction fuel as [|fuel IH]; intros input l index Hv Hl;
    pose proof (views_bounds _ _ _ Hv) as (H1 & H2 & H3 & Es);
    (destruct (decide (l = [])) as [->|Hne]; [cbn [parse_index_at]; by rewrite Es|]);
    assert (l ≠ []) by done; (destruct l as [|b l']; [done|]); cbn in Hl; [lia|].
  remember (S fuel) as n. cbn [parse_index_at]. subst n. cbn [parse_index].
  set (l := b :: l') in *. change (S (length l')) with (length l) in Hl.
  rewrite (proj2 (Z.eqb_neq _ 0)) by (rewrite Es; cbn; lia).
  fold (end_ input). rewrite (GetVarint32Ptr_at_spec _ _ Hv). cbn [mbind checked_bind].
  destruct (GetVarint32Ptr l) as [[klen p]|] eqn:E; [|done]. cbn [mbind option_bind].
  apply GetVarint32Ptr_suffix in E as [Hu [pre [El Hpre]]]. unfold is_u32 in Hu.
  rewrite El in *. rewrite length_app in *. assert (0 < length pre)%nat by (destruct pre; [done|cbn; lia]).
  assert (end_ input - zlen p - data_ input = zlen pre) as Ep by (unfold end_; lia). rewrite Ep.
  unfold end_ in H3.
  rewrite (wrap64_id (zlen pre)), (wrap64_id (zlen pre + klen)), (wrap64_id (_ + 8)) by (unfold is_u64; lia).
  replace (size_ input <? zlen pre + klen + 8) with
    (Z.of_nat (length pre + length p) <? Z.of_nat (length pre + length p) - zlen p + klen + 8) by (f_equal; lia).
  destruct (Z.ltb_spec (Z.of_nat (length pre + length p)) (Z.of_nat (length pre + length p) - zlen p + klen + 8)); [done|].
  rewrite <- (ztake_zdrop klen p) in Hv. set (key := ztake klen p) in *. set (q := zdrop klen p) in *.
  pose proof (ztake_length klen p ltac:(lia)) as Hk. fold key in Hk.
  assert (zlen q = zlen p - klen) as Hq
    by (pose proof (f_equal length (ztake_zdrop klen p)) as Eq; rewrite length_app in Eq; fold key q in Eq; lia).
  rewrite (views_load_bytes mem input pre key q (end_ input - zlen p) klen Hv) by (unfold end_; lia).
  cbn [mbind checked_bind].
  rewrite <- (ztake_zdrop 8 q), app_assoc in Hv. pose proof (ztake_length 8 q ltac:(lia)) as H8.
  assert (zlen (zdrop 8 q) = zlen q - 8) as Hd
    by (pose proof (f_equal length (ztake_zdrop 8 q)) as Eq; rewrite length_app in Eq; lia).
  rewrite (views_load_bytes mem input (pre ++ key) (ztake 8 q) (zdrop 8 q) _ _ Hv)
    by (rewrite ?length_app; unfold end_; lia).
  cbn [mbind checked_bind].
  assert (DecodeFixed64 (ztake 8 q) = DecodeFixed64 q) as ->
    by (unfold DecodeFixed64; rewrite <- (ztake_zdrop 8 q) at 2; rewrite take_app_le by lia; done).
  rewrite <- (zdrop_zdrop klen 8 p) by lia. fold q. apply IH.
  - rewrite app_assoc in Hv. apply views_suffix in Hv. rewrite Hd in Hv. unfold suffix_rep in Hv.
    rewrite wrap64_id by (unfold is_u64, end_; lia).
    replace (mkSliceRep _ _) with (mkSliceRep (end_ input - (zlen q - 8)) (zlen q - 8)); [done|].
    unfold end_. f_equal; lia.
  - cbn [length app] in *. lia.
Qed.
End input.

(** ** Whole buffers *)

(** Iterating over the bytes of any batch never reads outside them. *)
Theorem Iterate_in_bounds {H} `{Handler H} b (h : H) : zlen (rep_ b) < 2 ^ 63 →
  Iterate_at b h = Done (Iterate b h).
Proof.
  intros Hb. unfold Iterate_at, Iterate.
  rewrite (Iterate_loop_at_spec _ Hb _ _ _ _ _ (views_whole _)) by done. cbn [mbind checked_bind].
  destruct (Iterate_loop _ _ _ _) as [[s|seen] h']; [done|]. by destruct (negb _).
Qed.

(** Nor does reading any bytes as an index block. *)
Theorem parse_index_in_bounds buf : zlen buf < 2 ^ 63 →
  parse_index_at (S (length buf)) buf (mkSliceRep 0 (zlen buf)) [] =
  Done (parse_index (length buf) buf []).
Proof. intros Hb. by apply (parse_index_at_spec _ Hb _ _ _ _ (views_whole _)). Qed.
