(* ===== verification/SSTableSpec.v ===== *)
(** * SSTable format, and correctness of the writer and the reader

    [table_bytes] is the file format of [include/clomdb/sstable_format.h] as a
    pure function of the entries.  The writer produces it, the reader's
    [Open], [Get] and [ReadAll] recover the entries from it. *)

From S2P Require Import Prelude Slice Status Coding Bloom OrderedMap MemTable FileSystem SSTable.

(** ** The format *)

Definition entry_wf (e : SSTableEntry) : Prop :=
  zlen (e_key e) < 2 ^ 32 ∧ zlen (e_value e) < 2 ^ 32 ∧
  (e_type e = EntryType_kPut ∨ e_type e = EntryType_kDelete ∧ e_value e = []).

Definition entry_bytes (e : SSTableEntry) : bytes :=
  e_type e :: varint_bytes 5 (zlen (e_key e)) ++ e_key e ++
  (if decide (e_type e = EntryType_kPut)
   then varint_bytes 5 (zlen (e_value e)) ++ e_value e else []).

Definition data_bytes (es : list SSTableEntry) : bytes := concat (entry_bytes <$> es).

Fixpoint index_from (off : Z) (es : list SSTableEntry) : list (bytes * Z) :=
  match es with
  | [] => []
  | e :: es' => (e_key e, off) :: index_from (off + zlen (entry_bytes e)) es'
  end.

Definition index_entry_bytes (ko : bytes * Z) : bytes :=
  varint_bytes 5 (zlen ko.1) ++ ko.1 ++ le_bytes 8 ko.2.
Definition index_bytes (idx : list (bytes * Z)) : bytes := concat (index_entry_bytes <$> idx).

Definition table_keys (es : list SSTableEntry) : list bytes := e_key <$> es.

Definition table_bytes (es : list SSTableEntry) (b : Z) : bytes :=
  let data := data_bytes es in
  let index := index_bytes (index_from 0 es) in
  let filter := Build (table_keys es) b in
  data ++ index ++ filter ++
  footer_bytes (zlen data) (zlen index) (zlen data + zlen index) (zlen filter).

(** A table as the writer is meant to be called: sorted distinct keys, sizes
    within the format's fields and [ftell]'s range. *)
Record table_wf (es : list SSTableEntry) (b : Z) : Prop := {
  tw_nonempty : es ≠ [];
  tw_sorted : StronglySorted key_lt (table_keys es);
  tw_entries : Forall entry_wf es;
  tw_size : zlen (table_bytes es b) < 2 ^ 63;
  tw_bloom : bloom_fits (zlen es) b;
}.

(** What a table says about each key. *)
Definition entry_opt (e : SSTableEntry) : option bytes :=
  if decide (e_type e = EntryType_kDelete) then None else Some (e_value e).
Definition table_layer (es : list SSTableEntry) : layer :=
  list_to_map ((λ e, (e_key e, entry_opt e)) <$> es).

(** The in-memory state of a reader opened on such a file. *)
Definition reader_for (es : list SSTableEntry) (b : Z) (i : nat) (r : SSTableReader) : Prop :=
  index_ r = index_from 0 es ∧ filter_ r = Build (table_keys es) b ∧
  head (table_keys es) = Some (min_key_ r) ∧ last (table_keys es) = Some (max_key_ r) ∧
  file_size_ r = zlen (table_bytes es b) ∧
  ∃ f, file_handle_ r = Some f ∧ f_ino f = i ∧ f_buf f = [].

#[global] Arguments entry_bytes : simpl never.
#[global] Arguments data_bytes : simpl never.
#[global] Arguments index_entry_bytes : simpl never.

(** ** Lemmas: the encoder produces the format *)

Lemma EncodeEntry_bytes dst e : entry_wf e → EncodeEntry dst e = dst ++ entry_bytes e.
Proof.
  intros (Hk & Hv & _). unfold EncodeEntry, entry_bytes, PutVarint32.
  rewrite !wrap32_id by (unfold is_u32; lia).
  destruct (decide _); rewrite <- !app_assoc; cbn; by rewrite ?app_nil_r.
Qed.

Lemma index_add_bytes index ko : zlen ko.1 < 2 ^ 32 →
  index_add index ko = index ++ index_entry_bytes ko.
Proof.
  intros Hk. unfold index_add, index_entry_bytes, PutFixed64, PutVarint32.
  rewrite wrap32_id by (unfold is_u32; lia). by rewrite <- !app_assoc.
Qed.

Lemma index_fold_bytes index idx : Forall (λ ko : bytes * Z, zlen ko.1 < 2 ^ 32) idx →
  fold_left index_add idx index = index ++ index_bytes idx.
Proof.
  intros H. revert index. unfold index_bytes. induction H as [|ko idx Hk _ IH]; intros index; cbn.
  - by rewrite app_nil_r.
  - by rewrite index_add_bytes, IH, <- app_assoc.
Qed.

Lemma index_from_small off es : Forall entry_wf es →
  Forall (λ ko : bytes * Z, zlen ko.1 < 2 ^ 32) (index_from off es).
Proof.
  intros H. revert off. induction H as [|e es He _ IH]; intros off; cbn; [constructor|].
  constructor; [apply He|apply IH].
Qed.

Lemma index_from_keys off es : (index_from off es).*1 = table_keys es.
Proof. revert off. induction es as [|e es IH]; intros off; cbn; [done|]. by rewrite IH. Qed.
Lemma index_from_length off es : length (index_from off es) = length es.
Proof. revert off. induction es as [|e es IH]; intros off; cbn; [done|]. by rewrite IH. Qed.

Lemma data_bytes_cons e es : data_bytes (e :: es) = entry_bytes e ++ data_bytes es.
Proof. done. Qed.

Lemma write_fold_spec es a : Forall entry_wf es →
  0 ≤ w_offset a → w_offset a + zlen (data_bytes es) < 2 ^ 64 →
  fold_left write_entry es a =
  mkAcc (w_data a ++ data_bytes es) (w_offsets a ++ index_from (w_offset a) es)
    (w_offset a + zlen (data_bytes es)) (w_keys a ++ table_keys es).
Proof.
  intros H. revert a. induction H as [|e es He _ IH]; intros a H0 H1.
  - destruct a. cbn. by rewrite !app_nil_r, Z.add_0_r.
  - rewrite data_bytes_cons, length_app in H1.
    assert (w_offset (write_entry a e) = w_offset a + zlen (entry_bytes e)) as Eo.
    { cbn. rewrite EncodeEntry_bytes, app_nil_l by done. apply wrap64_id. unfold is_u64. lia. }
    cbn [fold_left]. rewrite IH; rewrite Eo; [|lia..].
    rewrite data_bytes_cons, length_app. cbn [write_entry w_data w_offsets w_keys index_from table_keys fmap list_fmap].
    rewrite EncodeEntry_bytes, app_nil_l by done. rewrite <- !app_assoc. cbn [app]. f_equal. lia.
Qed.

Lemma footer_length a b c d : length (footer_bytes a b c d) = 40%nat.
Proof. unfold footer_bytes, PutFixed64. rewrite !length_app, !le_bytes_length. done. Qed.

Lemma table_bytes_length es b : zlen (table_bytes es b) =
  zlen (data_bytes es) + zlen (index_bytes (index_from 0 es)) + zlen (Build (table_keys es) b) + 40.
Proof. unfold table_bytes. cbv zeta. rewrite !length_app, footer_length. lia. Qed.

(** ** The writer *)

Section writer.
Context {O : Oracle}.

(** The stream [f] writes the file [p] and has been given [c] so far; only
    [p] changed since [d0]. *)
Definition writing (d0 : Disk) (p : bytes) (f : FILE) (c : bytes) (w : World) : Prop :=
  disk_wf (w_disk w) ∧ only_paths {[p]} d0 (w_disk w) ∧
  d_files (w_disk w) !! p = Some (f_ino f) ∧ stored (w_disk w) f c.

Lemma writing_step d0 p f f' c c' w w' : writing d0 p f c w →
  writes p (w_disk w) (w_disk w') → f_ino f' = f_ino f → stored (w_disk w') f' c' →
  writing d0 p f' c' w'.
Proof.
  intros (_ & Hop & Hp & _) (Hwf' & Hop' & Hfiles) Hi Hs. split_and!; [done|by etrans| |done].
  by rewrite Hfiles, Hi.
Qed.

Lemma writing_close d0 p f c w : writing d0 p f c w →
  wp (fclose f) (λ b w', disk_wf (w_disk w') ∧ only_paths {[p]} d0 (w_disk w') ∧
    d_files (w_disk w') !! p = Some (f_ino f) ∧
    (b = true ∨ f_buf f = [] → icontent (w_disk w') (f_ino f) = c)) w.
Proof.
  intros (Hwf & Hop & Hp & Hs). eapply wp_mono; [by eapply fclose_spec|].
  intros b w' ((Hwf' & Hop' & Hfiles) & _ & _ & Hb & Hbuf & _).
  split_and!; [done|by etrans|by rewrite Hfiles|]. intros [?|?]; auto.
Qed.

Lemma write_section_spec d0 p path what data f c k (Q : Status → World → Prop) w :
  writing d0 p f c w →
  (∀ s w', ok s = false → ¬ FaultFree O → disk_wf (w_disk w') →
     only_paths {[p]} d0 (w_disk w') → Q s w') →
  (∀ f' w', writing d0 p f' (c ++ data) w' → wp (k f') Q w') →
  wp (write_section path what data f k) Q w.
Proof.
  intros Hw Hfail Hk. pose proof Hw as (Hwf & _ & Hp & Hs). unfold write_section.
  apply wp_bind. eapply wp_mono; [by eapply fwrite_spec|].
  intros [n f'] w1 (Hwr & Hi & (m & Hm & -> & Hs') & _ & Hff).
  pose proof (writing_step _ _ _ _ _ _ _ _ Hw Hwr Hi Hs') as Hw1.
  destruct (Z.eqb_spec (Z.of_nat m) (zlen data)) as [E|E]; cbn [negb].
  - apply Nat2Z.inj in E. subst m. rewrite firstn_all in Hw1. by apply Hk.
  - apply wp_bind. eapply wp_mono; [by apply (writing_close d0 p)|].
    intros b w2 (Hwf2 & Hop2 & _). apply wp_ret. apply Hfail; [done| |done|done].
    intros Hff'. by rewrite Hff in E.
Qed.

Lemma SSTableWriter_Write_spec path es b w : disk_wf (w_disk w) → table_wf es b →
  wp (SSTableWriter_Write path es b) (λ s w', disk_wf (w_disk w') ∧
    only_paths {[canon path]} (w_disk w) (w_disk w') ∧
    (ok s = true → content (w_disk w') path = Some (table_bytes es b)) ∧
    (FaultFree O → s = OK)) w.
Proof.
  intros Hwf Ht. unfold SSTableWriter_Write. destruct es as [|e0 es0]; [by destruct (tw_nonempty _ _ Ht)|].
  set (es := e0 :: es0) in *. clearbody es.
  apply wp_bind. eapply wp_mono; [by apply fopen_wb_spec|]. intros [f|err] w1.
  2: { intros [Ed Hff]. apply wp_ret. rewrite Ed. split_and!; [done|done|done|].
       intros Hff'. by destruct Hff. }
  intros (Hwf1 & Hop1 & Hr1 & Hs1). cbv zeta.
  assert (∀ s w', ok s = false → ¬ FaultFree O → disk_wf (w_disk w') →
     only_paths {[canon path]} (w_disk w) (w_disk w') →
     disk_wf (w_disk w') ∧ only_paths {[canon path]} (w_disk w) (w_disk w') ∧
     (ok s = true → content (w_disk w') path = Some (table_bytes es b)) ∧
     (FaultFree O → s = OK)) as Hfail.
  { intros s w' Es Hff ? ?. split_and!; [done|done|congruence|done]. }
  pose proof (table_bytes_length es b) as Hlen. pose proof (tw_size _ _ Ht) as Hsz.
  rewrite write_fold_spec by (try apply (tw_entries _ _ Ht); cbn; lia).
  cbn [w_data w_offsets w_offset w_keys]. rewrite !app_nil_l, Z.add_0_l.
  rewrite index_fold_bytes, app_nil_l by apply index_from_small, (tw_entries _ _ Ht).
  rewrite wrap64_id by (unfold is_u64; lia).
  eapply (write_section_spec (w_disk w) (canon path)); [by split_and!|done|]. intros f2 w2 H2.
  eapply (write_section_spec (w_disk w) (canon path)); [done|done|]. intros f3 w3 H3.
  eapply (write_section_spec (w_disk w) (canon path)); [done|done|]. intros f4 w4 H4.
  eapply (write_section_spec (w_disk w) (canon path)); [done|done|]. intros f5 w5 H5.
  rewrite app_nil_l, <- !app_assoc in H5.
  change (writing (w_disk w) (canon path) f5 (table_bytes es b) w5) in H5.
  apply wp_bind. pose proof H5 as (Hwf5 & _ & Hp5 & Hs5).
  eapply wp_mono; [by eapply fflush_spec|].
  intros [bb f6] w6 (Hwr6 & Hi6 & Hs6 & _ & Hb6 & Hff6).
  pose proof (writing_step _ _ _ _ _ _ _ _ H5 Hwr6 Hi6 Hs6) as H6.
  destruct bb; cbn [negb]; apply wp_bind; (eapply wp_mono; [by apply (writing_close (w_disk w) (canon path))|]);
    intros b7 w7 (Hwf7 & Hop7 & Hp7 & Hc7); apply wp_ret.
  - split_and!; [done|done| |done]. intros _. unfold content, resolve. rewrite Hp7. cbn. f_equal.
    apply Hc7. right. by apply Hb6.
  - apply Hfail; [done| |done|done]. intros Hff. by specialize (Hff6 Hff).
Qed.
End writer.

(** ** Reading at a position *)

(** The stream [f] is positioned before the bytes [s] (up to end of file). *)
Definition reads_at (d : Disk) (f : FILE) (s : bytes) : Prop :=
  zdrop (f_pos f) (icontent d (f_ino f)) = s ∧ 0 ≤ f_pos f ∧ f_buf f = [].

Section reader.
Context {O : Oracle}.

Lemma fread_at f x rest n w : reads_at (w_disk w) f (x ++ rest) → zlen x = n →
  wp (fread n f) (λ '(data, f') w', w_disk w' = w_disk w ∧ f_ino f' = f_ino f ∧
    f_buf f' = [] ∧ zlen data ≤ n ∧ (zlen data = n → data = x ∧ reads_at (w_disk w) f' rest) ∧
    (FaultFree O → zlen data = n)) w.
Proof.
  intros (Hd & Hp & Hb) <-. eapply wp_mono; [apply fread_spec|].
  rewrite Hd, ztake_app. intros [data f'] w' (Ed & Ei & Eb & Ep & Hpre & Hfull & Hff).
  split_and!; [done|done|congruence| | |].
  - apply prefix_length in Hpre. lia.
  - intros Hl. specialize (Hfull Hl) as ->. split; [done|]. split_and!; [|lia|by rewrite Eb].
    rewrite Ei, Ep, <- zdrop_zdrop, Hd, zdrop_app by lia. done.
  - intros Hff'. by rewrite (Hff Hff').
Qed.

(** One byte. *)
Lemma fread_byte f c rest w : reads_at (w_disk w) f (c :: rest) →
  wp (fread 1 f) (λ '(data, f') w', w_disk w' = w_disk w ∧ f_ino f' = f_ino f ∧
    (data = [c] ∧ reads_at (w_disk w) f' rest ∨ data = [] ∧ ¬ FaultFree O)) w.
Proof.
  intros H. eapply wp_mono; [by apply (fread_at f [c] rest)|].
  intros [data f'] w' (Ed & Ei & _ & Hle & Hfull & Hff). split_and!; [done..|].
  destruct data as [|c' [|? ?]]; cbn [length] in *; [right|left; by apply Hfull|lia].
  split; [done|]. intros Hff'. by specialize (Hff Hff').
Qed.

Lemma read_varint_loop_at n tmp f pre b rest w :
  reads_at (w_disk w) f (pre ++ b :: rest) → (length pre < n)%nat →
  Forall (λ c, Z.land (byte_val c) 128 ≠ 0) pre → Z.land (byte_val b) 128 = 0 →
  wp (read_varint_loop n tmp f) (λ '(r, f') w', w_disk w' = w_disk w ∧ f_ino f' = f_ino f ∧
    match r with
    | Some t => t = tmp ++ pre ++ [b] ∧ reads_at (w_disk w) f' rest
    | None => ¬ FaultFree O
    end) w.
Proof.
  intros Hr Hn Hpre Hb. revert n tmp f w Hr Hn.
  induction Hpre as [|c pre Hc _ IH]; intros [|n] tmp f w Hr Hn; cbn [length] in *; try lia;
    cbn [read_varint_loop]; apply wp_bind; (eapply wp_mono; [by eapply fread_byte|]);
    intros [data f'] w' (Ed & Ei & [[-> Hr']|[-> Hff]]); try (by apply wp_ret).
  - rewrite Hb. by apply wp_ret.
  - destruct (Z.eqb_spec (Z.land (byte_val c) 128) 0); [done|].
    rewrite <- Ed in Hr'. eapply wp_mono; [apply IH; [done|lia]|].
    intros [t f2] w2 (Ed2 & Ei2 & H). rewrite Ed in *. split_and!; [done|congruence|].
    destruct t as [t|]; [|done]. destruct H as [-> ?]. by rewrite <- app_assoc.
Qed.

Lemma read_varint_at v f rest w : reads_at (w_disk w) f (varint_bytes 5 v ++ rest) → is_u32 v →
  wp (read_varint f) (λ '(r, f') w', w_disk w' = w_disk w ∧ f_ino f' = f_ino f ∧
    match r with
    | VOk v' => v' = v ∧ reads_at (w_disk w) f' rest
    | VShort => ¬ FaultFree O
    | VBad => False
    end) w.
Proof.
  intros Hr Hv. destruct (varint_bytes_shape 4 v) as (pre & b & E & Hpre & Hb).
  { unfold is_u32 in Hv. lia. }
  pose proof (varint_bytes_length 4 v) as Hl. rewrite E, length_app in Hl. cbn in Hl.
  pose proof Hr as Hr'. rewrite E, <- app_assoc in Hr'. cbn [app] in Hr'.
  unfold read_varint. apply wp_bind. eapply wp_mono; [eapply read_varint_loop_at; [done|lia|done..]|].
  intros [[t|] f'] w' (Ed & Ei & H); [|by apply wp_ret].
  destruct H as [-> Hr2]. cbn [app]. rewrite <- E.
  pose proof (GetVarint32_bytes v [] Hv) as Hg. rewrite app_nil_r in Hg. rewrite Hg. by apply wp_ret.
Qed.

Lemma read_counted_at n x f rest w : reads_at (w_disk w) f (x ++ rest) → zlen x = n →
  wp (read_counted n f) (λ '(b, data, f') w', w_disk w' = w_disk w ∧ f_ino f' = f_ino f ∧
    if b : bool then data = x ∧ reads_at (w_disk w) f' rest else ¬ FaultFree O) w.
Proof.
  intros Hr Hx. unfold read_counted. destruct (Z.ltb_spec 0 n).
  - apply wp_bind. eapply wp_mono; [by eapply fread_at|].
    intros [data f'] w' (Ed & Ei & _ & Hle & Hfull & Hff). apply wp_ret. split_and!; [done..|].
    destruct (Z.eqb_spec (zlen data) n); [by apply Hfull|]. intros Hff'. by specialize (Hff Hff').
  - apply wp_ret. assert (x = []) as -> by (destruct x; [done|cbn in *; lia]). done.
Qed.

Lemma entry_bytes_cons e rest : entry_bytes e ++ rest =
  e_type e :: varint_bytes 5 (zlen (e_key e)) ++ e_key e ++
  (if decide (e_type e = EntryType_kPut)
   then varint_bytes 5 (zlen (e_value e)) ++ e_value e else []) ++ rest.
Proof. unfold entry_bytes. cbn [app]. by rewrite <- !app_assoc. Qed.

Lemma read_entry_at path e f rest w : reads_at (w_disk w) f (entry_bytes e ++ rest) → entry_wf e →
  wp (read_entry path f) (λ '(r, f') w', w_disk w' = w_disk w ∧ f_ino f' = f_ino f ∧
    match r with
    | inr e' => e' = e ∧ reads_at (w_disk w) f' rest
    | inl s => ok s = false ∧ ¬ FaultFree O
    end) w.
Proof.
  intros Hr (Hk & Hv & Ht). rewrite entry_bytes_cons in Hr. unfold read_entry.
  apply wp_bind. eapply wp_mono; [by eapply fread_byte|].
  intros [data f1] w1 (Ed1 & Ei1 & [[-> H1]|[-> Hff]]); [|by apply wp_ret]. rewrite <- Ed1 in H1.
  apply wp_bind. eapply wp_mono; [eapply read_varint_at; [done|unfold is_u32; lia]|].
  intros [[| |kl] f2] w2 (Ed2 & Ei2 & H2); [apply wp_ret; split_and!; first [done|congruence]|done|].
  destruct H2 as [-> H2]. rewrite <- Ed2 in H2.
  apply wp_bind. eapply wp_mono; [by eapply read_counted_at|].
  intros [[b key] f3] w3 (Ed3 & Ei3 & H3).
  destruct b; cbn [negb]; [|apply wp_ret; split_and!; first [done|congruence]].
  destruct H3 as [-> H3]. rewrite <- Ed3 in H3.
  destruct (decide (e_type e = EntryType_kPut)) as [Et|Et].
  - rewrite <- app_assoc in H3.
    apply wp_bind. eapply wp_mono; [eapply read_varint_at; [done|unfold is_u32; lia]|].
    intros [[| |vl] f4] w4 (Ed4 & Ei4 & H4); [apply wp_ret; split_and!; first [done|congruence]|done|].
    destruct H4 as [-> H4]. rewrite <- Ed4 in H4.
    apply wp_bind. eapply wp_mono; [by eapply read_counted_at|].
    intros [[b val] f5] w5 (Ed5 & Ei5 & H5).
    destruct b; cbn [negb]; apply wp_ret; split_and!; first [done|congruence|idtac].
    all: destruct H5 as [-> H5]; rewrite Ed4, Ed3, Ed2, Ed1 in H5; by destruct e.
  - cbn [app] in H3. apply wp_ret. split; [congruence|split; [congruence|]].
    rewrite Ed3, Ed2, Ed1 in H3. destruct Ht as [?|[? Ev]]; [done|]. rewrite <- Ev. by destruct e.
Qed.

Lemma read_entries_at path es f rest out w :
  reads_at (w_disk w) f (data_bytes es ++ rest) → Forall entry_wf es →
  wp (read_entries (length es) path f out) (λ '(s, out') w', w_disk w' = w_disk w ∧
    (ok s = true → out' = out ++ es) ∧ (FaultFree O → s = OK)) w.
Proof.
  intros Hr Hes. revert f out w Hr.
  induction Hes as [|e es He _ IH]; intros f out w Hr; cbn [length read_entries].
  { apply wp_ret. split_and!; [done| |done]. by rewrite app_nil_r. }
  rewrite data_bytes_cons, <- app_assoc in Hr.
  apply wp_bind. eapply wp_mono; [by eapply read_entry_at|].
  intros [[s|e'] f1] w1 (Ed1 & Ei1 & H1).
  - destruct H1 as [Es Hff]. apply wp_ret. split_and!; [done|congruence|done].
  - destruct H1 as [-> H1]. rewrite <- Ed1 in H1. eapply wp_mono; [by apply IH|].
    intros [s out'] w2 (Ed2 & Hout & Hff). split_and!; [congruence| |done].
    intros Hok. by rewrite (Hout Hok), <- app_assoc.
Qed.

(** [ReadAll]: the entries, if it reports success; success without faults. *)
Lemma SSTableReader_ReadAll_spec es b i r w :
  table_wf es b → reader_for es b i r → icontent (w_disk w) i = table_bytes es b →
  wp (SSTableReader_ReadAll r) (λ '(s, out) w', w_disk w' = w_disk w ∧
    (ok s = true → out = es) ∧ (FaultFree O → s = OK)) w.
Proof.
  intros Ht (Hidx & _ & _ & _ & _ & f & Hf & Hi & Hb) Hc. unfold SSTableReader_ReadAll. rewrite Hf.
  apply wp_bind. eapply wp_mono; [apply fseek_set_spec|].
  intros [bb f1] w1 (Ed1 & Ei1 & Eb1 & Hpos & Hff).
  destruct bb; cbn [negb]; [|apply wp_ret; split_and!; [done|done|]; intros Hff'; by specialize (Hff Hff' ltac:(lia))].
  destruct Hpos as [Hp _]. rewrite Hidx, index_from_length.
  eapply wp_mono; [eapply read_entries_at; [|apply (tw_entries _ _ Ht)]|].
  - split_and!; [|lia|by rewrite Eb1]. rewrite Hp, Ei1, Ed1, Hi, Hc, zdrop_nonpos by lia. done.
  - intros [s out] w2 (Ed2 & Hout & Hff2). split_and!; [congruence|done|done].
Qed.

(** The destructor of an open reader closes a stream with nothing buffered. *)
Lemma SSTableReader_Destroy_spec es b i r w : reader_for es b i r →
  wp (SSTableReader_Destroy r) (λ _ w', w_disk w' = w_disk w) w.
Proof.
  intros (_ & _ & _ & _ & _ & f & Hf & _ & Hb). unfold SSTableReader_Destroy. rewrite Hf.
  unfold wp, fclose, tick, on_disk, modify, mbind, ST_bind. cbn. by rewrite Hb, take_nil.
Qed.
End reader.

(** ** The index: parsing and binary search *)

Lemma index_entry_app ko rest : index_entry_bytes ko ++ rest =
  varint_bytes 5 (zlen ko.1) ++ ko.1 ++ le_bytes 8 ko.2 ++ rest.
Proof. unfold index_entry_bytes. by rewrite <- !app_assoc. Qed.

Lemma parse_index_bytes fuel idx acc :
  Forall (λ ko : bytes * Z, zlen ko.1 < 2 ^ 32 ∧ is_u64 ko.2) idx →
  (length (index_bytes idx) ≤ fuel)%nat →
  parse_index fuel (index_bytes idx) acc = (true, acc ++ idx).
Proof.
  intros H. revert fuel acc. induction H as [|[k off] idx [Hk Ho] _ IH]; intros fuel acc Hf.
  { rewrite app_nil_r. by destruct fuel. }
  change (index_bytes ((k, off) :: idx)) with (index_entry_bytes (k, off) ++ index_bytes idx) in *.
  rewrite index_entry_app in *. cbn [fst snd] in *.
  pose proof (varint_bytes_length 4 (zlen k)) as Hv. rewrite !length_app in Hf.
  destruct fuel as [|fuel]; [lia|]. cbn [parse_index].
  destruct (varint_bytes 5 (zlen k) ++ k ++ le_bytes 8 off ++ index_bytes idx) as [|x inp] eqn:E.
  { apply (f_equal length) in E. rewrite length_app in E. cbn in E. lia. }
  rewrite <- E. clear E x inp. rewrite GetVarint32_bytes by (unfold is_u32; lia).
  rewrite !length_app, le_bytes_length.
  match goal with |- context [?a <? ?b] => destruct (Z.ltb_spec a b); [lia|] end.
  rewrite ztake_app, zdrop_app, DecodeFixed64_le by done.
  rewrite app_assoc, (drop_zlen_app (zlen k + 8)) by (rewrite length_app, le_bytes_length; lia).
  rewrite IH by (rewrite le_bytes_length in Hf; lia). by rewrite <- app_assoc.
Qed.

Lemma sorted_lookup_lt (l : list bytes) i j a b :
  StronglySorted key_lt l → l !! i = Some a → l !! j = Some b → (i < j)%nat → key_lt a b.
Proof.
  intros Hs. revert i j. induction Hs as [|x l _ IH Hx]; intros i j Hi Hj Hij; [done|].
  destruct i as [|i], j as [|j]; try lia; cbn in *.
  - injection Hi as ->. apply (Forall_lookup_1 _ _ _ _ Hx Hj).
  - apply (IH i j); [done|done|lia].
Qed.

(** The invariant of [std::lower_bound]: what precedes [first] is smaller,
    what follows the range is not. *)
Lemma lower_bound_loop_spec fuel (idx : list (bytes * Z)) key first len :
  StronglySorted key_lt idx.*1 → (first + len ≤ length idx)%nat → (len ≤ fuel)%nat →
  (∀ i k o, (i < first)%nat → idx !! i = Some (k, o) → key_lt k key) →
  (∀ i k o, (first + len ≤ i)%nat → idx !! i = Some (k, o) → ¬ key_lt k key) →
  let p := lower_bound_loop fuel idx key first len in
  (∀ i k o, (i < p)%nat → idx !! i = Some (k, o) → key_lt k key) ∧
  (∀ i k o, (p ≤ i)%nat → idx !! i = Some (k, o) → ¬ key_lt k key).
Proof.
  intros Hs. revert first len.
  induction fuel as [|fuel IH]; intros first len Hl Hf Hlo Hhi.
  { assert (len = 0%nat) as -> by lia. rewrite Nat.add_0_r in Hhi. done. }
  cbn [lower_bound_loop]. destruct (Nat.eqb_spec len 0) as [->|Hn].
  { rewrite Nat.add_0_r in Hhi. done. }
  assert (Nat.div2 len < len)%nat as Hd by (apply Nat.lt_div2; lia).
  generalize dependent (Nat.div2 len). intros half Hd.
  destruct (idx !! (first + half)%nat) as [[k o]|] eqn:E.
  2: { apply lookup_ge_None in E. lia. }
  assert (∀ i k' o', idx !! i = Some (k', o') → idx.*1 !! i = Some k') as H1.
  { intros i k' o' Hi. by rewrite list_lookup_fmap, Hi. }
  destruct (Slice_ltb k key) eqn:Ek.
  - apply IH; [lia|lia| |].
    + intros i k' o' Hi Hk'. destruct (decide (i = first + half)%nat) as [->|].
      { by rewrite E in Hk'; injection Hk' as <- <-. }
      transitivity k; [|done]. eapply sorted_lookup_lt; eauto. lia.
    + intros i k' o' Hi. apply Hhi. lia.
  - assert (¬ key_lt k key) as Hk by (unfold key_lt; congruence).
    apply IH; [lia|lia|done|].
    intros i k' o' Hi Hk' Hlt. apply Hk.
    destruct (decide (i = first + half)%nat) as [->|].
    { rewrite E in Hk'. by injection Hk' as <- <-. }
    transitivity k'; [|done]. eapply sorted_lookup_lt; eauto. lia.
Qed.

Lemma lower_bound_spec (idx : list (bytes * Z)) key : StronglySorted key_lt idx.*1 →
  (∀ i k o, (i < lower_bound idx key)%nat → idx !! i = Some (k, o) → key_lt k key) ∧
  (∀ i k o, (lower_bound idx key ≤ i)%nat → idx !! i = Some (k, o) → ¬ key_lt k key).
Proof.
  intros Hs. apply lower_bound_loop_spec; [done|lia|lia|intros; lia|].
  intros i k o Hi Hk. apply lookup_lt_Some in Hk. lia.
Qed.

(** The search finds the key if it is in the index. *)
Lemma lower_bound_found (idx : list (bytes * Z)) key i o :
  StronglySorted key_lt idx.*1 → idx !! i = Some (key, o) → lower_bound idx key = i.
Proof.
  intros Hs Hi. destruct (lower_bound_spec idx key Hs) as [Hlo Hhi].
  destruct (Nat.lt_trichotomy (lower_bound idx key) i) as [H|[H|H]]; [|done|].
  - destruct (lookup_lt_is_Some_2 idx (lower_bound idx key)) as [[k o'] Hk].
    { apply lookup_lt_Some in Hi. lia. }
    exfalso. eapply Hhi; [|exact Hk|]; [lia|].
    eapply (sorted_lookup_lt idx.*1); [done| | |exact H]; rewrite list_lookup_fmap;
      [by rewrite Hk|by rewrite Hi].
  - exfalso. eapply key_lt_irrefl, Hlo; done.
Qed.

(** Position of an entry in the data section. *)
Lemma index_from_lookup off es i e : es !! i = Some e →
  index_from off es !! i = Some (e_key e, off + zlen (data_bytes (take i es))).
Proof.
  revert off i. induction es as [|e0 es IH]; intros off [|i] Hi; try done; cbn in *.
  - injection Hi as ->. do 2 f_equal. unfold data_bytes. cbn. lia.
  - rewrite (IH _ _ Hi), data_bytes_cons, length_app. do 2 f_equal. lia.
Qed.

Lemma index_from_lookup_inv off es i k o : index_from off es !! i = Some (k, o) →
  ∃ e, es !! i = Some e ∧ k = e_key e ∧ o = off + zlen (data_bytes (take i es)).
Proof.
  intros H. destruct (lookup_lt_is_Some_2 es i) as [e He].
  { rewrite <- (index_from_length off es). by eapply lookup_lt_Some. }
  exists e. rewrite (index_from_lookup off es i e He) in H. by injection H as <- <-.
Qed.

Lemma data_bytes_app es1 es2 : data_bytes (es1 ++ es2) = data_bytes es1 ++ data_bytes es2.
Proof. unfold data_bytes. by rewrite fmap_app, concat_app. Qed.

Lemma data_bytes_split es i e : es !! i = Some e →
  data_bytes es = data_bytes (take i es) ++ entry_bytes e ++ data_bytes (drop (S i) es).
Proof.
  intros Hi. rewrite <- (take_drop_middle es i e Hi) at 1.
  by rewrite data_bytes_app, data_bytes_cons.
Qed.

Lemma table_layer_elem es k x : StronglySorted key_lt (table_keys es) →
  table_layer es !! k = Some x ↔ ∃ e, e ∈ es ∧ e_key e = k ∧ entry_opt e = x.
Proof.
  intros Hs. unfold table_layer.
  assert (((λ e, (e_key e, entry_opt e)) <$> es).*1 = table_keys es) as Ek.
  { rewrite <- list_fmap_compose. done. }
  rewrite <- elem_of_list_to_map.
  - rewrite list_elem_of_fmap. naive_solver.
  - apply (omap_wf_NoDup ((λ e, (e_key e, entry_opt e)) <$> es)). unfold omap_wf.
    by rewrite Ek.
Qed.

Lemma table_layer_None es k : table_layer es !! k = None ↔ k ∉ table_keys es.
Proof.
  unfold table_layer. rewrite <- not_elem_of_list_to_map.
  rewrite <- list_fmap_compose. done.
Qed.

(** ** Point lookups *)

Lemma Build_nonempty keys b : bloom_fits (zlen keys) b → Build keys b ≠ [].
Proof.
  intros Hf E. pose proof (Build_length keys b Hf) as Hl. rewrite E in Hl.
  pose proof (bloom_bytes_fits (zlen keys) b ltac:(lia) Hf). cbn in Hl. lia.
Qed.

Lemma table_keys_length es : zlen (table_keys es) = zlen es.
Proof. unfold table_keys. by rewrite length_fmap. Qed.

(** The answer a lookup must give: value and tombstone out-parameters. *)
Definition get_answer (x : option bytes) (value : bytes) : bytes * bool :=
  match x with None => (value, true) | Some v => (v, false) end.

Section get.
Context {O : Oracle}.

(** Reading the entry at its offset. *)
Lemma get_entry_at es b e i f w :
  table_wf es b → es !! i = Some e → icontent (w_disk w) (f_ino f) = table_bytes es b →
  f_pos f = zlen (data_bytes (take i es)) → f_buf f = [] →
  ∃ rest, reads_at (w_disk w) f (entry_bytes e ++ rest).
Proof.
  intros Ht Hi Hc Hp Hb. eexists. split_and!; [|lia|done].
  rewrite Hp, Hc. unfold table_bytes. cbv zeta.
  rewrite (data_bytes_split es i e Hi), <- !app_assoc, zdrop_app. done.
Qed.

Lemma get_entry_spec es b j e f value del w :
  table_wf es b → es !! j = Some e → icontent (w_disk w) (f_ino f) = table_bytes es b → f_buf f = [] →
  wp (get_entry (zlen (data_bytes (take j es))) f value del) (λ '(found, value', del') w',
    w_disk w' = w_disk w ∧
    (found = true → (value', del') = get_answer (entry_opt e) value) ∧
    (found = false → del' = del) ∧ (FaultFree O → found = true)) w.
Proof.
  intros Ht Hj Hc Hbuf. unfold get_entry. remember (entry_opt e) as x eqn:Hx.
  pose proof (Forall_lookup_1 _ _ _ _ (tw_entries _ _ Ht) Hj) as (Hkl & Hvl & Hty).
  pose proof (tw_size _ _ Ht) as Hsz. rewrite table_bytes_length in Hsz.
  pose proof (data_bytes_split es j e Hj) as Hsplit. apply (f_equal length) in Hsplit.
  rewrite length_app in Hsplit.
  unfold to_long. destruct (Z.ltb_spec (zlen (data_bytes (take j es))) (2 ^ 63)); [|lia].
  assert (∀ del' value' w', w_disk w' = w_disk w → ¬ FaultFree O → del' = del →
    w_disk w' = w_disk w ∧ (false = true → (value', del') = get_answer x value) ∧
      (false = false → del' = del) ∧ (FaultFree O → false = true)) as Hno.
  { intros. split_and!; done. }
  apply wp_bind. eapply wp_mono; [apply fseek_set_spec|].
  intros [bb f1] w1 (Ed1 & Ei1 & Eb1 & Hpos & Hff1).
  destruct bb; cbn [negb]; [|apply wp_ret, Hno; [done| |done]; intros Hff; by specialize (Hff1 Hff ltac:(lia))].
  destruct Hpos as [Hp1 _].
  destruct (get_entry_at es b e j f1 w1 Ht Hj) as [rest Hr]; [by rewrite Ed1, Ei1|done|by rewrite Eb1|].
  rewrite entry_bytes_cons in Hr.
  apply wp_bind. eapply wp_mono; [by eapply fread_byte|].
  intros [data f2] w2 (Ed2 & Ei2 & [[-> H2]|[-> Hff]]); [|apply wp_ret, Hno; congruence || done].
  rewrite <- Ed2 in H2. apply wp_bind. eapply wp_mono; [eapply read_varint_at; [done|unfold is_u32; lia]|].
  intros [[| |kl] f3] w3 (Ed3 & Ei3 & H3); [apply wp_ret, Hno; congruence || done|done|].
  destruct H3 as [-> H3]. rewrite <- Ed3 in H3.
  apply wp_bind. eapply wp_mono; [by eapply read_counted_at|].
  intros [[b4 kd] f4] w4 (Ed4 & Ei4 & H4).
  destruct b4; cbn [negb]; [|apply wp_ret, Hno; congruence || done].
  destruct H4 as [-> H4]. rewrite <- Ed4 in H4. unfold entry_opt in Hx.
  destruct (decide (e_type e = EntryType_kDelete)) as [Et|Et].
  { apply wp_ret. subst x. split_and!; [congruence|done..]. }
  destruct Hty as [Hty|[? _]]; [|done]. destruct (decide (e_type e = EntryType_kPut)) as [_|]; [|done].
  rewrite <- app_assoc in H4.
  apply wp_bind. eapply wp_mono; [eapply read_varint_at; [done|unfold is_u32; lia]|].
  intros [[| |vl] f5] w5 (Ed5 & Ei5 & H5); [apply wp_ret, Hno; congruence || done|done|].
  destruct H5 as [-> H5]. rewrite <- Ed5 in H5.
  apply wp_bind. eapply wp_mono; [by eapply read_counted_at|].
  intros [[b6 vd] f6] w6 (Ed6 & Ei6 & H6).
  destruct b6; cbn [negb]; [|apply wp_ret, Hno; congruence || done].
  destruct H6 as [-> _]. apply wp_ret. rewrite Z.sub_diag. cbn [Z.to_nat replicate].
  rewrite app_nil_r. subst x. split_and!; [congruence|done..].
Qed.

(** [Get] reads the file only if the index has the key, and then one entry. *)
Lemma SSTableReader_Get_cases es b i r key value del : table_wf es b → reader_for es b i r →
  match table_layer es !! key with
  | None => SSTableReader_Get r key value del = mret (false, value, del)
  | Some x => ∃ j e f, es !! j = Some e ∧ entry_opt e = x ∧ f_ino f = i ∧ f_buf f = [] ∧
      SSTableReader_Get r key value del = get_entry (zlen (data_bytes (take j es))) f value del
  end.
Proof.
  intros Ht (Hidx & Hfil & _ & _ & _ & f & Hf & <- & Hbuf).
  pose proof (tw_bloom _ _ Ht) as Hbl. rewrite <- table_keys_length in Hbl.
  unfold SSTableReader_Get. rewrite Hidx, Hfil, Hf.
  rewrite bool_decide_eq_false_2 by (by apply Build_nonempty). cbn [negb andb].
  assert (StronglySorted key_lt (index_from 0 es).*1) as Hsi
    by (rewrite index_from_keys; apply Ht).
  destruct (table_layer es !! key) as [x|] eqn:Ex.
  - apply table_layer_elem in Ex as (e & He & <- & <-); [|apply Ht].
    rewrite MayContain_Build by (done || by apply list_elem_of_fmap_2). cbn [negb].
    apply list_elem_of_lookup in He as [j Hj]. pose proof (index_from_lookup 0 es j e Hj) as Hlk.
    rewrite (lower_bound_found _ _ _ _ Hsi Hlk), Hlk, (proj2 (Slice_eqb_eq _ _) eq_refl).
    cbn [negb]. rewrite Z.add_0_l. by exists j, e, f.
  - apply table_layer_None in Ex. destruct (negb (MayContain _ _)); [done|].
    destruct (index_from 0 es !! lower_bound (index_from 0 es) key) as [[k o]|] eqn:Ei; [|done].
    apply index_from_lookup_inv in Ei as (e & He & -> & _).
    destruct (Slice_eqb (e_key e) key) eqn:Ek; cbn [negb]; [|done].
    apply Slice_eqb_eq in Ek as <-. destruct Ex. apply list_elem_of_fmap_2. by eapply list_elem_of_lookup_2.
Qed.

Lemma SSTableReader_Get_spec es b i r key value del w :
  table_wf es b → reader_for es b i r → icontent (w_disk w) i = table_bytes es b →
  wp (SSTableReader_Get r key value del) (λ '(found, value', del') w', w_disk w' = w_disk w ∧
    match table_layer es !! key with
    | None => found = false ∧ (value', del') = (value, del)
    | Some x => (found = true → (value', del') = get_answer x value) ∧
                (found = false → del' = del) ∧ (FaultFree O → found = true)
    end) w.
Proof.
  intros Ht Hr Hc. pose proof (SSTableReader_Get_cases es b i r key value del Ht Hr) as H.
  destruct (table_layer es !! key) as [x|]; [|rewrite H; by apply wp_ret].
  destruct H as (j & e & f & Hj & <- & <- & Hbuf & ->). by eapply get_entry_spec.
Qed.
End get.

(** ** Opening a table *)

Lemma footer_decode a b c d rest : is_u64 a → is_u64 b → is_u64 c → is_u64 d →
  let f := footer_bytes a b c d ++ rest in
  DecodeFixed64 f = a ∧ DecodeFixed64 (drop 8 f) = b ∧ DecodeFixed64 (drop 16 f) = c ∧
  DecodeFixed64 (drop 24 f) = d ∧ DecodeFixed64 (drop 32 f) = kSSTableMagic.
Proof.
  intros Ha Hb Hc Hd f.
  assert (f = le_bytes 8 a ++ le_bytes 8 b ++ le_bytes 8 c ++ le_bytes 8 d ++
    le_bytes 8 kSSTableMagic ++ rest) as ->.
  { subst f. unfold footer_bytes, PutFixed64. by rewrite app_nil_l, <- !app_assoc. }
  assert (∀ v r, drop 8 (le_bytes 8 v ++ r) = r) as Hdrop.
  { intros v r. rewrite drop_app_length'; [done|by rewrite le_bytes_length]. }
  assert (∀ l : bytes, drop 16 l = drop 8 (drop 8 l)) as -> by (intros; by rewrite drop_drop).
  assert (∀ l : bytes, drop 24 l = drop 8 (drop 8 (drop 8 l))) as -> by (intros; by rewrite !drop_drop).
  assert (∀ l : bytes, drop 32 l = drop 8 (drop 8 (drop 8 (drop 8 l)))) as ->
    by (intros; by rewrite !drop_drop).
  rewrite !Hdrop, !DecodeFixed64_le; done.
Qed.

Section open.
Context {O : Oracle}.

Lemma close_fail {A} (r : A) f (Q : A → World → Prop) w : f_buf f = [] →
  (∀ w', w_disk w' = w_disk w → Q r w') → wp (fclose f;; mret r) Q w.
Proof.
  intros Hb HQ. apply wp_bind. eapply wp_mono; [by apply fclose_read_spec|].
  intros b w' Ed. apply wp_ret. by apply HQ.
Qed.

Lemma read_block_spec pre x suf offset size f w :
  icontent (w_disk w) (f_ino f) = pre ++ x ++ suf → f_buf f = [] →
  zlen pre = offset → zlen x = size → offset < 2 ^ 63 →
  wp (read_block offset size f) (λ '(r, f') w', w_disk w' = w_disk w ∧ f_ino f' = f_ino f ∧
    f_buf f' = [] ∧ match r with Some y => y = x | None => ¬ FaultFree O end) w.
Proof.
  intros Hc Hb <- Hsz Ho. unfold read_block. destruct (Z.ltb_spec 0 size).
  - unfold to_long. destruct (Z.ltb_spec (zlen pre) (2 ^ 63)); [|lia].
    apply wp_bind. eapply wp_mono; [apply fseek_set_spec|].
    intros [bb f1] w1 (Ed1 & Ei1 & Eb1 & Hpos & Hff1).
    destruct bb; cbn [negb].
    2: { apply wp_ret. split_and!; [done..|congruence|]. intros Hff. by specialize (Hff1 Hff ltac:(lia)). }
    destruct Hpos as [Hp _].
    assert (reads_at (w_disk w1) f1 (x ++ suf)) as Hr.
    { split_and!; [|lia|congruence]. by rewrite Hp, Ei1, Ed1, Hc, zdrop_app. }
    apply wp_bind. eapply wp_mono; [by eapply fread_at|].
    intros [data f2] w2 (Ed2 & Ei2 & Eb2 & _ & Hfull & Hff2).
    destruct (Z.eqb_spec (zlen data) size) as [E|E]; cbn [negb]; apply wp_ret.
    + destruct (Hfull E) as [-> _]. split_and!; congruence.
    + split_and!; [congruence..|]. intros Hff. by specialize (Hff2 Hff).
  - apply wp_ret. assert (x = []) as -> by (destruct x; [done|cbn in *; lia]). done.
Qed.

Lemma index_offsets_u64 off es : 0 ≤ off → off + zlen (data_bytes es) < 2 ^ 64 →
  Forall entry_wf es →
  Forall (λ ko : bytes * Z, zlen ko.1 < 2 ^ 32 ∧ is_u64 ko.2) (index_from off es).
Proof.
  intros H0 H1 H. revert off H0 H1. induction H as [|e es He _ IH]; intros off H0 H1; cbn; [constructor|].
  rewrite data_bytes_cons, length_app in H1. constructor.
  - split; [apply He|]. unfold is_u64. cbn. lia.
  - apply IH; lia.
Qed.

Lemma index_head_last off es : es ≠ [] → ∃ kmin kmax,
  head (table_keys es) = Some kmin ∧ last (table_keys es) = Some kmax ∧
  match index_from off es with [] => [] | (k, _) :: _ => k end = kmin ∧
  match last (index_from off es) with None => [] | Some (k, _) => k end = kmax.
Proof.
  intros Hne. rewrite <- (index_from_keys off es). unfold table_keys in *.
  assert (index_from off es ≠ []) as Hni by (by destruct es).
  destruct (index_from off es) as [|[k o] l] eqn:E; [done|]. exists k. clear E Hni Hne.
  destruct (last ((k, o) :: l)) as [[k2 o2]|] eqn:El; [|by apply last_None in El].
  exists k2. split_and!; [done| |done|done]. by rewrite fmap_last, El.
Qed.

(** What [Open] promises. *)
Definition open_result es b i (d : Disk) (s : Status) (r : SSTableReader) (d' : Disk) : Prop :=
  d' = d ∧ (ok s = true → reader_for es b i r) ∧ (FaultFree O → s = OK).

Lemma open_failed es b i d s r : ok s = false → ¬ FaultFree O → open_result es b i d s r d.
Proof. intros Es Hff. split_and!; [done|congruence|done]. Qed.

Definition table_footer (es : list SSTableEntry) (b : Z) : bytes :=
  footer_bytes (zlen (data_bytes es)) (zlen (index_bytes (index_from 0 es)))
    (zlen (data_bytes es) + zlen (index_bytes (index_from 0 es))) (zlen (Build (table_keys es) b)).

Lemma open_sections_spec es b path f w : table_wf es b →
  icontent (w_disk w) (f_ino f) = table_bytes es b → f_buf f = [] →
  wp (open_sections path (zlen (table_bytes es b)) (table_footer es b) f) (λ '(s, r) w',
    open_result es b (f_ino f) (w_disk w) s r (w_disk w')) w.
Proof.
  intros Ht Hc Hbuf. unfold open_sections. cbv zeta.
  pose proof (table_bytes_length es b) as Hlen. pose proof (tw_size _ _ Ht) as Hsz.
  destruct (footer_decode (zlen (data_bytes es)) (zlen (index_bytes (index_from 0 es)))
    (zlen (data_bytes es) + zlen (index_bytes (index_from 0 es))) (zlen (Build (table_keys es) b)) [])
    as (D1 & D2 & D3 & D4 & D5); [unfold is_u64; lia..|].
  rewrite app_nil_r in D1, D2, D3, D4, D5. unfold table_footer.
  rewrite D1, D2, D3, D4, D5, Z.eqb_refl. cbn [negb].
  apply wp_bind. eapply wp_mono; [eapply (read_block_spec (data_bytes es)); [|done|done|done|lia]|].
  { rewrite Hc. done. }
  intros [[ib|] f6] w6 (Ed6 & Ei6 & Eb6 & H6).
  2: { apply close_fail; [done|]. intros w' ->. rewrite Ed6. by apply open_failed. }
  subst ib. rewrite parse_index_bytes; [|apply index_offsets_u64; [lia|lia|apply Ht]|done].
  cbn [negb app].
  destruct (index_head_last 0 es (tw_nonempty _ _ Ht)) as (kmin & kmax & Hmin & Hmax & -> & ->).
  apply wp_bind. eapply wp_mono; [eapply (read_block_spec
    (data_bytes es ++ index_bytes (index_from 0 es))); [|done|by rewrite length_app, Nat2Z.inj_add|done|lia]|].
  { rewrite Ed6, Ei6, Hc. unfold table_bytes. cbv zeta. by rewrite <- app_assoc. }
  intros [[fb|] f7] w7 (Ed7 & Ei7 & Eb7 & H7); rewrite Ed6, Ei6 in *.
  2: { apply close_fail; [done|]. intros w' ->. rewrite Ed7. by apply open_failed. }
  subst fb. apply wp_ret. split_and!; [done| |done]. intros _.
  split_and!; cbn; [done..|]. by exists f7.
Qed.

Lemma SSTableReader_Open_spec es b i path w :
  table_wf es b → resolve (w_disk w) path = Some i → icontent (w_disk w) i = table_bytes es b →
  wp (SSTableReader_Open path) (λ '(s, r) w', w_disk w' = w_disk w ∧
    (ok s = true → reader_for es b i r) ∧ (FaultFree O → s = OK)) w.
Proof.
  intros Ht Hr Hc. unfold SSTableReader_Open. cbv zeta.
  assert (∀ s r w', w_disk w' = w_disk w → ok s = false → ¬ FaultFree O →
    open_result es b i (w_disk w) s r (w_disk w')) as Hfail.
  { intros s r w' -> ??. by apply open_failed. }
  pose proof (table_bytes_length es b) as Hlen.
  apply wp_bind. eapply wp_mono; [apply fopen_rb_spec|].
  intros [f|[]] w1 [Ed1 H1]; [|congruence|by apply wp_ret, Hfail].
  destruct H1 as (Hr1 & _ & Hb1). rewrite Hr in Hr1. injection Hr1 as ->.
  apply wp_bind. eapply wp_mono; [apply fseek_end_spec|].
  intros [bb f2] w2 (Ed2 & Ei2 & Eb2 & Hpos2 & Hff2). rewrite Hb1 in Eb2. rewrite Ed1 in *.
  destruct bb; cbn [negb].
  2: { apply close_fail; [done|]. intros w' Ed. apply Hfail; [congruence|done|].
       intros Hff. by specialize (Hff2 Hff). }
  specialize Hpos2. rewrite Hc in Hpos2.
  apply wp_bind. eapply wp_mono; [apply ftell_spec|]. intros sz w3 (Ed3 & ->). rewrite Ed2 in *.
  unfold kSSTableFooterSize. rewrite Hpos2.
  destruct (Z.ltb_spec (zlen (table_bytes es b)) 40); [lia|].
  apply wp_bind. eapply wp_mono; [apply fseek_set_spec|].
  intros [bb f4] w4 (Ed4 & Ei4 & Eb4 & Hpos4 & Hff4). rewrite Ed3, Eb2, Ei2 in *.
  destruct bb; cbn [negb].
  2: { apply close_fail; [done|]. intros w' Ed. apply Hfail; [congruence|done|].
       intros Hff. by specialize (Hff4 Hff ltac:(lia)). }
  destruct Hpos4 as [Hp4 _].
  assert (reads_at (w_disk w4) f4 (table_footer es b ++ [])) as Hr4.
  { split_and!; [|lia|done]. rewrite Hp4, Ei4, Ed4, Hc, app_nil_r. unfold table_bytes at 2. cbv zeta.
    fold (table_footer es b). rewrite !app_assoc. apply drop_zlen_app. rewrite !length_app. lia. }
  apply wp_bind. eapply wp_mono; [eapply fread_at; [done|by unfold table_footer; rewrite footer_length]|].
  intros [footer f5] w5 (Ed5 & Ei5 & Eb5 & _ & Hfull5 & Hff5). rewrite Ed4, Ei4 in *.
  change (Z.of_nat 40) with 40 in *.
  destruct (Z.eqb_spec (zlen footer) 40) as [E5|E5]; cbn [negb].
  2: { apply close_fail; [done|]. intros w' Ed. apply Hfail; [congruence|done|].
       intros Hff. by specialize (Hff5 Hff). }
  destruct (Hfull5 E5) as [-> _]. rewrite <- Ei5, <- Ed5. by apply open_sections_spec; [|rewrite Ed5, Ei5|].
Qed.
End open.
