(* ===== verification/Version.v ===== *)
(** * The version and its manifest ([include/clomdb/version.h], [src/version.cpp]) *)

From S2P Require Import Prelude Status Coding Crc32c FileSystem.

Definition kMaxLevels : nat := 6.
Definition kManifestMagic : Z := 0x436c6f6d444d4631.

(** [struct FileMetaData] *)
Record FileMetaData := mkMeta {
  number : Z; min_key : bytes; max_key : bytes; file_size : Z }.

#[global] Instance FileMetaData_eq_dec : EqDecision FileMetaData.
Proof. solve_decision. Defined.

(** [class Version] *)
Record Version := mkVersion {
  next_file_number : Z;
  levels_ : list (list FileMetaData);
}.
Definition Version_new : Version := mkVersion 1 (replicate kMaxLevels []).

(** [Level(l)]; the source indexes with [0 <= l < kMaxLevels] only. *)
Definition Level (v : Version) (level : nat) : list FileMetaData := nth level (levels_ v) [].
Definition set_Level (v : Version) (level : nat) (files : list FileMetaData) : Version :=
  mkVersion (next_file_number v) (<[level := files]> (levels_ v)).

(** The serialisation loops of [Save]. *)
Definition put_file (buf : bytes) (fm : FileMetaData) : bytes :=
  let buf := PutFixed64 buf (number fm) in
  let buf := PutFixed64 buf (file_size fm) in
  let buf := PutLengthPrefixedSlice buf (min_key fm) in
  PutLengthPrefixedSlice buf (max_key fm).
Definition put_level (buf : bytes) (files : list FileMetaData) : bytes :=
  fold_left put_file files (PutFixed32 buf (wrap32 (zlen files))).
Definition manifest_body (v : Version) : bytes :=
  let buf := PutFixed64 [] kManifestMagic in
  let buf := PutFixed64 buf (next_file_number v) in
  let buf := PutFixed32 buf (Z.of_nat kMaxLevels) in
  fold_left (λ buf lvl, put_level buf (Level v lvl)) (seq 0 kMaxLevels) buf.
Definition manifest_bytes (v : Version) : bytes :=
  PutFixed32 [] (Value (manifest_body v)) ++ manifest_body v.

(** The parsing loops of [Load], on the bytes from [p] to [limit]. *)
Definition need (p : bytes) (n : Z) : bool := n <=? zlen p.

(** [for (i = 0; i < count; i++)]: an early return on the left, the advanced
    [p] on the right, with the files pushed so far.  An iteration that does
    not return reads at least 16 bytes. *)
Fixpoint parse_files (path : bytes) (fuel : nat) (count : Z) (p : bytes)
    (files : list FileMetaData) : (Status + bytes) * list FileMetaData :=
  match fuel with
  | O => (inl (Corruption (path ++ str ": truncated file entry")), files)
  | S fuel' =>
      if count <=? 0 then (inr p, files) else
      if negb (need p 16) then (inl (Corruption (path ++ str ": truncated file entry")), files) else
      let num := DecodeFixed64 p in
      let p := drop 8 p in
      let size := DecodeFixed64 p in
      let p := drop 8 p in
      match GetLengthPrefixedSlice p with
      | None => (inl (Corruption (path ++ str ": malformed file entry")), files)
      | Some (min_k, p) =>
          match GetLengthPrefixedSlice p with
          | None => (inl (Corruption (path ++ str ": malformed file entry")), files)
          | Some (max_k, p) =>
              parse_files path fuel' (count - 1) p (files ++ [mkMeta num min_k max_k size])
          end
      end
  end.

(** [for (lvl = 0; lvl < kMaxLevels; lvl++)], [n] levels to go; after an early
    return the remaining levels are empty. *)
Fixpoint parse_levels (path : bytes) (n : nat) (p : bytes) :
    (Status + bytes) * list (list FileMetaData) :=
  match n with
  | O => (inr p, [])
  | S n' =>
      if negb (need p 4) then (inl (Corruption (path ++ str ": truncated")), replicate n [])
      else
      let count := DecodeFixed32 p in
      let p := drop 4 p in
      match parse_files path (S (length p)) count p [] with
      | (inl s, files) => (inl s, files :: replicate n' [])
      | (inr p, files) =>
          let '(r, rest) := parse_levels path n' p in (r, files :: rest)
      end
  end.

(** The part of [Load] after the checksum test; [v] is the object's prior value. *)
Definition parse_manifest (path : bytes) (body : bytes) (v : Version) : Status * Version :=
  let p := body in
  if negb (need p 8) || negb (DecodeFixed64 p =? kManifestMagic) then
    (Corruption (path ++ str ": bad magic"), v)
  else
  let p := drop 8 p in
  if negb (need p 8) then (Corruption (path ++ str ": truncated"), v) else
  let v := mkVersion (DecodeFixed64 p) (levels_ v) in
  let p := drop 8 p in
  if negb (need p 4) then (Corruption (path ++ str ": truncated"), v) else
  let num_levels := DecodeFixed32 p in
  let p := drop 4 p in
  if negb (num_levels =? Z.of_nat kMaxLevels) then
    (Corruption (path ++ str ": level count mismatch"), v)
  else
  let '(r, levels) := parse_levels path kMaxLevels p in
  let v := mkVersion (next_file_number v) levels in
  match r with inl s => (s, v) | inr _ => (OK, v) end.

Section version.
Context {O : Oracle}.

Definition tmp_of (manifest_path : bytes) : bytes := manifest_path ++ str ".tmp".

(** [bool ok = fwrite(...) == out.size(); ok = ok && fflush(f) == 0; fclose(f);] *)
Definition write_and_close (out : bytes) (f : FILE) : ST World bool :=
  '(n, f) ← fwrite out f;
  let good := n =? zlen out in
  '(good, f) ← (if good then fflush f else mret (false, f));
  fclose f;;
  mret good.

(** [Version::Save] *)
Definition Version_Save (v : Version) (manifest_path : bytes) : ST World Status :=
  let tmp_path := tmp_of manifest_path in
  r ← fopen_wb tmp_path;
  match r with
  | inr e => mret (IOError (tmp_path ++ str ": " ++ strerror e))
  | inl f =>
      good ← write_and_close (manifest_bytes v) f;
      if negb good then
        remove tmp_path;;
        mret (IOError (manifest_path ++ str ": failed writing manifest"))
      else
        renamed ← rename tmp_path manifest_path;
        if negb renamed then
          mret (IOError (manifest_path ++ str ": rename failed: " ++ strerror EIO))
        else mret OK
  end.

(** [Version::Load] on the object [v]; the object's new value is returned. *)
Definition Version_Load (v : Version) (manifest_path : bytes) : ST World (Status * Version) :=
  r ← fopen_rb manifest_path;
  match r with
  | inr ENOENT => mret (NotFound manifest_path, v)
  | inr e => mret (IOError (manifest_path ++ str ": " ++ strerror e), v)
  | inl f =>
      '(_, f) ← fseek_end f;
      sz ← ftell f;
      '(_, f) ← fseek_set 0 f;
      '(buf, f) ← fread sz f;
      fclose f;;
      if negb (zlen buf =? sz) || (sz <? 4) then
        mret (Corruption (manifest_path ++ str ": truncated manifest"), v)
      else
      let stored_crc := DecodeFixed32 buf in
      let body := drop 4 buf in
      let computed_crc := Value body in
      if negb (computed_crc =? stored_crc) then
        mret (Corruption (manifest_path ++ str ": checksum mismatch"), v)
      else mret (parse_manifest manifest_path body v)
  end.
End version.

(** ** Specification *)

(** Values representable in the manifest. *)
Definition meta_fits (fm : FileMetaData) : Prop :=
  is_u64 (number fm) ∧ is_u64 (file_size fm) ∧
  zlen (min_key fm) < 2 ^ 32 ∧ zlen (max_key fm) < 2 ^ 32.
Record version_fits (v : Version) : Prop := {
  vf_next : is_u64 (next_file_number v);
  vf_levels : length (levels_ v) = kMaxLevels;
  vf_files : Forall (λ fs, zlen fs < 2 ^ 32 ∧ Forall meta_fits fs) (levels_ v);
}.

Definition file_bytes (fm : FileMetaData) : bytes :=
  le_bytes 8 (number fm) ++ le_bytes 8 (file_size fm) ++ lp_slice (min_key fm) ++
  lp_slice (max_key fm).
Definition level_bytes (files : list FileMetaData) : bytes :=
  le_bytes 4 (wrap32 (zlen files)) ++ concat (file_bytes <$> files).

#[global] Arguments Value : simpl never.
#[global] Arguments file_bytes : simpl never.
#[global] Arguments level_bytes : simpl never.
#[global] Arguments manifest_body : simpl never.
#[global] Arguments manifest_bytes : simpl never.

(** ** Lemmas: what [Save] writes *)

Lemma put_file_bytes buf fm : put_file buf fm = buf ++ file_bytes fm.
Proof.
  unfold put_file, file_bytes, PutFixed64. cbv zeta.
  by rewrite !PutLengthPrefixedSlice_app, <- !app_assoc.
Qed.

Lemma put_files_bytes buf files :
  fold_left put_file files buf = buf ++ concat (file_bytes <$> files).
Proof.
  revert buf. induction files as [|fm files IH]; intros buf; cbn; [by rewrite app_nil_r|].
  by rewrite put_file_bytes, IH, <- app_assoc.
Qed.

Lemma put_level_bytes buf files : put_level buf files = buf ++ level_bytes files.
Proof.
  unfold put_level, level_bytes, PutFixed32. by rewrite put_files_bytes, <- app_assoc.
Qed.

Lemma manifest_body_bytes v : length (levels_ v) = kMaxLevels →
  manifest_body v = le_bytes 8 kManifestMagic ++ le_bytes 8 (next_file_number v) ++
    le_bytes 4 (Z.of_nat kMaxLevels) ++ concat (level_bytes <$> levels_ v).
Proof.
  intros Hl. unfold manifest_body. cbv zeta. unfold PutFixed64, PutFixed32.
  rewrite app_nil_l, <- !app_assoc. set (buf := le_bytes 8 kManifestMagic ++ _).
  assert (∀ buf, fold_left (λ buf lvl, put_level buf (Level v lvl)) (seq 0 kMaxLevels) buf =
    buf ++ concat (level_bytes <$> levels_ v)) as H; [|rewrite H; subst buf; by rewrite <- !app_assoc].
  clear buf. intros buf. unfold Level.
  destruct (levels_ v) as [|l0 [|l1 [|l2 [|l3 [|l4 [|l5 [|? ?]]]]]]]; try done.
  unfold kMaxLevels. cbn [seq fold_left nth]. rewrite !put_level_bytes, <- !app_assoc.
  cbn. by rewrite app_nil_r.
Qed.

(** ** Lemmas: what [Load] parses *)

Lemma drop_le n v r : drop n (le_bytes n v ++ r) = r.
Proof. rewrite drop_app_length'; [done|by rewrite le_bytes_length]. Qed.

Lemma parse_files_bytes path fuel files rest acc : Forall meta_fits files →
  (length files < fuel)%nat →
  parse_files path fuel (zlen files) (concat (file_bytes <$> files) ++ rest) acc =
  (inr rest, acc ++ files).
Proof.
  intros H. revert fuel acc. induction H as [|fm files Hfm _ IH]; intros fuel acc Hf;
    (destruct fuel as [|fuel]; [cbn in Hf; lia|]).
  { cbn. by rewrite app_nil_r. }
  destruct Hfm as (Hn & Hs & Hk1 & Hk2). cbn [length fmap list_fmap concat] in *.
  unfold file_bytes at 1. rewrite <- !app_assoc.
  cbn [parse_files]. destruct (Z.leb_spec (Z.of_nat (S (length files))) 0); [lia|]. unfold need.
  rewrite length_app, le_bytes_length, length_app, le_bytes_length.
  match goal with |- context [16 <=? ?n] => destruct (Z.leb_spec 16 n); [|lia] end. cbn [negb].
  rewrite !drop_le, !DecodeFixed64_le, !GetLengthPrefixedSlice_lp by done.
  replace (Z.of_nat (S (length files)) - 1) with (zlen files) by lia.
  rewrite IH by lia. rewrite <- app_assoc. by destruct fm.
Qed.

Lemma file_bytes_length fm : (16 ≤ length (file_bytes fm))%nat.
Proof. unfold file_bytes. rewrite !length_app, !le_bytes_length. lia. Qed.
Lemma files_bytes_length files : (length files ≤ length (concat (file_bytes <$> files)))%nat.
Proof.
  induction files as [|fm files IH]; cbn; [lia|]. rewrite length_app.
  pose proof (file_bytes_length fm). lia.
Qed.

Lemma parse_levels_bytes path levels rest :
  Forall (λ fs, zlen fs < 2 ^ 32 ∧ Forall meta_fits fs) levels →
  parse_levels path (length levels) (concat (level_bytes <$> levels) ++ rest) = (inr rest, levels).
Proof.
  induction 1 as [|fs levels [Hc Hfs] _ IH]; [done|].
  cbn [length fmap list_fmap concat]. unfold level_bytes at 1. rewrite <- !app_assoc.
  cbn [parse_levels]. unfold need.
  rewrite length_app, le_bytes_length.
  match goal with |- context [4 <=? ?n] => destruct (Z.leb_spec 4 n); [|lia] end. cbn [negb].
  rewrite drop_le, DecodeFixed32_le by apply wrap32_u32. rewrite wrap32_id by (unfold is_u32; lia).
  rewrite parse_files_bytes; [|done|].
  - cbn [app]. by rewrite IH.
  - rewrite length_app. pose proof (files_bytes_length fs). lia.
Qed.

Lemma parse_manifest_body path v v0 : version_fits v →
  parse_manifest path (manifest_body v) v0 = (OK, v).
Proof.
  intros [Hn Hl Hf]. rewrite manifest_body_bytes by done. unfold parse_manifest, need.
  rewrite !drop_le. rewrite !length_app, !le_bytes_length.
  match goal with |- context [8 <=? ?n] => destruct (Z.leb_spec 8 n); [|lia] end.
  rewrite DecodeFixed64_le by done. rewrite Z.eqb_refl. cbn [negb orb].
  match goal with |- context [8 <=? ?n] => destruct (Z.leb_spec 8 n); [|lia] end. cbn [negb].
  match goal with |- context [4 <=? ?n] => destruct (Z.leb_spec 4 n); [|lia] end. cbn [negb].
  rewrite DecodeFixed64_le, DecodeFixed32_le by done. rewrite Z.eqb_refl. cbn [negb].
  pose proof (parse_levels_bytes path (levels_ v) [] Hf) as Hp. rewrite Hl, app_nil_r in Hp.
  rewrite Hp. by destruct v.
Qed.

Lemma manifest_bytes_length v : 4 ≤ zlen (manifest_bytes v).
Proof. unfold manifest_bytes, PutFixed32. rewrite length_app, app_nil_l, le_bytes_length. lia. Qed.

Lemma manifest_bytes_split v :
  DecodeFixed32 (manifest_bytes v) = Value (manifest_body v) ∧
  drop 4 (manifest_bytes v) = manifest_body v.
Proof.
  unfold manifest_bytes, PutFixed32. rewrite app_nil_l, drop_le, DecodeFixed32_le; [done|].
  apply Value_u32.
Qed.

(** The checksum test of [Load]. *)
Definition manifest_checks (c : bytes) : bool :=
  negb (zlen c <? 4) && (Value (drop 4 c) =? DecodeFixed32 c).

Lemma manifest_bytes_checks v : manifest_checks (manifest_bytes v) = true.
Proof.
  unfold manifest_checks. destruct (manifest_bytes_split v) as [-> ->].
  rewrite Z.eqb_refl, andb_true_r. pose proof (manifest_bytes_length v).
  by destruct (Z.ltb_spec (zlen (manifest_bytes v)) 4); [lia|].
Qed.

(** A changed byte in a checked file is noticed. *)
Lemma manifest_checks_byte pre suf a b :
  manifest_checks (pre ++ a :: suf) = true → manifest_checks (pre ++ b :: suf) = true → a = b.
Proof.
  unfold manifest_checks. intros [Hl Ha%Z.eqb_eq]%andb_true_iff [_ Hb%Z.eqb_eq]%andb_true_iff.
  apply negb_true_iff, Z.ltb_ge in Hl. rewrite length_app in Hl. cbn [length] in Hl.
  destruct (decide (length pre < 4)%nat) as [Hp|Hp].
  - assert (∀ x : byte, drop 4 (pre ++ x :: suf) = drop (3 - length pre) suf) as Hd.
    { intros x. rewrite drop_app_ge by lia.
      by replace (4 - length pre)%nat with (S (3 - length pre)) by lia. }
    rewrite Hd in Ha, Hb. rewrite Ha in Hb. unfold DecodeFixed32 in Hb.
    rewrite !take_app_ge in Hb by lia.
    replace (4 - length pre)%nat with (S (3 - length pre)) in Hb by lia. cbn [take] in Hb.
    apply (f_equal (le_bytes 4)) in Hb.
    assert (∀ x : byte, le_bytes 4 (le_val (pre ++ x :: take (3 - length pre) suf)) =
      pre ++ x :: take (3 - length pre) suf) as Hle.
    { intros x. rewrite <- (le_bytes_val (pre ++ x :: _)) at 2. f_equal.
      rewrite length_app. cbn [length]. rewrite length_take. lia. }
    rewrite !Hle in Hb. apply app_inv_head in Hb. by injection Hb.
  - assert (∀ x : byte, DecodeFixed32 (pre ++ x :: suf) = DecodeFixed32 pre) as Hd.
    { intros x. unfold DecodeFixed32. by rewrite take_app_le by lia. }
    rewrite Hd in Ha, Hb. rewrite <- Hb in Ha. rewrite !drop_app_le in Ha by lia.
    by apply Value_single_byte in Ha.
Qed.

(** ** Specifications of [Save] and [Load], for every oracle *)

Lemma canon_tmp path : canon (tmp_of path) = canon path ++ str ".tmp".
Proof. apply canon_app, no_slash_spec. done. Qed.

Lemma canon_tmp_ne path : canon (tmp_of path) ≠ canon path.
Proof.
  rewrite canon_tmp. intros E. apply (f_equal length) in E. rewrite length_app in E. cbn in E. lia.
Qed.

Section version_specs.
Context {O : Oracle}.

Lemma write_and_close_spec p out f w :
  disk_wf (w_disk w) → d_files (w_disk w) !! p = Some (f_ino f) → stored (w_disk w) f [] →
  wp (write_and_close out f) (λ good w', writes p (w_disk w) (w_disk w') ∧
    (good = true → icontent (w_disk w') (f_ino f) = out) ∧ (FaultFree O → good = true)) w.
Proof.
  intros Hwf Hp Hs. unfold write_and_close.
  apply wp_bind. eapply wp_mono; [by eapply (fwrite_spec p)|].
  intros [n f2] w2 (Hw2 & Hi2 & (k & Hk & -> & Hs2) & _ & Hff2). rewrite app_nil_l in Hs2.
  rewrite <- Hi2 in *. rewrite <- (proj2 (proj2 Hw2)) in Hp. cbv zeta.
  apply wp_bind. eapply (wp_mono _ (λ '(good, f3) w3, writes p (w_disk w2) (w_disk w3) ∧
    f_ino f3 = f_ino f2 ∧ (∃ c, stored (w_disk w3) f3 c) ∧
    (good = true → f_buf f3 = [] ∧ stored (w_disk w3) f3 out) ∧ (FaultFree O → good = true))).
  { destruct (Z.eqb_spec (Z.of_nat k) (zlen out)) as [E|E].
    - apply Nat2Z.inj in E. subst k. rewrite firstn_all in Hs2.
      eapply wp_mono; [eapply fflush_spec; [apply Hw2|done|done]|].
      intros [b f3] w3 (Hw3 & Hi3 & Hs3 & _ & Hb & Hff3). split_and!; eauto.
      intros ->. by destruct (Hb eq_refl).
    - apply wp_ret. split_and!; [by split_and!; [apply Hw2|..]|done|eauto|done|].
      intros Hff. by rewrite Hff2 in E. }
  intros [good f3] w3 (Hw3 & Hi3 & [c Hs3] & Hgood & Hff3).
  rewrite <- Hi3 in *. rewrite <- (proj2 (proj2 Hw3)) in Hp.
  apply wp_bind. eapply wp_mono; [eapply fclose_spec; [apply Hw3|done|done]|].
  intros b4 w4 (Hw4 & _ & _ & _ & Hbuf & _). apply wp_ret.
  split_and!; [by do 2 (eapply writes_then; [done|])| |done].
  intros [Hb3 Hm]%Hgood. unfold stored in *. rewrite Hbuf by done. congruence.
Qed.

(** [Save] replaces the manifest in one step or leaves it alone. *)
Lemma Version_Save_spec v path w : disk_wf (w_disk w) →
  wp (Version_Save v path) (λ s w', disk_wf (w_disk w') ∧
    only_paths {[canon (tmp_of path); canon path]} (w_disk w) (w_disk w') ∧
    (if ok s then content (w_disk w') path = Some (manifest_bytes v)
     else content (w_disk w') path = content (w_disk w) path) ∧
    (FaultFree O → s = OK)) w.
Proof.
  intros Hwf. unfold Version_Save. cbv zeta. set (tmp := tmp_of path).
  assert (canon path ∉ ({[canon tmp]} : gset bytes)) as Hnin.
  { rewrite elem_of_singleton. intros E. by destruct (canon_tmp_ne path). }
  assert (∀ d', only_paths {[canon tmp]} (w_disk w) d' →
    only_paths {[canon tmp; canon path]} (w_disk w) d' ∧
    content d' path = content (w_disk w) path) as Htmp.
  { intros d' Hop. split; [eapply only_paths_mono; [done| |done]; set_solver|].
    by eapply only_paths_content. }
  apply wp_bind. eapply wp_mono; [by apply fopen_wb_spec|]. intros [f|e] w1.
  2: { intros [Ed Hff]. apply wp_ret. rewrite Ed. split_and!; [done|reflexivity|done|].
       intros Hff'. by destruct Hff. }
  intros (Hwf1 & Hop1 & Hr1 & Hs1).
  apply wp_bind. eapply wp_mono; [by eapply (write_and_close_spec (canon tmp))|].
  intros good w4 (Hw4 & Hgood & Hff4).
  assert (only_paths {[canon tmp]} (w_disk w) (w_disk w4)) as Hop4 by (etrans; [exact Hop1|apply Hw4]).
  assert (resolve (w_disk w4) tmp = Some (f_ino f)) as Hr4.
  { unfold resolve. by rewrite (proj2 (proj2 Hw4)). }
  destruct good; cbn [negb].
  - apply wp_bind. eapply wp_mono; [apply rename_spec, Hw4|].
    intros b5 w5 (Hwf5 & Hop5 & Hb5 & Hff5).
    destruct (Htmp _ Hop4) as [Hop4' Hc4]. destruct b5; cbn [negb]; apply wp_ret.
    + destruct Hb5 as (i & Hi & Ed). rewrite Hr4 in Hi. injection Hi as <-.
      split_and!; [done|by etrans| |done].
      unfold content, resolve. rewrite Ed. unfold relink. cbn. rewrite lookup_insert_eq. cbn.
      by rewrite <- Hgood.
    + rewrite Hb5. split_and!; [apply Hw4|done|done|]. intros Hff.
      discriminate Hff5; [done|]. by rewrite Hr4.
  - apply wp_bind. eapply wp_mono; [apply remove_spec, Hw4|].
    intros b5 w5 (Hwf5 & Hop5 & _ & _).
    assert (only_paths {[canon tmp]} (w_disk w) (w_disk w5)) as Hop by by etrans.
    destruct (Htmp _ Hop) as [? ?]. apply wp_ret. split_and!; [done..|].
    intros Hff. by specialize (Hff4 Hff).
Qed.

(** [Load] of a valid manifest. *)
Lemma Version_Load_spec v v0 path w : version_fits v →
  content (w_disk w) path = Some (manifest_bytes v) →
  wp (Version_Load v0 path) (λ '(s, v') w', w_disk w' = w_disk w ∧ IsNotFound s = false ∧
    (if ok s then v' = v else v' = v0) ∧ (FaultFree O → s = OK)) w.
Proof.
  intros Hf Hc. unfold Version_Load.
  assert (∃ i, resolve (w_disk w) path = Some i ∧ icontent (w_disk w) i = manifest_bytes v) as (i & Hr & Hi).
  { unfold content in Hc. destruct (resolve _ _) as [i|]; [|done]. exists i. by injection Hc. }
  apply wp_bind. eapply wp_mono; [apply fopen_rb_spec|].
  intros [f|[]] w1 [Ed1 H1]; [|congruence|apply wp_ret; rewrite Ed1; by split_and!].
  destruct H1 as (Hr1 & Hp1 & Hb1). rewrite Hr in Hr1. injection Hr1 as ->.
  apply wp_bind. eapply wp_mono; [apply fseek_end_spec|].
  intros [b2 f2] w2 (Ed2 & Ei2 & Eb2 & Hp2 & Hff2). rewrite Ed1 in *.
  apply wp_bind. eapply wp_mono; [apply ftell_spec|]. intros sz w3 [Ed3 ->]. rewrite Ed2 in *.
  apply wp_bind. eapply wp_mono; [apply fseek_set_spec|].
  intros [b4 f4] w4 (Ed4 & Ei4 & Eb4 & Hp4 & Hff4). rewrite Ed3 in *.
  apply wp_bind. eapply wp_mono; [apply fread_spec|].
  intros [buf f5] w5 (Ed5 & Ei5 & Eb5 & Ep5 & Hpre5 & Hfull5 & Hff5). rewrite Ed4 in *.
  apply wp_bind. eapply wp_mono; [apply fclose_read_spec; congruence|].
  intros b6 w6 Ed6. rewrite Ed5 in *. rewrite Ei4, Ei2, Hi in *.
  pose proof (manifest_bytes_length v) as Hlen. assert (w_disk w6 = w_disk w) as Ew by congruence.
  destruct b2.
  2: { rewrite Hp2, Hp1 in *. cbn [Z.ltb Z.compare]. rewrite orb_true_r. apply wp_ret.
       split_and!; [done|done|done|]. intros Hff. by specialize (Hff2 Hff). }
  rewrite Hp2 in *. destruct b4; [destruct Hp4 as [Hp4 _]|]; rewrite Hp4 in *.
  2: { rewrite zdrop_all in Hpre5 by lia. cbn [ztake] in Hpre5.
       apply prefix_nil_inv in Hpre5 as ->.
       destruct (Z.eqb_spec (zlen (@nil byte)) (zlen (manifest_bytes v))) as [E|_];
         [cbn [length] in E; lia|]. cbn [negb orb]. apply wp_ret. split_and!; [done|done|done|].
       intros Hff. by specialize (Hff4 Hff ltac:(lia)). }
  rewrite zdrop_nonpos, ztake_all in * by lia.
  destruct (Z.eqb_spec (zlen buf) (zlen (manifest_bytes v))) as [E|E]; cbn [negb orb].
  2: { apply wp_ret. split_and!; [done|done|done|]. intros Hff. by rewrite Hff5 in E. }
  rewrite (Hfull5 E). destruct (Z.ltb_spec (zlen (manifest_bytes v)) 4); [lia|].
  destruct (manifest_bytes_split v) as [-> ->]. rewrite Z.eqb_refl. cbn [negb].
  rewrite parse_manifest_body by done. apply wp_ret. by split_and!.
Qed.
(** [Load] without a manifest. *)
Lemma Version_Load_absent v0 path w : content (w_disk w) path = None →
  wp (Version_Load v0 path) (λ '(s, v') w', w_disk w' = w_disk w ∧ v' = v0 ∧ ok s = false ∧
    (FaultFree O → IsNotFound s = true)) w.
Proof.
  intros Hc. unfold Version_Load. apply wp_bind. eapply wp_mono; [apply fopen_rb_spec|].
  intros [f|[]] w1 [Ed1 H1].
  - destruct H1 as [Hr _]. unfold content in Hc. by rewrite Hr in Hc.
  - apply wp_ret. by split_and!.
  - apply wp_ret. by split_and!.
Qed.
End version_specs.
