(* ===== verification/DB.v ===== *)
(** * The database ([include/clomdb/db.h], [src/db.cpp])

    [DB] is the object's state; its methods are computations on that state and
    the world of files.  A method that takes the mutex for its whole body is
    one computation; the interleaving of client calls with the background
    thread is in [Concurrency].

    The loops [while (NeedsCompactionLocked(&level))] are bounded by fuel, and
    a method containing one returns [None] when the fuel runs out.  When a
    method returns a status ([Some]) is stated in [DBCorrect]. *)

From S2P Require Import Prelude Slice Status OrderedMap MemTable WriteBatch FileSystem Wal.
From S2P Require Import SSTable Version.

(** ** State *)

Record DB := mkDB {
  db_path_ : bytes;
  options_ : Options;
  memtable_ : MemTable;
  wal_ : option WriteAheadLog;
  version_ : Version;
  open_readers_ : list (list SSTableReader);
  bg_thread_ : bool;  (* joinable *)
  bg_work_requested_ : bool;
  shutting_down_ : bool;
  bg_idle_ : bool;
  closed_ : bool;
}.

(** [DB()] followed by the three assignments at the head of [Open]. *)
Definition DB_new (options : Options) (db_path : bytes) : DB :=
  mkDB db_path options MemTable_new None Version_new (replicate kMaxLevels [])
    false false false true false.

Definition set_memtable (mt : MemTable) (db : DB) : DB :=
  mkDB (db_path_ db) (options_ db) mt (wal_ db) (version_ db) (open_readers_ db)
    (bg_thread_ db) (bg_work_requested_ db) (shutting_down_ db) (bg_idle_ db) (closed_ db).
Definition set_wal (wal : WriteAheadLog) (db : DB) : DB :=
  mkDB (db_path_ db) (options_ db) (memtable_ db) (Some wal) (version_ db) (open_readers_ db)
    (bg_thread_ db) (bg_work_requested_ db) (shutting_down_ db) (bg_idle_ db) (closed_ db).
Definition set_version (v : Version) (db : DB) : DB :=
  mkDB (db_path_ db) (options_ db) (memtable_ db) (wal_ db) v (open_readers_ db)
    (bg_thread_ db) (bg_work_requested_ db) (shutting_down_ db) (bg_idle_ db) (closed_ db).
Definition set_readers (rs : list (list SSTableReader)) (db : DB) : DB :=
  mkDB (db_path_ db) (options_ db) (memtable_ db) (wal_ db) (version_ db) rs
    (bg_thread_ db) (bg_work_requested_ db) (shutting_down_ db) (bg_idle_ db) (closed_ db).
Definition set_bg (thread requested down idle : bool) (db : DB) : DB :=
  mkDB (db_path_ db) (options_ db) (memtable_ db) (wal_ db) (version_ db) (open_readers_ db)
    thread requested down idle (closed_ db).
Definition set_closed (db : DB) : DB :=
  mkDB (db_path_ db) (options_ db) (memtable_ db) (wal_ db) (version_ db) (open_readers_ db)
    (bg_thread_ db) (bg_work_requested_ db) (shutting_down_ db) (bg_idle_ db) true.

(** ** File names *)

Definition digit (d : Z) : byte := byte_of (48 + d).

(** Decimal digits of [n], most significant first; [fuel] digits at most. *)
Fixpoint decimal (fuel : nat) (n : Z) (acc : bytes) : bytes :=
  match fuel with
  | O => acc
  | S fuel' =>
      let acc := digit (n `mod` 10) :: acc in
      if n / 10 =? 0 then acc else decimal fuel' (n / 10) acc
  end.

(** [ZeroPad]: [%012llu]; twenty digits hold every 64-bit value. *)
Definition ZeroPad (n : Z) : bytes :=
  let ds := decimal 20 n [] in replicate (12 - length ds) (digit 0) ++ ds.

Definition SSTablePath (db : DB) (number : Z) : bytes :=
  db_path_ db ++ str "/" ++ ZeroPad number ++ str ".sst".
Definition WalPath (db : DB) : bytes := db_path_ db ++ str "/CURRENT.wal".
Definition ManifestPath (db : DB) : bytes := db_path_ db ++ str "/MANIFEST".

Definition kMinCompactionOutputFileBytes : Z := 2 * 1024 * 1024.

(** [static_cast<int>] of a 64-bit unsigned value. *)
Definition to_int (z : Z) : Z :=
  let z := wrap32 z in if z <? 2 ^ 31 then z else z - 2 ^ 32.

(** ** Computations on the object and the files *)

Abbreviation M := (ST (DB * World)).

Definition lift {A} (m : ST World A) : M A :=
  λ s, let '(a, w) := m s.2 in (a, (s.1, w)).
Definition this {A} (f : DB → A) : M A := gets (λ s, f s.1).
Definition update (f : DB → DB) : M () := modify (λ s, (f s.1, s.2)).

(** Readers of a level with the numbers of their files. *)
Definition numbered (files : list FileMetaData) (readers : list SSTableReader) :
    list (Z * SSTableReader) := zip (number <$> files) readers.

(** [std::sort] by file number (file numbers are distinct). *)
Definition after (a b : Z * SSTableReader) : Prop := b.1 ≤ a.1.
Definition before (a b : Z * SSTableReader) : Prop := a.1 ≤ b.1.
#[global] Instance after_dec : RelDecision after := λ a b, decide (b.1 ≤ a.1).
#[global] Instance before_dec : RelDecision before := λ a b, decide (a.1 ≤ b.1).
Definition newest_first (l : list (Z * SSTableReader)) : list SSTableReader :=
  (merge_sort after l).*2.
Definition oldest_first (l : list (Z * SSTableReader)) : list SSTableReader :=
  (merge_sort before l).*2.

Section db.
Context {O : Oracle}.

(** ** Writing a new table

    The statements that [FlushMemTableLocked] and the lambda [flush_batch] of
    [CompactLocked] share: take the next file number, write the table, fill in
    its metadata, open a reader on it. *)
Definition new_table (entries : list SSTableEntry) :
    M (Status + FileMetaData * SSTableReader) :=
  v ← this version_;
  let num := next_file_number v in
  update (set_version (mkVersion (wrap64 (num + 1)) (levels_ v)));;
  path ← this (λ db, SSTablePath db num);
  bits ← this (λ db, bloom_bits_per_key (options_ db));
  s ← lift (SSTableWriter_Write path entries bits);
  if negb (ok s) then mret (inl s) else
  size ← lift (fs_file_size path);
  let fm := mkMeta num (default [] (e_key <$> head entries))
              (default [] (e_key <$> last entries)) size in
  '(s, reader) ← lift (SSTableReader_Open path);
  if negb (ok s) then mret (inl s) else mret (inr (fm, reader)).

(** [std::make_unique<WriteAheadLog>()] and [Open(WalPath())]. *)
Definition open_wal : M Status :=
  path ← this WalPath;
  '(s, wal) ← lift (Wal_Open Wal_new path);
  update (set_wal wal);; mret s.

(** [wal_->Close()]; a null pointer does not reach this call
    ([FlushMemTableLocked] has a non-empty memtable only once [wal_] is set). *)
Definition close_wal : M Status :=
  wal ← this wal_;
  match wal with
  | None => mret OK
  | Some wal => '(s, wal) ← lift (Wal_Close wal); update (set_wal wal);; mret s
  end.

Definition save_version : M Status :=
  v ← this version_; path ← this ManifestPath; lift (Version_Save v path).

Definition mem_entry (kv : bytes * MemValue) : SSTableEntry :=
  if deleted kv.2 then mkEntry kv.1 EntryType_kDelete []
  else mkEntry kv.1 EntryType_kPut (mv_value kv.2).

(** [open_readers_[l]] and [version_.MutableLevel(l)] as assignments. *)
Definition readers_at (db : DB) (level : nat) : list SSTableReader :=
  nth level (open_readers_ db) [].
Definition set_level (level : nat) (files : list FileMetaData) (readers : list SSTableReader)
    (db : DB) : DB :=
  set_readers (<[level := readers]> (open_readers_ db))
    (set_version (set_Level (version_ db) level files) db).

(** The part of [FlushMemTableLocked] after the new table is open. *)
Definition finish_flush (fm : FileMetaData) (reader : SSTableReader) : M Status :=
  update (λ db, set_level 0 (Level (version_ db) 0 ++ [fm]) (readers_at db 0 ++ [reader]) db);;
  check save_version;;
  update (λ db, set_memtable (MemTable_Clear (memtable_ db)) db);;
  check close_wal;;
  path ← this WalPath;
  lift (remove path);;
  open_wal.

Definition FlushMemTableLocked : M Status :=
  mt ← this memtable_;
  if MemTable_empty mt then mret OK else
  let entries := mem_entry <$> table mt in
  r ← new_table entries;
  match r with
  | inl s => mret s
  | inr (fm, reader) => finish_flush fm reader
  end.

(** ** Compaction *)

Definition level_total (files : list FileMetaData) : Z :=
  fold_left (λ total fm, wrap64 (total + file_size fm)) files 0.

(** The loop over the levels from [lvl], [n] of them. *)
Fixpoint needs_compaction_from (db : DB) (n lvl : nat) (target : Z) : option nat :=
  match n with
  | 0%nat => None
  | S n' =>
      if target <? level_total (Level (version_ db) lvl) then Some lvl
      else needs_compaction_from db n' (S lvl)
             (wrap64 (target * Z.max 1 (level_size_multiplier (options_ db))))
  end.
Definition NeedsCompactionLocked (db : DB) : option nat :=
  if l0_compaction_trigger (options_ db) <=? to_int (zlen (Level (version_ db) 0)) then Some 0%nat
  else needs_compaction_from db (kMaxLevels - 2) 1 (level1_target_bytes (options_ db)).

(** [for (auto& reader : readers) { ReadAll; merged[e.key] = e }] *)
Definition merge_entries (entries : list SSTableEntry)
    (merged : list (bytes * SSTableEntry)) : list (bytes * SSTableEntry) :=
  fold_left (λ m e, omap_insert (e_key e) e m) entries merged.
Fixpoint merge_readers (readers : list SSTableReader) (merged : list (bytes * SSTableEntry)) :
    ST World (Status * list (bytes * SSTableEntry)) :=
  match readers with
  | [] => mret (OK, merged)
  | r :: readers =>
      '(s, entries) ← SSTableReader_ReadAll r;
      if negb (ok s) then mret (s, merged)
      else merge_readers readers (merge_entries entries merged)
  end.

(** The variables captured by [flush_batch]. *)
Record output := mkOutput {
  out_batch : list SSTableEntry;
  out_bytes : Z;
  new_files : list FileMetaData;
  new_readers : list SSTableReader;
}.

Definition flush_batch (o : output) : M (Status * output) :=
  match out_batch o with
  | [] => mret (OK, o)
  | batch =>
      r ← new_table batch;
      match r with
      | inl s => mret (s, o)
      | inr (fm, reader) => mret (OK, mkOutput [] 0 (new_files o ++ [fm]) (new_readers o ++ [reader]))
      end
  end.

(** [for (auto& [key, entry] : merged)] *)
Fixpoint write_merged (drop_tombstones : bool) (target_file_bytes : Z)
    (merged : list (bytes * SSTableEntry)) (o : output) : M (Status * output) :=
  match merged with
  | [] => mret (OK, o)
  | (_, e) :: merged =>
      if drop_tombstones && bool_decide (e_type e = EntryType_kDelete)
      then write_merged drop_tombstones target_file_bytes merged o
      else
        let batch_bytes := wrap64 (out_bytes o + wrap64 (zlen (e_key e) + zlen (e_value e))) in
        let o := mkOutput (out_batch o ++ [e]) batch_bytes (new_files o) (new_readers o) in
        if target_file_bytes <=? batch_bytes then
          '(s, o) ← flush_batch o;
          if negb (ok s) then mret (s, o)
          else write_merged drop_tombstones target_file_bytes merged o
        else write_merged drop_tombstones target_file_bytes merged o
  end.

Definition remove_table (num : Z) : M () :=
  path ← this (λ db, SSTablePath db num); lift (remove path);; mret ().

Definition CompactLocked (level : nat) : M Status :=
  let target_level := S level in
  if (kMaxLevels <=? target_level)%nat then mret OK else
  level_readers ← this (λ db,
    if (level =? 0)%nat then newest_first (numbered (Level (version_ db) level) (readers_at db level))
    else readers_at db level);
  next_readers ← this (λ db, readers_at db target_level);
  '(s, merged) ← lift (merge_readers next_readers []);
  if negb (ok s) then mret s else
  '(s, merged) ← lift (merge_readers (reverse level_readers) merged);
  if negb (ok s) then mret s else
  let drop_tombstones := (target_level =? kMaxLevels - 1)%nat in
  target_file_bytes ← this (λ db,
    Z.max (memtable_flush_bytes (options_ db)) kMinCompactionOutputFileBytes);
  '(s, o) ← write_merged drop_tombstones target_file_bytes merged (mkOutput [] 0 [] []);
  if negb (ok s) then mret s else
  '(s, o) ← flush_batch o;
  if negb (ok s) then mret s else
  old_numbers ← this (λ db,
    number <$> Level (version_ db) level ++ Level (version_ db) target_level);
  update (set_level level [] []);;
  update (set_level target_level (new_files o) (new_readers o));;
  check save_version;;
  for_each old_numbers remove_table;;
  mret OK.

(** [while (NeedsCompactionLocked(&level)) { s = CompactLocked(level); ... }] *)
Fixpoint compact_loop (fuel : nat) : M (option Status) :=
  need ← this NeedsCompactionLocked;
  match need with
  | None => mret (Some OK)
  | Some level =>
      match fuel with
      | 0%nat => mret None
      | S fuel' => s ← CompactLocked level; if ok s then compact_loop fuel' else mret (Some s)
      end
  end.

(** Enough for every terminating run (proved in [DBCorrect]). *)
Definition loop_fuel : nat := kMaxLevels.

Definition MaybeFlushLocked : M (option Status) :=
  db ← this id;
  s ← (if memtable_flush_bytes (options_ db) <=? ApproximateBytes (memtable_ db)
       then FlushMemTableLocked else mret OK);
  if negb (ok s) then mret (Some s) else compact_loop loop_fuel.

(** ** Client operations *)

Definition ApplyBatchLocked (batch : WriteBatch) : M Status :=
  mt ← this memtable_;
  let '(s, mt) := Iterate batch mt in
  update (set_memtable mt);; mret s.

(** [wal_->AddRecord(...)]; [wal_] is set in every object [Open] returns. *)
Definition add_record (data : bytes) (sync : bool) : M Status :=
  wal ← this wal_;
  match wal with
  | None => mret (IOError (str "WAL not open"))
  | Some wal => '(s, wal) ← lift (Wal_AddRecord wal data sync); update (set_wal wal);; mret s
  end.

Definition Write (opts : WriteOptions) (batch : WriteBatch) : M (option Status) :=
  if WriteBatch_empty batch then mret (Some OK) else
  db ← this id;
  if closed_ db then mret (Some (InvalidArgument (str "DB is closed"))) else
  s ← add_record (Data batch) (sync opts || sync_writes (options_ db));
  if negb (ok s) then mret (Some s) else
  s ← ApplyBatchLocked batch;
  if negb (ok s) then mret (Some s) else
  if background_compaction (options_ db) then
    update (λ db, set_bg (bg_thread_ db) true (shutting_down_ db) false db);; mret (Some s)
  else MaybeFlushLocked.

Definition Put (opts : WriteOptions) (key value : bytes) : M (option Status) :=
  Write opts (WriteBatch_Put WriteBatch_new key value).
Definition Delete (opts : WriteOptions) (key : bytes) : M (option Status) :=
  Write opts (WriteBatch_Delete WriteBatch_new key).

(** The loop over the L0 readers, newest first: [Some] is the early return. *)
Fixpoint probe_l0 (readers : list SSTableReader) (key value : bytes) (del : bool) :
    ST World (bool * bytes * bool) :=
  match readers with
  | [] => mret (false, value, del)
  | r :: readers =>
      '(found, value, del) ← SSTableReader_Get r key value del;
      if found : bool then mret (true, value, del) else probe_l0 readers key value del
  end.

(** The loop over one level's files, with the range check. *)
Fixpoint probe_level (files : list (FileMetaData * SSTableReader)) (key value : bytes)
    (del : bool) : ST World (bool * bytes * bool) :=
  match files with
  | [] => mret (false, value, del)
  | (fm, r) :: files =>
      if Slice_ltb key (min_key fm) || Slice_ltb (max_key fm) key
      then probe_level files key value del
      else
        '(found, value, del) ← SSTableReader_Get r key value del;
        if found : bool then mret (true, value, del) else probe_level files key value del
  end.

Fixpoint probe_levels (levels : list (list (FileMetaData * SSTableReader))) (key value : bytes)
    (del : bool) : ST World (bool * bytes * bool) :=
  match levels with
  | [] => mret (false, value, del)
  | files :: levels =>
      '(found, value, del) ← probe_level files key value del;
      if found : bool then mret (true, value, del) else probe_levels levels key value del
  end.

Definition level_files (db : DB) (lvl : nat) : list (FileMetaData * SSTableReader) :=
  zip (Level (version_ db) lvl) (readers_at db lvl).

(** [deleted ? Status::NotFound(key) : Status::OK()] *)
Definition found_status (key : bytes) (del : bool) : Status :=
  if del then NotFound key else OK.

(** [Get]: the status and the out-parameter [value]. *)
Definition Get (key value : bytes) : M (Status * bytes) :=
  db ← this id;
  if closed_ db then mret (InvalidArgument (str "DB is closed"), value) else
  let '(found, value, del) := MemTable_Get (memtable_ db) key value false in
  if found : bool then mret (found_status key del, value) else
  '(found, value, del) ← lift (probe_l0
     (newest_first (numbered (Level (version_ db) 0) (readers_at db 0))) key value del);
  if found : bool then mret (found_status key del, value) else
  '(found, value, del) ← lift (probe_levels
     (level_files db <$> seq 1 (kMaxLevels - 1)) key value del);
  if found : bool then mret (found_status key del, value) else
  mret (NotFound key, value).

(** The lambda [apply_entries] of [NewIterator]. *)
Definition apply_entry (snapshot : list (bytes * bytes)) (e : SSTableEntry) :
    list (bytes * bytes) :=
  if decide (e_type e = EntryType_kDelete) then omap_erase (e_key e) snapshot
  else omap_insert (e_key e) (e_value e) snapshot.
Fixpoint apply_readers (readers : list SSTableReader) (snapshot : list (bytes * bytes)) :
    ST World (list (bytes * bytes)) :=
  match readers with
  | [] => mret snapshot
  | r :: readers =>
      '(s, entries) ← SSTableReader_ReadAll r;
      apply_readers readers (if ok s then fold_left apply_entry entries snapshot else snapshot)
  end.
Definition apply_mem (snapshot : list (bytes * bytes)) (kv : bytes * MemValue) :
    list (bytes * bytes) :=
  if deleted kv.2 then omap_erase kv.1 snapshot else omap_insert kv.1 (mv_value kv.2) snapshot.

Definition NewIterator : M Iterator :=
  db ← this id;
  snapshot ← lift (apply_readers
    (concat ((λ lvl, readers_at db lvl) <$> reverse (seq 1 (kMaxLevels - 1)))) []);
  snapshot ← lift (apply_readers
    (oldest_first (numbered (Level (version_ db) 0) (readers_at db 0))) snapshot);
  mret (Iterator_new (fold_left apply_mem (table (memtable_ db)) snapshot)).

Definition Flush : M (option Status) :=
  s ← FlushMemTableLocked;
  if negb (ok s) then mret (Some s) else compact_loop loop_fuel.

(** [struct Stats] *)
Record Stats := mkStats {
  memtable_entries : Z; memtable_bytes : Z;
  files_per_level : list Z; bytes_per_level : list Z;
}.
Definition GetStats (db : DB) : Stats :=
  mkStats (EntryCount (memtable_ db)) (ApproximateBytes (memtable_ db))
    ((λ lvl, zlen (Level (version_ db) lvl)) <$> seq 0 kMaxLevels)
    ((λ lvl, level_total (Level (version_ db) lvl)) <$> seq 0 kMaxLevels).

(** One round of [BackgroundLoop], from the wake-up with work requested to the
    next wait. *)
Definition BackgroundRound : M (option Status) :=
  update (λ db, set_bg (bg_thread_ db) false (shutting_down_ db) (bg_idle_ db) db);;
  s ← FlushMemTableLocked;
  r ← (if ok s then compact_loop loop_fuel else mret (Some s));
  match r with
  | None => mret None
  | Some s =>
      update (λ db, set_bg (bg_thread_ db) (bg_work_requested_ db) (shutting_down_ db) true db);;
      mret (Some s)
  end.

(** [Close], up to the join: the background thread, woken with
    [shutting_down_] set, leaves its loop. *)
Definition Close_begin : M () :=
  update (λ db, set_bg (bg_thread_ db) (bg_work_requested_ db) true (bg_idle_ db) db).
Definition Close_finish : M Status :=
  update (λ db, set_bg false (bg_work_requested_ db) (shutting_down_ db) (bg_idle_ db) db);;
  s ← FlushMemTableLocked;
  ws ← close_wal;
  let s := if ok s then ws else s in
  vs ← save_version;
  let s := if ok s then vs else s in
  update set_closed;;
  mret s.
Definition Close : M Status :=
  db ← this id;
  if closed_ db then mret OK else Close_begin;; Close_finish.

(** [~DB] *)
Definition Destroy : M () :=
  db ← this id;
  if closed_ db then mret () else Close;; mret ().

(** ** Opening *)

Definition is_sst (name : bytes) : bool := bool_decide (extension name = str ".sst").

(** Removing the files the manifest does not reference. *)
Definition live_paths (db : DB) : list bytes :=
  concat ((λ lvl, (λ fm, SSTablePath db (number fm)) <$> Level (version_ db) lvl)
            <$> seq 0 kMaxLevels).
Definition sweep : M () :=
  db ← this id;
  ex ← lift (fs_exists (db_path_ db));
  if ex : bool then
    names ← lift (fs_directory_iterator (db_path_ db));
    for_each names (λ name,
      let path := path_append (db_path_ db) name in
      if is_sst name && negb (bool_decide (path ∈ live_paths db))
      then lift (remove path);; mret () else mret ())
  else mret ().

Fixpoint open_level (lvl : nat) (files : list FileMetaData) : M Status :=
  match files with
  | [] => mret OK
  | fm :: files =>
      path ← this (λ db, SSTablePath db (number fm));
      '(s, reader) ← lift (SSTableReader_Open path);
      if negb (ok s) then mret s else
      update (λ db, set_readers (<[lvl := readers_at db lvl ++ [reader]]> (open_readers_ db)) db);;
      open_level lvl files
  end.
Fixpoint open_levels (lvls : list nat) : M Status :=
  match lvls with
  | [] => mret OK
  | lvl :: lvls =>
      files ← this (λ db, Level (version_ db) lvl);
      check open_level lvl files;;
      open_levels lvls
  end.

(** The callback of the replay. *)
Definition replay_record (record : bytes) (mt : MemTable) : MemTable :=
  (Iterate (SetData WriteBatch_new record) mt).2.

(** [Open] from the construction of the object on. *)
Definition Open_object (existed : bool) : M Status :=
  db ← this id;
  '(s, v) ← lift (Version_Load (version_ db) (ManifestPath db));
  update (set_version v);;
  if negb (ok s) && negb (IsNotFound s) then mret s else
  sweep;;
  check open_levels (seq 0 kMaxLevels);;
  '(s, mt) ← lift (ReplayAll (WalPath db) replay_record (memtable_ db));
  update (set_memtable mt);;
  if negb (ok s) then mret s else
  check open_wal;;
  check (if negb existed then save_version else mret OK);;
  (if background_compaction (options_ db) then
     update (λ db, set_bg true (bg_work_requested_ db) (shutting_down_ db) (bg_idle_ db) db)
   else mret ());;
  mret OK.

Definition Open_directory (options : Options) (db_path : bytes) (existed : bool) :
    ST World Status :=
  if negb existed then
    if negb (create_if_missing options) then
      mret (InvalidArgument (db_path ++ str ": does not exist and create_if_missing is false"))
    else
      '(created, ec) ← fs_create_directories db_path;
      if negb created && ec then
        mret (IOError (db_path ++ str ": failed to create directory: " ++ strerror EIO))
      else mret OK
  else if error_if_exists options then mret (AlreadyExists db_path)
  else mret OK.

(** [DB::Open]: the status and [*dbptr].  When the object is not handed out,
    its destructor runs on the way out. *)
Definition Open (options : Options) (db_path : bytes) : ST World (Status * option DB) :=
  existed ← fs_exists db_path;
  s ← Open_directory options db_path existed;
  if negb (ok s) then mret (s, None) else
  λ w,
    let '(s, (db, w)) := Open_object existed (DB_new options db_path, w) in
    if ok s then ((OK, Some db), w)
    else let '(_, (_, w)) := Destroy (db, w) in ((s, None), w).
End db.
