(* ===== verification/DBPaths.v ===== *)
(** * The files of a database

    File numbers and file names correspond one to one, the files of one
    database directory are pairwise distinct, and none of them is the
    manifest, its temporary file or the log. *)

From S2P Require Import Prelude FileSystem Version DB.

(** ** Decimal file numbers *)

Definition undigit (b : byte) : Z := byte_val b - 48.
Definition undecimal (ds : bytes) : Z := fold_left (λ n b, 10 * n + undigit b) ds 0.

Lemma undigit_digit d : 0 ≤ d < 10 → undigit (digit d) = d.
Proof. intros. unfold undigit, digit. rewrite byte_val_of_small by lia. lia. Qed.

Lemma undecimal_app ds ds' :
  undecimal (ds ++ ds') = fold_left (λ n b, 10 * n + undigit b) ds' (undecimal ds).
Proof. unfold undecimal. by rewrite fold_left_app. Qed.

Lemma decimal_app fuel n acc : decimal fuel n acc = decimal fuel n [] ++ acc.
Proof.
  revert n acc. induction fuel as [|fuel IH]; intros n acc; [done|]. cbn.
  destruct (n / 10 =? 0); [done|]. rewrite IH, (IH _ [_]), <- app_assoc. done.
Qed.

Lemma undecimal_decimal fuel n : 0 ≤ n < 10 ^ Z.of_nat fuel → undecimal (decimal fuel n []) = n.
Proof.
  revert n. induction fuel as [|fuel IH]; intros n Hn; [cbn in *; lia|].
  cbn [decimal]. pose proof (Z.mod_pos_bound n 10 ltac:(lia)).
  destruct (Z.eqb_spec (n / 10) 0) as [E|E].
  - unfold undecimal. cbn [fold_left]. rewrite undigit_digit by done. div_lia.
  - rewrite decimal_app, undecimal_app, IH.
    + cbn [fold_left]. rewrite undigit_digit by done. div_lia.
    + rewrite Nat2Z.inj_succ, Z.pow_succ_r in Hn by lia. revert Hn.
      generalize (10 ^ Z.of_nat fuel). intros. div_lia.
Qed.

Lemma undecimal_zeros k ds : undecimal (replicate k (digit 0) ++ ds) = undecimal ds.
Proof.
  rewrite undecimal_app. replace (undecimal (replicate k (digit 0))) with 0; [done|].
  unfold undecimal. induction k as [|k IH]; [done|]. cbn. done.
Qed.

Lemma undecimal_ZeroPad n : is_u64 n → undecimal (ZeroPad n) = n.
Proof.
  intros [? ?]. unfold ZeroPad. cbv zeta. rewrite undecimal_zeros. apply undecimal_decimal. lia.
Qed.

Lemma ZeroPad_eq m n : is_u64 m → is_u64 n → ZeroPad m = ZeroPad n → m = n.
Proof. intros Hm Hn E. by rewrite <- (undecimal_ZeroPad m), E, undecimal_ZeroPad. Qed.

Lemma digit_not d c : 0 ≤ d < 10 → (byte_val c < 48 ∨ 57 < byte_val c) → digit d ≠ c.
Proof. intros Hd Hc E. rewrite <- E in Hc. unfold digit in Hc. rewrite byte_val_of_small in Hc; lia. Qed.

Lemma decimal_digits fuel n : Forall (λ c, ∃ d, 0 ≤ d < 10 ∧ c = digit d) (decimal fuel n []).
Proof.
  revert n. induction fuel as [|fuel IH]; intros n; [constructor|]. cbn.
  pose proof (Z.mod_pos_bound n 10 ltac:(lia)).
  destruct (n / 10 =? 0); [eauto 10 using Forall_cons|].
  rewrite decimal_app. apply Forall_app. eauto 10.
Qed.

Lemma ZeroPad_digits n : Forall (λ c, ∃ d, 0 ≤ d < 10 ∧ c = digit d) (ZeroPad n).
Proof.
  unfold ZeroPad. apply Forall_app. split; [|apply decimal_digits].
  apply Forall_replicate. exists 0. split; [lia|done].
Qed.

Lemma ZeroPad_ascii n c : c ∈ ZeroPad n → 48 ≤ byte_val c ≤ 57.
Proof.
  pose proof (ZeroPad_digits n) as H. rewrite Forall_forall in H. intros (d & Hd & ->)%H.
  unfold digit. rewrite byte_val_of_small; lia.
Qed.

(** ** Names and paths *)

(** The file names, relative to the directory. *)
Definition sst_name (n : Z) : bytes := ZeroPad n ++ str ".sst".
Definition wal_name : bytes := str "CURRENT.wal".
Definition manifest_name : bytes := str "MANIFEST".
Definition in_dir (path name : bytes) : bytes := path ++ str "/" ++ name.

Definition sst_path (path : bytes) (n : Z) : bytes := in_dir path (sst_name n).
Definition wal_path (path : bytes) : bytes := in_dir path wal_name.
Definition manifest_path (path : bytes) : bytes := in_dir path manifest_name.

Lemma SSTablePath_eq db n : SSTablePath db n = sst_path (db_path_ db) n.
Proof. done. Qed.
Lemma WalPath_eq db : WalPath db = wal_path (db_path_ db).
Proof. done. Qed.
Lemma ManifestPath_eq db : ManifestPath db = manifest_path (db_path_ db).
Proof. done. Qed.

Definition dir_prefix (path : bytes) : bytes := canon (path ++ [slash]).

Lemma canon_in_dir path name : slash ∉ name → canon (in_dir path name) = dir_prefix path ++ name.
Proof.
  intros H. unfold in_dir, dir_prefix. change (str "/") with [slash].
  by rewrite app_assoc, canon_app.
Qed.

Lemma sst_name_no_slash n : slash ∉ sst_name n.
Proof.
  unfold sst_name. rewrite elem_of_app. intros [H%ZeroPad_ascii|H].
  - unfold byte_val in H. cbn in H. lia.
  - revert H. apply no_slash_spec. done.
Qed.

Lemma canon_sst path n : canon (sst_path path n) = dir_prefix path ++ sst_name n.
Proof. apply canon_in_dir, sst_name_no_slash. Qed.
Lemma canon_wal path : canon (wal_path path) = dir_prefix path ++ wal_name.
Proof. apply canon_in_dir, no_slash_spec. done. Qed.
Lemma canon_manifest path : canon (manifest_path path) = dir_prefix path ++ manifest_name.
Proof. apply canon_in_dir, no_slash_spec. done. Qed.
Lemma canon_manifest_tmp path :
  canon (tmp_of (manifest_path path)) = dir_prefix path ++ manifest_name ++ str ".tmp".
Proof. by rewrite canon_tmp, canon_manifest, <- app_assoc. Qed.

Lemma sst_path_inj path m n : is_u64 m → is_u64 n →
  canon (sst_path path m) = canon (sst_path path n) → m = n.
Proof.
  intros Hm Hn. rewrite !canon_sst. intros E%app_inv_head. unfold sst_name in E.
  apply app_inv_tail in E. by apply ZeroPad_eq.
Qed.

(** A table's name starts with a digit, the others with a letter. *)
Lemma sst_name_first n c rest : sst_name n = c :: rest → 48 ≤ byte_val c ≤ 57.
Proof.
  intros E. apply (ZeroPad_ascii n). unfold sst_name in E.
  destruct (ZeroPad n) as [|c' l] eqn:Ez.
  - exfalso. unfold ZeroPad in Ez. cbv zeta in Ez. apply app_eq_nil in Ez as [H1 H2].
    rewrite H2 in H1. done.
  - injection E as -> _. set_solver.
Qed.

Definition not_digit_first (name : bytes) : bool :=
  match name with c :: _ => (byte_val c <? 48) || (57 <? byte_val c) | [] => true end.
Lemma sst_name_ne n name : not_digit_first name = true → sst_name n ≠ name.
Proof.
  intros H E. destruct name as [|c rest].
  - unfold sst_name in E. by apply app_eq_nil in E as [_ ?].
  - apply sst_name_first in E. cbn in H. lia.
Qed.

(** The manifest and its temporary file. *)
Definition manifest_files (path : bytes) : gset bytes :=
  {[canon (tmp_of (manifest_path path)); canon (manifest_path path)]}.

Lemma sst_not_manifest path n : canon (sst_path path n) ∉ manifest_files path.
Proof.
  unfold manifest_files. rewrite canon_sst, canon_manifest, canon_manifest_tmp.
  rewrite not_elem_of_union, !not_elem_of_singleton.
  split; intros E%app_inv_head; revert E; by apply sst_name_ne.
Qed.
Lemma sst_not_wal path n : canon (sst_path path n) ≠ canon (wal_path path).
Proof. rewrite canon_sst, canon_wal. intros E%app_inv_head. revert E. by apply sst_name_ne. Qed.
Lemma wal_not_manifest path : canon (wal_path path) ∉ manifest_files path.
Proof.
  unfold manifest_files. rewrite canon_wal, canon_manifest, canon_manifest_tmp.
  rewrite not_elem_of_union, !not_elem_of_singleton.
  split; intros E%app_inv_head; done.
Qed.
Lemma manifest_not_sst path n :
  canon (manifest_path path) ∉ ({[canon (sst_path path n)]} : gset bytes).
Proof.
  rewrite elem_of_singleton. intros E. apply (sst_not_manifest path n). rewrite <- E.
  unfold manifest_files. set_solver.
Qed.
Lemma manifest_not_wal path :
  canon (manifest_path path) ∉ ({[canon (wal_path path)]} : gset bytes).
Proof.
  rewrite elem_of_singleton. intros E. apply (wal_not_manifest path). rewrite <- E.
  unfold manifest_files. set_solver.
Qed.

#[global] Arguments sst_path : simpl never.
#[global] Arguments wal_path : simpl never.
#[global] Arguments manifest_path : simpl never.
#[global] Arguments manifest_files : simpl never.
#[global] Arguments ZeroPad : simpl never.
