(* ===== verification/Layers.v ===== *)
(** * Layers: what the parts of the tree say about each key

    A memtable or a table is a [layer]; newer layers shadow older ones, so a
    stack of layers is their left-biased union, and the contents of the
    database are the live bindings of that union. *)

From S2P Require Import Prelude Slice OrderedMap MemTable WriteBatch SSTable SSTableSpec Version.

(** The live bindings of a layer. *)
Definition live (l : layer) : gmap bytes bytes := omap id l.

(** A layer without its tombstones. *)
Definition drop_deleted (l : layer) : layer := filter (λ kv, kv.2 ≠ None) l.

(** A stack, top first. *)
Definition stack (ls : list layer) : layer := ⋃ ls.

(** A table: its entries and the filter parameter it was written with. *)
Record tbl := mkTbl { t_entries : list SSTableEntry; t_bits : Z }.
Definition tbl_layer (t : tbl) : layer := table_layer (t_entries t).
Definition tbl_bytes (t : tbl) : bytes := table_bytes (t_entries t) (t_bits t).
Definition tbl_wf (t : tbl) : Prop := table_wf (t_entries t) (t_bits t).
#[global] Arguments tbl_layer : simpl never.

(** The tables of a level in the order a lookup visits them. *)
Definition level_order {A} (l : nat) (ts : list A) : list A :=
  if (l =? 0)%nat then reverse ts else ts.
Definition search_order {A} (tabs : nat → list A) : list A :=
  concat ((λ l, level_order l (tabs l)) <$> seq 0 kMaxLevels).
Definition tables_layer (tabs : nat → list tbl) : layer := stack (tbl_layer <$> search_order tabs).

(** ** Lemmas: live bindings *)

Lemma live_lookup l k : live l !! k = l !! k ≫= id.
Proof. unfold live. by rewrite lookup_omap. Qed.

Lemma live_empty : live ∅ = ∅.
Proof. apply omap_empty. Qed.

Lemma live_union_lookup a b k :
  live (a ∪ b) !! k = match a !! k with Some x => x | None => live b !! k end.
Proof. rewrite !live_lookup, lookup_union. by destruct (a !! k), (b !! k). Qed.

(** Contents only depend on the live part of what is shadowed. *)
Lemma live_union_r a b b' : live b = live b' → live (a ∪ b) = live (a ∪ b').
Proof. intros E. apply map_eq. intros k. by rewrite !live_union_lookup, E. Qed.

Lemma drop_deleted_lookup l k : drop_deleted l !! k = l !! k ≫= λ x, x ≫= λ v, Some (Some v).
Proof.
  unfold drop_deleted. rewrite map_lookup_filter.
  destruct (l !! k) as [[v|]|]; cbn; by try case_guard.
Qed.

Lemma live_drop_deleted l : live (drop_deleted l) = live l.
Proof.
  apply map_eq. intros k. rewrite !live_lookup, drop_deleted_lookup. by destruct (l !! k) as [[]|].
Qed.

(** An operation on the top layer is the operation on the contents. *)
Lemma live_layer_op l o : live (layer_op l o) = map_op (live l) o.
Proof.
  destruct o as [k v|k]; cbn; apply map_eq; intros k'; destruct (decide (k = k')) as [<-|].
  - by rewrite live_lookup, !lookup_insert_eq.
  - by rewrite live_lookup, !lookup_insert_ne, live_lookup.
  - by rewrite live_lookup, lookup_insert_eq, lookup_delete_eq.
  - by rewrite live_lookup, lookup_insert_ne, lookup_delete_ne, live_lookup.
Qed.

Lemma layer_op_union a b o : layer_op a o ∪ b = layer_op (a ∪ b) o.
Proof. destruct o; cbn; by rewrite insert_union_l. Qed.

Lemma layer_ops_union ops a b : fold_left layer_op ops a ∪ b = fold_left layer_op ops (a ∪ b).
Proof. revert a. induction ops as [|o ops IH]; intros a; [done|]. cbn. by rewrite IH, layer_op_union. Qed.

Lemma live_layer_ops ops l : live (fold_left layer_op ops l) = fold_left map_op ops (live l).
Proof. revert l. induction ops as [|o ops IH]; intros l; [done|]. cbn. by rewrite IH, live_layer_op. Qed.

(** A write at the top of a stack. *)
Lemma live_ops_union ops a b :
  live (fold_left layer_op ops a ∪ b) = fold_left map_op ops (live (a ∪ b)).
Proof. by rewrite layer_ops_union, live_layer_ops. Qed.

(** Moving the top layer [m] down below the log [w]: nothing changes if both
    give the same contents over [t]. *)
Lemma live_push w m t : live (w ∪ t) = live (m ∪ t) → live (w ∪ (m ∪ t)) = live (m ∪ t).
Proof.
  intros E. apply map_eq. intros k. pose proof (f_equal (lookup k) E) as Ek.
  rewrite !live_union_lookup in *. by destruct (w !! k).
Qed.

(** ** Lemmas: stacks *)

Lemma stack_app a b : stack (a ++ b) = stack a ∪ stack b.
Proof.
  unfold stack. induction a as [|l a IH]; cbn; [by rewrite (left_id_L ∅ (∪))|].
  by rewrite IH, (assoc_L (∪)).
Qed.
Lemma stack_cons a b : stack (a :: b) = a ∪ stack b.
Proof. done. Qed.
Lemma stack_nil : stack [] = ∅.
Proof. done. Qed.

Lemma stack_lookup ls k : stack ls !! k = head (omap (λ l : layer, l !! k) ls).
Proof.
  induction ls as [|l ls IH]; [apply lookup_empty|]. rewrite stack_cons, lookup_union, IH. cbn.
  destruct (l !! k); [by rewrite union_Some_l|]. by rewrite option_union_left_id.
Qed.

(** ** Lemmas: tables side by side *)

Lemma table_layer_app es1 es2 : table_layer (es1 ++ es2) = table_layer es1 ∪ table_layer es2.
Proof. unfold table_layer. by rewrite fmap_app, list_to_map_app. Qed.
Lemma table_layer_nil : table_layer [] = ∅.
Proof. done. Qed.

(** A run of tables is one big table. *)
Definition all_entries (ts : list tbl) : list SSTableEntry := concat (t_entries <$> ts).

Lemma stack_tables ts : stack (tbl_layer <$> ts) = table_layer (all_entries ts).
Proof.
  induction ts as [|t ts IH]; [done|].
  cbn [fmap list_fmap]. rewrite stack_cons, IH. unfold all_entries. cbn.
  symmetry. apply table_layer_app.
Qed.

Lemma all_entries_app a b : all_entries (a ++ b) = all_entries a ++ all_entries b.
Proof. unfold all_entries. by rewrite fmap_app, concat_app. Qed.

Lemma table_keys_app a b : table_keys (a ++ b) = table_keys a ++ table_keys b.
Proof. apply fmap_app. Qed.

Lemma sorted_keys_NoDup ks : StronglySorted key_lt ks → NoDup ks.
Proof.
  induction 1 as [|k ks _ IH Hk]; constructor; [|done].
  intros Hin. rewrite Forall_forall in Hk. apply Hk in Hin. by apply key_lt_irrefl in Hin.
Qed.

(** The order of tables with distinct keys does not matter. *)
Lemma table_layer_perm es1 es2 : NoDup (table_keys es1) → es1 ≡ₚ es2 →
  table_layer es1 = table_layer es2.
Proof.
  intros Hn Hp. unfold table_layer. apply list_to_map_proper; [|by rewrite Hp].
  rewrite <- list_fmap_compose. done.
Qed.

Lemma stack_perm ts1 ts2 : NoDup (table_keys (all_entries ts1)) → ts1 ≡ₚ ts2 →
  stack (tbl_layer <$> ts1) = stack (tbl_layer <$> ts2).
Proof.
  intros Hn Hp. rewrite !stack_tables. apply table_layer_perm; [done|].
  unfold all_entries. by rewrite Hp.
Qed.

(** ** Lemmas: the search order *)

Lemma search_order_elem {A} (tabs : nat → list A) t :
  t ∈ search_order tabs ↔ ∃ l, (l < kMaxLevels)%nat ∧ t ∈ tabs l.
Proof.
  unfold search_order. rewrite list_elem_of_In, in_concat. setoid_rewrite <- list_elem_of_In.
  setoid_rewrite list_elem_of_fmap. setoid_rewrite elem_of_seq. split.
  - intros (x & (l & -> & Hl) & Ht). exists l. split; [lia|].
    unfold level_order in Ht. destruct (l =? 0)%nat; [by apply elem_of_reverse|done].
  - intros (l & Hl & Ht). eexists. split; [exists l; split; [done|lia]|].
    unfold level_order. destruct (l =? 0)%nat; [by apply elem_of_reverse|done].
Qed.

Lemma search_order_0 {A} (tabs : nat → list A) :
  search_order tabs = reverse (tabs 0%nat) ++ concat (tabs <$> seq 1 (kMaxLevels - 1)).
Proof. done. Qed.

(** Levels [l] and [l + 1] are adjacent. *)
Lemma search_order_split {A} (tabs : nat → list A) l : (S l < kMaxLevels)%nat →
  search_order tabs =
    concat ((λ l, level_order l (tabs l)) <$> seq 0 l) ++ level_order l (tabs l) ++ tabs (S l) ++
    concat ((λ l, level_order l (tabs l)) <$> seq (S (S l)) (kMaxLevels - S (S l))).
Proof.
  intros Hl. unfold search_order.
  replace kMaxLevels with (l + S (S (kMaxLevels - S (S l))))%nat at 1 by lia.
  rewrite seq_app, fmap_app, concat_app. cbn. done.
Qed.

(** ** Sizes *)

Definition weight (e : SSTableEntry) : Z := 64 + 2 * zlen (e_key e) + 2 * zlen (e_value e).
Fixpoint weights (es : list SSTableEntry) : Z :=
  match es with [] => 0 | e :: es => weight e + weights es end.

(** The largest total weight of a database considered: 64 GiB. *)
Definition max_weight : Z := 2 ^ 36.

Lemma weight_pos e : 64 ≤ weight e.
Proof. unfold weight. lia. Qed.
Lemma weights_nonneg es : 0 ≤ weights es.
Proof. induction es as [|e es IH]; cbn; [lia|]. pose proof (weight_pos e). lia. Qed.
Lemma weights_app a b : weights (a ++ b) = weights a + weights b.
Proof. induction a as [|e a IH]; cbn; [done|]. rewrite IH. lia. Qed.
Lemma weights_count es : 64 * zlen es ≤ weights es.
Proof. induction es as [|e es IH]; cbn [length weights]; [lia|]. pose proof (weight_pos e). lia. Qed.
Lemma weights_perm a b : a ≡ₚ b → weights a = weights b.
Proof. induction 1; cbn; lia. Qed.
Lemma weights_filter P `{!∀ e, Decision (P e)} es : weights (filter P es) ≤ weights es.
Proof.
  induction es as [|e es IH]; [done|]. rewrite filter_cons. pose proof (weight_pos e).
  destruct (decide (P e)); cbn [weights]; lia.
Qed.
Lemma weights_elem e es : e ∈ es → weight e ≤ weights es.
Proof.
  induction 1 as [e es|e e' es _ IH]; cbn; [pose proof (weights_nonneg es)|pose proof (weight_pos e')]; lia.
Qed.
#[global] Arguments weight : simpl never.

Lemma entry_bytes_weight e : entry_wf e → zlen (entry_bytes e) + 13 + zlen (e_key e) ≤ weight e.
Proof.
  intros (Hk & Hv & _). unfold entry_bytes, weight. cbn [length]. rewrite !length_app.
  pose proof (Coding.varint_bytes_length 4 (zlen (e_key e))).
  pose proof (Coding.varint_bytes_length 4 (zlen (e_value e))).
  destruct (decide _); rewrite ?length_app; cbn [length]; lia.
Qed.

Lemma index_bytes_cons ko idx : index_bytes (ko :: idx) = index_entry_bytes ko ++ index_bytes idx.
Proof. done. Qed.

Lemma section_weight off es : Forall entry_wf es →
  zlen (data_bytes es) + zlen (index_bytes (index_from off es)) ≤ weights es.
Proof.
  intros H. revert off. induction H as [|e es He _ IH]; intros off; [done|].
  cbn [index_from weights]. rewrite data_bytes_cons, index_bytes_cons, !length_app.
  specialize (IH (off + zlen (entry_bytes e))). pose proof (entry_bytes_weight e He).
  unfold index_entry_bytes. cbn [fst snd]. rewrite !length_app, Coding.le_bytes_length.
  pose proof (Coding.varint_bytes_length 4 (zlen (e_key e))). lia.
Qed.

(** Any sorted non-empty run of entries within the limits is a table. *)
Lemma table_wf_of es b : es ≠ [] → StronglySorted key_lt (table_keys es) → Forall entry_wf es →
  weights es ≤ max_weight → 0 ≤ b < 2 ^ 31 → table_wf es b.
Proof.
  intros Hne Hs He Hw Hb. unfold max_weight in Hw. pose proof (weights_count es).
  assert (Bloom.bloom_fits (zlen es) b) as Hbl by (split; nia). split; [done..| |done].
  rewrite table_bytes_length. pose proof (section_weight 0 es He).
  assert (Bloom.bloom_fits (zlen (table_keys es)) b) as Hbl' by (by rewrite table_keys_length).
  rewrite (Bloom.Build_length _ _ Hbl').
  pose proof (Bloom.bloom_bytes_fits (zlen (table_keys es)) b ltac:(lia) Hbl') as (_ & _ & Hle).
  rewrite table_keys_length in *. assert (zlen es * b ≤ 2 ^ 61) by nia.
  assert ((zlen es * b) `div` 8 ≤ 2 ^ 58) by div_lia. lia.
Qed.
