(* ===== verification/DBInv.v ===== *)
(** * Invariants of an open database

    [db_ok db tabs d]: the object and the files of disk [d] agree, the tables
    of level [l] being [tabs l].  [durable db tabs d]: what the manifest and
    the log on [d] describe is the object's contents.  Neither mentions the
    oracle: the operations preserve them under every sequence of failures. *)

From S2P Require Import Prelude Slice Status OrderedMap MemTable WriteBatch FileSystem Wal.
From S2P Require Import SSTable SSTableSpec Version DB DBPaths Layers.

(** ** Rules for computations on the object *)

Section rules.
Implicit Types (db : DB) (w : World).

Lemma wp_lift {A} (m : ST World A) (Q : A → DB * World → Prop) db w :
  wp m (λ a w', Q a (db, w')) w → wp (lift m) Q (db, w).
Proof. unfold wp, lift. cbn. by destruct (m w). Qed.
Lemma wp_this {A} (f : DB → A) (Q : A → DB * World → Prop) db w :
  Q (f db) (db, w) → wp (this f) Q (db, w).
Proof. done. Qed.
Lemma wp_update f (Q : () → DB * World → Prop) db w : Q () (f db, w) → wp (update f) Q (db, w).
Proof. done. Qed.
End rules.

(** Take the next step of a block: bind, then the rule [lem]. *)
Ltac step lem := apply wp_bind; eapply wp_mono; [eapply lem|].
Ltac step_this := apply wp_bind, wp_this.
Ltac step_update := apply wp_bind, wp_update.

(** ** Tables on disk *)

(** The file of [fm] holds the table [t]. *)
Record file_ok (d : Disk) (path : bytes) (fm : FileMetaData) (t : tbl) : Prop := {
  fo_wf : tbl_wf t;
  fo_min : head (table_keys (t_entries t)) = Some (min_key fm);
  fo_max : last (table_keys (t_entries t)) = Some (max_key fm);
  fo_size : is_u64 (file_size fm);
  fo_content : content d (sst_path path (number fm)) = Some (tbl_bytes t);
}.

(** The reader [r] is open on it. *)
Definition reader_ok (d : Disk) (path : bytes) (fm : FileMetaData) (t : tbl) (r : SSTableReader) :
    Prop :=
  ∃ i, resolve d (sst_path path (number fm)) = Some i ∧
    reader_for (t_entries t) (t_bits t) i r.

(** The tables of a version: every file is there, file numbers are below the
    next one and belong to one level only, L0 is in order of age, and the
    tables of a deeper level have increasing disjoint key ranges. *)
Record tables_ok (d : Disk) (path : bytes) (v : Version) (tabs : nat → list tbl) : Prop := {
  to_len : length (levels_ v) = kMaxLevels;
  to_next : is_u64 (next_file_number v);
  to_files l : Forall2 (file_ok d path) (Level v l) (tabs l);
  to_number l fm : fm ∈ Level v l → 0 ≤ number fm < next_file_number v;
  to_level l l' fm fm' : fm ∈ Level v l → fm' ∈ Level v l' → number fm = number fm' → l = l';
  to_l0 : StronglySorted Z.lt (number <$> Level v 0);
  to_sorted l : (0 < l)%nat → StronglySorted key_lt (table_keys (all_entries (tabs l)));
}.

(** ** The object *)

Definition wal_ok (db : DB) (d : Disk) : Prop :=
  ∃ wal, wal_ db = Some wal ∧
    (file_ wal = None ∨ ∃ c, wal_at (canon (wal_path (db_path_ db))) wal d c).

(** The log accepts records. *)
Definition wal_open (db : DB) : Prop := ∃ wal f, wal_ db = Some wal ∧ file_ wal = Some f.

Definition options_ok (o : Options) : Prop := 0 ≤ bloom_bits_per_key o < 2 ^ 31.

Definition mem_entries (mt : MemTable) : list SSTableEntry := mem_entry <$> table mt.

Record db_ok (db : DB) (tabs : nat → list tbl) (d : Disk) : Prop := {
  ok_disk : disk_wf d;
  ok_options : options_ok (options_ db);
  ok_mem : mem_wf (memtable_ db);
  ok_mem_entries : Forall entry_wf (mem_entries (memtable_ db));
  ok_tables : tables_ok d (db_path_ db) (version_ db) tabs;
  ok_readers_len : length (open_readers_ db) = kMaxLevels;
  ok_readers l : Forall3 (reader_ok d (db_path_ db)) (Level (version_ db) l) (tabs l)
                   (readers_at db l);
  ok_wal : wal_ok db d;
}.

(** The contents of the database: what a client reads. *)
Definition contents (db : DB) (tabs : nat → list tbl) : gmap bytes bytes :=
  live (mem_layer (memtable_ db) ∪ tables_layer tabs).

(** ** Sizes *)

Definition tables_weight (tabs : nat → list tbl) : Z := weights (all_entries (search_order tabs)).

(** ** What the disk remembers *)

(** The operations a replay of the log file content [c] applies. *)
Definition wal_ops (c : bytes) : list op := concat (decoded_ops <$> records c).
Definition wal_layer (c : bytes) : layer := fold_left layer_op (wal_ops c) ∅.
Definition wal_content (d : Disk) (path : bytes) : bytes :=
  file_content d (canon (wal_path path)).

Record persisted (d : Disk) (path : bytes) (v : Version) (tabs : nat → list tbl) : Prop := {
  pe_manifest : content d (manifest_path path) = Some (manifest_bytes v) ∨
    content d (manifest_path path) = None ∧ v = Version_new;
  pe_fits : version_fits v;
  pe_tables : tables_ok d path v tabs;
  pe_weight : tables_weight tabs ≤ max_weight;
}.

(** What a recovery from [d] finds. *)
Definition recovered (d : Disk) (path : bytes) (tabs : nat → list tbl) : gmap bytes bytes :=
  live (wal_layer (wal_content d path) ∪ tables_layer tabs).
Definition recoverable (d : Disk) (path : bytes) (m : gmap bytes bytes) : Prop :=
  ∃ v tabs, persisted d path v tabs ∧ recovered d path tabs = m.

(** The log holds the records [rs] and nothing else, nothing is buffered; it
    may have been closed (then no write succeeds). *)
Definition wal_clean (db : DB) (d : Disk) (rs : list bytes) : Prop :=
  Forall (λ r, zlen r < 2 ^ 32) rs ∧ wal_content d (db_path_ db) = log_of rs ∧
  ∃ wal, wal_ db = Some wal ∧
    (file_ wal = None ∨ wal_flushed (canon (wal_path (db_path_ db))) wal d (log_of rs)).

Definition durable (db : DB) (tabs : nat → list tbl) (d : Disk) : Prop :=
  ∃ v ptabs rs,
    persisted d (db_path_ db) v ptabs ∧
    next_file_number v ≤ next_file_number (version_ db) ∧
    wal_clean db d rs ∧
    live (wal_layer (log_of rs) ∪ tables_layer ptabs) = contents db tabs ∧
    live (wal_layer (log_of rs) ∪ tables_layer tabs) = contents db tabs.

(** Within the limits the development considers: 64 GiB of entries, and file
    numbers that cannot overflow. *)
Definition within_limits (db : DB) (tabs : nat → list tbl) : Prop :=
  weights (mem_entries (memtable_ db)) + tables_weight tabs ≤ max_weight ∧
  next_file_number (version_ db) ≤ 2 ^ 62.

(** ** Growth

    What an operation that does not fail may add: entries are only written by
    clients, a call uses up a bounded number of file numbers, and the log of an
    empty memtable has nothing to replay. *)
Definition total (db : DB) (tabs : nat → list tbl) : Z :=
  weights (mem_entries (memtable_ db)) + tables_weight tabs.
Definition logless (db : DB) (d : Disk) : Prop :=
  MemTable_empty (memtable_ db) = true → wal_ops (wal_content d (db_path_ db)) = [].

(** More than a flush and every round of compaction use up. *)
Definition number_stride : Z := 2 ^ 34.

Record modest (extra stride : Z) (db : DB) (tabs : nat → list tbl) (d : Disk)
    (db' : DB) (tabs' : nat → list tbl) (d' : Disk) : Prop := {
  mo_total : total db' tabs' ≤ total db tabs + extra;
  mo_next : next_file_number (version_ db') ≤ next_file_number (version_ db) + stride;
  mo_log : durable db tabs d → logless db d → logless db' d';
}.

Lemma modest_mono extra n n' db tabs d db' tabs' d' : n ≤ n' →
  modest extra n db tabs d db' tabs' d' → modest extra n' db tabs d db' tabs' d'.
Proof. intros ? []. split; [done|lia|done]. Qed.

(** ** Lemmas: levels of a version *)

Lemma Level_set_eq v l files : (l < length (levels_ v))%nat → Level (set_Level v l files) l = files.
Proof. intros H. unfold Level, set_Level. cbn. by rewrite nth_lookup, list_lookup_insert_eq. Qed.
Lemma Level_set_ne v l l' files : l ≠ l' → Level (set_Level v l files) l' = Level v l'.
Proof. intros H. unfold Level, set_Level. cbn. by rewrite !nth_lookup, list_lookup_insert_ne. Qed.
Lemma Level_out v l : length (levels_ v) = kMaxLevels → (kMaxLevels ≤ l)%nat → Level v l = [].
Proof. intros Hl H. unfold Level. apply nth_overflow. lia. Qed.
Lemma Level_next v n l : Level (mkVersion n (levels_ v)) l = Level v l.
Proof. done. Qed.

Lemma readers_set_eq db l files rs : (l < length (open_readers_ db))%nat →
  readers_at (set_level l files rs db) l = rs.
Proof. intros H. unfold readers_at, set_level. cbn. by rewrite nth_lookup, list_lookup_insert_eq. Qed.
Lemma readers_set_ne db l l' files rs : l ≠ l' →
  readers_at (set_level l files rs db) l' = readers_at db l'.
Proof. intros H. unfold readers_at, set_level. cbn. by rewrite !nth_lookup, list_lookup_insert_ne. Qed.

(** The tables of one level replaced. *)
Definition set_tabs (l : nat) (ts : list tbl) (tabs : nat → list tbl) : nat → list tbl :=
  λ l', if decide (l = l') then ts else tabs l'.
Lemma set_tabs_eq l ts tabs : set_tabs l ts tabs l = ts.
Proof. unfold set_tabs. by rewrite decide_True. Qed.
Lemma set_tabs_ne l l' ts tabs : l ≠ l' → set_tabs l ts tabs l' = tabs l'.
Proof. intros. unfold set_tabs. by rewrite decide_False. Qed.

(** ** Lemmas: frames *)

Lemma file_ok_frame P d d' path fm t : disk_wf d → only_paths P d d' →
  canon (sst_path path (number fm)) ∉ P → file_ok d path fm t → file_ok d' path fm t.
Proof.
  intros Hwf Hop Hn [? ? ? ? Hc]. split; [done..|]. by rewrite (only_paths_content P d).
Qed.

Lemma reader_ok_frame P d d' path fm t r : only_paths P d d' →
  canon (sst_path path (number fm)) ∉ P → reader_ok d path fm t r → reader_ok d' path fm t r.
Proof.
  intros Hop Hn (i & Hi & Hr). exists i. split; [|done].
  unfold resolve in *. by rewrite (op_files _ _ _ Hop).
Qed.

Lemma Forall3_impl' {A B C} (P Q : A → B → C → Prop) l k k' :
  Forall3 P l k k' → (∀ x y z, x ∈ l → P x y z → Q x y z) → Forall3 Q l k k'.
Proof.
  induction 1 as [|x y z l k k' Hp _ IH]; intros Hi; constructor.
  - apply Hi; [set_solver|done].
  - apply IH. intros. apply Hi; [set_solver|done].
Qed.
Lemma Forall2_impl_elem {A B} (P Q : A → B → Prop) l k :
  Forall2 P l k → (∀ x y, x ∈ l → P x y → Q x y) → Forall2 Q l k.
Proof.
  induction 1 as [|x y l k Hp _ IH]; intros Hi; constructor.
  - apply Hi; [set_solver|done].
  - apply IH. intros. apply Hi; [set_solver|done].
Qed.

(** [P] avoids the files of the version. *)
Definition avoids (P : gset bytes) (path : bytes) (v : Version) : Prop :=
  ∀ l fm, fm ∈ Level v l → canon (sst_path path (number fm)) ∉ P.

Lemma tables_ok_frame P d d' path v tabs : disk_wf d → only_paths P d d' → avoids P path v →
  tables_ok d path v tabs → tables_ok d' path v tabs.
Proof.
  intros Hwf Hop Hav [? ? Hf ? ? ? ?]. split; [done..| |done|done|done|done].
  intros l. eapply Forall2_impl_elem; [apply Hf|]. intros fm t Hin.
  eapply file_ok_frame; [done..|]. by eapply Hav.
Qed.

Lemma tables_ok_bump d path v tabs n : tables_ok d path v tabs → next_file_number v ≤ n → is_u64 n →
  tables_ok d path (mkVersion n (levels_ v)) tabs.
Proof.
  intros [? ? Hf Hn ? ? ?] Hle Hu. split; try done. intros l fm Hin%Hn. cbn. lia.
Qed.

Lemma avoids_manifest path v : avoids (manifest_files path) path v.
Proof. intros l fm _. apply sst_not_manifest. Qed.
Lemma avoids_wal path v : avoids {[canon (wal_path path)]} path v.
Proof. intros l fm _. rewrite elem_of_singleton. apply sst_not_wal. Qed.

(** A file number not below the version's is free. *)
Lemma avoids_new d path v tabs n : tables_ok d path v tabs → is_u64 n → next_file_number v ≤ n →
  avoids {[canon (sst_path path n)]} path v.
Proof.
  intros Ht Hu Hn l fm Hin. rewrite elem_of_singleton. intros E.
  pose proof (to_number _ _ _ _ Ht l fm Hin) as Hb. pose proof (to_next _ _ _ _ Ht) as Hx.
  unfold is_u64 in *. apply sst_path_inj in E; unfold is_u64; lia.
Qed.

Lemma persisted_frame P d d' path v tabs : disk_wf d → only_paths P d d' → avoids P path v →
  canon (manifest_path path) ∉ P → persisted d path v tabs → persisted d' path v tabs.
Proof.
  intros Hwf Hop Hav Hm [Hman ? ? ?]. split; [|done|by eapply tables_ok_frame|done].
  by rewrite (only_paths_content P d).
Qed.

Lemma file_content_frame P d d' p : disk_wf d → only_paths P d d' → p ∉ P →
  file_content d' p = file_content d p.
Proof.
  intros Hwf Hop Hp. unfold file_content. rewrite (op_files _ _ _ Hop) by done.
  destruct (d_files d !! p) as [i|] eqn:E; [|done]. cbn. unfold icontent.
  by destruct (only_paths_file P d d' p i) as [_ ->].
Qed.

Lemma wal_at_frame P d d' p wal c : disk_wf d → only_paths P d d' → p ∉ P →
  wal_at p wal d c → wal_at p wal d' c.
Proof.
  intros Hwf Hop Hp (f & Hf & Hi & Hs). exists f.
  destruct (only_paths_file P d d' p _ Hwf Hop Hp Hi) as [Hi' Hc]. split_and!; [done..|].
  unfold stored, icontent in *. by rewrite Hc.
Qed.
Lemma wal_flushed_frame P d d' p wal c : disk_wf d → only_paths P d d' → p ∉ P →
  wal_flushed p wal d c → wal_flushed p wal d' c.
Proof.
  intros Hwf Hop Hp (f & Hf & Hi & Hb & Hs). exists f.
  destruct (only_paths_file P d d' p _ Hwf Hop Hp Hi) as [Hi' Hc]. split_and!; [done..|].
  unfold icontent in *. by rewrite Hc.
Qed.

Lemma wal_ok_frame P db d d' : disk_wf d → only_paths P d d' →
  canon (wal_path (db_path_ db)) ∉ P → wal_ok db d → wal_ok db d'.
Proof.
  intros Hwf Hop Hp (wal & Hw & [Hf|[c Hc]]); exists wal; (split; [done|]); [by left|right].
  exists c. by eapply wal_at_frame.
Qed.

Lemma wal_clean_frame P db d d' rs : disk_wf d → only_paths P d d' →
  canon (wal_path (db_path_ db)) ∉ P → wal_clean db d rs → wal_clean db d' rs.
Proof.
  intros Hwf Hop Hp (Hrs & Hc & wal & Hw & Hfl). split_and!; [done| |].
  - unfold wal_content in *. by rewrite (file_content_frame P d).
  - exists wal. split; [done|]. destruct Hfl; [by left|right]. by eapply wal_flushed_frame.
Qed.

Lemma db_ok_frame P db tabs d d' : disk_wf d' → only_paths P d d' →
  avoids P (db_path_ db) (version_ db) → canon (wal_path (db_path_ db)) ∉ P →
  db_ok db tabs d → db_ok db tabs d'.
Proof.
  intros Hwf' Hop Hav Hw [Hd Ho ? ? Ht ? Hr Hwal]. split; try done.
  - by eapply tables_ok_frame.
  - intros l. eapply Forall3_impl'; [apply Hr|]. intros fm t r Hin.
    eapply reader_ok_frame; [done|]. by eapply Hav.
  - by eapply wal_ok_frame.
Qed.

(** ** Lemmas: the version fits its manifest *)

Lemma all_entries_count ts : Forall tbl_wf ts → zlen ts ≤ zlen (all_entries ts).
Proof.
  induction 1 as [|t ts Ht _ IH]; [done|]. unfold all_entries in *. cbn.
  rewrite length_app. pose proof (tw_nonempty _ _ Ht).
  destruct (t_entries t); [done|]. cbn [length]. lia.
Qed.

Lemma weights_level tabs l : (l < kMaxLevels)%nat →
  weights (all_entries (tabs l)) ≤ tables_weight tabs.
Proof.
  intros Hl. unfold tables_weight, search_order.
  replace kMaxLevels with (l + S (kMaxLevels - S l))%nat by lia.
  rewrite seq_app, fmap_app, concat_app. cbn. rewrite !all_entries_app, !weights_app.
  assert (weights (all_entries (level_order l (tabs l))) = weights (all_entries (tabs l))) as ->.
  { apply weights_perm. unfold all_entries, level_order.
    destruct (l =? 0)%nat; [by rewrite reverse_Permutation|done]. }
  pose proof (weights_nonneg (all_entries (concat ((λ l, level_order l (tabs l)) <$> seq 0 l)))).
  match goal with |- context [_ + (_ + weights ?x)] => pose proof (weights_nonneg x) end. lia.
Qed.

Lemma file_ok_keys d path fm t : file_ok d path fm t →
  zlen (min_key fm) < 2 ^ 32 ∧ zlen (max_key fm) < 2 ^ 32.
Proof.
  intros [Hwf Hmin Hmax _ _]. pose proof (tw_entries _ _ Hwf) as He. rewrite Forall_forall in He.
  assert (∀ k, k ∈ table_keys (t_entries t) → zlen k < 2 ^ 32) as Hk.
  { intros k (e & -> & Hin)%list_elem_of_fmap. by destruct (He e Hin). }
  split; apply Hk; [by apply head_Some_elem_of|by apply last_Some_elem_of].
Qed.

Lemma version_fits_of d path v tabs : tables_ok d path v tabs → tables_weight tabs ≤ max_weight →
  version_fits v.
Proof.
  intros Ht Hw. pose proof (to_len _ _ _ _ Ht) as Hl. split; [apply Ht|done|].
  apply Forall_lookup. intros l fs Hfs. pose proof (lookup_lt_Some _ _ _ Hfs) as Hlt.
  assert (Level v l = fs) as <- by (unfold Level; by apply nth_lookup_Some).
  pose proof (to_files _ _ _ _ Ht l) as Hf. split.
  - rewrite (Forall2_length _ _ _ Hf). pose proof (weights_level tabs l ltac:(lia)).
    pose proof (weights_count (all_entries (tabs l))).
    pose proof (all_entries_count (tabs l)) as Hc. unfold max_weight in *.
    enough (zlen (tabs l) ≤ zlen (all_entries (tabs l))) by lia. apply Hc.
    apply Forall_lookup. intros i t Hi. by destruct (Forall2_lookup_r _ _ _ _ _ Hf Hi) as (? & _ & []).
  - apply Forall_lookup. intros i fm Hi. destruct (Forall2_lookup_l _ _ _ _ _ Hf Hi) as (t & _ & Hfm).
    destruct (file_ok_keys _ _ _ _ Hfm). split_and!; [|by destruct Hfm|done|done].
    apply list_elem_of_lookup_2 in Hi. apply (to_number _ _ _ _ Ht) in Hi.
    pose proof (to_next _ _ _ _ Ht). unfold is_u64 in *. lia.
Qed.
