(* ===== verification/DBFlush.v ===== *)
(** * Flushing the memtable

    Specifications of the helpers that write a table, save the manifest and
    rotate the log, and of [FlushMemTableLocked]: whatever fails, the contents
    do not change and stay durable. *)

From S2P Require Import Prelude Slice Status OrderedMap MemTable WriteBatch FileSystem Wal.
From S2P Require Import SSTable SSTableSpec Version DB DBPaths Layers DBInv.

(** What no maintenance operation changes. *)
Record same_config (db db' : DB) : Prop := {
  sc_path : db_path_ db' = db_path_ db;
  sc_options : options_ db' = options_ db;
  sc_thread : bg_thread_ db' = bg_thread_ db;
  sc_requested : bg_work_requested_ db' = bg_work_requested_ db;
  sc_down : shutting_down_ db' = shutting_down_ db;
  sc_idle : bg_idle_ db' = bg_idle_ db;
  sc_closed : closed_ db' = closed_ db;
}.
#[global] Instance same_config_refl : Reflexive same_config.
Proof. done. Qed.
#[global] Instance same_config_trans : Transitive same_config.
Proof. intros a b c [] []. split; congruence. Qed.

(** The log file is as before, or has been emptied. *)
Definition kept_log (d d' : Disk) (path : bytes) : Prop :=
  wal_content d' path = wal_content d path ∨ wal_content d' path = [].

(** The relation between the states before and after maintenance. *)
Record maintained (db : DB) (tabs : nat → list tbl) (d : Disk)
    (db' : DB) (tabs' : nat → list tbl) (d' : Disk) : Prop := {
  ma_config : same_config db db';
  ma_ok : db_ok db' tabs' d';
  ma_contents : contents db' tabs' = contents db tabs;
  ma_durable : durable db tabs d → durable db' tabs' d';
  ma_log : durable db tabs d → kept_log d d' (db_path_ db);
}.

Lemma maintained_refl db tabs d : db_ok db tabs d → maintained db tabs d db tabs d.
Proof. intros Hok. split; [done..|]. by left. Qed.
Lemma maintained_trans db1 t1 d1 db2 t2 d2 db3 t3 d3 :
  maintained db1 t1 d1 db2 t2 d2 → maintained db2 t2 d2 db3 t3 d3 → maintained db1 t1 d1 db3 t3 d3.
Proof.
  intros [Hc ? E1 D1 K1] [? ? E2 D2 K2]. split; [by etrans|done|by rewrite E2|auto|].
  intros Hd. specialize (K1 Hd). specialize (K2 (D1 Hd)). rewrite (sc_path _ _ Hc) in K2.
  unfold kept_log in *. destruct K1 as [<-|], K2 as [->| ->]; auto.
Qed.

(** A log that stays clean has not changed. *)
Lemma clean_kept_log db tabs d db' d' : db_path_ db' = db_path_ db →
  (∀ rs, wal_clean db d rs → wal_clean db' d' rs) → durable db tabs d → kept_log d d' (db_path_ db).
Proof.
  intros Ep H (v & ptabs & rs & _ & _ & Hc & _). left. pose proof (H rs Hc) as (_ & E' & _).
  destruct Hc as (_ & E & _). rewrite Ep in E'. congruence.
Qed.

(** ** Lemmas: updates of the object *)

Definition bump (db : DB) : DB :=
  set_version (mkVersion (next_file_number (version_ db) + 1) (levels_ (version_ db))) db.

Lemma bump_u64 db n : next_file_number (version_ db) ≤ n → n < 2 ^ 63 →
  0 ≤ next_file_number (version_ db) → is_u64 (next_file_number (version_ db) + 1).
Proof. unfold is_u64. lia. Qed.

Lemma db_ok_bump db tabs d : is_u64 (next_file_number (version_ db) + 1) →
  db_ok db tabs d → db_ok (bump db) tabs d.
Proof.
  intros Hu [? ? ? ? Ht ? ? ?]. split; try done.
  eapply tables_ok_bump; [done|lia|done].
Qed.

Lemma maintained_bump db tabs d : is_u64 (next_file_number (version_ db) + 1) →
  db_ok db tabs d → maintained db tabs d (bump db) tabs d.
Proof.
  intros Hu Hok. split; [done|by apply db_ok_bump|done| |by left].
  intros (v & ptabs & rs & ? & ? & ? & ? & ?). exists v, ptabs, rs. split_and!; try done. cbn. lia.
Qed.

Lemma maintained_frame P db tabs d d' : disk_wf d' → only_paths P d d' →
  avoids P (db_path_ db) (version_ db) → canon (wal_path (db_path_ db)) ∉ P →
  canon (manifest_path (db_path_ db)) ∉ P →
  (∀ v ptabs, persisted d (db_path_ db) v ptabs →
     next_file_number v ≤ next_file_number (version_ db) → avoids P (db_path_ db) v) →
  db_ok db tabs d → maintained db tabs d db tabs d'.
Proof.
  intros Hwf' Hop Hav Hw Hm Hpav Hok. pose proof (ok_disk _ _ _ Hok) as Hd.
  split; [done|by eapply db_ok_frame|done| |].
  2: { apply (clean_kept_log _ _ _ db); [done|]. intros rs. by eapply wal_clean_frame. }
  intros (v & ptabs & rs & Hp & Hn & Hc & E1 & E2). exists v, ptabs, rs. split_and!; [|done| |done|done].
  - eapply persisted_frame; [exact Hd|done| |done|done]. by eapply Hpav.
  - by eapply wal_clean_frame.
Qed.

(** ** Lemmas: the memtable as a table *)

Lemma mem_entries_keys mt : table_keys (mem_entries mt) = (table mt).*1.
Proof.
  unfold table_keys, mem_entries. rewrite <- list_fmap_compose. apply list_fmap_ext.
  intros i [k mv] _. cbn. unfold mem_entry. cbn. by destruct (deleted mv).
Qed.

Lemma mem_entries_sorted mt : mem_wf mt → StronglySorted key_lt (table_keys (mem_entries mt)).
Proof. intros (H & _). by rewrite mem_entries_keys. Qed.

Lemma mem_entries_layer mt : table_layer (mem_entries mt) = mem_layer mt.
Proof.
  unfold table_layer, mem_layer, mem_entries, omap_to_gmap. rewrite <- list_to_map_fmap. f_equal.
  rewrite <- list_fmap_compose. apply list_fmap_ext. intros i [k mv] _. cbn.
  unfold mem_entry, mv_opt. cbn. by destruct (deleted mv).
Qed.

Lemma mem_entries_nil mt : mem_entries mt = [] ↔ MemTable_empty mt = true.
Proof.
  rewrite MemTable_empty_true. unfold mem_entries. split; [apply fmap_nil_inv|by intros ->].
Qed.

Lemma mem_layer_clear mt : mem_layer (MemTable_Clear mt) = ∅.
Proof. done. Qed.

(** ** Lemmas: a new table at the end of L0 *)

Definition push_tab (t : tbl) (tabs : nat → list tbl) : nat → list tbl :=
  set_tabs 0 (tabs 0%nat ++ [t]) tabs.

Lemma search_order_push t tabs : search_order (push_tab t tabs) = t :: search_order tabs.
Proof. rewrite !search_order_0. unfold push_tab. rewrite set_tabs_eq, reverse_snoc. done. Qed.

Lemma tables_layer_push t tabs : tables_layer (push_tab t tabs) = tbl_layer t ∪ tables_layer tabs.
Proof. unfold tables_layer. by rewrite search_order_push. Qed.

Lemma tables_weight_push t tabs :
  tables_weight (push_tab t tabs) = weights (t_entries t) + tables_weight tabs.
Proof. unfold tables_weight. rewrite search_order_push. unfold all_entries. cbn. apply weights_app. Qed.

Lemma StronglySorted_snoc {A} (R : A → A → Prop) l x :
  StronglySorted R l → Forall (λ y, R y x) l → StronglySorted R (l ++ [x]).
Proof.
  induction 1 as [|y l _ IH Hy]; cbn; intros Hx; [repeat constructor|].
  apply Forall_cons in Hx as [? ?]. constructor; [by apply IH|]. apply Forall_app. eauto.
Qed.

Lemma tables_ok_push d path v tabs fm t : tables_ok d path v tabs →
  (∀ l fm', fm' ∈ Level v l → number fm' < number fm) → 0 ≤ number fm < next_file_number v →
  file_ok d path fm t →
  tables_ok d path (set_Level v 0 (Level v 0 ++ [fm])) (push_tab t tabs).
Proof.
  intros [Hl Hn Hf Hnum Hlev Hl0 Hs] Hlt Hb Hfm.
  assert (0 < length (levels_ v))%nat as Hl' by (rewrite Hl; unfold kMaxLevels; lia).
  assert (∀ l fm', fm' ∈ Level (set_Level v 0 (Level v 0 ++ [fm])) l →
    fm' ∈ Level v l ∨ l = 0%nat ∧ fm' = fm) as Hin.
  { intros [|l] fm'; [rewrite Level_set_eq by done; set_solver|rewrite Level_set_ne by done; auto]. }
  split; [by cbn; rewrite length_insert|done|..].
  - intros [|l]; unfold push_tab.
    + rewrite Level_set_eq, set_tabs_eq by done. apply Forall2_app; [apply Hf|by constructor].
    + rewrite Level_set_ne, set_tabs_ne by done. apply Hf.
  - intros l fm' [?|[-> ->]]%Hin; [by eapply Hnum|done].
  - intros l l' fm1 fm2 [H1|[-> ->]]%Hin [H2|[-> ->]]%Hin E; [by eapply Hlev| | |done].
    + apply Hlt in H1. lia.
    + apply Hlt in H2. lia.
  - rewrite Level_set_eq, fmap_app by done. apply StronglySorted_snoc; [done|].
    apply Forall_fmap, Forall_forall. intros fm'. apply Hlt.
  - intros [|l] Hl1; [lia|]. unfold push_tab. rewrite set_tabs_ne by lia. by apply Hs.
Qed.

Definition push_l0 (fm : FileMetaData) (rd : SSTableReader) (db : DB) : DB :=
  set_level 0 (Level (version_ db) 0 ++ [fm]) (readers_at db 0 ++ [rd]) db.

Lemma db_ok_push db tabs d fm t rd : db_ok db tabs d →
  is_u64 (next_file_number (version_ db) + 1) → number fm = next_file_number (version_ db) →
  file_ok d (db_path_ db) fm t → reader_ok d (db_path_ db) fm t rd →
  db_ok (push_l0 fm rd (bump db)) (push_tab t tabs) d.
Proof.
  intros Hok Hu Hn Hfm Hrd. pose proof (db_ok_bump _ _ _ Hu Hok) as [? ? ? ? Ht Hlen Hr ?].
  destruct Hok as [_ _ _ _ Ht0 _ _ _]. split; try done.
  - apply tables_ok_push; [done| | |done].
    + intros l fm' Hin. apply (to_number _ _ _ _ Ht0) in Hin. lia.
    + rewrite Hn. pose proof (to_next _ _ _ _ Ht0) as Hx. unfold is_u64 in Hx. cbn. lia.
  - unfold push_l0. cbn. by rewrite length_insert.
  - unfold push_l0. intros l.
    assert (0 < length (levels_ (version_ (bump db))))%nat as Hl'
      by (rewrite (to_len _ _ _ _ Ht); unfold kMaxLevels; lia).
    assert (0 < length (open_readers_ (bump db)))%nat by (rewrite Hlen; unfold kMaxLevels; lia).
    unfold push_tab. destruct l as [|l].
    + rewrite readers_set_eq by done. cbn [version_ set_level set_version set_readers].
      rewrite Level_set_eq, set_tabs_eq by done. apply Forall3_app; [apply Hr|by constructor; [|constructor]].
    + rewrite readers_set_ne by done. cbn [version_ set_level set_version set_readers].
      rewrite Level_set_ne, set_tabs_ne by done. apply Hr.
Qed.

(** Pushing the memtable's own table changes nothing a reader can see. *)
Lemma maintained_push db tabs d fm t rd : db_ok db tabs d →
  is_u64 (next_file_number (version_ db) + 1) → number fm = next_file_number (version_ db) →
  file_ok d (db_path_ db) fm t → reader_ok d (db_path_ db) fm t rd →
  tbl_layer t = mem_layer (memtable_ db) →
  maintained db tabs d (push_l0 fm rd (bump db)) (push_tab t tabs) d.
Proof.
  intros Hok Hu Hn Hfm Hrd Ht. split; [done|by apply db_ok_push| | |by left].
  - unfold contents. rewrite tables_layer_push, Ht. cbn.
    by rewrite (assoc_L (∪)), map_union_idemp.
  - assert (contents (push_l0 fm rd (bump db)) (push_tab t tabs) = contents db tabs) as E.
    { unfold contents. rewrite tables_layer_push, Ht. cbn. by rewrite (assoc_L (∪)), map_union_idemp. }
    intros (v & ptabs & rs & Hp & Hnx & Hc & E1 & E2). exists v, ptabs, rs. rewrite E.
    split_and!; [done|cbn; lia|done|done|]. unfold contents in *.
    rewrite tables_layer_push, Ht. by apply live_push.
Qed.

(** Once its table is in L0 the memtable can go. *)
Lemma maintained_clear db tabs d T : db_ok db tabs d →
  tables_layer tabs = mem_layer (memtable_ db) ∪ T →
  maintained db tabs d (set_memtable (MemTable_Clear (memtable_ db)) db) tabs d.
Proof.
  intros Hok HT.
  assert (contents (set_memtable (MemTable_Clear (memtable_ db)) db) tabs = contents db tabs) as E.
  { unfold contents. cbn [memtable_ set_memtable]. rewrite mem_layer_clear, (left_id_L ∅ (∪)).
    by rewrite HT, (assoc_L (∪)), map_union_idemp. }
  split; [done| |done| |by left].
  - destruct Hok. split; try done. apply mem_wf_new.
  - intros (v & ptabs & rs & ? & ? & ? & ? & ?). exists v, ptabs, rs. by rewrite E.
Qed.

(** ** Specifications *)

Section flush.
Context {O : Oracle}.
Implicit Types (db : DB) (w : World).

Lemma new_table_spec es db w : disk_wf (w_disk w) →
  tbl_wf (mkTbl es (bloom_bits_per_key (options_ db))) →
  is_u64 (next_file_number (version_ db) + 1) →
  wp (new_table es) (λ r '(db', w'), db' = bump db ∧ disk_wf (w_disk w') ∧
    only_paths {[canon (sst_path (db_path_ db) (next_file_number (version_ db)))]}
      (w_disk w) (w_disk w') ∧
    match r with
    | inl s => ok s = false ∧ ¬ FaultFree O
    | inr (fm, rd) => number fm = next_file_number (version_ db) ∧
        let t := mkTbl es (bloom_bits_per_key (options_ db)) in
        file_ok (w_disk w') (db_path_ db) fm t ∧ reader_ok (w_disk w') (db_path_ db) fm t rd
    end) (db, w).
Proof.
  intros Hwf Ht Hu. unfold new_table. step_this. cbv zeta. step_update.
  rewrite wrap64_id by done. fold (bump db). step_this. step_this. cbn [options_ bump set_version].
  rewrite SSTablePath_eq. cbn [db_path_ bump set_version].
  set (n := next_file_number (version_ db)). set (path := sst_path (db_path_ db) n).
  apply wp_bind, wp_lift. eapply wp_mono; [by apply SSTableWriter_Write_spec|].
  intros s w1 (Hwf1 & Hop1 & Hc1 & Hff1). destruct (ok s) eqn:Es; cbn [negb].
  2: { apply wp_ret. split_and!; [done..|]. intros Hff. by rewrite Hff1 in Es. }
  specialize (Hc1 eq_refl).
  assert (∃ i, resolve (w_disk w1) path = Some i ∧
    icontent (w_disk w1) i = tbl_bytes (mkTbl es (bloom_bits_per_key (options_ db)))) as (i & Hi & Hic).
  { unfold content in Hc1. destruct (resolve _ _) as [i|]; [|done]. exists i. by injection Hc1. }
  apply wp_bind, wp_lift. eapply wp_mono; [apply fs_file_size_spec|]. intros sz w2 Hsz.
  assert (w_disk w2 = w_disk w1 ∧ is_u64 sz) as [Ed2 Hsz'].
  { destruct Hsz as [?|[? (c & Hc & ->)]]; [done|]. split; [done|]. rewrite Hc1 in Hc. injection Hc as <-.
    pose proof (tw_size _ _ Ht). cbn [t_entries t_bits] in *. unfold is_u64. lia. }
  cbv zeta. apply wp_bind, wp_lift. eapply wp_mono; [eapply SSTableReader_Open_spec|].
  { exact Ht. } { by rewrite Ed2. } { by rewrite Ed2. }
  intros [s3 rd] w3 (Ed3 & Hrd & Hff3). rewrite Ed2 in *. destruct (ok s3) eqn:Es3; cbn [negb]; apply wp_ret.
  2: { rewrite Ed3. split_and!; [done..|]. intros Hff. by rewrite Hff3 in Es3. }
  rewrite Ed3. split_and!; [done|done|done|done| |exists i; split; [done|by apply Hrd]].
  specialize (Hrd eq_refl). destruct Hrd as (_ & _ & Hmin & Hmax & _). unfold table_keys in Hmin, Hmax.
  split; cbn [min_key max_key t_entries number file_size]; [done| | |done|done]; unfold table_keys.
  - by destruct es.
  - rewrite fmap_last. destruct (last es) eqn:E; [done|].
    apply last_None in E. by destruct (tw_nonempty _ _ Ht).
Qed.

(** Saving the version of a database whose tables are all on disk. *)
Lemma save_version_spec db tabs w : db_ok db tabs (w_disk w) → tables_weight tabs ≤ max_weight →
  wp save_version (λ s '(db', w'), db' = db ∧ maintained db tabs (w_disk w) db tabs (w_disk w') ∧
    (ok s = true → persisted (w_disk w') (db_path_ db) (version_ db) tabs) ∧
    only_paths (manifest_files (db_path_ db)) (w_disk w) (w_disk w') ∧
    (FaultFree O → s = OK)) (db, w).
Proof.
  intros Hok Hwt. unfold save_version. step_this. step_this. rewrite ManifestPath_eq.
  pose proof (ok_disk _ _ _ Hok) as Hd.
  apply wp_lift. eapply wp_mono; [by apply Version_Save_spec|].
  intros s w' (Hwf' & Hop & Hc & Hff). fold (manifest_files (db_path_ db)) in Hop.
  assert (db_ok db tabs (w_disk w')) as Hok'.
  { eapply db_ok_frame; [done|done|apply avoids_manifest|apply wal_not_manifest|done]. }
  assert (ok s = true → persisted (w_disk w') (db_path_ db) (version_ db) tabs) as Hper.
  { intros Hs. rewrite Hs in Hc. split; [by left| |apply Hok'|done].
    eapply version_fits_of; [apply Hok'|done]. }
  split_and!; [done| |done|done|done]. split; [done|done|done| |].
  2: { apply (clean_kept_log _ _ _ db); [done|]. intros rs Hcl. eapply wal_clean_frame; [exact Hd|done|apply wal_not_manifest|done]. }
  intros (v & ptabs & rs & Hp & Hn & Hcl & E1 & E2).
  assert (wal_clean db (w_disk w') rs) as Hcl'.
  { eapply wal_clean_frame; [exact Hd|done|apply wal_not_manifest|done]. }
  destruct (ok s) eqn:Es.
  - exists (version_ db), tabs, rs. split_and!; [by apply Hper|lia|done|done|done].
  - exists v, ptabs, rs. split_and!; [|done..]. destruct Hp as [Hman Hfit Htab Hpw].
    split; [by rewrite Hc|done| |done]. eapply tables_ok_frame; [exact Hd|done|apply avoids_manifest|done].
Qed.

(** ** The log handle *)

Lemma wal_at_flushed p wal d c c' : wal_at p wal d c → wal_flushed p wal d c' → c = c'.
Proof.
  intros (f & Hf & _ & Hs) (f' & Hf' & _ & Hb & Hc). rewrite Hf in Hf'. injection Hf' as <-.
  unfold stored in Hs. rewrite Hb, app_nil_r in Hs. congruence.
Qed.

Lemma db_ok_set_wal db tabs d d' wal : db_ok db tabs d → disk_wf d' →
  only_paths {[canon (wal_path (db_path_ db))]} d d' →
  (file_ wal = None ∨ ∃ c, wal_at (canon (wal_path (db_path_ db))) wal d' c) →
  db_ok (set_wal wal db) tabs d'.
Proof.
  intros [Hd ? ? ? Ht ? Hr _] Hwf' Hop Hw. split; try done.
  - eapply tables_ok_frame; [exact Hd|done|apply avoids_wal|done].
  - intros l. eapply Forall3_impl'; [apply Hr|]. intros fm t r Hin.
    eapply reader_ok_frame; [done|]. by eapply avoids_wal.
  - by exists wal.
Qed.

Lemma durable_set_wal db tabs d d' wal : disk_wf d →
  only_paths {[canon (wal_path (db_path_ db))]} d d' →
  (∀ rs, wal_clean db d rs → wal_clean (set_wal wal db) d' rs) →
  durable db tabs d → durable (set_wal wal db) tabs d'.
Proof.
  intros Hd Hop Hcl (v & ptabs & rs & Hp & Hn & Hc & E1 & E2). exists v, ptabs, rs.
  split_and!; [|done|by apply Hcl|done|done].
  eapply persisted_frame; [exact Hd|done|apply avoids_wal|apply manifest_not_wal|done].
Qed.

Lemma close_wal_spec db tabs w : db_ok db tabs (w_disk w) →
  wp close_wal (λ s '(db', w'), ∃ wal, file_ wal = None ∧ db' = set_wal wal db ∧
    maintained db tabs (w_disk w) db' tabs (w_disk w') ∧
    only_paths {[canon (wal_path (db_path_ db))]} (w_disk w) (w_disk w') ∧
    (FaultFree O → s = OK)) (db, w).
Proof.
  intros Hok. pose proof (ok_disk _ _ _ Hok) as Hd.
  destruct (ok_wal _ _ _ Hok) as (wal & Hw & Hcase). unfold close_wal. step_this. rewrite Hw.
  set (p := canon (wal_path (db_path_ db))) in *.
  apply wp_bind, wp_lift. destruct Hcase as [Hf|[c Hat]].
  - unfold Wal_Close. rewrite Hf. apply wp_ret. step_update. apply wp_ret.
    exists wal. split_and!; [done|done| |done|done]. split; [done| |done| |by left].
    + apply db_ok_set_wal with (d := w_disk w); [done|done|done|by left].
    + apply durable_set_wal; [done|done|]. intros rs (? & ? & wal' & E & ?).
      split_and!; [done..|]. exists wal. by split; [|left].
  - eapply wp_mono; [by eapply Wal_Close_spec|].
    intros [s wal'] w' ([(Hwf' & Hop & _) [x Hx]] & Hf' & [rest Hrest] & _ & Hff).
    step_update. apply wp_ret. exists wal'. split_and!; [done|done| |done|done].
    assert (∀ rs, wal_clean db (w_disk w) rs → wal_clean (set_wal wal' db) (w_disk w') rs) as Hclean.
    2: { split; [done| |done|by apply durable_set_wal|by apply (clean_kept_log _ _ _ (set_wal wal' db))].
         apply db_ok_set_wal with (d := w_disk w); [done|done|done|by left]. }
    + intros rs (Hrs & Hc & wal0 & E & Hfl).
      split_and!; [done| |exists wal'; by split; [|left]]. cbn [db_path_ set_wal].
      unfold wal_content in *. fold p in Hc |- *. rewrite Hw in E. injection E as <-.
      destruct Hfl as [Hf|Hfl]; [destruct Hat as (f & Hf2 & _); congruence|].
      pose proof (wal_at_flushed _ _ _ _ _ Hat Hfl) as ->. rewrite Hx, Hc, <- app_assoc in Hrest.
      rewrite <- (app_nil_r (log_of rs)) in Hrest at 2. apply app_inv_head, app_eq_nil in Hrest as [-> _].
      by rewrite Hx, app_nil_r.
Qed.

(** Opening the log over the previous, closed handle. *)
Lemma open_wal_spec db tabs w : db_ok db tabs (w_disk w) →
  wp open_wal (λ s '(db', w'), ∃ wal, db' = set_wal wal db ∧
    maintained db tabs (w_disk w) db' tabs (w_disk w') ∧
    only_paths {[canon (wal_path (db_path_ db))]} (w_disk w) (w_disk w') ∧
    wal_content (w_disk w') (db_path_ db) = wal_content (w_disk w) (db_path_ db) ∧
    (if ok s then wal_flushed (canon (wal_path (db_path_ db))) wal (w_disk w')
                    (wal_content (w_disk w) (db_path_ db))
     else file_ wal = None) ∧
    (FaultFree O → s = OK)) (db, w).
Proof.
  intros Hok. pose proof (ok_disk _ _ _ Hok) as Hd. unfold open_wal. step_this. rewrite WalPath_eq.
  apply wp_bind, wp_lift. eapply wp_mono; [by apply Wal_Open_spec|].
  intros [s wal] w' (Hwf' & Hop & Hc & _ & Hcase & Hff). step_update. apply wp_ret.
  exists wal. split_and!; [done| |done|done| |done].
  2: { by destruct (ok s); [|destruct Hcase]. }
  split; [done| |done| |by intros _; left].
  - apply db_ok_set_wal with (d := w_disk w); [done|done|done|].
    destruct (ok s); [right|left; by destruct Hcase]. eexists. by apply wal_flushed_at.
  - apply durable_set_wal; [done|done|]. intros rs (Hrs & Hrc & _).
    split_and!; [done|unfold wal_content in *; cbn [db_path_ set_wal]; by rewrite Hc|].
    exists wal. split; [done|]. destruct (ok s); [right|left; by destruct Hcase].
    cbn [db_path_ set_wal]. unfold wal_content in Hrc. by rewrite <- Hrc.
Qed.

(** Removing the log of a database whose memtable is empty and whose version
    is on disk. *)
Lemma remove_wal_spec db tabs w : db_ok db tabs (w_disk w) →
  MemTable_empty (memtable_ db) = true →
  (∃ wal, wal_ db = Some wal ∧ file_ wal = None) →
  persisted (w_disk w) (db_path_ db) (version_ db) tabs →
  wp (remove (wal_path (db_path_ db))) (λ _ w',
    maintained db tabs (w_disk w) db tabs (w_disk w') ∧
    only_paths {[canon (wal_path (db_path_ db))]} (w_disk w) (w_disk w') ∧
    (FaultFree O → wal_content (w_disk w') (db_path_ db) = [])) w.
Proof.
  intros Hok Hmt (wal & Hw & Hf) Hp. pose proof (ok_disk _ _ _ Hok) as Hd.
  eapply wp_mono; [by apply remove_spec|]. intros b w' (Hwf' & Hop & Hb & Hgone).
  split_and!; [|done|].
  2: { intros Hff. specialize (Hgone Hff). unfold resolve in Hgone. unfold wal_content, file_content.
       by rewrite Hgone. }
  assert (persisted (w_disk w') (db_path_ db) (version_ db) tabs) as Hp'.
  { eapply persisted_frame; [exact Hd|done|apply avoids_wal|apply manifest_not_wal|done]. }
  assert (set_wal wal db = db) as Edb by (destruct db; cbn in *; by rewrite Hw).
  split; [done| |done| |].
  3: { intros _. unfold kept_log, wal_content, file_content. destruct b; rewrite Hb; [right|by left].
       unfold unlink. cbn. by rewrite lookup_delete_eq. }
  - rewrite <- Edb. apply db_ok_set_wal with (d := w_disk w); [done|done|done|by left].
  - intros (v & ptabs & rs & _ & _ & (Hrs & Hc & _) & _ & E2).
    assert (live (∅ ∪ tables_layer tabs) = contents db tabs) as E0.
    { unfold contents. by rewrite mem_layer_empty. }
    destruct b.
    + exists (version_ db), tabs, []. split_and!; [done|lia| |done|done].
      split_and!; [done| |exists wal; by split; [|left]].
      unfold wal_content, file_content. rewrite Hb. unfold unlink. cbn. by rewrite lookup_delete_eq.
    + exists (version_ db), tabs, rs. rewrite E2. split_and!; [done|lia| |done|done].
      split_and!; [done|by rewrite Hb|exists wal; by split; [|left]].
Qed.

(** ** [FlushMemTableLocked] *)

Definition flush_post db tabs (d : Disk) (s : Status) db' tabs' (d' : Disk) : Prop :=
  maintained db tabs d db' tabs' d' ∧
  tables_weight tabs' ≤ weights (mem_entries (memtable_ db)) + tables_weight tabs ∧
  next_file_number (version_ db') ≤ next_file_number (version_ db) + 1 ∧
  (ok s = true → MemTable_empty (memtable_ db') = true) ∧
  (FaultFree O → s = OK ∧ (wal_open db → wal_open db') ∧
     (MemTable_empty (memtable_ db) = false → wal_content d' (db_path_ db) = [])).

(** From the moment the new table is on disk and open. *)
Lemma finish_flush_spec db tabs w fm t rd : db_ok db tabs (w_disk w) →
  is_u64 (next_file_number (version_ db) + 1) → number fm = next_file_number (version_ db) →
  file_ok (w_disk w) (db_path_ db) fm t → reader_ok (w_disk w) (db_path_ db) fm t rd →
  tbl_layer t = mem_layer (memtable_ db) →
  weights (t_entries t) + tables_weight tabs ≤ max_weight →
  wp (finish_flush fm rd) (λ s '(db', w'),
    maintained db tabs (w_disk w) db' (push_tab t tabs) (w_disk w') ∧
    version_ db' = version_ (push_l0 fm rd (bump db)) ∧
    (ok s = true → MemTable_empty (memtable_ db') = true) ∧
    (FaultFree O → s = OK ∧ (wal_open db → wal_open db') ∧
       wal_content (w_disk w') (db_path_ db) = [])) (bump db, w).
Proof.
  intros Hok Hu Hfn Hfm Hrd Htl Hwt. unfold finish_flush.
  pose proof (maintained_push _ _ _ fm t rd Hok Hu Hfn Hfm Hrd Htl) as Hm2.
  step_update. fold (push_l0 fm rd (bump db)).
  set (db2 := push_l0 fm rd (bump db)) in *. set (tabs2 := push_tab t tabs) in *.
  assert (tables_weight tabs2 = weights (t_entries t) + tables_weight tabs) as Hw2 by apply tables_weight_push.
  apply wp_check. eapply wp_mono; [apply (save_version_spec db2 tabs2); [apply Hm2|lia]|].
  intros s3 [db3 w3] (-> & Hm3 & Hper & _ & Hff3).
  pose proof (maintained_trans _ _ _ _ _ _ _ _ _ Hm2 Hm3) as Hm13.
  destruct (ok s3) eqn:Es3.
  2: { split_and!; [done|done|congruence|]. intros Hff. by rewrite Hff3 in Es3. }
  specialize (Hper eq_refl). step_update. set (db4 := set_memtable _ db2).
  assert (maintained db2 tabs2 (w_disk w3) db4 tabs2 (w_disk w3)) as Hm4.
  { apply (maintained_clear _ _ _ (tables_layer tabs)); [apply Hm3|].
    unfold tabs2. rewrite tables_layer_push. by rewrite Htl. }
  pose proof (maintained_trans _ _ _ _ _ _ _ _ _ Hm13 Hm4) as Hm14.
  apply wp_check. eapply wp_mono; [apply (close_wal_spec db4 tabs2), Hm4|].
  intros s5 [db5 w5] (wal5 & Hf5 & -> & Hm5 & Hop5 & Hff5).
  pose proof (maintained_trans _ _ _ _ _ _ _ _ _ Hm14 Hm5) as Hm15.
  destruct (ok s5) eqn:Es5.
  2: { split_and!; [done|done|congruence|]. intros Hff. by rewrite Hff5 in Es5. }
  step_this. rewrite WalPath_eq. apply wp_bind, wp_lift.
  eapply wp_mono; [apply (remove_wal_spec (set_wal wal5 db4) tabs2); [apply Hm5|done|by exists wal5|]|].
  { eapply persisted_frame; [|exact Hop5|apply avoids_wal|apply manifest_not_wal|exact Hper]. apply Hm4. }
  intros b6 w6 (Hm6 & _ & Hgone). pose proof (maintained_trans _ _ _ _ _ _ _ _ _ Hm15 Hm6) as Hm16.
  eapply wp_mono; [apply (open_wal_spec _ tabs2), Hm6|].
  intros s7 [db7 w7] (wal7 & -> & Hm7 & _ & Hsame & Hw7 & Hff7).
  split_and!; [by eapply maintained_trans|done|done|].
  intros Hff. specialize (Hff7 Hff) as ->. cbn in Hw7. destruct Hw7 as (f & Hf & _).
  split_and!; [done|by intros _; exists wal7, f|]. cbn in Hsame. rewrite Hsame. by apply Hgone.
Qed.

(** Only a file with the next number was touched. *)
Lemma maintained_new_table db tabs d d' : let n := next_file_number (version_ db) in
  db_ok db tabs d → is_u64 n → disk_wf d' → only_paths {[canon (sst_path (db_path_ db) n)]} d d' →
  maintained db tabs d db tabs d'.
Proof.
  intros n Hok Hu Hwf Hop. eapply maintained_frame; [done|exact Hop| | |apply manifest_not_sst| |done].
  - eapply avoids_new; [apply Hok|done|done].
  - rewrite elem_of_singleton. apply not_eq_sym, sst_not_wal.
  - intros v ptabs Hp Hv. eapply avoids_new; [apply Hp|done|done].
Qed.

(** The memtable became the table [t], the newest of level 0. *)
Definition flushed_into db tabs (db' : DB) (tabs' : nat → list tbl) (t : tbl) : Prop :=
  tabs' = push_tab t tabs ∧ tbl_layer t = mem_layer (memtable_ db) ∧
  ∃ fm rd, version_ db' = version_ (push_l0 fm rd (bump db)).

Lemma flush_nonempty_spec db tabs w : db_ok db tabs (w_disk w) → within_limits db tabs →
  MemTable_empty (memtable_ db) = false →
  wp FlushMemTableLocked (λ s '(db', w'), ∃ tabs',
    flush_post db tabs (w_disk w) s db' tabs' (w_disk w') ∧
    (ok s = true → ∃ t, flushed_into db tabs db' tabs' t)) (db, w).
Proof.
  intros Hok [Hwt Hnx] Hemp. pose proof (ok_disk _ _ _ Hok) as Hd. unfold FlushMemTableLocked. step_this.
  pose proof (weights_nonneg (mem_entries (memtable_ db))) as Hw0. rewrite Hemp.
  fold (mem_entries (memtable_ db)). cbv zeta.
  set (es := mem_entries (memtable_ db)) in *.
  set (t := mkTbl es (bloom_bits_per_key (options_ db))).
  assert (tbl_wf t) as Htw.
  { apply table_wf_of; [|by apply mem_entries_sorted, Hok|apply Hok| |apply Hok].
    - intros E. apply mem_entries_nil in E. congruence.
    - pose proof (weights_nonneg (all_entries (search_order tabs))). unfold tables_weight in *.
      unfold t. cbn [t_entries]. lia. }
  pose proof (to_next _ _ _ _ (ok_tables _ _ _ Hok)) as Hn0. unfold is_u64 in Hn0.
  assert (is_u64 (next_file_number (version_ db) + 1)) as Hu by (unfold is_u64; lia).
  apply wp_bind. eapply wp_mono; [by apply new_table_spec|].
  intros r [db1 w1] (-> & Hwf1 & Hop1 & Hr).
  set (n := next_file_number (version_ db)) in *.
  pose proof (maintained_new_table _ _ _ _ Hok ltac:(unfold is_u64; lia) Hwf1 Hop1) as Hm1.
  pose proof (ma_ok _ _ _ _ _ _ Hm1) as Hok1. destruct r as [s|[fm rd]].
  - destruct Hr as [Hs Hff]. apply wp_ret. exists tabs. split; [|congruence].
    split_and!; [|unfold es in *; lia|done|congruence|by intros ?%Hff].
    eapply maintained_trans; [exact Hm1|]. by apply maintained_bump.
  - destruct Hr as (Hfn & Hfm & Hrd).
    eapply wp_mono; [apply (finish_flush_spec db tabs w1 fm t rd); try done; apply mem_entries_layer|].
    intros s [db' w'] (Hm & Hv & Hs & Hff). exists (push_tab t tabs).
    split; [|intros _; exists t; split_and!; [done|apply mem_entries_layer|by exists fm, rd]].
    split_and!; [by eapply maintained_trans| |by rewrite Hv|done|].
    2: { intros H. destruct (Hff H) as (? & ? & ?). by split_and!. }
    rewrite tables_weight_push. unfold t, es. cbn [t_entries]. lia.
Qed.

Lemma FlushMemTableLocked_spec db tabs w : db_ok db tabs (w_disk w) → within_limits db tabs →
  wp FlushMemTableLocked (λ s '(db', w'), ∃ tabs',
    flush_post db tabs (w_disk w) s db' tabs' (w_disk w')) (db, w).
Proof.
  intros Hok Hlim. destruct (MemTable_empty (memtable_ db)) eqn:Hemp.
  - unfold FlushMemTableLocked. step_this. rewrite Hemp. apply wp_ret. exists tabs.
    pose proof (weights_nonneg (mem_entries (memtable_ db))).
    split_and!; [by apply maintained_refl|lia|lia|done|intros _; split_and!; [done|done|congruence]].
  - eapply wp_mono; [by apply (flush_nonempty_spec db tabs)|].
    intros s [db' w'] (tabs' & ? & _). by exists tabs'.
Qed.

Lemma logless_kept db tabs d db' tabs' d' : maintained db tabs d db' tabs' d' → durable db tabs d →
  wal_ops (wal_content d (db_path_ db)) = [] → wal_ops (wal_content d' (db_path_ db')) = [].
Proof.
  intros Hm Hd E. rewrite (sc_path _ _ (ma_config _ _ _ _ _ _ Hm)).
  by destruct (ma_log _ _ _ _ _ _ Hm Hd) as [->| ->].
Qed.

(** A flush that does not fail moves the memtable into a table. *)
Lemma flush_modest `{!FaultFree O} db tabs d s db' tabs' d' : flush_post db tabs d s db' tabs' d' →
  modest 0 1 db tabs d db' tabs' d' ∧
  (durable db tabs d → logless db d → wal_ops (wal_content d' (db_path_ db')) = []).
Proof.
  intros (Hm & Hw & Hn & He & Hff). destruct (Hff _) as (-> & _ & Hlog).
  specialize (He eq_refl). pose proof He as Hnil%mem_entries_nil.
  assert (durable db tabs d → logless db d → wal_ops (wal_content d' (db_path_ db')) = []) as Hops.
  { intros Hd Hl. destruct (MemTable_empty (memtable_ db)) eqn:E; [by eapply logless_kept, Hl|].
    rewrite (sc_path _ _ (ma_config _ _ _ _ _ _ Hm)). by rewrite Hlog. }
  split; [|done]. split; [unfold total; rewrite Hnil; change (weights []) with 0; lia|done|].
  intros Hd Hl _. by apply Hops.
Qed.
End flush.
