(* ===== verification/DBReaders.v ===== *)
(** * Reading the tables of an open database

    The readers of a level give access to its tables; the sorts by file number
    put the L0 readers in order of age. *)

From S2P Require Import Prelude Slice Status OrderedMap MemTable FileSystem SSTable SSTableSpec.
From S2P Require Import Version DB DBPaths Layers DBInv.

(** The reader [r] reads the table [t]. *)
Definition reads (d : Disk) (t : tbl) (r : SSTableReader) : Prop :=
  tbl_wf t ∧ ∃ i, reader_for (t_entries t) (t_bits t) i r ∧ icontent d i = tbl_bytes t.

Lemma reader_ok_reads d path fm t r : file_ok d path fm t → reader_ok d path fm t r → reads d t r.
Proof.
  intros [Hwf _ _ _ Hc] (i & Hi & Hr). split; [done|]. exists i. split; [done|].
  unfold content in Hc. rewrite Hi in Hc. by injection Hc.
Qed.

Lemma level_reads db tabs d l : db_ok db tabs d → Forall2 (reads d) (tabs l) (readers_at db l).
Proof.
  intros Hok. pose proof (to_files _ _ _ _ (ok_tables _ _ _ Hok) l) as Hf.
  pose proof (ok_readers _ _ _ Hok l) as Hr.
  induction Hr as [|fm t r fms ts rs Hr _ IH]; [constructor|].
  apply Forall2_cons in Hf as [Hfm Hf]. constructor; [by eapply reader_ok_reads|by apply IH].
Qed.

Lemma Forall2_reverse {A B} (R : A → B → Prop) l k :
  Forall2 R l k → Forall2 R (reverse l) (reverse k).
Proof.
  induction 1 as [|x y l k Hxy _ IH]; [constructor|].
  rewrite !reverse_cons. apply Forall2_app; [done|by constructor].
Qed.

(** ** Sorting by file number *)

Lemma StronglySorted_reverse {A} (R : A → A → Prop) l :
  StronglySorted R l → StronglySorted (flip R) (reverse l).
Proof.
  induction 1 as [|x l _ IH Hx]; [constructor|]. rewrite reverse_cons.
  assert (Forall (λ y, flip R y x) (reverse l)) as Hr by (by apply Forall_reverse).
  revert IH Hr. generalize (reverse l) as k. induction k as [|y k IHk]; cbn.
  { repeat constructor. }
  intros [Hk Hy]%StronglySorted_inv [Hyx Hr]%Forall_cons. constructor; [by apply IHk|].
  apply Forall_app. split; [done|by constructor].
Qed.

(** A strictly sorted list is the only sorted one with its elements. *)
Lemma sorted_unique {A} (f : A → Z) (l k : list A) :
  StronglySorted (λ a b, f a < f b) l → StronglySorted (λ a b, f a ≤ f b) k → k ≡ₚ l → k = l.
Proof.
  intros Hl. revert k. induction Hl as [|x l Hl IH Hx]; intros k Hk Hp.
  { by apply Permutation_nil_r in Hp. }
  destruct k as [|y k]; [by apply Permutation_nil_l in Hp|].
  apply StronglySorted_inv in Hk as [Hk Hy].
  assert (y = x) as ->.
  { assert (y ∈ x :: l) as [->|Hin]%elem_of_cons by (rewrite <- Hp; set_solver); [done|].
    assert (x ∈ y :: k) as [->|Hin']%elem_of_cons by (rewrite Hp; set_solver); [done|].
    rewrite Forall_forall in Hx, Hy. apply Hx in Hin. apply Hy in Hin'. cbn in *. lia. }
  f_equal. apply IH; [done|]. by eapply Permutation_cons_inv.
Qed.

#[local] Instance after_trans : Transitive after.
Proof. intros a b c. unfold after. lia. Qed.
#[local] Instance before_trans : Transitive before.
Proof. intros a b c. unfold before. lia. Qed.
#[local] Instance after_total : Total after.
Proof. intros a b. unfold after. lia. Qed.
#[local] Instance before_total : Total before.
Proof. intros a b. unfold before. lia. Qed.

Lemma StronglySorted_mono {A} (R S : A → A → Prop) l :
  (∀ x y, R x y → S x y) → StronglySorted R l → StronglySorted S l.
Proof.
  intros H. induction 1 as [|x l _ IH Hx]; constructor; [done|]. eapply Forall_impl; [done|]. eauto.
Qed.

Lemma numbered_sorted files readers : StronglySorted Z.lt (number <$> files) →
  StronglySorted (λ a b : Z * SSTableReader, a.1 < b.1) (numbered files readers).
Proof.
  unfold numbered. generalize (number <$> files) as ns. intros ns H. revert readers.
  induction H as [|n ns _ IH Hn]; intros readers; [constructor|].
  destruct readers as [|r readers]; [constructor|]. cbn. constructor; [apply IH|].
  apply Forall_forall. intros [m r'] Hin%elem_of_zip_l. rewrite Forall_forall in Hn. by apply Hn.
Qed.

Lemma numbered_snd files readers : length files = length readers →
  (numbered files readers).*2 = readers.
Proof. intros H. apply snd_zip. rewrite length_fmap. lia. Qed.

Lemma newest_first_sorted files readers : StronglySorted Z.lt (number <$> files) →
  length files = length readers → newest_first (numbered files readers) = reverse readers.
Proof.
  intros Hs Hl. unfold newest_first. pose proof (numbered_sorted files readers Hs) as Hn.
  rewrite (sorted_unique (λ a : Z * SSTableReader, - a.1) (reverse (numbered files readers)) (merge_sort after (numbered files readers))).
  - rewrite fmap_reverse. by rewrite numbered_snd.
  - apply (StronglySorted_reverse (λ a b : Z * SSTableReader, - b.1 < - a.1)).
    eapply StronglySorted_mono; [|exact Hn]. cbn. lia.
  - eapply StronglySorted_mono; [|apply (StronglySorted_merge_sort after)]. unfold after. lia.
  - rewrite merge_sort_Permutation. by rewrite reverse_Permutation.
Qed.

Lemma oldest_first_sorted files readers : StronglySorted Z.lt (number <$> files) →
  length files = length readers → oldest_first (numbered files readers) = readers.
Proof.
  intros Hs Hl. unfold oldest_first. pose proof (numbered_sorted files readers Hs) as Hn.
  rewrite (sorted_unique (λ a : Z * SSTableReader, a.1) (numbered files readers) (merge_sort before (numbered files readers))).
  - by apply numbered_snd.
  - done.
  - apply (StronglySorted_merge_sort before).
  - apply merge_sort_Permutation.
Qed.

Lemma level_lengths db tabs d l : db_ok db tabs d →
  length (Level (version_ db) l) = length (readers_at db l).
Proof.
  intros Hok. rewrite (Forall2_length _ _ _ (to_files _ _ _ _ (ok_tables _ _ _ Hok) l)).
  by rewrite (Forall2_length _ _ _ (level_reads _ _ _ l Hok)).
Qed.

(** The readers of a level in lookup order. *)
Lemma newest_first_level db tabs d : db_ok db tabs d →
  newest_first (numbered (Level (version_ db) 0) (readers_at db 0)) = reverse (readers_at db 0).
Proof.
  intros Hok. apply newest_first_sorted; [apply (ok_tables _ _ _ Hok)|by eapply level_lengths].
Qed.
Lemma oldest_first_level db tabs d : db_ok db tabs d →
  oldest_first (numbered (Level (version_ db) 0) (readers_at db 0)) = readers_at db 0.
Proof.
  intros Hok. apply oldest_first_sorted; [apply (ok_tables _ _ _ Hok)|by eapply level_lengths].
Qed.

(** ** Reading one table *)

Section read.
Context {O : Oracle}.

Lemma read_all_spec t r w : reads (w_disk w) t r →
  wp (SSTableReader_ReadAll r) (λ '(s, out) w', w_disk w' = w_disk w ∧
    (ok s = true → out = t_entries t) ∧ (FaultFree O → s = OK)) w.
Proof. intros (Hwf & i & Hr & Hc). by eapply SSTableReader_ReadAll_spec. Qed.

Lemma read_get_spec t r key value del w : reads (w_disk w) t r →
  wp (SSTableReader_Get r key value del) (λ '(found, value', del') w', w_disk w' = w_disk w ∧
    match tbl_layer t !! key with
    | None => found = false ∧ (value', del') = (value, del)
    | Some x => (found = true → (value', del') = get_answer x value) ∧
                (found = false → del' = del) ∧ (FaultFree O → found = true)
    end) w.
Proof. intros (Hwf & i & Hr & Hc). by eapply SSTableReader_Get_spec. Qed.
End read.
