(* ===== verification/Merge.v ===== *)
(** * Merging tables

    The merge of [CompactLocked]: reading tables oldest first into an ordered
    map keeps, for every key, the newest entry; writing the map out in batches
    gives consecutive tables. *)

From S2P Require Import Prelude Slice Status OrderedMap MemTable FileSystem Wal SSTable.
From S2P Require Import SSTableSpec Version DB DBPaths Layers DBInv DBFlush DBReaders.

(** ** The merged map *)

Abbreviation merge_map := (list (bytes * SSTableEntry)).

(** Ordered, every entry under its own key, every entry storable. *)
Definition merged_wf (m : merge_map) : Prop :=
  omap_wf m ∧ Forall (λ ke : bytes * SSTableEntry, ke.1 = e_key ke.2) m ∧ Forall entry_wf m.*2.

(** Reading the tables [ts] in order. *)
Definition merge_tables (ts : list tbl) (m : merge_map) : merge_map :=
  fold_left (λ m t, merge_entries (t_entries t) m) ts m.

Lemma merged_keys m : merged_wf m → table_keys m.*2 = m.*1.
Proof.
  intros (_ & Hk & _). unfold table_keys. rewrite <- list_fmap_compose.
  induction Hk as [|[k e] m Hk _ IH]; [done|]. cbn in *. by rewrite IH, Hk.
Qed.
Lemma merged_sorted m : merged_wf m → StronglySorted key_lt (table_keys m.*2).
Proof. intros Hm. rewrite merged_keys by done. apply Hm. Qed.

Lemma merged_layer m : merged_wf m → table_layer m.*2 = entry_opt <$> omap_to_gmap m.
Proof.
  intros (_ & Hk & _). unfold table_layer, omap_to_gmap. rewrite <- list_to_map_fmap. f_equal.
  induction Hk as [|[k e] m Hk _ IH]; [done|]. cbn in *. by rewrite IH, Hk.
Qed.

Lemma merged_wf_insert e m : entry_wf e → merged_wf m → merged_wf (omap_insert (e_key e) e m).
Proof.
  intros He (H1 & H2 & H3). split_and!; [by apply omap_insert_wf|by apply omap_insert_Forall|].
  apply Forall_fmap. apply omap_insert_Forall; [done|]. by rewrite Forall_fmap in H3.
Qed.

Lemma weights_insert k e m : weights (omap_insert k e m).*2 ≤ weight e + weights m.*2.
Proof.
  induction m as [|[k' e'] m IH]; cbn; [lia|]. pose proof (weight_pos e').
  key_cases k k'; cbn; lia.
Qed.

Lemma merge_entries_cons e es m :
  merge_entries (e :: es) m = merge_entries es (omap_insert (e_key e) e m).
Proof. done. Qed.

Lemma merge_entries_wf es m : Forall entry_wf es → merged_wf m → merged_wf (merge_entries es m).
Proof.
  intros He. revert m. induction He as [|e es He _ IH]; intros m Hm; [done|].
  rewrite merge_entries_cons. by apply IH, merged_wf_insert.
Qed.

Lemma merge_entries_weight es m :
  weights (merge_entries es m).*2 ≤ weights es + weights m.*2.
Proof.
  revert m. induction es as [|e es IH]; intros m; [done|]. rewrite merge_entries_cons.
  specialize (IH (omap_insert (e_key e) e m)). pose proof (weights_insert (e_key e) e m). cbn. lia.
Qed.

(** The entries read last win. *)
Lemma merge_entries_layer es m : NoDup (table_keys es) → Forall entry_wf es → merged_wf m →
  table_layer (merge_entries es m).*2 = table_layer es ∪ table_layer m.*2.
Proof.
  intros Hn He. revert m Hn. induction He as [|e es He Hes IH]; intros m Hn Hm.
  { by rewrite table_layer_nil, (left_id_L ∅ (∪)). }
  cbn in Hn. apply NoDup_cons in Hn as [Hk Hn].
  pose proof (merged_wf_insert e m He Hm) as Hm'.
  rewrite merge_entries_cons, IH by done. rewrite (merged_layer _ Hm'), (merged_layer m Hm).
  rewrite omap_insert_spec, fmap_insert by apply Hm.
  change (table_layer (e :: es)) with (<[e_key e := entry_opt e]> (table_layer es)).
  rewrite <- insert_union_l. symmetry. apply insert_union_r. by apply table_layer_None.
Qed.

Lemma merge_tables_spec ts m : Forall tbl_wf ts → merged_wf m →
  merged_wf (merge_tables ts m) ∧
  table_layer (merge_tables ts m).*2 = stack (tbl_layer <$> reverse ts) ∪ table_layer m.*2 ∧
  weights (merge_tables ts m).*2 ≤ weights (all_entries ts) + weights m.*2.
Proof.
  intros Hts. revert m. induction Hts as [|t ts Ht _ IH]; intros m Hm.
  { split_and!; [done| |done]. change (tbl_layer <$> reverse []) with (@nil layer). by rewrite stack_nil, (left_id_L ∅ (∪)). }
  unfold merge_tables. cbn [fold_left]. fold (merge_tables ts (merge_entries (t_entries t) m)).
  pose proof (merge_entries_wf _ m (tw_entries _ _ Ht) Hm) as Hm'.
  destruct (IH _ Hm') as (H1 & H2 & H3). split_and!; [done| |].
  - rewrite H2, merge_entries_layer;
      [|apply sorted_keys_NoDup, (tw_sorted _ _ Ht)|apply (tw_entries _ _ Ht)|done].
    rewrite reverse_cons, fmap_app, stack_app. cbn [fmap list_fmap]. rewrite stack_cons, stack_nil.
    by rewrite (right_id_L ∅ (∪)), <- (assoc_L (∪)).
  - unfold all_entries in *. cbn. rewrite weights_app.
    pose proof (merge_entries_weight (t_entries t) m). lia.
Qed.

Lemma merged_wf_nil : merged_wf [].
Proof. split_and!; [apply omap_wf_nil|constructor|constructor]. Qed.

Section merge_readers.
Context {O : Oracle}.

Lemma merge_readers_spec ts rs m w : Forall2 (reads (w_disk w)) ts rs →
  wp (merge_readers rs m) (λ '(s, m') w', w_disk w' = w_disk w ∧
    (ok s = true → m' = merge_tables ts m) ∧ (FaultFree O → s = OK)) w.
Proof.
  intros H. revert ts m w H. induction rs as [|r rs IH]; intros ts m w H.
  { apply Forall2_nil_inv_r in H as ->. by apply wp_ret. }
  apply Forall2_cons_inv_r in H as (t & ts' & Hr & H & ->). cbn [merge_readers].
  apply wp_bind. eapply wp_mono; [by apply read_all_spec|].
  intros [s es] w1 (Ed & Hs & Hff). destruct (ok s) eqn:Es; cbn [negb].
  2: { apply wp_ret. split_and!; [done|congruence|]. intros Hff'. by rewrite Hff in Es. }
  rewrite (Hs eq_refl). eapply wp_mono; [apply (IH ts'); by rewrite Ed|].
  intros [s' m'] w2 (Ed2 & Hs2 & Hff2). split_and!; [congruence|done|done].
Qed.
End merge_readers.

(** ** Writing the merged map

    [K] is what is kept of it. *)

Definition kept (drop_tombstones : bool) (es : list SSTableEntry) : list SSTableEntry :=
  filter (λ e, drop_tombstones && bool_decide (e_type e = EntryType_kDelete) = false) es.

Lemma sorted_keys_filter P `{!∀ e, Decision (P e)} es :
  StronglySorted key_lt (table_keys es) → StronglySorted key_lt (table_keys (filter P es)).
Proof.
  induction es as [|e es IH]; [done|]. intros Hsk. cbn in Hsk. apply StronglySorted_inv in Hsk as [Hs Hk].
  rewrite filter_cons. destruct (decide (P e)); [|by apply IH]. cbn. constructor; [by apply IH|].
  apply Forall_fmap, Forall_forall. intros e' [_ Hin]%list_elem_of_filter.
  rewrite Forall_forall in Hk. apply Hk. unfold table_keys. by apply list_elem_of_fmap_2.
Qed.

Lemma kept_all es : kept false es = es.
Proof.
  unfold kept in *. induction es as [|e es IH]; [done|]. rewrite filter_cons.
  destruct (decide _) as [|n]; [by rewrite IH|by destruct n].
Qed.

(** Dropping tombstones keeps the live entries. *)
Lemma kept_layer es : NoDup (table_keys es) →
  table_layer (kept true es) = drop_deleted (table_layer es).
Proof.
  induction es as [|e es IH]; [done|]. intros H. cbn in H. apply NoDup_cons in H as [Hk Hn].
  specialize (IH Hn).
  change (table_layer (e :: es)) with (<[e_key e := entry_opt e]> (table_layer es)).
  unfold kept. rewrite filter_cons. fold (kept true es). cbn [andb].
  assert (table_layer es !! e_key e = None) as Hnone by (by apply table_layer_None).
  apply map_eq. intros k. rewrite drop_deleted_lookup. unfold entry_opt.
  destruct (decide (e_type e = EntryType_kDelete)) as [Ht|Ht].
  - rewrite bool_decide_eq_true_2 by done. rewrite decide_False by done. rewrite IH, drop_deleted_lookup.
    destruct (decide (e_key e = k)) as [<-|]; [by rewrite lookup_insert_eq, Hnone|by rewrite lookup_insert_ne].
  - rewrite bool_decide_eq_false_2 by done. rewrite decide_True by done.
    change (table_layer (e :: kept true es)) with (<[e_key e := entry_opt e]> (table_layer (kept true es))).
    unfold entry_opt. rewrite decide_False by done. rewrite IH.
    destruct (decide (e_key e = k)) as [<-|]; [by rewrite !lookup_insert_eq|].
    by rewrite !lookup_insert_ne, drop_deleted_lookup.
Qed.
