(* ===== verification/DBCompact.v ===== *)
(** * Compaction

    [CompactLocked] replaces two adjacent levels by one with the same
    contents, whatever fails on the way, and the loop around it terminates. *)

From S2P Require Import Prelude Slice Status OrderedMap MemTable WriteBatch FileSystem Wal.
From S2P Require Import SSTable SSTableSpec Version DB DBPaths Layers DBInv DBFlush DBReaders.
From S2P Require Import Merge.

(** ** The output files *)

Definition with_next (n : Z) (db : DB) : DB :=
  set_version (mkVersion n (levels_ (version_ db))) db.

Lemma bump_with_next n db : bump (with_next n db) = with_next (n + 1) db.
Proof. done. Qed.
Lemma with_next_id db : with_next (next_file_number (version_ db)) db = db.
Proof. by destruct db as [? ? ? ? [? ?]]. Qed.

(** What is kept of the merged map, within the limits. *)
Record keepable (K : list SSTableEntry) : Prop := {
  ke_sorted : StronglySorted key_lt (table_keys K);
  ke_entries : Forall entry_wf K;
  ke_weight : weights K ≤ max_weight;
}.

(** The tables written so far are at most as many as the entries kept. *)
Lemma outs_count K outs rest path' d fs : K = all_entries outs ++ rest →
  Forall2 (file_ok d path') fs outs → zlen outs ≤ zlen K.
Proof.
  intros -> Hf. rewrite length_app. pose proof (all_entries_count outs) as H.
  enough (zlen outs ≤ zlen (all_entries outs)) by lia. apply H. apply Forall_lookup.
  intros i t Hi. by destruct (Forall2_lookup_r _ _ _ _ _ Hf Hi) as (? & _ & []).
Qed.

Lemma keepable_count K : keepable K → zlen K ≤ 2 ^ 30.
Proof. intros [_ _ Hw]. pose proof (weights_count K). unfold max_weight in Hw. lia. Qed.

Section output.
Context {O : Oracle} (db0 : DB) (tabs : nat → list tbl) (d0 : Disk).
Implicit Types (o : output) (outs : list tbl).

Let n0 := next_file_number (version_ db0).
Let path := db_path_ db0.

(** The tables [outs] have been written as the files of [o]. *)
Record out_inv (o : output) (outs : list tbl) (db : DB) (d : Disk) : Prop := {
  oi_db : db = with_next (n0 + zlen outs) db0;
  oi_maintained : maintained db0 tabs d0 db tabs d;
  oi_files : Forall2 (file_ok d path) (new_files o) outs;
  oi_readers : Forall3 (reader_ok d path) (new_files o) outs (new_readers o);
  oi_numbers : Forall (λ fm, n0 ≤ number fm < n0 + zlen outs) (new_files o);
}.

(** Stopped by a failure: only file numbers were used up. *)
Definition out_stopped (K : list SSTableEntry) (db : DB) (d : Disk) : Prop :=
  (∃ n, db = with_next n db0 ∧ n ≤ n0 + zlen K + 1) ∧ maintained db0 tabs d0 db tabs d ∧
  ¬ FaultFree O.

Lemma keepable_segment K A B C : keepable K → K = A ++ B ++ C → B ≠ [] → options_ok (options_ db0) →
  tbl_wf (mkTbl B (bloom_bits_per_key (options_ db0))).
Proof.
  intros [Hs He Hw] -> Hne Ho. rewrite !table_keys_app in Hs. rewrite !weights_app in Hw.
  pose proof (weights_nonneg A). pose proof (weights_nonneg C). apply table_wf_of; [done| | |cbn; lia|done].
  - by eapply StronglySorted_app_1_l, StronglySorted_app_1_r.
  - by apply Forall_app in He as [_ [? _]%Forall_app].
Qed.

(** One more table, under the next number. *)
Lemma out_inv_extend o outs db d d' fm rd t : disk_wf d → out_inv o outs db d →
  0 ≤ n0 ∧ n0 + zlen outs < 2 ^ 64 →
  only_paths {[canon (sst_path path (n0 + zlen outs))]} d d' → maintained db0 tabs d0 (bump db) tabs d' →
  number fm = n0 + zlen outs → file_ok d' path fm t → reader_ok d' path fm t rd →
  out_inv (mkOutput [] 0 (new_files o ++ [fm]) (new_readers o ++ [rd])) (outs ++ [t]) (bump db) d'.
Proof.
  intros Hwf [Edb Hm Hf Hr Hnum] Hn Hop Hm' Hfn Hfm Hrd. set (P := {[_]}) in Hop.
  assert (∀ fm', fm' ∈ new_files o → canon (sst_path path (number fm')) ∉ P) as Hfree.
  { intros fm' Hin. unfold P. rewrite elem_of_singleton. rewrite Forall_forall in Hnum.
    apply Hnum in Hin. intros E. apply sst_path_inj in E; [lia|unfold is_u64; lia..]. }
  split; cbn [new_files new_readers].
  - rewrite Edb, length_app. cbn [length]. rewrite bump_with_next. f_equal. lia.
  - done.
  - apply Forall2_app; [|by constructor]. eapply Forall2_impl_elem; [exact Hf|].
    intros fm' t' Hin. eapply file_ok_frame; [done|done|by apply Hfree].
  - apply Forall3_app; [|by constructor; [|constructor]]. eapply Forall3_impl'; [exact Hr|].
    intros fm' t' rd' Hin. eapply reader_ok_frame; [done|by apply Hfree].
  - rewrite length_app. cbn [length]. apply Forall_app. split; [|constructor; [lia|constructor]].
    eapply Forall_impl; [exact Hnum|]. cbn. lia.
Qed.

Lemma flush_batch_spec K o outs rest db w :
  keepable K → K = all_entries outs ++ out_batch o ++ rest → 0 ≤ n0 ≤ 2 ^ 63 - 2 ^ 32 →
  out_inv o outs db (w_disk w) →
  wp (flush_batch o) (λ '(s, o') '(db', w'),
    if ok s then ∃ outs', out_inv o' outs' db' (w_disk w') ∧ out_batch o' = [] ∧
      all_entries outs' = all_entries outs ++ out_batch o
    else out_stopped K db' (w_disk w')) (db, w).
Proof.
  intros HK EK Hn0 [Edb Hm Hf Hr Hnum]. unfold flush_batch.
  destruct (out_batch o) as [|e0 batch0] eqn:Eb.
  { apply wp_ret. exists outs. rewrite app_nil_r. split_and!; done. }
  set (batch := e0 :: batch0) in *.
  pose proof (ma_ok _ _ _ _ _ _ Hm) as Hok.
  assert (options_ db = options_ db0 ∧ db_path_ db = path) as [Eo Ep] by (by rewrite Edb).
  assert (tbl_wf (mkTbl batch (bloom_bits_per_key (options_ db)))) as Hwf.
  { rewrite Eo. eapply keepable_segment; [done|exact EK|done|rewrite <- Eo; apply Hok]. }
  pose proof (outs_count _ _ _ _ _ _ EK Hf) as Hcnt. pose proof (keepable_count K HK) as HcK.
  assert (next_file_number (version_ db) = n0 + zlen outs) as En by (by rewrite Edb).
  pose proof (to_next _ _ _ _ (ok_tables _ _ _ Hok)) as Hnx. unfold is_u64 in Hnx.
  assert (is_u64 (next_file_number (version_ db) + 1)) as Hu by (unfold is_u64; lia).
  apply wp_bind. eapply wp_mono; [apply new_table_spec; [apply Hok|done|done]|].
  intros r [db1 w1] (-> & Hwf1 & Hop & Hres). rewrite Ep, En in *.
  assert (maintained db tabs (w_disk w) db tabs (w_disk w1)) as Hm1.
  { apply maintained_new_table; rewrite ?Ep, ?En; [done|unfold is_u64; lia|done|done]. }
  assert (maintained db0 tabs d0 (bump db) tabs (w_disk w1)) as Hm2.
  { eapply maintained_trans; [exact Hm|]. eapply maintained_trans; [exact Hm1|].
    apply maintained_bump; [by rewrite En|apply Hm1]. }
  destruct r as [s|[fm rd]]; apply wp_ret.
  { destruct Hres as [Hs Hff]. rewrite Hs. split_and!; [|done|done].
    exists (n0 + zlen outs + 1). rewrite Edb. split; [done|lia]. }
  destruct Hres as (Hfn & Hfm & Hrd). rewrite ok_OK.
  set (t := mkTbl batch (bloom_bits_per_key (options_ db))) in *. exists (outs ++ [t]).
  split_and!; [|done|rewrite all_entries_app; unfold all_entries at 2; cbn; by rewrite app_nil_r].
  eapply out_inv_extend; [apply Hok|by split| |done..]. lia.
Qed.

Lemma write_merged_spec drop target K m o outs db w :
  keepable K → 0 ≤ n0 ≤ 2 ^ 63 - 2 ^ 32 →
  K = all_entries outs ++ out_batch o ++ kept drop m.*2 → out_inv o outs db (w_disk w) →
  wp (write_merged drop target m o) (λ '(s, o') '(db', w'),
    if ok s then ∃ outs', out_inv o' outs' db' (w_disk w') ∧
      K = all_entries outs' ++ out_batch o'
    else out_stopped K db' (w_disk w')) (db, w).
Proof.
  intros HK Hn0. revert o outs db w. induction m as [|[k e] m IH]; intros o outs db w EK Hinv.
  { apply wp_ret. exists outs. split; [done|]. rewrite EK. unfold kept. cbn. by rewrite app_nil_r. }
  cbn [write_merged].
  assert (kept drop ((k, e) :: m).*2 =
    if drop && bool_decide (e_type e = EntryType_kDelete) then kept drop m.*2 else e :: kept drop m.*2) as Ek.
  { unfold kept. cbn [fmap list_fmap snd]. rewrite filter_cons.
    by destruct (drop && _); [rewrite decide_False by done|rewrite decide_True by done]. }
  rewrite Ek in EK. clear Ek. destruct (drop && _); [by eapply IH|]. cbv zeta.
  set (bytes' := wrap64 _). set (o1 := mkOutput (out_batch o ++ [e]) bytes' _ _).
  assert (out_inv o1 outs db (w_disk w)) as Hinv1 by (destruct Hinv; by split).
  replace (out_batch o ++ e :: kept drop m.*2) with (out_batch o1 ++ kept drop m.*2) in EK
    by (cbn; by rewrite <- app_assoc).
  destruct (target <=? bytes'); [|by eapply IH].
  apply wp_bind. eapply wp_mono; [by eapply flush_batch_spec|].
  intros [s o2] [db2 w2] H. destruct (ok s) eqn:Es; cbn [negb].
  - destruct H as (outs2 & Hinv2 & Hb2 & Ha2). eapply IH; [|done].
    by rewrite Ha2, Hb2, app_nil_l, <- app_assoc.
  - apply wp_ret. by rewrite Es.
Qed.
End output.

(** ** Installing the output *)

Definition install (l : nat) (fs : list FileMetaData) (rs : list SSTableReader) (db : DB) : DB :=
  set_level (S l) fs rs (set_level l [] [] db).
Definition install_tabs (l : nat) (outs : list tbl) (tabs : nat → list tbl) : nat → list tbl :=
  set_tabs (S l) outs (set_tabs l [] tabs).

Lemma Level_set v l l' fs : (l < length (levels_ v))%nat →
  Level (set_Level v l fs) l' = if decide (l = l') then fs else Level v l'.
Proof. intros H. destruct (decide _) as [<-|]; [by apply Level_set_eq|by apply Level_set_ne]. Qed.

Lemma Level_install db l l' fs rs : length (levels_ (version_ db)) = kMaxLevels →
  (S l < kMaxLevels)%nat → Level (version_ (install l fs rs db)) l' =
    if decide (S l = l') then fs else if decide (l = l') then [] else Level (version_ db) l'.
Proof.
  intros Hlen Hl. unfold install, set_level. cbn [version_ set_version set_readers].
  rewrite Level_set by (cbn; rewrite length_insert; lia). destruct (decide _); [done|].
  by apply Level_set; lia.
Qed.

Lemma readers_install db l l' fs rs : length (open_readers_ db) = kMaxLevels →
  (S l < kMaxLevels)%nat → readers_at (install l fs rs db) l' =
    if decide (S l = l') then rs else if decide (l = l') then [] else readers_at db l'.
Proof.
  intros Hlen Hl. unfold install. destruct (decide (S l = l')) as [<-|].
  - apply readers_set_eq. unfold set_level. cbn. rewrite length_insert. lia.
  - rewrite readers_set_ne by done. destruct (decide (l = l')) as [<-|].
    + apply readers_set_eq. lia.
    + by apply readers_set_ne.
Qed.

Lemma db_ok_install db tabs d l fs rs outs n0 : db_ok db tabs d → (S l < kMaxLevels)%nat →
  Forall2 (file_ok d (db_path_ db)) fs outs →
  Forall3 (reader_ok d (db_path_ db)) fs outs rs →
  Forall (λ fm, n0 ≤ number fm < next_file_number (version_ db)) fs →
  0 ≤ n0 → (∀ l' fm', fm' ∈ Level (version_ db) l' → number fm' < n0) →
  StronglySorted key_lt (table_keys (all_entries outs)) →
  db_ok (install l fs rs db) (install_tabs l outs tabs) d.
Proof.
  intros [? ? ? ? Ht Hrl Hr ?] Hl Hf Hro Hnum Hn0 Hold Hs.
  destruct Ht as [Hlen Hnx Hfs Hnums Hlev Hl0 Hsort]. rewrite Forall_forall in Hnum.
  assert (∀ l', Level (version_ (install l fs rs db)) l' = _) as EL
    by (intros l'; by apply Level_install).
  assert (∀ l' fm', fm' ∈ Level (version_ (install l fs rs db)) l' →
    l' = S l ∧ fm' ∈ fs ∨ fm' ∈ Level (version_ db) l') as Hin.
  { intros l' fm'. rewrite EL. destruct (decide _) as [<-|]; [auto|].
    destruct (decide _); [by intros ?%not_elem_of_nil|auto]. }
  split; try done; [| |intros l'].
  - split; [|done|intros l'| | | |].
    + unfold install. cbn. by rewrite !length_insert.
    + rewrite EL. unfold install_tabs, set_tabs.
      destruct (decide _); [done|]. destruct (decide _); [constructor|done].
    + intros l' fm' [[_ Hin']|Hin']%Hin; [|by eapply Hnums]. apply Hnum in Hin'. cbn. lia.
    + intros l1 l2 fm1 fm2 [[-> H1]|H1]%Hin [[-> H2]|H2]%Hin E; [done|..|by eapply Hlev].
      * apply Hnum in H1. apply Hold in H2. lia.
      * apply Hnum in H2. apply Hold in H1. lia.
    + rewrite EL. destruct (decide _); [lia|]. destruct (decide _); [constructor|done].
    + intros l' Hl'. unfold install_tabs, set_tabs.
      destruct (decide _); [done|]. destruct (decide _); [constructor|by apply Hsort].
  - unfold install. cbn. by rewrite !length_insert.
  - rewrite EL, readers_install by done. unfold install_tabs, set_tabs.
    destruct (decide _); [done|]. destruct (decide _); [constructor|apply Hr].
Qed.

(** The stack before and after. *)
Lemma search_order_install tabs l outs : (S l < kMaxLevels)%nat →
  ∃ A B, search_order tabs = A ++ (level_order l (tabs l) ++ tabs (S l)) ++ B ∧
    search_order (install_tabs l outs tabs) = A ++ outs ++ B ∧ (S l = kMaxLevels - 1 → B = [])%nat.
Proof.
  intros Hl. rewrite !(search_order_split _ l) by done.
  assert (∀ ls, (∀ l', l' ∈ ls → l' ≠ l ∧ l' ≠ S l) →
    concat ((λ l', level_order l' (install_tabs l outs tabs l')) <$> ls) =
    concat ((λ l', level_order l' (tabs l')) <$> ls)) as Hsame.
  { intros ls Hls. f_equal. apply list_fmap_ext. intros i l' Hl'%list_elem_of_lookup_2%Hls.
    unfold install_tabs, set_tabs. by do 2 (rewrite decide_False by naive_solver). }
  rewrite !Hsame by (intros l' ?%elem_of_seq; lia).
  exists (concat ((λ l', level_order l' (tabs l')) <$> seq 0 l)),
    (concat ((λ l', level_order l' (tabs l')) <$> seq (S (S l)) (kMaxLevels - S (S l)))).
  split_and!; [by rewrite <- !app_assoc| |by intros ->].
  assert (install_tabs l outs tabs l = [] ∧ install_tabs l outs tabs (S l) = outs) as [-> ->].
  { unfold install_tabs, set_tabs. rewrite decide_False by lia. by rewrite !decide_True by done. }
  by replace (level_order l []) with (@nil tbl) by (unfold level_order; by destruct (l =? 0)%nat).
Qed.

Lemma live_install tabs l outs (drop : bool) : (S l < kMaxLevels)%nat →
  drop = (S l =? kMaxLevels - 1)%nat →
  stack (tbl_layer <$> outs) =
    (if drop then drop_deleted (stack (tbl_layer <$> level_order l (tabs l) ++ tabs (S l)))
     else stack (tbl_layer <$> level_order l (tabs l) ++ tabs (S l))) →
  live (tables_layer (install_tabs l outs tabs)) = live (tables_layer tabs).
Proof.
  intros Hl Hdrop Ho. unfold tables_layer.
  destruct (search_order_install tabs l outs Hl) as (A & B & -> & -> & HB).
  rewrite fmap_app, stack_app in Ho. rewrite !fmap_app, !stack_app. apply live_union_r. rewrite Ho.
  destruct drop; [|done]. symmetry in Hdrop. apply Nat.eqb_eq in Hdrop. rewrite HB by lia.
  cbn [fmap list_fmap]. rewrite stack_nil, !(right_id_L ∅ (∪)). apply live_drop_deleted.
Qed.

Lemma weight_install tabs l outs : (S l < kMaxLevels)%nat →
  weights (all_entries outs) ≤ weights (all_entries (level_order l (tabs l) ++ tabs (S l))) →
  tables_weight (install_tabs l outs tabs) ≤ tables_weight tabs.
Proof.
  intros Hl Ho. unfold tables_weight.
  destruct (search_order_install tabs l outs Hl) as (A & B & -> & -> & _).
  rewrite !all_entries_app, !weights_app in *. lia.
Qed.

(** Compacting only rearranges the tables. *)
Lemma maintained_install db tabs d l fs rs outs n0 : db_ok db tabs d →
  (S l < kMaxLevels)%nat →
  Forall2 (file_ok d (db_path_ db)) fs outs → Forall3 (reader_ok d (db_path_ db)) fs outs rs →
  Forall (λ fm, n0 ≤ number fm < next_file_number (version_ db)) fs →
  0 ≤ n0 → (∀ l' fm', fm' ∈ Level (version_ db) l' → number fm' < n0) →
  StronglySorted key_lt (table_keys (all_entries outs)) →
  live (tables_layer (install_tabs l outs tabs)) = live (tables_layer tabs) →
  maintained db tabs d (install l fs rs db) (install_tabs l outs tabs) d.
Proof.
  intros Hok Hl Hf Hr Hnum Hn0 Hold Hs Hlive.
  assert (contents (install l fs rs db) (install_tabs l outs tabs) = contents db tabs) as E
    by (unfold contents; cbn; by apply live_union_r).
  split; [done|by eapply db_ok_install|done| |by left].
  intros (v & ptabs & rs' & Hp & Hn & Hc & E1 & E2). exists v, ptabs, rs'. rewrite E.
  split_and!; [done|done|done|done|]. rewrite <- E2. by apply live_union_r.
Qed.

(** The merged map of [CompactLocked]. *)
Definition compact_merge (l : nat) (tabs : nat → list tbl) : merge_map :=
  merge_tables (reverse (level_order l (tabs l))) (merge_tables (tabs (S l)) []).

Lemma compact_merge_spec l tabs : Forall tbl_wf (tabs l) → Forall tbl_wf (tabs (S l)) →
  StronglySorted key_lt (table_keys (all_entries (tabs (S l)))) →
  let m := compact_merge l tabs in
  let ts := level_order l (tabs l) ++ tabs (S l) in
  merged_wf m ∧ table_layer m.*2 = stack (tbl_layer <$> ts) ∧ weights m.*2 ≤ weights (all_entries ts).
Proof.
  intros Hl Ht Hs m ts.
  destruct (merge_tables_spec (tabs (S l)) [] Ht merged_wf_nil) as (H1 & H2 & H3).
  destruct (merge_tables_spec (reverse (level_order l (tabs l))) _
    ltac:(apply Forall_reverse; unfold level_order; destruct (l =? 0)%nat; [by apply Forall_reverse|done]) H1)
    as (H4 & H5 & H6).
  fold (compact_merge l tabs) in H4, H5, H6. fold m in H4, H5, H6. split_and!; [done| |].
  - rewrite H5, H2, reverse_involutive. cbn [fmap list_fmap]. rewrite table_layer_nil, (right_id_L ∅ (∪)).
    unfold ts. rewrite fmap_app, stack_app. f_equal. symmetry. apply stack_perm.
    + by apply sorted_keys_NoDup.
    + by rewrite reverse_Permutation.
  - unfold ts. rewrite all_entries_app, weights_app. cbn in H3.
    assert (weights (all_entries (reverse (level_order l (tabs l)))) =
      weights (all_entries (level_order l (tabs l)))) as Ew
      by (apply weights_perm; unfold all_entries; by rewrite reverse_Permutation). lia.
Qed.

(** The outputs say what the merged levels said. *)
Lemma outs_layer outs (drop : bool) m L : merged_wf m → table_layer m.*2 = L →
  all_entries outs = kept drop m.*2 →
  stack (tbl_layer <$> outs) = (if drop then drop_deleted L else L).
Proof.
  intros Hm <- Ho. rewrite stack_tables, Ho. destruct drop; [|by rewrite kept_all].
  apply kept_layer. apply sorted_keys_NoDup. by apply merged_sorted.
Qed.

Lemma weights_kept drop es : weights (kept drop es) ≤ weights es.
Proof. apply weights_filter. Qed.

Lemma keepable_kept drop m W : merged_wf m → weights m.*2 ≤ W → W ≤ max_weight →
  keepable (kept drop m.*2).
Proof.
  intros Hm Hw HW. split.
  - apply sorted_keys_filter. by apply merged_sorted.
  - apply Forall_forall. intros e [_ He]%list_elem_of_filter. destruct Hm as (_ & _ & Hf).
    rewrite Forall_forall in Hf. by apply Hf.
  - pose proof (weights_kept drop m.*2). lia.
Qed.

Lemma level_tbl_wf d path v tabs l : tables_ok d path v tabs → Forall tbl_wf (tabs l).
Proof.
  intros Ht. apply Forall_lookup. intros i t Hi.
  by destruct (Forall2_lookup_r _ _ _ _ _ (to_files _ _ _ _ Ht l) Hi) as (? & _ & []).
Qed.

(** ** Removing the replaced files *)

Section compact.
Context {O : Oracle}.
Implicit Types (db : DB) (w : World).

(** A number that no file of the version has. *)
Definition unused (v : Version) (n : Z) : Prop :=
  is_u64 n ∧ ∀ l fm, fm ∈ Level v l → number fm ≠ n.

Lemma avoids_unused d path v tabs n : tables_ok d path v tabs → unused v n →
  avoids {[canon (sst_path path n)]} path v.
Proof.
  intros Ht [Hu Hn] l fm Hin. rewrite elem_of_singleton. intros E. apply (Hn l fm Hin).
  apply sst_path_inj in E; [done| |done].
  apply (to_number _ _ _ _ Ht) in Hin. pose proof (to_next _ _ _ _ Ht). unfold is_u64 in *. lia.
Qed.

Lemma remove_tables_spec db tabs nums w : db_ok db tabs (w_disk w) →
  persisted (w_disk w) (db_path_ db) (version_ db) tabs → Forall (unused (version_ db)) nums →
  wp (for_each nums remove_table) (λ _ '(db', w'), db' = db ∧
    maintained db tabs (w_disk w) db tabs (w_disk w')) (db, w).
Proof.
  intros Hok Hp Hnums.
  eapply (wp_mono _ (λ _ '(db', w'), db' = db ∧ maintained db tabs (w_disk w) db tabs (w_disk w') ∧
    persisted (w_disk w') (db_path_ db) (version_ db) tabs)).
  2: { intros _ [db' w'] (? & ? & _). done. }
  eapply (wp_for_each _ _ (λ _ '(db', w'), db' = db ∧
    maintained db tabs (w_disk w) db tabs (w_disk w') ∧
    persisted (w_disk w') (db_path_ db) (version_ db) tabs)); [split_and!; [done|by apply maintained_refl|done]|].
  intros _ n [db1 w1] (-> & Hm1 & Hp1) Hn. rewrite Forall_forall in Hnums. specialize (Hnums n Hn).
  pose proof (ma_ok _ _ _ _ _ _ Hm1) as Hok1. pose proof (ok_disk _ _ _ Hok1) as Hd1.
  unfold remove_table. step_this. rewrite SSTablePath_eq.
  apply wp_bind, wp_lift. eapply wp_mono; [by apply remove_spec|].
  intros b w2 (Hwf2 & Hop & _ & _). apply wp_ret.
  set (P := {[canon (sst_path (db_path_ db) n)]} : gset bytes) in *.
  assert (avoids P (db_path_ db) (version_ db)) as Hav
    by (eapply avoids_unused; [apply Hok1|done]).
  assert (canon (wal_path (db_path_ db)) ∉ P) as Hw
    by (unfold P; rewrite elem_of_singleton; apply not_eq_sym, sst_not_wal).
  assert (persisted (w_disk w2) (db_path_ db) (version_ db) tabs) as Hp2
    by (eapply persisted_frame; [exact Hd1|done|done|apply manifest_not_sst|done]).
  split_and!; [done| |done]. eapply maintained_trans; [exact Hm1|].
  split; [done|by eapply db_ok_frame|done| |].
  2: { apply (clean_kept_log _ _ _ db); [done|]. intros rs. by eapply wal_clean_frame. }
  intros (v & ptabs & rs & _ & _ & Hc & _ & E2). exists (version_ db), tabs, rs.
  split_and!; [done|done|eapply wal_clean_frame; [exact Hd1|done|done|done]|done|done].
Qed.

(** ** [CompactLocked] *)

Definition compact_post (l : nat) db tabs (d : Disk) (s : Status) db' tabs' (d' : Disk) : Prop :=
  maintained db tabs d db' tabs' d' ∧ tables_weight tabs' ≤ tables_weight tabs ∧
  memtable_ db' = memtable_ db ∧ wal_ db' = wal_ db ∧
  next_file_number (version_ db') ≤ next_file_number (version_ db) + 2 ^ 31 ∧
  (ok s = true → Level (version_ db') l = [] ∧
     ∀ l', (l' < l)%nat → Level (version_ db') l' = Level (version_ db) l') ∧
  (FaultFree O → s = OK).

Lemma compact_stopped l db tabs d K db' d' s : db_ok db tabs d → keepable K → ok s = false →
  out_stopped db tabs d K db' d' → ∃ tabs', compact_post l db tabs d s db' tabs' d'.
Proof.
  intros Hok HK Hs ((n & -> & Hn) & Hm & Hff). exists tabs. pose proof (keepable_count K HK).
  split_and!; [done|done|done|done|cbn; lia|congruence|]. intros Hff'. by destruct Hff.
Qed.

(** The readers [CompactLocked] takes, in the order of its local vector. *)
Lemma compact_readers db tabs d l : db_ok db tabs d →
  Forall2 (reads d) (level_order l (tabs l))
    (if (l =? 0)%nat then newest_first (numbered (Level (version_ db) l) (readers_at db l))
     else readers_at db l).
Proof.
  intros Hok. pose proof (level_reads _ _ _ l Hok) as Hr. unfold level_order.
  destruct (Nat.eqb_spec l 0) as [->|]; [|done].
  rewrite (newest_first_level _ _ _ Hok). by apply Forall2_reverse.
Qed.

(** The tail of [CompactLocked]: the new levels are saved, the old files go. *)
Lemma compact_finish db0 tabs d0 l db w o outs olds :
  let n0 := next_file_number (version_ db0) in
  let db' := install l (new_files o) (new_readers o) db in
  let tabs' := install_tabs l outs tabs in
  db_ok db0 tabs d0 → (S l < kMaxLevels)%nat → out_inv db0 tabs d0 o outs db (w_disk w) →
  StronglySorted key_lt (table_keys (all_entries outs)) →
  live (tables_layer tabs') = live (tables_layer tabs) →
  tables_weight tabs' ≤ tables_weight tabs → tables_weight tabs ≤ max_weight →
  olds = number <$> Level (version_ db0) l ++ Level (version_ db0) (S l) → n0 ≤ 2 ^ 63 - 2 ^ 32 →
  zlen outs ≤ 2 ^ 30 →
  wp (check save_version;; for_each olds remove_table;; mret OK) (λ s '(db2, w2),
    compact_post l db0 tabs d0 s db2 tabs' (w_disk w2)) (db', w).
Proof.
  intros n0 db' tabs' Hok0 Hl [Edb Hm Hf Hr Hnum] Hs Hlive Hw Hmax -> Hn0 Hout.
  pose proof (ok_tables _ _ _ Hok0) as Ht0. pose proof (to_next _ _ _ _ Ht0) as Hnx. unfold is_u64 in Hnx.
  pose proof (ma_ok _ _ _ _ _ _ Hm) as Hok.
  assert (∀ l', Level (version_ db) l' = Level (version_ db0) l') as EL by (by rewrite Edb).
  assert (length (levels_ (version_ db)) = kMaxLevels) as Hlen by apply (to_len _ _ _ _ (ok_tables _ _ _ Hok)).
  assert (maintained db0 tabs d0 db' tabs' (w_disk w)) as Hm'.
  { eapply maintained_trans; [exact Hm|].
    assert (db_path_ db = db_path_ db0 ∧ next_file_number (version_ db) = n0 + zlen outs)
      as [Ep En] by (by rewrite Edb).
    apply (maintained_install _ _ _ _ _ _ _ n0); rewrite ?Ep, ?En; try done; [lia|].
    intros l' fm' Hin. rewrite EL in Hin. apply (to_number _ _ _ _ Ht0) in Hin. unfold n0. lia. }
  apply wp_check. eapply wp_mono; [apply (save_version_spec db' tabs'); [apply Hm'|lia]|].
  intros s [db2 w2] (-> & Hm2 & Hper & _ & Hff).
  assert (Level (version_ db') l = [] ∧ ∀ l', (l' < l)%nat →
    Level (version_ db') l' = Level (version_ db0) l') as Hlev.
  { split; [|intros l' Hl']; unfold db'; rewrite Level_install by done.
    - rewrite decide_False by lia. by rewrite decide_True.
    - rewrite !decide_False by lia. apply EL. }
  assert (memtable_ db' = memtable_ db0 ∧ wal_ db' = wal_ db0 ∧
    next_file_number (version_ db') = n0 + zlen outs) as (Emem & Ewal & Enx) by (unfold db'; by rewrite Edb).
  destruct (ok s) eqn:Es.
  2: { split_and!; [by eapply maintained_trans|done|done|done|lia|congruence|done]. }
  specialize (Hper eq_refl). apply wp_bind.
  eapply wp_mono; [apply (remove_tables_spec db' tabs'); [apply Hm2|done|]|].
  - apply Forall_fmap, Forall_forall. intros fm Hin. change (unused (version_ db') (number fm)).
    assert (∃ lo, (lo = l ∨ lo = S l) ∧ fm ∈ Level (version_ db0) lo) as (lo & Hlo & Hin').
    { apply elem_of_app in Hin as [?|?]; eauto. }
    pose proof (to_number _ _ _ _ Ht0 _ _ Hin') as Hb. split; [unfold is_u64; lia|].
    intros l' fm' Hin2. unfold db' in Hin2. rewrite Level_install in Hin2 by done.
    destruct (decide (S l = l')) as [<-|].
    { rewrite Forall_forall in Hnum. apply Hnum in Hin2. fold n0 in Hb. lia. }
    destruct (decide (l = l')) as [<-|]; [set_solver|]. rewrite EL in Hin2.
    intros E. pose proof (to_level _ _ _ _ Ht0 _ _ _ _ Hin2 Hin' E). lia.
  - intros _ [db3 w3] (-> & Hm3). apply wp_ret.
    split_and!; [|done|done|done|lia|done|done]. by do 2 (eapply maintained_trans; [done|]).
Qed.

(** The entries a compaction of level [l] reads. *)
Lemma compact_weights l tabs : (S l < kMaxLevels)%nat →
  weights (all_entries (level_order l (tabs l) ++ tabs (S l))) ≤ tables_weight tabs.
Proof.
  intros Hl. unfold tables_weight. destruct (search_order_install tabs l [] Hl) as (A & B & -> & _).
  rewrite !all_entries_app, !weights_app.
  pose proof (weights_nonneg (all_entries A)). pose proof (weights_nonneg (all_entries B)). lia.
Qed.

(** The merged levels have been written as the files of [o]. *)
Lemma compact_installs l db tabs d0 drop o outs db' w : db_ok db tabs d0 → (S l < kMaxLevels)%nat →
  drop = (S l =? kMaxLevels - 1)%nat → let K := kept drop (compact_merge l tabs).*2 in
  tables_weight tabs ≤ max_weight → next_file_number (version_ db) ≤ 2 ^ 63 - 2 ^ 32 → keepable K →
  merged_wf (compact_merge l tabs) →
  table_layer (compact_merge l tabs).*2 = stack (tbl_layer <$> level_order l (tabs l) ++ tabs (S l)) →
  weights (compact_merge l tabs).*2 ≤ weights (all_entries (level_order l (tabs l) ++ tabs (S l))) →
  out_inv db tabs d0 o outs db' (w_disk w) → all_entries outs = K →
  wp (check save_version;;
      for_each (number <$> Level (version_ db) l ++ Level (version_ db) (S l)) remove_table;; mret OK)
    (λ s '(db2, w2), ∃ tabs', compact_post l db tabs d0 s db2 tabs' (w_disk w2))
    (install l (new_files o) (new_readers o) db', w).
Proof.
  intros Hok Hl -> K Hwt Hnx HK Hmwf Hml Hmw Hinv Ea.
  eapply wp_mono; [eapply (compact_finish db tabs d0); try done|].
  - rewrite Ea. apply HK.
  - eapply (live_install _ _ _ (S l =? kMaxLevels - 1)%nat); [done|done|]. by eapply (outs_layer _ _ (compact_merge l tabs)).
  - apply weight_install; [done|]. rewrite Ea. pose proof (weights_kept (S l =? kMaxLevels - 1)%nat (compact_merge l tabs).*2).
    unfold K. lia.
  - pose proof (keepable_count K HK).
    assert (K = all_entries outs ++ []) as EK by (by rewrite app_nil_r).
    pose proof (outs_count _ _ _ _ _ _ EK (oi_files _ _ _ _ _ _ _ Hinv)). lia.
  - intros s5 [db5 w5] Hpost. by eexists.
Qed.

Lemma CompactLocked_spec l db tabs w : db_ok db tabs (w_disk w) → (S l < kMaxLevels)%nat →
  tables_weight tabs ≤ max_weight → next_file_number (version_ db) ≤ 2 ^ 63 - 2 ^ 32 →
  wp (CompactLocked l) (λ s '(db', w'), ∃ tabs',
    compact_post l db tabs (w_disk w) s db' tabs' (w_disk w')) (db, w).
Proof.
  intros Hok Hl Hwt Hnx. pose proof (ok_tables _ _ _ Hok) as Ht.
  pose proof (to_next _ _ _ _ Ht) as Hnx0. unfold is_u64 in Hnx0.
  destruct (compact_merge_spec l tabs) as (Hmwf & Hml & Hmw);
    [by eapply level_tbl_wf|by eapply level_tbl_wf|apply Ht; lia|].
  set (m := compact_merge l tabs) in *. set (ts := level_order l (tabs l) ++ tabs (S l)) in *.
  pose proof (compact_weights l tabs Hl) as Hts. fold ts in Hts.
  set (drop := (S l =? kMaxLevels - 1)%nat).
  pose proof (keepable_kept drop m _ Hmwf Hmw ltac:(lia)) as HK. set (K := kept drop m.*2) in *.
  assert (∀ s w', w_disk w' = w_disk w → ok s = false → (FaultFree O → s = OK) →
    wp (mret s) (λ s '(db', w'), ∃ tabs', compact_post l db tabs (w_disk w) s db' tabs' (w_disk w'))
      (db, w')) as Hearly.
  { intros s w' Ed Es Hff. apply wp_ret. exists tabs. rewrite Ed.
    split_and!; [by apply maintained_refl|done|done|done|lia|congruence|done]. }
  unfold CompactLocked. cbv zeta. destruct (Nat.leb_spec kMaxLevels (S l)); [lia|].
  step_this. step_this. apply wp_bind, wp_lift.
  eapply wp_mono; [by apply merge_readers_spec, (level_reads _ _ _ (S l) Hok)|].
  intros [s1 m1] w1 (Ed1 & Hs1 & Hff1). destruct (ok s1) eqn:Es1; cbn [negb]; [|by apply Hearly].
  apply wp_bind, wp_lift.
  eapply wp_mono; [eapply merge_readers_spec; rewrite Ed1; by eapply Forall2_reverse, compact_readers|].
  intros [s2 m2] w2 (Ed2 & Hs2 & Hff2).
  destruct (ok s2) eqn:Es2; cbn [negb]; [|apply Hearly; [congruence|done|done]].
  rewrite (Hs1 eq_refl) in Hs2. specialize (Hs2 eq_refl). fold (compact_merge l tabs) in Hs2. fold m in Hs2.
  subst m2. step_this. fold drop.
  assert (out_inv db tabs (w_disk w) (mkOutput [] 0 [] []) [] db (w_disk w2)) as Hinv0.
  { rewrite Ed2, Ed1. split; [|by apply maintained_refl|constructor..].
    cbn [length]. by rewrite Z.add_0_r, with_next_id. }
  apply wp_bind. eapply wp_mono; [apply (write_merged_spec db tabs (w_disk w) drop _ K _ _ []); [done|lia|done|done]|].
  intros [s3 o3] [db3 w3] H3. destruct (ok s3) eqn:Es3; cbn [negb].
  2: { apply wp_ret. by eapply compact_stopped. }
  destruct H3 as (outs3 & Hinv3 & EK3).
  apply wp_bind. eapply wp_mono; [apply (flush_batch_spec db tabs (w_disk w) K o3 outs3 []);
    [done|by rewrite app_nil_r|lia|done]|].
  intros [s4 o4] [db4 w4] H4. destruct (ok s4) eqn:Es4; cbn [negb].
  2: { apply wp_ret. by eapply compact_stopped. }
  destruct H4 as (outs & Hinv & _ & Ea). rewrite <- EK3 in Ea.
  assert (∀ l', Level (version_ db4) l' = Level (version_ db) l') as EL4 by (by rewrite (oi_db _ _ _ _ _ _ _ Hinv)).
  step_this. rewrite !EL4. step_update. step_update. fold (install l (new_files o4) (new_readers o4) db4).
  by eapply (compact_installs l db tabs (w_disk w) drop).
Qed.
End compact.

(** ** Which level is compacted next *)

(** The size limit of level [lvl], as the loop computes it. *)
Fixpoint level_target (db : DB) (n : nat) (target : Z) : Z :=
  match n with
  | O => target
  | S n' => level_target db n' (wrap64 (target * Z.max 1 (level_size_multiplier (options_ db))))
  end.
Definition overfull (db : DB) (lvl : nat) : bool :=
  match lvl with
  | O => l0_compaction_trigger (options_ db) <=? to_int (zlen (Level (version_ db) 0))
  | S n => level_target db n (level1_target_bytes (options_ db)) <? level_total (Level (version_ db) lvl)
  end.

Lemma needs_compaction_from_spec db n lvl target :
  match needs_compaction_from db n lvl target with
  | Some l => (lvl ≤ l < lvl + n)%nat ∧
      (∀ l', (lvl ≤ l' < l)%nat → (level_target db (l' - lvl) target <? level_total (Level (version_ db) l')) = false) ∧
      (level_target db (l - lvl) target <? level_total (Level (version_ db) l)) = true
  | None => ∀ l', (lvl ≤ l' < lvl + n)%nat →
      (level_target db (l' - lvl) target <? level_total (Level (version_ db) l')) = false
  end.
Proof.
  revert lvl target. induction n as [|n IH]; intros lvl target; cbn [needs_compaction_from]; [lia|].
  destruct (target <? level_total (Level (version_ db) lvl)) eqn:E.
  { rewrite Nat.sub_diag. split_and!; [lia|lia|lia|done]. }
  set (target' := wrap64 _). specialize (IH (S lvl) target').
  assert (∀ l', (lvl < l')%nat → level_target db (l' - lvl) target = level_target db (l' - S lvl) target') as Hstep.
  { intros l' Hl. by replace (l' - lvl)%nat with (S (l' - S lvl)) by lia. }
  assert (∀ l', l' = lvl → (level_target db (l' - lvl) target <? level_total (Level (version_ db) l')) = false) as H0.
  { intros l' ->. by rewrite Nat.sub_diag. }
  destruct (needs_compaction_from db n (S lvl) target') as [l|].
  - destruct IH as (Hl & Hlt & Ht). split_and!; [lia|lia| |by rewrite Hstep by lia].
    intros l' Hl'. destruct (decide (l' = lvl)); [by apply H0|]. rewrite Hstep by lia. apply Hlt. lia.
  - intros l' Hl'. destruct (decide (l' = lvl)); [by apply H0|]. rewrite Hstep by lia. apply IH. lia.
Qed.

(** [NeedsCompactionLocked] finds the first overfull level. *)
Lemma NeedsCompactionLocked_spec db :
  match NeedsCompactionLocked db with
  | Some l => (S l < kMaxLevels)%nat ∧ overfull db l = true ∧ ∀ l', (l' < l)%nat → overfull db l' = false
  | None => ∀ l', (S l' < kMaxLevels)%nat → overfull db l' = false
  end.
Proof.
  unfold NeedsCompactionLocked. destruct (_ <=? _) eqn:E0.
  { split_and!; [unfold kMaxLevels; lia|done|lia]. }
  pose proof (needs_compaction_from_spec db (kMaxLevels - 2) 1 (level1_target_bytes (options_ db))) as H.
  assert (∀ l', (1 ≤ l')%nat → overfull db l' =
    (level_target db (l' - 1) (level1_target_bytes (options_ db)) <? level_total (Level (version_ db) l'))) as Hof.
  { intros [|l'] ?; [lia|]. cbn [overfull]. by replace (S l' - 1)%nat with l' by lia. }
  destruct (needs_compaction_from _ _ _ _) as [l|].
  - destruct H as (Hl & Hlt & Ht). unfold kMaxLevels in *. split_and!; [lia|by rewrite Hof by lia|].
    intros [|l'] Hl'; [done|]. rewrite Hof by lia. apply Hlt. lia.
  - unfold kMaxLevels in *. intros [|l'] Hl'; [done|]. rewrite Hof by lia. apply H. lia.
Qed.

Lemma level_target_nonneg db n target : 0 ≤ target → 0 ≤ level_target db n target.
Proof.
  revert target. induction n as [|n IH]; intros target Ht; [done|]. cbn. apply IH.
  by destruct (wrap64_u64 (target * Z.max 1 (level_size_multiplier (options_ db)))).
Qed.

(** Options under which compaction ends. *)
Definition compaction_ok (o : Options) : Prop :=
  1 ≤ l0_compaction_trigger o ∧ 0 ≤ level1_target_bytes o.

Lemma empty_not_overfull db l : compaction_ok (options_ db) → Level (version_ db) l = [] →
  overfull db l = false.
Proof.
  intros [Ht H1] E. destruct l as [|n]; cbn [overfull]; rewrite E.
  - change (to_int (zlen (@nil FileMetaData))) with 0. apply Z.leb_gt. lia.
  - cbn. apply Z.ltb_ge. by apply level_target_nonneg.
Qed.

Lemma overfull_same db db' l : options_ db' = options_ db →
  Level (version_ db') l = Level (version_ db) l → overfull db' l = overfull db l.
Proof.
  intros Eo El. destruct l as [|n]; cbn [overfull]; rewrite El, Eo; [done|]. f_equal.
  clear El.   generalize (level1_target_bytes (options_ db)). induction n as [|n IH]; intros t; [done|].
  cbn. by rewrite Eo, IH.
Qed.

(** ** The compaction loop *)

Section loop.
Context {O : Oracle}.
Implicit Types (db : DB) (w : World).

Definition loop_post db tabs (d : Disk) (r : option Status) db' tabs' (d' : Disk) : Prop :=
  maintained db tabs d db' tabs' d' ∧ tables_weight tabs' ≤ tables_weight tabs ∧
  memtable_ db' = memtable_ db ∧ wal_ db' = wal_ db ∧ (FaultFree O → r = None ∨ r = Some OK) ∧
  (compaction_ok (options_ db) → r ≠ None).

Lemma compact_loop_spec fuel k db tabs w : db_ok db tabs (w_disk w) →
  tables_weight tabs ≤ max_weight →
  next_file_number (version_ db) + Z.of_nat fuel * 2 ^ 31 ≤ 2 ^ 63 - 2 ^ 32 →
  (kMaxLevels ≤ S (k + fuel))%nat →
  (compaction_ok (options_ db) → ∀ l, (l < k)%nat → overfull db l = false) →
  wp (compact_loop fuel) (λ r '(db', w'), ∃ tabs',
    loop_post db tabs (w_disk w) r db' tabs' (w_disk w') ∧
    (ok (default (IOError []) r) = true → NeedsCompactionLocked db' = None) ∧
    next_file_number (version_ db') ≤ next_file_number (version_ db) + Z.of_nat fuel * 2 ^ 31) (db, w).
Proof.
  revert k db tabs w. induction fuel as [|fuel IH]; intros k db tabs w Hok Hwt Hnx Hk Hlow.
  - cbn [compact_loop]. step_this. pose proof (NeedsCompactionLocked_spec db) as Hn.
    destruct (NeedsCompactionLocked db) as [l|] eqn:En; apply wp_ret; exists tabs;
      (split; [split_and!; [by apply maintained_refl|done|done|done|auto|]|split; [done|lia]]); [|done].
    intros Hc _. destruct Hn as (Hl & Ho & _). rewrite (Hlow Hc l) in Ho by lia. done.
  - cbn [compact_loop]. step_this. pose proof (NeedsCompactionLocked_spec db) as Hn.
    destruct (NeedsCompactionLocked db) as [l|] eqn:En.
    2: { apply wp_ret. exists tabs. split; [split_and!; [by apply maintained_refl|..]; first [done|auto]|]. split; [done|lia]. }
    destruct Hn as (Hl & Ho & Hbelow).
    apply wp_bind. eapply wp_mono; [apply CompactLocked_spec; [done|done|done|lia]|].
    intros s [db1 w1] (tabs1 & Hm & Hw & Emem & Ewal & Hnx1 & Hlev & Hff).
    destruct (ok s) eqn:Es.
    2: { apply wp_ret. exists tabs1. split; [split_and!; [done|done|done|done| |done]|split; [cbn; congruence|lia]].
         intros Hff'. by rewrite Hff in Es. }
    destruct (Hlev eq_refl) as [Hl0 Hsame].
    pose proof (sc_options _ _ (ma_config _ _ _ _ _ _ Hm)) as Eo.
    eapply wp_mono; [apply (IH (S (Nat.max k l))); [apply Hm|lia|lia|lia|]|].
    + rewrite Eo. intros Hc l' Hl'. destruct (decide (l' < l)%nat) as [Hlt|].
      { rewrite (overfull_same db) by (done || by apply Hsame). by apply Hbelow. }
      destruct (decide (l' = l)) as [->|]; [apply empty_not_overfull; [by rewrite Eo|done]|].
      exfalso. rewrite (Hlow Hc l) in Ho by lia. done.
    + intros r [db2 w2] (tabs2 & (Hm2 & Hw2 & Emem2 & Ewal2 & Hff2 & Hc2) & Hdone & Hnx2). exists tabs2.
      split; [|split; [done|lia]]. split_and!; [by eapply maintained_trans|lia|congruence|congruence|done|by rewrite <- Eo].
Qed.

Lemma flush_light db tabs d s db' tabs' d' : flush_post db tabs d s db' tabs' d' →
  FaultFree O → (wal_open db → wal_open db') ∧ modest 0 1 db tabs d db' tabs' d'.
Proof.
  intros Hpost Hff. split; [|by apply flush_modest in Hpost as [? _]]. by apply Hpost.
Qed.

Lemma modest_refl db tabs d : modest 0 1 db tabs d db tabs d.
Proof. split; [lia|lia|done]. Qed.

(** A flush followed by compaction, for [MaybeFlushLocked], [Flush] and the
    background thread. *)
Definition maintain_post db tabs (d : Disk) (r : option Status) db' tabs' (d' : Disk) : Prop :=
  maintained db tabs d db' tabs' d' ∧
  (FaultFree O → (r = None ∨ r = Some OK) ∧ (wal_open db → wal_open db')) ∧
  (compaction_ok (options_ db) → r ≠ None) ∧
  (FaultFree O → modest 0 number_stride db tabs d db' tabs' d').

Lemma maintain_fail db tabs d s db' tabs' d' : flush_post db tabs d s db' tabs' d' → ok s = false →
  maintain_post db tabs d (Some s) db' tabs' d'.
Proof.
  intros (Hm & _ & _ & _ & Hff) Es. split_and!; [done| |done|]; by intros [-> _]%Hff.
Qed.

(** Compaction after an operation that was modest. *)
Lemma loop_modest db tabs d db1 tabs1 d1 r db2 tabs2 d2 : maintained db tabs d db1 tabs1 d1 →
  modest 0 1 db tabs d db1 tabs1 d1 → loop_post db1 tabs1 d1 r db2 tabs2 d2 →
  next_file_number (version_ db2) ≤ next_file_number (version_ db1) + Z.of_nat loop_fuel * 2 ^ 31 →
  modest 0 number_stride db tabs d db2 tabs2 d2.
Proof.
  intros Hm [Ht Hn Hl] (Hm2 & Hw & Emem & _) Hx. unfold total, number_stride, loop_fuel, kMaxLevels in *.
  split; [unfold total; rewrite Emem; lia|lia|]. intros Hd Hll He.
  eapply logless_kept; [exact Hm2|by apply Hm|]. apply Hl; [done|done|by rewrite <- Emem].
Qed.

Lemma loop_after db tabs w db1 tabs1 w1 : maintained db tabs (w_disk w) db1 tabs1 (w_disk w1) →
  (FaultFree O → (wal_open db → wal_open db1) ∧ modest 0 1 db tabs (w_disk w) db1 tabs1 (w_disk w1)) →
  tables_weight tabs1 ≤ max_weight → next_file_number (version_ db1) ≤ 2 ^ 62 + 1 →
  wp (compact_loop loop_fuel) (λ r '(db', w'), ∃ tabs',
    maintain_post db tabs (w_disk w) r db' tabs' (w_disk w') ∧ memtable_ db' = memtable_ db1 ∧
    (ok (default (IOError []) r) = true → NeedsCompactionLocked db' = None)) (db1, w1).
Proof.
  intros Hm Hwal Hwt Hnx.
  eapply wp_mono; [apply (compact_loop_spec _ 0); [apply Hm|done|unfold loop_fuel, kMaxLevels; lia|
    unfold loop_fuel; lia|lia]|].
  intros r [db2 w2] (tabs2 & Hpost & Hn & Hx). pose proof Hpost as (Hm2 & _ & Emem & Ewal & Hff & Hc).
  exists tabs2. split_and!; [|done|done].
  rewrite (sc_options _ _ (ma_config _ _ _ _ _ _ Hm)) in Hc.
  split_and!; [by eapply maintained_trans| |done|].
  - intros Hff'. split; [by apply Hff|]. unfold wal_open in *. rewrite Ewal. by apply Hwal.
  - intros Hff'. eapply loop_modest; [exact Hm|by apply Hwal|done|done].
Qed.

Lemma flush_then_compact_spec {A} db tabs w (k : Status → M A) (Q : A → DB * World → Prop) :
  db_ok db tabs (w_disk w) → within_limits db tabs →
  (∀ s db' tabs' w', flush_post db tabs (w_disk w) s db' tabs' (w_disk w') →
     tables_weight tabs' ≤ max_weight → next_file_number (version_ db') ≤ 2 ^ 62 + 1 →
     wp (k s) Q (db', w')) →
  wp (FlushMemTableLocked ≫= k) Q (db, w).
Proof.
  intros Hok Hlim Hk. apply wp_bind. eapply wp_mono; [by apply FlushMemTableLocked_spec|].
  intros s [db1 w1] (tabs1 & Hpost). pose proof Hpost as (_ & Hw & Hn & _). destruct Hlim as [Hlw Hln].
  eapply Hk; [done|lia|lia].
Qed.

Lemma Flush_spec db tabs w : db_ok db tabs (w_disk w) → within_limits db tabs →
  wp Flush (λ r '(db', w'), ∃ tabs', maintain_post db tabs (w_disk w) r db' tabs' (w_disk w') ∧
    (ok (default (IOError []) r) = true →
       MemTable_empty (memtable_ db') = true ∧ NeedsCompactionLocked db' = None)) (db, w).
Proof.
  intros Hok Hlim. apply (flush_then_compact_spec db tabs); [done..|].
  intros s db1 tabs1 w1 Hpost Hw Hn. destruct (ok s) eqn:Es; cbn [negb].
  - eapply wp_mono; [apply (loop_after db tabs w _ tabs1); [apply Hpost|by eapply flush_light|done..]|].
    intros r [db2 w2] (tabs2 & Hm & Emem & Hnc). exists tabs2. split; [done|]. rewrite Emem.
    intros Hr. split; [by apply Hpost|by apply Hnc].
  - apply wp_ret. exists tabs1. split; [by apply maintain_fail|cbn; congruence].
Qed.

Lemma MaybeFlushLocked_spec db tabs w : db_ok db tabs (w_disk w) → within_limits db tabs →
  wp MaybeFlushLocked (λ r '(db', w'), ∃ tabs',
    maintain_post db tabs (w_disk w) r db' tabs' (w_disk w')) (db, w).
Proof.
  intros Hok Hlim. unfold MaybeFlushLocked. step_this. cbn [id].
  destruct (_ <=? _).
  - apply (flush_then_compact_spec db tabs); [done..|]. intros s db1 tabs1 w1 Hpost Hw Hn.
    destruct (ok s) eqn:Es; cbn [negb].
    + eapply wp_mono; [apply (loop_after db tabs w _ tabs1); [apply Hpost|by eapply flush_light|done..]|].
      intros r [db2 w2] (tabs2 & ? & _). by exists tabs2.
    + apply wp_ret. exists tabs1. by apply maintain_fail.
  - apply wp_bind, wp_ret. cbn [negb]. destruct Hlim as [Hw Hn].
    pose proof (weights_nonneg (mem_entries (memtable_ db))).
    eapply wp_mono; [apply (loop_after db tabs w _ tabs); [by apply maintained_refl|intros _; split; [done|apply modest_refl]|lia|lia]|].
    intros r [db2 w2] (tabs2 & ? & _). by exists tabs2.
Qed.
End loop.
