(* ===== verification/DBRead.v ===== *)
(** * Reading the database: [Get] and [NewIterator]

    Both compute the contents of the tree when no read fails; neither changes
    anything under any oracle. *)

From S2P Require Import Prelude Slice Status OrderedMap MemTable WriteBatch FileSystem Wal.
From S2P Require Import SSTable SSTableSpec Version DB DBPaths Layers DBInv DBFlush DBReaders.

(** ** Point lookups *)

(** The keys of a table lie between its first and its last one. *)
Lemma key_range es k kmin kmax : StronglySorted key_lt (table_keys es) → k ∈ table_keys es →
  head (table_keys es) = Some kmin → last (table_keys es) = Some kmax →
  Slice_ltb k kmin = false ∧ Slice_ltb kmax k = false.
Proof.
  generalize (table_keys es) as ks. intros ks Hs Hk Hmin Hmax.
  rewrite !Slice_ltb_false. split.
  - destruct ks as [|k0 ks]; [done|]. injection Hmin as ->.
    apply StronglySorted_inv in Hs as [_ Hlt]. rewrite Forall_forall in Hlt.
    apply elem_of_cons in Hk as [->|Hk]; [by left|right; by apply Hlt].
  - clear Hmin. apply last_Some in Hmax as [l ->].
    apply elem_of_app in Hk as [Hk|Hk%list_elem_of_singleton]; [|by left].
    right. eapply StronglySorted_app_1_elem_of; [done..|]. by apply list_elem_of_singleton.
Qed.

Lemma out_of_range d path fm t key : file_ok d path fm t →
  Slice_ltb key (min_key fm) || Slice_ltb (max_key fm) key = true → tbl_layer t !! key = None.
Proof.
  intros [Hwf Hmin Hmax _ _] Hr. apply table_layer_None. intros Hk.
  destruct (key_range _ _ _ _ (tw_sorted _ _ Hwf) Hk Hmin Hmax) as [E1 E2]. by rewrite E1, E2 in Hr.
Qed.

Section get.
Context {O : Oracle}.
Implicit Types (db : DB) (w : World).

(** What searching the tables [ts] for [key] must give. *)
Definition probe_post (key value : bytes) (del : bool) (ts : list tbl) (r : bool * bytes * bool) :
    Prop :=
  (FaultFree O → r = match stack (tbl_layer <$> ts) !! key with
                     | None => (false, value, del)
                     | Some x => (true, (get_answer x value).1, (get_answer x value).2)
                     end) ∧
  (r.1.1 = true → r.2 = false → ∃ t, t ∈ ts ∧ tbl_layer t !! key = Some (Some r.1.2)) ∧
  (r.1.1 = false → r.2 = del).

Lemma probe_nil key value del : probe_post key value del [] (false, value, del).
Proof. split_and!; [|done|done]. intros _. cbn [fmap list_fmap]. by rewrite stack_nil, lookup_empty. Qed.

(** A table without the key can be skipped. *)
Lemma probe_skip key value del t ts r : tbl_layer t !! key = None →
  probe_post key value del ts r → probe_post key value del (t :: ts) r.
Proof.
  intros Ht (H1 & H2 & H3). split_and!; [|intros ? ?; destruct H2 as (t' & ? & ?); set_solver|done].
  intros Hff. rewrite (H1 Hff). cbn [fmap list_fmap]. rewrite stack_cons, lookup_union, Ht.
  by rewrite (left_id_L None (∪)).
Qed.

(** Search [ts1]; if the key is not found there, go on with [ts2]. *)
Lemma probe_app key value del ts1 ts2 r1 r2 : probe_post key value del ts1 r1 →
  (r1.1.1 = false → probe_post key r1.1.2 r1.2 ts2 r2) → (r1.1.1 = true → r2 = r1) →
  probe_post key value del (ts1 ++ ts2) r2.
Proof.
  intros (H1 & H2 & H3) Hno Hyes. destruct r1 as [[[] v] dl]; cbn in *.
  - rewrite (Hyes eq_refl). split_and!; cbn; [|intros _ Hd|done].
    + intros Hff. specialize (H1 Hff). rewrite fmap_app, stack_app, lookup_union.
      destruct (stack (tbl_layer <$> ts1) !! key); [by rewrite union_Some_l|done].
    + destruct (H2 eq_refl Hd) as (t & ? & ?). exists t. set_solver.
  - destruct (Hno eq_refl) as (K1 & K2 & K3). specialize (H3 eq_refl) as ->. split_and!; [| |done].
    + intros Hff. rewrite (K1 Hff), fmap_app, stack_app, lookup_union. specialize (H1 Hff).
      destruct (stack (tbl_layer <$> ts1) !! key); [done|].
      injection H1 as ->. by rewrite (left_id_L None (∪)).
    + intros Hf Hd. destruct (K2 Hf Hd) as (t & ? & ?). exists t. set_solver.
Qed.

Lemma probe_one key value del t r w : reads (w_disk w) t r →
  wp (SSTableReader_Get r key value del)
    (λ res w', w_disk w' = w_disk w ∧ probe_post key value del [t] res) w.
Proof.
  intros Hr. eapply wp_mono; [by eapply read_get_spec|].
  intros [[f v] dl] w' [Ed H]. split; [done|]. unfold probe_post. cbn [fmap list_fmap fst snd].
  rewrite stack_cons, stack_nil, (right_id_L ∅ (∪)).
  destruct (tbl_layer t !! key) as [x|] eqn:Ex.
  - destruct H as (Hf & Hnf & Hff). split_and!; [| |done].
    + intros Hff'. specialize (Hff Hff') as ->. by rewrite <- (Hf eq_refl).
    + intros -> ->. specialize (Hf eq_refl). exists t. split; [set_solver|]. rewrite Ex.
      by destruct x; injection Hf as ->.
  - destruct H as [-> [= -> ->]]. by split_and!.
Qed.

(** Continue with [k] where the key is not found. *)
Lemma probe_bind key value del ts1 ts2 (m : ST World (bool * bytes * bool))
    (k : bytes → bool → ST World (bool * bytes * bool)) w :
  wp m (λ res w', w_disk w' = w_disk w ∧ probe_post key value del ts1 res) w →
  (∀ v dl w', w_disk w' = w_disk w →
     wp (k v dl) (λ res w'', w_disk w'' = w_disk w ∧ probe_post key v dl ts2 res) w') →
  wp ('(found, value, del) ← m; if found : bool then mret (true, value, del) else k value del)
    (λ res w', w_disk w' = w_disk w ∧ probe_post key value del (ts1 ++ ts2) res) w.
Proof.
  intros Hm Hk. apply wp_bind. eapply wp_mono; [exact Hm|]. intros [[f v] dl] w1 [Ed H1]. destruct f.
  - apply wp_ret. split; [done|]. eapply probe_app; [exact H1|done|done].
  - eapply wp_mono; [by apply Hk|]. intros r2 w2 [Ed2 H2]. split; [done|].
    eapply probe_app; [exact H1|done|done].
Qed.

Lemma probe_l0_spec key value del ts rs w : Forall2 (reads (w_disk w)) ts rs →
  wp (probe_l0 rs key value del)
    (λ res w', w_disk w' = w_disk w ∧ probe_post key value del ts res) w.
Proof.
  intros H. remember (w_disk w) as d eqn:Ed. revert value del w Ed.
  induction H as [|t r ts rs Hr _ IH]; intros value del w Ed.
  { apply wp_ret. split; [done|apply probe_nil]. }
  cbn [probe_l0]. subst d. apply (probe_bind key value del [t] ts).
  - by apply probe_one.
  - intros v dl w' Ed. by apply IH.
Qed.

Lemma probe_level_spec key value del path fms ts rs w :
  Forall2 (file_ok (w_disk w) path) fms ts → Forall2 (reads (w_disk w)) ts rs →
  wp (probe_level (zip fms rs) key value del)
    (λ res w', w_disk w' = w_disk w ∧ probe_post key value del ts res) w.
Proof.
  intros Hf H. remember (w_disk w) as d eqn:Ed. revert fms Hf value del w Ed.
  induction H as [|t r ts rs Hr _ IH]; intros fms Hf value del w Ed.
  { apply Forall2_nil_inv_r in Hf as ->. apply wp_ret. split; [done|apply probe_nil]. }
  apply Forall2_cons_inv_r in Hf as (fm & fms' & Hfm & Hf & ->). cbn [zip zip_with probe_level].
  destruct (_ || _) eqn:Er.
  - eapply wp_mono; [by apply IH|]. intros res w' [Ed' Hp]. split; [done|].
    apply probe_skip; [|done]. by eapply out_of_range.
  - subst d. apply (probe_bind key value del [t] ts); [by apply probe_one|].
    intros v dl w' Ed. by apply IH.
Qed.

Lemma probe_levels_spec key value del db tabs ls w : db_ok db tabs (w_disk w) →
  wp (probe_levels (level_files db <$> ls) key value del)
    (λ res w', w_disk w' = w_disk w ∧ probe_post key value del (concat (tabs <$> ls)) res) w.
Proof.
  intros Hok. remember (w_disk w) as d eqn:Ed. revert value del w Ed.
  induction ls as [|l ls IH]; intros value del w Ed.
  { apply wp_ret. split; [done|apply probe_nil]. }
  cbn [fmap list_fmap probe_levels concat]. subst d.
  apply (probe_bind key value del (tabs l) (concat (tabs <$> ls))).
  - eapply probe_level_spec; [apply (ok_tables _ _ _ Hok)|by apply level_reads].
  - intros v dl w' Ed. by apply IH.
Qed.

(** The answer of [Get] for the contents [m]. *)
Definition get_result (m : gmap bytes bytes) (key value : bytes) : Status * bytes :=
  match m !! key with Some v => (OK, v) | None => (NotFound key, value) end.

Lemma found_answer key value x :
  (found_status key (get_answer x value).2, (get_answer x value).1) =
  match x with Some v => (OK, v) | None => (NotFound key, value) end.
Proof. by destruct x. Qed.

Definition get_post db tabs (key value : bytes) (r : Status * bytes) : Prop :=
  (FaultFree O → r = get_result (contents db tabs) key value) ∧
  (ok r.1 = true → mem_layer (memtable_ db) !! key = Some (Some r.2) ∨
     ∃ t, t ∈ search_order tabs ∧ tbl_layer t !! key = Some (Some r.2)).

Lemma found_post db tabs key value ts v dl : mem_layer (memtable_ db) !! key = None →
  ts `prefix_of` search_order tabs →
  probe_post key value false ts (true, v, dl) →
  get_post db tabs key value (found_status key dl, v).
Proof.
  intros Hmem [ts' Hts] (H1 & H2 & _). split.
  - intros Hff. specialize (H1 Hff). unfold get_result, contents.
    rewrite live_union_lookup, Hmem, live_lookup. unfold tables_layer.
    rewrite Hts, fmap_app, stack_app, lookup_union.
    destruct (stack (tbl_layer <$> ts) !! key) as [x|]; [|done].
    injection H1 as -> ->. rewrite union_Some_l. cbn. by destruct x.
  - cbn [fst snd]. destruct dl; [done|]. intros _. right. destruct (H2 eq_refl eq_refl) as (t & Hin & Ht).
    exists t. split; [|done]. rewrite Hts. apply elem_of_app. by left.
Qed.

Lemma Get_spec db tabs key value w : db_ok db tabs (w_disk w) → closed_ db = false →
  wp (Get key value) (λ r '(db', w'), db' = db ∧ w_disk w' = w_disk w ∧ get_post db tabs key value r)
    (db, w).
Proof.
  intros Hok Hcl. unfold Get. step_this. cbn [id]. rewrite Hcl, MemTable_Get_layer by apply Hok.
  destruct (mem_layer (memtable_ db) !! key) as [[v|]|] eqn:Em.
  { apply wp_ret. split_and!; [done..|]. split; [|by left]. intros _. unfold get_result, contents.
    by rewrite live_union_lookup, Em. }
  { apply wp_ret. split_and!; [done..|]. split; [|done]. intros _. unfold get_result, contents.
    by rewrite live_union_lookup, Em. }
  pose proof (search_order_0 tabs) as Hso.
  apply wp_bind, wp_lift. rewrite (newest_first_level _ _ _ Hok).
  eapply wp_mono; [apply probe_l0_spec, Forall2_reverse; by apply level_reads|].
  intros [[f v] dl] w1 [Ed1 H1]. destruct f.
  { apply wp_ret. split_and!; [done..|]. eapply found_post; [done| |exact H1]. rewrite Hso. by eexists. }
  apply wp_bind, wp_lift.
  eapply wp_mono; [apply probe_levels_spec; by rewrite Ed1|]. intros [[f2 v2] dl2] w2 [Ed2 H2].
  assert (probe_post key value false (search_order tabs) (f2, v2, dl2)) as H.
  { rewrite Hso. eapply probe_app; [exact H1|done|done]. }
  destruct f2; apply wp_ret; (split_and!; [done|congruence|]).
  { by eapply found_post. }
  split; [|done]. intros Hff. destruct H as (H & _ & _). specialize (H Hff). unfold get_result, contents.
  rewrite live_union_lookup, Em, live_lookup. unfold tables_layer.
  destruct (stack _ !! key); [done|]. by injection H as ->.
Qed.
End get.

(** ** The snapshot iterator *)

(** An entry as an operation on the snapshot. *)
Definition entry_op (e : SSTableEntry) : op :=
  if decide (e_type e = EntryType_kDelete) then OpDelete (e_key e) else OpPut (e_key e) (e_value e).

(** The snapshot [s] holds the live bindings of [L]. *)
Definition snapshot_of (s : list (bytes * bytes)) (L : layer) : Prop :=
  omap_wf s ∧ omap_to_gmap s = live L.

Lemma snapshot_of_nil : snapshot_of [] ∅.
Proof. split; [apply omap_wf_nil|]. by rewrite live_empty. Qed.

Lemma layer_entry_op L e : layer_op L (entry_op e) = <[e_key e := entry_opt e]> L.
Proof. unfold entry_op, entry_opt. by destruct (decide _). Qed.

Lemma apply_entry_spec s e L : snapshot_of s L →
  snapshot_of (apply_entry s e) (<[e_key e := entry_opt e]> L).
Proof.
  intros [Hs E]. unfold snapshot_of. rewrite <- layer_entry_op, live_layer_op, <- E.
  unfold apply_entry, entry_op. destruct (decide _); cbn [map_op].
  - split; [by apply omap_erase_wf|by apply omap_erase_spec].
  - split; [by apply omap_insert_wf|by apply omap_insert_spec].
Qed.

(** Applying a table's entries puts the table on top. *)
Lemma apply_entries_spec es s L : NoDup (table_keys es) → snapshot_of s L →
  snapshot_of (fold_left apply_entry es s) (table_layer es ∪ L).
Proof.
  revert s L. induction es as [|e es IH]; intros s L Hn Hs.
  { by rewrite table_layer_nil, (left_id_L ∅ (∪)). }
  cbn in Hn. apply NoDup_cons in Hn as [Hk Hn]. cbn [fold_left].
  change (table_layer (e :: es)) with (<[e_key e := entry_opt e]> (table_layer es)).
  rewrite <- insert_union_l, insert_union_r by (by apply table_layer_None).
  apply IH; [done|by apply apply_entry_spec].
Qed.

Lemma apply_mem_entry s kv : apply_mem s kv = apply_entry s (mem_entry kv).
Proof. unfold apply_mem, apply_entry, mem_entry. by destruct (deleted kv.2). Qed.

Lemma apply_mem_spec mt s L : mem_wf mt → snapshot_of s L →
  snapshot_of (fold_left apply_mem (table mt) s) (mem_layer mt ∪ L).
Proof.
  intros Hm Hs. rewrite <- mem_entries_layer.
  assert (fold_left apply_mem (table mt) s = fold_left apply_entry (mem_entries mt) s) as ->.
  { unfold mem_entries. clear. revert s. induction (table mt) as [|kv l IH]; intros s; [done|].
    cbn. by rewrite IH, apply_mem_entry. }
  apply apply_entries_spec; [|done]. by apply sorted_keys_NoDup, mem_entries_sorted.
Qed.

Lemma apply_entries_wf es s : omap_wf s → omap_wf (fold_left apply_entry es s).
Proof.
  revert s. induction es as [|e es IH]; intros s Hs; [done|]. apply IH. unfold apply_entry.
  destruct (decide _); [by apply omap_erase_wf|by apply omap_insert_wf].
Qed.

Section iterator.
Context {O : Oracle}.

Lemma apply_readers_spec ts rs s w : Forall2 (reads (w_disk w)) ts rs → omap_wf s →
  wp (apply_readers rs s) (λ s' w', w_disk w' = w_disk w ∧ omap_wf s' ∧
    ∀ L, FaultFree O → snapshot_of s L → snapshot_of s' (stack (tbl_layer <$> reverse ts) ∪ L)) w.
Proof.
  intros H. remember (w_disk w) as d eqn:Ed. revert s w Ed.
  induction H as [|t r ts rs Hr _ IH]; intros s w Ed Hs.
  { apply wp_ret. split_and!; [done|done|]. intros L _ HL.
    change (tbl_layer <$> reverse []) with (@nil layer). by rewrite stack_nil, (left_id_L ∅ (∪)). }
  cbn [apply_readers]. subst d. apply wp_bind. eapply wp_mono; [by apply read_all_spec|].
  intros [st es] w1 (Ed1 & Hes & Hff).
  eapply wp_mono; [apply IH; [done|]|].
  { destruct (ok st); [by apply apply_entries_wf|done]. }
  intros s' w' (Ed' & Hs' & Hsnap). split_and!; [done|done|]. intros L Hff' HL.
  rewrite (Hff Hff') in *. cbn in Hsnap. specialize (Hes eq_refl). subst es.
  rewrite reverse_cons, fmap_app, stack_app. cbn [fmap list_fmap]. rewrite stack_cons, stack_nil.
  rewrite (right_id_L ∅ (∪)), <- (assoc_L (∪)). apply Hsnap; [done|].
  destruct Hr as [Hwf _]. apply apply_entries_spec; [|done].
  apply sorted_keys_NoDup, (tw_sorted _ _ Hwf).
Qed.

(** The levels below L0, deepest first. *)
Lemma deep_reads db tabs d ls : db_ok db tabs d →
  Forall2 (reads d) (concat (tabs <$> ls)) (concat ((λ lvl, readers_at db lvl) <$> ls)).
Proof.
  intros Hok. induction ls as [|l ls IH]; [constructor|]. cbn.
  apply Forall2_app; [by apply level_reads|done].
Qed.

Lemma stack_level_reverse d path v tabs l : tables_ok d path v tabs → (0 < l)%nat →
  stack (tbl_layer <$> reverse (tabs l)) = stack (tbl_layer <$> tabs l).
Proof.
  intros Ht Hl. symmetry. apply stack_perm; [|by rewrite reverse_Permutation].
  apply sorted_keys_NoDup, (to_sorted _ _ _ _ Ht l Hl).
Qed.

Lemma stack_deep_reverse d path v tabs ls : tables_ok d path v tabs → Forall (lt 0) ls →
  stack (tbl_layer <$> reverse (concat (tabs <$> reverse ls))) =
  stack (tbl_layer <$> concat (tabs <$> ls)).
Proof.
  intros Ht Hls. induction Hls as [|l ls Hl _ IH]; [done|].
  rewrite reverse_cons, fmap_app, concat_app, reverse_app. cbn [fmap list_fmap concat].
  rewrite app_nil_r. unfold fmap in *. rewrite !(fmap_app tbl_layer), !stack_app. unfold fmap in *.
  rewrite IH. f_equal. by eapply stack_level_reverse.
Qed.

Definition iterator_post (m : gmap bytes bytes) (it : Iterator) : Prop :=
  omap_wf (scan it) ∧ (FaultFree O → omap_to_gmap (scan it) = m).

Lemma NewIterator_spec db tabs w : db_ok db tabs (w_disk w) →
  wp NewIterator (λ it '(db', w'), db' = db ∧ w_disk w' = w_disk w ∧
    snapshot_ it = it_ it ∧ iterator_post (contents db tabs) it) (db, w).
Proof.
  intros Hok. pose proof (ok_tables _ _ _ Hok) as Ht. unfold NewIterator. step_this. cbn [id].
  apply wp_bind, wp_lift.
  eapply wp_mono; [apply apply_readers_spec; [by apply deep_reads|apply omap_wf_nil]|].
  intros s1 w1 (Ed1 & Hs1 & Hsnap1). apply wp_bind, wp_lift. rewrite (oldest_first_level _ _ _ Hok).
  eapply wp_mono; [apply apply_readers_spec; [rewrite Ed1; by apply level_reads|done]|].
  intros s2 w2 (Ed2 & Hs2 & Hsnap2). apply wp_ret.
  assert (omap_wf (fold_left apply_mem (table (memtable_ db)) s2)) as Hwf3.
  { apply (apply_mem_spec _ s2 (Some <$> omap_to_gmap s2)); [apply Hok|]. split; [done|].
    apply map_eq. intros k. rewrite live_lookup, lookup_fmap. by destruct (omap_to_gmap s2 !! k). }
  split_and!; [done|congruence|done|]. unfold iterator_post. rewrite scan_it. cbn [it_ Iterator_new].
  split; [done|]. intros Hff.
  specialize (Hsnap1 ∅ Hff snapshot_of_nil). specialize (Hsnap2 _ Hff Hsnap1).
  destruct (apply_mem_spec (memtable_ db) _ _ (ok_mem _ _ _ Hok) Hsnap2) as [_ E]. rewrite E.
  unfold contents. f_equal. f_equal. unfold tables_layer. rewrite search_order_0, fmap_app, stack_app.
  rewrite (right_id_L ∅ (∪)). f_equal. eapply stack_deep_reverse; [exact Ht|].
  apply Forall_forall. intros l Hl%elem_of_seq. lia.
Qed.
End iterator.
