(* ===== verification/ReadErrors.v ===== *)
(** * A lookup whose first read fails

    [Get] treats a table it cannot read as one without the key.  Here: the
    lookup depends on the outcomes of its own calls only ([agrees]), so that a
    run whose first call fails is, after that call, a run without failures on
    the remaining tables. *)

From S2P Require Import Prelude Slice Status OrderedMap MemTable WriteBatch FileSystem Wal.
From S2P Require Import SSTable SSTableSpec Version DB DBPaths Layers DBInv DBFlush DBReaders DBRead.

(** ** Two oracles that agree from now on *)

Section agrees.
Context (O O' : Oracle).

(** The same run under both, and time does not go backwards. *)
Definition agrees {A} (m m' : ST World A) : Prop := ∀ w,
  (∀ k, (w_clock w ≤ k)%nat → O k = O' k) → m w = m' w ∧ (w_clock w ≤ w_clock (m w).2)%nat.

Lemma agrees_ret {A} (a : A) : agrees (mret a) (mret a).
Proof. intros w _. split; [done|]. cbn. lia. Qed.

Lemma agrees_bind {A B} (m m' : ST World A) (f f' : A → ST World B) :
  agrees m m' → (∀ a, agrees (f a) (f' a)) → agrees (m ≫= f) (m' ≫= f').
Proof.
  intros Hm Hf w Hw. destruct (Hm w Hw) as [E Hc]. unfold mbind, ST_bind. rewrite <- E.
  destruct (m w) as [a w1] eqn:Em. cbn in Hc. destruct (Hf a w1) as [E1 Hc1].
  - intros k Hk. apply Hw. lia.
  - rewrite <- E1. split; [done|]. lia.
Qed.

Lemma agrees_fseek off f : agrees (@fseek_set O off f) (@fseek_set O' off f).
Proof.
  intros w Hw. run_call. unfold outcome_at. rewrite (Hw (w_clock w)) by done.
  destruct (_ && _); cbn; split; (done || lia).
Qed.
Lemma agrees_fread n f : agrees (@fread O n f) (@fread O' n f).
Proof.
  intros w Hw. run_call. unfold outcome_at. rewrite (Hw (w_clock w)) by done. cbn. split; (done || lia).
Qed.

(** Blocks of reads and tests. *)
Ltac agree := repeat first
  [ apply agrees_ret | apply agrees_fseek | apply agrees_fread
  | apply agrees_bind; [|intros] | progress cbv zeta | case_match ].

Lemma agrees_read_varint f : agrees (@read_varint O f) (@read_varint O' f).
Proof.
  assert (∀ n tmp f, agrees (@read_varint_loop O n tmp f) (@read_varint_loop O' n tmp f)) as H.
  { intros n. induction n as [|n IH]; intros tmp g; cbn [read_varint_loop]; agree. apply IH. }
  unfold read_varint. apply agrees_bind; [apply H|]. intros [t g]. agree.
Qed.
Lemma agrees_read_counted n f : agrees (@read_counted O n f) (@read_counted O' n f).
Proof. unfold read_counted. agree. Qed.

Lemma agrees_get r key value del :
  agrees (@SSTableReader_Get O r key value del) (@SSTableReader_Get O' r key value del).
Proof.
  unfold SSTableReader_Get, get_entry.
  repeat first [apply agrees_read_varint | apply agrees_read_counted | progress agree].
Qed.

Lemma agrees_probe_l0 rs key value del :
  agrees (@probe_l0 O rs key value del) (@probe_l0 O' rs key value del).
Proof.
  revert value del. induction rs as [|r rs IH]; intros value del; cbn [probe_l0]; [apply agrees_ret|].
  apply agrees_bind; [apply agrees_get|]. intros [[[] v] d]; [apply agrees_ret|apply IH].
Qed.
Lemma agrees_probe_level fs key value del :
  agrees (@probe_level O fs key value del) (@probe_level O' fs key value del).
Proof.
  revert value del. induction fs as [|[fm r] fs IH]; intros value del; cbn [probe_level]; [apply agrees_ret|].
  case_match; [apply IH|]. apply agrees_bind; [apply agrees_get|].
  intros [[[] v] d]; [apply agrees_ret|apply IH].
Qed.
Lemma agrees_probe_levels ls key value del :
  agrees (@probe_levels O ls key value del) (@probe_levels O' ls key value del).
Proof.
  revert value del. induction ls as [|fs ls IH]; intros value del; cbn [probe_levels]; [apply agrees_ret|].
  apply agrees_bind; [apply agrees_probe_level|]. intros [[[] v] d]; [apply agrees_ret|apply IH].
Qed.
End agrees.

(** ** The lookup *)

(** The next call fails, and no later one. *)
Definition fails_next (O : Oracle) (w : World) : Prop :=
  o_ok (O (w_clock w)) = false ∧ ∀ k, (w_clock w < k)%nat → o_ok (O k) = true.

(** The oracle after the failure. *)
Definition later (O : Oracle) (w : World) : Oracle :=
  λ k, if (k <=? w_clock w)%nat then mkOutcome true 0 0 else O k.
Lemma later_fault_free O w : fails_next O w → FaultFree (later O w).
Proof.
  intros [_ H] k. unfold outcome_at, later. destruct (Nat.leb_spec k (w_clock w)); [done|by apply H].
Qed.

(** A table that holds the key is passed over. *)
Lemma get_fails O t r key value del w : reads (w_disk w) t r → is_Some (tbl_layer t !! key) →
  fails_next O w →
  @SSTableReader_Get O r key value del w =
    ((false, value, del), mkWorld (w_disk w) (S (w_clock w)) (w_stable w)).
Proof.
  intros (Hwf & i & Hr & Hc) [x Hx] [Hf _].
  pose proof (SSTableReader_Get_cases (O := O) _ _ _ _ key value del Hwf Hr) as H.
  unfold tbl_layer in Hx. rewrite Hx in H. destruct H as (j & e & f & _ & _ & _ & _ & ->).
  unfold get_entry. run_call. unfold outcome_at. by rewrite Hf.
Qed.

(** [Get] on an object whose memtable does not have the key and whose newest
    table [t] does, when the first call fails: the answer of the older tables. *)
Lemma Get_next_fails O db t tabs key value w :
  db_ok db (push_tab t tabs) (w_disk w) → closed_ db = false →
  mem_layer (memtable_ db) !! key = None → is_Some (tbl_layer t !! key) → fails_next O w →
  (@Get O key value (db, w)).1 = get_result (live (tables_layer tabs)) key value.
Proof.
  intros Hok Hcl Hmem Hkey Hfail. pose proof (later_fault_free O w Hfail) as Hff.
  assert (∀ k, (S (w_clock w) ≤ k)%nat → O k = later O w k) as Hlater.
  { intros k Hk. unfold later. by destruct (Nat.leb_spec k (w_clock w)); [lia|]. }
  pose proof (level_reads db _ _ 0 Hok) as Hrd. unfold push_tab in Hrd. rewrite set_tabs_eq in Hrd.
  apply Forall2_app_inv_l in Hrd as (rs & rs1 & Hrs & Hr1 & Ers).
  apply Forall2_cons_inv_l in Hr1 as (rd & rs2 & Hrd & Hnil & ->). apply Forall2_nil_inv_l in Hnil as ->.
  unfold Get. rewrite run_bind. cbn [this gets id fst snd]. rewrite Hcl, MemTable_Get_layer by apply Hok.
  rewrite Hmem, (newest_first_level _ _ _ Hok), Ers, reverse_snoc.
  assert (@probe_l0 O (rd :: reverse rs) key value false w =
    @probe_l0 O (reverse rs) key value false (mkWorld (w_disk w) (S (w_clock w)) (w_stable w))) as E0.
  { cbn [probe_l0]. by rewrite run_bind, (get_fails O t). }
  rewrite run_bind. unfold lift. cbn [fst snd]. rewrite E0.
  set (w1 := mkWorld _ (S _) _). destruct (agrees_probe_l0 O (later O w) (reverse rs) key value false w1 Hlater) as [E1 Hc1].
  assert (Forall2 (reads (w_disk w1)) (reverse (tabs 0%nat)) (reverse rs)) as Hrs' by by apply Forall2_reverse.
  pose proof (probe_l0_spec (O := later O w) key value false _ _ w1 Hrs') as H1. unfold wp in H1. rewrite <- E1 in H1.
  destruct (@probe_l0 O (reverse rs) key value false w1) as [[[f1 v1] dl1] w2]. cbn [fst snd] in *.
  destruct H1 as [Ed1 H1].
  assert (concat ((push_tab t tabs) <$> seq 1 (kMaxLevels - 1)) = concat (tabs <$> seq 1 (kMaxLevels - 1))) as Etabs
    by done.
  destruct (agrees_probe_levels O (later O w) (level_files db <$> seq 1 (kMaxLevels - 1)) key v1 dl1 w2) as [E2 _].
  { intros k Hk. apply Hlater. cbn in Hc1. lia. }
  assert (db_ok db (push_tab t tabs) (w_disk w2)) as Hok2 by by rewrite Ed1.
  pose proof (probe_levels_spec (O := later O w) key v1 dl1 db _ (seq 1 (kMaxLevels - 1)) w2 Hok2) as H2.
  rewrite Etabs in H2. unfold wp in H2. rewrite <- E2 in H2.
  pose proof (probe_app (O := later O w) key value false (reverse (tabs 0%nat)) (concat (tabs <$> seq 1 (kMaxLevels - 1))) (f1, v1, dl1)) as Happ.
  rewrite <- search_order_0 in Happ. unfold get_result. rewrite live_lookup. unfold tables_layer.
  destruct f1.
  - destruct (Happ (true, v1, dl1) H1) as (H & _); [done|done|]. specialize (H Hff). cbn [fst snd].
    destruct (stack _ !! key) as [x|]; [|done]. injection H as -> ->. cbn. by destruct x.
  - cbn [fst snd]. rewrite run_bind. unfold lift. cbn [fst snd].
    destruct (@probe_levels O _ key v1 dl1 w2) as [[[f2 v2] dl2] w3]. cbn [fst snd] in *. destruct H2 as [_ H2].
    destruct (Happ (f2, v2, dl2) H1) as (H & _); [done|done|]. specialize (H Hff).
    destruct (stack _ !! key) as [x|]; injection H as -> -> ->; cbn; [by destruct x|done].
Qed.
