(* ===== verification/DBWrite.v ===== *)
(** * Writing to the database: [Write], [Close] and recoverability

    A write that is acknowledged is applied, and what the disk remembers
    follows the contents whatever fails or wherever the process stops. *)

From S2P Require Import Prelude Slice Status Coding OrderedMap MemTable WriteBatch FileSystem Wal.
From S2P Require Import SSTable SSTableSpec Version DB DBPaths Layers DBInv DBFlush DBReaders.
From S2P Require Import Merge DBCompact.

(** ** Lemmas: the operations a log holds *)

Lemma records_log rs : Forall (λ r, zlen r < 2 ^ 32) rs → records (log_of rs) = rs.
Proof.
  intros H. rewrite <- (app_nil_r (log_of rs)), records_log_of by done.
  by rewrite records_nil, app_nil_r.
Qed.

Lemma wal_ops_records c : wal_ops c = concat (decoded_ops <$> records c).
Proof. done. Qed.

Lemma wal_layer_app rs rest : Forall (λ r, zlen r < 2 ^ 32) rs →
  wal_layer (log_of rs ++ rest) = fold_left layer_op (wal_ops rest) (wal_layer (log_of rs)).
Proof.
  intros H. unfold wal_layer, wal_ops. rewrite records_log_of, records_log by done.
  by rewrite fmap_app, concat_app, fold_left_app.
Qed.

Lemma wal_ops_record data : zlen data < 2 ^ 32 → wal_ops (record data) = decoded_ops data.
Proof.
  intros H. unfold wal_ops. assert (record data = log_of [data]) as -> by (unfold log_of; cbn; by rewrite app_nil_r).
  rewrite records_log by (by constructor). cbn. by rewrite app_nil_r.
Qed.

(** A record cut short is not replayed. *)
Lemma wal_ops_torn data k : zlen data < 2 ^ 32 → (k < length (record data))%nat →
  wal_ops (take k (record data)) = [].
Proof. intros H Hk. unfold wal_ops. by rewrite records_torn. Qed.

Lemma log_of_app_record rs r : log_of (rs ++ [r]) = log_of rs ++ record r.
Proof. apply log_of_snoc. Qed.

(** ** Lemmas: durability and recovery *)

Lemma durable_recoverable db tabs d : durable db tabs d →
  recoverable d (db_path_ db) (contents db tabs).
Proof.
  intros (v & ptabs & rs & Hp & _ & (_ & Hc & _) & E & _). exists v, ptabs. split; [done|].
  unfold recovered. by rewrite Hc.
Qed.

(** ** The batches [Put] and [Delete] build *)

Definition batch_fits (ops : list op) : Prop :=
  ops ≠ [] ∧ zlen (rep_ (batch_of ops)) < 2 ^ 32.

Lemma encode_op_fits o : zlen (encode_op o) < 2 ^ 32 → op_fits o.
Proof.
  destruct o as [k v|k]; cbn [encode_op op_fits length]; rewrite ?length_app.
  - pose proof (lp_slice_length k). pose proof (lp_slice_length v). lia.
  - pose proof (lp_slice_length k). lia.
Qed.

Lemma batch_fits_ops ops : batch_fits ops → Forall op_fits ops ∧ zlen ops < 2 ^ 64.
Proof.
  intros [_ H]. rewrite batch_of_rep in H.
  assert (zlen ops ≤ zlen (concat (encode_op <$> ops)) ∧ Forall op_fits ops); [|split; [tauto|lia]].
  induction ops as [|o ops IH]; [split; [done|constructor]|].
  cbn [fmap list_fmap concat] in *. rewrite length_app in *. cbn [length].
  destruct IH as [? ?]; [lia|]. pose proof (encode_op_length o). split; [lia|].
  constructor; [|done]. apply encode_op_fits. lia.
Qed.

Lemma batch_fits_count ops : batch_fits ops → count_ (batch_of ops) ≠ 0.
Proof.
  intros H. destruct (batch_fits_ops _ H) as [_ Hn]. rewrite batch_of_count by done.
  destruct H as [Hne _]. destruct ops; [done|cbn; lia].
Qed.

(** ** The memtable after a batch *)

Definition apply_ops (ops : list op) (db : DB) : DB :=
  set_memtable (fold_left h_apply ops (memtable_ db)) db.

Lemma mem_insert_entries k mv t : entry_wf (mem_entry (k, mv)) → Forall entry_wf (mem_entry <$> t) →
  Forall entry_wf (mem_entry <$> omap_insert k mv t).
Proof.
  intros He Ht. apply Forall_fmap. apply omap_insert_Forall; [done|]. by rewrite Forall_fmap in Ht.
Qed.

Lemma op_apply_entries mt o : op_fits o → Forall entry_wf (mem_entries mt) →
  Forall entry_wf (mem_entries (h_apply mt o)).
Proof.
  intros Ho Hm. destruct o as [k v|k]; cbn in *; apply mem_insert_entries; try done.
  - destruct Ho. split_and!; [done|done|by left].
  - split_and!; [done|done|by right].
Qed.

Lemma ops_apply_entries ops mt : Forall op_fits ops → Forall entry_wf (mem_entries mt) →
  Forall entry_wf (mem_entries (fold_left h_apply ops mt)).
Proof.
  intros Ho. revert mt. induction Ho as [|o ops Ho _ IH]; intros mt Hm; [done|].
  by apply IH, op_apply_entries.
Qed.

Lemma contents_apply db tabs ops : mem_wf (memtable_ db) →
  contents (apply_ops ops db) tabs = fold_left map_op ops (contents db tabs).
Proof.
  intros Hm. unfold contents, apply_ops. cbn. by rewrite mem_apply_layer, live_ops_union.
Qed.

Lemma db_ok_apply db tabs d ops : Forall op_fits ops → db_ok db tabs d →
  db_ok (apply_ops ops db) tabs d.
Proof.
  intros Ho []. split; try done; [by apply mem_apply_wf|by apply ops_apply_entries].
Qed.

(** The log has been given the batch and so has the memtable. *)
Lemma durable_apply db tabs d d' ops wal :
  batch_fits ops → disk_wf d → only_paths {[canon (wal_path (db_path_ db))]} d d' →
  mem_wf (memtable_ db) →
  (∀ rs, wal_clean db d rs → wal_clean (set_wal wal db) d' (rs ++ [rep_ (batch_of ops)])) →
  durable db tabs d → durable (apply_ops ops (set_wal wal db)) tabs d'.
Proof.
  intros Hb Hd Hop Hm Hcl (v & ptabs & rs & Hp & Hn & Hc & E1 & E2).
  destruct (batch_fits_ops _ Hb) as [Hf Hcnt]. pose proof Hc as (Hrs & _).
  exists v, ptabs, (rs ++ [rep_ (batch_of ops)]).
  assert (∀ T, live (wal_layer (log_of rs) ∪ T) = contents db tabs →
    live (wal_layer (log_of (rs ++ [rep_ (batch_of ops)])) ∪ T) = contents (apply_ops ops (set_wal wal db)) tabs) as Hlive.
  { intros T E. rewrite log_of_app_record, wal_layer_app, wal_ops_record, decoded_ops_of by (done || apply Hb).
    rewrite live_ops_union, E. symmetry. by apply (contents_apply (set_wal wal db)). }
  split_and!; [|done|by apply Hcl|by apply Hlive|by apply Hlive].
  eapply persisted_frame; [exact Hd|done|apply avoids_wal|apply manifest_not_wal|done].
Qed.

Definition op_entry (o : op) : SSTableEntry :=
  match o with
  | OpPut k v => mkEntry k EntryType_kPut v
  | OpDelete k => mkEntry k EntryType_kDelete []
  end.
Definition ops_weight (ops : list op) : Z := weights (op_entry <$> ops).

Lemma mem_insert_weight k mv t :
  weights (mem_entry <$> omap_insert k mv t) ≤ weight (mem_entry (k, mv)) + weights (mem_entry <$> t).
Proof.
  induction t as [|[k' mv'] t IH]; cbn; [lia|]. pose proof (weight_pos (mem_entry (k', mv'))).
  key_cases k k'; cbn; lia.
Qed.

Lemma ops_apply_weight ops mt :
  weights (mem_entries (fold_left h_apply ops mt)) ≤ weights (mem_entries mt) + ops_weight ops.
Proof.
  revert mt. induction ops as [|o ops IH]; intros mt; [unfold ops_weight; cbn; lia|]. cbn [fold_left].
  specialize (IH (h_apply mt o)). unfold ops_weight in *. cbn [fmap list_fmap weights].
  enough (weights (mem_entries (h_apply mt o)) ≤ weights (mem_entries mt) + weight (op_entry o)) by lia.
  destruct o as [k v|k]; cbn.
  - pose proof (mem_insert_weight k (mkMemValue false v) (table mt)). unfold mem_entries. cbn in *. lia.
  - pose proof (mem_insert_weight k (mkMemValue true []) (table mt)). unfold mem_entries. cbn in *. lia.
Qed.

Lemma ops_apply_nonempty ops mt : ops ≠ [] → MemTable_empty (fold_left h_apply ops mt) = false.
Proof.
  destruct ops as [|o ops _] using rev_ind; [done|]. intros _. rewrite fold_left_app. cbn.
  apply not_true_is_false. intros E%MemTable_empty_true.
  destruct o; cbn in E; by apply omap_insert_not_nil in E.
Qed.

(** A batch in the memtable. *)
Lemma apply_modest db tabs d db' d' ops : ops ≠ [] → version_ db' = version_ db →
  memtable_ db' = fold_left h_apply ops (memtable_ db) →
  modest (ops_weight ops) 1 db tabs d db' tabs d'.
Proof.
  intros Hne Ev Em. pose proof (ops_apply_weight ops (memtable_ db)).
  split; [unfold total; rewrite Em; lia|rewrite Ev; lia|]. intros _ _ He.
  by rewrite Em, ops_apply_nonempty in He.
Qed.

(** The database and a batch are within the limits. *)
Definition write_limits (db : DB) (tabs : nat → list tbl) (ops : list op) : Prop :=
  weights (mem_entries (memtable_ db)) + ops_weight ops + tables_weight tabs ≤ max_weight ∧
  next_file_number (version_ db) ≤ 2 ^ 62.

(** ** Specifications *)

Section write.
Context {O : Oracle}.
Implicit Types (db : DB) (w : World).

Lemma wal_content_at db d wal c : wal_at (canon (wal_path (db_path_ db))) wal d c →
  ∃ rest, wal_content d (db_path_ db) ++ rest = c.
Proof.
  intros (f & _ & Hp & Hs). exists (f_buf f). unfold wal_content.
  by rewrite (file_content_ino _ _ _ Hp).
Qed.

Lemma add_record_spec db tabs data sync w : db_ok db tabs (w_disk w) → zlen data < 2 ^ 32 →
  wp (add_record data sync) (λ s '(db', w'), ∃ wal, db' = set_wal wal db ∧
    only_paths {[canon (wal_path (db_path_ db))]} (w_disk w) (w_disk w') ∧
    d_files (w_disk w') = d_files (w_disk w) ∧
    db_ok db' tabs (w_disk w') ∧
    (∀ rs, wal_clean db (w_disk w) rs →
       if ok s then wal_clean db' (w_disk w') (rs ++ [data])
       else ∃ k, wal_content (w_disk w') (db_path_ db) = log_of rs ++ take k (record data)) ∧
    (FaultFree O → wal_open db → s = OK ∧ wal_open db')) (db, w).
Proof.
  intros Hok Hdata. pose proof (ok_disk _ _ _ Hok) as Hd.
  destruct (ok_wal _ _ _ Hok) as (wal & Hw & Hcase). unfold add_record. step_this. rewrite Hw.
  set (p := canon (wal_path (db_path_ db))) in *. apply wp_bind, wp_lift.
  destruct Hcase as [Hf|[c Hat]].
  - unfold Wal_AddRecord. rewrite Hf. apply wp_ret. step_update. apply wp_ret. exists wal.
    split_and!; [done|done|done| | |].
    + apply db_ok_set_wal with (d := w_disk w); [done|done|done|by left].
    + intros rs (_ & Hc & _). exists 0%nat. by rewrite app_nil_r.
    + intros _ (wal' & f & E & Hf'). rewrite Hw in E. injection E as <-. congruence.
  - eapply wp_mono; [by eapply Wal_AddRecord_spec|].
    intros [s wal'] w' ([(Hwf' & Hop & Hfs) [x Hx]] & [k Hat'] & Hfl & Hff).
    step_update. apply wp_ret. exists wal'. split_and!; [done|done|done| | |].
    + apply db_ok_set_wal with (d := w_disk w); [done|done|done|right; eauto].
    + intros rs (Hrs & Hc & wal0 & E & Hfl0). rewrite Hw in E. injection E as <-.
      destruct Hfl0 as [Hf|Hfl0]; [destruct Hat as (f & Hf2 & _); congruence|].
      pose proof (wal_at_flushed _ _ _ _ _ Hat Hfl0) as ->. destruct (ok s) eqn:Es.
      * specialize (Hfl eq_refl). rewrite <- log_of_app_record in Hfl.
        split_and!; [apply Forall_app; split; [done|by constructor]| |exists wal'; by split; [|right]].
        by apply wal_flushed_content in Hfl.
      * unfold wal_content in *. fold p in Hc |- *. rewrite Hx, Hc.
        destruct (wal_content_at (set_wal wal' db) _ _ _ Hat') as [rest Hrest].
        unfold wal_content in Hrest. cbn [db_path_ set_wal] in Hrest. fold p in Hrest.
        rewrite Hx, Hc, <- app_assoc in Hrest. apply app_inv_head in Hrest.
        exists (length x). f_equal. rewrite <- (take_drop k (record data)), <- Hrest, <- app_assoc.
        by rewrite take_app_length.
    + intros Hff' _. split; [by apply Hff|]. specialize (Hff Hff') as ->.
      destruct (Hfl eq_refl) as (f & Hf & _). by exists wal', f.
Qed.

(** What the log remembers of a record that was not acknowledged. *)
Lemma unacknowledged db tabs d d' ops k : batch_fits ops → durable db tabs d → disk_wf d →
  only_paths {[canon (wal_path (db_path_ db))]} d d' →
  (∀ rs, wal_clean db d rs →
     ∃ k, wal_content d' (db_path_ db) = log_of rs ++ take k (record (rep_ (batch_of ops)))) →
  k = fold_left map_op ops (contents db tabs) →
  recoverable d' (db_path_ db) (contents db tabs) ∨ recoverable d' (db_path_ db) k.
Proof.
  intros Hb (v & ptabs & rs & Hp & _ & Hc & E & _) Hd Hop Hlog ->.
  destruct (Hlog rs Hc) as [k Hk]. pose proof Hc as (Hrs & _).
  assert (persisted d' (db_path_ db) v ptabs) as Hp'
    by (eapply persisted_frame; [exact Hd|done|apply avoids_wal|apply manifest_not_wal|done]).
  destruct (batch_fits_ops _ Hb) as [Hf Hn]. destruct Hb as [_ Hz].
  destruct (decide (k < length (record (rep_ (batch_of ops))))%nat).
  - left. exists v, ptabs. split; [done|]. unfold recovered.
    rewrite Hk, wal_layer_app, wal_ops_torn by done. done.
  - right. exists v, ptabs. split; [done|]. unfold recovered.
    rewrite Hk, wal_layer_app, take_ge, wal_ops_record, decoded_ops_of by (done || lia).
    by rewrite live_ops_union, E.
Qed.

(** What a write changes: nothing, or the batch is applied. *)
(** The call has returned, with success. *)
Definition acked (r : option Status) : bool :=
  match r with Some s => ok s | None => false end.

Record write_post db tabs (d : Disk) (ops : list op) (applied : bool) (r : option Status)
    db' tabs' (d' : Disk) : Prop := {
  wr_path : db_path_ db' = db_path_ db;
  wr_options : options_ db' = options_ db;
  wr_closed : closed_ db' = closed_ db;
  wr_ok : db_ok db' tabs' d';
  wr_contents : contents db' tabs' =
    if applied then fold_left map_op ops (contents db tabs) else contents db tabs;
  wr_acked : acked r = true → applied = true;
  wr_durable : durable db tabs d →
    if applied then durable db' tabs' d'
    else recoverable d' (db_path_ db) (contents db tabs) ∨
         recoverable d' (db_path_ db) (fold_left map_op ops (contents db tabs));
  wr_fault_free : FaultFree O → wal_open db →
    applied = true ∧ (r = None ∨ r = Some OK) ∧ wal_open db';
  wr_modest : FaultFree O → wal_open db → modest (ops_weight ops) number_stride db tabs d db' tabs' d';
  wr_returns : compaction_ok (options_ db) → r ≠ None;
}.

Lemma durable_bg db tabs d a b c e : durable db tabs d → durable (set_bg a b c e db) tabs d.
Proof. intros (v & ptabs & rs & ? & ? & ? & ? & ?). by exists v, ptabs, rs. Qed.
Lemma db_ok_bg db tabs d a b c e : db_ok db tabs d → db_ok (set_bg a b c e db) tabs d.
Proof. by intros []. Qed.

Lemma Write_spec db tabs opts ops w : db_ok db tabs (w_disk w) → closed_ db = false →
  batch_fits ops → write_limits db tabs ops →
  wp (Write opts (batch_of ops)) (λ r '(db', w'), ∃ applied tabs',
    write_post db tabs (w_disk w) ops applied r db' tabs' (w_disk w')) (db, w).
Proof.
  intros Hok Hcl Hb [Hwt Hnx]. pose proof (ok_disk _ _ _ Hok) as Hd.
  destruct (batch_fits_ops _ Hb) as [Hf Hn]. unfold Write.
  unfold WriteBatch_empty. rewrite (proj2 (Z.eqb_neq _ _) (batch_fits_count _ Hb)).
  step_this. cbn [id]. rewrite Hcl.
  apply wp_bind. eapply wp_mono; [apply add_record_spec; [done|apply Hb]|].
  intros s [db1 w1] (wal & -> & Hop & _ & Hok1 & Hlog & Hff). destruct (ok s) eqn:Es; cbn [negb].
  2: { apply wp_ret. exists false, tabs. split; try done.
       - cbn. by rewrite Es.
       - intros Hdur. by eapply unacknowledged.
       - intros Hff' Hwo. destruct (Hff Hff' Hwo) as [-> _]. done.
       - intros Hff' Hwo. destruct (Hff Hff' Hwo) as [-> _]. done. }
  apply wp_bind. unfold ApplyBatchLocked. step_this. rewrite Iterate_batch_of by done. step_update.
  apply wp_ret. rewrite ok_OK. cbn [negb]. fold (apply_ops ops (set_wal wal db)).
  set (db2 := apply_ops ops (set_wal wal db)).
  pose proof (db_ok_apply _ _ _ ops Hf Hok1) as Hok2. fold db2 in Hok2.
  assert (contents db2 tabs = fold_left map_op ops (contents db tabs)) as Ec.
  { apply (contents_apply (set_wal wal db)). apply Hok. }
  assert (durable db tabs (w_disk w) → durable db2 tabs (w_disk w1)) as Hdur.
  { intros Hdur. eapply durable_apply; [done|exact Hd|done|apply Hok| |done]. apply Hlog. }
  assert (FaultFree O → wal_open db → wal_open db2) as Hwo by (intros Hff' H; by apply Hff).
  destruct (background_compaction (options_ db)) eqn:Ebg.
  - step_update. apply wp_ret. exists true, tabs. split; try done; [by apply db_ok_bg| |].
    + intros Hff' H. split_and!; [done|by right|by apply Hwo].
    + intros _ _. eapply modest_mono; [|apply apply_modest; [apply Hb|done|done]]. unfold number_stride. lia.
  - eapply wp_mono; [apply (MaybeFlushLocked_spec db2 tabs); [done|]|].
    { split; [|done]. pose proof (ops_apply_weight ops (memtable_ db)).
      change (memtable_ db2) with (fold_left h_apply ops (memtable_ db)). lia. }
    intros r [db3 w3] (tabs3 & Hm & Hff3 & Hret & Hmo). exists true, tabs3. pose proof Hm as [[] ? ? ? ?].
    split; try done.
    + by rewrite ma_contents.
    + auto.
    + intros Hff' H. destruct (Hff3 Hff') as [? Hw3]. split_and!; [done|done|]. by apply Hw3, Hwo.
    + intros Hff' _. destruct (Hmo Hff') as [Ht Hn' Hl].
      destruct (apply_modest db tabs (w_disk w) db2 (w_disk w1) ops ltac:(apply Hb) eq_refl eq_refl) as [Ht2 _ Hl2].
      split; [lia|done|]. intros Hd1 Hll. by apply Hl, Hl2; [apply Hdur|..].
Qed.
End write.

(** ** [Close] *)

Section close.
Context {O : Oracle}.
Implicit Types (db : DB) (w : World).

Record close_post db tabs (d : Disk) (s : Status) db' tabs' (d' : Disk) : Prop := {
  cl_path : db_path_ db' = db_path_ db;
  cl_options : options_ db' = options_ db;
  cl_closed : closed_ db' = true;
  cl_thread : bg_thread_ db' = false;
  cl_ok : db_ok db' tabs' d';
  cl_contents : contents db' tabs' = contents db tabs;
  cl_durable : durable db tabs d → durable db' tabs' d';
  cl_saved : s = OK → persisted d' (db_path_ db) (version_ db') tabs';
  cl_fault_free : FaultFree O → s = OK;
  cl_modest : FaultFree O → tables_weight tabs' ≤ total db tabs ∧
    next_file_number (version_ db') ≤ next_file_number (version_ db) + 1 ∧
    (durable db tabs d → logless db d → wal_ops (wal_content d' (db_path_ db)) = []);
}.

Lemma Close_finish_spec db tabs w : db_ok db tabs (w_disk w) → within_limits db tabs →
  wp Close_finish (λ s '(db', w'), ∃ tabs',
    close_post db tabs (w_disk w) s db' tabs' (w_disk w')) (db, w).
Proof.
  intros Hok Hlim. unfold Close_finish. step_update. set (db0 := set_bg _ _ _ _ db).
  assert (db_ok db0 tabs (w_disk w)) as Hok0 by by apply db_ok_bg.
  assert (durable db tabs (w_disk w) → durable db0 tabs (w_disk w)) as Hdur0 by by apply durable_bg.
  apply wp_bind. eapply wp_mono; [by apply FlushMemTableLocked_spec|].
  intros s1 [db1 w1] (tabs1 & Hpost). pose proof Hpost as (Hm1 & Hw1 & Hn1 & _ & Hff1).
  apply wp_bind. eapply wp_mono; [apply (close_wal_spec db1 tabs1), Hm1|].
  intros s2 [db2 w2] (wal & _ & -> & Hm2 & _ & Hff2).
  assert (tables_weight tabs1 ≤ max_weight) as Hwt by (destruct Hlim; cbn in *; lia).
  apply wp_bind. eapply wp_mono; [apply (save_version_spec _ tabs1); [apply Hm2|done]|].
  intros s3 [db3 w3] (-> & Hm3 & Hper & _ & Hff3). step_update. apply wp_ret.
  pose proof (maintained_trans _ _ _ _ _ _ _ _ _ Hm2 Hm3) as Hm23.
  pose proof (maintained_trans _ _ _ _ _ _ _ _ _ Hm1 Hm23) as [[Hp Ho Ht _ _ _ _] Hok3 Hc Hd _]. exists tabs1. split; try done.
  - by destruct Hok3.
  - intros Es. cbn [db_path_ set_bg db0] in Hp. rewrite <- Hp. apply Hper.
    destruct (ok s1) eqn:E1; [destruct (ok s2) eqn:E2|]; rewrite ?E1, ?E2 in Es; rewrite ?Es; try done;
      by rewrite Es in *.
  - intros Hff. destruct (Hff1 Hff) as [-> _]. rewrite (Hff2 Hff). by rewrite (Hff3 Hff).
  - intros Hff. split_and!; [done|done|]. intros Hdur Hl. destruct (flush_modest _ _ _ _ _ _ _ Hpost) as [_ Hnil].
    assert (db_path_ db = db_path_ (set_wal wal db1)) as -> by by (cbn in Hp |- *; rewrite Hp).
    eapply logless_kept; [exact Hm23|by apply Hm1, Hdur0|]. by apply Hnil; [apply Hdur0|].
Qed.

Lemma Close_spec db tabs w : db_ok db tabs (w_disk w) → within_limits db tabs →
  closed_ db = false →
  wp Close (λ s '(db', w'), ∃ tabs',
    close_post db tabs (w_disk w) s db' tabs' (w_disk w')) (db, w).
Proof.
  intros Hok Hlim Hcl. unfold Close. step_this. cbn [id]. rewrite Hcl. unfold Close_begin. step_update.
  eapply wp_mono; [apply (Close_finish_spec _ tabs); [by apply db_ok_bg|done]|].
  intros s [db' w'] (tabs' & []). exists tabs'. by split.
Qed.
End close.
