(* ===== verification/DBOpen.v ===== *)
(** * Opening a database

    [Open] on the files of a recoverable database finds its contents. *)

From S2P Require Import Prelude Slice Status Coding OrderedMap MemTable WriteBatch FileSystem Wal.
From S2P Require Import SSTable SSTableSpec Version DB DBPaths Layers DBInv DBFlush DBReaders.
From S2P Require Import Merge DBCompact DBWrite.

(** ** What a replay builds *)

(** Decoded operations fit the formats: their sizes were 32-bit fields. *)
Lemma GetLengthPrefixedSlice_fits p s r : GetLengthPrefixedSlice p = Some (s, r) → zlen s < 2 ^ 32.
Proof.
  unfold GetLengthPrefixedSlice. destruct (GetVarint32Ptr p) as [[len q]|] eqn:E; [|done].
  apply GetVarint32Ptr_suffix in E as [[? ?] _].
  case_match; [done|]. intros [= <- _]. rewrite ztake_length by lia. lia.
Qed.

Lemma Iterate_loop_fits fuel input seen (l : list op) : Forall op_fits l →
  Forall op_fits (Iterate_loop fuel input seen l).2.
Proof.
  revert input seen l. induction fuel as [|fuel IH]; intros input seen l Hl; [done|].
  cbn [Iterate_loop]. destruct input as [|tag input]; [done|].
  repeat case_match; try done; apply IH, Forall_app; (split; [done|]); constructor; try done;
    cbn [op_fits]; repeat match goal with
    | E : GetLengthPrefixedSlice _ = Some _ |- _ => apply GetLengthPrefixedSlice_fits in E
    end; done.
Qed.

Lemma wal_ops_fit rs : Forall op_fits (concat (decoded_ops <$> rs)).
Proof.
  apply Forall_concat, Forall_fmap, Forall_forall. intros r _. by apply Iterate_loop_fits.
Qed.

Lemma replay_records rs mt :
  apply_records replay_record rs mt = fold_left h_apply (concat (decoded_ops <$> rs)) mt.
Proof.
  revert mt. induction rs as [|r rs IH]; intros mt; [done|]. cbn [fmap list_fmap concat].
  rewrite fold_left_app, <- IH. unfold apply_records. cbn [fold_left]. f_equal.
  unfold replay_record. apply Iterate_decoded.
Qed.

Lemma replay_layer c : mem_layer (apply_records replay_record (records c) MemTable_new) = wal_layer c.
Proof. rewrite replay_records, mem_apply_layer by apply mem_wf_new. done. Qed.

(** ** The sweep *)

(** A directory path under which file names compare as strings. *)
Definition good_path (path : bytes) : Prop :=
  match last path with None => False | Some c => c ≠ slash end.

Lemma path_append_in_dir path name : good_path path → path_append path name = in_dir path name.
Proof.
  unfold good_path, path_append. destruct (last path) as [c|]; [|done]. intros Hc.
  by rewrite decide_False.
Qed.

Lemma names_in_no_slash path d name : name ∈ names_in path d → slash ∉ name.
Proof.
  unfold names_in. cbv zeta. intros ([p i] & _ & H)%list_elem_of_omap.
  destruct (decide _); [|done]. destruct (decide _) as [|Hn]; [done|]. by injection H as <-.
Qed.

Lemma is_sst_not_wal : is_sst wal_name = false.
Proof. done. Qed.
Lemma is_sst_not_manifest : is_sst manifest_name = false.
Proof. done. Qed.

(** The files the sweep removes are neither live, nor the log, nor the manifest. *)
Lemma sweep_target db name : good_path (db_path_ db) → slash ∉ name → is_sst name = true →
  path_append (db_path_ db) name ∉ live_paths db →
  length (levels_ (version_ db)) = kMaxLevels →
  let P : gset bytes := {[canon (path_append (db_path_ db) name)]} in
  avoids P (db_path_ db) (version_ db) ∧
  (canon (wal_path (db_path_ db)) ∉ P) ∧ (canon (manifest_path (db_path_ db)) ∉ P).
Proof.
  intros Hg Hn Hs Hlive Hlen P. subst P. rewrite path_append_in_dir in * by done.
  unfold avoids. setoid_rewrite elem_of_singleton. rewrite canon_in_dir, canon_wal, canon_manifest by done.
  split_and!.
  - intros l fm Hin E. rewrite canon_sst in E. apply app_inv_head in E. apply Hlive. rewrite <- E.
    unfold live_paths. apply list_elem_of_In, in_concat.
    destruct (decide (l < kMaxLevels)%nat) as [Hl|Hl]; [|by rewrite Level_out in Hin by lia; inversion Hin].
    exists ((λ fm, SSTablePath db (number fm)) <$> Level (version_ db) l).
    split; apply list_elem_of_In.
    + apply (list_elem_of_fmap_2 (λ lvl, (λ fm, SSTablePath db (number fm)) <$> Level (version_ db) lvl)).
      apply elem_of_seq. lia.
    + by apply (list_elem_of_fmap_2 (λ fm, SSTablePath db (number fm))).
  - intros E%app_inv_head. by subst.
  - intros E%app_inv_head. by subst.
Qed.

Section open.
Context {O : Oracle}.
Implicit Types (db : DB) (w : World).

(** What opening needs of the disk, and does not change. *)
Definition kept_files (d d' : Disk) (path : bytes) (v : Version) (tabs : nat → list tbl) : Prop :=
  disk_wf d' ∧ persisted d' path v tabs ∧ wal_content d' path = wal_content d path.

Lemma sweep_spec db v tabs w : good_path (db_path_ db) → version_ db = v →
  disk_wf (w_disk w) → persisted (w_disk w) (db_path_ db) v tabs →
  wp sweep (λ _ '(db', w'), db' = db ∧ kept_files (w_disk w) (w_disk w') (db_path_ db) v tabs) (db, w).
Proof.
  intros Hg <- Hwf Hp. unfold sweep. step_this. cbn [id]. apply wp_bind, wp_lift.
  eapply wp_mono; [apply fs_exists_spec|]. intros ex w1 (Ed1 & _). destruct ex.
  2: { apply wp_ret. unfold kept_files. rewrite Ed1. by split_and!. }
  apply wp_bind, wp_lift. eapply wp_mono; [apply fs_directory_iterator_spec|].
  intros names w2 (Ed2 & Hnames & _). rewrite Ed1 in *.
  eapply (wp_for_each _ _ (λ _ '(db', w'), db' = db ∧
    kept_files (w_disk w) (w_disk w') (db_path_ db) (version_ db) tabs)).
  { unfold kept_files. rewrite Ed2. by split_and!. }
  intros _ name [db3 w3] (-> & Hwf3 & Hp3 & Hc3) Hin. cbv zeta.
  destruct (is_sst name && _) eqn:E; [|by apply wp_ret].
  apply andb_true_iff in E as [Hs Hl%negb_true_iff%bool_decide_eq_false].
  assert (slash ∉ name) as Hn.
  { destruct Hnames as [->| ->]; [by eapply names_in_no_slash|inversion Hin]. }
  destruct (sweep_target db name Hg Hn Hs Hl (to_len _ _ _ _ (pe_tables _ _ _ _ Hp))) as (H1 & H2 & H3).
  apply wp_bind, wp_lift. eapply wp_mono; [by apply remove_spec|].
  intros b w4 (Hwf4 & Hop & _). apply wp_ret. split; [done|]. split_and!; [done| |].
  - eapply persisted_frame; [exact Hwf3|done..].
  - rewrite <- Hc3. eapply file_content_frame; [exact Hwf3|done..].
Qed.

(** ** The readers *)

Lemma open_level_spec lvl files ts db w :
  Forall2 (file_ok (w_disk w) (db_path_ db)) files ts → (lvl < length (open_readers_ db))%nat →
  wp (open_level lvl files) (λ s '(db', w'), w_disk w' = w_disk w ∧ ∃ rs, db' = set_readers rs db ∧
    length rs = length (open_readers_ db) ∧
    (∀ l, l ≠ lvl → readers_at db' l = readers_at db l) ∧
    (ok s = true → ∃ new, Forall3 (reader_ok (w_disk w) (db_path_ db)) files ts new ∧
       readers_at db' lvl = readers_at db lvl ++ new) ∧
    (FaultFree O → s = OK)) (db, w).
Proof.
  intros H. remember (w_disk w) as d eqn:Ed. revert ts db w H Ed.
  induction files as [|fm files IH]; intros ts db w H Ed Hl.
  { apply Forall2_nil_inv_l in H as ->. apply wp_ret. split; [done|]. exists (open_readers_ db).
    split_and!; [by destruct db|done|done| |done]. intros _. exists [].
    split; [constructor|by rewrite app_nil_r]. }
  apply Forall2_cons_inv_l in H as (t & ts' & Hf & H & ->). cbn [open_level]. subst d.
  step_this. rewrite SSTablePath_eq. pose proof Hf as [Hwf _ _ _ Hc].
  assert (∃ i, resolve (w_disk w) (sst_path (db_path_ db) (number fm)) = Some i ∧
    icontent (w_disk w) i = tbl_bytes t) as (i & Hi & Hic).
  { unfold content in Hc. destruct (resolve _ _) as [i|]; [|done]. exists i. by injection Hc. }
  apply wp_bind, wp_lift. eapply wp_mono; [by eapply SSTableReader_Open_spec|].
  intros [s rd] w1 (Ed1 & Hrd & Hff). destruct (ok s) eqn:Es; cbn [negb].
  2: { apply wp_ret. split; [done|]. exists (open_readers_ db).
       split_and!; [by destruct db|done|done|congruence|done]. }
  step_update. set (db1 := set_readers _ db).
  assert (∀ l, readers_at db1 l = if decide (lvl = l) then readers_at db lvl ++ [rd] else readers_at db l) as Hr1.
  { intros l. unfold db1, readers_at. cbn. rewrite !nth_lookup.
    destruct (decide _) as [<-|]; [by rewrite list_lookup_insert_eq|by rewrite list_lookup_insert_ne]. }
  eapply wp_mono; [apply (IH ts' db1); [done|by rewrite Ed1|unfold db1; cbn; by rewrite length_insert]|].
  intros s2 [db2 w2] (Ed2 & rs & -> & Hlen & Hoth & Hok & Hff2). split; [done|].
  exists rs. split_and!; [done|unfold db1 in Hlen; cbn in Hlen; by rewrite length_insert in Hlen| | |done].
  - intros l Hne. rewrite Hoth, Hr1 by done. by rewrite decide_False.
  - intros Hs2. destruct (Hok Hs2) as (new & Hnew & E). exists (rd :: new). split.
    + constructor; [|done]. exists i. split; [done|by apply Hrd].
    + rewrite E, Hr1, decide_True by done. by rewrite <- app_assoc.
Qed.

Lemma open_levels_spec tabs ls db w : NoDup ls →
  (∀ l, Forall2 (file_ok (w_disk w) (db_path_ db)) (Level (version_ db) l) (tabs l)) →
  length (open_readers_ db) = kMaxLevels → Forall (λ l, (l < kMaxLevels)%nat) ls →
  (∀ l, l ∈ ls → readers_at db l = []) →
  wp (open_levels ls) (λ s '(db', w'), w_disk w' = w_disk w ∧ ∃ rs, db' = set_readers rs db ∧
    length rs = kMaxLevels ∧ (∀ l, l ∉ ls → readers_at db' l = readers_at db l) ∧
    (ok s = true → ∀ l, l ∈ ls →
       Forall3 (reader_ok (w_disk w) (db_path_ db)) (Level (version_ db) l) (tabs l) (readers_at db' l)) ∧
    (FaultFree O → s = OK)) (db, w).
Proof.
  intros Hnd Hf. remember (w_disk w) as d eqn:Ed. revert db w Ed Hf.
  induction Hnd as [|l ls Hl Hnd IH]; intros db w Ed Hf Hlen Hlt Hemp.
  { apply wp_ret. split; [done|]. exists (open_readers_ db).
    split_and!; [by destruct db|done|done|set_solver|done]. }
  apply Forall_cons in Hlt as [Hl0 Hlt]. cbn [open_levels]. subst d. step_this.
  apply wp_check. eapply wp_mono; [apply (open_level_spec l _ (tabs l)); [apply Hf|lia]|].
  intros s [db1 w1] (Ed1 & rs & -> & Hlen1 & Hoth & Hok & Hff).
  destruct (ok s) eqn:Es.
  2: { split; [done|]. exists rs. split_and!; [done|congruence| |congruence|done].
       intros l' Hl'. apply Hoth. set_solver. }
  destruct (Hok eq_refl) as (new & Hnew & E). rewrite (Hemp l), app_nil_l in E by set_solver.
  eapply wp_mono; [apply (IH (set_readers rs db)); [by rewrite Ed1|done|cbn; congruence|done|]|].
  { intros l' Hl'. rewrite Hoth by set_solver. apply Hemp. set_solver. }
  intros s2 [db2 w2] (Ed2 & rs2 & -> & Hlen2 & Hoth2 & Hok2 & Hff2). split; [congruence|].
  exists rs2. split_and!; [done|done| | |done].
  - intros l' [? ?]%not_elem_of_cons. by rewrite Hoth2, Hoth.
  - intros Hs2 l' [->|Hl']%elem_of_cons; [|by apply Hok2].
    rewrite Hoth2 by done. by rewrite E.
Qed.
End open.

(** ** Lemmas: recovering *)

Lemma log_records_small fuel c : Forall (λ r, zlen r < 2 ^ 32) (log_records fuel c).
Proof.
  revert c. induction fuel as [|fuel IH]; intros c; [constructor|]. cbn [log_records].
  cbv zeta. repeat case_match; try constructor; [|apply IH].
  pose proof (DecodeFixed32_u32 (drop 4 (ztake 8 c))) as Hu. unfold is_u32 in Hu.
  rewrite ztake_length by lia. lia.
Qed.
Lemma records_small c : Forall (λ r, zlen r < 2 ^ 32) (records c).
Proof. apply log_records_small. Qed.

(** Making the directory touches no file. *)
Lemma kept_files_add_dir p d path v tabs : disk_wf d → persisted d path v tabs →
  kept_files d (add_dir p d) path v tabs.
Proof.
  intros [] [Hman Hfit [? ? Hf ? ? ? ?] Hpw].
  assert (∀ q, content (add_dir p d) q = content d q) as Ec by done.
  split_and!; [by split| |done]. split; [by rewrite Ec|done| |done]. split; try done.
  intros l. eapply Forall2_impl; [apply Hf|]. by intros fm t [].
Qed.

Lemma kept_files_refl d path v tabs : disk_wf d → persisted d path v tabs → kept_files d d path v tabs.
Proof. done. Qed.
Lemma kept_files_trans d1 d2 d3 path v tabs :
  kept_files d1 d2 path v tabs → kept_files d2 d3 path v tabs → kept_files d1 d3 path v tabs.
Proof. intros (_ & _ & E1) (? & ? & E2). split_and!; [done|done|congruence]. Qed.
Lemma kept_files_recovered d d' path v tabs : kept_files d d' path v tabs →
  recovered d' path tabs = recovered d path tabs.
Proof. intros (_ & _ & E). unfold recovered. by rewrite E. Qed.

(** The directory test of [Open] passes. *)
Definition open_allowed (options : Options) (path : bytes) (d : Disk) : Prop :=
  if bool_decide (canon (path ++ [slash]) ∈ d_dirs d) || bool_decide (is_Some (resolve d path))
  then error_if_exists options = false else create_if_missing options = true.

Section open_spec.
Context {O : Oracle}.
Implicit Types (db : DB) (w : World).

Lemma load_spec v tabs path w : persisted (w_disk w) path v tabs →
  wp (Version_Load Version_new (manifest_path path)) (λ '(s, v') w', w_disk w' = w_disk w ∧
    (negb (ok s) && negb (IsNotFound s) = false → v' = v) ∧
    (FaultFree O → negb (ok s) && negb (IsNotFound s) = false)) w.
Proof.
  intros [[Hc|[Hc ->]] Hfit _ _].
  - eapply wp_mono; [by apply Version_Load_spec|]. intros [s v'] w' (Ed & Hnf & Hv & Hff).
    rewrite Hnf. split_and!; [done| |].
    + destruct (ok s); [by intros _|discriminate].
    + intros Hff'. by rewrite (Hff Hff').
  - eapply wp_mono; [by apply Version_Load_absent|]. intros [s v'] w' (Ed & -> & Hs & Hff).
    split_and!; [done|done|]. intros Hff'. by rewrite (Hff Hff'), andb_false_r.
Qed.

(** The memtable a replay of the log on [d] builds. *)
Definition replayed_memtable (d : Disk) (path : bytes) : MemTable :=
  fold_left h_apply (wal_ops (wal_content d path)) MemTable_new.

(** The object [Open] hands out. *)
Record open_post (options : Options) (path : bytes) (v : Version) (tabs : nat → list tbl)
    (d : Disk) (db : DB) (d' : Disk) : Prop := {
  op_path : db_path_ db = path;
  op_options : options_ db = options;
  op_closed : closed_ db = false;
  op_thread : bg_thread_ db = background_compaction options;
  op_ok : db_ok db tabs d';
  op_version : version_ db = v;
  op_kept : kept_files d d' path v tabs;
  op_contents : FaultFree O → contents db tabs = recovered d path tabs;
  op_mem : FaultFree O → memtable_ db = replayed_memtable d path;
  op_wal_open : wal_open db;
  op_log : ∃ wal, wal_ db = Some wal ∧
    wal_flushed (canon (wal_path path)) wal d' (wal_content d path);
  op_durable : FaultFree O → wal_content d path = log_of (records (wal_content d path)) →
    durable db tabs d';
}.

(** The previous handle does not matter. *)
Lemma open_wal_over wal db w Q : wp open_wal Q (db, w) = wp open_wal Q (set_wal wal db, w).
Proof.
  unfold open_wal, wp, this, lift, update, gets, modify, mbind, ST_bind. cbn.
  by destruct (Wal_Open _ _ w) as [[]].
Qed.

(** The object when the log has been replayed and is about to be opened. *)
Record replayed (options : Options) (path : bytes) (v : Version) (tabs : nat → list tbl)
    (d : Disk) (db : DB) (d' : Disk) : Prop := {
  rp_path : db_path_ db = path;
  rp_options : options_ db = options;
  rp_closed : closed_ db = false;
  rp_thread : bg_thread_ db = false;
  rp_version : version_ db = v;
  rp_ok : db_ok (set_wal Wal_new db) tabs d';
  rp_kept : kept_files d d' path v tabs;
  rp_contents : FaultFree O → contents db tabs = recovered d path tabs;
  rp_mem : FaultFree O → memtable_ db = replayed_memtable d path;
}.

(** The readers of a fresh object. *)
Lemma open_readers_spec options path v tabs w : persisted (w_disk w) path v tabs →
  let db := set_version v (DB_new options path) in
  wp (open_levels (seq 0 kMaxLevels)) (λ s '(db', w'), w_disk w' = w_disk w ∧
    ∃ rs, db' = set_readers rs db ∧ length rs = kMaxLevels ∧ (FaultFree O → s = OK) ∧
    (ok s = true → ∀ l, Forall3 (reader_ok (w_disk w) path) (Level v l) (tabs l) (readers_at db' l)))
    (db, w).
Proof.
  intros Hp db. eapply wp_mono; [apply (open_levels_spec tabs _ db); [apply NoDup_seq|apply Hp|done| |]|].
  { apply Forall_forall. intros l Hl%elem_of_seq. lia. }
  { intros l Hl%elem_of_seq. unfold readers_at, kMaxLevels in *. cbn. do 6 (destruct l as [|l]; [done|]). lia. }
  intros s [db' w'] (Ed & rs & -> & Hlen & _ & Hrd & Hff). split; [done|]. exists rs.
  split_and!; [done..|]. intros Hs l. specialize (Hrd Hs).
  destruct (decide (l < kMaxLevels)%nat); [apply Hrd, elem_of_seq; lia|].
  pose proof (to_files _ _ _ _ (pe_tables _ _ _ _ Hp) l) as Hf.
  rewrite Level_out in Hf |- * by (apply Hp || lia). apply Forall2_nil_inv_l in Hf as ->.
  unfold readers_at. rewrite nth_overflow by (cbn; lia). constructor.
Qed.

(** The memtable the replay builds, on an object with its readers open. *)
Lemma replayed_mem options path v tabs d d' rs recs :
  let db := set_readers rs (set_version v (DB_new options path)) in
  let mt := apply_records replay_record recs (memtable_ db) in
  options_ok options → kept_files d d' path v tabs → length rs = kMaxLevels →
  (∀ l, Forall3 (reader_ok d' path) (Level v l) (tabs l) (readers_at db l)) →
  (FaultFree O → recs = records (wal_content d' path)) →
  replayed options path v tabs d (set_memtable mt db) d'.
Proof.
  intros db mt Ho Hk Hlen Hrd Hrecs. pose proof Hk as (Hwf & Hp & Hc).
  assert (mem_wf mt ∧ Forall entry_wf (mem_entries mt)) as [Hmt Hme].
  { unfold mt. cbn [memtable_ DB_new db set_readers set_version]. rewrite replay_records.
    split; [apply mem_apply_wf, mem_wf_new|]. apply ops_apply_entries; [apply wal_ops_fit|constructor]. }
  split; try done.
  - split; try done; [apply Hp|by exists Wal_new; split; [|left]].
  - intros Hff. unfold contents, recovered. f_equal. f_equal. cbn [memtable_ set_memtable].
    unfold mt. rewrite (Hrecs Hff). change (memtable_ db) with MemTable_new.
    rewrite replay_layer. by rewrite <- Hc.
  - intros Hff. cbn [memtable_ set_memtable]. unfold mt. rewrite (Hrecs Hff), replay_records, Hc. done.
Qed.

(** What [Open] sets last. *)
Definition started (db : DB) : DB :=
  if background_compaction (options_ db)
  then set_bg true (bg_work_requested_ db) (shutting_down_ db) (bg_idle_ db) db else db.

Lemma started_ind (P : DB → Prop) db :
  P db → (∀ a b c e, P (set_bg a b c e db)) → P (started db).
Proof. intros H1 H2. unfold started. by destruct (background_compaction _). Qed.

Lemma started_post options path v tabs d d1 d' db wal :
  replayed options path v tabs d db d1 → kept_files d1 d' path v tabs →
  db_ok (set_wal wal db) tabs d' →
  wal_flushed (canon (wal_path path)) wal d' (wal_content d1 path) →
  open_post options path v tabs d (started (set_wal wal db)) d'.
Proof.
  intros [Ep Eo Ec Et Ev _ Hk1 Hcont Hmem] Hk' Hok' Hfl. pose proof Hfl as (f & Hf & _).
  pose proof (kept_files_trans _ _ _ _ _ _ Hk1 Hk') as Hk.
  assert (bg_thread_ (started (set_wal wal db)) = background_compaction options) as Hbg.
  { unfold started. cbn [options_ set_wal]. rewrite Eo. by destruct (background_compaction options). }
  assert (FaultFree O → wal_content d path = log_of (records (wal_content d path)) →
    durable (set_wal wal db) tabs d') as Hdur.
  { intros Hff Hclean. destruct Hk as (Hwf & Hp & Ew), Hk1 as (_ & _ & Ew1).
    exists v, tabs, (records (wal_content d path)).
    change (contents (set_wal wal db) tabs) with (contents db tabs). rewrite Hcont by done.
    unfold wal_clean. cbn [db_path_ wal_ set_wal]. rewrite Ep. unfold recovered. rewrite <- Hclean.
    split_and!; [done|cbn; by rewrite Ev|apply records_small|by rewrite Ew| |done|done].
    exists wal. split; [done|]. right. by rewrite <- Ew1. }
  assert (wal_flushed (canon (wal_path path)) wal d' (wal_content d path)) as Hlog
    by (destruct Hk1 as (_ & _ & <-); exact Hfl).
  pattern (started (set_wal wal db)) in Hbg |- *. revert Hbg. apply started_ind.
  - intros Hbg. split; try done; by exists wal; try by exists f.
  - intros a b c e Hbg. split; try done; [by apply db_ok_bg|by exists wal, f|by exists wal].
Qed.

(** The rest of [Open_object]. *)
Lemma open_tail_spec existed options path v tabs d db w :
  replayed options path v tabs d db (w_disk w) →
  wp (check open_wal;;
      check (if negb existed then save_version else mret OK);;
      (if background_compaction options then
         update (λ db, set_bg true (bg_work_requested_ db) (shutting_down_ db) (bg_idle_ db) db)
       else mret ());; mret OK)
    (λ s '(db', w'), (ok s = true → open_post options path v tabs d db' (w_disk w')) ∧
       (FaultFree O → ok s = true)) (db, w).
Proof.
  intros Hr. pose proof (rp_ok _ _ _ _ _ _ _ Hr) as Hok. pose proof (rp_kept _ _ _ _ _ _ _ Hr) as (Hwf & Hp & Hc).
  pose proof (rp_path _ _ _ _ _ _ _ Hr) as Ep.
  apply wp_check. rewrite (open_wal_over Wal_new). eapply wp_mono; [apply (open_wal_spec _ tabs), Hok|].
  intros s5 [db5 w5] (wal & -> & Hm5 & Hop5 & Hc5 & Hcase & Hff5). cbn [db_path_ set_wal] in *. rewrite Ep in *.
  destruct (ok s5) eqn:Es5.
  2: { split; [congruence|]. intros Hff. by rewrite (Hff5 Hff) in Es5. }
  assert (kept_files (w_disk w) (w_disk w5) path v tabs) as Hk5.
  { split_and!; [apply Hm5| |done].
    eapply persisted_frame; [exact Hwf|done|apply avoids_wal|apply manifest_not_wal|done]. }
  assert (∀ w', open_post options path v tabs d (started (set_wal wal db)) (w_disk w') →
    wp ((if background_compaction options then
     update (λ db, set_bg true (bg_work_requested_ db) (shutting_down_ db) (bg_idle_ db) db)
     else mret ());; mret OK) (λ s '(db', w'),
    (ok s = true → open_post options path v tabs d db' (w_disk w')) ∧
    (FaultFree O → ok s = true)) (set_wal wal db, w')) as Htail.
  { intros w' Hpost. unfold started in Hpost. cbn [options_ set_wal] in Hpost.
    rewrite (rp_options _ _ _ _ _ _ _ Hr) in Hpost.
    destruct (background_compaction options); by split. }
  apply wp_check. destruct existed; cbn [negb].
  - apply wp_ret. rewrite ok_OK. eapply Htail, started_post; [done|done|apply Hm5|done].
  - eapply wp_mono; [apply (save_version_spec (set_wal wal db) tabs); [apply Hm5|]|].
    { apply (pe_weight _ _ _ _ Hp). }
    intros s6 [db6 w6] (-> & Hm6 & Hper & Hop6 & Hff6). destruct (ok s6) eqn:Es6.
    2: { split; [congruence|]. intros Hff. by rewrite (Hff6 Hff) in Es6. }
    cbn [db_path_ set_wal] in *. rewrite Ep in *.
    eapply Htail, started_post; [done| |apply Hm6|].
    + eapply kept_files_trans; [done|]. split_and!; [apply Hm6| |].
      { rewrite <- (rp_version _ _ _ _ _ _ _ Hr). by apply Hper. }
      eapply file_content_frame; [apply Hm5|done|apply wal_not_manifest].
    + eapply wal_flushed_frame; [apply Hm5|exact Hop6|apply wal_not_manifest|done].
Qed.

Lemma Open_object_spec existed options path v tabs w :
  good_path path → options_ok options → disk_wf (w_disk w) → persisted (w_disk w) path v tabs →
  wp (Open_object existed) (λ s '(db, w'),
    (ok s = true → open_post options path v tabs (w_disk w) db (w_disk w')) ∧
    (FaultFree O → ok s = true)) (DB_new options path, w).
Proof.
  intros Hg Ho Hwf Hp. unfold Open_object. step_this. cbn [id]. rewrite ManifestPath_eq.
  apply wp_bind, wp_lift. eapply wp_mono; [by apply (load_spec v tabs path)|].
  intros [s1 v1] w1 (Ed1 & Hv1 & Hff1). step_update.
  destruct (negb (ok s1) && _) eqn:E1.
  { apply wp_ret. split; [|by intros Hff%Hff1]. intros Hs. by rewrite Hs in E1. }
  rewrite (Hv1 eq_refl). set (db1 := set_version v (DB_new options path)).
  apply wp_bind. eapply wp_mono; [apply (sweep_spec db1 v tabs); rewrite ?Ed1; done|].
  intros _ [db2 w2] [-> Hk2]. rewrite Ed1 in Hk2.
  apply wp_check. eapply wp_mono; [apply open_readers_spec, Hk2|].
  intros s3 [db3 w3] (Ed3 & rs & -> & Hlen & Hff3 & Hrd).
  destruct (ok s3) eqn:Es3.
  2: { split; [congruence|]. intros Hff. by rewrite (Hff3 Hff) in Es3. }
  apply wp_bind, wp_lift. rewrite WalPath_eq.
  eapply wp_mono; [apply ReplayAll_spec; rewrite Ed3; apply Hk2|].
  intros [s4 mt] w4 (_ & Ed4 & recs & -> & _ & Hff4). rewrite Ed3 in *.
  step_update. destruct (ok s4) eqn:Es4; cbn [negb].
  2: { apply wp_ret. split; [congruence|]. intros Hff. destruct (Hff4 Hff) as [-> _]. done. }
  apply open_tail_spec. rewrite Ed4. apply replayed_mem; [done|done|done|by apply Hrd|].
  intros Hff. by destruct (Hff4 Hff).
Qed.

Lemma Open_directory_spec options path existed w v tabs : disk_wf (w_disk w) →
  persisted (w_disk w) path v tabs →
  wp (Open_directory options path existed) (λ s w', kept_files (w_disk w) (w_disk w') path v tabs ∧
    (FaultFree O → (if existed then error_if_exists options = false
                    else create_if_missing options = true) → s = OK)) w.
Proof.
  intros Hwf Hp. unfold Open_directory. pose proof (kept_files_refl _ _ _ _ Hwf Hp) as Hr.
  destruct existed; cbn [negb].
  - destruct (error_if_exists options); apply wp_ret; by split.
  - destruct (create_if_missing options); cbn [negb]; [|apply wp_ret; by split].
    apply wp_bind. eapply wp_mono; [apply fs_create_directories_spec|].
    intros [created ec] w' [Hd Hff].
    assert (kept_files (w_disk w) (w_disk w') path v tabs) as Hk
      by (destruct Hd as [->| ->]; [done|by apply kept_files_add_dir]).
    destruct (negb created && ec) eqn:E; apply wp_ret; (split; [done|]); [|done].
    intros Hff'. by rewrite (Hff Hff'), andb_false_r in E.
Qed.

Lemma Open_spec options path v tabs w :
  good_path path → options_ok options → disk_wf (w_disk w) → persisted (w_disk w) path v tabs →
  wp (Open options path) (λ '(s, odb) w',
    match odb with
    | Some db => s = OK ∧ open_post options path v tabs (w_disk w) db (w_disk w')
    | None => ok s = false
    end ∧
    (FaultFree O → open_allowed options path (w_disk w) → is_Some odb)) w.
Proof.
  intros Hg Ho Hwf Hp. unfold Open.
  apply wp_bind. eapply wp_mono; [apply fs_exists_spec|]. intros existed w1 (Ed1 & Hex & Hexf).
  apply wp_bind. eapply wp_mono; [apply (Open_directory_spec _ _ _ _ v tabs); by rewrite Ed1|].
  intros s2 w2 [Hk2 Hff2]. rewrite Ed1 in Hk2. destruct (ok s2) eqn:Es2; cbn [negb].
  2: { apply wp_ret. split; [done|]. intros Hff Hal. rewrite Hff2 in Es2; [done|done|].
       unfold open_allowed in Hal. rewrite (Hexf Hff). by destruct (_ || _). }
  pose proof (Open_object_spec existed options path v tabs w2 Hg Ho (proj1 Hk2) (proj1 (proj2 Hk2))) as H3.
  unfold wp in *. destruct (Open_object existed (DB_new options path, w2)) as [s3 [db3 w3]].
  cbn [fst snd] in H3. destruct H3 as [Hok3 Hff3]. destruct (ok s3) eqn:Es3.
  - cbn [fst snd]. split; [|done]. split; [done|]. destruct (Hok3 eq_refl). split; try done.
    + by eapply kept_files_trans.
    + intros Hff. by rewrite op_contents0, (kept_files_recovered _ _ _ _ _ Hk2).
    + intros Hff. rewrite op_mem0 by done. unfold replayed_memtable. by destruct Hk2 as (_ & _ & ->).
    + destruct Hk2 as (_ & _ & Ew). by rewrite Ew in op_log0.
    + destruct Hk2 as (_ & _ & Ew). by rewrite Ew in op_durable0.
  - destruct (Destroy (db3, w3)) as [? [? w4]]. cbn [fst snd]. split; [done|].
    intros Hff. by specialize (Hff3 Hff).
Qed.
End open_spec.
