(* ===== verification/DBSpec.v ===== *)
(** * The contract of an open database

    [represents db d m]: the object and the disk hold the contents [m].
    [safe db d m]: and a recovery from [d] finds [m].  These two predicates are
    the interface of the database to its clients: the theorems about the
    operations, about crashes and about interleavings are stated with them. *)

From S2P Require Import Prelude Slice Status OrderedMap MemTable WriteBatch FileSystem Wal.
From S2P Require Import SSTable SSTableSpec Version DB DBPaths Layers DBInv DBFlush DBReaders.
From S2P Require Import Merge DBCompact DBRead DBWrite DBOpen.

Definition represents (db : DB) (d : Disk) (m : gmap bytes bytes) : Prop :=
  ∃ tabs, db_ok db tabs d ∧ contents db tabs = m.
Definition safe (db : DB) (d : Disk) (m : gmap bytes bytes) : Prop :=
  ∃ tabs, db_ok db tabs d ∧ contents db tabs = m ∧ durable db tabs d.

(** ** Room

    An upper bound of the data in an open database, from its memtable and its
    readers. *)
Definition reader_footprint (r : SSTableReader) : Z := 64 * zlen (index_ r) + 2 * file_size_ r.
Fixpoint readers_footprint (rs : list SSTableReader) : Z :=
  match rs with [] => 0 | r :: rs => reader_footprint r + readers_footprint rs end.
Definition footprint (db : DB) : Z :=
  weights (mem_entries (memtable_ db)) + readers_footprint (concat (open_readers_ db)).

(** The batch [ops] fits: at most 64 GiB, file numbers far from overflow. *)
Definition has_room (db : DB) (ops : list op) : bool :=
  (footprint db + ops_weight ops <=? max_weight) && (next_file_number (version_ db) <=? 2 ^ 62).

(** ** Lemmas: room *)

Lemma readers_footprint_app a b : readers_footprint (a ++ b) = readers_footprint a + readers_footprint b.
Proof. induction a as [|r a IH]; [done|]. cbn in *. rewrite IH. lia. Qed.

Lemma data_bytes_weight es : Forall entry_wf es → weights es ≤ 64 * zlen es + 2 * zlen (data_bytes es).
Proof.
  induction 1 as [|e es (Hk & Hv & Ht) _ IH]; [done|]. rewrite data_bytes_cons, length_app.
  cbn [weights length]. enough (weight e ≤ 64 + 2 * zlen (entry_bytes e)) by lia.
  unfold weight, entry_bytes. cbn [length]. rewrite !length_app.
  destruct (decide _); rewrite ?length_app; [lia|].
  destruct Ht as [?|[_ ->]]; [done|]. cbn [length]. lia.
Qed.

Lemma reads_footprint d t r : reads d t r → weights (t_entries t) ≤ reader_footprint r.
Proof.
  intros (Hwf & i & (Hi & _ & _ & _ & Hs & _) & _). unfold reader_footprint.
  rewrite Hi, index_from_length, Hs. pose proof (data_bytes_weight _ (tw_entries _ _ Hwf)).
  rewrite table_bytes_length. lia.
Qed.

Lemma level_footprint d ts rs : Forall2 (reads d) ts rs →
  weights (all_entries ts) ≤ readers_footprint rs.
Proof.
  induction 1 as [|t r ts rs Hr _ IH]; [done|]. unfold all_entries in *. cbn.
  rewrite weights_app. apply reads_footprint in Hr. lia.
Qed.

Lemma tables_weight_levels tabs :
  tables_weight tabs = weights (all_entries (concat (tabs <$> seq 0 kMaxLevels))).
Proof.
  unfold tables_weight. apply weights_perm. unfold all_entries.
  rewrite search_order_0. change (seq 0 kMaxLevels) with (0 :: seq 1 (kMaxLevels - 1))%nat.
  cbn [fmap list_fmap concat]. by rewrite reverse_Permutation.
Qed.

Lemma concat_readers db : length (open_readers_ db) = kMaxLevels →
  concat ((λ l, readers_at db l) <$> seq 0 kMaxLevels) = concat (open_readers_ db).
Proof.
  intros H. unfold readers_at. destruct (open_readers_ db) as [|a [|b [|c [|e [|f [|g [|? ?]]]]]]]; done.
Qed.

Lemma footprint_bound db tabs d : db_ok db tabs d →
  weights (mem_entries (memtable_ db)) + tables_weight tabs ≤ footprint db.
Proof.
  intros Hok. unfold footprint. rewrite tables_weight_levels, <- (concat_readers db) by apply Hok.
  pose proof (level_footprint _ _ _ (deep_reads _ _ _ (seq 0 kMaxLevels) Hok)). lia.
Qed.

Lemma has_room_write db tabs d ops : db_ok db tabs d → has_room db ops = true →
  write_limits db tabs ops.
Proof.
  intros Hok [H1%Z.leb_le H2%Z.leb_le]%andb_true_iff. pose proof (footprint_bound _ _ _ Hok).
  split; [lia|done].
Qed.
Lemma has_room_limits db tabs d : db_ok db tabs d → has_room db [] = true → within_limits db tabs.
Proof.
  intros Hok H. destruct (has_room_write _ _ _ _ Hok H) as [H1 H2]. change (ops_weight []) with 0 in H1.
  split; [lia|done].
Qed.

Lemma safe_represents db d m : safe db d m → represents db d m.
Proof. intros (tabs & ? & ? & _). by exists tabs. Qed.
Lemma safe_recoverable db d m : safe db d m → recoverable d (db_path_ db) m.
Proof. intros (tabs & _ & <- & Hd). by apply durable_recoverable. Qed.

(** Maintenance as seen through the contract. *)
Lemma maintained_safe db tabs d db' tabs' d' m : maintained db tabs d db' tabs' d' →
  contents db tabs = m → durable db tabs d → safe db' d' m.
Proof. intros [? ? E Hd] <- Hdur. exists tabs'. auto. Qed.
Lemma maintained_represents db tabs d db' tabs' d' m : maintained db tabs d db' tabs' d' →
  contents db tabs = m → represents db' d' m.
Proof. intros [? ? E _] <-. exists tabs'. auto. Qed.

(** [Write] and the background round, through the contract. *)
Section calls.
Context {O : Oracle}.

(** [Write] under any failures: all of the batch or none of it, in the object
    and in a recovery; all of it once acknowledged. *)
Lemma Write_safe db w m opts ops : safe db (w_disk w) m → closed_ db = false → batch_fits ops →
  has_room db ops = true → let m' := fold_left map_op ops m in
  wp (Write opts (batch_of ops)) (λ r '(db', w'),
    (acked r = true → safe db' (w_disk w') m') ∧
    (represents db' (w_disk w') m ∨ represents db' (w_disk w') m') ∧
    (recoverable (w_disk w') (db_path_ db) m ∨ recoverable (w_disk w') (db_path_ db) m') ∧
    (compaction_ok (options_ db) → r ≠ None)) (db, w).
Proof.
  intros (tabs & Hok & <- & Hd) Hcl Hb Hr m'.
  eapply wp_mono; [by eapply (Write_spec db tabs), has_room_write|].
  intros r [db' w'] (applied & tabs' & []). split_and!; [| | |done].
  - intros Er. rewrite (wr_acked Er) in *. exists tabs'. auto.
  - destruct applied; [right|left]; by exists tabs'.
  - specialize (wr_durable Hd). destruct applied; [right|done].
    rewrite <- wr_path. unfold m'. rewrite <- wr_contents. by apply durable_recoverable.
Qed.

Lemma BackgroundRound_spec db tabs w : db_ok db tabs (w_disk w) → within_limits db tabs →
  wp BackgroundRound (λ r '(db', w'), ∃ tabs',
    db_path_ db' = db_path_ db ∧ options_ db' = options_ db ∧ closed_ db' = closed_ db ∧
    bg_thread_ db' = bg_thread_ db ∧ shutting_down_ db' = shutting_down_ db ∧
    bg_work_requested_ db' = false ∧
    db_ok db' tabs' (w_disk w') ∧ contents db' tabs' = contents db tabs ∧
    (durable db tabs (w_disk w) → durable db' tabs' (w_disk w')) ∧
    (FaultFree O → (r = None ∨ r = Some OK) ∧ (wal_open db → wal_open db') ∧
       modest 0 number_stride db tabs (w_disk w) db' tabs' (w_disk w')) ∧
    (compaction_ok (options_ db) → r ≠ None) ∧
    (r = Some OK → MemTable_empty (memtable_ db') = true ∧ NeedsCompactionLocked db' = None)) (db, w).
Proof.
  intros Hok Hlim. unfold BackgroundRound. step_update. set (db0 := set_bg _ _ _ _ db).
  assert (db_ok db0 tabs (w_disk w)) as Hok0 by by apply db_ok_bg.
  assert (durable db tabs (w_disk w) → durable db0 tabs (w_disk w)) as Hd0 by by apply durable_bg.
  apply (flush_then_compact_spec db0 tabs); [done|done|].
  intros s db1 tabs1 w1 Hpost Hw Hn. apply wp_bind.
  eapply (wp_mono _ (λ r '(db2, w2), ∃ tabs2, maintain_post db0 tabs (w_disk w) r db2 tabs2 (w_disk w2) ∧
    (r = Some OK → MemTable_empty (memtable_ db2) = true ∧ NeedsCompactionLocked db2 = None))).
  - destruct (ok s) eqn:Es.
    + eapply wp_mono; [apply (loop_after db0 tabs w _ tabs1); [apply Hpost|by eapply flush_light|done..]|].
      intros r [db2 w2] (tabs2 & ? & Emem & Hnc). exists tabs2. split; [done|]. intros ->.
      split; [rewrite Emem; by apply Hpost|by apply Hnc].
    + apply wp_ret. exists tabs1. split; [by apply maintain_fail|]. intros [= ->]. done.
  - intros r [db2 w2] (tabs2 & ([[] Hok2 Hc2 Hd2] & Hff & Hr & Hmo) & Hdone). destruct r as [s2|].
    + step_update. apply wp_ret. exists tabs2. split_and!; try done; [by apply db_ok_bg|].
      intros Hff'. destruct (Hff Hff'). split_and!; [done|done|]. by destruct (Hmo Hff').
    + apply wp_ret. exists tabs2. split_and!; try done. intros Hff'. destruct (Hff Hff').
      split_and!; [done|done|]. by destruct (Hmo Hff').
Qed.
(** [Open] on a recoverable disk. *)
Lemma open_recoverable w path m options : disk_wf (w_disk w) → recoverable (w_disk w) path m →
  good_path path → options_ok options →
  wp (Open options path) (λ '(s, odb) w',
    match odb with
    | Some db => s = OK ∧ closed_ db = false ∧ recoverable (w_disk w') path m ∧
        (FaultFree O → represents db (w_disk w') m ∧ wal_open db)
    | None => ok s = false
    end ∧
    (FaultFree O → open_allowed options path (w_disk w) → is_Some odb)) w.
Proof.
  intros Hwf (v & tabs & Hp & <-) Hg Ho.
  eapply wp_mono; [by apply (Open_spec options path v tabs)|].
  intros [s odb] w' [Hres Hff]. split; [|done]. destruct odb as [db|]; [|done].
  destruct Hres as [-> []]. split_and!; [done|done| |].
  - exists v, tabs. split; [apply op_kept|]. by eapply kept_files_recovered.
  - intros Hff'. split; [|done]. exists tabs. split; [done|]. by apply op_contents.
Qed.

Lemma open_allowed_any options path d :
  create_if_missing options = true → error_if_exists options = false → open_allowed options path d.
Proof. intros. unfold open_allowed. by destruct (_ || _). Qed.
End calls.
