(* ===== verification/QuietWrite.v ===== *)
(** * Writes that do not flush

    A [Write] whose batch stays in the memtable is an append to the log and an
    update of the memtable.  It is followed here down to the bytes of the log
    file, for the theorems on torn logs and on power failures. *)

From S2P Require Import Prelude Slice Status OrderedMap MemTable WriteBatch FileSystem Wal.
From S2P Require Import SSTable SSTableSpec Version DB DBPaths Layers DBInv DBFlush DBReaders.
From S2P Require Import Merge DBCompact DBRead DBWrite DBOpen DBSpec.

(** [Write] leaves the batch in the memtable: no flush and no compaction in
    this call. *)
Definition quiet (db : DB) (ops : list op) : bool :=
  background_compaction (options_ db) ||
  ((ApproximateBytes (memtable_ (apply_ops ops db)) <? memtable_flush_bytes (options_ db)) &&
   match NeedsCompactionLocked (apply_ops ops db) with None => true | Some _ => false end).

Definition syncs (o : Options) (opts : WriteOptions) : bool := sync opts || sync_writes o.

(** The object after a quiet write of [ops]. *)
Definition applied (ops : list op) (db : DB) : DB :=
  if background_compaction (options_ db)
  then set_bg (bg_thread_ db) true (shutting_down_ db) false (apply_ops ops db) else apply_ops ops db.

Lemma wal_clean_applied ops db d rs : wal_clean db d rs → wal_clean (applied ops db) d rs.
Proof. unfold applied. by destruct (background_compaction _). Qed.
Lemma applied_fields ops db : options_ (applied ops db) = options_ db ∧
  db_path_ (applied ops db) = db_path_ db ∧ closed_ (applied ops db) = closed_ db.
Proof. unfold applied. by destruct (background_compaction _). Qed.
Lemma db_ok_applied ops db tabs d : Forall op_fits ops → db_ok db tabs d → db_ok (applied ops db) tabs d.
Proof.
  intros Hf Hok. unfold applied. destruct (background_compaction _); [apply db_ok_bg|]; by apply db_ok_apply.
Qed.
Lemma contents_applied ops db tabs : mem_wf (memtable_ db) →
  contents (applied ops db) tabs = fold_left map_op ops (contents db tabs).
Proof. intros Hm. rewrite <- (contents_apply db) by done. unfold applied. by destruct (background_compaction _). Qed.
Lemma applied_memtable ops db : memtable_ (applied ops db) = fold_left h_apply ops (memtable_ db).
Proof. unfold applied. by destruct (background_compaction _). Qed.
Lemma applied_version ops db : version_ (applied ops db) = version_ db.
Proof. unfold applied. by destruct (background_compaction _). Qed.
Lemma applied_wal ops db : wal_ (applied ops db) = wal_ db.
Proof. unfold applied. by destruct (background_compaction _). Qed.

Section quiet.
Context {O : Oracle}.
Implicit Types (db : DB) (w : World).

Lemma Write_quiet db w opts ops Q : batch_fits ops → closed_ db = false → quiet db ops = true →
  wp (add_record (rep_ (batch_of ops)) (syncs (options_ db) opts)) (λ s '(db1, w1),
    ∃ wal, db1 = set_wal wal db ∧ if ok s then Q (Some OK) (applied ops db1, w1) else Q (Some s) (db1, w1))
    (db, w) →
  wp (Write opts (batch_of ops)) Q (db, w).
Proof.
  intros Hb Hcl Hq H. destruct (batch_fits_ops _ Hb) as [Hf Hn]. unfold Write.
  unfold WriteBatch_empty. rewrite (proj2 (Z.eqb_neq _ _) (batch_fits_count _ Hb)).
  step_this. cbn [id]. rewrite Hcl. apply wp_bind. eapply wp_mono; [exact H|].
  intros s [db1 w1] (wal & -> & HQ). destruct (ok s) eqn:Es; cbn [negb]; [|by apply wp_ret].
  apply wp_bind. unfold ApplyBatchLocked. step_this. rewrite Iterate_batch_of by done. step_update.
  apply wp_ret. rewrite ok_OK. cbn [negb]. fold (apply_ops ops (set_wal wal db)).
  unfold applied in HQ. cbn [options_ set_wal] in HQ. unfold quiet in Hq.
  destruct (background_compaction (options_ db)); cbn [orb] in Hq.
  - step_update. by apply wp_ret.
  - apply andb_true_iff in Hq as [Hq1%Z.ltb_lt Hq2]. unfold MaybeFlushLocked. step_this. cbn [id].
    cbn [apply_ops set_memtable set_wal options_ memtable_] in Hq1.
    change (memtable_flush_bytes (options_ (apply_ops ops (set_wal wal db)))) with (memtable_flush_bytes (options_ db)).
    rewrite (proj2 (Z.leb_gt _ _)) by done. apply wp_bind, wp_ret. rewrite ok_OK. cbn [negb].
    unfold loop_fuel, kMaxLevels. cbn [compact_loop]. step_this.
    assert (NeedsCompactionLocked (apply_ops ops (set_wal wal db)) =
      NeedsCompactionLocked (apply_ops ops db)) as -> by done.
    destruct (NeedsCompactionLocked (apply_ops ops db)); [done|]. by apply wp_ret.
Qed.

(** The log has been opened, holds [c], and nothing is buffered. *)
Definition log_ready db (d : Disk) (c : bytes) : Prop :=
  ∃ wal, wal_ db = Some wal ∧ wal_flushed (canon (wal_path (db_path_ db))) wal d c.

Lemma log_ready_content db d c : log_ready db d c → wal_content d (db_path_ db) = c.
Proof. intros (wal & _ & Hfl). by apply wal_flushed_content in Hfl. Qed.
Lemma log_ready_open db d c : log_ready db d c → wal_open db.
Proof. intros (wal & ? & f & ? & _). by exists wal, f. Qed.

Lemma wal_clean_ready db d rs : wal_clean db d rs → wal_open db → log_ready db d (log_of rs).
Proof.
  intros (_ & _ & wal & Hw & Hc) (wal' & f & Hw' & Hf). exists wal. split; [done|].
  destruct Hc as [Hn|]; [congruence|done].
Qed.

(** Without failures the batch is applied and its record appended. *)
Lemma Write_ready `{!FaultFree O} db tabs w opts ops c : db_ok db tabs (w_disk w) →
  log_ready db (w_disk w) c → closed_ db = false → batch_fits ops → quiet db ops = true →
  wp (Write opts (batch_of ops)) (λ r '(db', w'), r = Some OK ∧
    (∃ wal, db' = applied ops (set_wal wal db)) ∧ db_ok db' tabs (w_disk w') ∧
    contents db' tabs = fold_left map_op ops (contents db tabs) ∧
    only_paths {[canon (wal_path (db_path_ db))]} (w_disk w) (w_disk w') ∧
    log_ready db' (w_disk w') (c ++ record (rep_ (batch_of ops)))) (db, w).
Proof.
  intros Hok (wal & Hw & Hfl) Hcl Hb Hq. destruct (batch_fits_ops _ Hb) as [Hf _].
  apply Write_quiet; [done..|]. unfold add_record. step_this. rewrite Hw. apply wp_bind, wp_lift.
  pose proof (wal_flushed_at _ _ _ _ Hfl) as Hat.
  eapply wp_mono; [eapply Wal_AddRecord_spec; [apply Hok|exact Hat]|].
  intros [s wal'] w' ([(Hwf' & Hop & _) _] & _ & Hfl' & Hff). specialize (Hff _) as ->.
  specialize (Hfl' eq_refl). step_update. apply wp_ret. exists wal'. split; [done|]. rewrite ok_OK.
  assert (db_ok (set_wal wal' db) tabs (w_disk w')) as Hok'.
  { apply db_ok_set_wal with (d := w_disk w); [done|done|done|right]. eexists. by apply wal_flushed_at. }
  split_and!; [done|by exists wal'|by apply db_ok_applied| |done|].
  - apply (contents_applied ops (set_wal wal' db)), Hok.
  - exists wal'. rewrite applied_wal. destruct (applied_fields ops (set_wal wal' db)) as (_ & -> & _).
    by split.
Qed.

(** A quiet write that is not acknowledged leaves a part of its record. *)
Lemma Write_torn db tabs w opts ops rs : db_ok db tabs (w_disk w) → wal_clean db (w_disk w) rs →
  closed_ db = false → batch_fits ops → quiet db ops = true →
  wp (Write opts (batch_of ops)) (λ r '(db', w'), acked r = false →
    disk_wf (w_disk w') ∧ only_paths {[canon (wal_path (db_path_ db))]} (w_disk w) (w_disk w') ∧
    ∃ k, wal_content (w_disk w') (db_path_ db) = log_of rs ++ take k (record (rep_ (batch_of ops))))
    (db, w).
Proof.
  intros Hok Hc Hcl Hb Hq. apply Write_quiet; [done..|].
  eapply wp_mono; [apply (add_record_spec db tabs); [done|apply Hb]|].
  intros s [db' w'] (wal & -> & Hop & _ & Hok' & Hlog & _). exists wal. split; [done|].
  specialize (Hlog rs Hc). destruct (ok s) eqn:Es; [by cbn|]. intros _.
  split_and!; [apply Hok'|done|done].
Qed.
End quiet.
