(* ===== verification/PowerLoss.v ===== *)
(** * Power failures

    A power failure ends the process like a crash, and the disk besides loses
    what the operating system had not written: of each file it keeps the content
    at the last [fsync] and an arbitrary part of what was written since.
    [power_loss]: the directory is journaled, and creations, removals and
    renames are kept.  [power_loss_since]: it is not, and each name may be as it
    was when the directory was last on stable storage; the program never syncs a
    directory.

    Here: which disks a power failure can leave, what stays true of the files
    of the database, and what is left of the log. *)

From S2P Require Import Prelude Slice Status OrderedMap MemTable WriteBatch FileSystem Wal.
From S2P Require Import SSTable SSTableSpec Version DB DBPaths Layers DBInv DBFlush DBReaders.
From S2P Require Import Merge DBCompact DBRead DBWrite DBOpen DBSpec QuietWrite.

(** ** The disk after a power failure *)

(** What can be left of a file that held [cur] and was synced at [stable]. *)
Definition survives (stable cur x : bytes) : Prop :=
  x = stable ∨ x `prefix_of` cur ∧ (stable `prefix_of` cur → stable `prefix_of` x).

Definition stable_content (w : World) (i : nat) : bytes := default [] (w_stable w !! i).

Record power_loss (w : World) (d : Disk) : Prop := {
  pl_files : d_files d = d_files (w_disk w);
  pl_next : d_next d = d_next (w_disk w);
  pl_dirs : d_dirs d = d_dirs (w_disk w);
  pl_inode i : is_Some (d_inodes d !! i) → is_Some (d_inodes (w_disk w) !! i);
  pl_content i : survives (stable_content w i) (icontent (w_disk w) i) (icontent d i);
}.

(** [d0]: the disk when its directories were last on stable storage. *)
Record power_loss_since (d0 : Disk) (w : World) (d : Disk) : Prop := {
  ps_files p : d_files d !! p = d_files (w_disk w) !! p ∨ d_files d !! p = d_files d0 !! p;
  ps_dirs p : (p ∈ d_dirs d ↔ p ∈ d_dirs (w_disk w)) ∨ (p ∈ d_dirs d ↔ p ∈ d_dirs d0);
  ps_next : d_next d = d_next (w_disk w);
  ps_inode i : is_Some (d_inodes d !! i) → is_Some (d_inodes (w_disk w) !! i);
  ps_content i : survives (stable_content w i) (icontent (w_disk w) i) (icontent d i);
}.
(** No name was made, removed or renamed. *)
Definition same_names (d d' : Disk) : Prop := d_files d' = d_files d ∧ d_dirs d' = d_dirs d.
#[global] Instance same_names_preorder : PreOrder same_names.
Proof. split; [done|]. intros d1 d2 d3 [? ?] [? ?]. split; congruence. Qed.

(** Everything that was synced and nothing else. *)
Definition only_stable (w : World) : Disk :=
  mkDisk (d_files (w_disk w)) (map_imap (λ i _, Some (stable_content w i)) (d_inodes (w_disk w)))
    (d_next (w_disk w)) (d_dirs (w_disk w)).

(** And the directories as they were. *)
Definition only_stable_since (d0 : Disk) (w : World) : Disk :=
  mkDisk (d_files d0) (d_inodes (only_stable w)) (d_next (w_disk w)) (d_dirs d0).

(** The file is on stable storage. *)
Definition settled (w : World) (i : nat) : Prop := stable_content w i = icontent (w_disk w) i.
(** So is every file but those in [P]. *)
Definition settled_but (P : gset bytes) (w : World) : Prop :=
  ∀ q i, q ∉ P → d_files (w_disk w) !! q = Some i → settled w i.

(** ** Lemmas: the disk *)

Lemma survives_settled c x : survives c c x → x = c.
Proof.
  intros [->|[Hp Hs]]; [done|]. apply (anti_symm prefix); [done|]. by apply Hs.
Qed.

Lemma only_stable_power_loss w : power_loss w (only_stable w).
Proof.
  split; [done..| |].
  - intros i. cbn. rewrite map_lookup_imap. destruct (d_inodes (w_disk w) !! i); [done|]. by intros [? ?].
  - intros i. unfold icontent at 2. cbn. rewrite map_lookup_imap. unfold icontent.
    destruct (d_inodes (w_disk w) !! i) as [c|]; cbn; [by left|]. right.
    split; [done|]. by intros.
Qed.

Lemma power_loss_journaled w d : power_loss w d → power_loss_since (w_disk w) w d.
Proof. intros []. split; try done; [left; congruence|left; set_solver]. Qed.
Lemma power_loss_names d0 w d : power_loss_since d0 w d → same_names d0 (w_disk w) → power_loss w d.
Proof.
  intros [Hf Hd] [Ef Ed]. split; try done.
  - apply map_eq. intros p. rewrite <- Ef in Hf. by destruct (Hf p).
  - rewrite <- Ed in Hd. apply set_eq. intros p. by destruct (Hd p).
Qed.

Lemma only_stable_since_loss d0 w : power_loss_since d0 w (only_stable_since d0 w).
Proof.
  destruct (only_stable_power_loss w) as [_ _ _ Hi Hc]. split; [by right|by right|done|exact Hi|exact Hc].
Qed.

Lemma power_loss_wf w d : power_loss w d → disk_wf (w_disk w) → disk_wf d.
Proof.
  intros [Ef En _ Hi _] [H1 H2 H3]. split; rewrite ?Ef, ?En; [done| |done].
  intros i c E. destruct (Hi i (mk_is_Some _ _ E)) as [c' E']. by eapply H2.
Qed.

Lemma power_loss_content P w d path : power_loss w d → settled_but P w → canon path ∉ P →
  content d path = content (w_disk w) path.
Proof.
  intros Hpl Hs Hp. unfold content, resolve. rewrite (pl_files _ _ Hpl).
  destruct (d_files (w_disk w) !! canon path) as [i|] eqn:E; [|done]. cbn. f_equal.
  specialize (Hs _ _ Hp E). pose proof (pl_content _ _ Hpl i) as H. rewrite Hs in H.
  by apply survives_settled.
Qed.

Lemma booted_settled d P : settled_but P (booted d).
Proof. by intros q i _ _. Qed.

(** What a recovery reads besides the log depends on these contents only. *)
Lemma persisted_same d d' path v tabs :
  (∀ q, canon q ≠ canon (wal_path path) → content d' q = content d q) →
  persisted d path v tabs → persisted d' path v tabs.
Proof.
  intros Hc [Hm Hf [? ? Hfs ? ? ? ?] Hw]. split; [|done| |done].
  - rewrite Hc; [done|]. pose proof (manifest_not_wal path). set_solver.
  - split; [done..| |done|done|done|done]. intros l. eapply Forall2_impl_elem; [apply Hfs|].
    intros fm t Hin []. split; [done..|]. rewrite Hc; [done|].
    intros E. pose proof (avoids_wal path v l fm Hin). set_solver.
Qed.

(** ** Lemmas: the log *)

(** A log cut anywhere has the records that are complete. *)
Lemma records_cut L x : Forall (λ r, zlen r < 2 ^ 32) L → x `prefix_of` log_of L →
  ∃ k, (k ≤ length L)%nat ∧ records x = take k L.
Proof.
  intros HL. revert x. induction HL as [|r L Hr _ IH]; intros x Hx.
  { exists 0%nat. apply prefix_nil_inv in Hx as ->. by split. }
  change (log_of (r :: L)) with (record r ++ log_of L) in Hx.
  destruct (prefix_weak_total x (record r) (record r ++ log_of L)) as [H|[y ->]];
    [done|by apply prefix_app_r| |].
  - destruct H as [y Ey]. destruct (decide (y = [])) as [->|Hy].
    + exists 1%nat. rewrite app_nil_r in Ey. subst x. split; [cbn; lia|].
      rewrite <- (app_nil_r (record r)). by rewrite records_cons.
    + exists 0%nat. split; [lia|]. cbn. rewrite <- (take_app_length x y), <- Ey.
      apply records_torn; [done|]. rewrite Ey, length_app. destruct y; [done|cbn; lia].
  - apply prefix_app_inv in Hx. destruct (IH y Hx) as (k & Hk & E). exists (S k). cbn.
    split; [lia|]. by rewrite records_cons, E.
Qed.

Lemma records_between L0 L x : Forall (λ r, zlen r < 2 ^ 32) (L0 ++ L) →
  log_of L0 `prefix_of` x → x `prefix_of` log_of (L0 ++ L) →
  ∃ k, (k ≤ length L)%nat ∧ records x = L0 ++ take k L.
Proof.
  intros HL [y ->] Hx. apply Forall_app in HL as [H0 HL].
  unfold log_of in Hx. rewrite fmap_app, concat_app in Hx. apply prefix_app_inv in Hx.
  destruct (records_cut L y HL Hx) as (k & Hk & E). exists k. split; [done|].
  by rewrite records_log_of, E.
Qed.

(** ** Writes between two flushes *)

Section writes.
Context {O : Oracle}.
Implicit Types (db : DB) (w : World).

(** The stable content of the log: unchanged, or everything written so far. *)
Definition synced_or_not (i : nat) (w w' : World) : Prop :=
  w_stable w' = w_stable w ∨ w_stable w' = <[i := icontent (w_disk w') i]> (w_stable w).

Lemma fwrite_stable data f w :
  wp (fwrite data f) (λ '(_, f') w', f_ino f' = f_ino f ∧ w_stable w' = w_stable w) w.
Proof. by run_call. Qed.
Lemma fflush_stable f w :
  wp (fflush f) (λ '(_, f') w', f_ino f' = f_ino f ∧ w_stable w' = w_stable w) w.
Proof. by run_call. Qed.
Lemma fsync_stable f w : wp (fsync f) (λ b w', if b
  then w_stable w' = <[f_ino f := icontent (w_disk w') (f_ino f)]> (w_stable w)
  else w_stable w' = w_stable w) w.
Proof. run_call. by destruct (o_ok _). Qed.

Lemma Wal_Sync_stable wal f w : file_ wal = Some f →
  wp (Wal_Sync wal) (λ '(s, _) w',
    if ok s then w_stable w' = <[f_ino f := icontent (w_disk w') (f_ino f)]> (w_stable w)
    else w_stable w' = w_stable w) w.
Proof.
  intros Hf. unfold Wal_Sync. rewrite Hf. apply wp_bind. eapply wp_mono; [apply fflush_stable|].
  intros [[] f1] w1 [<- <-]; cbn [negb]; [|by apply wp_ret].
  apply wp_bind. eapply wp_mono; [apply fsync_stable|]. intros [] w2 Hw2; by apply wp_ret.
Qed.

(** A failed [AddRecord] has synced nothing; a successful one has synced the
    log if it was asked to. *)
Lemma Wal_AddRecord_stable wal f data sync w : file_ wal = Some f →
  wp (Wal_AddRecord wal data sync) (λ '(s, _) w',
    if ok s && sync then w_stable w' = <[f_ino f := icontent (w_disk w') (f_ino f)]> (w_stable w)
    else w_stable w' = w_stable w) w.
Proof.
  intros Hf. unfold Wal_AddRecord. rewrite Hf. cbv zeta. apply wp_bind. eapply wp_mono; [apply fwrite_stable|].
  intros [n f1] w1 [<- <-]. destruct (negb _); [by apply wp_ret|]. destruct sync.
  - eapply wp_mono; [by apply (Wal_Sync_stable _ f1)|]. intros [s wal'] w2. by rewrite andb_true_r.
  - apply wp_bind. eapply wp_mono; [apply fflush_stable|].
    intros [[] f2] w2 [_ <-]; cbn [negb]; apply wp_ret; by rewrite ?andb_false_r.
Qed.

(** The log and nothing else: [add_record] as seen by the rest of the object. *)
Lemma add_record_stable db data sync w : wp (add_record data sync) (λ s '(db', w'),
    match wal_ db with
    | Some wal =>
        match file_ wal with
        | Some f =>
            if ok s && sync then w_stable w' = <[f_ino f := icontent (w_disk w') (f_ino f)]> (w_stable w)
            else w_stable w' = w_stable w
        | None => ok s = false ∧ w' = w
        end
    | None => ok s = false ∧ w' = w
    end) (db, w).
Proof.
  unfold add_record. step_this. destruct (wal_ db) as [wal|]; [|by apply wp_ret].
  apply wp_bind, wp_lift. destruct (file_ wal) as [f|] eqn:Hf.
  - eapply wp_mono; [by apply (Wal_AddRecord_stable _ f)|]. intros [s wal'] w' H. step_update. by apply wp_ret.
  - unfold Wal_AddRecord. rewrite Hf. apply wp_ret. step_update. by apply wp_ret.
Qed.

(** Writes one after the other, up to the first that is not acknowledged or
    would flush: how many were acknowledged. *)
Fixpoint write_all (bs : list (WriteOptions * list op)) : M nat :=
  match bs with
  | [] => mret 0%nat
  | (opts, ops) :: bs =>
      db ← this id;
      if negb (quiet db ops) then mret 0%nat else
      r ← Write opts (batch_of ops);
      if acked r then n ← write_all bs; mret (S n) else mret 0%nat
  end.
End writes.

(** How many of the writes [bs] are synced, by themselves or by a later one: all
    up to the last with [sync].  [len] have been made before, [j] of them synced. *)
Fixpoint synced_from (o : Options) (j len : nat) (bs : list (WriteOptions * list op)) : nat :=
  match bs with
  | [] => j
  | (opts, _) :: bs => synced_from o (if syncs o opts then S len else j) (S len) bs
  end.
Definition synced_upto (o : Options) (bs : list (WriteOptions * list op)) : nat := synced_from o 0 0 bs.

(** ** Lemmas: what is left of the log *)

Definition stable_of (w : World) (p : bytes) : bytes :=
  default [] (stable_content w <$> d_files (w_disk w) !! p).

(** The first [j] of the records [L] are stable in the log file [p], which has
    no other records and perhaps not all of these. *)
Record remains (p : bytes) (j : nat) (L : list bytes) (w : World) : Prop := {
  re_low : log_of (take j L) `prefix_of` stable_of w p;
  re_stable : stable_of w p `prefix_of` file_content (w_disk w) p;
  re_high : file_content (w_disk w) p `prefix_of` log_of L;
}.

Lemma log_of_app a b : log_of (a ++ b) = log_of a ++ log_of b.
Proof. unfold log_of. by rewrite fmap_app, concat_app. Qed.

Lemma remains_power_loss p j L w d : remains p j L w → power_loss w d →
  Forall (λ r, zlen r < 2 ^ 32) L → (j ≤ length L)%nat →
  ∃ k, (j ≤ k ≤ length L)%nat ∧ records (file_content d p) = take k L.
Proof.
  intros [H1 H2 H3] Hpl HL Hj.
  assert (log_of (take j L) `prefix_of` file_content d p ∧ file_content d p `prefix_of` log_of L) as [Hlow Hhigh].
  { unfold stable_of, file_content in *. rewrite (pl_files _ _ Hpl).
    destruct (d_files (w_disk w) !! p) as [i|]; [|done]. cbn in *.
    destruct (pl_content _ _ Hpl i) as [->|[Hx Hs]].
    - split; [done|by etrans].
    - split; [etrans; [done|by apply Hs]|by etrans]. }
  rewrite <- (take_drop j L) in HL, Hhigh.
  destruct (records_between _ _ _ HL Hlow Hhigh) as (k & Hk & E). exists (j + k)%nat.
  rewrite length_drop in Hk. split; [lia|]. rewrite E. apply take_take_drop.
Qed.

Section remains.
Context {O : Oracle}.
Implicit Types (db : DB) (w : World).

Lemma remains_mono p j j' L L' w : remains p j L w → (j' ≤ j ≤ length L)%nat → L `prefix_of` L' →
  remains p j' L' w.
Proof.
  intros [H1 H2 H3] Hj [x ->]. split; [|done|].
  - rewrite take_app_le by lia. etrans; [|exact H1].
    rewrite <- (take_drop j' (take j L)), take_take, Nat.min_l, log_of_app by lia. by apply prefix_app_r.
  - rewrite log_of_app. by apply prefix_app_r.
Qed.

(** A new stable content of the log, or none. *)
Lemma settled_but_log p i w w' : disk_wf (w_disk w) → only_paths {[p]} (w_disk w) (w_disk w') →
  d_files (w_disk w') = d_files (w_disk w) → d_files (w_disk w) !! p = Some i →
  synced_or_not i w w' → settled_but {[p]} w → settled_but {[p]} w'.
Proof.
  intros Hwf Hop Hf Hi Hst Hs q k Hq Hk. rewrite Hf in Hk. pose proof (Hs q k Hq Hk) as H.
  unfold settled, stable_content, icontent in *.
  destruct (only_paths_file {[p]} (w_disk w) (w_disk w') q k) as [_ ->]; [done..|].
  destruct Hst as [->| ->]; [done|]. rewrite lookup_insert_ne; [done|]. intros ->.
  apply Hq, elem_of_singleton. by eapply wf_inj.
Qed.

(** One record: the log before it and after it. *)
Lemma add_record_remains db tabs rs j data b w : let p := canon (wal_path (db_path_ db)) in
  db_ok db tabs (w_disk w) → zlen data < 2 ^ 32 → wal_clean db (w_disk w) rs →
  remains p j rs w → (j ≤ length rs)%nat → settled_but {[p]} w →
  wp (add_record data b) (λ s '(db', w'), (∃ wal, db' = set_wal wal db) ∧
    only_paths {[p]} (w_disk w) (w_disk w') ∧ same_names (w_disk w) (w_disk w') ∧
    db_ok db' tabs (w_disk w') ∧ settled_but {[p]} w' ∧
    if ok s then wal_clean db' (w_disk w') (rs ++ [data]) ∧
      remains p (if b then S (length rs) else j) (rs ++ [data]) w'
    else remains p j (rs ++ [data]) w') (db, w).
Proof.
  intros p Hok Hdata Hcl Hre Hj Hse. pose proof (ok_disk _ _ _ Hok) as Hwf.
  eapply wp_mono; [apply wp_and; [by apply (add_record_spec db tabs)|apply add_record_stable]|].
  intros s [db' w'] [(wal' & -> & Hop & Hfs & Hok' & Hlog & _) Hst]. specialize (Hlog _ Hcl).
  assert (same_names (w_disk w) (w_disk w')) as Hsn by (split; [done|apply Hop]).
  pose proof Hcl as (_ & Hc & wal & Hw & Hfl). rewrite Hw in Hst.
  destruct (file_ wal) as [f|] eqn:Hf.
  2: { destruct Hst as [Es ->]. rewrite Es. split_and!; [by eexists|done|done|done|done|].
       eapply remains_mono; [done|lia|by eexists]. }
  destruct Hfl as [?|(f' & E & Hp & _ & Hi)]; [done|]. rewrite Hf in E. injection E as <-.
  fold p in Hp. assert (synced_or_not (f_ino f) w w') as Hsy by (unfold synced_or_not; destruct (_ && _); auto).
  assert (settled_but {[p]} w') as Hse' by by eapply settled_but_log.
  split_and!; [by eexists|done|done|done|done|].
  assert (stable_of w' p = default [] (w_stable w' !! f_ino f)) as Est
    by (unfold stable_of; by rewrite Hfs, Hp).
  assert (stable_of w p = default [] (w_stable w !! f_ino f)) as Est0 by (unfold stable_of; by rewrite Hp).
  assert (file_content (w_disk w') p = icontent (w_disk w') (f_ino f)) as Efc
    by (unfold file_content; by rewrite Hfs, Hp).
  assert (file_content (w_disk w) p = log_of rs) as Efc0 by (unfold file_content; by rewrite Hp).
  destruct Hre as [H1 H2 H3]. destruct (ok s) eqn:Es.
  - split; [done|]. destruct Hlog as (_ & Hc' & _). unfold wal_content in Hc'.
    cbn [db_path_ set_wal] in Hc'. fold p in Hc'. destruct b; cbn [andb] in Hst.
    + rewrite Hst, lookup_insert_eq in Est. cbn in Est. rewrite <- Efc, Hc' in Est.
      split; rewrite ?Est, ?Hc'; [|done|done]. rewrite take_ge; [done|]. rewrite length_app. cbn. lia.
    + rewrite Hst, <- Est0 in Est. split; rewrite ?Est, ?Hc'; [by rewrite take_app_le|  |done].
      etrans; [done|]. rewrite Efc0, log_of_app. by apply prefix_app_r.
  - rewrite Hst, <- Est0 in Est. destruct Hlog as [k Hk]. unfold wal_content in Hk. fold p in Hk.
    split; rewrite ?Est; [by rewrite take_app_le| |].
    + etrans; [done|]. rewrite Efc0, Hk. by apply prefix_app_r.
    + rewrite Hk, log_of_app_record. apply prefix_app. apply prefix_take.
Qed.

(** The database between two writes: [rs] are the records of its log, the
    first [j] of them stable, and the manifest and tables are those of [ptabs]. *)
Record at_rest (path : bytes) (v : Version) (ptabs : nat → list tbl) (rs : list bytes) (j : nat)
    db (tabs : nat → list tbl) w : Prop := {
  ar_ok : db_ok db tabs (w_disk w);
  ar_path : db_path_ db = path;
  ar_open : closed_ db = false;
  ar_clean : wal_clean db (w_disk w) rs;
  ar_remains : remains (canon (wal_path path)) j rs w;
  ar_stable : (j ≤ length rs)%nat;
  ar_settled : settled_but {[canon (wal_path path)]} w;
  ar_persisted : persisted (w_disk w) path v ptabs;
}.

Definition recs (bs : list (WriteOptions * list op)) : list bytes :=
  (λ b : WriteOptions * list op, rep_ (batch_of b.2)) <$> bs.

Lemma write_all_remains path v ptabs tabs bs : Forall (λ b, batch_fits b.2) bs → ∀ rs j db w,
  at_rest path v ptabs rs j db tabs w →
  wp (write_all bs) (λ n '(db', w'), (n ≤ length bs)%nat ∧ disk_wf (w_disk w') ∧
    same_names (w_disk w) (w_disk w') ∧ settled_but {[canon (wal_path path)]} w' ∧ persisted (w_disk w') path v ptabs ∧
    ∃ e, (e ≤ 1)%nat ∧ remains (canon (wal_path path)) (synced_from (options_ db) j (length rs) (take n bs))
      (rs ++ recs (take (n + e) bs)) w') (db, w).
Proof.
  induction 1 as [|[opts ops] bs Hb _ IH]; intros rs j db w [Hok Hp Hcl Hc Hre Hj Hse Hpe].
  { apply wp_ret. split_and!; [done|apply Hok|done|done|done|]. exists 0%nat. cbn. rewrite app_nil_r. split; [lia|done]. }
  assert (∃ e, (e ≤ 1)%nat ∧ remains (canon (wal_path path)) j (rs ++ recs (take e ((opts, ops) :: bs))) w) as Hnone
    by (exists 0%nat; cbn; rewrite app_nil_r; split; [lia|done]).
  cbn [write_all]. step_this. cbn [id]. destruct (quiet db ops) eqn:Hq; cbn [negb].
  2: { apply wp_ret. split_and!; [lia|apply Hok|done|done|done|exact Hnone]. }
  destruct (batch_fits_ops _ Hb) as [Hf _]. cbn [snd] in Hb.
  apply wp_bind. apply Write_quiet; [done|done|done|]. subst path.
  eapply wp_mono; [apply (add_record_remains db tabs rs j); [done|apply Hb|done..]|].
  intros s [db1 w1] ([wal ->] & Hop & Hsn1 & Hok1 & Hse1 & Hs). exists wal. split; [done|].
  assert (persisted (w_disk w1) (db_path_ db) v ptabs) as Hpe1
    by (eapply persisted_frame; [apply Hok|done|apply avoids_wal|apply manifest_not_wal|done]).
  destruct (ok s) eqn:Es.
  - destruct Hs as [Hc1 Hre1]. cbn [acked]. apply wp_bind.
    destruct (applied_fields ops (set_wal wal db)) as (Eo & Ep & Ec). cbn [options_ db_path_ closed_ set_wal] in *.
    eapply wp_mono; [apply (IH (rs ++ [rep_ (batch_of ops)])
      (if syncs (options_ db) opts then S (length rs) else j) (applied ops (set_wal wal db)) w1)|].
    + split; [by apply db_ok_applied|done|by rewrite Ec|by apply wal_clean_applied|done| |done|done].
      rewrite length_app. cbn. destruct (syncs _ _); lia.
    + intros n [db2 w2] (Hn & Hwf2 & Hsn2 & Hse2 & Hpe2 & e & He & Hre2). apply wp_ret.
      split_and!; [cbn; lia|done|by etrans|done|done|]. exists e. split; [done|]. cbn [take synced_from plus].
      rewrite Eo, length_app, Nat.add_1_r in Hre2. unfold recs in *. cbn [fmap list_fmap].
      by rewrite <- app_assoc in Hre2.
  - cbn [acked]. rewrite Es. apply wp_ret. split_and!; [lia|apply Hok1|done|done|done|].
    exists 1%nat. split; [done|]. cbn [take synced_from plus]. by destruct bs.
Qed.

Lemma synced_from_shift o a j len bs : synced_from o (a + j) (a + len) bs = (a + synced_from o j len bs)%nat.
Proof.
  revert j len. induction bs as [|[opts ops] bs IH]; intros j len; [done|]. cbn [synced_from].
  rewrite <- IH. f_equal; [by destruct (syncs _ _)|lia].
Qed.
Lemma synced_from_le o j len bs : (j ≤ len)%nat → (synced_from o j len bs ≤ len + length bs)%nat.
Proof.
  revert j len. induction bs as [|[opts ops] bs IH]; intros j len Hj; cbn; [lia|].
  etrans; [apply IH; destruct (syncs _ _); lia|lia].
Qed.

(** What a recovery after the power failure finds. *)
Lemma wal_layer_records c rs ws : records c = rs ++ ws → Forall (λ r, zlen r < 2 ^ 32) rs →
  wal_layer c = fold_left layer_op (concat (decoded_ops <$> ws)) (wal_layer (log_of rs)).
Proof.
  intros E Hrs. unfold wal_layer. rewrite !wal_ops_records, E, fmap_app, concat_app, fold_left_app.
  by rewrite <- (app_nil_r (log_of rs)), records_log_of, app_nil_r by done.
Qed.

Lemma decoded_recs bs : Forall (λ b, batch_fits b.2) bs →
  concat (decoded_ops <$> recs bs) = concat bs.*2 ∧ Forall (λ r, zlen r < 2 ^ 32) (recs bs).
Proof.
  induction 1 as [|[opts ops] bs Hb _ [IH IHs]]; [done|]. cbn [snd] in Hb.
  destruct (batch_fits_ops _ Hb). change (recs ((opts, ops) :: bs)) with (rep_ (batch_of ops) :: recs bs).
  cbn [fmap list_fmap concat snd]. rewrite decoded_ops_of by done. rewrite IH.
  split; [done|]. constructor; [apply Hb|done].
Qed.

Lemma remains_recoverable path v ptabs rs j bs w d m : disk_wf (w_disk w) →
  Forall (λ b, batch_fits b.2) bs → Forall (λ r, zlen r < 2 ^ 32) rs →
  settled_but {[canon (wal_path path)]} w → persisted (w_disk w) path v ptabs →
  live (wal_layer (log_of rs) ∪ tables_layer ptabs) = m →
  remains (canon (wal_path path)) (length rs + j) (rs ++ recs bs) w → (j ≤ length bs)%nat →
  power_loss w d →
  disk_wf d ∧ ∃ k, (j ≤ k ≤ length bs)%nat ∧ recoverable d path (fold_left map_op (concat (take k bs).*2) m).
Proof.
  intros Hwf Hb Hrs Hse Hpe Hm Hre Hj Hpl. destruct (decoded_recs bs Hb) as [_ Hsm].
  split; [by eapply power_loss_wf|].
  assert (length (rs ++ recs bs) = length rs + length bs)%nat as Hlen
    by (rewrite length_app; unfold recs; by rewrite length_fmap).
  destruct (remains_power_loss _ _ _ _ _ Hre Hpl) as (k & Hk & E); [by apply Forall_app|lia|].
  exists (k - length rs)%nat. split; [lia|]. exists v, ptabs. split.
  - eapply persisted_same; [|done]. intros q Hq. eapply power_loss_content; [done|done|]. set_solver.
  - unfold recovered, wal_content.
    assert (take k (rs ++ recs bs) = rs ++ recs (take (k - length rs) bs)) as Et.
    { rewrite take_app, take_ge by lia. unfold recs. by rewrite fmap_take. }
    rewrite Et in E. rewrite (wal_layer_records _ _ _ E Hrs), live_ops_union, Hm.
    by destruct (decoded_recs (take (k - length rs) bs)) as [-> _]; [by apply Forall_take|].
Qed.
End remains.
