(* ===== verification/DBSession.v ===== *)
(** * The contract of a session

    [stored options path W N d m]: the files on [d] under [path] hold the map
    [m], weigh at most [W] and use file numbers up to [N].  [serves]: the same
    of an open database.  Opening leads from the first to the second, every
    operation stays in the second with bounds that grow by what it adds, and
    closing leads back.  Nothing fails here: crashes and I/O errors are in
    [DBSpec] and [DBCorrect]. *)

From S2P Require Import Prelude Slice Status OrderedMap MemTable WriteBatch FileSystem Wal.
From S2P Require Import SSTable SSTableSpec Version DB DBPaths Layers DBInv DBFlush DBReaders.
From S2P Require Import Merge DBCompact DBRead DBWrite DBOpen DBSpec.

Definition clean_log (d : Disk) (path : bytes) : Prop :=
  wal_content d path = log_of (records (wal_content d path)).

Definition stored (path : bytes) (W N : Z) (d : Disk) (m : gmap bytes bytes) : Prop :=
  disk_wf d ∧ clean_log d path ∧ ∃ v tabs, persisted d path v tabs ∧ recovered d path tabs = m ∧
    tables_weight tabs + ops_weight (wal_ops (wal_content d path)) ≤ W ∧ next_file_number v ≤ N.

Record serves (options : Options) (path : bytes) (W N : Z) (db : DB) (d : Disk)
    (m : gmap bytes bytes) : Prop := {
  se_options : options_ db = options;
  se_path : db_path_ db = path;
  se_open : closed_ db = false;
  se_wal : wal_open db;
  se_tables : ∃ tabs, db_ok db tabs d ∧ contents db tabs = m ∧ durable db tabs d ∧ logless db d ∧
    total db tabs ≤ W ∧ next_file_number (version_ db) ≤ N;
}.

(** The session has room for what it is going to add. *)
Definition roomy (W N : Z) : Prop := W ≤ max_weight ∧ N ≤ 2 ^ 62.

(** ** An empty directory, or none *)

Lemma tables_ok_empty d path : tables_ok d path Version_new (λ _, []).
Proof.
  assert (∀ l, Level Version_new l = []) as E.
  { intros l. unfold Level. cbn. do 6 (destruct l as [|l]; [done|]). by destruct l. }
  split; try done.
  - intros l. rewrite E. constructor.
  - intros l fm. rewrite E. set_solver.
  - intros l l' fm fm'. rewrite E. set_solver.
  - rewrite E. constructor.
  - intros l _. constructor.
Qed.

Lemma version_new_fits : version_fits Version_new.
Proof. split; [done|done|]. repeat (constructor; [by split; [|constructor]|]). constructor. Qed.

(** No manifest: an empty database. *)
Lemma persisted_none d path : content d (manifest_path path) = None →
  persisted d path Version_new (λ _, []).
Proof. intros H. by split; [right|apply version_new_fits|apply tables_ok_empty|]. Qed.

Lemma recovered_none d path : wal_content d path = [] → recovered d path (λ _, []) = ∅.
Proof. intros H. unfold recovered. rewrite H. apply live_empty. Qed.

Lemma stored_empty path d : disk_wf d → content d (manifest_path path) = None →
  wal_content d path = [] → stored path 0 1 d ∅.
Proof.
  intros Hwf Hm Hw. unfold stored, clean_log. rewrite Hw. split_and!; [done|done|].
  exists Version_new, (λ _, []). split_and!; [by apply persisted_none|by apply recovered_none|done|done].
Qed.

Section session.
Context {O : Oracle} `{!FaultFree O}.
Implicit Types (db : DB) (w : World).

Lemma open_serves options path W N m w : stored path W N (w_disk w) m → good_path path →
  options_ok options → open_allowed options path (w_disk w) →
  wp (Open options path) (λ '(s, odb) w', ∃ db, s = OK ∧ odb = Some db ∧
    serves options path W N db (w_disk w') m) w.
Proof.
  intros (Hwf & Hcl & v & tabs & Hp & <- & HW & HN) Hg Ho Hal.
  eapply wp_mono; [by apply (Open_spec options path v tabs)|].
  intros [s odb] w' [Hres Hsome]. destruct (Hsome _ Hal) as [db ->]. destruct Hres as [-> []].
  exists db. split_and!; [done|done|]. split; [done..|]. exists tabs.
  pose proof (op_mem _) as Em. unfold replayed_memtable in Em.
  split_and!; [done|by apply op_contents|by apply op_durable| | |by rewrite op_version].
  - intros He. rewrite Em in He. rewrite op_path. destruct op_kept as (_ & _ & ->).
    destruct (wal_ops (wal_content (w_disk w) path)) as [|o ops] eqn:E; [done|].
    by rewrite ops_apply_nonempty in He.
  - unfold total. rewrite Em. pose proof (ops_apply_weight (wal_ops (wal_content (w_disk w) path)) MemTable_new) as H.
    change (weights (mem_entries MemTable_new)) with 0 in H. lia.
Qed.

Lemma write_serves options path W N db w m opts ops : serves options path W N db (w_disk w) m →
  batch_fits ops → compaction_ok options → roomy (W + ops_weight ops) N →
  wp (Write opts (batch_of ops)) (λ r '(db', w'), r = Some OK ∧
    serves options path (W + ops_weight ops) (N + number_stride) db' (w_disk w') (fold_left map_op ops m))
    (db, w).
Proof.
  intros [Eo Ep Hcl Hwal (tabs & Hok & <- & Hd & Hl & HW & HN)] Hb Hc [Hr1 Hr2].
  assert (write_limits db tabs ops) as Hlim by (unfold write_limits, total in *; split; lia).
  eapply wp_mono; [by apply (Write_spec db tabs)|].
  intros r [db' w'] (applied & tabs' & []).
  destruct (wr_fault_free _ Hwal) as (-> & Hres & Hwal'). destruct (wr_modest _ Hwal) as [Ht Hn Hl'].
  rewrite Eo in wr_returns. split; [by destruct Hres; [destruct (wr_returns Hc)|]|].
  split; [congruence|congruence|congruence|done|]. exists tabs'. split_and!; [done|done|auto|auto|lia|lia].
Qed.

Lemma maintain_serves options path W N db w m db' tabs tabs' w' r : serves options path W N db (w_disk w) m →
  db_ok db tabs (w_disk w) → contents db tabs = m → durable db tabs (w_disk w) → logless db (w_disk w) →
  total db tabs ≤ W → next_file_number (version_ db) ≤ N → compaction_ok options →
  maintain_post db tabs (w_disk w) r db' tabs' (w_disk w') →
  r = Some OK ∧ serves options path W (N + number_stride) db' (w_disk w') m.
Proof.
  intros [Eo Ep Hcl Hwal _] Hok <- Hd Hl HW HN Hc ([[] ? ? Hdur _] & Hff & Hret & Hmo).
  destruct (Hff _) as [Hr Hw]. destruct (Hmo _) as [Ht Hn Hl']. rewrite Eo in Hret.
  split; [by destruct Hr; [destruct (Hret Hc)|]|]. split; [congruence|congruence|congruence|auto|].
  exists tabs'. split_and!; [done|done|auto|auto|lia|lia].
Qed.

Lemma flush_serves options path W N db w m : serves options path W N db (w_disk w) m →
  compaction_ok options → roomy W N →
  wp Flush (λ r '(db', w'), r = Some OK ∧
    serves options path W (N + number_stride) db' (w_disk w') m) (db, w).
Proof.
  intros Hs Hc [Hr1 Hr2]. destruct (se_tables _ _ _ _ _ _ _ Hs) as (tabs & Hok & Em & Hd & Hl & HW & HN).
  assert (within_limits db tabs) as Hlim by (unfold within_limits, total in *; split; lia).
  eapply wp_mono; [by apply (Flush_spec db tabs)|]. intros r [db' w'] (tabs' & Hm & _).
  by eapply maintain_serves.
Qed.

Lemma background_serves options path W N db w m : serves options path W N db (w_disk w) m →
  compaction_ok options → roomy W N →
  wp BackgroundRound (λ r '(db', w'), r = Some OK ∧
    serves options path W (N + number_stride) db' (w_disk w') m) (db, w).
Proof.
  intros [Eo Ep Hcl Hwal (tabs & Hok & <- & Hd & Hl & HW & HN)] Hc [Hr1 Hr2].
  assert (within_limits db tabs) as Hlim by (unfold within_limits, total in *; split; lia).
  eapply wp_mono; [by apply (BackgroundRound_spec db tabs)|].
  intros r [db' w'] (tabs' & Hp' & Eo' & Ec' & _ & _ & _ & Hok' & Em' & Hd' & Hff & Hret & _).
  destruct (Hff _) as (Hres & Hw & [Ht Hn Hl']). rewrite Eo in Hret.
  split; [by destruct Hres; [destruct (Hret Hc)|]|]. split; [congruence|congruence|congruence|auto|].
  exists tabs'. split_and!; [done|done|auto|auto|lia|lia].
Qed.

Lemma get_serves options path W N db w m key value : serves options path W N db (w_disk w) m →
  wp (Get key value) (λ r '(db', w'), r = get_result m key value ∧
    serves options path W N db' (w_disk w') m) (db, w).
Proof.
  intros Hs. pose proof Hs as [Eo Ep Hcl Hwal (tabs & Hok & <- & _)].
  eapply wp_mono; [by apply (Get_spec db tabs)|]. intros r [db' w'] (-> & Ed & Hp & _).
  split; [by apply Hp|]. by rewrite Ed.
Qed.

Lemma iterate_serves options path W N db w m : serves options path W N db (w_disk w) m →
  wp NewIterator (λ it '(db', w'), omap_wf (scan it) ∧ omap_to_gmap (scan it) = m ∧
    serves options path W N db' (w_disk w') m) (db, w).
Proof.
  intros Hs. pose proof Hs as [Eo Ep Hcl Hwal (tabs & Hok & <- & _)].
  eapply wp_mono; [by apply (NewIterator_spec db tabs)|].
  intros it [db' w'] (-> & Ed & _ & Hwf & Hm). split_and!; [done|by apply Hm|by rewrite Ed].
Qed.

Lemma serves_mono options path W W' N N' db d m : W ≤ W' → N ≤ N' →
  serves options path W N db d m → serves options path W' N' db d m.
Proof.
  intros ? ? [? ? ? ? (tabs & ? & ? & ? & ? & ? & ?)]. split; [done..|]. exists tabs.
  split_and!; [done..|lia|lia].
Qed.

Lemma close_stores options path W N db w m : serves options path W N db (w_disk w) m → roomy W N →
  wp Close (λ s '(db', w'), s = OK ∧ closed_ db' = true ∧ stored path W (N + 1) (w_disk w') m) (db, w).
Proof.
  intros [Eo Ep Hcl Hwal (tabs & Hok & <- & Hd & Hl & HW & HN)] [Hr1 Hr2].
  assert (within_limits db tabs) as Hlim by (unfold within_limits, total in *; split; lia).
  eapply wp_mono; [by apply (Close_spec db tabs)|]. intros s [db' w'] (tabs' & []).
  specialize (cl_fault_free _) as ->. specialize (cl_durable Hd). destruct (cl_modest _) as (Ht & Hn & Hlog).
  specialize (cl_saved eq_refl). rewrite Ep in *. split_and!; [done|done|].
  destruct cl_durable as (v & ptabs & rs & _ & _ & (Hrs & Hc & _) & _ & E2). rewrite cl_path in Hc.
  split_and!; [apply cl_ok|unfold clean_log; by rewrite Hc, records_log|].
  exists (version_ db'), tabs'. split_and!; [done| | |lia].
  - unfold recovered. rewrite Hc. congruence.
  - rewrite Hlog by done. change (ops_weight []) with 0. lia.
Qed.
End session.
