(* ===== verification/Unsynced.v ===== *)
(** * Files that are never synced

    The program syncs the log and nothing else.  [unsynced n F w]: of the files
    with inode numbers from [n] on not a byte is on stable storage, and the names
    in [F], as far as they exist, denote such files.  A flush writes its table,
    the manifest and the new log to files made after it began, so that after it
    the manifest and the log are in [F]: a power failure that keeps only what was
    synced empties both.  Here also: what [Open] makes of an empty manifest. *)

From S2P Require Import Prelude Slice Status OrderedMap MemTable WriteBatch FileSystem Wal.
From S2P Require Import SSTable SSTableSpec Version DB DBPaths Layers DBInv DBFlush DBReaders.
From S2P Require Import Merge DBCompact DBRead DBWrite DBOpen DBSpec QuietWrite PowerLoss DBSession.

Record unsynced (n : nat) (F : gset bytes) (w : World) : Prop := {
  un_next : (n ≤ d_next (w_disk w))%nat;
  un_stable j : (n ≤ j)%nat → stable_content w j = [];
  un_fresh p j : p ∈ F → d_files (w_disk w) !! p = Some j → (n ≤ j)%nat;
}.

Lemma unsynced_mono n F G w : G ⊆ F → unsynced n F w → unsynced n G w.
Proof. intros H [? ? Hf]. split; [done..|]. intros p j Hp. apply Hf. set_solver. Qed.

(** A name that does not exist may be added. *)
Lemma unsynced_add n F w p : d_files (w_disk w) !! p = None → unsynced n F w → unsynced n ({[p]} ∪ F) w.
Proof.
  intros Hp [? ? Hf]. split; [done..|]. intros q j [->%elem_of_singleton|Hq]%elem_of_union E; [congruence|].
  by eapply Hf.
Qed.

Section preserves.
Context {O : Oracle} (n : nat).

(** A computation that syncs nothing from [n] on and moves no name of [F] to an old file. *)
Definition preserves {A} (m : ST World A) : Prop :=
  ∀ F w, unsynced n F w → wp m (λ _ w', unsynced n F w') w.

Lemma preserves_ret {A} (a : A) : preserves (mret a).
Proof. by intros F w H. Qed.
Lemma preserves_bind {A B} (m : ST World A) (f : A → ST World B) :
  preserves m → (∀ a, preserves (f a)) → preserves (m ≫= f).
Proof. intros Hm Hf F w H. apply wp_bind. eapply wp_mono; [by apply Hm|]. intros a w' H'. by apply Hf. Qed.

(** The calls. *)
Lemma preserves_tick d F w : unsynced n F w → d_next d = d_next (w_disk w) → d_files d = d_files (w_disk w) →
  unsynced n F (mkWorld d (S (w_clock w)) (w_stable w)).
Proof. intros [? ? Hf] En Ef. split; cbn; rewrite ?En, ?Ef; done. Qed.

Lemma append_names i data d :
  d_next (append_to i data d) = d_next d ∧ d_files (append_to i data d) = d_files d.
Proof. by destruct data. Qed.

Lemma preserves_create p F w : unsynced n F w →
  unsynced n F (mkWorld (create_file p (w_disk w)) (S (w_clock w)) (w_stable w)).
Proof.
  intros [Hn ? Hf]. split; [exact (le_S _ _ Hn)|done|]. unfold create_file. cbn. intros q j Hq.
  rewrite lookup_insert_Some. intros [[_ <-]|[_ E]]; [done|by eapply Hf].
Qed.

Lemma preserves_fopen_wb p : preserves (fopen_wb p).
Proof.
  intros F w H. run_call. destruct (o_ok _); cbn; [|by apply preserves_tick].
  destruct (resolve _ _); cbn; [by apply preserves_tick|by apply preserves_create].
Qed.
Lemma preserves_fopen_ab p : preserves (fopen_ab p).
Proof.
  intros F w H. run_call. destruct (o_ok _); cbn; [|by apply preserves_tick].
  destruct (resolve _ _); cbn; [by apply preserves_tick|by apply preserves_create].
Qed.
Lemma preserves_fopen_rb p : preserves (fopen_rb p).
Proof. intros F w H. run_call. destruct (o_ok _); [destruct (resolve _ _)|]; by apply preserves_tick. Qed.
Lemma preserves_fwrite data f : preserves (fwrite data f).
Proof. intros F w H. run_call. apply preserves_tick; [done|apply append_names..]. Qed.
Lemma preserves_fflush f : preserves (fflush f).
Proof. intros F w H. run_call. apply preserves_tick; [done|apply append_names..]. Qed.
Lemma preserves_fclose f : preserves (fclose f).
Proof. intros F w H. run_call. apply preserves_tick; [done|apply append_names..]. Qed.
Lemma preserves_fseek_set off f : preserves (fseek_set off f).
Proof. intros F w H. run_call. destruct (_ && _); by apply preserves_tick. Qed.
Lemma preserves_fseek_end f : preserves (fseek_end f).
Proof. intros F w H. run_call. destruct (o_ok _); by apply preserves_tick. Qed.
Lemma preserves_ftell f : preserves (ftell f).
Proof. intros F w H. by apply preserves_tick. Qed.
Lemma preserves_fread k f : preserves (fread k f).
Proof. intros F w H. by apply preserves_tick. Qed.
Lemma preserves_fs_file_size p : preserves (fs_file_size p).
Proof. intros F w H. run_call. destruct (content _ _); by apply preserves_tick. Qed.
Lemma preserves_remove p : preserves (remove p).
Proof.
  intros F w H. run_call. destruct (resolve _ _); [|by apply preserves_tick].
  destruct (o_ok _); [|by apply preserves_tick]. destruct H as [? ? Hf]. split; [done..|].
  unfold unlink. cbn. intros q j Hq [_ E]%lookup_delete_Some. by eapply Hf.
Qed.
End preserves.

Create HintDb unsynced.
#[export] Hint Resolve preserves_ret preserves_fopen_wb preserves_fopen_ab preserves_fopen_rb preserves_fwrite preserves_fflush
  preserves_fclose preserves_fseek_set preserves_fseek_end preserves_ftell preserves_fread preserves_fs_file_size
  preserves_remove : unsynced.

(** Blocks of such calls and tests. *)
Ltac keep := repeat first
  [ progress cbv zeta | solve [eauto with unsynced] | apply preserves_bind; [|intros] | case_match ].

Section steps.
Context {O : Oracle} (n : nat).

Lemma preserves_write_section path what data f k : (∀ f, preserves n (k f)) → preserves n (write_section path what data f k).
Proof. intros Hk. unfold write_section. keep; apply Hk. Qed.

Lemma preserves_write_table path es bits : preserves n (SSTableWriter_Write path es bits).
Proof.
  unfold SSTableWriter_Write. destruct es; [auto with unsynced|]. apply preserves_bind; [auto with unsynced|].
  intros [f|e]; [|auto with unsynced]. repeat (apply preserves_write_section; intros). keep.
Qed.
Lemma preserves_open_table path : preserves n (SSTableReader_Open path).
Proof. unfold SSTableReader_Open, open_sections, read_block. keep. Qed.
Lemma preserves_write_and_close out f : preserves n (write_and_close out f).
Proof. unfold write_and_close. keep. Qed.
Lemma preserves_Wal_Open wal path : preserves n (Wal_Open wal path).
Proof. unfold Wal_Open. keep. Qed.

Lemma unsynced_new_table es F db w : unsynced n F w →
  wp (new_table es) (λ r '(db', w'), unsynced n F w' ∧ wal_ db' = wal_ db ∧ db_path_ db' = db_path_ db ∧
    match r with inl s => ok s = false | inr _ => True end) (db, w).
Proof.
  intros H. unfold new_table. step_this. cbv zeta. step_update. step_this. step_this.
  apply wp_bind, wp_lift. eapply wp_mono; [by apply preserves_write_table|]. intros s w1 H1.
  destruct (ok s) eqn:Es; cbn [negb]; [|by apply wp_ret].
  apply wp_bind, wp_lift. eapply wp_mono; [apply (preserves_fs_file_size n); exact H1|]. intros sz w2 H2. cbv zeta.
  apply wp_bind, wp_lift. eapply wp_mono; [apply preserves_open_table; exact H2|]. intros [s3 rd] w3 H3.
  destruct (ok s3) eqn:Es3; cbn [negb]; by apply wp_ret.
Qed.

(** [Save] puts a file it made in the place of the manifest. *)
Lemma unsynced_Save v path F w : canon (tmp_of path) ∈ F → unsynced n F w →
  wp (Version_Save v path) (λ s w', unsynced n F w' ∧
    (ok s = true → unsynced n ({[canon path]} ∪ F) w' ∧ is_Some (d_files (w_disk w') !! canon path))) w.
Proof.
  intros Ht H. unfold Version_Save. cbv zeta. apply wp_bind.
  eapply wp_mono; [by apply (preserves_fopen_wb n)|]. intros [f|e] w1 H1; [|by apply wp_ret].
  apply wp_bind. eapply wp_mono; [apply preserves_write_and_close; exact H1|]. intros good w2 H2.
  destruct (negb good).
  { apply wp_bind. eapply wp_mono; [apply (preserves_remove n); exact H2|]. intros b w3 H3. by apply wp_ret. }
  apply wp_bind. run_call. destruct (resolve (w_disk w2) _) as [i|] eqn:Ei; cbn.
  2: { split; [by apply preserves_tick|done]. }
  destruct (o_ok _); cbn; [|split; [by apply preserves_tick|done]].
  assert (unsynced n ({[canon path]} ∪ F)
    (mkWorld (relink (tmp_of path) path i (w_disk w2)) (S (w_clock w2)) (w_stable w2))) as H3.
  { destruct H2 as [Hn Hs Hf]. split; [done..|]. unfold relink. cbn. intros q j Hq.
    rewrite lookup_insert_Some. intros [[_ <-]|[Hne [_ E]%lookup_delete_Some]]; [by eapply Hf|].
    apply (Hf q); [set_solver|done]. }
  split; [eapply unsynced_mono; [|exact H3]; set_solver|]. intros _. split; [done|].
  unfold relink. cbn. by rewrite lookup_insert_eq.
Qed.

Lemma unsynced_save_version F db w : canon (tmp_of (manifest_path (db_path_ db))) ∈ F → unsynced n F w →
  wp save_version (λ s '(db', w'), db' = db ∧ unsynced n F w' ∧
    (ok s = true → unsynced n ({[canon (manifest_path (db_path_ db))]} ∪ F) w' ∧
       is_Some (d_files (w_disk w') !! canon (manifest_path (db_path_ db))))) (db, w).
Proof.
  intros Ht H. unfold save_version. step_this. step_this. rewrite ManifestPath_eq. apply wp_lift.
  eapply wp_mono; [by apply (unsynced_Save _ _ F)|]. by intros s w'.
Qed.

(** [Close] of a log syncs that log: an old one, or one that is empty. *)
Lemma unsynced_sync f F w : unsynced n F w →
  (f_ino f < n)%nat ∨ icontent (w_disk w) (f_ino f) = [] →
  wp (fsync f) (λ _ w', unsynced n F w') w.
Proof.
  intros H Hi. run_call. destruct (o_ok _); cbn; [|by apply preserves_tick].
  destruct H as [? Hs ?]. split; [done| |done]. intros j Hj. unfold stable_content. cbn.
  destruct (decide (f_ino f = j)) as [<-|Hne].
  - rewrite lookup_insert_eq. cbn. destruct Hi; [lia|done].
  - rewrite lookup_insert_ne by done. by apply Hs.
Qed.

Lemma fflush_old f w : (f_ino f < n)%nat ∨ f_buf f = [] ∧ icontent (w_disk w) (f_ino f) = [] →
  wp (fflush f) (λ '(_, f') w', (f_ino f' < n)%nat ∨ icontent (w_disk w') (f_ino f') = []) w.
Proof.
  intros [H|[Hb Hc]]; run_call; cbn -[take drop]; [by left|]. rewrite Hb, take_nil. by right.
Qed.

Lemma unsynced_Wal_Close wal F w : unsynced n F w →
  (∀ f, file_ wal = Some f →
     (f_ino f < n)%nat ∨ f_buf f = [] ∧ icontent (w_disk w) (f_ino f) = []) →
  wp (Wal_Close wal) (λ _ w', unsynced n F w') w.
Proof.
  intros H Hf. unfold Wal_Close. destruct (file_ wal) as [f|] eqn:Ef; [|by apply wp_ret].
  apply wp_bind. unfold Wal_Sync. rewrite Ef. apply wp_bind.
  eapply wp_mono; [apply wp_and; [by apply (preserves_fflush n)|by apply fflush_old, Hf]|].
  intros [b f1] w1 [H1 Hf1].
  assert (∀ w2 s g p, unsynced n F w2 → wp (b ← fclose g;
    mret (if negb b && ok s then IOError (p ++ str ": fclose failed: " ++ strerror EIO) else s, mkWal None p))
    (λ _ w', unsynced n F w') w2) as Hend.
  { intros w2 s g p H2. apply wp_bind. eapply wp_mono; [by apply (preserves_fclose n)|]. intros ? ? ?. by apply wp_ret. }
  destruct b; cbn [negb]; [|by apply wp_ret, Hend]. apply wp_bind.
  eapply wp_mono; [by apply unsynced_sync|]. intros [] w2 H2; by apply wp_ret, Hend.
Qed.

Lemma unsynced_close_wal F db w : unsynced n F w →
  (∀ wal f, wal_ db = Some wal → file_ wal = Some f →
     (f_ino f < n)%nat ∨ f_buf f = [] ∧ icontent (w_disk w) (f_ino f) = []) →
  wp close_wal (λ _ '(db', w'), unsynced n F w' ∧ db_path_ db' = db_path_ db) (db, w).
Proof.
  intros H Hf. unfold close_wal. step_this. destruct (wal_ db) as [wal|]; [|by apply wp_ret].
  apply wp_bind, wp_lift. eapply wp_mono; [apply unsynced_Wal_Close; [done|intros f; by apply Hf]|].
  intros [s wal'] w' H'. step_update. by apply wp_ret.
Qed.

Lemma unsynced_open_wal F db w : unsynced n F w →
  wp open_wal (λ _ '(db', w'), unsynced n F w') (db, w).
Proof.
  intros H. unfold open_wal. step_this. apply wp_bind, wp_lift.
  eapply wp_mono; [by apply preserves_Wal_Open|]. intros [s wal'] w' H'. step_update. by apply wp_ret.
Qed.

Lemma remove_gone p w : FaultFree O → wp (remove p) (λ _ w', d_files (w_disk w') !! canon p = None) w.
Proof.
  intros Hff. run_call. unfold resolve. destruct (d_files (w_disk w) !! canon p) eqn:E; [|done].
  rewrite (Hff (w_clock w)). unfold unlink. cbn. apply lookup_delete_eq.
Qed.
End steps.

(** ** Flushing and closing *)

Definition log_and_manifest (path : bytes) : gset bytes :=
  {[canon (wal_path path)]} ∪ ({[canon (manifest_path path)]} ∪ {[canon (tmp_of (manifest_path path))]}).

(** The log was made before, or it is empty. *)
Definition old_log (n : nat) (db : DB) (w : World) : Prop := ∀ wal f, wal_ db = Some wal → file_ wal = Some f →
  (f_ino f < n)%nat ∨ f_buf f = [] ∧ icontent (w_disk w) (f_ino f) = [].

Section flushing.
Context {O : Oracle} `{!FaultFree O}.
Implicit Types (db : DB) (w : World).

Lemma unsynced_finish_flush n fm rd db w :
  unsynced n {[canon (tmp_of (manifest_path (db_path_ db)))]} w →
  (∀ wal f, wal_ db = Some wal → file_ wal = Some f → (f_ino f < n)%nat) →
  wp (finish_flush fm rd) (λ s '(_, w'), ok s = true → unsynced n (log_and_manifest (db_path_ db)) w') (db, w).
Proof.
  intros H Hold. unfold finish_flush. step_update. set (db2 := set_level _ _ _ db).
  apply wp_check. eapply wp_mono; [eapply (unsynced_save_version n _ db2); [|exact H]; by apply elem_of_singleton|].
  intros s3 [db3 w3] (-> & _ & H3). destruct (ok s3); [|done]. destruct (H3 eq_refl) as [H4 _].
  step_update. apply wp_check. eapply wp_mono; [apply (unsynced_close_wal n _ _ _ H4)|].
  { intros wal f Hw Hf. left. by eapply Hold. }
  intros s5 [db5 w5] [H5 Hp5]. destruct (ok s5); [|done]. step_this. rewrite WalPath_eq, Hp5.
  apply wp_bind, wp_lift. eapply wp_mono; [apply wp_and; [by apply (preserves_remove n)|by apply remove_gone]|].
  intros b w6 [H6 Hgone]. eapply wp_mono; [eapply unsynced_open_wal, unsynced_add; [exact Hgone|exact H6]|].
  by intros s7 [db7 w7] H7 _.
Qed.

(** The flush of a memtable that is not empty. *)
Lemma unsynced_flush n db w : MemTable_empty (memtable_ db) = false →
  unsynced n {[canon (tmp_of (manifest_path (db_path_ db)))]} w →
  (∀ wal f, wal_ db = Some wal → file_ wal = Some f → (f_ino f < n)%nat) →
  wp FlushMemTableLocked (λ s '(_, w'), ok s = true → unsynced n (log_and_manifest (db_path_ db)) w') (db, w).
Proof.
  intros Hmt H Hold. unfold FlushMemTableLocked. step_this. rewrite Hmt. cbv zeta. apply wp_bind.
  eapply wp_mono; [eapply unsynced_new_table; exact H|]. intros r [db1 w1] (H1 & Hw & Hp & Hr).
  destruct r as [s|[fm rd]]; [apply wp_ret; congruence|].
  rewrite <- Hp in *. apply unsynced_finish_flush; [done|]. by rewrite Hw.
Qed.

(** Before the first flush no file after the last has been synced. *)
Lemma unsynced_start w p : d_files (w_disk w) !! p = None →
  (∀ j, (d_next (w_disk w) ≤ j)%nat → stable_content w j = []) → unsynced (d_next (w_disk w)) {[p]} w.
Proof. intros Hp Hs. split; [done|done|]. intros q j ->%elem_of_singleton E. congruence. Qed.

(** A clean log that was emptied is an old log in the sense of [old_log]. *)
Lemma wal_clean_empty n db d rs w : w_disk w = d → wal_clean db d rs → wal_content d (db_path_ db) = [] →
  old_log n db w.
Proof.
  intros <- (_ & Hc & wal0 & Hw & Hfl) He wal f E Hf. rewrite Hw in E. injection E as <-.
  destruct Hfl as [?|(f' & Hf' & _ & Hb & Hi)]; [congruence|]. rewrite Hf in Hf'. injection Hf' as <-.
  right. split; [done|]. congruence.
Qed.

(** What a power failure leaves of the log and the manifest. *)
Definition wiped (path : bytes) (d : Disk) : Prop :=
  disk_wf d ∧ content d (manifest_path path) = Some [] ∧ wal_content d path = [].

Lemma unsynced_wiped n path w : disk_wf (w_disk w) → unsynced n (log_and_manifest path) w →
  is_Some (d_files (w_disk w) !! canon (manifest_path path)) → wiped path (only_stable w).
Proof.
  intros Hwf [_ Hs Hf] [i Hi].
  assert (∀ p j, p ∈ log_and_manifest path → d_files (w_disk w) !! p = Some j →
    icontent (only_stable w) j = []) as He.
  { intros p j Hp E. unfold icontent. cbn. rewrite map_lookup_imap.
    destruct (d_inodes (w_disk w) !! j); [|done]. cbn. by eapply Hs, Hf. }
  unfold log_and_manifest in He. split_and!.
  - by eapply power_loss_wf, Hwf; apply only_stable_power_loss.
  - unfold content, resolve. cbn. rewrite Hi. cbn. f_equal. apply (He (canon (manifest_path path))); [set_solver|done].
  - unfold wal_content, file_content. cbn. destruct (d_files (w_disk w) !! canon (wal_path path)) as [j|] eqn:E; [|done].
    cbn. apply (He (canon (wal_path path))); [set_solver|done].
Qed.

Lemma Close_finish_unsynced db tabs w : db_ok db tabs (w_disk w) → durable db tabs (w_disk w) → within_limits db tabs →
  MemTable_empty (memtable_ db) = false →
  d_files (w_disk w) !! canon (tmp_of (manifest_path (db_path_ db))) = None →
  (∀ j, (d_next (w_disk w) ≤ j)%nat → stable_content w j = []) →
  wp Close_finish (λ s '(_, w'), ok s = true →
    unsynced (d_next (w_disk w)) (log_and_manifest (db_path_ db)) w' ∧
    is_Some (d_files (w_disk w') !! canon (manifest_path (db_path_ db)))) (db, w).
Proof.
  intros Hok Hdur Hlim Hmt Htmp Hst. unfold Close_finish. step_update. set (db0 := set_bg _ _ _ _ db).
  assert (db_ok db0 tabs (w_disk w)) as Hok0 by by apply db_ok_bg.
  assert (durable db0 tabs (w_disk w)) as Hdur0 by by apply durable_bg.
  apply wp_bind. eapply wp_mono; [apply wp_and; [by apply (FlushMemTableLocked_spec db0 tabs)|]|].
  { apply (unsynced_flush (d_next (w_disk w)) db0); [done|by apply unsynced_start|].
    intros wal f Hw Hf. destruct (ok_wal _ _ _ Hok) as (wal' & Hw' & Hc). cbn [wal_ set_bg db0] in Hw. rewrite Hw in Hw'.
    injection Hw' as <-. destruct Hc as [?|[c (f' & Hf' & Hp & _)]]; [congruence|].
    rewrite Hf in Hf'. injection Hf' as <-. by eapply wf_file; [apply Hok|]. }
  intros s1 [db1 w1] [(tabs1 & Hm1 & _ & _ & _ & Hff1) Hu]. destruct (Hff1 _) as (-> & _ & Hc1).
  specialize (Hu eq_refl). specialize (Hc1 Hmt). destruct (ma_config _ _ _ _ _ _ Hm1) as [Hp1 _ _ _ _ _ _].
  cbn [db_path_ set_bg db0] in *. rewrite <- Hp1 in *.
  destruct (ma_durable _ _ _ _ _ _ Hm1 Hdur0) as (v & ptabs & rs & _ & _ & Hcl & _).
  apply wp_bind. eapply wp_mono; [apply (unsynced_close_wal _ _ _ _ Hu); by eapply wal_clean_empty|].
  intros s2 [db2 w2] [H2 Hp2]. rewrite <- Hp2 in *.
  apply wp_bind. eapply wp_mono.
  { eapply (unsynced_save_version _ _ db2); [|exact H2]. unfold log_and_manifest. set_solver. }
  intros s3 [db3 w3] (-> & H3 & Hs3). step_update. apply wp_ret. intros Es.
  assert (ok s3 = true) as Es3 by (rewrite ok_OK in Es; destruct (ok s2) eqn:E2; congruence).
  split; [done|]. by apply Hs3.
Qed.
End flushing.

(** Everything is wiped after a [Close] that flushes. *)
Lemma Close_wiped {O : Oracle} `{!FaultFree O} db tabs w : db_ok db tabs (w_disk w) → durable db tabs (w_disk w) →
  within_limits db tabs → closed_ db = false → MemTable_empty (memtable_ db) = false →
  d_files (w_disk w) !! canon (tmp_of (manifest_path (db_path_ db))) = None →
  (∀ j, (d_next (w_disk w) ≤ j)%nat → stable_content w j = []) →
  wp Close (λ s '(_, w'), s = OK ∧ wiped (db_path_ db) (only_stable w')) (db, w).
Proof.
  intros Hok Hdur Hlim Hcl Hmt Htmp Hst. unfold Close. step_this. cbn [id]. rewrite Hcl. unfold Close_begin. step_update.
  set (db0 := set_bg _ _ _ _ db). assert (db_ok db0 tabs (w_disk w)) as Hok0 by by apply db_ok_bg.
  eapply wp_mono; [apply wp_and; [by apply (Close_finish_spec db0 tabs)|]|].
  { apply (Close_finish_unsynced db0 tabs); try done; by apply durable_bg. }
  intros s [db' w'] [(tabs' & []) Hu]. specialize (cl_fault_free _) as ->.
  destruct (Hu eq_refl) as [H Hm]. split; [done|]. by eapply unsynced_wiped; [apply cl_ok|..].
Qed.

(** ** What is settled *)

(** With everything on stable storage a power failure changes no contents. *)
Lemma settled_recovers w d path v tabs : settled_but ∅ w → power_loss w d →
  persisted (w_disk w) path v tabs → recoverable d path (recovered (w_disk w) path tabs).
Proof.
  intros Hse Hpl Hp. assert (∀ q, content d q = content (w_disk w) q) as Hc
    by (intros q; by eapply power_loss_content).
  exists v, tabs. split; [by eapply persisted_same; [intros q _; apply Hc|]|]. unfold recovered.
  change (wal_content d path) with (default [] (content d (wal_path path))). by rewrite Hc.
Qed.

(** Both conditions by computation, on a concrete world. *)
Lemma settled_all w :
  bool_decide (map_Forall (λ _ i, stable_content w i = icontent (w_disk w) i) (d_files (w_disk w))) = true →
  settled_but ∅ w.
Proof. intros H%bool_decide_eq_true q i _ E. by apply (H q i). Qed.
Lemma stable_below w : bool_decide (map_Forall (λ i _, (i < d_next (w_disk w))%nat) (w_stable w)) = true →
  ∀ i, (d_next (w_disk w) ≤ i)%nat → stable_content w i = [].
Proof.
  intros H%bool_decide_eq_true i Hi. unfold stable_content. destruct (w_stable w !! i) eqn:E; [|done].
  apply H in E. lia.
Qed.

(** ** An empty manifest *)

(** A manifest of less than four bytes is refused, whatever the calls do. *)
Lemma Version_Load_short {O : Oracle} v path c w : content (w_disk w) path = Some c → zlen c < 4 →
  wp (Version_Load v path) (λ '(s, v') w', w_disk w' = w_disk w ∧ v' = v ∧
    ok s = false ∧ IsNotFound s = false) w.
Proof.
  intros Hc Hlen. unfold Version_Load. unfold content in Hc.
  destruct (resolve (w_disk w) path) as [i|] eqn:Hr; [|done]. injection Hc as Hi.
  apply wp_bind. eapply wp_mono; [apply fopen_rb_spec|].
  intros [f|[]] w1 [Ed1 H1]; [|congruence|by apply wp_ret].
  destruct H1 as (Hr1 & Hp1 & Hb1). rewrite Hr in Hr1. injection Hr1 as ->.
  apply wp_bind. eapply wp_mono; [apply fseek_end_spec|].
  intros [b2 f2] w2 (Ed2 & _ & Eb2 & Hp2 & _).
  apply wp_bind. eapply wp_mono; [apply ftell_spec|]. intros sz w3 [Ed3 ->].
  apply wp_bind. eapply wp_mono; [apply fseek_set_spec|]. intros [b4 f4] w4 (Ed4 & _ & Eb4 & _).
  apply wp_bind. eapply wp_mono; [apply fread_spec|]. intros [buf f5] w5 (Ed5 & _ & Eb5 & _).
  apply wp_bind. eapply wp_mono; [apply fclose_read_spec; congruence|]. intros b6 w6 Ed6.
  assert (f_pos f2 < 4) as Hsz by (rewrite Hp2; destruct b2; [rewrite Ed1, Hi|]; lia).
  destruct (Z.ltb_spec (f_pos f2) 4); [|lia]. rewrite orb_true_r. apply wp_ret.
  split_and!; [congruence|done..].
Qed.

Section opening.
Context {O : Oracle} `{!FaultFree O}.
Implicit Types (w : World).

(** The object that could not read its manifest saves an empty one. *)
Lemma Destroy_new options path w : wiped path (w_disk w) →
  wp Destroy (λ _ '(_, w'), disk_wf (w_disk w') ∧ recoverable (w_disk w') path ∅) (DB_new options path, w).
Proof.
  intros (Hwf & _ & Hw). unfold Destroy. step_this. cbn [id closed_ DB_new]. apply wp_bind.
  unfold Close. step_this. cbn [id closed_ DB_new]. unfold Close_begin. step_update.
  unfold Close_finish. step_update. set (db := set_bg _ _ _ _ _).
  apply wp_bind. unfold FlushMemTableLocked. step_this. apply wp_ret.
  apply wp_bind. unfold close_wal. step_this. apply wp_ret. cbv zeta.
  apply wp_bind. unfold save_version. step_this. step_this. rewrite ManifestPath_eq. apply wp_lift.
  eapply wp_mono; [by apply Version_Save_spec|]. intros s w' (Hwf' & Hop & Hc & Hff).
  rewrite (Hff _) in Hc. cbn in Hc. step_update. apply wp_ret, wp_ret.
  assert (wal_content (w_disk w') path = []) as Hw'.
  { rewrite <- Hw. eapply file_content_frame; [exact Hwf|exact Hop|apply wal_not_manifest]. }
  split; [done|]. exists Version_new, (λ _, []). split; [|by apply recovered_none].
  split; [by left|apply version_new_fits|apply tables_ok_empty|done].
Qed.

(** The first [Open] fails and leaves an empty database. *)
Lemma Open_wiped options path w : wiped path (w_disk w) →
  create_if_missing options = true → error_if_exists options = false →
  wp (Open options path) (λ '(s, odb) w', ok s = false ∧ odb = None ∧
    disk_wf (w_disk w') ∧ recoverable (w_disk w') path ∅) w.
Proof.
  intros Hwi Hc He. unfold Open. apply wp_bind. eapply wp_mono; [apply fs_exists_spec|]. intros ex w1 (Ed1 & _).
  apply wp_bind. eapply (wp_mono _ (λ s w', s = OK ∧ wiped path (w_disk w'))).
  { unfold Open_directory. rewrite Hc, He, <- Ed1 in *. destruct ex; cbn [negb]; [by apply wp_ret|].
    apply wp_bind. eapply wp_mono; [apply fs_create_directories_spec|]. intros [created ec] w2 [Hd Hff].
    rewrite (Hff _), andb_false_r. apply wp_ret. split; [done|]. destruct Hd as [->| ->]; [done|].
    destruct Hwi as ([] & ? & ?). split_and!; [by split|done|done]. }
  intros s w2 [-> Hwi2]. rewrite ok_OK. cbn [negb].
  assert (wp (Open_object ex) (λ s '(db', w'), ok s = false ∧ db' = DB_new options path ∧ wiped path (w_disk w'))
    (DB_new options path, w2)) as Hobj.
  { unfold Open_object. step_this. cbn [id]. rewrite ManifestPath_eq. apply wp_bind, wp_lift.
    eapply wp_mono; [by eapply Version_Load_short; [apply Hwi2|]|]. intros [s1 v1] w3 (Ed3 & -> & Es & En).
    step_update. rewrite Es, En. cbn [negb andb]. apply wp_ret. by rewrite Ed3. }
  unfold wp in *. destruct (Open_object ex (DB_new options path, w2)) as [s3 [db3 w3]].
  cbn [fst snd] in Hobj. destruct Hobj as (Es3 & -> & Hwi3). rewrite Es3.
  pose proof (Destroy_new options path w3 Hwi3) as H4. unfold wp in H4.
  destruct (Destroy _) as [? [? w4]]. cbn [fst snd] in *. by split_and!; [|done|apply H4..].
Qed.
End opening.
