(* ===== verification/Sample.v ===== *)
(** * A concrete database

    A run on an empty disk, evaluated by the definitions: the inputs of the
    witnesses.  [faultless] never fails; [dying n] is the crash at call [n]. *)

From S2P Require Import Prelude Slice Status OrderedMap MemTable WriteBatch FileSystem Wal.
From S2P Require Import SSTable SSTableSpec Version DB DBPaths Layers DBInv DBFlush DBReaders.
From S2P Require Import Merge DBCompact DBRead DBWrite DBOpen DBSpec DBSession.

(** ** Oracles *)

Definition faultless : Oracle := λ _, mkOutcome true 0 0.
#[global] Instance faultless_fault_free : FaultFree faultless.
Proof. done. Qed.

(** The process dies at call [n]: that call and the later ones have no effect. *)
Definition dying (n : nat) : Oracle := λ k, mkOutcome (k <? n)%nat 0 0.

(** One failing call, with no effect. *)
Definition failing_at (n : nat) : Oracle := λ k, mkOutcome (negb (k =? n)%nat) 0 0.

(** ** A database *)

Definition sample_options : Options := mkOptions true false 100 2 10 1000 10 false false.
Definition sample_path : bytes := str "db".
Definition empty_world : World := booted empty_disk.

(** Run [m], then forget the result. *)
Definition after_run {A} (m : M A) (s : DB * World) : DB * World := (m s).2.

Definition opened (O : Oracle) (options : Options) (path : bytes) (w : World) : DB * World :=
  match @Open O options path w with
  | ((_, Some db), w') => (db, w')
  | ((_, None), w') => (DB_new options path, w')
  end.
Definition sample0 : DB * World := opened faultless sample_options sample_path empty_world.
Definition sample_ops : list op := [OpPut (str "k1") (str "v1"); OpPut (str "k2") (str "v2")].
Definition sample1 : DB * World :=
  after_run (@Write faultless (mkWriteOptions false) (batch_of sample_ops)) sample0.

(** ** Its invariants *)

Lemma good_sample_path : good_path sample_path.
Proof. done. Qed.
Lemma sample_options_ok : options_ok sample_options.
Proof. split; [done|reflexivity]. Qed.
Lemma sample_compaction_ok : compaction_ok sample_options.
Proof. by split. Qed.

Lemma empty_disk_wf : disk_wf empty_disk.
Proof. split; intros *; rewrite ?lookup_empty; done. Qed.

Lemma opened_post O options path w v tabs : good_path path → options_ok options →
  disk_wf (w_disk w) → persisted (w_disk w) path v tabs →
  is_Some (@Open O options path w).1.2 →
  @open_post O options path v tabs (w_disk w) (opened O options path w).1
    (w_disk (opened O options path w).2).
Proof.
  intros Hg Ho Hwf Hp [db Hdb]. pose proof (@Open_spec O options path v tabs w Hg Ho Hwf Hp) as H.
  unfold wp, opened in *. destruct (Open options path w) as [[s odb] w']. cbn [fst snd] in *.
  subst odb. apply H.
Qed.

Lemma sample0_safe : safe sample0.1 (w_disk sample0.2) ∅.
Proof.
  assert (persisted empty_disk sample_path Version_new (λ _, [])) as Hp by by apply persisted_none.
  destruct (opened_post faultless sample_options sample_path empty_world _ _ good_sample_path
    sample_options_ok empty_disk_wf Hp ltac:(eexists; vm_compute; reflexivity)).
  exists (λ _, []). fold sample0 in *. split_and!; [done| |].
  - rewrite op_contents by apply _. by apply recovered_none.
  - by apply op_durable; [apply _|].
Qed.

Definition sample_map : gmap bytes bytes := fold_left map_op sample_ops ∅.

Lemma sample_batch_fits : batch_fits sample_ops.
Proof. split; [done|]. vm_compute. reflexivity. Qed.

Lemma safe_write O opts ops db w m : safe db (w_disk w) m → closed_ db = false → batch_fits ops →
  has_room db ops = true → (@Write O opts (batch_of ops) (db, w)).1 = Some OK →
  safe (after_run (@Write O opts (batch_of ops)) (db, w)).1
    (w_disk (after_run (@Write O opts (batch_of ops)) (db, w)).2) (fold_left map_op ops m).
Proof.
  intros (tabs & Hok & <- & Hd) Hcl Hb Hr Hres.
  pose proof (Write_spec db tabs opts ops w Hok Hcl Hb (has_room_write _ _ _ _ Hok Hr)) as H.
  unfold wp, after_run in *. destruct (Write _ _ _) as [r [db' w']]. cbn [fst snd] in *. subst r.
  destruct H as (applied & tabs' & []). rewrite (wr_acked eq_refl) in *. exists tabs'. auto.
Qed.

Lemma sample1_safe : safe sample1.1 (w_disk sample1.2) sample_map.
Proof.
  unfold sample1. rewrite (surjective_pairing sample0).
  apply safe_write; [apply sample0_safe|by vm_compute|apply sample_batch_fits|by vm_compute|by vm_compute].
Qed.
