(* ===== verification/Frame.v ===== *)
(** * What the operations do not touch

    [Keeps f m]: the computation [m] does not change [f] of the object, from
    any state.  The flags of the background thread and of shutdown are changed
    by [Write], [BackgroundRound] and [Close] only, in the assignments their
    source shows; everything the maintenance does keeps them. *)

From S2P Require Import Prelude Status FileSystem Wal SSTable Version WriteBatch MemTable DB.

Class Keeps {A B} (f : DB → B) (m : M A) : Prop := keeps s : f (m s).2.1 = f s.1.

(** The flags, the options and the path. *)
Record flags := mkFlags {
  fl_thread : bool; fl_requested : bool; fl_down : bool; fl_idle : bool; fl_closed : bool;
  fl_options : Options; fl_path : bytes;
}.
Definition flags_of (db : DB) : flags :=
  mkFlags (bg_thread_ db) (bg_work_requested_ db) (shutting_down_ db) (bg_idle_ db) (closed_ db)
    (options_ db) (db_path_ db).

(** ** Rules *)

Section rules.
Context {C : Type} (f : DB → C).

Lemma keeps_ret {A} (a : A) : Keeps f (mret a).
Proof. done. Qed.
Lemma keeps_bind {A B} (m : M A) (k : A → M B) :
  Keeps f m → (∀ a, Keeps f (k a)) → Keeps f (m ≫= k).
Proof. intros Hm Hk s. rewrite run_bind, (Hk _ _). apply Hm. Qed.
Lemma keeps_lift {A} (m : ST World A) : Keeps f (lift m).
Proof. intros [db w]. unfold lift. cbn. by destruct (m w). Qed.
Lemma keeps_this {A} (g : DB → A) : Keeps f (this g).
Proof. done. Qed.
Lemma keeps_update (g : DB → DB) : (∀ db, f (g db) = f db) → Keeps f (update g).
Proof. intros H s. apply H. Qed.
Lemma keeps_for_each {A} (l : list A) (body : A → M ()) :
  (∀ x, Keeps f (body x)) → Keeps f (for_each l body).
Proof. intros H. induction l as [|x l IH]; [done|]. cbn. by apply keeps_bind. Qed.
End rules.

(** Walk through a block; the operations it calls are instances. *)
Ltac keeps_step :=
  lazymatch goal with
  | |- ∀ _, _ => intros ?
  | |- Keeps _ (mret _) => apply keeps_ret
  | |- Keeps _ (mbind _ _) => apply keeps_bind
  | |- Keeps _ (lift _) => apply keeps_lift
  | |- Keeps _ (this _) => apply keeps_this
  | |- Keeps _ (update _) => apply keeps_update; intros ?; reflexivity
  | |- Keeps _ (for_each _ _) => apply keeps_for_each
  | |- Keeps _ (match ?x with _ => _ end) => destruct x
  | |- Keeps _ _ => first [assumption | apply _ | match goal with IH : _ |- _ => apply IH end]
  end.
Ltac keeps_tac := cbv zeta; repeat keeps_step.
Ltac keeps_unfold m := unfold m; keeps_tac.

(** ** The operations *)

Section frames.
Context {O : Oracle}.

#[export] Instance new_table_keeps es : Keeps flags_of (new_table es).
Proof. keeps_unfold @new_table. Qed.
#[export] Instance open_wal_keeps : Keeps flags_of open_wal.
Proof. keeps_unfold @open_wal. Qed.
#[export] Instance close_wal_keeps : Keeps flags_of close_wal.
Proof. keeps_unfold @close_wal. Qed.
#[export] Instance save_version_keeps : Keeps flags_of save_version.
Proof. keeps_unfold @save_version. Qed.
#[export] Instance finish_flush_keeps fm r : Keeps flags_of (finish_flush fm r).
Proof. keeps_unfold @finish_flush. Qed.
#[export] Instance FlushMemTableLocked_keeps : Keeps flags_of FlushMemTableLocked.
Proof. keeps_unfold @FlushMemTableLocked. Qed.
#[export] Instance flush_batch_keeps o : Keeps flags_of (flush_batch o).
Proof. unfold flush_batch. keeps_tac. Qed.
#[export] Instance write_merged_keeps drop t m o : Keeps flags_of (write_merged drop t m o).
Proof. revert o. induction m as [|[k e] m IH]; intros o; cbn [write_merged]; keeps_tac. Qed.
#[export] Instance remove_table_keeps n : Keeps flags_of (remove_table n).
Proof. keeps_unfold @remove_table. Qed.
#[export] Instance CompactLocked_keeps l : Keeps flags_of (CompactLocked l).
Proof. keeps_unfold @CompactLocked. Qed.
#[export] Instance compact_loop_keeps fuel : Keeps flags_of (compact_loop fuel).
Proof. induction fuel; cbn [compact_loop]; keeps_tac. Qed.
#[export] Instance MaybeFlushLocked_keeps : Keeps flags_of MaybeFlushLocked.
Proof. keeps_unfold @MaybeFlushLocked. Qed.
#[export] Instance Flush_keeps : Keeps flags_of Flush.
Proof. keeps_unfold @Flush. Qed.
#[export] Instance ApplyBatchLocked_keeps b : Keeps flags_of (ApplyBatchLocked b).
Proof. keeps_unfold @ApplyBatchLocked. Qed.
#[export] Instance add_record_keeps data sync : Keeps flags_of (add_record data sync).
Proof. keeps_unfold @add_record. Qed.

(** Reading changes nothing at all. *)
#[export] Instance Get_keeps key value : Keeps id (Get key value).
Proof. keeps_unfold @Get. Qed.
#[export] Instance NewIterator_keeps : Keeps id NewIterator.
Proof. keeps_unfold @NewIterator. Qed.
End frames.

(** ** The operations that change the flags *)

(** [Write] reaches [bg_cv_.notify_one()]. *)
Definition wakes (b : WriteBatch) (db : DB) (r : option Status) : bool :=
  background_compaction (options_ db) && negb (WriteBatch_empty b) &&
  match r with Some s => ok s | None => false end.

Definition fl_write (f : flags) : flags :=
  mkFlags (fl_thread f) true (fl_down f) false (fl_closed f) (fl_options f) (fl_path f).
Definition fl_round (f : flags) : flags :=
  mkFlags (fl_thread f) false (fl_down f) true (fl_closed f) (fl_options f) (fl_path f).
Definition fl_begin (f : flags) : flags :=
  mkFlags (fl_thread f) (fl_requested f) true (fl_idle f) (fl_closed f) (fl_options f) (fl_path f).
Definition fl_finish (f : flags) : flags :=
  mkFlags false (fl_requested f) (fl_down f) (fl_idle f) true (fl_options f) (fl_path f).

Section flags.
Context {O : Oracle}.

Lemma Write_flags opts b db w r db' w' : Write opts b (db, w) = (r, (db', w')) →
  flags_of db' = (if wakes b db r then fl_write else id) (flags_of db).
Proof.
  unfold Write, wakes. destruct (WriteBatch_empty b).
  { intros [= <- <- <-]. by rewrite andb_false_r. }
  rewrite run_bind. unfold this, gets. cbn [fst snd id]. destruct (closed_ db).
  { intros [= <- <- <-]. by rewrite andb_false_r. }
  rewrite run_bind. pose proof (add_record_keeps (Data b) (sync opts || sync_writes (options_ db)) (db, w)) as H1.
  destruct (add_record _ _ (db, w)) as [s1 [db1 w1]]. cbn [fst snd] in *.
  destruct (ok s1) eqn:E1; cbn [negb].
  2: { intros [= <- <- <-]. by rewrite E1, andb_false_r. }
  rewrite run_bind. pose proof (ApplyBatchLocked_keeps b (db1, w1)) as H2.
  destruct (ApplyBatchLocked b (db1, w1)) as [s2 [db2 w2]]. cbn [fst snd] in *.
  destruct (ok s2) eqn:E2; cbn [negb].
  2: { intros [= <- <- <-]. by rewrite E2, andb_false_r, H2, H1. }
  destruct (background_compaction (options_ db)) eqn:Ebg.
  - intros [= <- <- <-]. rewrite E2. cbn. rewrite <- H1, <- H2. done.
  - intros E. pose proof (MaybeFlushLocked_keeps (db2, w2)) as H3. rewrite E in H3. cbn [fst snd] in H3.
    cbn. by rewrite H3, H2, H1.
Qed.

Lemma BackgroundRound_flags db w r db' w' : BackgroundRound (db, w) = (Some r, (db', w')) →
  flags_of db' = fl_round (flags_of db).
Proof.
  unfold BackgroundRound. rewrite run_bind. unfold update, modify. cbn [fst snd].
  set (db0 := set_bg _ _ _ _ db). rewrite run_bind.
  pose proof (FlushMemTableLocked_keeps (db0, w)) as H1.
  destruct (FlushMemTableLocked (db0, w)) as [s1 [db1 w1]]. cbn [fst snd] in *. rewrite run_bind.
  assert (Keeps flags_of (if ok s1 then compact_loop loop_fuel else mret (Some s1))) as H2
    by (keeps_tac).
  specialize (H2 (db1, w1)).
  destruct ((if ok s1 then compact_loop loop_fuel else mret (Some s1)) (db1, w1)) as [[s2|] [db2 w2]]; [|done].
  cbn [fst snd] in *. intros [= <- <- <-]. rewrite H1 in H2. unfold flags_of, fl_round, fl_finish in *. cbn in *. congruence.
Qed.

Lemma Close_finish_flags db w s db' w' : Close_finish (db, w) = (s, (db', w')) →
  flags_of db' = fl_finish (flags_of db).
Proof.
  unfold Close_finish. rewrite run_bind. cbn [update modify fst snd].
  set (db0 := set_bg false (bg_work_requested_ db) (shutting_down_ db) (bg_idle_ db) db). rewrite run_bind.
  pose proof (FlushMemTableLocked_keeps (db0, w)) as H1.
  destruct (FlushMemTableLocked (db0, w)) as [s1 [db1 w1]]. cbn [fst snd] in *. rewrite run_bind.
  pose proof (close_wal_keeps (db1, w1)) as H2. destruct (close_wal (db1, w1)) as [s2 [db2 w2]].
  cbn [fst snd] in *. cbv zeta. rewrite run_bind.
  pose proof (save_version_keeps (db2, w2)) as H3. destruct (save_version (db2, w2)) as [s3 [db3 w3]].
  cbn [fst snd] in *. intros [= <- <- <-]. rewrite H2, H1 in H3.
  unfold flags_of, fl_round, fl_finish in *. cbn in *. congruence.
Qed.
End flags.
