(* ===== verification/Concurrency.v ===== *)
(** * Clients and the background thread

    Every public method holds the mutex for its whole body, and so does each
    round of the background thread; [Close] releases it between setting
    [shutting_down_] and the final flush.  A run of the system is therefore a
    sequence of these atomic steps.  The system refines a map with atomic
    operations; and after any run, whatever I/O fails, a recovery finds the
    acknowledged writes. *)

From S2P Require Import Prelude Slice Status OrderedMap MemTable WriteBatch FileSystem Wal.
From S2P Require Import SSTable SSTableSpec Version DB DBPaths Layers DBInv DBFlush DBReaders.
From S2P Require Import Merge DBCompact DBRead DBWrite DBOpen DBSpec.

(** ** The system *)

(** [bg]: the background thread is in its loop. *)
Record system := mkSystem { s_db : DB; s_world : World; s_bg : bool }.

(** What a step does, with its result. *)
Inductive label :=
  | LWrite (ops : list op) (r : Status)
  | LGet (key value : bytes) (r : Status * bytes)
  | LIterate (l : list (bytes * bytes))
  | LFlush (r : Status)
  | LBackground
  | LShutdown
  | LExit
  | LClose (r : Status)
  | LCloseAgain
  | LStats (st : Stats).

Section system.
Context {O : Oracle}.

(** Clients issue batches that fit, on a database with room. *)
Inductive step : system → label → system → Prop :=
  | step_write opts ops r db w db' w' bg :
      batch_fits ops → has_room db ops = true →
      Write opts (batch_of ops) (db, w) = (Some r, (db', w')) →
      step (mkSystem db w bg) (LWrite ops r) (mkSystem db' w' bg)
  | step_get key value r db w db' w' bg :
      Get key value (db, w) = (r, (db', w')) →
      step (mkSystem db w bg) (LGet key value r) (mkSystem db' w' bg)
  | step_iterate it db w db' w' bg :
      NewIterator (db, w) = (it, (db', w')) →
      step (mkSystem db w bg) (LIterate (scan it)) (mkSystem db' w' bg)
  | step_flush r db w db' w' bg :
      has_room db [] = true →
      Flush (db, w) = (Some r, (db', w')) →
      step (mkSystem db w bg) (LFlush r) (mkSystem db' w' bg)
  | step_background r db w db' w' :
      has_room db [] = true → bg_work_requested_ db = true → shutting_down_ db = false →
      BackgroundRound (db, w) = (Some r, (db', w')) →
      step (mkSystem db w true) LBackground (mkSystem db' w' true)
  | step_shutdown db w db' w' bg :
      closed_ db = false → Close_begin (db, w) = ((), (db', w')) →
      step (mkSystem db w bg) LShutdown (mkSystem db' w' bg)
  | step_exit db w :
      shutting_down_ db = true →
      step (mkSystem db w true) LExit (mkSystem db w false)
  | step_close r db w db' w' :
      has_room db [] = true → shutting_down_ db = true → closed_ db = false →
      Close_finish (db, w) = (r, (db', w')) →
      step (mkSystem db w false) (LClose r) (mkSystem db' w' false)
  | step_close_again db w bg :
      closed_ db = true → step (mkSystem db w bg) LCloseAgain (mkSystem db w bg)
  | step_stats db w bg :
      step (mkSystem db w bg) (LStats (GetStats db)) (mkSystem db w bg).

Inductive steps : system → list label → system → Prop :=
  | steps_nil s : steps s [] s
  | steps_cons s l s' ls s'' : step s l s' → steps s' ls s'' → steps s (l :: ls) s''.
End system.

(** ** The specification: an atomic map *)

Record amap := mkAmap { a_map : gmap bytes bytes; a_closed : bool }.

Definition closed_status : Status := InvalidArgument (str "DB is closed").

Inductive astep : amap → label → amap → Prop :=
  | astep_write m ops : astep (mkAmap m false) (LWrite ops OK) (mkAmap (fold_left map_op ops m) false)
  | astep_write_closed m ops : astep (mkAmap m true) (LWrite ops closed_status) (mkAmap m true)
  | astep_get m key value :
      astep (mkAmap m false) (LGet key value (get_result m key value)) (mkAmap m false)
  | astep_get_closed m key value :
      astep (mkAmap m true) (LGet key value (closed_status, value)) (mkAmap m true)
  | astep_iterate a l : omap_wf l → omap_to_gmap l = a_map a → astep a (LIterate l) a
  | astep_flush a : astep a (LFlush OK) a
  | astep_background a : astep a LBackground a
  | astep_shutdown a : astep a LShutdown a
  | astep_exit a : astep a LExit a
  | astep_close m : astep (mkAmap m false) (LClose OK) (mkAmap m true)
  | astep_close_again m : astep (mkAmap m true) LCloseAgain (mkAmap m true)
  | astep_stats a st : astep a (LStats st) a.

Inductive asteps : amap → list label → amap → Prop :=
  | asteps_nil a : asteps a [] a
  | asteps_cons a l a' ls a'' : astep a l a' → asteps a' ls a'' → asteps a (l :: ls) a''.

(** The simulation relation. *)
Record simulates (s : system) (a : amap) : Prop := {
  si_represents : represents (s_db s) (w_disk (s_world s)) (a_map a);
  si_closed : closed_ (s_db s) = a_closed a;
  si_wal : a_closed a = false → wal_open (s_db s);
}.

(** ** Lemmas *)

(** From a specification to the result of a given run. *)
Lemma wp_run {S A} (m : ST S A) (Q : A → S → Prop) s a s' : wp m Q s → m s = (a, s') → Q a s'.
Proof. unfold wp. intros H E. by rewrite E in H. Qed.

Section simulation.
Context {O : Oracle}.

Lemma write_closed opts ops db w : closed_ db = true → batch_fits ops →
  Write opts (batch_of ops) (db, w) = (Some closed_status, (db, w)).
Proof.
  intros Hcl Hb. unfold Write, WriteBatch_empty.
  rewrite (proj2 (Z.eqb_neq _ _) (batch_fits_count _ Hb)).
  unfold mbind, ST_bind, this, gets, mret, ST_ret. cbn [fst id]. by rewrite Hcl.
Qed.

Lemma get_closed key value db w : closed_ db = true →
  Get key value (db, w) = ((closed_status, value), (db, w)).
Proof. intros Hcl. unfold Get, mbind, ST_bind, this, gets, mret, ST_ret. cbn [fst id]. by rewrite Hcl. Qed.

Lemma sim_write `{!FaultFree O} s a ops r s' : simulates s a → step s (LWrite ops r) s' →
  ∃ a', astep a (LWrite ops r) a' ∧ simulates s' a'.
Proof.
  intros [Hrep Hcl Hwal] H. inversion H; subst; cbn [s_db s_world] in *. destruct a as [m []]; cbn in *.
  { rewrite write_closed in * by done. simplify_eq. eexists. split; [constructor|]. by split. }
  destruct Hrep as (tabs & Hok & <-).
  match goal with E : Write ?o _ _ = _ |- _ =>
    pose proof (wp_run _ _ _ _ _ (Write_spec db tabs o ops w Hok Hcl ltac:(done)
      (has_room_write _ _ _ _ Hok ltac:(done))) E) as (applied & tabs' & []) end.
  destruct (wr_fault_free _ (Hwal eq_refl)) as (-> & [?|[= ->]] & Hw); [done|].
  eexists. split; [constructor|]. split; cbn; [by exists tabs'|congruence|done].
Qed.

Lemma sim_get `{!FaultFree O} s a key value r s' : simulates s a → step s (LGet key value r) s' →
  ∃ a', astep a (LGet key value r) a' ∧ simulates s' a'.
Proof.
  intros [Hrep Hcl Hwal] H. inversion H; subst; cbn [s_db s_world] in *. destruct a as [m []]; cbn in *.
  { rewrite get_closed in * by done. simplify_eq. eexists. split; [constructor|]. by split. }
  destruct Hrep as (tabs & Hok & <-).
  match goal with E : Get _ _ _ = _ |- _ =>
    destruct (wp_run _ _ _ _ _ (Get_spec db tabs key value w Hok Hcl) E) as (-> & Ed & Hp & _) end.
  rewrite Hp by done. eexists. split; [constructor|]. split; cbn; [exists tabs; by rewrite Ed|done|done].
Qed.

Lemma sim_iterate `{!FaultFree O} s a l s' : simulates s a → step s (LIterate l) s' →
  ∃ a', astep a (LIterate l) a' ∧ simulates s' a'.
Proof.
  intros [Hrep Hcl Hwal] H. inversion H; subst; cbn [s_db s_world] in *.
  destruct Hrep as (tabs & Hok & Em).
  match goal with E : NewIterator _ = _ |- _ =>
    destruct (wp_run _ _ _ _ _ (NewIterator_spec db tabs w Hok) E) as (-> & Ed & _ & Hwf & Hp) end.
  exists a. split; [constructor; [done|by rewrite Hp]|]. split; cbn; [exists tabs; by rewrite Ed|done|done].
Qed.

Lemma sim_flush `{!FaultFree O} s a r s' : simulates s a → step s (LFlush r) s' →
  ∃ a', astep a (LFlush r) a' ∧ simulates s' a'.
Proof.
  intros [Hrep Hcl Hwal] H. inversion H; subst; cbn [s_db s_world] in *.
  destruct Hrep as (tabs & Hok & Em).
  match goal with E : Flush _ = _ |- _ =>
    destruct (wp_run _ _ _ _ _ (Flush_spec db tabs w Hok (has_room_limits _ _ _ Hok ltac:(done))) E)
      as (tabs' & (Hm & Hff & _) & _) end.
  destruct (Hff _) as [[?|[= ->]] Hw]; [done|]. exists a. split; [constructor|].
  split; cbn; [by eapply maintained_represents| |auto].
  by rewrite (sc_closed _ _ (ma_config _ _ _ _ _ _ Hm)).
Qed.

Lemma sim_background `{!FaultFree O} s a s' : simulates s a → step s LBackground s' →
  ∃ a', astep a LBackground a' ∧ simulates s' a'.
Proof.
  intros [Hrep Hcl Hwal] H. inversion H; subst; cbn [s_db s_world] in *.
  destruct Hrep as (tabs & Hok & Em).
  match goal with E : BackgroundRound _ = _ |- _ =>
    destruct (wp_run _ _ _ _ _ (BackgroundRound_spec db tabs w Hok (has_room_limits _ _ _ Hok ltac:(done))) E)
      as (tabs' & _ & _ & Ec & _ & _ & _ & Hok' & Em' & _ & Hff & _) end.
  destruct (Hff _) as (_ & Hw & _). exists a. split; [constructor|].
  split; cbn; [exists tabs'; by rewrite Em'|by rewrite Ec|auto].
Qed.

Lemma sim_close `{!FaultFree O} s a r s' : simulates s a → step s (LClose r) s' →
  ∃ a', astep a (LClose r) a' ∧ simulates s' a'.
Proof.
  intros [Hrep Hcl Hwal] H. inversion H; subst; cbn [s_db s_world] in *.
  destruct Hrep as (tabs & Hok & Em). destruct a as [m c]; cbn in *. subst c.
  match goal with Ho : closed_ db = false, E : Close_finish _ = _ |- _ =>
    rewrite Ho in *;
    destruct (wp_run _ _ _ _ _ (Close_finish_spec db tabs w Hok (has_room_limits _ _ _ Hok ltac:(done))) E)
      as (tabs' & []) end.
  rewrite (cl_fault_free _). eexists. split; [constructor|].
  split; cbn; [exists tabs'; by rewrite cl_contents|done|done].
Qed.

Lemma simulation `{!FaultFree O} s a l s' : simulates s a → step s l s' →
  ∃ a', astep a l a' ∧ simulates s' a'.
Proof.
  intros Hs H. destruct l.
  - by eapply sim_write.
  - by eapply sim_get.
  - by eapply sim_iterate.
  - by eapply sim_flush.
  - by eapply sim_background.
  - exists a. split; [constructor|]. destruct Hs as [(tabs & ? & ?) ? ?]. inversion H; subst; cbn in *.
    match goal with E : Close_begin _ = _ |- _ => injection E as <- <- end.
    split; cbn; [exists tabs; split; [by apply db_ok_bg|done]|done|done].
  - exists a. split; [constructor|]. destruct Hs. by inversion H; subst.
  - by eapply sim_close.
  - exists a. destruct Hs as [? Hcl ?], a as [m c]. inversion H; subst; cbn in *.
    split; [|done]. rewrite <- Hcl. match goal with E : closed_ _ = true |- _ => rewrite E end. constructor.
  - exists a. split; [constructor|]. by inversion H; subst.
Qed.

Lemma steps_simulates `{!FaultFree O} s a ls s' : simulates s a → steps s ls s' →
  ∃ a', asteps a ls a' ∧ simulates s' a'.
Proof.
  intros Ha H. revert a Ha. induction H as [|s l s' ls s'' Hstep _ IH]; intros a Ha.
  { exists a. split; [constructor|done]. }
  destruct (simulation _ _ _ _ Ha Hstep) as (a1 & Ha1 & Hs1).
  destruct (IH _ Hs1) as (a2 & Ha2 & Hs2). exists a2. split; [by econstructor|done].
Qed.

(** ** Runs under failures *)

(** The operations written by a run, and the runs in which every write is
    acknowledged. *)
Fixpoint written (ls : list label) : list op :=
  match ls with
  | [] => []
  | LWrite ops _ :: ls => ops ++ written ls
  | _ :: ls => written ls
  end.
Definition writes_acked (ls : list label) : Prop := ∀ ops r, LWrite ops r ∈ ls → r = OK.

(** A completed step of a safe system, whatever failed in it. *)
Lemma safe_step s m l s' : safe (s_db s) (w_disk (s_world s)) m → step s l s' → writes_acked [l] →
  safe (s_db s') (w_disk (s_world s')) (fold_left map_op (written [l]) m) ∧
  db_path_ (s_db s') = db_path_ (s_db s).
Proof.
  intros (tabs & Hok & Em & Hd) H Hack. destruct H; cbn [s_db s_world written fold_left app] in *;
    rewrite ?app_nil_r.
  - assert (r = OK) as -> by (apply (Hack ops); set_solver).
    destruct (closed_ db) eqn:Hcl; [by rewrite write_closed in * by done|].
    match goal with E : Write _ _ _ = _ |- _ =>
      pose proof (wp_run _ _ _ _ _ (Write_spec db tabs opts ops w Hok Hcl ltac:(done)
        (has_room_write _ _ _ _ Hok ltac:(done))) E) as (applied & tabs' & []) end.
    rewrite (wr_acked eq_refl) in *. split; [|done]. exists tabs'.
    split_and!; [done|by rewrite wr_contents, Em|auto].
  - destruct (closed_ db) eqn:Hcl;
      [rewrite get_closed in * by done; simplify_eq; split; [by exists tabs|done]|].
    match goal with E : Get _ _ _ = _ |- _ =>
      destruct (wp_run _ _ _ _ _ (Get_spec db tabs key value w Hok Hcl) E) as (-> & Ed & _) end.
    rewrite Ed. split; [by exists tabs|done].
  - match goal with E : NewIterator _ = _ |- _ =>
      destruct (wp_run _ _ _ _ _ (NewIterator_spec db tabs w Hok) E) as (-> & Ed & _) end.
    rewrite Ed. split; [by exists tabs|done].
  - match goal with E : Flush _ = _ |- _ =>
      destruct (wp_run _ _ _ _ _ (Flush_spec db tabs w Hok (has_room_limits _ _ _ Hok ltac:(done))) E)
        as (tabs' & (Hm & _) & _) end.
    split; [by eapply maintained_safe|apply (ma_config _ _ _ _ _ _ Hm)].
  - match goal with E : BackgroundRound _ = _ |- _ =>
      destruct (wp_run _ _ _ _ _ (BackgroundRound_spec db tabs w Hok (has_room_limits _ _ _ Hok ltac:(done))) E)
        as (tabs' & Hp & _ & _ & _ & _ & _ & Hok' & Em' & Hd' & _) end.
    split; [|done]. exists tabs'. split_and!; [done|congruence|auto].
  - match goal with E : Close_begin _ = _ |- _ => injection E as <- <- end.
    split; [|done]. exists tabs. split_and!; [by apply db_ok_bg|done|by apply durable_bg].
  - split; [by exists tabs|done].
  - match goal with Ho : closed_ db = false, E : Close_finish _ = _ |- _ =>
      destruct (wp_run _ _ _ _ _ (Close_finish_spec db tabs w Hok (has_room_limits _ _ _ Hok ltac:(done))) E)
        as (tabs' & []) end.
    split; [|done]. exists tabs'. split_and!; [done|congruence|auto].
  - split; [by exists tabs|done].
  - split; [by exists tabs|done].
Qed.

Lemma written_cons l ls : written (l :: ls) = written [l] ++ written ls.
Proof. destruct l; cbn; by rewrite ?app_nil_r. Qed.

Lemma safe_steps s ls s' m : steps s ls s' → safe (s_db s) (w_disk (s_world s)) m →
  writes_acked ls → safe (s_db s') (w_disk (s_world s')) (fold_left map_op (written ls) m) ∧
  db_path_ (s_db s') = db_path_ (s_db s).
Proof.
  intros H. revert m. induction H as [|s l s' ls s'' Hstep _ IH]; intros m Hs Hack; [done|].
  rewrite written_cons, fold_left_app.
  destruct (safe_step _ _ _ _ Hs Hstep) as [Hs' Hp].
  { intros ops r Hin. apply (Hack ops r). set_solver. }
  destruct (IH _ Hs') as [? ?]; [|split; [done|congruence]].
  intros ops r Hin. apply (Hack ops r). set_solver.
Qed.

(** The step in which the process dies. *)
Lemma last_step s m l s' : safe (s_db s) (w_disk (s_world s)) m → step s l s' →
  disk_wf (w_disk (s_world s')) ∧
  (recoverable (w_disk (s_world s')) (db_path_ (s_db s)) m ∨
   recoverable (w_disk (s_world s')) (db_path_ (s_db s)) (fold_left map_op (written [l]) m)).
Proof.
  intros Hs H. destruct (decide (written [l] = [])) as [Hw|Hw].
  - assert (writes_acked [l]) as Hack.
    { intros ops r <-%list_elem_of_singleton. cbn in Hw. rewrite app_nil_r in Hw. subst ops.
      exfalso. inversion H; subst. by match goal with Hb : batch_fits [] |- _ => destruct Hb end. }
    destruct (safe_step _ _ _ _ Hs H Hack) as [Hs' Ep]. rewrite Hw in *. cbn [fold_left] in *.
    split; [by destruct Hs' as (tabs & [] & _)|]. left. rewrite <- Ep. by apply safe_recoverable.
  - destruct H; cbn [written app] in Hw; try done. cbn [s_db s_world written]. rewrite app_nil_r in *.
    destruct Hs as (tabs & Hok & <- & Hd). cbn [s_db s_world] in *.
    destruct (closed_ db) eqn:Hcl.
    { rewrite write_closed in * by done. simplify_eq. split; [by destruct Hok|].
      left. by apply durable_recoverable. }
    match goal with E : Write _ _ _ = _ |- _ =>
      pose proof (wp_run _ _ _ _ _ (Write_spec db tabs opts ops w Hok Hcl ltac:(done)
        (has_room_write _ _ _ _ Hok ltac:(done))) E) as (applied & tabs' & []) end.
    split; [by destruct wr_ok|]. destruct applied; [right|by apply wr_durable].
    rewrite <- wr_contents, <- wr_path. apply durable_recoverable. auto.
Qed.

(** One step or none. *)
Lemma last_steps s m ls s' : safe (s_db s) (w_disk (s_world s)) m → (length ls ≤ 1)%nat →
  steps s ls s' → disk_wf (w_disk (s_world s')) ∧
  (recoverable (w_disk (s_world s')) (db_path_ (s_db s)) m ∨
   recoverable (w_disk (s_world s')) (db_path_ (s_db s)) (fold_left map_op (written ls) m)).
Proof.
  intros Hs Hl H. destruct H as [s|s l s1 ls s' Hst H].
  - split; [|left; by apply safe_recoverable]. destruct Hs as (tabs & [] & _). done.
  - destruct ls; [|cbn in Hl; lia]. inversion H; subst. by apply last_step.
Qed.

(** ** Well-formedness

    Whatever fails, and whether or not writes are acknowledged. *)
Definition well_formed (db : DB) (d : Disk) : Prop := ∃ tabs, db_ok db tabs d.

Lemma step_well_formed s l s' : well_formed (s_db s) (w_disk (s_world s)) → step s l s' →
  well_formed (s_db s') (w_disk (s_world s')) ∧ options_ (s_db s') = options_ (s_db s).
Proof.
  intros (tabs & Hok) H. destruct H; cbn [s_db s_world] in *.
  - destruct (closed_ db) eqn:Hcl; [rewrite write_closed in * by done; simplify_eq; by split; [exists tabs|]|].
    match goal with E : Write _ _ _ = _ |- _ =>
      pose proof (wp_run _ _ _ _ _ (Write_spec db tabs opts ops w Hok Hcl ltac:(done)
        (has_room_write _ _ _ _ Hok ltac:(done))) E) as (applied & tabs' & []) end.
    by split; [exists tabs'|].
  - destruct (closed_ db) eqn:Hcl; [rewrite get_closed in * by done; simplify_eq; by split; [exists tabs|]|].
    match goal with E : Get _ _ _ = _ |- _ =>
      destruct (wp_run _ _ _ _ _ (Get_spec db tabs key value w Hok Hcl) E) as (-> & Ed & _) end.
    rewrite Ed. by split; [exists tabs|].
  - match goal with E : NewIterator _ = _ |- _ =>
      destruct (wp_run _ _ _ _ _ (NewIterator_spec db tabs w Hok) E) as (-> & Ed & _) end.
    rewrite Ed. by split; [exists tabs|].
  - match goal with E : Flush _ = _ |- _ =>
      destruct (wp_run _ _ _ _ _ (Flush_spec db tabs w Hok (has_room_limits _ _ _ Hok ltac:(done))) E)
        as (tabs' & ([] & _) & _) end.
    split; [by exists tabs'|]. by apply sc_options.
  - match goal with E : BackgroundRound _ = _ |- _ =>
      destruct (wp_run _ _ _ _ _ (BackgroundRound_spec db tabs w Hok (has_room_limits _ _ _ Hok ltac:(done))) E)
        as (tabs' & _ & Eo & _ & _ & _ & _ & Hok' & _) end.
    by split; [exists tabs'|].
  - match goal with E : Close_begin _ = _ |- _ => injection E as <- <- end.
    by split; [exists tabs; apply db_ok_bg|].
  - by split; [exists tabs|].
  - match goal with E : Close_finish _ = _ |- _ =>
      destruct (wp_run _ _ _ _ _ (Close_finish_spec db tabs w Hok (has_room_limits _ _ _ Hok ltac:(done))) E)
        as (tabs' & []) end.
    by split; [exists tabs'|].
  - by split; [exists tabs|].
  - by split; [exists tabs|].
Qed.

Lemma steps_well_formed s ls s' : steps s ls s' → well_formed (s_db s) (w_disk (s_world s)) →
  well_formed (s_db s') (w_disk (s_world s')) ∧ options_ (s_db s') = options_ (s_db s).
Proof.
  induction 1 as [|s l s' ls s'' Hstep _ IH]; intros Hwf; [done|].
  destruct (step_well_formed _ _ _ Hwf Hstep) as [Hwf' Eo]. destruct (IH Hwf') as [? ->]. done.
Qed.
End simulation.
