(* ===== verification/SampleRuns.v ===== *)
(** * Steps of the system from runs of the methods

    A method evaluated on a concrete object is a step of [Concurrency]: the
    witnesses on sequences of steps are put together with these lemmas. *)

From S2P Require Import Prelude Slice Status OrderedMap MemTable WriteBatch FileSystem Wal.
From S2P Require Import SSTable SSTableSpec Version DB DBPaths Layers DBInv DBFlush DBReaders.
From S2P Require Import Merge DBCompact DBRead DBWrite DBOpen DBSpec DBSession Sample Concurrency.

Section runs.
Context {O : Oracle}.
Lemma run_write opts ops r db w bg : batch_fits ops → has_room db ops = true →
  (Write opts (batch_of ops) (db, w)).1 = Some r →
  step (mkSystem db w bg) (LWrite ops r)
    (mkSystem (after_run (Write opts (batch_of ops)) (db, w)).1
              (after_run (Write opts (batch_of ops)) (db, w)).2 bg).
Proof.
  intros Hb Hr E. apply (step_write opts); [done|done|]. rewrite <- E. unfold after_run.
  by destruct (Write opts (batch_of ops) (db, w)) as [? []].
Qed.
Lemma run_flush r db w bg : has_room db [] = true → (Flush (db, w)).1 = Some r →
  step (mkSystem db w bg) (LFlush r)
    (mkSystem (after_run Flush (db, w)).1 (after_run Flush (db, w)).2 bg).
Proof.
  intros Hr E. apply step_flush; [done|]. rewrite <- E. unfold after_run. by destruct (Flush (db, w)) as [? []].
Qed.
Lemma run_get key value r db w bg : (Get key value (db, w)).1 = r →
  step (mkSystem db w bg) (LGet key value r)
    (mkSystem (after_run (Get key value) (db, w)).1 (after_run (Get key value) (db, w)).2 bg).
Proof.
  intros <-. apply step_get. unfold after_run. by destruct (Get key value (db, w)) as [? []].
Qed.
End runs.
