(* ===== verification/Threads.v ===== *)
(** * Threads: the mutex, the condition variable and the join

    The threads of a process that shares one [DB]: any number of clients and
    the background thread, each with a program counter, [mutex_] with its
    owner, and the waiting of [bg_cv_].  [Concurrency] describes the same
    system by its critical sections; here a call is a sequence of steps (lock,
    body, unlock; [Close] also unlocks, joins and locks again), and
    [BackgroundLoop] sleeps, is notified, tests its predicate and works.

    Every thread is deterministic: [client_step] and [bg_step] are functions,
    and a run is given by the choices of the scheduler. *)

From stdpp Require Import functions.
From S2P Require Import Prelude Slice Status OrderedMap MemTable WriteBatch FileSystem Wal.
From S2P Require Import SSTable SSTableSpec Version DB DBPaths Layers DBInv DBFlush DBReaders.
From S2P Require Import Merge DBCompact DBRead DBWrite DBOpen DBSpec Frame Concurrency.

Inductive tid := TBg | TClient (t : nat).
#[global] Instance tid_eq_dec : EqDecision tid.
Proof. solve_decision. Defined.

(** The public methods.  [Write] returns before the lock when the batch is
    empty, so the batches here are not ([call_ok]). *)
Inductive call :=
  | CallWrite (opts : WriteOptions) (ops : list op)
  | CallGet (key value : bytes)
  | CallIterate
  | CallFlush
  | CallStats
  | CallClose.

Inductive answer :=
  | AStatus (s : Status)
  | AGet (r : Status * bytes)
  | AScan (l : list (bytes * bytes))
  | AStats (st : Stats).

(** Where a client is.  [Inside] holds the mutex and has not run the body,
    [Leaving] has; [Parting], [Joining], [Returning] and [Closing] are the
    stages of [Close]: about to unlock, at the join, about to lock again, and
    in its second critical section. *)
Inductive client_pc :=
  | Idle
  | Entering (c : call)
  | Inside (c : call)
  | Leaving (c : call) (r : answer)
  | Parting
  | Joining
  | Returning
  | Closing.

(** Where [BackgroundLoop] is.  [BWaking]: to lock the mutex, at the start or
    after a wake-up.  [BTesting]: at the predicate of [wait].  [BAsleep]: in
    [wait], the mutex released.  [BWorking]: past [wait]. *)
Inductive bg_pc := BNone | BWaking | BTesting | BAsleep | BWorking | BExited.

Record process := mkProcess {
  p_db : DB;
  p_world : World;
  p_mutex : option tid;
  p_bg : bg_pc;
  p_clients : nat → client_pc;
}.

Definition set_pc (t : nat) (pc : client_pc) (s : process) : process :=
  mkProcess (p_db s) (p_world s) (p_mutex s) (p_bg s) (<[t := pc]> (p_clients s)).
Definition set_mutex (m : option tid) (s : process) : process :=
  mkProcess (p_db s) (p_world s) m (p_bg s) (p_clients s).
Definition set_bgpc (b : bg_pc) (s : process) : process :=
  mkProcess (p_db s) (p_world s) (p_mutex s) b (p_clients s).
Definition set_object (dw : DB * World) (s : process) : process :=
  mkProcess dw.1 dw.2 (p_mutex s) (p_bg s) (p_clients s).

(** [notify_one] and [notify_all]: only the background thread waits. *)
Definition notify (s : process) : process :=
  match p_bg s with BAsleep => set_bgpc BWaking s | _ => s end.

(** What a step does, for an observer: [EvBody] and [EvBg] are the bodies of
    critical sections, with their label in [Concurrency]. *)
Inductive event :=
  | EvCall (t : nat) (c : call)
  | EvBody (t : nat) (l : label)
  | EvReturn (t : nat) (r : answer)
  | EvBg (l : label)
  | EvTau.

Section threads.
Context {O : Oracle}.

(** The body of a call, other than [Close]: its label and its answer.  [None]
    is a call that never leaves the compaction loop. *)
Definition call_body (c : call) : M (option (label * answer)) :=
  match c with
  | CallWrite opts ops =>
      r ← Write opts (batch_of ops); mret ((λ s, (LWrite ops s, AStatus s)) <$> r)
  | CallGet key value => r ← Get key value; mret (Some (LGet key value r, AGet r))
  | CallIterate => it ← NewIterator; mret (Some (LIterate (scan it), AScan (scan it)))
  | CallFlush => r ← Flush; mret ((λ s, (LFlush s, AStatus s)) <$> r)
  | CallStats => st ← this GetStats; mret (Some (LStats st, AStats st))
  | CallClose => mret None
  end.

(** The call notifies the background thread. *)
Definition call_notifies (c : call) (db : DB) (a : answer) : bool :=
  match c, a with
  | CallWrite opts ops, AStatus s => wakes (batch_of ops) db (Some s)
  | _, _ => false
  end.

Definition lock (i : tid) (s : process) : option process :=
  match p_mutex s with None => Some (set_mutex (Some i) s) | Some _ => None end.

(** [bg_thread_.joinable()] and the thread still running. *)
Definition join_blocks (s : process) : bool :=
  bg_thread_ (p_db s) && match p_bg s with BNone | BExited => false | _ => true end.

Definition client_step (t : nat) (s : process) : option (event * process) :=
  match p_clients s t with
  | Idle => None
  | Entering c => s' ← lock (TClient t) s; Some (EvTau, set_pc t (Inside c) s')
  | Inside CallClose =>
      if closed_ (p_db s) then
        Some (EvBody t LCloseAgain, set_pc t (Leaving CallClose (AStatus OK)) s)
      else
        let s' := notify (set_object (Close_begin (p_db s, p_world s)).2 s) in
        Some (EvBody t LShutdown, set_pc t Parting s')
  | Inside c =>
      match call_body c (p_db s, p_world s) with
      | (None, _) => None
      | (Some (l, a), dw) =>
          let s' := set_pc t (Leaving c a) (set_object dw s) in
          Some (EvBody t l, if call_notifies c (p_db s) a then notify s' else s')
      end
  | Leaving c a => Some (EvReturn t a, set_pc t Idle (set_mutex None s))
  | Parting => Some (EvTau, set_pc t Joining (set_mutex None s))
  | Joining => if join_blocks s then None else Some (EvTau, set_pc t Returning s)
  | Returning => s' ← lock (TClient t) s; Some (EvTau, set_pc t Closing s')
  | Closing =>
      let '(r, dw) := Close_finish (p_db s, p_world s) in
      Some (EvBody t (LClose r), set_pc t (Leaving CallClose (AStatus r)) (set_object dw s))
  end.

(** [bg_cv_.wait(lock, predicate)], the test after it, and one round. *)
Definition bg_step (s : process) : option (event * process) :=
  match p_bg s with
  | BNone | BAsleep | BExited => None
  | BWaking => s' ← lock TBg s; Some (EvTau, set_bgpc BTesting s')
  | BTesting =>
      if shutting_down_ (p_db s) || bg_work_requested_ (p_db s)
      then Some (EvTau, set_bgpc BWorking s)
      else Some (EvTau, set_bgpc BAsleep (set_mutex None s))
  | BWorking =>
      if shutting_down_ (p_db s) then Some (EvBg LExit, set_bgpc BExited (set_mutex None s))
      else
        match BackgroundRound (p_db s, p_world s) with
        | (None, _) => None
        | (Some _, dw) => Some (EvBg LBackground, set_bgpc BTesting (set_object dw s))
        end
  end.

Definition thread_step (i : tid) (s : process) : option (event * process) :=
  match i with TBg => bg_step s | TClient t => client_step t s end.

(** ** Runs

    The scheduler lets a thread take its step, a client make a call, the
    background thread wake up without a notification, or nothing happen. *)
Inductive action := Sched (i : tid) | Call (t : nat) (c : call) | Spurious | Stutter.

Definition call_ok (c : call) : bool :=
  match c with CallWrite _ ops => bool_decide (ops ≠ []) | _ => true end.

Definition next (a : action) (s : process) : option (event * process) :=
  match a with
  | Sched i => thread_step i s
  | Call t c =>
      match p_clients s t with
      | Idle => if call_ok c then Some (EvCall t c, set_pc t (Entering c) s) else None
      | _ => None
      end
  | Spurious => match p_bg s with BAsleep => Some (EvTau, set_bgpc BWaking s) | _ => None end
  | Stutter => Some (EvTau, s)
  end.

(** An infinite run. *)
Definition is_run (σ : nat → process) (acts : nat → action) : Prop :=
  ∀ n, snd <$> next (acts n) (σ n) = Some (σ (S n)).

(** The scheduler is fair: a thread is scheduled again, or from some time on it
    has no step to take.  For a thread waiting for the mutex this says that the
    mutex does not pass it over for ever. *)
Definition fair (σ : nat → process) (acts : nat → action) : Prop :=
  ∀ i n, ∃ m, (n ≤ m)%nat ∧
    (acts m = Sched i ∨ ∀ k, (m ≤ k)%nat → thread_step i (σ k) = None).
End threads.

(** The process when [Open] has returned [db]. *)
Definition start (db : DB) (w : World) : process :=
  mkProcess db w None (if bg_thread_ db then BWaking else BNone) (λ _, Idle).

(** ** Invariants *)

Definition bg_running (b : bg_pc) : bool := match b with BNone | BExited => false | _ => true end.

Definition bg_holds (b : bg_pc) : bool := match b with BTesting | BWorking => true | _ => false end.
Definition client_holds (pc : client_pc) : bool :=
  match pc with Inside _ | Leaving _ _ | Parting | Closing => true | _ => false end.
(** The thread is in a critical section. *)
Definition holds (i : tid) (s : process) : bool :=
  match i with TBg => bg_holds (p_bg s) | TClient t => client_holds (p_clients s t) end.

(** In [Close], past its first critical section. *)
Definition in_close (pc : client_pc) : bool :=
  match pc with Parting | Joining | Returning | Closing => true | _ => false end.
Definition joined (pc : client_pc) : bool :=
  match pc with Returning | Closing => true | _ => false end.

(** What the pcs say about the flags. *)
Record coherent (f : flags) (b : bg_pc) (pcs : nat → client_pc) : Prop := {
  co_asleep : b = BAsleep → fl_down f = false ∧ fl_requested f = false;
  co_working : b = BWorking → fl_down f = false → fl_requested f = true;
  co_running : bg_running b = true → fl_thread f = true;
  co_exited : b = BExited → fl_down f = true;
  co_closing t : in_close (pcs t) = true → fl_down f = true;
  co_joined t : joined (pcs t) = true → bg_running b = false;
  co_closed : fl_closed f = true → fl_down f = true ∧ bg_running b = false;
}.

Record inv (s : process) : Prop := {
  inv_mutex i : holds i s = bool_decide (p_mutex s = Some i);
  inv_coherent : coherent (flags_of (p_db s)) (p_bg s) (p_clients s);
}.

(** ** Lemmas: the invariant *)

Lemma bg_running_spec b : bg_running b = false → b = BNone ∨ b = BExited.
Proof. destruct b; auto; discriminate. Qed.

Section invariant.
Context {O : Oracle}.

Lemma call_body_flags c db w l a db' w' : call_body c (db, w) = (Some (l, a), (db', w')) →
  flags_of db' = (if call_notifies c db a then fl_write else id) (flags_of db).
Proof.
  unfold call_body. destruct c; rewrite ?run_bind.
  - destruct (Write opts (batch_of ops) (db, w)) as [[r|] [db1 w1]] eqn:E; [|done].
    intros [= <- <- <- <-]. cbn. by eapply Write_flags.
  - pose proof (Get_keeps key value (db, w)) as H. destruct (Get key value (db, w)) as [r [db1 w1]].
    intros [= <- <- <- <-]. cbn in *. by rewrite H.
  - pose proof (NewIterator_keeps (db, w)) as H. destruct (NewIterator (db, w)) as [r [db1 w1]].
    intros [= <- <- <- <-]. cbn in *. by rewrite H.
  - pose proof (Flush_keeps (db, w)) as H. destruct (Flush (db, w)) as [[r|] [db1 w1]]; [|done].
    intros [= <- <- <- <-]. by cbn in *.
  - by intros [= <- <- <- <-].
  - done.
Qed.

Lemma client_holds_insert t t' pc pcs : client_holds ((<[t := pc]> pcs : nat → client_pc) t') =
  if decide (t = t') then client_holds pc else client_holds (pcs t').
Proof. destruct (decide (t = t')) as [<-|]; [by rewrite fn_lookup_insert|by rewrite fn_lookup_insert_ne]. Qed.

(** A thread that takes, keeps or gives up the mutex. *)
Lemma mutex_set_pc t pc s m : (∀ i, holds i s = bool_decide (p_mutex s = Some i)) →
  m = p_mutex s ∧ client_holds pc = holds (TClient t) s ∨
  m = Some (TClient t) ∧ p_mutex s = None ∧ client_holds pc = true ∨
  m = None ∧ p_mutex s = Some (TClient t) ∧ client_holds pc = false →
  ∀ i, holds i (set_pc t pc (set_mutex m s)) = bool_decide (m = Some i).
Proof.
  intros H Hm [|t']; cbn [holds set_pc set_mutex p_bg p_clients].
  - specialize (H TBg). cbn in H. rewrite H.
    destruct Hm as [[-> _]|[(-> & E & _)|(-> & E & _)]]; rewrite ?E; done.
  - rewrite client_holds_insert. pose proof (H (TClient t')) as Ht'. cbn [holds] in Ht'.
    destruct (decide (t = t')) as [<-|Hne].
    + destruct Hm as [[-> ->]|[(-> & E & ->)|(-> & E & ->)]]; [done|by rewrite bool_decide_true|done].
    + rewrite Ht'. destruct Hm as [[-> _]|[(-> & E & _)|(-> & E & _)]]; [done| |];
        rewrite ?E; apply bool_decide_ext; naive_solver.
Qed.

Lemma mutex_set_bgpc b s m : (∀ i, holds i s = bool_decide (p_mutex s = Some i)) →
  m = p_mutex s ∧ bg_holds b = holds TBg s ∨
  m = Some TBg ∧ p_mutex s = None ∧ bg_holds b = true ∨
  m = None ∧ p_mutex s = Some TBg ∧ bg_holds b = false →
  ∀ i, holds i (set_bgpc b (set_mutex m s)) = bool_decide (m = Some i).
Proof.
  intros H Hm [|t']; cbn [holds set_bgpc set_mutex p_bg p_clients].
  - specialize (H TBg). cbn [holds] in *.
    destruct Hm as [[-> ->]|[(-> & E & ->)|(-> & E & ->)]]; [done|by rewrite bool_decide_true|done].
  - pose proof (H (TClient t')) as Ht'. cbn [holds] in Ht'. rewrite Ht'.
    destruct Hm as [[-> _]|[(-> & E & _)|(-> & E & _)]]; [done| |]; rewrite ?E; apply bool_decide_ext; naive_solver.
Qed.

Lemma holds_notify i s : holds i (notify s) = holds i s.
Proof. unfold notify. destruct (p_bg s) eqn:E, i; cbn; by rewrite ?E. Qed.
Lemma mutex_notify s : p_mutex (notify s) = p_mutex s.
Proof. unfold notify. by destruct (p_bg s). Qed.
Lemma clients_notify s : p_clients (notify s) = p_clients s.
Proof. unfold notify. by destruct (p_bg s). Qed.
Lemma db_notify s : p_db (notify s) = p_db s ∧ p_world (notify s) = p_world s.
Proof. unfold notify. by destruct (p_bg s). Qed.

Definition wake (b : bg_pc) : bg_pc := match b with BAsleep => BWaking | _ => b end.
Lemma bg_notify s : p_bg (notify s) = wake (p_bg s).
Proof. unfold notify. by destruct (p_bg s) eqn:E; cbn; rewrite ?E. Qed.
Lemma wake_running b : bg_running (wake b) = bg_running b.
Proof. by destruct b. Qed.

Lemma coherent_pc f b pcs t pc : coherent f b pcs → (in_close pc = true → fl_down f = true) →
  (joined pc = true → bg_running b = false) → coherent f b (<[t := pc]> pcs).
Proof.
  intros [] H1 H2. split; try done; intros t'; destruct (decide (t = t')) as [<-|];
    rewrite ?fn_lookup_insert, ?fn_lookup_insert_ne by done; eauto.
Qed.
Lemma coherent_write f b pcs : coherent f b pcs → coherent (fl_write f) (wake b) pcs.
Proof. intros []. split; destruct b; naive_solver. Qed.
Lemma coherent_begin f b pcs : coherent f b pcs → coherent (fl_begin f) (wake b) pcs.
Proof. intros []. split; destruct b; naive_solver. Qed.
Lemma coherent_finish f b pcs : coherent f b pcs → fl_down f = true → bg_running b = false →
  coherent (fl_finish f) b pcs.
Proof. intros [] ? ?. split; destruct b; naive_solver. Qed.
Lemma coherent_round f pcs : coherent f BWorking pcs → fl_down f = false →
  coherent (fl_round f) BTesting pcs.
Proof. intros [] ?. split; cbn in *; naive_solver. Qed.
Lemma coherent_bg f b b' pcs : coherent f b pcs → bg_running b = true →
  (b' = BAsleep → fl_down f = false ∧ fl_requested f = false) →
  (b' = BWorking → fl_down f = false → fl_requested f = true) →
  b' ≠ BNone → (b' = BExited → fl_down f = true) → coherent f b' pcs.
Proof.
  intros [] Hr ? ? ? ?. split; try done.
  - auto.
  - intros t Ht. specialize (co_joined0 t Ht). congruence.
  - intros Hc. destruct (co_closed0 Hc). congruence.
Qed.

Lemma coherent_asleep_false f b pcs : coherent f b pcs → fl_down f || fl_requested f = true → b ≠ BAsleep.
Proof. intros [H] Hf ->. destruct (H eq_refl) as [E1 E2]. by rewrite E1, E2 in Hf. Qed.

Lemma lock_Some i s s' : lock i s = Some s' → p_mutex s = None ∧ s' = set_mutex (Some i) s.
Proof. unfold lock. destruct (p_mutex s); [done|]. by intros [= <-]. Qed.

Lemma set_mutex_same s : set_mutex (p_mutex s) s = s.
Proof. by destruct s. Qed.

(** The invariant after a step that moves one client. *)
Lemma inv_client t pc s m : inv s →
  m = p_mutex s ∧ client_holds pc = holds (TClient t) s ∨
  m = Some (TClient t) ∧ p_mutex s = None ∧ client_holds pc = true ∨
  m = None ∧ p_mutex s = Some (TClient t) ∧ client_holds pc = false →
  (in_close pc = true → shutting_down_ (p_db s) = true) →
  (joined pc = true → bg_running (p_bg s) = false) → inv (set_pc t pc (set_mutex m s)).
Proof.
  intros [Hm Hc] Hpc H1 H2. split; [by apply mutex_set_pc|]. by apply coherent_pc.
Qed.
Lemma inv_client_same t pc s : inv s → client_holds pc = holds (TClient t) s →
  (in_close pc = true → shutting_down_ (p_db s) = true) →
  (joined pc = true → bg_running (p_bg s) = false) → inv (set_pc t pc s).
Proof. intros. rewrite <- (set_mutex_same s). apply inv_client; auto. Qed.

(** The holder of the mutex changes the object, and may notify. *)
Lemma inv_object s dw f : inv s → flags_of dw.1 = f (flags_of (p_db s)) →
  coherent (f (flags_of (p_db s))) (p_bg s) (p_clients s) → inv (set_object dw s).
Proof. intros [Hm Hc] Ef Hf. split; [done|]. cbn. by rewrite Ef. Qed.
Lemma inv_notify s dw f : inv s → flags_of dw.1 = f (flags_of (p_db s)) →
  coherent (f (flags_of (p_db s))) (wake (p_bg s)) (p_clients s) → inv (notify (set_object dw s)).
Proof.
  intros [Hm Hc] Ef Hf. split.
  - intros i. rewrite holds_notify, mutex_notify. apply Hm.
  - rewrite bg_notify, clients_notify, (proj1 (db_notify _)). cbn. by rewrite Ef.
Qed.

Lemma notify_set_pc t pc s : notify (set_pc t pc s) = set_pc t pc (notify s).
Proof. unfold notify. cbn. by destruct (p_bg s). Qed.

Lemma mutex_of i s : inv s → holds i s = true → p_mutex s = Some i.
Proof. intros [H _] E. rewrite H in E. by apply bool_decide_eq_true in E. Qed.

Lemma client_step_inv t s e s' : inv s → client_step t s = Some (e, s') → inv s'.
Proof.
  intros Hi. unfold client_step. destruct (p_clients s t) as [|c|c|c a| | | |] eqn:Epc; [done| |..].
  - intros H. apply bind_Some in H as (s1 & [E ->]%lock_Some & [= <- <-]). apply inv_client; [done|auto|done|done].
  - assert (∀ c', client_holds (Leaving c' (AStatus OK)) = holds (TClient t) s) as Hh by (intros; cbn; by rewrite Epc).
    assert (∀ f a dw, flags_of dw.1 = f (flags_of (p_db s)) →
      coherent (f (flags_of (p_db s))) (p_bg s) (p_clients s) →
      inv (set_pc t (Leaving c a) (set_object dw s))) as Hobj.
    { intros f a dw E1 E2. apply inv_client_same; [by eapply inv_object|cbn; by rewrite Epc|done|done]. }
    assert (∀ l a dw, call_body c (p_db s, p_world s) = (Some (l, a), dw) →
      inv (if call_notifies c (p_db s) a then notify (set_pc t (Leaving c a) (set_object dw s))
           else set_pc t (Leaving c a) (set_object dw s))) as Hbody.
    { intros l a [db' w'] E%call_body_flags. destruct (call_notifies c (p_db s) a) eqn:Ec; [|by eapply (Hobj id), Hi].
      rewrite notify_set_pc. apply inv_client_same; [|rewrite holds_notify; cbn; by rewrite Epc|done|done].
      eapply inv_notify; [done|exact E|]. apply coherent_write, Hi. }
    destruct c; try (destruct (call_body _ _) as [[[l a]|] dw] eqn:E; [|done]; intros [= <- <-];
      by eapply Hbody).
    destruct (closed_ (p_db s)); intros [= <- <-]; [apply inv_client_same; [done|apply Hh|done|done]|].
    apply inv_client_same; [|rewrite holds_notify; cbn; by rewrite Epc|by rewrite (proj1 (db_notify _))|done].
    apply (inv_notify _ _ fl_begin); [done|done|]. apply coherent_begin, Hi.
  - intros [= <- <-]. apply inv_client; [done| |done|done]. right; right.
    split_and!; [done|apply mutex_of; [done|cbn; by rewrite Epc]|done].
  - intros [= <- <-]. apply inv_client; [done| | |done].
    + right; right. split_and!; [done|apply mutex_of; [done|cbn; by rewrite Epc]|done].
    + intros _. apply (co_closing _ _ _ (inv_coherent _ Hi) t). by rewrite Epc.
  - destruct (join_blocks s) eqn:Ej; [done|]. intros [= <- <-].
    apply inv_client_same; [done|cbn; by rewrite Epc| |]; intros _.
    + apply (co_closing _ _ _ (inv_coherent _ Hi) t). by rewrite Epc.
    + unfold join_blocks in Ej. fold (bg_running (p_bg s)) in Ej.
      destruct (bg_running (p_bg s)) eqn:Er; [|done].
      pose proof (co_running _ _ _ (inv_coherent _ Hi) Er) as Ht. cbn in Ht. by rewrite Ht in Ej.
  - intros H. apply bind_Some in H as (s1 & [E ->]%lock_Some & [= <- <-]). apply inv_client; [done|auto| |].
    + intros _. apply (co_closing _ _ _ (inv_coherent _ Hi) t). by rewrite Epc.
    + intros _. apply (co_joined _ _ _ (inv_coherent _ Hi) t). by rewrite Epc.
  - destruct (Close_finish _) as [r [db' w']] eqn:E. intros [= <- <-]. apply Close_finish_flags in E.
    apply inv_client_same; [|cbn; by rewrite Epc|done|done]. eapply inv_object; [done|exact E|].
    apply coherent_finish; [apply Hi| |].
    + apply (co_closing _ _ _ (inv_coherent _ Hi) t). by rewrite Epc.
    + apply (co_joined _ _ _ (inv_coherent _ Hi) t). by rewrite Epc.
Qed.

Lemma bg_step_inv s e s' : inv s → bg_step s = Some (e, s') → inv s'.
Proof.
  intros Hi. pose proof (inv_coherent _ Hi) as Hc. unfold bg_step.
  destruct (p_bg s) eqn:Eb; try done.
  - intros H. apply bind_Some in H as (s1 & [E ->]%lock_Some & [= <- <-]). split.
    + apply mutex_set_bgpc; [apply Hi|auto].
    + cbn. eapply coherent_bg; [done|..]; done.
  - assert (p_mutex s = Some TBg) as Hm by (apply mutex_of; [done|cbn; by rewrite Eb]).
    destruct (_ || _) eqn:Ew; intros [= <- <-].
    + rewrite <- (set_mutex_same s). split; [apply mutex_set_bgpc; [apply Hi|cbn; rewrite Eb; auto]|].
      cbn. eapply coherent_bg; [done|done|done| |done|done]. cbn. intros _ E. by rewrite E in Ew.
    + apply orb_false_iff in Ew. split; [apply mutex_set_bgpc; [apply Hi|auto]|].
      cbn. eapply coherent_bg; [done|..]; done.
  - assert (p_mutex s = Some TBg) as Hm by (apply mutex_of; [done|cbn; by rewrite Eb]).
    destruct (shutting_down_ _) eqn:Ed.
    + intros [= <- <-]. split; [apply mutex_set_bgpc; [apply Hi|auto]|].
      cbn. eapply coherent_bg; [done|..]; done.
    + destruct (BackgroundRound _) as [[r|] [db' w']] eqn:E; [|done]. intros [= <- <-].
      apply BackgroundRound_flags in E. split.
      * intros i. pose proof (inv_mutex _ Hi i) as H. destruct i; cbn [holds] in *; cbn; rewrite <- H; [by rewrite Eb|done].
      * cbn. rewrite E. by apply coherent_round.
Qed.

Lemma next_inv a s e s' : inv s → next a s = Some (e, s') → inv s'.
Proof.
  intros Hi. destruct a as [[|t]|t c| |]; cbn [next thread_step].
  - by apply bg_step_inv.
  - by apply client_step_inv.
  - destruct (p_clients s t) eqn:Epc; try done. destruct (call_ok c); [|done]. intros [= <- <-].
    apply inv_client_same; [done|cbn; by rewrite Epc|done|done].
  - destruct (p_bg s) eqn:Eb; try done. intros [= <- <-]. split.
    + rewrite <- (set_mutex_same s). apply mutex_set_bgpc; [apply Hi|cbn; rewrite Eb; auto].
    + cbn. pose proof (inv_coherent _ Hi) as Hc. rewrite Eb in Hc. eapply coherent_bg; [done|..]; done.
  - by intros [= <- <-].
Qed.

(** A fresh object: no work requested, not shutting down. *)
Lemma start_inv db w : closed_ db = false → inv (start db w).
Proof.
  intros Hcl. split.
  - intros [|t]; cbn; [by destruct (bg_thread_ db)|done].
  - unfold start. cbn. split; cbn; try done; destruct (bg_thread_ db); cbn; congruence.
Qed.
End invariant.

(** ** Threads refine critical sections *)

(** What the clients keep to: the data has room, batches fit, and no two
    threads are inside [Close] at a time (both would join the background
    thread). *)
Record disciplined (s : process) : Prop := {
  di_room : has_room (p_db s) [] = true;
  di_write t opts ops : p_clients s t = Inside (CallWrite opts ops) →
    batch_fits ops ∧ has_room (p_db s) ops = true;
  di_close t t' : in_close (p_clients s t) = true → in_close (p_clients s t') = true → t = t';
}.

Inductive trun `{O : Oracle} : process → list event → process → Prop :=
  | trun_nil s : trun s [] s
  | trun_cons a s e s' es s'' : disciplined s → next a s = Some (e, s') → trun s' es s'' →
      trun s (e :: es) s''.

(** The critical sections of a run, in order. *)
Definition event_labels (e : event) : list label :=
  match e with EvBody _ l | EvBg l => [l] | _ => [] end.
Definition labels (es : list event) : list label := concat (event_labels <$> es).

(** One thread as its caller sees it: no call, a call without its answer, an
    answer not yet returned. *)
Inductive pending := PNone | PCalled (c : call) | PDone (a : answer).
Definition pend (pc : client_pc) : pending :=
  match pc with
  | Idle => PNone
  | Entering c | Inside c => PCalled c
  | Leaving _ a => PDone a
  | _ => PCalled CallClose
  end.

(** The answer of a call whose critical section has the given label; [Close]
    has one before the last. *)
Inductive answers : call → label → option answer → Prop :=
  | an_write opts ops s : answers (CallWrite opts ops) (LWrite ops s) (Some (AStatus s))
  | an_get key value r : answers (CallGet key value) (LGet key value r) (Some (AGet r))
  | an_iterate l : answers CallIterate (LIterate l) (Some (AScan l))
  | an_flush s : answers CallFlush (LFlush s) (Some (AStatus s))
  | an_stats st : answers CallStats (LStats st) (Some (AStats st))
  | an_shutdown : answers CallClose LShutdown None
  | an_close s : answers CallClose (LClose s) (Some (AStatus s))
  | an_close_again : answers CallClose LCloseAgain (Some (AStatus OK)).

Definition event_thread (e : event) : option nat :=
  match e with EvCall t _ | EvBody t _ | EvReturn t _ => Some t | _ => None end.

(** Thread [t] calls, takes effect between call and return, and gets the
    answer of that effect. *)
Inductive thread_ok (t : nat) : pending → list event → pending → Prop :=
  | to_nil p : thread_ok t p [] p
  | to_call c es p : thread_ok t (PCalled c) es p → thread_ok t PNone (EvCall t c :: es) p
  | to_body c l a es p : answers c l (Some a) → thread_ok t (PDone a) es p →
      thread_ok t (PCalled c) (EvBody t l :: es) p
  | to_first c l es p : answers c l None → thread_ok t (PCalled c) es p →
      thread_ok t (PCalled c) (EvBody t l :: es) p
  | to_return a es p : thread_ok t PNone es p → thread_ok t (PDone a) (EvReturn t a :: es) p
  | to_other e es p p' : event_thread e ≠ Some t → thread_ok t p es p' → thread_ok t p (e :: es) p'.

(** The critical sections see the object, the disk and whether the background
    thread runs. *)
Definition sections (s : process) : system :=
  mkSystem (p_db s) (p_world s) (bg_running (p_bg s)).

(** A [Close] under way has not closed. *)
Definition unclosed (s : process) : Prop :=
  ∀ t, in_close (p_clients s t) = true → closed_ (p_db s) = false.

(** ** Lemmas: the simulation *)

Section simulation.
Context {O : Oracle}.

Lemma steps_one s l s' : step s l s' → steps s [l] s'.
Proof. intros. econstructor; [done|constructor]. Qed.
Lemma steps_app s ls s' ls' s'' : steps s ls s' → steps s' ls' s'' → steps s (ls ++ ls') s''.
Proof. induction 1; [done|]. intros. econstructor; eauto. Qed.

Lemma sections_notify s : sections (notify s) = sections s.
Proof.
  unfold sections. by rewrite bg_notify, wake_running, (proj1 (db_notify s)), (proj2 (db_notify s)).
Qed.

(** The body of a call is a step of the critical sections. *)
Lemma call_body_step t c s l a db' w' : disciplined s → p_clients s t = Inside c →
  call_body c (p_db s, p_world s) = (Some (l, a), (db', w')) →
  step (sections s) l (mkSystem db' w' (bg_running (p_bg s))).
Proof.
  intros [Hroom Hwr _] Epc. unfold call_body, sections. destruct c; rewrite ?run_bind.
  - destruct (Hwr _ _ _ Epc). destruct (Write opts (batch_of ops) _) as [[r|] [db1 w1]] eqn:E; [|done].
    intros [= <- <- <- <-]. by apply (step_write opts).
  - destruct (Get key value _) as [r [db1 w1]] eqn:E. intros [= <- <- <- <-]. by constructor.
  - destruct (NewIterator _) as [r [db1 w1]] eqn:E. intros [= <- <- <- <-]. by constructor.
  - destruct (Flush _) as [[r|] [db1 w1]] eqn:E; [|done]. intros [= <- <- <- <-]. by constructor.
  - intros [= <- <- <- <-]. constructor.
  - done.
Qed.

Lemma next_steps a s e s' : inv s → unclosed s → disciplined s → next a s = Some (e, s') →
  steps (sections s) (event_labels e) (sections s').
Proof.
  intros Hi Hu Hd. pose proof (inv_coherent _ Hi) as Hc. destruct a as [[|t]|t c| |]; cbn [next thread_step].
  - unfold bg_step. destruct (p_bg s) eqn:Eb; try done.
    + intros H. apply bind_Some in H as (s1 & [E ->]%lock_Some & [= <- <-]).
      unfold sections. cbn. rewrite Eb. constructor.
    + destruct (_ || _); intros [= <- <-]; unfold sections; cbn; rewrite Eb; constructor.
    + destruct (shutting_down_ (p_db s)) eqn:Ed.
      * intros [= <- <-]. unfold sections. cbn. rewrite Eb. by apply steps_one, step_exit.
      * destruct (BackgroundRound _) as [[r|] [db' w']] eqn:E; [|done]. intros [= <- <-].
        unfold sections. cbn. rewrite Eb. apply steps_one. eapply step_background; [apply Hd| |done|exact E].
        by apply (co_working _ _ _ Hc).
  - unfold client_step. destruct (p_clients s t) as [|c|c|c a| | | |] eqn:Epc; try done.
    + intros H. apply bind_Some in H as (s1 & [E ->]%lock_Some & [= <- <-]). constructor.
    + assert (∀ l a dw, call_body c (p_db s, p_world s) = (Some (l, a), dw) →
        steps (sections s) [l] (sections (if call_notifies c (p_db s) a
          then notify (set_pc t (Leaving c a) (set_object dw s)) else set_pc t (Leaving c a) (set_object dw s)))) as Hb.
      { intros l a [db' w'] E. pose proof (call_body_step _ _ _ _ _ _ _ Hd Epc E) as Hs.
        apply steps_one. destruct (call_notifies _ _ _); [by rewrite sections_notify|done]. }
      destruct c; try (destruct (call_body _ _) as [[[l a]|] dw] eqn:E; [|done]; intros [= <- <-]; by apply Hb).
      destruct (closed_ (p_db s)) eqn:Ecl; intros [= <- <-]; apply steps_one; [by constructor|].
      unfold sections. cbn [set_pc p_db p_world p_bg]. rewrite bg_notify, wake_running.
      rewrite (proj1 (db_notify _)), (proj2 (db_notify _)). by constructor.
    + intros [= <- <-]. constructor.
    + intros [= <- <-]. constructor.
    + destruct (join_blocks s); [done|]. intros [= <- <-]. constructor.
    + intros H. apply bind_Some in H as (s1 & [E ->]%lock_Some & [= <- <-]). constructor.
    + destruct (Close_finish _) as [r [db' w']] eqn:E. intros [= <- <-]. apply steps_one.
      unfold sections. cbn. rewrite (co_joined _ _ _ Hc t) by by rewrite Epc.
      apply step_close; [apply Hd| |by apply (Hu t); rewrite Epc|done].
      apply (co_closing _ _ _ Hc t). by rewrite Epc.
  - destruct (p_clients s t); try done. destruct (call_ok c); [|done]. intros [= <- <-]. constructor.
  - destruct (p_bg s) eqn:Eb; try done. intros [= <- <-]. unfold sections. cbn. rewrite Eb. constructor.
  - intros [= <- <-]. constructor.
Qed.

(** The moves of a client. *)
Inductive moves (t : nat) : client_pc → event → client_pc → Prop :=
  | mv_lock c : moves t (Entering c) EvTau (Inside c)
  | mv_body c l a : answers c l (Some a) → moves t (Inside c) (EvBody t l) (Leaving c a)
  | mv_shutdown : moves t (Inside CallClose) (EvBody t LShutdown) Parting
  | mv_return c a : moves t (Leaving c a) (EvReturn t a) Idle
  | mv_unlock : moves t Parting EvTau Joining
  | mv_join : moves t Joining EvTau Returning
  | mv_relock : moves t Returning EvTau Closing
  | mv_close r : moves t Closing (EvBody t (LClose r)) (Leaving CallClose (AStatus r)).

Lemma call_body_answers c dw l a dw' : call_body c dw = (Some (l, a), dw') → answers c l (Some a).
Proof.
  unfold call_body. destruct c; rewrite ?run_bind.
  - destruct (Write opts (batch_of ops) dw) as [[r|] ?]; [|done]. intros [= <- <- _]. constructor.
  - destruct (Get key value dw). intros [= <- <- _]. constructor.
  - destruct (NewIterator dw). intros [= <- <- _]. constructor.
  - destruct (Flush dw) as [[r|] ?]; [|done]. intros [= <- <- _]. constructor.
  - intros [= <- <- _]. constructor.
  - done.
Qed.

Lemma set_pc_clients t pc s : p_clients (set_pc t pc s) t = pc.
Proof. apply fn_lookup_insert. Qed.

(** What a client's step does to the clients. *)
Lemma client_step_moves t s e s' : client_step t s = Some (e, s') →
  moves t (p_clients s t) e (p_clients s' t) ∧
  ∀ t', t ≠ t' → p_clients s' t' = p_clients s t'.
Proof.
  assert (∀ pc e s1, p_clients s1 = p_clients s → moves t (p_clients s t) e pc →
    moves t (p_clients s t) e (p_clients (set_pc t pc s1) t) ∧
    ∀ t', t ≠ t' → p_clients (set_pc t pc s1) t' = p_clients s t') as Hset.
  { intros pc e1 s1 E Hm. rewrite set_pc_clients. split; [done|]. intros t' Hne. cbn.
    by rewrite fn_lookup_insert_ne, E. }
  unfold client_step. destruct (p_clients s t) as [|c|c|c a| | | |] eqn:Epc; try done.
  - intros H. apply bind_Some in H as (s1 & [E ->]%lock_Some & [= <- <-]). apply Hset; constructor.
  - assert (∀ l a dw, call_body c (p_db s, p_world s) = (Some (l, a), dw) →
      let s' := if call_notifies c (p_db s) a then notify (set_pc t (Leaving c a) (set_object dw s))
        else set_pc t (Leaving c a) (set_object dw s) in
      moves t (Inside c) (EvBody t l) (p_clients s' t) ∧ ∀ t', t ≠ t' → p_clients s' t' = p_clients s t') as Hb.
    { intros l a dw E%call_body_answers. destruct (call_notifies _ _ _); cbv zeta; rewrite ?notify_set_pc;
        (apply Hset; [by rewrite ?clients_notify|by constructor]). }
    destruct c; try (destruct (call_body _ _) as [[[l a]|] dw] eqn:E; [|done]; intros [= <- <-]; by apply Hb).
    destruct (closed_ _); intros [= <- <-]; apply Hset; rewrite ?clients_notify; try done; repeat constructor.
  - intros [= <- <-]. apply Hset; constructor.
  - intros [= <- <-]. apply Hset; constructor.
  - destruct (join_blocks s); [done|]. intros [= <- <-]. apply Hset; constructor.
  - intros H. apply bind_Some in H as (s1 & [E ->]%lock_Some & [= <- <-]). apply Hset; constructor.
  - destruct (Close_finish _) as [r dw]. intros [= <- <-]. apply Hset; constructor.
Qed.

Lemma bg_step_clients s e s' : bg_step s = Some (e, s') → p_clients s' = p_clients s ∧ event_thread e = None.
Proof.
  unfold bg_step. destruct (p_bg s); try done.
  - intros H. by apply bind_Some in H as (s1 & [E ->]%lock_Some & [= <- <-]).
  - destruct (_ || _); by intros [= <- <-].
  - destruct (shutting_down_ _); [by intros [= <- <-]|].
    destruct (BackgroundRound _) as [[r|] dw]; [|done]. by intros [= <- <-].
Qed.

Lemma next_thread_ok a s e s' t es p : next a s = Some (e, s') →
  thread_ok t (pend (p_clients s' t)) es p → thread_ok t (pend (p_clients s t)) (e :: es) p.
Proof.
  destruct a as [[|t1]|t1 c| |]; cbn [next thread_step].
  - intros [E He]%bg_step_clients. rewrite E. intros. apply to_other; [by rewrite He|done].
  - intros [Hm Hother]%client_step_moves Hok. destruct (decide (t1 = t)) as [->|Hne].
    + destruct Hm; cbn [pend] in *; try (apply to_other; [done|done]).
      * by eapply to_body.
      * eapply to_first; [constructor|done].
      * by apply to_return.
      * eapply to_body; [constructor|done].
    + rewrite <- Hother by done. apply to_other; [|done]. destruct Hm; cbn; congruence.
  - destruct (p_clients s t1) eqn:Epc; try done. destruct (call_ok c); [|done]. intros [= <- <-].
    destruct (decide (t1 = t)) as [->|Hne].
    + rewrite set_pc_clients, Epc. apply to_call.
    + cbn. rewrite fn_lookup_insert_ne by done. apply to_other. cbn. congruence.
  - destruct (p_bg s); try done. intros [= <- <-]. by apply to_other.
  - intros [= <- <-]. by apply to_other.
Qed.

(** What a client's step does to the flags and the background thread. *)
Lemma client_step_flags t s e s' : client_step t s = Some (e, s') →
  ∃ f, flags_of (p_db s') = f (flags_of (p_db s)) ∧
    match p_clients s t with
    | Inside c =>
        (f = id ∧ p_bg s' = p_bg s ∨ (f = fl_write ∨ f = fl_begin) ∧ p_bg s' = wake (p_bg s)) ∧
        (in_close (p_clients s' t) = true → closed_ (p_db s) = false)
    | Closing => f = fl_finish ∧ p_bg s' = p_bg s
    | _ => f = id ∧ p_db s' = p_db s ∧ p_bg s' = p_bg s
    end.
Proof.
  unfold client_step. destruct (p_clients s t) as [|c|c|c a| | | |] eqn:Epc; try done.
  - intros H. apply bind_Some in H as (s1 & [E ->]%lock_Some & [= <- <-]). by exists id.
  - assert (∀ l a dw, call_body c (p_db s, p_world s) = (Some (l, a), dw) →
      let s' := if call_notifies c (p_db s) a then notify (set_pc t (Leaving c a) (set_object dw s))
        else set_pc t (Leaving c a) (set_object dw s) in
      ∃ f, flags_of (p_db s') = f (flags_of (p_db s)) ∧
        (f = id ∧ p_bg s' = p_bg s ∨ (f = fl_write ∨ f = fl_begin) ∧ p_bg s' = wake (p_bg s)) ∧
        (in_close (p_clients s' t) = true → closed_ (p_db s) = false)) as Hb.
    { intros l a [db' w'] E%call_body_flags. destruct (call_notifies _ _ _); cbv zeta.
      - exists fl_write. rewrite clients_notify, set_pc_clients, bg_notify, (proj1 (db_notify _)).
        split_and!; [done|right; auto|done].
      - exists id. rewrite set_pc_clients. split_and!; [done|by left|done]. }
    destruct c; try (destruct (call_body _ _) as [[[l a]|] dw] eqn:E; [|done]; intros [= <- <-]; by eapply Hb).
    destruct (closed_ _) eqn:Ecl; intros [= <- <-]; rewrite set_pc_clients.
    { exists id. split_and!; [done|by left|done]. }
    exists fl_begin. cbn [set_pc p_db p_bg]. rewrite bg_notify, (proj1 (db_notify _)).
    split_and!; [done|right; auto|done].
  - intros [= <- <-]. by exists id.
  - intros [= <- <-]. by exists id.
  - destruct (join_blocks s); [done|]. intros [= <- <-]. by exists id.
  - intros H. apply bind_Some in H as (s1 & [E ->]%lock_Some & [= <- <-]). by exists id.
  - destruct (Close_finish _) as [r [db' w']] eqn:E. intros [= <- <-]. apply Close_finish_flags in E.
    by exists fl_finish.
Qed.

Lemma bg_step_flags s e s' : bg_step s = Some (e, s') →
  flags_of (p_db s') = flags_of (p_db s) ∨
  p_bg s = BWorking ∧ p_bg s' = BTesting ∧ flags_of (p_db s') = fl_round (flags_of (p_db s)).
Proof.
  unfold bg_step. destruct (p_bg s); try done.
  - intros H. apply bind_Some in H as (s1 & [E ->]%lock_Some & [= <- <-]). by left.
  - destruct (_ || _); intros [= <- <-]; by left.
  - destruct (shutting_down_ _); [intros [= <- <-]; by left|].
    destruct (BackgroundRound _) as [[r|] [db' w']] eqn:E; [|done]. intros [= <- <-].
    right. by apply BackgroundRound_flags in E.
Qed.

(** [closed_] changes in the last critical section of [Close] only. *)
Lemma next_unclosed a s e s' : unclosed s → disciplined s → next a s = Some (e, s') → unclosed s'.
Proof.
  intros Hu Hd. destruct a as [[|t]|t c| |]; cbn [next thread_step].
  - intros E t Ht. rewrite (proj1 (bg_step_clients _ _ _ E)) in Ht. specialize (Hu t Ht).
    destruct (bg_step_flags _ _ _ E) as [Ef|(_ & _ & Ef)]; apply (f_equal fl_closed) in Ef; cbn in *; congruence.
  - intros E t' Ht. destruct (client_step_moves _ _ _ _ E) as [Hm Hother].
    destruct (client_step_flags _ _ _ _ E) as (f & Ef & Hf). apply (f_equal fl_closed) in Ef. cbn in Ef.
    rewrite Ef. clear Ef E. specialize (Hu t').
    destruct (decide (t = t')) as [<-|Hne]; [clear Hother|rewrite Hother in Ht by done; specialize (Hu Ht)].
    + destruct Hm; try done; destruct Hf as [Hf1 Hf2]; [|subst f; by apply Hu..].
      specialize (Hf2 Ht). by destruct Hf1 as [[-> _]|[[->| ->] _]].
    + pose proof (di_close _ Hd t t') as Hone. destruct Hm; cbn in *.
      all: try (destruct Hf as [-> _]; done).
      all: try (destruct Hf as [[[-> _]|[[->| ->] _]] _]; done).
      by destruct Hne, Hone.
  - destruct (p_clients s t) eqn:Epc; try done. destruct (call_ok c); [|done]. intros [= <- <-] t' Ht.
    apply (Hu t'). destruct (decide (t = t')) as [<-|]; [by rewrite set_pc_clients in Ht|].
    cbn in Ht. by rewrite fn_lookup_insert_ne in Ht.
  - destruct (p_bg s); try done. by intros [= <- <-].
  - by intros [= <- <-].
Qed.

Lemma trun_steps s es s' : trun s es s' → inv s → unclosed s →
  steps (sections s) (labels es) (sections s') ∧ inv s' ∧ unclosed s'.
Proof.
  induction 1 as [|a s e s' es s'' Hd Hn _ IH]; intros Hi Hu; [split; [constructor|done]|].
  destruct IH as (Hs & ? & ?); [by eapply next_inv|by eapply next_unclosed|]. split; [|done].
  unfold labels in *. cbn. eapply steps_app; [|done]. by eapply next_steps.
Qed.

Lemma trun_thread_ok t s es s' : trun s es s' →
  thread_ok t (pend (p_clients s t)) es (pend (p_clients s' t)).
Proof. induction 1 as [|a s e s' es s'' _ Hn _ IH]; [constructor|]. by eapply next_thread_ok. Qed.
End simulation.
