(* ===== verification/Liveness.v ===== *)
(** * Progress of the threads

    Under a fair scheduler, with clients that keep to [disciplined] and a
    positive compaction trigger, whatever I/O fails: the mutex is always
    released, a thread that waits for it gets it, the background thread ends
    after a shutdown, and every call returns. *)

From stdpp Require Import functions.
From S2P Require Import Prelude Slice Status OrderedMap MemTable WriteBatch FileSystem Wal.
From S2P Require Import SSTable SSTableSpec Version DB DBPaths Layers DBInv DBFlush DBReaders.
From S2P Require Import Merge DBCompact DBRead DBWrite DBOpen DBSpec Frame Concurrency Threads.

Definition is_sched (i : tid) (a : action) : bool :=
  match a with Sched j => bool_decide (i = j) | _ => false end.
Lemma is_sched_true i a : is_sched i a = true ↔ a = Sched i.
Proof.
  destruct a; cbn; rewrite ?bool_decide_eq_true; split; intros H; congruence.
Qed.

(** Steps to the next release of the mutex by its holder. *)
Definition bg_rank (f : flags) (b : bg_pc) : nat :=
  match b with
  | BTesting => if fl_down f || fl_requested f then 3 else 1
  | BWorking => 2
  | _ => 0
  end.
Definition client_rank (pc : client_pc) : nat :=
  match pc with Inside _ | Closing => 2 | Leaving _ _ | Parting => 1 | _ => 0 end.
Definition rank (i : tid) (s : process) : nat :=
  match i with
  | TBg => bg_rank (flags_of (p_db s)) (p_bg s)
  | TClient t => client_rank (p_clients s t)
  end.

(** ** Lemmas: one step *)

Section steps.
Context {O : Oracle}.

Lemma holder i s : inv s → p_mutex s = Some i → holds i s = true.
Proof. intros [H _] E. by rewrite H, bool_decide_true. Qed.
Lemma not_holder i j s : inv s → p_mutex s = Some i → i ≠ j → holds j s = false.
Proof. intros [H _] E Hne. rewrite H, E. apply bool_decide_eq_false_2. congruence. Qed.

(** What the holder of the mutex relies on when others move. *)
Record same_for (i : tid) (s s' : process) : Prop := {
  sf_db : p_db s' = p_db s;
  sf_mutex : p_mutex s' = p_mutex s;
  sf_bg : i = TBg → p_bg s' = p_bg s;
  sf_client t : i = TClient t → p_clients s' t = p_clients s t;
}.

Lemma other_step i a s e s' : inv s → p_mutex s = Some i → next a s = Some (e, s') → a ≠ Sched i →
  same_for i s s'.
Proof.
  intros Hi Hm. destruct a as [[|t]|t c| |]; cbn [next thread_step]; intros E Hne.
  - pose proof (not_holder i TBg s Hi Hm ltac:(congruence)) as Hh. unfold bg_step, lock in E. cbn in Hh.
    destruct (p_bg s); try done. by rewrite Hm in E.
  - pose proof (not_holder i (TClient t) s Hi Hm ltac:(congruence)) as Hh. unfold client_step, lock in E.
    cbn in Hh. rewrite Hm in E. destruct (p_clients s t) eqn:Epc; try done.
    destruct (join_blocks s); [done|]. injection E as <- <-. split; try done.
    intros t' ->. cbn. rewrite fn_lookup_insert_ne; [done|congruence].
  - destruct (p_clients s t) eqn:Epc; try done. destruct (call_ok c); [|done]. injection E as <- <-.
    split; try done. intros t' ->. cbn. rewrite fn_lookup_insert_ne; [done|].
    intros ->. pose proof (holder _ _ Hi Hm) as Hh. cbn in Hh. by rewrite Epc in Hh.
  - destruct (p_bg s) eqn:Eb; try done. injection E as <- <-. split; try done. intros ->.
    pose proof (holder _ _ Hi Hm) as Hh. cbn in Hh. by rewrite Eb in Hh.
  - injection E as <- <-. by split.
Qed.

Lemma same_rank i s s' : same_for i s s' → rank i s' = rank i s.
Proof.
  intros [Hd _ Hb Hc]. destruct i as [|t]; cbn [rank]; [by rewrite Hd, Hb|by rewrite (Hc t)].
Qed.

(** The holder's own step releases the mutex or comes closer to it. *)
Lemma holder_step i s e s' : inv s → p_mutex s = Some i → thread_step i s = Some (e, s') →
  p_mutex s' = None ∨ p_mutex s' = Some i ∧ (rank i s' < rank i s)%nat.
Proof.
  intros Hi Hm. pose proof (holder _ _ Hi Hm) as Hh. destruct i as [|t]; cbn [thread_step holds rank] in *.
  - unfold bg_step. destruct (p_bg s) eqn:Eb; try done.
    + destruct (_ || _) eqn:Ew; intros [= <- <-]; [right|by left]. cbn. rewrite Ew. split; [done|lia].
    + destruct (shutting_down_ (p_db s)) eqn:Ed; [intros [= <- <-]; by left|].
      destruct (BackgroundRound _) as [[r|] [db' w']] eqn:E; [|done]. intros [= <- <-]. right.
      apply BackgroundRound_flags in E. cbn [p_mutex p_bg p_db set_bgpc set_object bg_rank fst]. rewrite E. cbn.
      rewrite Ed. cbn. split; [done|lia].
  - intros E. destruct (client_step_moves _ _ _ _ E) as [Hmv _]. revert E. unfold client_step.
    destruct (p_clients s t) as [|c|c|c a| | | |] eqn:Epc; try done.
    + assert (∀ pc s0, client_rank pc = 1%nat → p_mutex s0 = p_mutex s →
        p_mutex (set_pc t pc s0) = None ∨ p_mutex (set_pc t pc s0) = Some (TClient t) ∧
        (client_rank (p_clients (set_pc t pc s0) t) < client_rank (Inside c))%nat) as Hset.
      { intros pc s0 Hpc E0. right. rewrite set_pc_clients. cbn. rewrite E0. split; [done|lia]. }
      assert (∀ (b : bool) a dw, let s' := if b then notify (set_pc t (Leaving c a) (set_object dw s))
          else set_pc t (Leaving c a) (set_object dw s) in
        p_mutex s' = None ∨ p_mutex s' = Some (TClient t) ∧
        (client_rank (p_clients s' t) < client_rank (Inside c))%nat) as Hb.
      { intros [] a dw; cbv zeta; rewrite ?notify_set_pc; apply Hset; rewrite ?mutex_notify; done. }
      destruct c; try (destruct (call_body _ _) as [[[l a]|] dw]; [|done]; intros [= <- <-]; first [apply (Hb false)|apply Hb]).
      destruct (closed_ _); intros [= <- <-]; apply Hset; rewrite ?mutex_notify; done.
    + intros [= <- <-]. by left.
    + intros [= <- <-]. by left.
    + destruct (Close_finish _) as [r dw]. intros [= <- <-]. right. rewrite set_pc_clients. cbn. split; [done|lia].
Qed.

(** A client in a call moves by its own steps only. *)
Lemma other_client t a s e s' : next a s = Some (e, s') → a ≠ Sched (TClient t) → p_clients s t ≠ Idle →
  p_clients s' t = p_clients s t.
Proof.
  destruct a as [[|t']|t' c| |]; cbn [next thread_step]; intros E Hne Hidle.
  - by rewrite (proj1 (bg_step_clients _ _ _ E)).
  - apply client_step_moves in E as [_ H]. apply H. congruence.
  - destruct (p_clients s t') eqn:Epc; try done. destruct (call_ok c); [|done]. injection E as <- <-.
    cbn. rewrite fn_lookup_insert_ne; [done|]. intros ->. congruence.
  - destruct (p_bg s); try done. by injection E as <- <-.
  - by injection E as <- <-.
Qed.

(** And so does the background thread, unless it is asleep. *)
Lemma other_bg a s e s' : next a s = Some (e, s') → a ≠ Sched TBg → p_bg s ≠ BAsleep →
  p_bg s' = p_bg s.
Proof.
  assert (∀ b, b ≠ BAsleep → wake b = b) as Hwake by by intros [].
  destruct a as [[|t]|t c| |]; cbn [next thread_step]; intros E Hne Hb; [done| |..].
  - destruct (client_step_flags _ _ _ _ E) as (f & _ & Hf).
    destruct (p_clients s t) eqn:Epc; try (by destruct Hf as (_ & _ & ->)).
    + destruct Hf as [[[_ ->]|[_ ->]] _]; auto.
    + by destruct Hf as [_ ->].
  - destruct (p_clients s t) eqn:Epc; try done. destruct (call_ok c); [|done]. by injection E as <- <-.
  - by destruct (p_bg s).
  - by injection E as <- <-.
Qed.

(** [shutting_down_] and [closed_] stay set; a request stays until a round. *)
Lemma flags_mono a s e s' : next a s = Some (e, s') →
  (shutting_down_ (p_db s) = true → shutting_down_ (p_db s') = true) ∧
  (closed_ (p_db s) = true → closed_ (p_db s') = true) ∧
  (bg_work_requested_ (p_db s) = true → bg_work_requested_ (p_db s') = true ∨
     a = Sched TBg ∧ p_bg s = BWorking).
Proof.
  assert (∀ f, flags_of (p_db s') = f (flags_of (p_db s)) →
    f = id ∨ f = fl_write ∨ f = fl_begin ∨ f = fl_finish →
    (shutting_down_ (p_db s) = true → shutting_down_ (p_db s') = true) ∧
    (closed_ (p_db s) = true → closed_ (p_db s') = true) ∧
    (bg_work_requested_ (p_db s) = true → bg_work_requested_ (p_db s') = true ∨
       a = Sched TBg ∧ p_bg s = BWorking)) as Hflags.
  { intros f Ef Hf. destruct Hf as [->|[->|[->| ->]]];
      unfold flags_of, fl_write, fl_begin, fl_finish, id in Ef; cbn in Ef;
      (split_and!; [congruence|congruence|intros; left; congruence]). }
  destruct a as [[|t]|t c| |]; cbn [next thread_step]; intros E.
  - destruct (bg_step_flags _ _ _ E) as [Ef|(Eb & _ & Ef)]; [apply (Hflags id); auto|].
    unfold flags_of, fl_round in Ef. cbn in Ef. split_and!; [congruence|congruence|auto].
  - destruct (client_step_flags _ _ _ _ E) as (f & Ef & Hf). apply (Hflags f Ef).
    destruct (p_clients s t); naive_solver.
  - destruct (p_clients s t) eqn:Epc; try done. destruct (call_ok c); [|done]. injection E as <- <-.
    apply (Hflags id); auto.
  - destruct (p_bg s); try done. injection E as <- <-. apply (Hflags id); auto.
  - injection E as <- <-. apply (Hflags id); auto.
Qed.

(** The holder of the mutex can go on. *)
Lemma call_body_returns t c s : well_formed (p_db s) (w_disk (p_world s)) →
  compaction_ok (options_ (p_db s)) → disciplined s → p_clients s t = Inside c → c ≠ CallClose →
  (call_body c (p_db s, p_world s)).1 ≠ None.
Proof.
  intros (tabs & Hok) Hc [Hroom Hwr _] Epc Hne. unfold call_body. destruct c; rewrite ?run_bind; try done.
  - destruct (Hwr _ _ _ Epc) as [Hb Hr]. cbn. destruct (closed_ (p_db s)) eqn:Ecl.
    { by rewrite write_closed. }
    pose proof (Write_spec (p_db s) tabs opts ops (p_world s) Hok Ecl Hb (has_room_write _ _ _ _ Hok Hr)) as H.
    unfold wp in H. destruct (Write opts (batch_of ops) _) as [r [db' w']]. cbn in *.
    destruct H as (applied & tabs' & []). specialize (wr_returns Hc). by destruct r.
  - pose proof (Flush_spec (p_db s) tabs (p_world s) Hok (has_room_limits _ _ _ Hok Hroom)) as H.
    unfold wp in H. destruct (Flush _) as [r [db' w']]. cbn in *.
    destruct H as (tabs' & (_ & _ & Hret & _) & _). specialize (Hret Hc). by destruct r.
Qed.

Lemma holder_enabled i s : inv s → well_formed (p_db s) (w_disk (p_world s)) →
  compaction_ok (options_ (p_db s)) → disciplined s → p_mutex s = Some i → thread_step i s ≠ None.
Proof.
  intros Hi Hwf Hc Hd Hm. pose proof (holder _ _ Hi Hm) as Hh. destruct i as [|t]; cbn in *.
  - unfold bg_step. destruct (p_bg s); try done; [by destruct (_ || _)|].
    destruct (shutting_down_ _); [done|]. destruct Hwf as (tabs & Hok).
    pose proof (BackgroundRound_spec (p_db s) tabs (p_world s) Hok (has_room_limits _ _ _ Hok (di_room _ Hd))) as H.
    unfold wp in H. destruct (BackgroundRound _) as [r [db' w']]. cbn in *.
    destruct H as (tabs' & _ & _ & _ & _ & _ & _ & _ & _ & _ & _ & Hret & _). specialize (Hret Hc). by destruct r.
  - unfold client_step. destruct (p_clients s t) as [|c|c|c a| | | |] eqn:Epc; try done.
    + pose proof (call_body_returns t c s Hwf Hc Hd Epc) as Hb.
      destruct c; try (destruct (call_body _ _) as [[[l a]|] dw]; [done|by destruct Hb]).
      by destruct (closed_ _).
    + by destruct (Close_finish _).
Qed.
End steps.

(** ** Lemmas: infinite runs *)

Section runs.
Context {O : Oracle} (σ : nat → process) (acts : nat → action).
Hypothesis (Hrun : is_run σ acts) (Hfair : fair σ acts).
Hypothesis (Hinv0 : inv (σ 0)) (Hun0 : unclosed (σ 0)).
Hypothesis (Hwf0 : well_formed (p_db (σ 0)) (w_disk (p_world (σ 0)))).
Hypothesis (Hcomp0 : compaction_ok (options_ (p_db (σ 0)))).
Hypothesis (Hdisc : ∀ n, disciplined (σ n)).

Lemma run_next n : ∃ e, next (acts n) (σ n) = Some (e, σ (S n)).
Proof.
  pose proof (Hrun n) as H. destruct (next (acts n) (σ n)) as [[e s]|]; [|done].
  injection H as <-. by exists e.
Qed.

Lemma run_invs n : inv (σ n) ∧ unclosed (σ n) ∧
  well_formed (p_db (σ n)) (w_disk (p_world (σ n))) ∧ compaction_ok (options_ (p_db (σ n))).
Proof.
  induction n as [|n (Hi & Hu & Hwf & Hc)]; [done|]. destruct (run_next n) as [e E].
  pose proof (next_steps _ _ _ _ Hi Hu (Hdisc n) E) as Hs.
  destruct (steps_well_formed _ _ _ Hs Hwf) as [Hwf' Eo]. cbn in *.
  split_and!; [by eapply next_inv|by eapply next_unclosed|done|by rewrite Eo].
Qed.

(** A thread that has a step again and again takes it; until then what the
    others cannot change stays. *)
Lemma scheduled i n (P : process → Prop) : P (σ n) →
  (∀ k, (n ≤ k)%nat → P (σ k) → acts k ≠ Sched i → P (σ (S k))) →
  (∀ m, (n ≤ m)%nat → (∀ k, (m ≤ k)%nat → P (σ k)) → ∃ k, (m ≤ k)%nat ∧ thread_step i (σ k) ≠ None) →
  ∃ m, (n ≤ m)%nat ∧ P (σ m) ∧ acts m = Sched i.
Proof.
  intros HP Hkeep Hen.
  assert (∀ d, (∃ m, (n ≤ m)%nat ∧ P (σ m) ∧ acts m = Sched i) ∨ P (σ (n + d)%nat)) as Hwalk.
  { induction d as [|d [?|IH]]; [right; by rewrite Nat.add_0_r|by left|].
    destruct (is_sched i (acts (n + d)%nat)) eqn:E.
    - apply is_sched_true in E. left. exists (n + d)%nat. split_and!; [lia|done|done].
    - right. rewrite Nat.add_succ_r. apply Hkeep; [lia|done|]. intros H%is_sched_true. congruence. }
  destruct (Hfair i n) as (m & Hm & [Hs|Hdis]).
  - destruct (Hwalk (m - n)%nat) as [?|Hp]; [done|]. exists m.
    replace (n + (m - n))%nat with m in Hp by lia. done.
  - destruct (Hwalk (m - n)%nat) as [?|Hp]; [done|]. replace (n + (m - n))%nat with m in Hp by lia.
    assert (∀ k, (m ≤ k)%nat → P (σ k)) as Hall.
    { induction 1 as [|k Hk IH]; [done|]. apply Hkeep; [lia|done|]. intros E.
      destruct (run_next k) as [e Hn]. rewrite E in Hn. cbn in Hn. by rewrite Hdis in Hn. }
    destruct (Hen m Hm Hall) as (k & Hk & Hstep). by destruct Hstep; apply Hdis.
Qed.

(** The mutex is released. *)
Lemma released n : ∃ m, (n ≤ m)%nat ∧ p_mutex (σ m) = None.
Proof.
  destruct (p_mutex (σ n)) as [i|] eqn:Em; [|by exists n].
  remember (rank i (σ n)) as r eqn:Er. revert n Em Er.
  induction (lt_wf r) as [r _ IH]; intros n Em ->.
  destruct (scheduled i n (λ s, p_mutex s = Some i ∧ rank i s = rank i (σ n))) as (m & Hm & [Emm Erm] & Ea).
  - done.
  - intros k _ [Ek Erk] Hne. destruct (run_next k) as [e E].
    pose proof (other_step _ _ _ _ _ (proj1 (run_invs k)) Ek E Hne) as Hsame.
    rewrite (sf_mutex _ _ _ Hsame), (same_rank _ _ _ Hsame). done.
  - intros k _ Hall. exists k. split; [done|]. destruct (run_invs k) as (? & ? & ? & ?).
    apply holder_enabled; [done..|apply Hdisc|by apply Hall].
  - destruct (run_next m) as [e E]. rewrite Ea in E. cbn [next] in E.
    destruct (holder_step _ _ _ _ (proj1 (run_invs m)) Emm E) as [?|[Em' Hlt]]; [by exists (S m); split; [lia|]|].
    destruct (IH (rank i (σ (S m))) ltac:(lia) (S m) Em' eq_refl) as (k & Hk & ?).
    exists k. split; [lia|done].
Qed.

(** A client whose pc has a step again and again takes it. *)
Lemma client_leads t n pc : p_clients (σ n) t = pc → pc ≠ Idle →
  (∀ m, (n ≤ m)%nat → (∀ k, (m ≤ k)%nat → p_clients (σ k) t = pc) →
     ∃ k, (m ≤ k)%nat ∧ client_step t (σ k) ≠ None) →
  ∃ m e, (n ≤ m)%nat ∧ acts m = Sched (TClient t) ∧ p_clients (σ m) t = pc ∧
    client_step t (σ m) = Some (e, σ (S m)) ∧ moves t pc e (p_clients (σ (S m)) t).
Proof.
  intros Hpc Hne Hen.
  destruct (scheduled (TClient t) n (λ s, p_clients s t = pc)) as (m & Hm & Epc & Ea); [done| |done|].
  - intros k _ Hk Hs. destruct (run_next k) as [e E].
    rewrite (other_client _ _ _ _ _ E Hs); [done|]. by rewrite Hk.
  - destruct (run_next m) as [e E]. rewrite Ea in E. cbn in E. exists m, e. split_and!; try done.
    destruct (client_step_moves _ _ _ _ E) as [Hmv _]. by rewrite Epc in Hmv.
Qed.

Lemma client_holder_enabled t k : client_holds (p_clients (σ k) t) = true → client_step t (σ k) ≠ None.
Proof.
  intros Hh. destruct (run_invs k) as (Hi & _ & Hwf & Hc).
  apply (holder_enabled (TClient t)); [done..|apply Hdisc|by apply mutex_of].
Qed.

(** The locks of a client are granted. *)
Lemma client_locks t n pc : p_clients (σ n) t = pc → (pc = Returning ∨ ∃ c, pc = Entering c) →
  ∃ m e, (n ≤ m)%nat ∧ acts m = Sched (TClient t) ∧ p_clients (σ m) t = pc ∧
    client_step t (σ m) = Some (e, σ (S m)) ∧ moves t pc e (p_clients (σ (S m)) t).
Proof.
  intros Hpc Hcase. apply client_leads; [done|by destruct Hcase as [->|[c ->]]|].
  intros m _ Hall. destruct (released m) as (k & Hk & Hfree). exists k. split; [done|].
  unfold client_step, lock. rewrite Hall, Hfree by done. by destruct Hcase as [->|[c ->]].
Qed.

Lemma down_from n m : (n ≤ m)%nat → shutting_down_ (p_db (σ n)) = true → shutting_down_ (p_db (σ m)) = true.
Proof.
  induction 1 as [|m _ IH]; [done|]. intros H. destruct (run_next m) as [e E].
  apply (flags_mono _ _ _ _ E). auto.
Qed.
Lemma closed_from n m : (n ≤ m)%nat → closed_ (p_db (σ n)) = true → closed_ (p_db (σ m)) = true.
Proof.
  induction 1 as [|m _ IH]; [done|]. intros H. destruct (run_next m) as [e E].
  apply (flags_mono _ _ _ _ E). auto.
Qed.

(** The background thread, awake, goes on. *)
Lemma bg_leads n (P : process → Prop) : P (σ n) →
  (∀ s, P s → p_bg s ≠ BAsleep ∧ bg_running (p_bg s) = true) →
  (∀ k, P (σ k) → acts k ≠ Sched TBg → p_bg (σ (S k)) = p_bg (σ k) → P (σ (S k))) →
  ∃ m e, (n ≤ m)%nat ∧ P (σ m) ∧ acts m = Sched TBg ∧ bg_step (σ m) = Some (e, σ (S m)).
Proof.
  intros HP Hawake Hkeep.
  destruct (scheduled TBg n P) as (m & Hm & Hpm & Ea); [done| | |].
  - intros k _ Hk Hne. apply Hkeep; [done|done|]. destruct (run_next k) as [e E].
    apply (other_bg _ _ _ _ E Hne). by apply Hawake.
  - intros m _ Hall. destruct (released m) as (k & Hk & Hfree). exists k. split; [done|].
    destruct (run_invs k) as (Hi & _ & Hwf & Hc). destruct (Hawake _ (Hall k Hk)) as [Hb Hr]. cbn.
    destruct (p_bg (σ k)) eqn:Eb; try done.
    + unfold bg_step, lock. by rewrite Eb, Hfree.
    + apply (holder_enabled TBg); [done..|apply Hdisc|]. apply mutex_of; [done|]. cbn. by rewrite Eb.
    + apply (holder_enabled TBg); [done..|apply Hdisc|]. apply mutex_of; [done|]. cbn. by rewrite Eb.
  - destruct (run_next m) as [e E]. rewrite Ea in E. cbn in E. by exists m, e.
Qed.

Lemma awake n : shutting_down_ (p_db (σ n)) || bg_work_requested_ (p_db (σ n)) = true → p_bg (σ n) ≠ BAsleep.
Proof.
  intros H Hb. destruct (co_asleep _ _ _ (inv_coherent _ (proj1 (run_invs n))) Hb) as [E1 E2].
  cbn in *. by rewrite E1, E2 in H.
Qed.

(** Towards [BWorking]: when it has a reason to, the thread gets past [wait]. *)
Definition has_reason (s : process) : Prop :=
  shutting_down_ (p_db s) = true ∨ bg_work_requested_ (p_db s) = true.

Lemma reason_kept k : has_reason (σ k) → p_bg (σ k) ≠ BWorking ∨ acts k ≠ Sched TBg →
  has_reason (σ (S k)).
Proof.
  intros Hr Hne. destruct (run_next k) as [e E]. destruct (flags_mono _ _ _ _ E) as (Hd & _ & Hq).
  destruct Hr as [H|H]; [left; auto|]. destruct (Hq H) as [?|[? ?]]; [by right|]. by destruct Hne.
Qed.

Lemma gets_to_work n : bg_running (p_bg (σ n)) = true → has_reason (σ n) →
  ∃ m, (n ≤ m)%nat ∧ p_bg (σ m) = BWorking.
Proof.
  assert (∀ k, has_reason (σ k) → p_bg (σ k) ≠ BAsleep) as Haw.
  { intros k Hr. apply awake. destruct Hr as [->| ->]; [done|by rewrite orb_true_r]. }
  assert (∀ n, p_bg (σ n) = BTesting → has_reason (σ n) → ∃ m, (n ≤ m)%nat ∧ p_bg (σ m) = BWorking) as Htest.
  { intros k Hb Hr.
    destruct (bg_leads k (λ s, p_bg s = BTesting ∧ has_reason s)) as (m & e & Hm & [Hbm Hrm] & _ & E); [done| | |].
    - intros s [-> _]. done.
    - intros j [Hbj Hrj] Hne Eb. split; [congruence|]. apply reason_kept; auto.
    - unfold bg_step in E. rewrite Hbm in E. exists (S m). split; [lia|].
      assert (shutting_down_ (p_db (σ m)) || bg_work_requested_ (p_db (σ m)) = true) as Hor
        by (destruct Hrm as [->| ->]; [done|by rewrite orb_true_r]).
      rewrite Hor in E. injection E as _ <-. done. }
  intros Hrun' Hr. destruct (p_bg (σ n)) eqn:Eb; try done.
  - destruct (bg_leads n (λ s, p_bg s = BWaking ∧ has_reason s)) as (m & e & Hm & [Hbm Hrm] & Ea & E); [done| | |].
    + intros s [-> _]. done.
    + intros j [Hbj Hrj] Hne Eb'. split; [congruence|]. apply reason_kept; auto.
    + assert (p_bg (σ (S m)) = BTesting) as Hb'.
      { unfold bg_step in E. rewrite Hbm in E. by apply bind_Some in E as (s1 & [_ ->]%lock_Some & [= _ <-]). }
      destruct (Htest (S m) Hb') as (k & Hk & ?); [|exists k; split; [lia|done]].
      apply reason_kept; [done|]. left. congruence.
  - by apply Htest.
  - by destruct (Haw n Hr).
  - by exists n.
Qed.

(** After a shutdown the background thread ends. *)
Lemma bg_ends n : shutting_down_ (p_db (σ n)) = true → ∃ m, (n ≤ m)%nat ∧ bg_running (p_bg (σ m)) = false.
Proof.
  intros Hd. destruct (bg_running (p_bg (σ n))) eqn:Er; [|by exists n].
  destruct (gets_to_work n Er (or_introl Hd)) as (m & Hm & Hb).
  pose proof (down_from _ _ Hm Hd) as Hdm.
  destruct (bg_leads m (λ s, p_bg s = BWorking ∧ shutting_down_ (p_db s) = true)) as (k & e & Hk & [Hbk Hdk] & _ & E).
  - done.
  - intros s [-> _]. done.
  - intros j [Hbj Hdj] _ Eb. split; [congruence|]. by apply (down_from j); [lia|].
  - unfold bg_step in E. rewrite Hbk, Hdk in E. injection E as _ E. exists (S k). split; [lia|]. by rewrite <- E.
Qed.

Lemma bg_stays_ended n m : (n ≤ m)%nat → bg_running (p_bg (σ n)) = false → bg_running (p_bg (σ m)) = false.
Proof.
  induction 1 as [|m _ IH]; [done|]. intros H. specialize (IH H). destruct (run_next m) as [e E].
  destruct (is_sched TBg (acts m)) eqn:Es.
  - apply is_sched_true in Es. rewrite Es in E. cbn in E. unfold bg_step in E. by destruct (p_bg (σ m)).
  - rewrite (other_bg _ _ _ _ E); [done| |].
    + intros Hs. rewrite Hs in Es. cbn in Es. by rewrite bool_decide_true in Es.
    + intros Hb. by rewrite Hb in IH.
Qed.

(** ** The stages of a call *)

Lemma leaving_returns t n c a : p_clients (σ n) t = Leaving c a →
  ∃ m, (n ≤ m)%nat ∧ p_clients (σ m) t = Leaving c a ∧ p_clients (σ (S m)) t = Idle.
Proof.
  intros Hpc. destruct (client_leads t n _ Hpc) as (m & e & Hm & _ & Epc & _ & Hmv); [done| |].
  - intros m _ Hall. exists m. split; [done|]. apply client_holder_enabled. by rewrite Hall.
  - exists m. split_and!; [done|done|]. by inversion Hmv.
Qed.

Lemma parting_closes t n : p_clients (σ n) t = Parting →
  ∃ m a, (n ≤ m)%nat ∧ p_clients (σ m) t = Leaving CallClose a ∧ closed_ (p_db (σ m)) = true.
Proof.
  intros Hpc.
  assert (shutting_down_ (p_db (σ n)) = true) as Hd.
  { apply (co_closing _ _ _ (inv_coherent _ (proj1 (run_invs n))) t). by rewrite Hpc. }
  destruct (client_leads t n _ Hpc) as (m1 & e1 & Hm1 & _ & _ & _ & Hmv1); [done| |].
  { intros m _ Hall. exists m. split; [done|]. apply client_holder_enabled. by rewrite Hall. }
  assert (p_clients (σ (S m1)) t = Joining) as Hpc1 by by inversion Hmv1.
  destruct (bg_ends n Hd) as (mb & Hmb & Hended).
  destruct (client_leads t (S m1) _ Hpc1) as (m2 & e2 & Hm2 & _ & _ & _ & Hmv2); [done| |].
  { intros m _ Hall. exists (Nat.max m mb). split; [lia|]. unfold client_step. rewrite Hall by lia.
    assert (join_blocks (σ (Nat.max m mb)) = false) as ->; [|done].
    unfold join_blocks. fold (bg_running (p_bg (σ (Nat.max m mb)))).
    rewrite (bg_stays_ended mb) by (done || lia). apply andb_false_r. }
  assert (p_clients (σ (S m2)) t = Returning) as Hpc2 by by inversion Hmv2.
  destruct (client_locks t (S m2) _ Hpc2) as (m3 & e3 & Hm3 & _ & _ & _ & Hmv3); [by left|].
  assert (p_clients (σ (S m3)) t = Closing) as Hpc3 by by inversion Hmv3.
  destruct (client_leads t (S m3) _ Hpc3) as (m4 & e4 & Hm4 & _ & Epc4 & E4 & Hmv4); [done| |].
  { intros m _ Hall. exists m. split; [done|]. apply client_holder_enabled. by rewrite Hall. }
  destruct (client_step_flags _ _ _ _ E4) as (f & Ef & Hf). rewrite Epc4 in Hf. destruct Hf as [-> _].
  apply (f_equal fl_closed) in Ef. cbn in Ef. inversion Hmv4 as [| | | | | | |r]; subst.
  exists (S m4), (AStatus r). split_and!; [lia|done|done].
Qed.

Lemma inside_leaves t n c : p_clients (σ n) t = Inside c →
  ∃ m a, (n ≤ m)%nat ∧ p_clients (σ m) t = Leaving c a ∧
    (c = CallClose → closed_ (p_db (σ m)) = true).
Proof.
  intros Hpc. destruct (client_leads t n _ Hpc) as (m & e & Hm & _ & Epc & E & Hmv); [done| |].
  { intros m _ Hall. exists m. split; [done|]. apply client_holder_enabled. by rewrite Hall. }
  inversion Hmv as [|c' l a Ha| | | | | |]; subst.
  - exists (S m), a. split_and!; [lia|done|]. intros ->. revert E. unfold client_step. rewrite Epc.
    destruct (closed_ (p_db (σ m))) eqn:Ecl; intros [= _ E]; rewrite <- E; [done|].
    exfalso. rewrite <- E, set_pc_clients in *. discriminate.
  - destruct (parting_closes t (S m)) as (k & a & Hk & ? & ?); [done|]. exists k, a. split_and!; [lia|done|done].
Qed.
End runs.
