(* ===== verification/SoloRuns.v ===== *)
(** * Runs of one client beside the background thread

    Executable runs of [Threads], in which client 0 and the background thread
    move, and a database to run them on: the inputs of the witnesses on
    threads. *)

From stdpp Require Import functions.
From S2P Require Import Prelude Slice Status OrderedMap MemTable WriteBatch FileSystem Wal.
From S2P Require Import SSTable SSTableSpec Version DB DBPaths Layers DBInv DBFlush DBReaders.
From S2P Require Import Merge DBCompact DBRead DBWrite DBOpen DBSpec DBSession Sample Frame.
From S2P Require Import Concurrency Threads Liveness.

(** ** Runs *)

Definition solo_action (a : action) : bool :=
  match a with
  | Sched (TClient t) | Call t _ => (t =? 0)%nat
  | _ => true
  end.
Definition solo_check (s : process) : bool :=
  has_room (p_db s) [] &&
  match p_clients s 0%nat with
  | Inside (CallWrite _ ops) =>
      bool_decide (ops ≠ []) && (zlen (rep_ (batch_of ops)) <? 2 ^ 32) && has_room (p_db s) ops
  | _ => true
  end.
Definition solo (s : process) : Prop := ∀ t, t ≠ 0%nat → p_clients s t = Idle.

Section solo.
Context {O : Oracle}.

Fixpoint solo_run (acts : list action) (s : process) : option (list event * process) :=
  if negb (solo_check s) then None else
  match acts with
  | [] => Some ([], s)
  | a :: acts =>
      if negb (solo_action a) then None else
      '(e, s1) ← next a s; '(es, s2) ← solo_run acts s1; Some (e :: es, s2)
  end.

(** State [n] of the run, which then stutters. *)
Fixpoint state_at (acts : list action) (s : process) (n : nat) : process :=
  match acts, n with
  | a :: acts, S n => match next a s with Some (_, s1) => state_at acts s1 n | None => s end
  | _, _ => s
  end.
Definition action_at (acts : list action) (n : nat) : action := nth n acts Stutter.

Lemma solo_disciplined s : solo s → solo_check s = true → disciplined s.
Proof.
  intros Hs [Hr Hc]%andb_true_iff. split; [done| |].
  - intros t opts ops Epc. destruct (decide (t = 0%nat)) as [->|Hne]; [|by rewrite Hs in Epc].
    rewrite Epc in Hc. apply andb_true_iff in Hc as [[Hne%bool_decide_eq_true Hz%Z.ltb_lt]%andb_true_iff ?].
    by split; [split|].
  - assert (∀ t, in_close (p_clients s t) = true → t = 0%nat) as H0.
    { intros t Ht. destruct (decide (t = 0%nat)) as [|Hne]; [done|]. by rewrite Hs in Ht. }
    intros t t' Ht Ht'. by rewrite (H0 t Ht), (H0 t' Ht').
Qed.

Lemma solo_next a s e s1 : solo s → solo_action a = true → next a s = Some (e, s1) → solo s1.
Proof.
  intros Hs Ha E t Ht. destruct a as [[|t']|t' c| |]; cbn [next thread_step solo_action] in *.
  - by rewrite (proj1 (bg_step_clients _ _ _ E)), Hs.
  - apply Nat.eqb_eq in Ha as ->. apply client_step_moves in E as [_ H]. rewrite H by done. by apply Hs.
  - apply Nat.eqb_eq in Ha as ->. destruct (p_clients s 0%nat); try done. destruct (call_ok c); [|done].
    injection E as <- <-. cbn. rewrite fn_lookup_insert_ne by done. by apply Hs.
  - destruct (p_bg s); try done. injection E as <- <-. by apply Hs.
  - injection E as <- <-. by apply Hs.
Qed.

Lemma solo_run_cons a acts s es s2 : solo_run (a :: acts) s = Some (es, s2) →
  solo_check s = true ∧ solo_action a = true ∧
  ∃ e s1 es1, next a s = Some (e, s1) ∧ solo_run acts s1 = Some (es1, s2) ∧ es = e :: es1.
Proof.
  cbn [solo_run]. destruct (solo_check s); [|done]. destruct (solo_action a); [|done]. cbn [negb].
  intros ([e s1] & En & ([es1 s2'] & E & [= <- <-])%bind_Some)%bind_Some. eauto 10.
Qed.
Lemma solo_run_nil s es s2 : solo_run [] s = Some (es, s2) → solo_check s = true ∧ s2 = s ∧ es = [].
Proof. cbn. destruct (solo_check s); [|done]. by intros [= <- <-]. Qed.

Lemma solo_trun acts s es s2 : solo_run acts s = Some (es, s2) → solo s → trun s es s2.
Proof.
  revert s es. induction acts as [|a acts IH]; intros s es E Hs.
  { apply solo_run_nil in E as (_ & -> & ->). constructor. }
  apply solo_run_cons in E as (Hc & Ha & e & s1 & es1 & En & E & ->).
  econstructor; [by apply solo_disciplined|done|]. apply IH; [done|by eapply solo_next].
Qed.

Lemma solo_is_run acts s es s2 : solo_run acts s = Some (es, s2) →
  is_run (state_at acts s) (action_at acts).
Proof.
  revert s es. induction acts as [|a acts IH]; intros s es E n.
  { unfold action_at. by destruct n. }
  apply solo_run_cons in E as (_ & _ & e & s1 & es1 & En & E & ->).
  destruct n as [|n]; unfold action_at; cbn; rewrite ?En; [|by apply (IH _ _ E)].
  cbn. by destruct acts.
Qed.

Lemma solo_states acts s es s2 : solo_run acts s = Some (es, s2) → solo s →
  ∀ n, solo (state_at acts s n) ∧ disciplined (state_at acts s n).
Proof.
  revert s es. induction acts as [|a acts IH]; intros s es E Hs n.
  { apply solo_run_nil in E as (Hc & _). cbn. split; [done|by apply solo_disciplined]. }
  apply solo_run_cons in E as (Hc & Ha & e & s1 & es1 & En & E & ->).
  destruct n as [|n]; cbn [state_at]; [split; [done|by apply solo_disciplined]|]. rewrite En.
  eapply IH; [done|by eapply solo_next].
Qed.

Lemma state_at_end acts s es s2 n : solo_run acts s = Some (es, s2) → (length acts ≤ n)%nat →
  state_at acts s n = s2.
Proof.
  revert s es n. induction acts as [|a acts IH]; intros s es n E Hn.
  { by apply solo_run_nil in E as (_ & -> & _). }
  apply solo_run_cons in E as (_ & _ & e & s1 & es1 & En & E & ->).
  destruct n as [|n]; [cbn in Hn; lia|]. cbn [state_at]. rewrite En. eapply IH; [done|cbn in Hn; lia].
Qed.

(** It is fair when in the end nobody has a step. *)
Lemma solo_fair acts s es s2 : solo_run acts s = Some (es, s2) → solo s →
  p_clients s2 0%nat = Idle → bg_step s2 = None → fair (state_at acts s) (action_at acts).
Proof.
  intros E Hs H0 Hb i n. exists (Nat.max n (length acts)). split; [lia|]. right. intros k Hk.
  rewrite (state_at_end _ _ _ _ _ E) by lia. destruct i as [|t]; [done|]. cbn. unfold client_step.
  destruct (decide (t = 0%nat)) as [->|Hne]; [by rewrite H0|].
  pose proof (proj1 (solo_states _ _ _ _ E Hs (length acts)) t Hne) as Ht.
  rewrite (state_at_end _ _ _ _ _ E) in Ht by lia. by rewrite Ht.
Qed.
End solo.

Lemma serves_represents options path W N db d m : serves options path W N db d m → represents db d m.
Proof. intros Hs. destruct (se_tables _ _ _ _ _ _ _ Hs) as (tabs & ? & ? & _). by exists tabs. Qed.
Lemma serves_safe options path W N db d m : serves options path W N db d m → safe db d m.
Proof. intros Hs. destruct (se_tables _ _ _ _ _ _ _ Hs) as (tabs & ? & ? & ? & _). by exists tabs. Qed.
Lemma serves_well_formed options path W N db d m : serves options path W N db d m → well_formed db d.
Proof. intros Hs. destruct (se_tables _ _ _ _ _ _ _ Hs) as (tabs & ? & _). by exists tabs. Qed.

Lemma start_solo db w : solo (start db w).
Proof. done. Qed.

(** ** A database with a background thread *)

Definition bg_options : Options := mkOptions true false 100 2 10 1000 10 false true.
Definition bg0 : DB * World := opened faultless bg_options sample_path empty_world.

Lemma opened_serves options : options_ok options → create_if_missing options = true →
  let run := opened faultless options sample_path empty_world in
  serves options sample_path 0 1 run.1 (w_disk run.2) ∅.
Proof.
  intros Ho Hc run.
  assert (stored sample_path 0 1 (w_disk empty_world) ∅) as Hst
    by (apply stored_empty; [apply empty_disk_wf|done|done]).
  pose proof (@open_serves faultless _ options sample_path 0 1 ∅ empty_world Hst good_sample_path Ho) as H.
  unfold run, opened, wp in *. destruct (Open _ _ _) as [[s odb] w']. cbn [fst snd] in H.
  destruct H as (db & _ & -> & Hs); [exact Hc|done].
Qed.

Lemma bg0_serves : serves bg_options sample_path 0 1 bg0.1 (w_disk bg0.2) ∅.
Proof. exact (opened_serves bg_options ltac:(split; [done|reflexivity]) eq_refl). Qed.

(** A write, a round of the background thread, a close. *)
Definition session_actions : list action :=
  let c0 := Sched (TClient 0) in let bg := Sched TBg in
  [Call 0 (CallWrite (mkWriteOptions true) sample_ops); c0; c0; c0; bg; bg; bg; bg;
   Call 0 (CallGet (str "k2") []); c0; c0; c0;
   Call 0 CallClose; c0; c0; c0; bg; bg; bg; c0; c0; c0; c0].
Definition session_start : process := start bg0.1 bg0.2.

Lemma session_evaluates :
  match @solo_run faultless session_actions session_start with
  | Some (_, s) => p_clients s 0%nat = Idle ∧ @bg_step faultless s = None
  | None => False
  end.
Proof. vm_compute. by split. Qed.
Lemma session_runs : ∃ es s, @solo_run faultless session_actions session_start = Some (es, s) ∧
  p_clients s 0%nat = Idle ∧ @bg_step faultless s = None.
Proof.
  pose proof session_evaluates as H. destruct (solo_run _ _) as [[es s]|]; [by exists es, s|done].
Qed.

Lemma bg0_closed : closed_ bg0.1 = false.
Proof. vm_compute. reflexivity. Qed.

(** Everything a theorem on infinite runs asks of this one. *)
Lemma session_ok :
  let σ := @state_at faultless session_actions session_start in
  @is_run faultless σ (action_at session_actions) ∧ @fair faultless σ (action_at session_actions) ∧
  (∀ n, disciplined (σ n)).
Proof.
  destruct session_runs as (es & s & E & Hidle & Hb). split_and!.
  - exact (solo_is_run _ _ _ _ E).
  - exact (solo_fair _ _ _ _ E (start_solo _ _) Hidle Hb).
  - intros n. exact (proj2 (solo_states _ _ _ _ E (start_solo _ _) n)).
Qed.
