(* ===== verification/ThreadsCorrect.v ===== *)
(** * Correctness of the threads

    Linearizability of the calls, recovery from a crash in the middle of a run,
    mutual exclusion and wake-ups, and progress, each with a run of a client and
    the background thread. *)

From stdpp Require Import functions.
From S2P Require Import Prelude Slice Status OrderedMap MemTable WriteBatch FileSystem Wal.
From S2P Require Import SSTable SSTableSpec Version DB DBPaths Layers DBInv DBFlush DBReaders.
From S2P Require Import Merge DBCompact DBRead DBWrite DBOpen DBSpec DBSession Sample Frame.
From S2P Require Import Concurrency Threads Liveness SoloRuns.

(** ** Properties *)

(** C1. Linearizability, of an open database and when no call of the system
    fails: however the threads are scheduled, each call takes effect in one
    step between its call and its return, and returns what that step did; the
    steps, in order, are those of a map with atomic operations. *)
Theorem linearizable {O : Oracle} `{!FaultFree O} db w m es s :
  represents db (w_disk w) m → closed_ db = false → wal_open db → trun (start db w) es s →
  ∃ a, asteps (mkAmap m false) (labels es) a ∧
    represents (p_db s) (w_disk (p_world s)) (a_map a) ∧ closed_ (p_db s) = a_closed a ∧
    ∀ t, thread_ok t PNone es (pend (p_clients s t)).
Proof.
  intros Hrep Hcl Hwal Hrun.
  destruct (trun_steps _ _ _ Hrun (start_inv db w Hcl) ltac:(done)) as (Hs & _ & _).
  assert (simulates (sections (start db w)) (mkAmap m false)) as Hsim by by split.
  destruct (steps_simulates _ _ _ _ Hsim Hs) as (a & Ha & [Hr Hc _]).
  exists a. split_and!; [done|done|done|]. intros t. apply (trun_thread_ok t _ _ _ Hrun).
Qed.

Lemma linearizable_witness : ∃ es s a,
  asteps (mkAmap ∅ false) (labels es) a ∧
    represents (p_db s) (w_disk (p_world s)) (a_map a) ∧ closed_ (p_db s) = a_closed a ∧
    ∀ t, thread_ok t PNone es (pend (p_clients s t)).
Proof.
  destruct session_runs as (es & s & E & _). exists es, s.
  apply (@linearizable faultless _ bg0.1 bg0.2 ∅).
  - exact (serves_represents _ _ _ _ _ _ _ bg0_serves).
  - exact bg0_closed.
  - exact (se_wal _ _ _ _ _ _ _ bg0_serves).
  - exact (solo_trun session_actions _ _ _ E (start_solo _ _)).
Defined.

(** C2. Crash safety under threads: any number of threads run under any I/O
    failures, every write so far is acknowledged, and one more step, of any
    thread, fails at any point (a crash is the failure of everything from some
    call on).  The database that is opened afterwards holds exactly the
    acknowledged writes, or these and the write of that last step. *)
Theorem thread_crash_recovery (O1 O2 : Oracle) `{!FaultFree O2} db w m es s a e s' options c stable :
  safe db (w_disk w) m → closed_ db = false →
  @trun O1 (start db w) es s → writes_acked (labels es) →
  disciplined s → @next O1 a s = Some (e, s') →
  good_path (db_path_ db) → options_ok options →
  create_if_missing options = true → error_if_exists options = false →
  let m1 := fold_left map_op (written (labels es)) m in
  wp (@Open O2 options (db_path_ db))
    (λ '(st, odb) w', ∃ db', st = OK ∧ odb = Some db' ∧
       (represents db' (w_disk w') m1 ∨
        represents db' (w_disk w') (fold_left map_op (written (event_labels e)) m1)))
    (mkWorld (w_disk (p_world s')) c stable).
Proof.
  intros Hs Hcl Hrun Hack Hd Hn Hg Ho Hc He m1.
  destruct (trun_steps _ _ _ Hrun (start_inv db w Hcl) ltac:(done)) as (Hsteps & Hi & Hu).
  destruct (safe_steps _ _ _ m Hsteps Hs Hack) as [Hs1 Hp]. fold m1 in Hs1. cbn in Hp.
  pose proof (next_steps _ _ _ _ Hi Hu Hd Hn) as Hlast.
  assert (disk_wf (w_disk (p_world s')) ∧ ∃ m2, recoverable (w_disk (p_world s')) (db_path_ db) m2 ∧
    (m2 = m1 ∨ m2 = fold_left map_op (written (event_labels e)) m1)) as (Hwf & m2 & Hrec & Hm2).
  { assert (length (event_labels e) ≤ 1)%nat as Hl by (destruct e; cbn; lia).
    rewrite <- Hp. destruct (last_steps _ _ _ _ Hs1 Hl Hlast) as [? [?|?]]; eauto. }
  eapply wp_mono; [by apply (open_recoverable _ _ m2)|].
  intros [st odb] w' [Hres Hsome]. destruct (Hsome _ (open_allowed_any _ _ _ Hc He)) as [db' ->].
  destruct Hres as (-> & _ & _ & Hrep). destruct (Hrep _) as [Hr _].
  exists db'. split_and!; [done|done|]. destruct Hm2 as [->| ->]; auto.
Qed.

(** The process dies while a client writes the log record of its batch, the
    background thread being asleep. *)
Definition dying_now : Oracle := dying (S (w_clock bg0.2)).
Definition last_actions : list action :=
  [Sched TBg; Sched TBg; Call 0 (CallWrite (mkWriteOptions true) sample_ops); Sched (TClient 0)].
Definition last_state : process := @state_at dying_now last_actions session_start 4.

Definition yields {A B} (x : option (A * B)) (P : A → Prop) : Prop :=
  match x with Some (a, _) => P a | None => False end.
Lemma some_pair {A B} (x : option (A * B)) P : yields x P → ∃ a b, x = Some (a, b) ∧ P a.
Proof. destruct x as [[a b]|]; [|done]. by exists a, b. Qed.

Lemma last_state_runs :
  yields (@solo_run dying_now last_actions session_start) (λ es, labels es = []) ∧
  yields (@next dying_now (Sched (TClient 0)) last_state) (λ e, written (event_labels e) = sample_ops).
Proof. vm_compute. by split. Qed.

Lemma bg0_safe : safe bg0.1 (w_disk bg0.2) ∅.
Proof. exact (serves_safe _ _ _ _ _ _ _ bg0_serves). Qed.

Lemma writes_acked_nil : writes_acked [].
Proof. intros ops r Hin. by apply elem_of_nil in Hin. Qed.
Lemma bg_options_ok : options_ok bg_options.
Proof. by split. Qed.

Lemma thread_crash_recovery_witness : ∃ s',
  wp (@Open faultless bg_options sample_path)
    (λ '(st, odb) w', ∃ db', st = OK ∧ odb = Some db' ∧
       (represents db' (w_disk w') ∅ ∨ represents db' (w_disk w') (fold_left map_op sample_ops ∅)))
    (mkWorld (w_disk (p_world s')) 0 ∅).
Proof.
  destruct last_state_runs as [(es & s & E & H1)%some_pair (e & s' & En & H2)%some_pair].
  exists s'. pose proof (@solo_states dying_now _ _ _ _ E (start_solo _ _) 4) as [_ Hd].
  pose proof (@state_at_end dying_now _ _ _ _ 4 E ltac:(done)) as Es. fold last_state in Es.
  pose proof (@solo_trun dying_now _ _ _ _ E (start_solo _ _)) as Hrun. rewrite <- Es in Hrun.
  assert (@trun dying_now (start bg0.1 bg0.2) es last_state) as Hrun' by exact Hrun.
  pose proof (λ a1 a2, thread_crash_recovery dying_now faultless bg0.1 bg0.2 ∅ es last_state (Sched (TClient 0))
    e s' bg_options 0 ∅ a1 a2) as H.
  specialize (H bg0_safe bg0_closed Hrun').
  rewrite H1, H2, (se_path _ _ _ _ _ _ _ bg0_serves) in H.
  exact (H writes_acked_nil Hd En good_sample_path bg_options_ok eq_refl eq_refl).
Defined.

(** C3. Whatever the clients do and whatever fails: at most one thread is in a
    critical section; the background thread never sleeps through a request or
    a shutdown; it has ended when the database is closed. *)
Theorem mutex_and_wakeups {O : Oracle} db w s : closed_ db = false →
  rtc (λ s1 s2, ∃ a e, next a s1 = Some (e, s2)) (start db w) s →
  (∀ i j, holds i s = true → holds j s = true → i = j) ∧
  (p_bg s = BAsleep → bg_work_requested_ (p_db s) = false ∧ shutting_down_ (p_db s) = false) ∧
  (closed_ (p_db s) = true → p_bg s = BNone ∨ p_bg s = BExited).
Proof.
  intros Hcl Hreach.
  assert (inv s) as [Hm [Ha _ _ _ _ _ Hc]].
  { pose proof (start_inv db w Hcl) as Hi. revert Hi.
    induction Hreach as [|s1 s2 s3 (a & e & E) _ IH]; [done|]. intros Hi. by eapply IH, next_inv. }
  split_and!.
  - intros i j Hi Hj. rewrite Hm in Hi, Hj. apply bool_decide_eq_true in Hi, Hj. congruence.
  - intros Hb. by destruct (Ha Hb).
  - intros E. apply bg_running_spec. by apply Hc.
Qed.

Lemma mutex_and_wakeups_witness : ∃ s, closed_ (p_db s) = true ∧
  (∀ i j, holds i s = true → holds j s = true → i = j) ∧
  (p_bg s = BAsleep → bg_work_requested_ (p_db s) = false ∧ shutting_down_ (p_db s) = false) ∧
  (closed_ (p_db s) = true → p_bg s = BNone ∨ p_bg s = BExited).
Proof.
  exists (@state_at faultless session_actions session_start 23). split; [vm_compute; reflexivity|].
  apply (@mutex_and_wakeups faultless bg0.1 bg0.2); [apply bg0_closed|].
  fold session_start. generalize 23%nat. intros n.
  destruct session_ok as [Hrun _]. induction n as [|n IH]; [apply rtc_refl|].
  eapply rtc_r; [exact IH|]. destruct (@run_next faultless _ _ Hrun n) as [e E]. eauto.
Defined.

Section progress.
Context {O : Oracle} (σ : nat → process) (acts : nat → action).

(** C4. Every call returns: a fair scheduler, clients that keep within the
    limits and close from one thread at a time ([disciplined]), a positive
    compaction trigger; whatever fails. A [Close] has closed the database when
    it returns. *)
Theorem every_call_returns db w n t c :
  σ 0%nat = start db w → closed_ db = false → well_formed db (w_disk w) →
  compaction_ok (options_ db) → is_run σ acts → fair σ acts → (∀ k, disciplined (σ k)) →
  p_clients (σ n) t = Entering c →
  ∃ k a, (n ≤ k)%nat ∧ p_clients (σ k) t = Leaving c a ∧ p_clients (σ (S k)) t = Idle ∧
    (c = CallClose → closed_ (p_db (σ (S k))) = true).
Proof.
  intros E0 Hcl Hwf Hc Hrun Hfair Hd Hpc.
  assert (inv (σ 0%nat) ∧ unclosed (σ 0%nat)) as [Hi Hu] by (rewrite E0; by split; [apply start_inv|]).
  assert (well_formed (p_db (σ 0%nat)) (w_disk (p_world (σ 0%nat)))) as Hwf' by by rewrite E0.
  assert (compaction_ok (options_ (p_db (σ 0%nat)))) as Hc' by by rewrite E0.
  destruct (client_locks σ acts Hrun Hfair Hi Hu Hwf' Hc' Hd t n _ Hpc) as (m & e & Hm & _ & _ & _ & Hmv); [eauto|].
  assert (p_clients (σ (S m)) t = Inside c) as Hin by by inversion Hmv.
  destruct (inside_leaves σ acts Hrun Hfair Hi Hu Hwf' Hc' Hd t (S m) c Hin) as (m2 & a & Hm2 & Hlv & Hclosed).
  destruct (leaving_returns σ acts Hrun Hfair Hi Hu Hwf' Hc' Hd t m2 c a Hlv) as (m3 & Hm3 & Hpc3 & Hpc4).
  exists m3, a. split_and!; [lia|done|done|]. intros Ec. apply (closed_from σ acts Hrun m2); [lia|auto].
Qed.

(** C5. Background work is done, when nothing fails, the scheduler is fair,
    the clients keep within the limits and close from one thread at a time,
    and the compaction trigger is positive: a request made while the
    background thread runs is followed by a round that leaves nothing in the
    memtable and no level over its limit, or by a shutdown. *)
Theorem background_work_done `{!FaultFree O} db w n :
  σ 0%nat = start db w → closed_ db = false → well_formed db (w_disk w) →
  compaction_ok (options_ db) → is_run σ acts → fair σ acts → (∀ k, disciplined (σ k)) →
  bg_running (p_bg (σ n)) = true → bg_work_requested_ (p_db (σ n)) = true →
  ∃ k, (n ≤ k)%nat ∧ (shutting_down_ (p_db (σ k)) = true ∨
    bg_idle_ (p_db (σ k)) = true ∧ MemTable_empty (memtable_ (p_db (σ k))) = true ∧
    ∀ level, (S level < kMaxLevels)%nat → overfull (p_db (σ k)) level = false).
Proof.
  intros E0 Hcl Hwf Hc Hrun Hfair Hd Hbr Hreq.
  assert (inv (σ 0%nat) ∧ unclosed (σ 0%nat)) as [Hi Hu] by (rewrite E0; by split; [apply start_inv|]).
  assert (well_formed (p_db (σ 0%nat)) (w_disk (p_world (σ 0%nat)))) as Hwf' by by rewrite E0.
  assert (compaction_ok (options_ (p_db (σ 0%nat)))) as Hc' by by rewrite E0.
  destruct (gets_to_work σ acts Hrun Hfair Hi Hu Hwf' Hc' Hd n Hbr (or_intror Hreq)) as (m & Hm & Hb).
  destruct (bg_leads σ acts Hrun Hfair Hi Hu Hwf' Hc' Hd m (λ s, p_bg s = BWorking)) as (k & e & Hk & Hbk & _ & E).
  - done.
  - by intros s ->.
  - intros j Hj _ Ej. congruence.
  - destruct (shutting_down_ (p_db (σ k))) eqn:Ed; [exists k; split; [lia|by left]|].
    exists (S k). split; [lia|]. right. revert E. unfold bg_step. rewrite Hbk, Ed.
    destruct (run_invs σ acts Hrun Hi Hu Hwf' Hc' Hd k) as (_ & _ & (tabs & Hok) & Hck).
    pose proof (BackgroundRound_spec (p_db (σ k)) tabs (p_world (σ k)) Hok
      (has_room_limits _ _ _ Hok (di_room _ (Hd k)))) as H.
    destruct (BackgroundRound _) as [r [db' w']] eqn:Er. unfold wp in H. rewrite Er in H. cbn [fst snd] in H.
    destruct H as (tabs' & _ & _ & _ & _ & _ & _ & _ & _ & _ & Hff & Hret & Hdone).
    destruct (Hff _) as [[->| ->] _]; [by destruct (Hret Hck)|]. intros [= _ Es].
    apply BackgroundRound_flags in Er. apply (f_equal fl_idle) in Er. cbn in Er.
    destruct (Hdone eq_refl) as [Hemp Hn]. rewrite <- Es. cbn. split_and!; [done|done|].
    pose proof (NeedsCompactionLocked_spec db') as Hspec. by rewrite Hn in Hspec.
Qed.
End progress.

Lemma session_hyps : well_formed bg0.1 (w_disk bg0.2) ∧ compaction_ok (options_ bg0.1).
Proof.
  split; [exact (serves_well_formed _ _ _ _ _ _ _ bg0_serves)|].
  rewrite (se_options _ _ _ _ _ _ _ bg0_serves). by split.
Qed.

(** The [Close] of the session. *)
Lemma every_call_returns_witness :
  let σ := @state_at faultless session_actions session_start in
  ∃ k a, (13 ≤ k)%nat ∧ p_clients (σ k) 0%nat = Leaving CallClose a ∧ p_clients (σ (S k)) 0%nat = Idle ∧
    (CallClose = CallClose → closed_ (p_db (σ (S k))) = true).
Proof.
  destruct session_ok as (Hrun & Hfair & Hd). destruct session_hyps.
  apply (@every_call_returns faultless _ (action_at session_actions) bg0.1 bg0.2 13 0 CallClose);
    [done|apply bg0_closed|done|done|done|done|done|vm_compute; reflexivity].
Defined.

(** The request of its write. *)
Lemma background_work_done_witness :
  let σ := @state_at faultless session_actions session_start in
  ∃ k, (4 ≤ k)%nat ∧ (shutting_down_ (p_db (σ k)) = true ∨
    bg_idle_ (p_db (σ k)) = true ∧ MemTable_empty (memtable_ (p_db (σ k))) = true ∧
    ∀ level, (S level < kMaxLevels)%nat → overfull (p_db (σ k)) level = false).
Proof.
  destruct session_ok as (Hrun & Hfair & Hd). destruct session_hyps.
  apply (@background_work_done faultless _ (action_at session_actions) _ bg0.1 bg0.2 4);
    [done|apply bg0_closed|done|done|done|done|done|vm_compute; reflexivity|vm_compute; reflexivity].
Defined.

(** ** [Close] from two threads *)

Fixpoint act `{Oracle} (acts : list action) (s : process) : option process :=
  match acts with
  | [] => Some s
  | a :: acts => '(_, s1) ← next a s; act acts s1
  end.

(** Why [disciplined] asks for one closing thread: [closed_] is set after the
    join, so two clients that call [Close] while the background thread runs can
    both stand at [bg_thread_.join()]. *)
Theorem two_closes_join :
  match @act faultless [Call 0 CallClose; Call 1 CallClose; Sched (TClient 0); Sched (TClient 0);
    Sched (TClient 0); Sched (TClient 1); Sched (TClient 1); Sched (TClient 1)] session_start with
  | Some s => p_clients s 0%nat = Joining ∧ p_clients s 1%nat = Joining ∧
      bg_thread_ (p_db s) = true ∧ bg_running (p_bg s) = true
  | None => False
  end.
Proof. vm_compute. by split_and!. Qed.
