(* ===== verification/Cli.v ===== *)
(** * The command line tool ([examples/clomdb_cli.cpp])

    [RunOne], [SplitLine] and [main].  A run has an exit code and what it
    wrote to the two output streams; the standard input is a byte string.

    [main] opens the database with the default options, so a background thread
    runs beside the commands.  It can hold the mutex only between two of them;
    [sched] says whether it does before command [i] ([yield]).  After a round it
    has nothing to do until the next write, so one choice between two commands
    covers every interleaving ([CliThreads] proves it). *)

From S2P Require Import Prelude Slice Status OrderedMap MemTable WriteBatch FileSystem Wal.
From S2P Require Import SSTable Version DB.

Record reply := mkReply { exit_code : Z; cout : bytes; cerr : bytes }.

Definition newline : byte := x0a.
Definition line_of (s : bytes) : bytes := s ++ [newline].

(** [std::cout << n] for a [size_t] or a non-negative [int]. *)
Definition show (n : Z) : bytes := decimal 20 n [].

(** ** [SplitLine] *)

(** [std::isspace] in the C locale. *)
Definition isspace (c : byte) : bool :=
  bool_decide (c = x20) || ((9 <=? byte_val c) && (byte_val c <=? 13)).

Fixpoint skip_spaces (s : bytes) : bytes :=
  match s with
  | c :: s' => if isspace c then skip_spaces s' else s
  | [] => []
  end.
(** The longest prefix without spaces, and the rest. *)
Fixpoint word (s : bytes) : bytes * bytes :=
  match s with
  | c :: s' => if isspace c then ([], s) else let '(w, rest) := word s' in (c :: w, rest)
  | [] => ([], [])
  end.
(** [iss >> tok]: fails when no character can be extracted. *)
Definition extract (s : bytes) : option (bytes * bytes) :=
  match skip_spaces s with [] => None | s' => Some (word s') end.

Fixpoint split_loop (fuel : nat) (s : bytes) : list bytes :=
  match fuel with
  | 0%nat => []
  | S fuel' =>
      match extract s with None => [] | Some (tok, rest) => tok :: split_loop fuel' rest end
  end.
Definition SplitLine (line : bytes) : list bytes := split_loop (length line) line.

(** ** [RunOne] *)

Definition error_reply (s : Status) : reply :=
  mkReply 1 [] (str "error: " ++ line_of (Status_ToString s)).
(** The reply to a command that prints OK when it succeeds. *)
Definition ok_reply (s : Status) : reply :=
  if negb (ok s) then error_reply s else mkReply 0 (line_of (str "OK")) [].

Definition get_reply (r : Status * bytes) : reply :=
  if IsNotFound r.1 then mkReply 0 (line_of (str "(not found)")) []
  else if negb (ok r.1) then error_reply r.1
  else mkReply 0 (line_of r.2) [].

Definition scan_text (l : list (bytes * bytes)) : bytes :=
  concat ((λ kv, kv.1 ++ str " = " ++ line_of kv.2) <$> l).

(** The line of level [lvl], if it has files. *)
Definition level_text (st : Stats) (lvl : nat) : bytes :=
  let files := nth lvl (files_per_level st) 0 in
  if files =? 0 then []
  else str "L" ++ show (Z.of_nat lvl) ++ str ": " ++ show files ++ str " files, " ++
       show (nth lvl (bytes_per_level st) 0) ++ line_of (str " bytes").
Definition stats_text (st : Stats) : bytes :=
  str "memtable: " ++ show (memtable_entries st) ++ str " entries, " ++
  show (memtable_bytes st) ++ line_of (str " bytes") ++
  concat (level_text st <$> seq 0 kMaxLevels).

Definition help_text : bytes := line_of
  (str "commands: put <k> <v> | get <k> | delete <k> | scan | flush | stats | help | exit").

Section cli.
Context {O : Oracle}.

(** [None]: the database call did not return. *)
Definition RunOne (args : list bytes) : M (option reply) :=
  match args with
  | [] => mret (Some (mkReply 0 [] []))
  | cmd :: _ =>
      let named s := bool_decide (cmd = str s) in
      let size n := (length args =? n)%nat in
      let arg i := nth i args [] in
      if named "put"%string && size 3%nat then
        s ← Put (mkWriteOptions false) (arg 1%nat) (arg 2%nat); mret (ok_reply <$> s)
      else if named "get"%string && size 2%nat then
        r ← Get (arg 1%nat) []; mret (Some (get_reply r))
      else if (named "delete"%string || named "del"%string) && size 2%nat then
        s ← Delete (mkWriteOptions false) (arg 1%nat); mret (ok_reply <$> s)
      else if named "scan"%string && size 1%nat then
        it ← NewIterator; mret (Some (mkReply 0 (scan_text (scan it)) []))
      else if named "flush"%string && size 1%nat then
        s ← Flush; mret (ok_reply <$> s)
      else if named "stats"%string && size 1%nat then
        st ← this GetStats; mret (Some (mkReply 0 (stats_text st) []))
      else if named "help"%string then mret (Some (mkReply 0 help_text []))
      else mret (Some (mkReply 1 [] (str "unrecognized command (try 'help'): " ++ line_of cmd)))
  end.

(** ** [main] *)

(** The background thread, between two commands. *)
Definition yield (runs : bool) : M bool :=
  db ← this id;
  if runs && bg_thread_ db && bg_work_requested_ db then
    r ← BackgroundRound; mret (match r with None => false | Some _ => true end)
  else mret true.

(** [std::getline] until it fails. *)
Fixpoint read_lines (line input : bytes) : list bytes :=
  match input with
  | [] => match line with [] => [] | _ => [line] end
  | c :: input =>
      if bool_decide (c = newline) then line :: read_lines [] input
      else read_lines (line ++ [c]) input
  end.

Definition prompt : bytes := str "clomdb> ".
Definition banner (db_path : bytes) : bytes := line_of
  (str "ClomDB CLI -- database at " ++ db_path ++ str " ('help' for commands, 'exit' to quit)").

(** The loop over the lines: what it writes to the two streams. *)
Fixpoint repl (sched : nat → bool) (i : nat) (lines : list bytes) : M (option (bytes * bytes)) :=
  match lines with
  | [] => mret (Some (prompt, []))
  | line :: lines =>
      match SplitLine line with
      | [] => r ← repl sched (S i) lines; mret ((λ '(o, e), (prompt ++ o, e)) <$> r)
      | cmd :: args =>
          if bool_decide (cmd = str "exit") || bool_decide (cmd = str "quit")
          then mret (Some (prompt, []))
          else
            y ← yield (sched i);
            if negb y then mret None else
            r1 ← RunOne (cmd :: args);
            match r1 with
            | None => mret None
            | Some r1 =>
                r ← repl sched (S i) lines;
                mret ((λ '(o, e), (prompt ++ cout r1 ++ o, cerr r1 ++ e)) <$> r)
            end
      end
  end.

(** From [int rc = 0;] to the end of [main]. *)
Definition commands (sched : nat → bool) (db_path : bytes) (args : list bytes) (input : bytes) :
    M (option reply) :=
  match args with
  | _ :: _ => y ← yield (sched 0%nat); if negb y then mret None else RunOne args
  | [] =>
      r ← repl sched 0 (read_lines [] input);
      mret ((λ '(o, e), mkReply 0 (banner db_path ++ o) e) <$> r)
  end.
Definition with_db (sched : nat → bool) (db_path : bytes) (args : list bytes) (input : bytes) :
    M (option reply) :=
  r ← commands sched db_path args input;
  match r with
  | None => mret None
  | Some r =>
      y ← yield (sched (S (length (read_lines [] input))));
      if negb y then mret None else Destroy;; mret (Some r)
  end.

(** A computation on a new object, which it destroys. *)
Definition on_object {A} (m : M A) (db : DB) : ST World A :=
  λ w, let '(r, (_, w')) := m (db, w) in (r, w').

(** [argv] without the program's name; [Open] gives an object exactly when its
    status is OK. *)
Definition main (sched : nat → bool) (program : bytes) (argv : list bytes) (input : bytes) :
    ST World (option reply) :=
  match argv with
  | [] => mret (Some (mkReply 2 []
      (str "usage: " ++ program ++ line_of (str " <db_path> [command args...]"))))
  | db_path :: args =>
      '(s, db) ← Open default_options db_path;
      match db with
      | Some db => on_object (with_db sched db_path args input) db
      | None => mret (Some (mkReply 1 [] (str "failed to open db: " ++ line_of (Status_ToString s))))
      end
  end.
End cli.
