(* ===== verification/CliSpec.v ===== *)
(** * What the command line tool promises

    The tool is a dialogue with a map: [answered] gives the reply to one
    command and the map after it, [dialogue] the same for the lines of an
    interactive session, [program] for a whole run.  Proved here: [RunOne],
    the loop and [main] keep to it. *)

From S2P Require Import Prelude Slice Status Coding OrderedMap MemTable WriteBatch FileSystem Wal.
From S2P Require Import SSTable SSTableSpec Version DB DBPaths Layers DBInv DBFlush DBReaders.
From S2P Require Import Merge DBCompact DBRead DBWrite DBOpen DBSpec DBSession Cli.

(** ** Tokens *)

Definition space (c : byte) : Prop := isspace c = true.
Definition letter (c : byte) : Prop := isspace c = false.
Definition is_word (w : bytes) : Prop := w ≠ [] ∧ Forall letter w.
(** Where a word ends. *)
Definition at_break (s : bytes) : Prop := match s with [] => True | c :: _ => space c end.

Inductive tokens : bytes → list bytes → Prop :=
  | tk_end s : Forall space s → tokens s []
  | tk_word sp w rest ts : Forall space sp → is_word w → at_break rest → tokens rest ts →
      tokens (sp ++ w ++ rest) (w :: ts).

(** ** Commands *)

Definition known_command (args : list bytes) : bool :=
  match args with
  | [] => true
  | [cmd] => bool_decide (cmd ∈ [str "scan"; str "flush"; str "stats"; str "help"])
  | [cmd; _] => bool_decide (cmd ∈ [str "get"; str "delete"; str "del"; str "help"])
  | [cmd; _; _] => bool_decide (cmd ∈ [str "put"; str "help"])
  | cmd :: _ => bool_decide (cmd = str "help")
  end.

Definition OK_text : bytes := line_of (str "OK").

Inductive answered (m : gmap bytes bytes) : list bytes → reply → gmap bytes bytes → Prop :=
  | an_nothing : answered m [] (mkReply 0 [] []) m
  | an_put k v : answered m [str "put"; k; v] (mkReply 0 OK_text []) (<[k := v]> m)
  | an_get_found k v : m !! k = Some v → answered m [str "get"; k] (mkReply 0 (line_of v) []) m
  | an_get_none k : m !! k = None →
      answered m [str "get"; k] (mkReply 0 (line_of (str "(not found)")) []) m
  | an_delete cmd k : cmd = str "delete" ∨ cmd = str "del" →
      answered m [cmd; k] (mkReply 0 OK_text []) (delete k m)
  | an_scan l : omap_wf l → omap_to_gmap l = m → answered m [str "scan"] (mkReply 0 (scan_text l) []) m
  | an_flush : answered m [str "flush"] (mkReply 0 OK_text []) m
  | an_stats st : answered m [str "stats"] (mkReply 0 (stats_text st) []) m
  | an_help args : answered m (str "help" :: args) (mkReply 0 help_text []) m
  | an_unknown cmd args : known_command (cmd :: args) = false →
      answered m (cmd :: args)
        (mkReply 1 [] (str "unrecognized command (try 'help'): " ++ line_of cmd)) m.

(** A line is blank, ends the session or is a command. *)
Definition leaves (args : list bytes) : bool :=
  match args with
  | cmd :: _ => bool_decide (cmd = str "exit") || bool_decide (cmd = str "quit")
  | [] => false
  end.

Inductive dialogue : gmap bytes bytes → list bytes → bytes → bytes → gmap bytes bytes → Prop :=
  | di_eof m : dialogue m [] prompt [] m
  | di_leave m line lines : leaves (SplitLine line) = true → dialogue m (line :: lines) prompt [] m
  | di_line m line lines r m1 o e m2 : leaves (SplitLine line) = false →
      answered m (SplitLine line) r m1 → dialogue m1 lines o e m2 →
      dialogue m (line :: lines) (prompt ++ cout r ++ o) (cerr r ++ e) m2.

Inductive program (db_path : bytes) (m : gmap bytes bytes) : list bytes → bytes → reply →
    gmap bytes bytes → Prop :=
  | pr_one args input r m' : args ≠ [] → answered m args r m' → program db_path m args input r m'
  | pr_dialogue input o e m' : dialogue m (read_lines [] input) o e m' →
      program db_path m [] input (mkReply 0 (banner db_path ++ o) e) m'.

(** ** Lemmas: tokens *)

Lemma skip_spaces_app sp s : Forall space sp → skip_spaces (sp ++ s) = skip_spaces s.
Proof. induction 1 as [|c sp Hc _ IH]; [done|]. cbn. unfold space in Hc. by rewrite Hc. Qed.

Lemma skip_spaces_spec s : ∃ sp, Forall space sp ∧ s = sp ++ skip_spaces s ∧
  match skip_spaces s with [] => True | c :: _ => letter c end.
Proof.
  induction s as [|c s (sp & Hsp & Hs & Hc)]; [by exists []|]. cbn.
  destruct (isspace c) eqn:E; [|by exists []]. exists (c :: sp). split_and!; [by constructor|cbn; congruence|done].
Qed.

Lemma word_app w rest : Forall letter w → at_break rest → word (w ++ rest) = (w, rest).
Proof.
  intros Hw Hr. induction Hw as [|c w Hc _ IH].
  - destruct rest as [|c rest]; [done|]. cbn in *. unfold space in Hr. by rewrite Hr.
  - cbn. unfold letter in Hc. by rewrite Hc, IH.
Qed.

Lemma word_spec s : let '(w, rest) := word s in s = w ++ rest ∧ Forall letter w ∧ at_break rest.
Proof.
  induction s as [|c s IH]; [done|]. cbn. destruct (isspace c) eqn:E; [done|].
  destruct (word s) as [w rest]. destruct IH as (-> & Hw & Hr). split_and!; [done|by constructor|done].
Qed.

Lemma extract_spec s : match extract s with
  | None => Forall space s
  | Some (w, rest) => ∃ sp, s = sp ++ w ++ rest ∧ Forall space sp ∧ is_word w ∧ at_break rest
  end.
Proof.
  unfold extract. destruct (skip_spaces_spec s) as (sp & Hsp & Hs & Hc).
  destruct (skip_spaces s) as [|c s'] eqn:E; [by rewrite Hs, app_nil_r|].
  pose proof (word_spec (c :: s')) as Hw. cbn [word] in *. unfold letter in Hc. rewrite Hc in *.
  destruct (word s') as [w rest]. destruct Hw as (Hs' & Hw & Hr). exists sp. split_and!; [congruence|done| |done].
  by split.
Qed.

Lemma split_loop_tokens fuel s : (length s ≤ fuel)%nat → tokens s (split_loop fuel s).
Proof.
  revert s. induction fuel as [|fuel IH]; intros s Hl.
  { destruct s; [|cbn in Hl; lia]. constructor. constructor. }
  cbn. pose proof (extract_spec s) as H. destruct (extract s) as [[w rest]|]; [|by constructor].
  destruct H as (sp & -> & Hsp & Hw & Hr). constructor; [done..|]. apply IH.
  rewrite !length_app in Hl. destruct Hw as [Hne _]. destruct w; [done|]. cbn in Hl. lia.
Qed.

Lemma SplitLine_tokens line : tokens line (SplitLine line).
Proof. by apply split_loop_tokens. Qed.

Lemma extract_word sp w rest : Forall space sp → is_word w → at_break rest →
  extract (sp ++ w ++ rest) = Some (w, rest).
Proof.
  intros Hsp [Hne Hw] Hr. unfold extract. rewrite skip_spaces_app by done.
  assert (skip_spaces (w ++ rest) = w ++ rest) as ->.
  { destruct w as [|c w]; [done|]. inversion Hw as [|? ? Hc]; subst. cbn. unfold letter in Hc. by rewrite Hc. }
  rewrite <- (word_app w rest) by done. by destruct w.
Qed.

Lemma extract_none s : Forall space s → extract s = None.
Proof. intros H. unfold extract. rewrite <- (app_nil_r s), skip_spaces_app by done. done. Qed.

Lemma tokens_unique s ts ts' : tokens s ts → tokens s ts' → ts = ts'.
Proof.
  intros H. revert ts'. induction H as [s Hs|sp w rest ts Hsp Hw Hr _ IH]; intros ts' H'.
  - apply extract_none in Hs. destruct H' as [|sp w rest ts ? ? ? _]; [done|].
    by rewrite extract_word in Hs.
  - pose proof (extract_word _ _ _ Hsp Hw Hr) as E. remember (sp ++ w ++ rest) as s eqn:Es.
    destruct H' as [s' Hs'|sp' w' rest' ts' Hsp' Hw' Hr' Hts'].
    + by rewrite extract_none in E.
    + rewrite extract_word in E by done. injection E as -> ->. f_equal. by apply IH.
Qed.

Lemma tokens_words s ts : tokens s ts → Forall is_word ts.
Proof. induction 1; by constructor. Qed.

(** Words separated by single spaces. *)
Fixpoint join_words (ws : list bytes) : bytes :=
  match ws with
  | [] => []
  | [w] => w
  | w :: ws => w ++ x20 :: join_words ws
  end.

Lemma tokens_space c s ts : space c → tokens s ts → tokens (c :: s) ts.
Proof.
  intros Hc [s' Hs|sp w rest ts' Hsp ? ? ?]; [constructor; by constructor|].
  rewrite app_comm_cons. constructor; [by constructor|done..].
Qed.

Lemma tokens_join ws : Forall is_word ws → tokens (join_words ws) ws.
Proof.
  induction 1 as [|w ws Hw Hws IH]; [repeat constructor|]. destruct ws as [|w' ws]; cbn.
  - rewrite <- (app_nil_r w) at 1. apply (tk_word [] w []); [constructor|done|done|repeat constructor].
  - apply (tk_word [] w); [constructor|done|done|]. by apply tokens_space.
Qed.

(** ** Lemmas: commands *)

Fixpoint args_length (args : list bytes) : Z :=
  match args with [] => 0 | a :: args => zlen a + args_length args end.
(** An upper bound of what a command adds to the database. *)
Definition args_weight (args : list bytes) : Z := 64 + 2 * args_length args.

Lemma args_length_nonneg args : 0 ≤ args_length args.
Proof. induction args; cbn; lia. Qed.

Lemma single_fits o : (match o with OpPut k v => zlen k + zlen v | OpDelete k => zlen k end) < 2 ^ 31 →
  batch_fits [o].
Proof.
  intros H. split; [done|]. rewrite batch_of_rep. cbn [fmap list_fmap concat]. rewrite app_nil_r.
  destruct o as [k v|k]; cbn [encode_op length]; rewrite ?length_app.
  - pose proof (lp_slice_length k). pose proof (lp_slice_length v). lia.
  - pose proof (lp_slice_length k). lia.
Qed.

Lemma unknown_command cmd args :
  (∀ s n, (s, n) ∈ [("put", 3); ("get", 2); ("delete", 2); ("del", 2); ("scan", 1); ("flush", 1); ("stats", 1)]%string →
     bool_decide (cmd = str s) && (length (cmd :: args) =? Z.to_nat n)%nat = false) →
  bool_decide (cmd = str "help") = false → known_command (cmd :: args) = false.
Proof.
  intros H Hh. destruct args as [|a [|b [|c args]]]; cbn [known_command]; [..|done];
    apply bool_decide_eq_false_2; intros Hin;
    repeat (apply elem_of_cons in Hin as [->|Hin]); try (by apply elem_of_nil in Hin);
    try (by vm_compute in Hh).
  - by specialize (H "scan"%string 1 ltac:(set_solver)).
  - by specialize (H "flush"%string 1 ltac:(set_solver)).
  - by specialize (H "stats"%string 1 ltac:(set_solver)).
  - by specialize (H "get"%string 2 ltac:(set_solver)).
  - by specialize (H "delete"%string 2 ltac:(set_solver)).
  - by specialize (H "del"%string 2 ltac:(set_solver)).
  - by specialize (H "put"%string 3 ltac:(set_solver)).
Qed.

Lemma tokens_length s ts : tokens s ts → args_length ts ≤ zlen s.
Proof.
  induction 1 as [|sp w rest ts _ _ _ _ IH]; cbn; [lia|]. rewrite !length_app. lia.
Qed.
Lemma SplitLine_length line : args_length (SplitLine line) ≤ zlen line.
Proof. apply tokens_length, SplitLine_tokens. Qed.

(** Upper bounds of what a session adds, in bytes and in file numbers. *)
Fixpoint lines_weight (lines : list bytes) : Z :=
  match lines with [] => 0 | line :: lines => 64 + 2 * zlen line + lines_weight lines end.
Definition session_weight (args : list bytes) (input : bytes) : Z :=
  args_weight args + lines_weight (read_lines [] input).
Definition session_numbers (input : bytes) : Z :=
  (2 * zlen (read_lines [] input) + 4) * number_stride.

Lemma lines_weight_nonneg lines : 0 ≤ lines_weight lines.
Proof. induction lines; cbn [lines_weight]; lia. Qed.

(** Reading cuts the input, it does not add to it. *)
Lemma read_lines_length line input :
  Forall (λ l, zlen l ≤ zlen line + zlen input) (read_lines line input).
Proof.
  revert line. induction input as [|c input IH]; intros line; cbn [read_lines].
  - destruct line; [constructor|]. constructor; [cbn; lia|constructor].
  - destruct (bool_decide _).
    + constructor; [cbn; lia|]. eapply Forall_impl; [apply IH|]. intros l. cbn. lia.
    + eapply Forall_impl; [apply IH|]. intros l. cbn beta. rewrite length_app. cbn. lia.
Qed.

Section cli.
Context {O : Oracle} `{!FaultFree O}.

(** The state after a command. *)
Definition command_post (options : Options) (path : bytes) (W N : Z) (m : gmap bytes bytes)
    (args : list bytes) (r : option reply) (s : DB * World) : Prop :=
  ∃ rp m', r = Some rp ∧ answered m args rp m' ∧
    serves options path (W + args_weight args) (N + number_stride) s.1 (w_disk s.2) m'.

Lemma command_write options path W N db w m o args : serves options path W N db (w_disk w) m →
  compaction_ok options → roomy (W + args_weight args) N →
  (match o with OpPut k v => zlen k + zlen v | OpDelete k => zlen k end) ≤ args_length args < 2 ^ 31 →
  answered m args (mkReply 0 OK_text []) (map_op m o) →
  wp (Write (mkWriteOptions false) (batch_of [o]) ≫= λ s, mret (ok_reply <$> s))
    (command_post options path W N m args) (db, w).
Proof.
  intros Hs Hc [Hr1 Hr2] Hl Ha.
  assert (ops_weight [o] ≤ args_weight args) as Hw.
  { unfold ops_weight, args_weight. destruct o; cbn [op_entry fmap list_fmap weights]; unfold weight;
      cbn [e_key e_value length]; lia. }
  apply wp_bind. eapply wp_mono; [apply (write_serves options path W N); [done| |done|]|].
  - apply single_fits. lia.
  - split; lia.
  - intros r [db' w'] [-> Hs']. apply wp_ret. exists (mkReply 0 OK_text []), (map_op m o).
    split_and!; [done|done|]. eapply serves_mono; [| |exact Hs']; lia.
Qed.

Lemma command_same options path W N m args rp s :
  serves options path W N s.1 (w_disk s.2) m → answered m args rp m →
  command_post options path W N m args (Some rp) s.
Proof.
  intros Hs Ha. exists rp, m. split_and!; [done|done|]. pose proof (args_length_nonneg args).
  unfold args_weight, number_stride. eapply serves_mono; [| |exact Hs]; lia.
Qed.

Lemma size_args (cmd : bytes) args n : (length (cmd :: args) =? S n)%nat = true → length args = n.
Proof. intros H%Nat.eqb_eq. cbn in H. lia. Qed.

Lemma RunOne_serves options path W N db w m args : serves options path W N db (w_disk w) m →
  compaction_ok options → roomy (W + args_weight args) N → args_length args < 2 ^ 31 →
  wp (RunOne args) (command_post options path W N m args) (db, w).
Proof.
  intros Hs Hc Hr Hl. destruct args as [|cmd args].
  { apply wp_ret. apply command_same; [done|constructor]. }
  pose proof (args_length_nonneg args). unfold RunOne. cbv zeta.
  destruct (bool_decide (cmd = str "put") && _) eqn:E1.
  { apply andb_true_iff in E1 as [->%bool_decide_eq_true E1%size_args].
    destruct args as [|k [|v [|? ?]]]; try done. cbn [nth].
    apply (command_write _ _ _ _ _ _ _ (OpPut k v)); [done|done|done|cbn in *; lia|constructor]. }
  destruct (bool_decide (cmd = str "get") && _) eqn:E2.
  { apply andb_true_iff in E2 as [->%bool_decide_eq_true E2%size_args].
    destruct args as [|k [|? ?]]; try done. cbn [nth]. apply wp_bind.
    eapply wp_mono; [by apply get_serves|]. intros r [db' w'] [-> Hs']. apply wp_ret.
    apply command_same; [done|]. unfold get_result, get_reply.
    destruct (m !! k) eqn:Ek; cbn; by constructor. }
  destruct ((_ || _) && _) eqn:E3.
  { apply andb_true_iff in E3 as [E3 E3'%size_args]. destruct args as [|k [|? ?]]; try done. cbn [nth].
    assert (cmd = str "delete" ∨ cmd = str "del") as Hcmd
      by (apply orb_true_iff in E3 as [?%bool_decide_eq_true|?%bool_decide_eq_true]; auto).
    apply (command_write _ _ _ _ _ _ _ (OpDelete k)); [done|done|done|cbn in *; lia|by constructor]. }
  destruct (bool_decide (cmd = str "scan") && _) eqn:E4.
  { apply andb_true_iff in E4 as [->%bool_decide_eq_true E4%size_args]. destruct args; [|done].
    apply wp_bind. eapply wp_mono; [by apply iterate_serves|]. intros it [db' w'] (Hwf & Hm & Hs').
    apply wp_ret. apply command_same; [done|by constructor]. }
  destruct (bool_decide (cmd = str "flush") && _) eqn:E5.
  { apply andb_true_iff in E5 as [->%bool_decide_eq_true E5%size_args]. destruct args; [|done].
    pose proof (args_length_nonneg [str "flush"]). destruct Hr.
    apply wp_bind. eapply wp_mono; [apply (flush_serves options path W N); [done|done|]|].
    { split; [unfold args_weight in *; lia|done]. }
    intros r [db' w'] [-> Hs']. apply wp_ret. exists (mkReply 0 OK_text []), m.
    split_and!; [done|constructor|]. eapply serves_mono; [| |exact Hs']; unfold args_weight; lia. }
  destruct (bool_decide (cmd = str "stats") && _) eqn:E6.
  { apply andb_true_iff in E6 as [->%bool_decide_eq_true E6%size_args]. destruct args; [|done].
    apply wp_bind, wp_this, wp_ret. apply command_same; [done|constructor]. }
  destruct (bool_decide (cmd = str "help")) eqn:E7.
  { apply bool_decide_eq_true in E7 as ->. apply wp_ret. apply command_same; [done|constructor]. }
  apply wp_ret. apply command_same; [done|]. constructor. apply unknown_command; [|done].
  intros s n Hin. rewrite andb_orb_distrib_l in E3. apply orb_false_iff in E3 as [E3 E3'].
  set_unfold in Hin. by naive_solver.
Qed.

Lemma yield_serves options path W N db w m b : serves options path W N db (w_disk w) m →
  compaction_ok options → roomy W N →
  wp (yield b) (λ y '(db', w'), y = true ∧
    serves options path W (N + number_stride) db' (w_disk w') m) (db, w).
Proof.
  intros Hs Hc Hr. unfold yield. apply wp_bind, wp_this. cbn [id]. destruct (_ && _).
  - apply wp_bind. eapply wp_mono; [by apply (background_serves options path W N)|].
    intros r [db' w'] [-> Hs']. apply wp_ret. done.
  - apply wp_ret. split; [done|]. eapply serves_mono; [| |exact Hs]; unfold number_stride; lia.
Qed.

Lemma repl_serves sched options path lines : compaction_ok options →
  Forall (λ l, zlen l < 2 ^ 31) lines → ∀ W N i db w m, serves options path W N db (w_disk w) m →
  roomy (W + lines_weight lines) (N + 2 * zlen lines * number_stride) →
  wp (repl sched i lines) (λ r '(db', w'), ∃ o e m', r = Some (o, e) ∧ dialogue m lines o e m' ∧
    serves options path (W + lines_weight lines) (N + 2 * zlen lines * number_stride)
      db' (w_disk w') m') (db, w).
Proof.
  intros Hc. induction 1 as [|line lines Hline _ IH]; intros W N i db w m Hs Hr; cbn [repl].
  { apply wp_ret. exists prompt, [], m. split_and!; [done|constructor|].
    eapply serves_mono; [| |exact Hs]; cbn; lia. }
  pose proof (lines_weight_nonneg lines) as Hlw. pose proof (SplitLine_length line) as Hsl.
  assert (args_weight (SplitLine line) ≤ 64 + 2 * zlen line) as Haw by (unfold args_weight; lia).
  assert (zlen (line :: lines) = 1 + zlen lines) as Hlen by (cbn [length]; lia). rewrite Hlen in *.
  cbn [lines_weight] in *. unfold number_stride in *. destruct Hr as [Hr1 Hr2].
  assert (∀ r1 W1 N1 m1 db1 w1, answered m (SplitLine line) r1 m1 → leaves (SplitLine line) = false →
    serves options path W1 N1 db1 (w_disk w1) m1 → W1 ≤ W + (64 + 2 * zlen line) → N1 ≤ N + 2 * 2 ^ 34 →
    wp (repl sched (S i) lines ≫= λ r,
        mret ((λ '(o, e), (prompt ++ cout r1 ++ o, cerr r1 ++ e)) <$> r))
      (λ r '(db', w'), ∃ o e m', r = Some (o, e) ∧ dialogue m (line :: lines) o e m' ∧
        serves options path (W + (64 + 2 * zlen line + lines_weight lines))
          (N + 2 * (1 + zlen lines) * 2 ^ 34) db' (w_disk w') m') (db1, w1)) as Hrest.
  { intros r1 W1 N1 m1 db1 w1 Ha Hlv Hs1 HW HN. apply wp_bind.
    eapply wp_mono; [apply (IH W1 N1 (S i) db1 w1 m1 Hs1); split; lia|].
    intros r [db2 w2] (o & e & m2 & -> & Hd & Hs2). apply wp_ret.
    eexists _, _, m2. split_and!; [done|by eapply di_line|]. eapply serves_mono; [| |exact Hs2]; lia. }
  destruct (SplitLine line) as [|cmd args] eqn:El.
  { apply (Hrest (mkReply 0 [] []) W N m); [constructor|done|done|lia|lia]. }
  destruct (bool_decide (cmd = str "exit") || bool_decide (cmd = str "quit")) eqn:Ex.
  { apply wp_ret. exists prompt, [], m. split_and!; [done|apply di_leave; by rewrite El|].
    eapply serves_mono; [| |exact Hs]; lia. }
  apply wp_bind. eapply wp_mono; [apply (yield_serves options path W N); [done|done|split; lia]|].
  intros y [db1 w1] [-> Hs1]. cbn [negb].
  apply wp_bind. eapply wp_mono; [apply (RunOne_serves options path W (N + number_stride) db1 w1 m (cmd :: args)); try done|].
  { unfold number_stride. split; lia. } { lia. }
  intros r [db2 w2] (rp & m2 & -> & Ha & Hs2). unfold number_stride in *.
  by apply (Hrest rp (W + args_weight (cmd :: args)) (N + 2 ^ 34 + 2 ^ 34) m2); [| | |lia|lia].
Qed.

Lemma main_default : options_ok default_options ∧ compaction_ok default_options.
Proof. by vm_compute. Qed.

Lemma commands_serves sched path args input W N db w m : serves default_options path W N db (w_disk w) m →
  args_length args < 2 ^ 31 → zlen input < 2 ^ 31 →
  roomy (W + session_weight args input) (N + session_numbers input) →
  wp (commands sched path args input) (λ r '(db', w'), ∃ rp m', r = Some rp ∧
    program path m args input rp m' ∧
    serves default_options path (W + session_weight args input)
      (N + session_numbers input - 2 * number_stride) db' (w_disk w') m') (db, w).
Proof.
  intros Hs Ha Hi [Hr1 Hr2]. destruct main_default as [_ Hc].
  pose proof (lines_weight_nonneg (read_lines [] input)). pose proof (args_length_nonneg args).
  unfold session_weight, session_numbers, args_weight in *. unfold number_stride in *.
  unfold commands. destruct args as [|cmd args].
  - apply wp_bind. eapply wp_mono; [apply (repl_serves sched default_options path _ Hc); [|done|]|].
    + eapply Forall_impl; [apply read_lines_length|]. intros l. cbn. lia.
    + unfold number_stride. cbn in *. split; lia.
    + intros r [db1 w1] (o & e & m' & -> & Hd & Hs1). apply wp_ret. eexists _, m'.
      split_and!; [done|by constructor|]. unfold number_stride in *.
      eapply serves_mono; [| |exact Hs1]; cbn in *; lia.
  - apply wp_bind. eapply wp_mono; [apply (yield_serves default_options path W N); [done|done|split; lia]|].
    intros y [db1 w1] [-> Hs1]. cbn [negb].
    eapply wp_mono; [apply (RunOne_serves default_options path W (N + number_stride) db1 w1 m (cmd :: args)); try done|].
    { unfold number_stride, args_weight. split; lia. }
    intros r [db2 w2] (rp & m2 & -> & Hans & Hs2). exists rp, m2. split_and!; [done|by constructor|].
    unfold args_weight, number_stride in *. eapply serves_mono; [| |exact Hs2]; lia.
Qed.

Lemma destroy_stores options path W N db w m : serves options path W N db (w_disk w) m → roomy W N →
  wp Destroy (λ _ '(db', w'), stored path W (N + 1) (w_disk w') m) (db, w).
Proof.
  intros Hs Hr. unfold Destroy. apply wp_bind, wp_this. cbn [id]. rewrite (se_open _ _ _ _ _ _ _ Hs).
  apply wp_bind. eapply wp_mono; [by apply (close_stores options path W N)|]. intros s [db' w'] (_ & _ & ?). by apply wp_ret.
Qed.

Lemma with_db_stores sched path args input W N db w m : serves default_options path W N db (w_disk w) m →
  args_length args < 2 ^ 31 → zlen input < 2 ^ 31 →
  roomy (W + session_weight args input) (N + session_numbers input) →
  wp (with_db sched path args input) (λ r '(_, w'), ∃ rp m', r = Some rp ∧
    program path m args input rp m' ∧
    stored path (W + session_weight args input) (N + session_numbers input) (w_disk w') m') (db, w).
Proof.
  intros Hs Ha Hi Hr. destruct main_default as [Ho Hc].
  unfold with_db. apply wp_bind. eapply wp_mono; [by apply commands_serves|].
  intros r [db2 w2] (rp & m' & -> & Hp & Hs2). destruct Hr as [Hr1 Hr2].
  apply wp_bind. eapply wp_mono; [eapply yield_serves; [exact Hs2|done|split; unfold number_stride; lia]|].
  intros y [db3 w3] [-> Hs3]. cbn [negb].
  apply wp_bind. eapply wp_mono; [eapply destroy_stores; [exact Hs3|split; unfold number_stride; lia]|].
  intros [] [db4 w4] Hst4. apply wp_ret. exists rp, m'. split_and!; [done|done|].
  destruct Hst4 as (Hwf & Hcl & v & tabs & ? & ? & ? & ?). split_and!; [done|done|].
  exists v, tabs. split_and!; [done|done|done|unfold number_stride in *; lia].
Qed.

Lemma main_stores sched prog path args input W N w m : stored path W N (w_disk w) m → good_path path →
  args_length args < 2 ^ 31 → zlen input < 2 ^ 31 →
  roomy (W + session_weight args input) (N + session_numbers input) →
  wp (main sched prog (path :: args) input) (λ r w', ∃ rp m', r = Some rp ∧
    program path m args input rp m' ∧
    stored path (W + session_weight args input) (N + session_numbers input) (w_disk w') m') w.
Proof.
  intros Hst Hg Ha Hi Hr. destruct main_default as [Ho Hc]. unfold main. apply wp_bind.
  eapply wp_mono; [apply (open_serves default_options path W N m); [done|done|done|]|].
  { unfold open_allowed. by destruct (_ || _). }
  intros [s odb] w1 (db & -> & -> & Hs). unfold wp, on_object.
  pose proof (with_db_stores sched path args input W N db w1 m Hs Ha Hi Hr) as H.
  unfold wp in H. by destruct (with_db sched path args input (db, w1)) as [r [db' w']].
Qed.
End cli.
