(* ===== verification/CliThreads.v ===== *)
(** * The tool's schedule and the threads

    [Cli] lets the background thread run between two commands, where a
    schedule says.  [Threads] has the same process as two threads that take
    steps.  Here: every run of the threads in which one client makes the calls
    is a run with a schedule ([trun_serves]), so what is proved of the tool for
    every schedule holds for every interleaving of its two threads. *)

From stdpp Require Import functions.
From S2P Require Import Prelude Slice Status OrderedMap MemTable WriteBatch FileSystem Wal.
From S2P Require Import SSTable Version DB DBWrite Frame Concurrency Threads SoloRuns Cli CliSpec.

(** ** One caller *)

Definition calls_of (es : list event) : list call :=
  omap (λ e, match e with EvCall _ c => Some c | _ => None end) es.
Definition returns_of (es : list event) : list answer :=
  omap (λ e, match e with EvReturn _ a => Some a | _ => None end) es.
(** Only client 0 calls. *)
Definition one_caller (es : list event) : Prop :=
  Forall (λ e, event_thread e = None ∨ event_thread e = Some 0%nat) es.
#[global] Instance one_caller_dec es : Decision (one_caller es).
Proof. unfold one_caller. apply _. Defined.

Section serving.
Context {O : Oracle}.

(** A call as its caller sees it, [Close] included. *)
Definition call_answer (c : call) : M (option answer) :=
  match c with
  | CallClose => s ← Close; mret (Some (AStatus s))
  | _ => r ← call_body c; mret (snd <$> r)
  end.

(** The calls one after the other, with the background thread before each and
    after the last. *)
Definition sched_tail (sched : nat → bool) (i : nat) : bool := sched (S i).
Definition sched_cons (y : bool) (sched : nat → bool) (i : nat) : bool :=
  match i with 0%nat => y | S i => sched i end.

Fixpoint serve (sched : nat → bool) (cs : list call) : M (option (list answer)) :=
  y ← yield (sched 0%nat);
  if negb y then mret None else
  match cs with
  | [] => mret (Some [])
  | c :: cs =>
      a ← call_answer c;
      match a with
      | None => mret None
      | Some a => r ← serve (sched_tail sched) cs; mret ((a ::.) <$> r)
      end
  end.

(** The calls that are left, from the middle of one. *)
Definition resume (pc : client_pc) (sched : nat → bool) (cs : list call) : M (option (list answer)) :=
  match pc with
  | Idle => serve sched cs
  | Entering c | Inside c => serve sched (c :: cs)
  | Leaving _ a => r ← serve sched cs; mret ((a ::.) <$> r)
  | _ => s ← Close_finish; r ← serve sched cs; mret ((AStatus s ::.) <$> r)
  end.

(** ** Lemmas: the background thread between two calls *)

Lemma yield_idle y db w : y && bg_thread_ db && bg_work_requested_ db = false →
  yield y (db, w) = (true, (db, w)).
Proof. intros E. unfold yield, this, gets. rewrite run_bind. cbn [fst snd id]. by rewrite E. Qed.

Lemma yield_round db w r dw : bg_thread_ db = true → bg_work_requested_ db = true →
  BackgroundRound (db, w) = (Some r, dw) → yield true (db, w) = (true, dw).
Proof.
  intros E1 E2 E. unfold yield, this, gets. rewrite run_bind. cbn [fst snd id]. rewrite E1, E2. cbn [andb].
  by rewrite run_bind, E.
Qed.

Lemma yield_flags y db w db' w' : yield y (db, w) = (true, (db', w')) →
  closed_ db' = closed_ db ∧ bg_thread_ db' = bg_thread_ db.
Proof.
  unfold yield, this, gets. rewrite run_bind. cbn [fst snd id].
  destruct (y && _ && _); [|by intros [= <- <-]]. rewrite run_bind.
  destruct (BackgroundRound (db, w)) as [[r|] [db1 w1]] eqn:E; [|done]. cbn. intros [= <- <-].
  apply BackgroundRound_flags in E.
  split; [by apply (f_equal fl_closed) in E|by apply (f_equal fl_thread) in E].
Qed.

(** The first yield of [serve], apart from the rest. *)
Definition serve_now (sched : nat → bool) (cs : list call) : M (option (list answer)) :=
  match cs with
  | [] => mret (Some [])
  | c :: cs =>
      a ← call_answer c;
      match a with
      | None => mret None
      | Some a => r ← serve sched cs; mret ((a ::.) <$> r)
      end
  end.

Lemma serve_now_eq sched cs s : serve sched cs s =
  (y ← yield (sched 0%nat); if negb y then mret None else serve_now (sched_tail sched) cs) s.
Proof. by destruct cs. Qed.

Lemma serve_idle sched cs db w : serve (sched_cons false sched) cs (db, w) = serve_now sched cs (db, w).
Proof. rewrite serve_now_eq, run_bind. cbn [sched_cons]. by rewrite yield_idle. Qed.

Lemma serve_requested sched cs db w : bg_work_requested_ db = false →
  serve sched cs (db, w) = serve_now (sched_tail sched) cs (db, w).
Proof.
  intros E. rewrite serve_now_eq, run_bind, yield_idle; [done|]. by rewrite E, andb_false_r.
Qed.

(** A round of the background thread before the call. *)
Lemma serve_round sched cs db w r db1 w1 : bg_thread_ db = true → bg_work_requested_ db = true →
  BackgroundRound (db, w) = (Some r, (db1, w1)) →
  serve (sched_cons true (sched_tail sched)) cs (db, w) = serve sched cs (db1, w1).
Proof.
  intros E1 E2 E. rewrite serve_now_eq, run_bind. cbn [sched_cons]. rewrite (yield_round _ _ _ _ E1 E2 E).
  cbn [fst snd negb]. rewrite serve_requested; [by destruct cs|].
  apply BackgroundRound_flags in E. by apply (f_equal fl_requested) in E.
Qed.
(** ** Lemmas: the simulation *)

(** A step of the background thread that is not a round keeps the object; a
    round happens when the client is between two calls. *)
Lemma bg_step_cases s e s' : inv s → bg_step s = Some (e, s') →
  p_db s' = p_db s ∧ p_world s' = p_world s ∨
  ∃ r, BackgroundRound (p_db s, p_world s) = (Some r, (p_db s', p_world s')) ∧
    bg_thread_ (p_db s) = true ∧ bg_work_requested_ (p_db s) = true ∧
    ∀ t, p_clients s t = Idle ∨ ∃ c, p_clients s t = Entering c.
Proof.
  intros Hi. pose proof (inv_coherent _ Hi) as Hc. unfold bg_step. destruct (p_bg s) eqn:Eb; try done.
  - intros H. apply bind_Some in H as (s1 & [E ->]%lock_Some & [= <- <-]). by left.
  - destruct (_ || _); intros [= <- <-]; by left.
  - destruct (shutting_down_ (p_db s)) eqn:Ed; [intros [= <- <-]; by left|].
    destruct (BackgroundRound _) as [[r|] [db' w']] eqn:E; [|done]. intros [= <- <-]. right. exists r.
    split_and!; [done|by apply (co_running _ _ _ Hc)|by apply (co_working _ _ _ Hc)|]. intros t.
    assert (holds (TClient t) s = false) as Hh.
    { rewrite (inv_mutex _ Hi), (mutex_of TBg) by (done || (cbn; by rewrite Eb)). done. }
    pose proof (co_closing _ _ _ Hc t) as Hcl. cbn in Hh, Hcl.
    destruct (p_clients s t); try done; [by left|right; by eexists|..];
      specialize (Hcl eq_refl); congruence.
Qed.

Lemma resume_round pc sched cs db w r db1 w1 : bg_thread_ db = true → bg_work_requested_ db = true →
  BackgroundRound (db, w) = (Some r, (db1, w1)) → pc = Idle ∨ (∃ c, pc = Entering c) →
  resume pc (sched_cons true (sched_tail sched)) cs (db, w) = resume pc sched cs (db1, w1).
Proof.
  intros E1 E2 E [->|[c ->]]; unfold resume; by rewrite (serve_round _ _ _ _ _ _ _ E1 E2 E).
Qed.

(** The body of a call, then what is left. *)
Lemma resume_body c sched cs db w a dw : call_answer c (db, w) = (Some a, dw) →
  resume (Inside c) (sched_cons false sched) cs (db, w) = resume (Leaving c a) sched cs dw.
Proof.
  intros E. unfold resume. rewrite serve_idle. cbn [serve_now]. by rewrite run_bind, E.
Qed.

Lemma call_body_answer c s l a dw : call_body c s = (Some (l, a), dw) → call_answer c s = (Some a, dw).
Proof.
  intros E. destruct c; try done; cbn [call_answer]; rewrite run_bind, E; done.
Qed.

Lemma Close_closed s : closed_ s.1 = true → Close s = (OK, s).
Proof. intros E. destruct s as [db w]. unfold Close, this, gets. rewrite run_bind. cbn in *. by rewrite E. Qed.
Lemma Close_open s : closed_ s.1 = false → Close s = Close_finish (Close_begin s).2.
Proof. intros E. destruct s as [db w]. unfold Close, this, gets. rewrite run_bind. cbn in *. by rewrite E. Qed.

(** A step of the client. *)
Lemma client_step_resume s e s' sched cs : client_step 0 s = Some (e, s') → ∃ sched',
  resume (p_clients s 0%nat) sched' cs (p_db s, p_world s) =
  (r ← resume (p_clients s' 0%nat) sched cs;
   mret (match e with EvReturn _ a => (a ::.) <$> r | _ => r end)) (p_db s', p_world s').
Proof.
  unfold client_step. destruct (p_clients s 0%nat) as [|c|c|c a| | | |] eqn:Epc; try done.
  - intros H. apply bind_Some in H as (s1 & [E ->]%lock_Some & [= <- <-]). exists sched.
    rewrite set_pc_clients. by rewrite run_bind_ret.
  - assert (∀ a dw l, call_answer c (p_db s, p_world s) = (Some a, dw) →
      resume (Inside c) (sched_cons false sched) cs (p_db s, p_world s) =
      (r ← resume (Leaving c a) sched cs; mret (match EvBody 0 l with EvReturn _ a => (a ::.) <$> r | _ => r end)) dw) as Hb.
    { intros a dw l E. by rewrite (resume_body _ _ _ _ _ _ _ E), run_bind_ret. }
    assert (∀ l a dw, call_body c (p_db s, p_world s) = (Some (l, a), dw) →
      let s' := if call_notifies c (p_db s) a then notify (set_pc 0 (Leaving c a) (set_object dw s))
        else set_pc 0 (Leaving c a) (set_object dw s) in ∃ sched',
      resume (Inside c) sched' cs (p_db s, p_world s) =
      (r ← resume (p_clients s' 0%nat) sched cs; mret r) (p_db s', p_world s')) as Hn.
    { intros l a [db1 w1] E%call_body_answer. exists (sched_cons false sched). cbv zeta.
      rewrite (Hb _ _ l E). destruct (call_notifies _ _ _);
        rewrite ?clients_notify, ?(proj1 (db_notify _)), ?(proj2 (db_notify _)), set_pc_clients; done. }
    destruct c; try (destruct (call_body _ _) as [[[l a]|] dw] eqn:E; [|done]; intros [= <- <-]; by eapply Hn).
    destruct (closed_ (p_db s)) eqn:Ecl; intros [= <- <-]; rewrite set_pc_clients.
    + exists (sched_cons false sched). apply (Hb _ _ LCloseAgain). cbn [call_answer]. by rewrite run_bind, Close_closed.
    + exists (sched_cons false sched). unfold resume. rewrite serve_idle. cbn [serve_now call_answer].
      rewrite !run_bind, Close_open by done. cbn [set_pc p_db p_world].
      rewrite (proj1 (db_notify _)), (proj2 (db_notify _)). cbn.
      by rewrite run_bind.
  - intros [= <- <-]. exists sched. rewrite set_pc_clients. done.
  - intros [= <- <-]. exists sched. rewrite set_pc_clients. by rewrite run_bind_ret.
  - destruct (join_blocks s); [done|]. intros [= <- <-]. exists sched.
    rewrite set_pc_clients. by rewrite run_bind_ret.
  - intros H. apply bind_Some in H as (s1 & [E ->]%lock_Some & [= <- <-]). exists sched.
    rewrite set_pc_clients. by rewrite run_bind_ret.
  - destruct (Close_finish _) as [r [db1 w1]] eqn:E. intros [= <- <-]. exists sched. rewrite set_pc_clients.
    rewrite run_bind_ret. unfold resume. by rewrite run_bind, E.
Qed.

Lemma next_caller a s e s' : solo s → next a s = Some (e, s') →
  event_thread e = None ∨ event_thread e = Some 0%nat →
  solo s' ∧ ∀ sched cs, inv s → ∃ sched',
    resume (p_clients s 0%nat) sched' (match e with EvCall _ c => c :: cs | _ => cs end) (p_db s, p_world s) =
    (r ← resume (p_clients s' 0%nat) sched cs;
     mret (match e with EvReturn _ a => (a ::.) <$> r | _ => r end)) (p_db s', p_world s').
Proof.
  intros Hs En He. destruct a as [[|t]|t c| |]; cbn [next thread_step] in En.
  - destruct (bg_step_clients _ _ _ En) as [Ec Ee]. split; [intros t Ht; rewrite Ec; by apply Hs|].
    intros sched cs Hi. rewrite Ec. destruct e; try done; rewrite run_bind_ret.
    all: destruct (bg_step_cases _ _ _ Hi En) as [[-> ->]|(r & E & E1 & E2 & Hpc)]; [by exists sched|].
    all: eexists; eapply resume_round; [exact E1|exact E2|exact E|apply Hpc].
  - destruct (decide (t = 0%nat)) as [->|Hne]; [|unfold client_step in En; by rewrite Hs in En].
    split; [eapply (solo_next (Sched (TClient 0))); [exact Hs|done|exact En]|]. intros sched cs _.
    destruct (client_step_resume _ _ _ sched cs En) as [sched' E]. exists sched'. rewrite <- E.
    apply client_step_moves in En as [Hm _]. by destruct Hm.
  - destruct (p_clients s t) eqn:Epc; try done. destruct (call_ok c); [|done]. injection En as <- <-.
    cbn in He. assert (t = 0%nat) as -> by (destruct He; congruence). split.
    + intros t' Ht'. cbn. rewrite fn_lookup_insert_ne by done. by apply Hs.
    + intros sched cs _. exists sched. by rewrite Epc, set_pc_clients, run_bind_ret.
  - destruct (p_bg s); try done. injection En as <- <-. split; [done|]. intros sched cs _. exists sched.
    by rewrite run_bind_ret.
  - injection En as <- <-. split; [done|]. intros sched cs _. exists sched. by rewrite run_bind_ret.
Qed.

Lemma trun_resume s es s' : trun s es s' → inv s → solo s → one_caller es → p_clients s' 0%nat = Idle →
  ∃ sched, resume (p_clients s 0%nat) sched (calls_of es) (p_db s, p_world s) =
    (Some (returns_of es), (p_db s', p_world s')).
Proof.
  induction 1 as [s|a s e s1 es s2 _ En _ IH]; intros Hi Hs Ho Hend.
  { exists (λ _, false). rewrite Hend. unfold resume. by rewrite serve_now_eq, run_bind, yield_idle. }
  apply Forall_cons in Ho as [He Ho]. destruct (next_caller _ _ _ _ Hs En He) as [Hs1 Hr].
  destruct (IH (next_inv _ _ _ _ Hi En) Hs1 Ho Hend) as [sched E].
  destruct (Hr sched (calls_of es) Hi) as [sched' E']. exists sched'. rewrite run_bind, E in E'.
  destruct e; exact E'.
Qed.

(** What a run of the threads answers and leaves is what the calls answer and
    leave, one after the other, with the background thread between them. *)
Lemma trun_serves db w es s : closed_ db = false → trun (start db w) es s → one_caller es →
  p_clients s 0%nat = Idle →
  ∃ sched, serve sched (calls_of es) (db, w) = (Some (returns_of es), (p_db s, p_world s)).
Proof.
  intros Hcl Hrun Ho Hend.
  by apply (trun_resume _ _ _ Hrun (start_inv db w Hcl) (start_solo db w) Ho Hend).
Qed.
End serving.

(** ** The calls of the tool *)

(** The call a command makes, if it makes one. *)
Definition command_call (args : list bytes) : option call :=
  match args with
  | [cmd; k; v] =>
      if bool_decide (cmd = str "put") then Some (CallWrite (mkWriteOptions false) [OpPut k v]) else None
  | [cmd; k] =>
      if bool_decide (cmd = str "get") then Some (CallGet k [])
      else if bool_decide (cmd = str "delete") || bool_decide (cmd = str "del")
      then Some (CallWrite (mkWriteOptions false) [OpDelete k]) else None
  | [cmd] =>
      if bool_decide (cmd = str "scan") then Some CallIterate
      else if bool_decide (cmd = str "flush") then Some CallFlush
      else if bool_decide (cmd = str "stats") then Some CallStats else None
  | _ => None
  end.
Definition answer_reply (a : answer) : reply :=
  match a with
  | AStatus s => ok_reply s
  | AGet r => get_reply r
  | AScan l => mkReply 0 (scan_text l) []
  | AStats st => mkReply 0 (stats_text st) []
  end.
(** The reply to a command that makes no call. *)
Definition plain_reply (args : list bytes) : reply :=
  match args with
  | [] => mkReply 0 [] []
  | cmd :: _ =>
      if bool_decide (cmd = str "help") then mkReply 0 help_text []
      else mkReply 1 [] (str "unrecognized command (try 'help'): " ++ line_of cmd)
  end.

(** The commands of a session, up to the one that ends it. *)
Fixpoint line_commands (lines : list bytes) : list (list bytes) :=
  match lines with
  | [] => []
  | line :: lines => if leaves (SplitLine line) then [] else SplitLine line :: line_commands lines
  end.
Definition commands_of (args : list bytes) (input : bytes) : list (list bytes) :=
  match args with [] => line_commands (read_lines [] input) | _ => [args] end.

(** What the main thread asks of the database, and what it replies when it has
    the answers. *)
Definition tool_calls (args : list bytes) (input : bytes) : list call :=
  omap command_call (commands_of args input) ++ [CallClose].

Fixpoint replies (cmds : list (list bytes)) (ans : list answer) : list reply :=
  match cmds with
  | [] => []
  | args :: cmds =>
      match command_call args with
      | None => plain_reply args :: replies cmds ans
      | Some _ => match ans with a :: ans => answer_reply a :: replies cmds ans | [] => [] end
      end
  end.
(** What a session writes to the two streams: a prompt before every line read,
    and one before the end. *)
Definition said (rs : list reply) : bytes * bytes :=
  (concat ((λ r, prompt ++ cout r) <$> rs) ++ prompt, concat (cerr <$> rs)).
Definition session_reply (db_path : bytes) (said : bytes * bytes) : reply :=
  mkReply 0 (banner db_path ++ said.1) said.2.
Definition tool_reply (path : bytes) (args : list bytes) (input : bytes) (ans : list answer) : reply :=
  let rs := replies (commands_of args input) ans in
  match args with
  | [] => session_reply path (said rs)
  | _ => default (mkReply 0 [] []) (head rs)
  end.

#[local] Arguments prompt : simpl never.
#[local] Arguments banner : simpl never.
#[local] Arguments said : simpl never.

Section tool.
Context {O : Oracle}.

Lemma RunOne_call args s : RunOne args s =
  match command_call args with
  | Some c => (r ← call_answer c; mret (answer_reply <$> r)) s
  | None => (Some (plain_reply args), s)
  end.
Proof.
  destruct args as [|cmd args]; [done|]. unfold RunOne, command_call, plain_reply.
  destruct args as [|k [|v [|? ?]]]; cbn [length Nat.eqb andb nth]; rewrite ?andb_true_r, ?andb_false_r;
    repeat (case_match; cbn [call_answer call_body]; rewrite ?run_bind; try done).
  all: cbn [call_answer call_body] in *; rewrite ?run_bind; try done.
  - by destruct (Flush s).1.
  - change (Delete (mkWriteOptions false) k) with (Write (mkWriteOptions false) (batch_of [OpDelete k])).
    by destruct (Write _ _ s).1.
  - change (Put (mkWriteOptions false) k v) with (Write (mkWriteOptions false) (batch_of [OpPut k v])).
    by destruct (Write _ _ s).1.
Qed.

Lemma command_call_open args c a db w db' w' : command_call args = Some c →
  call_answer c (db, w) = (Some a, (db', w')) → closed_ db' = closed_ db.
Proof.
  intros Hc. assert (c ≠ CallClose) as Hne.
  { destruct args as [|cmd [|k [|v [|? ?]]]]; cbn in Hc; repeat case_match; congruence. }
  assert (∀ c', c' = c → call_answer c' (db, w) = (r ← call_body c'; mret (snd <$> r)) (db, w)) as Ea
    by (intros c' <-; by destruct c').
  rewrite (Ea c eq_refl), run_bind. destruct (call_body c (db, w)) as [[[l a']|] [db1 w1]] eqn:E; [|done].
  cbn. intros [= <- <- <-]. apply call_body_flags, (f_equal fl_closed) in E. by destruct (call_notifies _ _ _).
Qed.

(** The loop looks at its own part of the schedule only. *)
Lemma repl_ext lines : ∀ sched sched' i i' s,
  (∀ k, (k < length lines)%nat → sched (i + k)%nat = sched' (i' + k)%nat) →
  repl sched i lines s = repl sched' i' lines s.
Proof.
  induction lines as [|line lines IH]; intros sched sched' i i' s H; [done|].
  assert (∀ s, repl sched (S i) lines s = repl sched' (S i') lines s) as Hn.
  { intros s'. apply IH. intros k Hk. cbn in H. specialize (H (S k) ltac:(lia)). by rewrite <- !plus_n_Sm in H. }
  cbn [repl]. destruct (SplitLine line) as [|cmd args]; [by rewrite !run_bind, Hn|].
  destruct (_ || _); [done|]. cbn in H. specialize (H 0%nat ltac:(lia)). rewrite !Nat.add_0_r in H. rewrite H.
  rewrite !run_bind. destruct (yield _ s) as [[] s1]; [|done]. cbn [fst snd negb]. rewrite !run_bind.
  destruct (RunOne (cmd :: args) s1) as [[r|] s2]; [|done]. cbn [fst snd]. by rewrite !run_bind, Hn.
Qed.

(** From the end of the commands to the end of [main]. *)
Definition wind_up {A} (y : bool) (r : option A) : M (option A) :=
  match r with
  | None => mret None
  | Some r => y ← yield y; if negb y then mret None else Destroy;; mret (Some r)
  end.

Lemma wind_up_fmap {A B} (f : A → B) y (m : M (option A)) a s s' :
  (m ≫= wind_up y) s = (Some a, s') → ((r ← m; mret (f <$> r)) ≫= wind_up y) s = (Some (f a), s').
Proof.
  rewrite !run_bind. destruct (m s) as [[r|] s1]; [|done]. cbn [fst snd]. cbv [mret ST_ret].
  cbn [fst snd fmap option_fmap option_map]. unfold wind_up. rewrite !run_bind.
  destruct (yield y s1) as [[] s2]; [|done]. cbn [fst snd negb]. rewrite !run_bind. by intros [= <- <-].
Qed.

Lemma wind_up_serves {A} (r : A) sched ans db w dw : closed_ db = false →
  serve sched [CallClose] (db, w) = (Some ans, dw) → wind_up (sched 0%nat) (Some r) (db, w) = (Some r, dw).
Proof.
  intros Hcl. rewrite serve_now_eq, run_bind. unfold wind_up. rewrite run_bind.
  destruct (yield _ (db, w)) as [[] [db1 w1]] eqn:Ey; [|done]. cbn [fst snd negb serve_now call_answer].
  apply yield_flags in Ey as [Ec _]. rewrite Hcl in Ec. rewrite !run_bind. unfold Destroy, this, gets.
  rewrite run_bind. cbn [fst snd id]. rewrite Ec, run_bind, Close_open by done.
  destruct (Close_finish _) as [s [db2 w2]] eqn:E. cbv [mret ST_ret].
  cbn [fst snd]. rewrite run_bind, serve_now_eq, run_bind, yield_idle.
  - by intros [= _ <-].
  - apply Close_finish_flags, (f_equal fl_thread) in E. cbn in E. by rewrite E, andb_false_r.
Qed.

Lemma said_cons r rs : said (r :: rs) = (prompt ++ cout r ++ (said rs).1, cerr r ++ (said rs).2).
Proof. unfold said. cbn. by rewrite <- !app_assoc. Qed.

(** The rest of a session, after the yield and the reply to its first line. *)
Lemma repl_rest line lines sched y r db w db1 w1 db2 w2 y' rs dw : leaves (SplitLine line) = false →
  (SplitLine line = [] → y = false ∧ r = mkReply 0 [] []) →
  yield y (db, w) = (true, (db1, w1)) → RunOne (SplitLine line) (db1, w1) = (Some r, (db2, w2)) →
  (repl sched 0 lines ≫= wind_up y') (db2, w2) = (Some (said rs), dw) →
  (repl (sched_cons y sched) 0 (line :: lines) ≫= wind_up y') (db, w) = (Some (said (r :: rs)), dw).
Proof.
  intros Hl Hb Hy Hr H. rewrite said_cons. revert H. generalize (said rs). intros [so se] H. cbn [fst snd].
  assert (repl (sched_cons y sched) 0 (line :: lines) (db, w) =
    (r' ← repl (sched_cons y sched) 1 lines;
     mret ((λ '(o, e), (prompt ++ cout r ++ o, cerr r ++ e)) <$> r')) (db2, w2)) as E.
  { cbn [repl]. destruct (SplitLine line) as [|cmd args] eqn:Es.
    - destruct (Hb eq_refl) as [-> ->]. rewrite yield_idle in Hy by done. injection Hy as <- <-.
      by injection Hr as <- <-.
    - cbn [leaves] in Hl. rewrite Hl, run_bind. change (sched_cons y sched 0%nat) with y. rewrite Hy.
      cbn [fst snd negb]. by rewrite run_bind, Hr. }
  rewrite (run_bind_eq _ _ _ _ _ E). apply (wind_up_fmap (λ '(o, e), (prompt ++ cout r ++ o, cerr r ++ e)) _ _ (so, se)).
  rewrite <- H. apply run_bind_eq. by apply repl_ext.
Qed.

Lemma session_serves lines : ∀ sched ans db w dw, closed_ db = false →
  serve sched (omap command_call (line_commands lines) ++ [CallClose]) (db, w) = (Some ans, dw) →
  ∃ sched' y, (repl sched' 0 lines ≫= wind_up y) (db, w) =
    (Some (said (replies (line_commands lines) ans)), dw).
Proof.
  induction lines as [|line lines IH]; intros sched ans db w dw Hcl H.
  { exists sched, (sched 0%nat). cbn [repl]. rewrite run_bind. by eapply wind_up_serves. }
  cbn [line_commands] in *. destruct (leaves (SplitLine line)) eqn:El.
  { exists sched, (sched 0%nat). cbn [repl]. destruct (SplitLine line) as [|cmd args]; [done|].
    cbn [leaves] in El. rewrite El, run_bind. by eapply wind_up_serves. }
  cbn [omap list_omap replies] in *. destruct (command_call (SplitLine line)) as [c|] eqn:Ec; cbn [app] in H.
  - rewrite serve_now_eq, run_bind in H. destruct (yield _ (db, w)) as [[] [db1 w1]] eqn:Ey; [|done].
    cbn [fst snd negb serve_now] in H. rewrite run_bind in H. destruct (yield_flags _ _ _ _ _ Ey) as [Ecl _].
    destruct (call_answer c (db1, w1)) as [[a|] [db2 w2]] eqn:Ea; [|done]. cbn [fst snd] in H. rewrite run_bind in H.
    destruct (serve _ _ (db2, w2)) as [[ans'|] dw'] eqn:Er; [|done]. injection H as <- <-.
    apply IH in Er as (sched' & y' & E); [|rewrite (command_call_open _ _ _ _ _ _ _ Ec Ea); congruence].
    exists (sched_cons (sched 0%nat) sched'), y'. eapply repl_rest; [done| |exact Ey| |exact E].
    + by destruct (SplitLine line).
    + by rewrite RunOne_call, Ec, run_bind, Ea.
  - apply IH in H as (sched' & y' & E); [|done]. exists (sched_cons false sched'), y'.
    eapply repl_rest; [done| |by apply yield_idle| |exact E]; [|by rewrite RunOne_call, Ec].
    by intros ->.
Qed.

Lemma one_command path cmd args input y y' s s1 r s2 dw : yield y s = (true, s1) →
  RunOne (cmd :: args) s1 = (Some r, s2) → wind_up y' (Some r) s2 = (Some r, dw) →
  with_db (λ i, if (i =? 0)%nat then y else y') path (cmd :: args) input s = (Some r, dw).
Proof.
  intros Ey Er Ew. unfold with_db, commands. cbn [Nat.eqb]. rewrite run_bind.
  assert ((y ← yield y; if negb y then mret None else RunOne (cmd :: args)) s = (Some r, s2)) as ->.
  { by rewrite run_bind, Ey. }
  exact Ew.
Qed.

(** The whole of the tool after [Open]. *)
Lemma with_db_serves path args input sched ans db w dw : closed_ db = false →
  serve sched (tool_calls args input) (db, w) = (Some ans, dw) →
  ∃ sched', with_db sched' path args input (db, w) = (Some (tool_reply path args input ans), dw).
Proof.
  intros Hcl H. unfold tool_calls in H. unfold tool_reply, commands_of in *. destruct args as [|cmd args].
  - apply session_serves in H as (sched' & y & E); [|done].
    set (n := S (length (read_lines [] input))). exists (λ i, if (i =? n)%nat then y else sched' i).
    unfold with_db, commands. fold n. rewrite Nat.eqb_refl.
    apply (wind_up_fmap (λ '(o, e), mkReply 0 (banner path ++ o) e) y _ (said _)). rewrite <- E.
    apply run_bind_eq, repl_ext. intros k Hk. cbn. destruct (Nat.eqb_spec k n); [lia|done].
  - cbn [omap list_omap replies] in *. destruct (command_call (cmd :: args)) as [c|] eqn:Ec; cbn [app] in H.
    + rewrite serve_now_eq, run_bind in H. destruct (yield _ (db, w)) as [[] [db1 w1]] eqn:Ey; [|done].
      cbn [fst snd negb serve_now] in H. rewrite run_bind in H.
      destruct (call_answer c (db1, w1)) as [[a|] [db2 w2]] eqn:Ea; [|done]. cbn [fst snd] in H. rewrite run_bind in H.
      destruct (serve _ _ (db2, w2)) as [[ans'|] dw'] eqn:Er; [|done]. injection H as <- <-.
      eexists. eapply one_command; [exact Ey|by rewrite RunOne_call, Ec, run_bind, Ea|].
      eapply wind_up_serves; [|exact Er]. destruct (yield_flags _ _ _ _ _ Ey) as [Ecl _].
      rewrite (command_call_open _ _ _ _ _ _ _ Ec Ea). congruence.
    + eexists. eapply one_command; [by apply (yield_idle false)|by rewrite RunOne_call, Ec|].
      by eapply wind_up_serves.
Qed.
End tool.
