(* ===== verification/Bench.v ===== *)
(** * The benchmark ([examples/clomdb_bench.cpp])

    Its loops, what it counts and what it prints.  [std::shuffle] with its
    generator is a parameter, of which only that it permutes is used; so are
    the readings of the clock and the text of the floating-point numbers made
    of them.  The background thread runs between two calls as in [Cli]. *)

From S2P Require Import Prelude Slice Status Coding OrderedMap MemTable WriteBatch FileSystem Wal.
From S2P Require Import SSTable SSTableSpec Version DB DBPaths Layers DBInv DBFlush DBReaders.
From S2P Require Import Merge DBCompact DBRead DBWrite DBOpen DBSpec DBSession Cli CliSpec.

(** [std::atoi]: blanks, a sign, digits.  A value that does not fit an [int] is
    undefined. *)
Definition isdigit (c : byte) : bool := (48 <=? byte_val c) && (byte_val c <=? 57).
Fixpoint digits (acc : Z) (s : bytes) : Z :=
  match s with
  | c :: s' => if isdigit c then digits (10 * acc + (byte_val c - 48)) s' else acc
  | [] => acc
  end.
Definition atoi (s : bytes) : Z :=
  match skip_spaces s with
  | c :: s' =>
      if bool_decide (c = x2d) then - digits 0 s'
      else if bool_decide (c = x2b) then digits 0 s'
      else digits 0 (c :: s')
  | [] => 0
  end.

Definition bench_dir : bytes := str "/tmp/clomdb_bench".
Definition bench_key (i : nat) : bytes := str "key" ++ show (Z.of_nat i).
Definition bench_value (i : nat) : bytes :=
  str "value-" ++ show (Z.of_nat i) ++ str "-padding-padding".

(** How the program ends: the exit code with what it printed on [stderr], or
    the counts it prints on [stdout].  [BenchAborts]: an exception. *)
Inductive bench_result :=
  | BenchFailed (err : bytes)
  | BenchAborts
  | BenchDone (n found : Z) (st : Stats).

Section bench.
Context {O : Oracle} (shuffle : list bytes → list bytes) (sched : nat → bool).

(** [for (int i = 0; i < n; i++) db->Put(...)]: the status is ignored; [false]
    when a call does not return. *)
Fixpoint write_loop (n i : nat) : M bool :=
  match n with
  | 0%nat => mret true
  | S n' =>
      y ← yield (sched i);
      if negb y then mret false else
      r ← Put (mkWriteOptions false) (bench_key i) (bench_value i);
      match r with None => mret false | Some _ => write_loop n' (S i) end
  end.

(** The reads, [v] being the string they share. *)
Fixpoint read_loop (keys : list bytes) (i : nat) (v : bytes) (found : Z) : M (option Z) :=
  match keys with
  | [] => mret (Some found)
  | key :: keys =>
      y ← yield (sched i);
      if negb y then mret None else
      '(s, v) ← Get key v;
      read_loop keys (S i) v (if ok s then found + 1 else found)
  end.

(** From the opened database to the end of [main]. *)
Definition bench_run (n : nat) : M (option bench_result) :=
  w ← write_loop n 0;
  if negb w then mret None else
  y ← yield (sched n);
  if negb y then mret None else
  f ← Flush;
  match f with
  | None => mret None
  | Some _ =>
      found ← read_loop (shuffle (bench_key <$> seq 0 n)) (S n) [] 0;
      match found with
      | None => mret None
      | Some found =>
          y ← yield (sched (S (n + n)));
          if negb y then mret None else
          st ← this GetStats;
          Destroy;;
          mret (Some (BenchDone (Z.of_nat n) found st))
      end
  end.

(** [std::vector<std::string> keys(n)] throws when [n] is negative. *)
Definition bench_main (argv : list bytes) : ST World (option bench_result) :=
  let n := match argv with [] => 100000 | a :: _ => atoi a end in
  removed ← fs_remove_all bench_dir;
  if negb removed then mret (Some BenchAborts) else
  '(s, db) ← Open default_options bench_dir;
  match db with
  | None => mret (Some (BenchFailed (str "open failed: " ++ line_of (Status_ToString s))))
  | Some db =>
      if n <? 0 then mret (Some BenchAborts) else on_object (bench_run (Z.to_nat n)) db
  end.
End bench.

(** ** The report *)

Section report.
(** [%.3f] of the seconds between two readings, [%.0f] of [n] divided by them,
    and the three readings. *)
Context {time : Type} (seconds : time → time → bytes) (rate : Z → time → time → bytes) (t0 t1 t2 : time).

Definition bench_report (n found : Z) (st : Stats) : bytes :=
  str "wrote " ++ show n ++ str " keys in " ++ seconds t0 t1 ++ str "s (" ++ rate n t0 t1 ++
  line_of (str " ops/s)") ++
  str "read  " ++ show n ++ str " keys in " ++ seconds t1 t2 ++ str "s (" ++ rate n t1 t2 ++
  str " ops/s), found=" ++ line_of (show found) ++
  concat (level_text st <$> seq 0 kMaxLevels).

(** [None]: the program is ended by an exception. *)
Definition bench_reply (r : bench_result) : option reply :=
  match r with
  | BenchFailed err => Some (mkReply 1 [] err)
  | BenchAborts => None
  | BenchDone n found st => Some (mkReply 0 (bench_report n found st) [])
  end.
End report.

(** ** Lemmas *)

Definition bench_op (i : nat) : op := OpPut (bench_key i) (bench_value i).
(** More than one write of the benchmark adds. *)
Definition bench_weight : Z := 256.

Lemma decimal_length fuel n acc : (length (decimal fuel n acc) ≤ fuel + length acc)%nat.
Proof.
  revert n acc. induction fuel as [|fuel IH]; intros n acc; [done|]. cbn [decimal]. cbv zeta.
  destruct (_ =? 0); [cbn; lia|]. etrans; [apply IH|]. cbn. lia.
Qed.
Lemma show_length n : zlen (show n) ≤ 20.
Proof. pose proof (decimal_length 20 n []). unfold show. cbn in *. lia. Qed.

Lemma bench_sizes i : zlen (bench_key i) ≤ 23 ∧ zlen (bench_value i) ≤ 42.
Proof.
  unfold bench_key, bench_value. rewrite !length_app. pose proof (show_length (Z.of_nat i)).
  change (length (str "key")) with 3%nat. change (length (str "value-")) with 6%nat.
  change (length (str "-padding-padding")) with 16%nat. lia.
Qed.

Lemma bench_op_weight i : ops_weight [bench_op i] ≤ bench_weight.
Proof.
  destruct (bench_sizes i). unfold ops_weight, bench_weight. unfold bench_op. cbn [fmap list_fmap weights op_entry]. unfold weight. cbn [e_key e_value]. lia.
Qed.

Lemma Put_batch {O : Oracle} opts key value : Put opts key value = Write opts (batch_of [OpPut key value]).
Proof. done. Qed.

Section bench.
Context {O : Oracle} `{!FaultFree O} (shuffle : list bytes → list bytes) (sched : nat → bool).

(** The keys below [n] have a value. *)
Definition written_below (n : nat) (m : gmap bytes bytes) : Prop :=
  ∀ i, (i < n)%nat → is_Some (m !! bench_key i).

Lemma write_loop_serves options path n : compaction_ok options → ∀ W N i db w m,
  serves options path W N db (w_disk w) m → written_below i m →
  roomy (W + Z.of_nat n * bench_weight) (N + 2 * Z.of_nat n * number_stride) →
  wp (write_loop sched n i) (λ b '(db', w'), b = true ∧ ∃ m', written_below (n + i) m' ∧
    serves options path (W + Z.of_nat n * bench_weight) (N + 2 * Z.of_nat n * number_stride)
      db' (w_disk w') m') (db, w).
Proof.
  intros Hc. induction n as [|n IH]; intros W N i db w m Hs Hm Hr; cbn [write_loop].
  { apply wp_ret. split; [done|]. exists m. split; [done|]. eapply serves_mono; [| |exact Hs]; lia. }
  unfold bench_weight, number_stride in *. destruct Hr as [Hr1 Hr2].
  apply wp_bind. eapply wp_mono; [apply (yield_serves options path W N); [done|done|split; lia]|].
  intros y [db1 w1] [-> Hs1]. cbn [negb]. pose proof (bench_op_weight i) as Hw. unfold bench_weight in Hw.
  rewrite Put_batch. fold (bench_op i).
  apply wp_bind. eapply wp_mono; [apply (write_serves options path W (N + number_stride) db1 w1 m _ [bench_op i])|].
  - done.
  - apply single_fits. destruct (bench_sizes i). unfold bench_op. lia.
  - done.
  - unfold number_stride. split; lia.
  - intros r [db2 w2] [-> Hs2].
    eapply wp_mono; [apply (IH (W + 256) (N + 2 * 2 ^ 34) (S i) db2 w2 (<[bench_key i := bench_value i]> m))|].
    + unfold number_stride in Hs2. eapply serves_mono; [| |exact Hs2]; lia.
    + intros j Hj. destruct (decide (bench_key i = bench_key j)) as [->|Hne].
      { rewrite lookup_insert_eq. by eexists. }
      rewrite lookup_insert_ne by done. apply Hm.
      assert (j ≠ i) by congruence. lia.
    + split; lia.
    + intros b [db3 w3] (-> & m' & Hm' & Hs3). split; [done|]. exists m'. split.
      { replace (S n + i)%nat with (n + S i)%nat by lia. done. }
      eapply serves_mono; [| |exact Hs3]; lia.
Qed.

Lemma read_loop_serves options path keys : compaction_ok options → ∀ W N i v found db w m,
  serves options path W N db (w_disk w) m → Forall (λ k, is_Some (m !! k)) keys →
  roomy W (N + zlen keys * number_stride) →
  wp (read_loop sched keys i v found) (λ r '(db', w'), r = Some (found + zlen keys) ∧
    serves options path W (N + zlen keys * number_stride) db' (w_disk w') m) (db, w).
Proof.
  intros Hc. induction keys as [|key keys IH]; intros W N i v found db w m Hs Hk Hr; cbn [read_loop].
  { apply wp_ret. split; [f_equal; cbn; lia|]. eapply serves_mono; [| |exact Hs]; cbn; lia. }
  inversion Hk as [|? ? [x Hx] Hk']; subst. unfold number_stride in *. destruct Hr as [Hr1 Hr2].
  assert (zlen (key :: keys) = 1 + zlen keys) as Hlen by (cbn [length]; lia). rewrite Hlen in *.
  apply wp_bind. eapply wp_mono; [apply (yield_serves options path W N); [done|done|split; lia]|].
  intros y [db1 w1] [-> Hs1]. cbn [negb]. unfold number_stride in *.
  apply wp_bind. eapply wp_mono; [apply (get_serves options path W (N + 2 ^ 34)); exact Hs1|].
  intros [s v'] [db2 w2] [E Hs2]. unfold get_result in E. rewrite Hx in E. injection E as -> ->.
  rewrite ok_OK. eapply wp_mono; [apply (IH W (N + 2 ^ 34) (S i) x (found + 1) db2 w2 m Hs2 Hk'); split; lia|].
  intros r [db3 w3] [-> Hs3]. split; [f_equal; lia|]. eapply serves_mono; [| |exact Hs3]; lia.
Qed.
End bench.

(** After [fs::remove_all] the directory is as good as new. *)
Lemma below_dir path name : slash ∉ name → below path (canon (in_dir path name)) = true.
Proof.
  intros H. rewrite canon_in_dir by done. unfold below. cbv zeta. apply orb_true_iff. right.
  apply bool_decide_eq_true. unfold dir_prefix. by rewrite take_app_length.
Qed.

Lemma removed_stored path d : disk_wf d → (∀ p, below path p = true → d_files d !! p = None) →
  stored path 0 1 d ∅.
Proof.
  intros Hwf Hnone. apply stored_empty; [done| |].
  - unfold content, resolve. rewrite Hnone; [done|]. by apply below_dir, no_slash_spec.
  - unfold wal_content, file_content. rewrite Hnone; [done|]. by apply below_dir, no_slash_spec.
Qed.
