(* ===== verification/ProgramCorrect.v ===== *)
(** * Correctness of the programs

    Typing of every reachable state, the command line tool as a conversation
    with a map, also under its two threads, its tokenizer, its reports under failures, and the count of
    the benchmark. *)

From S2P Require Import Prelude Slice Status Coding OrderedMap MemTable WriteBatch FileSystem Wal.
From S2P Require Import SSTable SSTableSpec Version DB DBPaths Layers DBInv DBFlush DBReaders.
From S2P Require Import Merge DBCompact DBRead DBWrite DBOpen DBSpec DBSession Sample Concurrency.
From S2P Require Import SampleRuns Threads SoloRuns Cli CliSpec CliThreads Bench.

(** ** Types of the object *)

(** A reader holds the keys of its file in order, at increasing offsets. *)
Record reader_typed (fm : FileMetaData) (r : SSTableReader) : Prop := {
  rt_open : is_Some (file_handle_ r);
  rt_keys : StronglySorted key_lt (index_ r).*1;
  rt_offsets : StronglySorted Z.lt (index_ r).*2;
  rt_bounds : Forall (λ off, 0 ≤ off < file_size_ r) (index_ r).*2;
  rt_first : head (index_ r).*1 = Some (min_key fm);
  rt_last : last (index_ r).*1 = Some (max_key fm);
}.

Record well_typed (db : DB) : Prop := {
  wt_table : omap_wf (table (memtable_ db));
  wt_bytes : is_u64 (approx_bytes (memtable_ db));
  wt_entries : Forall entry_wf (mem_entries (memtable_ db));
  wt_next : is_u64 (next_file_number (version_ db));
  wt_levels : length (levels_ (version_ db)) = kMaxLevels;
  wt_readers : length (open_readers_ db) = kMaxLevels;
  wt_aligned l : Forall2 reader_typed (Level (version_ db) l) (readers_at db l);
  wt_numbers l fm : fm ∈ Level (version_ db) l →
    meta_fits fm ∧ number fm < next_file_number (version_ db);
  wt_one_level l l' fm fm' : fm ∈ Level (version_ db) l → fm' ∈ Level (version_ db) l' →
    number fm = number fm' → l = l';
  wt_l0 : StronglySorted Z.lt (number <$> Level (version_ db) 0);
}.

(** ** Lemmas: types *)

Lemma entry_bytes_pos e : 0 < zlen (entry_bytes e).
Proof. unfold entry_bytes. cbn [length]. lia. Qed.

Lemma index_offsets off es : StronglySorted Z.lt (index_from off es).*2 ∧
  Forall (λ o, off ≤ o < off + zlen (data_bytes es)) (index_from off es).*2.
Proof.
  revert off. induction es as [|e es IH]; intros off; cbn [index_from fmap list_fmap]; [split; constructor|].
  destruct (IH (off + zlen (entry_bytes e))) as [Hs Hf]. pose proof (entry_bytes_pos e).
  rewrite data_bytes_cons, length_app. split; constructor; cbn [snd]; [done| |lia|];
    (eapply Forall_impl; [exact Hf|cbn; lia]).
Qed.

Lemma reader_ok_typed d path fm t r : file_ok d path fm t → reader_ok d path fm t r → reader_typed fm r.
Proof.
  intros [Hwf Hmin Hmax _ _] (i & _ & Hi & _ & _ & _ & Hs & f & Hf & _).
  destruct (index_offsets 0 (t_entries t)) as [Hso Hfo].
  split; rewrite ?Hi, ?index_from_keys; [by eexists|apply Hwf|done| |done|done].
  eapply Forall_impl; [exact Hfo|]. intros off. cbn. rewrite Hs, table_bytes_length. lia.
Qed.

Lemma db_ok_typed db tabs d : db_ok db tabs d → well_typed db.
Proof.
  intros [_ _ (Hwf & Hu & _) He Ht Hl Hr _]. pose proof Ht as []. split; try done.
  - intros l. specialize (Hr l). specialize (to_files l). revert to_files.
    induction Hr as [|fm t r fms ts rs Hr _ IH]; intros Hf; inversion Hf; subst; constructor; [|by apply IH].
    by eapply reader_ok_typed.
  - intros l fm Hin. destruct (to_number l fm Hin). split; [|done].
    apply list_elem_of_lookup in Hin as [i Hi]. destruct (Forall2_lookup_l _ _ _ _ _ (to_files l) Hi) as (t & _ & Hfm).
    destruct (file_ok_keys _ _ _ _ Hfm). unfold is_u64 in *. split_and!; [unfold is_u64; lia|by destruct Hfm|done|done].
Qed.

Lemma stats_typed db : well_typed db → let st := GetStats db in
  is_u64 (memtable_bytes st) ∧ length (files_per_level st) = kMaxLevels ∧
  length (bytes_per_level st) = kMaxLevels ∧ Forall is_u64 (bytes_per_level st).
Proof.
  intros Hwt. cbn [GetStats memtable_bytes files_per_level bytes_per_level]. rewrite !length_fmap, !length_seq.
  split_and!; [apply Hwt|done|done|]. apply Forall_fmap, Forall_true. intros lvl. unfold compose, level_total.
  destruct (Level (version_ db) lvl) as [|fm fms] using rev_ind; [done|].
  rewrite fold_left_app. apply wrap64_u64.
Qed.

(** ** Types *)

(** C17. Well-typedness: from [Open] on the files of a recoverable database,
    whatever is called and whatever fails, the memtable is sorted with entries
    within their formats, there are six levels, each file has one open reader
    whose index is sorted with offsets inside the file, the metadata are in
    their ranges with numbers below the next one, L0 is in order of age, and
    the statistics are six counts and six 64-bit sizes. *)
Theorem reachable_well_typed {O : Oracle} options path m d c stable st db w ls s : disk_wf d →
  recoverable d path m → good_path path → options_ok options →
  Open options path (mkWorld d c stable) = ((st, Some db), w) →
  steps (mkSystem db w (bg_thread_ db)) ls s →
  well_typed (s_db s) ∧
  ∀ st', LStats st' ∈ ls → is_u64 (memtable_bytes st') ∧ length (files_per_level st') = kMaxLevels ∧
    length (bytes_per_level st') = kMaxLevels ∧ Forall is_u64 (bytes_per_level st').
Proof.
  intros Hd (v & tabs & Hp & _) Hg Ho E Hs.
  pose proof (Open_spec options path v tabs (mkWorld d c stable) Hg Ho Hd Hp) as H. unfold wp in H. rewrite E in H.
  destruct H as [[-> []] _].
  assert (well_formed (s_db (mkSystem db w (bg_thread_ db))) (w_disk w)) as Hwf by by exists tabs.
  change (w_disk w) with (w_disk (s_world (mkSystem db w (bg_thread_ db)))) in Hwf.
  revert Hwf. generalize dependent (mkSystem db w (bg_thread_ db)). clear. intros s0 Hs.
  induction Hs as [s|s1 l s2 ls s3 Hstep Hs IH]; intros Hwf.
  - split; [|set_solver]. destruct Hwf as [tabs Hok]. by eapply db_ok_typed.
  - destruct (step_well_formed _ _ _ Hwf Hstep) as [Hwf2 _]. destruct (IH Hwf2) as [Ht Hst]. split; [done|].
    intros st' [<-|Hin]%elem_of_cons; [|by apply Hst]. inversion Hstep; subst. apply stats_typed.
    destruct Hwf as [tabs Hok]. by eapply db_ok_typed.
Qed.

Definition typed_run : DB * World := opened faultless sample_options sample_path (booted (w_disk sample1.2)).
(** The statistics of the sample database after a [Flush]. *)
Lemma reachable_well_typed_witness : ∃ s st, well_typed (s_db s) ∧
  files_per_level st = [1; 0; 0; 0; 0; 0] ∧
  ∀ st', LStats st' ∈ [LFlush OK; LStats st] → is_u64 (memtable_bytes st') ∧
    length (files_per_level st') = kMaxLevels ∧
    length (bytes_per_level st') = kMaxLevels ∧ Forall is_u64 (bytes_per_level st').
Proof.
  set (fl := after_run (@Flush faultless) (typed_run.1, typed_run.2)).
  exists (mkSystem fl.1 fl.2 false), (GetStats fl.1).
  assert (files_per_level (GetStats fl.1) = [1; 0; 0; 0; 0; 0]) as Hst by (vm_compute; reflexivity).
  destruct (@reachable_well_typed faultless sample_options sample_path sample_map (w_disk sample1.2) 0
    (d_inodes (w_disk sample1.2)) OK typed_run.1 typed_run.2 [LFlush OK; LStats (GetStats fl.1)] (mkSystem fl.1 fl.2 false)) as [Hwt Hls].
  - destruct sample1_safe as (tabs & [] & _). done.
  - exact (safe_recoverable _ _ _ sample1_safe).
  - done.
  - exact sample_options_ok.
  - vm_compute. reflexivity.
  - eapply steps_cons; [apply (@run_flush faultless OK); vm_compute; reflexivity|].
    eapply steps_cons; [apply step_stats|apply steps_nil].
  - split_and!; [exact Hwt|exact Hst|exact Hls].
Defined.

(** ** The command line tool *)

(** C20. [SplitLine] is the tokenizer of the grammar [tokens]: the maximal runs
    of characters other than blanks, in order.  It has one reading of a line,
    its tokens are non-empty and free of blanks, and words joined by single
    spaces are read back. *)
Theorem SplitLine_correct line ts :
  (SplitLine line = ts ↔ tokens line ts) ∧ Forall is_word (SplitLine line) ∧
  ∀ ws, Forall is_word ws → SplitLine (join_words ws) = ws.
Proof.
  pose proof (SplitLine_tokens line) as H. split_and!.
  - split; [by intros <-|by apply tokens_unique].
  - by eapply tokens_words.
  - intros ws Hws. eapply tokens_unique; [apply SplitLine_tokens|by apply tokens_join].
Qed.

Lemma SplitLine_correct_witness :
  (SplitLine (str "  put k1   v1 ") = [str "put"; str "k1"; str "v1"] ↔
     tokens (str "  put k1   v1 ") [str "put"; str "k1"; str "v1"]) ∧
  SplitLine (join_words [str "get"; str "k1"]) = [str "get"; str "k1"].
Proof.
  destruct (SplitLine_correct (str "  put k1   v1 ") [str "put"; str "k1"; str "v1"]) as (H & _ & Hj).
  split; [exact H|apply Hj]. repeat constructor; discriminate.
Defined.

(** Runs of the program one after the other on one database, each with its
    arguments, its input and the scheduling of its background thread. *)
Record run := mkRun { run_sched : nat → bool; run_args : list bytes; run_input : bytes }.

Section runs.
Context {O : Oracle}.

Fixpoint run_all (prog path : bytes) (runs : list run) : ST World (option (list reply)) :=
  match runs with
  | [] => mret (Some [])
  | r :: runs =>
      o ← main (run_sched r) prog (path :: run_args r) (run_input r);
      match o with
      | None => mret None
      | Some rp => rps ← run_all prog path runs; mret ((rp ::.) <$> rps)
      end
  end.
End runs.

Inductive conversation (path : bytes) : gmap bytes bytes → list run → list reply → gmap bytes bytes → Prop :=
  | co_end m : conversation path m [] [] m
  | co_run m r rp m1 runs rps m2 : program path m (run_args r) (run_input r) rp m1 →
      conversation path m1 runs rps m2 → conversation path m (r :: runs) (rp :: rps) m2.

(** Upper bounds of what the runs add. *)
Fixpoint runs_weight (runs : list run) : Z :=
  match runs with [] => 0 | r :: runs => session_weight (run_args r) (run_input r) + runs_weight runs end.
Fixpoint runs_numbers (runs : list run) : Z :=
  match runs with [] => 0 | r :: runs => session_numbers (run_input r) + runs_numbers runs end.
Definition run_small (r : run) : Prop := args_length (run_args r) < 2 ^ 31 ∧ zlen (run_input r) < 2 ^ 31.

Lemma session_nonneg args input : 0 ≤ session_weight args input ∧ 0 ≤ session_numbers input.
Proof.
  unfold session_weight, args_weight, session_numbers, number_stride.
  pose proof (lines_weight_nonneg (read_lines [] input)). pose proof (args_length_nonneg args). lia.
Qed.
Lemma runs_nonneg runs : 0 ≤ runs_weight runs ∧ 0 ≤ runs_numbers runs.
Proof.
  induction runs as [|r runs [? ?]]; [done|]. cbn. destruct (session_nonneg (run_args r) (run_input r)). lia.
Qed.

(** C18. The tool refines a map, when nothing fails and the data of the runs
    stay within the limits ([roomy]): any sequence of runs, each a command
    given as arguments or a session of lines, replies as a conversation with
    one map that persists from run to run, whatever the background thread does
    between the commands. Each run opens and closes the database. *)
Theorem cli_refines_map {O : Oracle} `{!FaultFree O} prog path runs W N w m :
  stored path W N (w_disk w) m → good_path path → Forall run_small runs →
  roomy (W + runs_weight runs) (N + runs_numbers runs) →
  wp (run_all prog path runs) (λ r w', ∃ rps m', r = Some rps ∧ conversation path m runs rps m' ∧
    stored path (W + runs_weight runs) (N + runs_numbers runs) (w_disk w') m') w.
Proof.
  intros Hst Hg Hsm Hr. revert W N w m Hst Hr. induction Hsm as [|r runs [Ha Hi] _ IH]; intros W N w m Hst Hr.
  { apply wp_ret. exists [], m. cbn. rewrite !Z.add_0_r. split_and!; [done|constructor|done]. }
  cbn [run_all runs_weight runs_numbers] in *. destruct (runs_nonneg runs). destruct Hr as [Hr1 Hr2].
  apply wp_bind. eapply wp_mono; [apply (main_stores _ _ _ _ _ W N); [done..|split; lia]|].
  intros o w1 (rp & m1 & -> & Hp & Hst1).
  apply wp_bind. eapply wp_mono; [apply (IH _ _ _ _ Hst1); split; lia|].
  intros o w2 (rps & m2 & -> & Hc & Hst2). apply wp_ret. exists (rp :: rps), m2.
  rewrite !Z.add_assoc. split_and!; [done|by econstructor|done].
Qed.

Definition tool : bytes := str "clomdb_cli".
(** A command, a session of five lines with an unknown command, a command. *)
Definition sample_runs : list run :=
  [mkRun (λ _, true) [str "put"; str "k1"; str "v1"] [];
   mkRun (λ i, Nat.even i) [] (line_of (str "put k2 v2") ++ line_of (str "del k1") ++ line_of (str "scan") ++
     line_of (str "frob") ++ line_of (str "exit"));
   mkRun (λ _, false) [str "get"; str "k1"] []].

Lemma cli_refines_map_witness : ∃ W N,
  wp (@run_all faultless tool sample_path sample_runs) (λ r w', ∃ rps m', r = Some rps ∧
    conversation sample_path ∅ sample_runs rps m' ∧ stored sample_path W N (w_disk w') m') empty_world.
Proof.
  eexists _, _. apply (@cli_refines_map faultless _ tool sample_path sample_runs 0 1).
  - apply stored_empty; [apply empty_disk_wf|done|done].
  - done.
  - repeat constructor.
  - split; vm_compute; intros [=].
Defined.

(** What these runs print. *)
Example sample_runs_print : (@run_all faultless tool sample_path sample_runs empty_world).1 =
  Some [mkReply 0 (line_of (str "OK")) [];
    mkReply 0 (banner sample_path ++ str "clomdb> " ++ line_of (str "OK") ++ str "clomdb> " ++ line_of (str "OK") ++
      str "clomdb> " ++ line_of (str "k2 = v2") ++ str "clomdb> " ++ str "clomdb> ")
      (line_of (str "unrecognized command (try 'help'): frob"));
    mkReply 0 (line_of (str "(not found)")) []].
Proof. vm_compute. reflexivity. Qed.

(** C19. The tool under its threads, when nothing fails and within the limits:
    the main thread makes the calls of its arguments or of its input and
    closes the database, the background thread takes its steps in between, in
    any interleaving. The reply is the one the tool gives for some schedule,
    with the same object and the same files at the end; and it is a
    conversation with the map of the database. *)
Theorem cli_interleavings {O : Oracle} `{!FaultFree O} path W N db w m args input es s :
  serves default_options path W N db (w_disk w) m →
  args_length args < 2 ^ 31 → zlen input < 2 ^ 31 →
  roomy (W + session_weight args input) (N + session_numbers input) →
  trun (start db w) es s → one_caller es → calls_of es = tool_calls args input →
  p_clients s 0%nat = Idle →
  let reply := tool_reply path args input (returns_of es) in
  (∃ sched, with_db sched path args input (db, w) = (Some reply, (p_db s, p_world s))) ∧
  ∃ m', program path m args input reply m' ∧
    stored path (W + session_weight args input) (N + session_numbers input) (w_disk (p_world s)) m'.
Proof.
  intros Hs Ha Hi Hr Hrun Ho Hcalls Hend reply. pose proof (se_open _ _ _ _ _ _ _ Hs) as Hcl.
  destruct (trun_serves _ _ _ _ Hcl Hrun Ho Hend) as [sched E]. rewrite Hcalls in E.
  destruct (with_db_serves path args input sched _ _ _ _ Hcl E) as [sched' E']. split; [by exists sched'|].
  pose proof (with_db_stores sched' path args input W N db w m Hs Ha Hi Hr) as H.
  unfold wp in H. rewrite E' in H. destruct H as (rp & m' & [= <-] & Hp & Hst). by exists m'.
Qed.

(** A session of two commands: the background thread works between them. *)
Definition tool_input : bytes := line_of (str "put k1 v1") ++ line_of (str "get k1").
Definition tool_actions : list action :=
  let c0 := Sched (TClient 0) in let bg := Sched TBg in
  [Call 0 (CallWrite (mkWriteOptions false) [OpPut (str "k1") (str "v1")]); c0; c0; c0; bg; bg; bg; bg;
   Call 0 (CallGet (str "k1") []); c0; c0; c0;
   Call 0 CallClose; c0; c0; c0; bg; bg; bg; c0; c0; c0; c0].

Definition tool_db : DB * World := opened faultless default_options sample_path empty_world.
Definition tool_start : process := start tool_db.1 tool_db.2.

Lemma tool_serves : serves default_options sample_path 0 1 tool_db.1 (w_disk tool_db.2) ∅.
Proof. exact (opened_serves default_options (proj1 main_default) eq_refl). Qed.

Lemma tool_evaluates :
  match @solo_run faultless tool_actions tool_start with
  | Some (es, s) => p_clients s 0%nat = Idle ∧ calls_of es = tool_calls [] tool_input ∧
      bool_decide (one_caller es) = true ∧
      tool_reply sample_path [] tool_input (returns_of es) =
        mkReply 0 (banner sample_path ++ prompt ++ line_of (str "OK") ++ prompt ++ line_of (str "v1") ++ prompt) []
  | None => False
  end.
Proof. vm_compute. by split_and!. Qed.

Lemma cli_interleavings_witness : ∃ es s,
  let reply := mkReply 0 (banner sample_path ++ prompt ++ line_of (str "OK") ++ prompt ++ line_of (str "v1") ++ prompt) [] in
  (∃ sched, @with_db faultless sched sample_path [] tool_input (tool_db.1, tool_db.2) =
    (Some reply, (p_db s, p_world s))) ∧
  @trun faultless tool_start es s ∧
  ∃ m' W N, program sample_path ∅ [] tool_input reply m' ∧ stored sample_path W N (w_disk (p_world s)) m'.
Proof.
  pose proof tool_evaluates as H.
  destruct (@solo_run faultless tool_actions tool_start) as [[es s]|] eqn:E; [|destruct H].
  destruct H as (Hend & Hcalls & Ho%bool_decide_eq_true & <-). exists es, s.
  pose proof (@solo_trun faultless _ _ _ _ E (start_solo _ _)) as Hrun.
  destruct (@cli_interleavings faultless _ sample_path 0 1 tool_db.1 tool_db.2 ∅ [] tool_input es s tool_serves
    eq_refl eq_refl) as [H1 (m' & Hp & Hst)]; [split; vm_compute; intros [=]|exact Hrun|exact Ho|exact Hcalls|exact Hend|].
  split_and!; [exact H1|exact Hrun|]. exists m'. eexists _, _. split; [exact Hp|exact Hst].
Defined.

(** The change a command asks for. *)
Definition update_of (args : list bytes) : option op :=
  match args with
  | [cmd; k; v] => if bool_decide (cmd = str "put") then Some (OpPut k v) else None
  | [cmd; k] =>
      if bool_decide (cmd = str "delete") || bool_decide (cmd = str "del") then Some (OpDelete k) else None
  | _ => None
  end.

Lemma update_of_spec args o : update_of args = Some o →
  (∀ O : Oracle, RunOne args = (s ← Write (mkWriteOptions false) (batch_of [o]); mret (ok_reply <$> s))) ∧
  (match o with OpPut k v => zlen k + zlen v | OpDelete k => zlen k end) ≤ args_length args.
Proof.
  unfold update_of. destruct args as [|cmd [|k [|v [|? ?]]]]; try done.
  - destruct (_ || _) eqn:E; [|done]. intros [= <-]. cbn. split; [|lia]. intros O.
    by apply orb_true_iff in E as [->%bool_decide_eq_true| ->%bool_decide_eq_true].
  - destruct (bool_decide _) eqn:E; [|done]. intros [= <-]. apply bool_decide_eq_true in E as ->.
    cbn. split; [done|lia].
Qed.

(** C21. A put or delete command under any failures: it prints OK with exit code
    0 only when the change is in the database and in its files; otherwise it
    exits with 1, prints nothing on [stdout] and the error on [stderr], and the
    database and its files show the change or do not. *)
Theorem cli_update_reported {O : Oracle} db w m args o : update_of args = Some o →
  safe db (w_disk w) m → closed_ db = false → has_room db [o] = true →
  compaction_ok (options_ db) → args_length args < 2 ^ 31 →
  wp (RunOne args) (λ r '(db', w'), ∃ rp, r = Some rp ∧
    (rp = mkReply 0 OK_text [] ∧ safe db' (w_disk w') (map_op m o) ∨
     ∃ s, ok s = false ∧ rp = mkReply 1 [] (str "error: " ++ line_of (Status_ToString s)) ∧
       (represents db' (w_disk w') m ∨ represents db' (w_disk w') (map_op m o)) ∧
       (recoverable (w_disk w') (db_path_ db) m ∨
        recoverable (w_disk w') (db_path_ db) (map_op m o)))) (db, w).
Proof.
  intros [-> Hl]%update_of_spec Hs Hcl Hr Hc Ha.
  apply wp_bind. eapply wp_mono; [apply (Write_safe db w m); [done|done|apply single_fits; destruct o; lia|done]|].
  intros r [db' w'] (Hack & Hrep & Hrec & Hret). apply wp_ret. destruct r as [s|]; [|by destruct (Hret Hc)].
  exists (ok_reply s). split; [done|]. unfold ok_reply. destruct (ok s) eqn:Es; cbn [negb].
  - left. split; [done|]. by apply Hack.
  - right. by exists s.
Qed.

(** The log fails while [del k1] is recorded. *)
Lemma cli_update_reported_witness :
  wp (@RunOne (failing_at (w_clock sample1.2)) [str "del"; str "k1"]) (λ r '(db', w'), ∃ rp, r = Some rp ∧
    (rp = mkReply 0 OK_text [] ∧ safe db' (w_disk w') (map_op sample_map (OpDelete (str "k1"))) ∨
     ∃ s, ok s = false ∧ rp = mkReply 1 [] (str "error: " ++ line_of (Status_ToString s)) ∧
       (represents db' (w_disk w') sample_map ∨
        represents db' (w_disk w') (map_op sample_map (OpDelete (str "k1")))) ∧
       (recoverable (w_disk w') (db_path_ sample1.1) sample_map ∨
        recoverable (w_disk w') (db_path_ sample1.1) (map_op sample_map (OpDelete (str "k1"))))))
    (sample1.1, sample1.2).
Proof.
  apply (@cli_update_reported (failing_at (w_clock sample1.2)));
    [reflexivity|exact sample1_safe|vm_compute; reflexivity|vm_compute; reflexivity|split; vm_compute; discriminate|
     vm_compute; reflexivity].
Defined.

(** ** The benchmark *)

Lemma good_bench_dir : good_path bench_dir.
Proof. done. Qed.

(** C22. The benchmark, when nothing fails, finds every key it wrote: for any
    count it accepts up to 2^26, any permutation [std::shuffle] makes and any
    scheduling of the background thread, [found] is [n]; the directory then
    holds the keys of the [n] writes. *)
Theorem bench_finds_all {O : Oracle} `{!FaultFree O} shuffle sched argv w :
  disk_wf (w_disk w) → (∀ keys, Permutation (shuffle keys) keys) →
  let n := match argv with [] => 100000 | a :: _ => atoi a end in
  0 ≤ n ≤ 2 ^ 26 →
  wp (bench_main shuffle sched argv) (λ r w', ∃ st m, r = Some (BenchDone n n st) ∧
    recoverable (w_disk w') bench_dir m ∧ written_below (Z.to_nat n) m) w.
Proof.
  intros Hwf Hperm n Hn. destruct main_default as [Ho Hc]. unfold bench_main. fold n.
  apply wp_bind. eapply wp_mono; [by apply fs_remove_all_spec|]. intros b w1 (Hwf1 & Hb & Hff).
  rewrite (Hff _) in *. cbn [negb]. apply wp_bind.
  eapply wp_mono; [apply (open_serves default_options bench_dir 0 1 ∅);
    [by apply removed_stored|apply good_bench_dir|done|unfold open_allowed; by destruct (_ || _)]|].
  intros [s odb] w2 (db & -> & -> & Hs). rewrite (proj2 (Z.ltb_ge n 0)) by lia.
  assert (wp (bench_run shuffle sched (Z.to_nat n)) (λ r '(_, w'), ∃ st m, r = Some (BenchDone n n st) ∧
    recoverable (w_disk w') bench_dir m ∧ written_below (Z.to_nat n) m) (db, w2)) as H.
  2: { unfold wp, on_object in *. by destruct (bench_run _ _ _ (db, w2)) as [r [db' w']]. }
  pose proof (Hperm (bench_key <$> seq 0 (Z.to_nat n))) as Hp.
  assert (zlen (shuffle (bench_key <$> seq 0 (Z.to_nat n))) = n) as Hlen
    by (rewrite (Permutation_length Hp), length_fmap, length_seq; lia).
  unfold bench_run. apply wp_bind.
  eapply wp_mono; [apply (write_loop_serves sched default_options bench_dir (Z.to_nat n) Hc 0 1 0 db w2 ∅ Hs)|].
  { intros i Hi. lia. } { unfold roomy, max_weight, bench_weight, number_stride. lia. }
  intros w3b [db3 w3] (-> & m & Hm & Hs3). cbn [negb]. rewrite Nat.add_0_r in Hm.
  apply wp_bind. eapply wp_mono; [eapply yield_serves; [exact Hs3|done|]|].
  { unfold roomy, max_weight, bench_weight, number_stride. lia. }
  intros y [db4 w4] [-> Hs4]. cbn [negb].
  apply wp_bind. eapply wp_mono; [eapply flush_serves; [exact Hs4|done|]|].
  { unfold roomy, max_weight, bench_weight, number_stride. lia. }
  intros f [db5 w5] [-> Hs5].
  apply wp_bind. eapply wp_mono; [eapply read_loop_serves; [done|exact Hs5| |]|].
  { rewrite Hp. apply Forall_fmap, Forall_seq. intros i Hi. apply Hm. lia. }
  { rewrite Hlen. unfold roomy, max_weight, bench_weight, number_stride. lia. }
  intros found [db6 w6] [-> Hs6]. rewrite Hlen in *.
  apply wp_bind. eapply wp_mono; [eapply yield_serves; [exact Hs6|done|]|].
  { unfold roomy, max_weight, bench_weight, number_stride. lia. }
  intros y [db7 w7] [-> Hs7]. cbn [negb]. apply wp_bind, wp_this.
  apply wp_bind. eapply wp_mono; [eapply destroy_stores; [exact Hs7|]|].
  { unfold roomy, max_weight, bench_weight, number_stride. lia. }
  intros [] [db8 w8] (_ & _ & v & tabs & Hpe & Hre & _). apply wp_ret. exists (GetStats db7), m.
  split_and!; [by rewrite Z2Nat.id by lia|by exists v, tabs|done].
Qed.

Lemma bench_finds_all_witness :
  wp (@bench_main faultless (@rev bytes) Nat.even [str "12"]) (λ r w', ∃ st m, r = Some (BenchDone 12 12 st) ∧
    recoverable (w_disk w') bench_dir m ∧ written_below 12 m) empty_world.
Proof.
  apply (@bench_finds_all faultless _ (@rev bytes) Nat.even [str "12"] empty_world).
  - apply empty_disk_wf.
  - intros keys. symmetry. apply Permutation_rev.
  - vm_compute. split; discriminate.
Defined.
