(* ===== verification/TestSuite.v ===== *)
(** * The repository's tests, run on the model

    The tests of [src/tests/] as computations that list the outcomes of their
    CHECKs, evaluated without I/O failures: they all pass.  Where a test loops,
    the number of rounds is a parameter, and the evaluation uses fewer rounds
    than the test.  [TempDir] is a directory of an empty disk. *)

From S2P Require Import Prelude Slice Status Coding Crc32c Bloom OrderedMap MemTable WriteBatch.
From S2P Require Import FileSystem Wal SSTable Version DB DBWrite DBSession Sample Cli.

Definition passed (checks : list bool) : bool := forallb id checks.

Definition TempDir : bytes := str "/tmp/clomdb_test_1".
Definition temp (name : string) : bytes := TempDir ++ str "/" ++ str name.
Definition numbered_key (prefix : string) (i : nat) : bytes := str prefix ++ show (Z.of_nat i).

(** ** test_util.h *)

(** A [TestCase] lists the outcomes of its CHECKs; the CHECKs on one result may
    share an outcome.  The text a failing CHECK writes to [stderr] is left out. *)
Record TestCase := mkTestCase { tc_name : bytes; tc_fn : ST World (list bool) }.
Definition pure_test (name : string) (outcomes : list bool) : TestCase :=
  mkTestCase (str name) (mret outcomes).

(** The two counters, after some CHECKs. *)
Record tally := mkTally { n_checks : Z; n_failures : Z }.
Definition CHECK (t : tally) (cond : bool) : tally :=
  mkTally (n_checks t + 1) (if cond then n_failures t else n_failures t + 1).

(** The loop of [main] over the registry: what it prints, and the counters. *)
Fixpoint run_tests (registry : list TestCase) (t : tally) : ST World (bytes * tally) :=
  match registry with
  | [] => mret ([], t)
  | tc :: registry =>
      outcomes ← tc_fn tc;
      '(out, t) ← run_tests registry (fold_left CHECK outcomes t);
      mret (str "[ RUN      ] " ++ line_of (tc_name tc) ++
            str "[       OK ] " ++ line_of (tc_name tc) ++ out, t)
  end.
Definition test_main (registry : list TestCase) : ST World (bytes * Z) :=
  '(out, t) ← run_tests registry (mkTally 0 0);
  mret (out ++ show (n_checks t) ++ str " checks, " ++ show (n_failures t) ++ line_of (str " failures"),
        if n_failures t =? 0 then 0 else 1).

(** The exit code on an empty disk. *)
Definition exits (registry : list TestCase) : Z := (test_main registry empty_world).1.2.

Lemma CHECK_failures outcomes t : n_failures (fold_left CHECK outcomes t) =
  n_failures t + zlen (filter (λ b, b = false) outcomes).
Proof.
  revert t. induction outcomes as [|[] outcomes IH]; intros t; cbn [fold_left].
  - cbn. lia.
  - rewrite IH, filter_cons_False by done. done.
  - rewrite IH, filter_cons_True by done. cbn. lia.
Qed.

(** The outcomes of all the CHECKs, in order. *)
Fixpoint all_outcomes (registry : list TestCase) : ST World (list bool) :=
  match registry with
  | [] => mret []
  | tc :: registry => bs ← tc_fn tc; rest ← all_outcomes registry; mret (bs ++ rest)
  end.
Lemma run_tests_failures registry t w : n_failures (run_tests registry t w).1.2 =
  n_failures t + zlen (filter (λ b, b = false) (all_outcomes registry w).1).
Proof.
  revert t w. induction registry as [|tc registry IH]; intros t w; [cbn; lia|].
  cbn [run_tests all_outcomes]. rewrite !run_bind. destruct (tc_fn tc w) as [bs w1]. cbn [fst snd].
  rewrite ?run_bind. specialize (IH (fold_left CHECK bs t) w1). destruct (run_tests _ _ w1) as [[out t'] w2].
  destruct (all_outcomes _ w1) as [rest w3]. cbn in *. rewrite IH, CHECK_failures, filter_app, length_app. lia.
Qed.

Lemma none_fails bs : zlen (filter (λ b, b = false) bs) = 0 ↔ passed bs = true.
Proof.
  induction bs as [|[] bs IH]; [done|by rewrite filter_cons_False|].
  rewrite filter_cons_True by done. cbn. split; [lia|done].
Qed.

(** The program exits with 0 exactly when every CHECK passes. *)
Lemma test_main_exit registry : exits registry = 0 ↔ passed (all_outcomes registry empty_world).1 = true.
Proof.
  unfold exits, test_main. rewrite run_bind. pose proof (run_tests_failures registry (mkTally 0 0) empty_world) as H.
  destruct (run_tests _ _ _) as [[out t] w]. cbn in *. rewrite H, Z.add_0_l, <- none_fails.
  destruct (Z.eqb_spec (zlen (filter (λ b, b = false) (all_outcomes registry empty_world).1)) 0) as [->|?]; [done|].
  by split.
Qed.

(** ** coding_test.cpp *)

Definition FixedRoundTrip : list bool :=
  let s := PutFixed64 (PutFixed32 [] 0x12345678) 0x1122334455667788 in
  [DecodeFixed32 s =? 0x12345678; DecodeFixed64 (drop 4 s) =? 0x1122334455667788].

Fixpoint read_varints (expected : list Z) (p : bytes) : list bool :=
  match expected with
  | [] => []
  | v :: vs =>
      match GetVarint32Ptr p with
      | None => [false]
      | Some (got, p) => true :: (got =? v) :: read_varints vs p
      end
  end.
Definition VarintRoundTrip : list bool :=
  let values := [0; 1; 127; 128; 300; 16384; 0xFFFFFFFF] in
  read_varints values (fold_left PutVarint32 values []).

Definition LengthPrefixedSliceRoundTrip : list bool :=
  let s := fold_left PutLengthPrefixedSlice [str "hello"; str ""; str "world!"] [] in
  match GetLengthPrefixedSlice s with
  | Some (a, input) =>
      match GetLengthPrefixedSlice input with
      | Some (b, input) =>
          match GetLengthPrefixedSlice input with
          | Some (c, input) =>
              [bool_decide (a = str "hello"); bool_decide (b = str ""); bool_decide (c = str "world!");
               bool_decide (input = [])]
          | None => [false]
          end
      | None => [false]
      end
  | None => [false]
  end.

Definition Crc32cKnownValue : list bool := [Value (str "123456789") =? 0xE3069283].
Definition Crc32cMaskRoundTrip : list bool :=
  let crc := Value (str "clomdb") in [negb (Mask crc =? crc); Unmask (Mask crc) =? crc].

(** The registry of each program: its tests in the order of the file. *)
Definition coding_tests : list TestCase :=
  [pure_test "FixedRoundTrip" FixedRoundTrip; pure_test "VarintRoundTrip" VarintRoundTrip;
   pure_test "LengthPrefixedSliceRoundTrip" LengthPrefixedSliceRoundTrip;
   pure_test "Crc32cKnownValue" Crc32cKnownValue; pure_test "Crc32cMaskRoundTrip" Crc32cMaskRoundTrip].
Lemma coding_test : exits coding_tests = 0.
Proof. vm_compute. reflexivity. Qed.

(** ** bloom_test.cpp *)

Definition BloomNoFalseNegatives (n : nat) : list bool :=
  let keys := numbered_key "key-" <$> seq 0 n in MayContain (Build keys 10) <$> keys.
Definition BloomReasonableFalsePositiveRate (n trials : nat) : list bool :=
  let filter := Build (numbered_key "present-" <$> seq 0 n) 10 in
  let false_positives := length (List.filter (MayContain filter) (numbered_key "absent-" <$> seq 0 trials)) in
  [(false_positives <? trials / 10)%nat].

Definition bloom_tests (n trials : nat) : list TestCase :=
  [pure_test "BloomNoFalseNegatives" (BloomNoFalseNegatives n);
   pure_test "BloomReasonableFalsePositiveRate" (BloomReasonableFalsePositiveRate n trials)].
Lemma bloom_test : exits (bloom_tests 40 60) = 0.
Proof. vm_compute. reflexivity. Qed.

(** ** wal_test.cpp *)

Definition collect (record : bytes) (got : list bytes) : list bytes := got ++ [record].

Section tests.
Existing Instance faultless.

(** Open a log, add the records, close it. *)
Fixpoint add_records (wal : WriteAheadLog) (rs : list (bytes * bool)) : ST World (list bool * WriteAheadLog) :=
  match rs with
  | [] => mret ([], wal)
  | (r, sync) :: rs =>
      '(s, wal) ← Wal_AddRecord wal r sync; '(bs, wal) ← add_records wal rs; mret (ok s :: bs, wal)
  end.
Definition write_log (path : bytes) (rs : list (bytes * bool)) : ST World (list bool) :=
  '(s, wal) ← Wal_Open Wal_new path;
  '(bs, wal) ← add_records wal rs;
  '(s', _) ← Wal_Close wal;
  mret (ok s :: bs ++ [ok s']).

Definition WalWriteAndReplay : ST World (list bool) :=
  let path := temp "wal_write_and_replay.log" in
  remove path;;
  bs ← write_log path [(str "record one", false); (str "record two", false); (str "", false)];
  '(s, got) ← ReplayAll path collect [];
  mret (bs ++ [ok s; bool_decide (got = [str "record one"; str "record two"; str ""])]).

Definition WalReplayMissingFileIsOk : ST World (list bool) :=
  let path := temp "does_not_exist.log" in
  remove path;;
  '(s, count) ← ReplayAll path (λ _ n, n + 1) 0;
  mret [ok s; count =? 0].

(** [fopen], [fwrite], [fclose] of a few bytes. *)
Definition put_bytes (append : bool) (path data : bytes) : ST World () :=
  r ← (if append then fopen_ab path else fopen_wb path);
  match r with
  | inl f => '(_, f) ← fwrite data f; fclose f;; mret ()
  | inr _ => mret ()
  end.

Definition WalTornTailRecordIsSkippedNotFatal : ST World (list bool) :=
  let path := temp "wal_torn_tail.log" in
  remove path;;
  bs ← write_log path [(str "good record", true)];
  put_bytes true path [x01; x02; x03];;
  '(s, got) ← ReplayAll path collect [];
  mret (bs ++ [ok s; bool_decide (got = [str "good record"])]).

Definition wal_tests : list TestCase :=
  [mkTestCase (str "WalWriteAndReplay") WalWriteAndReplay;
   mkTestCase (str "WalReplayMissingFileIsOk") WalReplayMissingFileIsOk;
   mkTestCase (str "WalTornTailRecordIsSkippedNotFatal") WalTornTailRecordIsSkippedNotFatal].
Lemma wal_test : exits wal_tests = 0.
Proof. vm_compute. reflexivity. Qed.

(** ** sstable_test.cpp *)

(** [%03d] and [%04d]. *)
Definition padded (prefix : string) (width i : nat) : bytes :=
  let digits := show (Z.of_nat i) in
  str prefix ++ replicate (width - length digits) x30 ++ digits.

(** A deletion every ten keys. *)
Definition table_entry (i : nat) : SSTableEntry :=
  if (Nat.modulo i 10 =? 0)%nat then mkEntry (padded "key" 3 i) EntryType_kDelete []
  else mkEntry (padded "key" 3 i) EntryType_kPut (numbered_key "value" i).

Fixpoint get_all (reader : SSTableReader) (nums : list nat) : ST World (list bool) :=
  match nums with
  | [] => mret []
  | i :: nums =>
      '(found, value, deleted) ← SSTableReader_Get reader (padded "key" 3 i) [] false;
      bs ← get_all reader nums;
      mret (found :: (if (Nat.modulo i 10 =? 0)%nat then deleted
                      else negb deleted && bool_decide (value = numbered_key "value" i)) :: bs)
  end.

Definition SSTableWriteReadGet (n : nat) : ST World (list bool) :=
  let path := temp "sstable_write_read_get.sst" in
  remove path;;
  s1 ← SSTableWriter_Write path (table_entry <$> seq 0 n) 10;
  '(s2, reader) ← SSTableReader_Open path;
  bs ← get_all reader (seq 0 n);
  '(found, _, _) ← SSTableReader_Get reader (str "nonexistent") [] false;
  mret ([ok s1; ok s2; entry_count reader =? Z.of_nat n; bool_decide (min_key_ reader = padded "key" 3 0);
         bool_decide (max_key_ reader = padded "key" 3 (n - 1))] ++ bs ++ [negb found]).

Definition SSTableReadAllPreservesOrder (n : nat) : ST World (list bool) :=
  let path := temp "sstable_read_all.sst" in
  let entries := (λ i, mkEntry (padded "k" 4 i) EntryType_kPut (numbered_key "v" i)) <$> seq 0 n in
  remove path;;
  s1 ← SSTableWriter_Write path entries 10;
  '(s2, reader) ← SSTableReader_Open path;
  '(s3, read_back) ← SSTableReader_ReadAll reader;
  mret [ok s1; ok s2; ok s3; bool_decide (read_back = entries)].

Definition SSTableRejectsBadMagic : ST World (list bool) :=
  let path := temp "not_an_sstable.sst" in
  remove path;;
  put_bytes false path (replicate 64 x78);;
  '(s, _) ← SSTableReader_Open path;
  mret [negb (ok s)].

Definition sstable_tests : list TestCase :=
  [mkTestCase (str "SSTableWriteReadGet") (SSTableWriteReadGet 100);
   mkTestCase (str "SSTableReadAllPreservesOrder") (SSTableReadAllPreservesOrder 50);
   mkTestCase (str "SSTableRejectsBadMagic") SSTableRejectsBadMagic].
Lemma sstable_test : exits sstable_tests = 0.
Proof. vm_compute. reflexivity. Qed.

(** ** db_test.cpp *)

Definition wo : WriteOptions := mkWriteOptions false.
(** [opts.background_compaction = false], with the given flush size and L0
    trigger. *)
Definition foreground (flush trigger : Z) : Options :=
  let d := default_options in
  mkOptions (create_if_missing d) (error_if_exists d) flush trigger (level_size_multiplier d)
    (level1_target_bytes d) (bloom_bits_per_key d) (sync_writes d) false.
Definition plain : Options :=
  foreground (memtable_flush_bytes default_options) (l0_compaction_trigger default_options).

(** [DB::Open], the body, [delete db]. *)
Definition session (opts : Options) (dir : bytes) (body : M (list bool)) : ST World (list bool) :=
  '(s, db) ← Open opts dir;
  match db with
  | Some db => bs ← on_object (bs ← body; Destroy;; mret bs) db; mret (ok s :: bs)
  | None => mret [ok s]
  end.
Definition FreshDir (name : string) : ST World bytes :=
  fs_remove_all (temp name);; mret (temp name).

(** One CHECK after the other. *)
Fixpoint checks {A} (l : list A) (f : A → M bool) : M (list bool) :=
  match l with [] => mret [] | a :: l => b ← f a; bs ← checks l f; mret (b :: bs) end.

Definition put_ok (kv : bytes * bytes) : M bool := r ← Put wo kv.1 kv.2; mret (acked r).
Definition delete_ok (k : bytes) : M bool := r ← Delete wo k; mret (acked r).
Definition flush_ok : M bool := r ← Flush; mret (acked r).
Definition get_is (kv : bytes * bytes) : M bool :=
  '(s, v) ← Get kv.1 []; mret (ok s && bool_decide (v = kv.2)).
Definition get_ok (k : bytes) : M bool := '(s, _) ← Get k []; mret (ok s).
Definition missing (k : bytes) : M bool := '(s, _) ← Get k []; mret (IsNotFound s).
Definition stats_ok (f : Stats → bool) : M bool := st ← this GetStats; mret (f st).

Definition BasicPutGetDelete : ST World (list bool) :=
  dir ← FreshDir "basic_put_get_delete";
  session plain dir (checks
    [put_ok (str "a", str "1"); put_ok (str "b", str "2"); get_is (str "a", str "1");
     get_is (str "b", str "2"); missing (str "missing"); delete_ok (str "a"); missing (str "a")] id).

Definition OverwriteReturnsLatestValue : ST World (list bool) :=
  dir ← FreshDir "overwrite_latest";
  session plain dir (checks
    [put_ok (str "k", str "v1"); put_ok (str "k", str "v2"); put_ok (str "k", str "v3");
     get_is (str "k", str "v3")] id).

Definition WriteBatchIsAtomicAndOrdered : ST World (list bool) :=
  dir ← FreshDir "write_batch";
  let batch := WriteBatch_Delete (WriteBatch_Put (WriteBatch_Put WriteBatch_new (str "x") (str "1"))
    (str "y") (str "2")) (str "x") in
  session plain dir (checks
    [(r ← Write wo batch; mret (acked r)); missing (str "x"); get_is (str "y", str "2")] id).

Definition RecoversFromWalAfterCrash : ST World (list bool) :=
  dir ← FreshDir "recovers_from_wal";
  bs1 ← session plain dir (checks
    [put_ok (str "durable1", str "yes"); put_ok (str "durable2", str "also-yes");
     delete_ok (str "durable1")] id);
  bs2 ← session plain dir (checks [missing (str "durable1"); get_is (str "durable2", str "also-yes")] id);
  mret (bs1 ++ bs2).

Definition RecoversUnflushedWalWithoutCleanShutdown (n : nat) : ST World (list bool) :=
  dir ← FreshDir "recovers_unflushed_wal";
  let opts := foreground (1024 * 1024 * 1024) (l0_compaction_trigger default_options) in
  let kvs := (λ i, (numbered_key "k" i, numbered_key "v" i)) <$> seq 0 n in
  bs1 ← session opts dir (bs ← checks kvs put_ok; b ← stats_ok (λ st, nth 0 (files_per_level st) 1 =? 0);
    mret (bs ++ [b]));
  bs2 ← session opts dir (checks kvs get_is);
  mret (bs1 ++ bs2).

Definition FlushCreatesL0FileAndSurvivesReopen (n : nat) : ST World (list bool) :=
  dir ← FreshDir "flush_creates_l0";
  bs1 ← session plain dir (
    bs ← checks (numbered_key "key" <$> seq 0 n) (λ k, put_ok (k, replicate 50 x78));
    b1 ← flush_ok;
    b2 ← stats_ok (λ st, (1 <=? nth 0 (files_per_level st) 0) && (memtable_entries st =? 0));
    mret (bs ++ [b1; b2]));
  bs2 ← session plain dir (checks [numbered_key "key" 0; numbered_key "key" (n - 1)] get_ok);
  mret (bs1 ++ bs2).

(** [flush] is the test's 2048 bytes, [rounds] its 5 and [n] its 100. *)
Definition CompactionMergesL0IntoL1AndPreservesData (flush : Z) (rounds n : nat) : ST World (list bool) :=
  dir ← FreshDir "compaction_merges";
  let opts := foreground flush 3 in
  let val (round i : nat) := numbered_key "round" round ++ numbered_key "-" i in
  let last := (λ i, (numbered_key "k" i, val (rounds - 1)%nat i)) <$> seq 0 n in
  bs1 ← session opts dir (
    bs ← checks (concat ((λ round, (λ i, (numbered_key "k" i, val round i)) <$> seq 0 n) <$> seq 0 rounds)) put_ok;
    b1 ← flush_ok;
    b2 ← stats_ok (λ st, 0 <? nth 1 (bytes_per_level st) 0);
    bs3 ← checks last get_is;
    mret (bs ++ [b1; b2] ++ bs3));
  bs2 ← session opts dir (checks last get_is);
  mret (bs1 ++ bs2).

Definition DeleteShadowsOlderCompactedValue : ST World (list bool) :=
  dir ← FreshDir "delete_shadows_older";
  let opts := foreground 64 2 in
  bs1 ← session opts dir (checks
    [put_ok (str "gone", str "should-not-be-visible"); flush_ok; delete_ok (str "gone"); flush_ok;
     missing (str "gone")] id);
  bs2 ← session opts dir (checks [missing (str "gone")] id);
  mret (bs1 ++ bs2).

Definition IteratorReturnsSortedLiveKeysOnly : ST World (list bool) :=
  dir ← FreshDir "iterator_sorted";
  let keys := str <$> ["delta"; "alpha"; "charlie"; "bravo"; "echo"]%string in
  session (foreground 256 (l0_compaction_trigger default_options)) dir (
    bs ← checks keys (λ k, put_ok (k, str "val-" ++ k));
    b1 ← flush_ok; b2 ← delete_ok (str "charlie");
    it ← NewIterator;
    mret (bs ++ [b1; b2; bool_decide ((scan it).*1 = str <$> ["alpha"; "bravo"; "delta"; "echo"]%string)])).

(** The background thread runs where [sched] says. *)
Definition BackgroundCompactionModeIsCorrect (sched : nat → bool) (n : nat) : ST World (list bool) :=
  dir ← FreshDir "background_mode";
  let f := foreground 1024 2 in
  let opts := mkOptions (create_if_missing f) (error_if_exists f) 1024 2 (level_size_multiplier f)
    (level1_target_bytes f) (bloom_bits_per_key f) (sync_writes f) true in
  session opts dir (
    bs1 ← checks (seq 0 n) (λ i, y ← yield (sched i); b ← put_ok (numbered_key "bg" i, replicate 20 x79); mret (y && b));
    b ← flush_ok;
    bs2 ← checks (numbered_key "bg" <$> seq 0 n) get_ok;
    mret (bs1 ++ [b] ++ bs2)).

Definition ErrorIfExistsIsRespected : ST World (list bool) :=
  dir ← FreshDir "error_if_exists";
  bs ← session default_options dir (mret []);
  let d := default_options in
  let opts2 := mkOptions (create_if_missing d) true (memtable_flush_bytes d) (l0_compaction_trigger d)
    (level_size_multiplier d) (level1_target_bytes d) (bloom_bits_per_key d) (sync_writes d)
    (background_compaction d) in
  '(s, db2) ← Open opts2 dir;
  mret (bs ++ [negb (ok s); match db2 with None => true | Some _ => false end]).

Definition db_tests : list TestCase :=
  [mkTestCase (str "BasicPutGetDelete") BasicPutGetDelete;
   mkTestCase (str "OverwriteReturnsLatestValue") OverwriteReturnsLatestValue;
   mkTestCase (str "WriteBatchIsAtomicAndOrdered") WriteBatchIsAtomicAndOrdered;
   mkTestCase (str "RecoversFromWalAfterCrash") RecoversFromWalAfterCrash;
   mkTestCase (str "RecoversUnflushedWalWithoutCleanShutdown") (RecoversUnflushedWalWithoutCleanShutdown 50);
   mkTestCase (str "FlushCreatesL0FileAndSurvivesReopen") (FlushCreatesL0FileAndSurvivesReopen 50);
   mkTestCase (str "CompactionMergesL0IntoL1AndPreservesData") (CompactionMergesL0IntoL1AndPreservesData 512 5 25);
   mkTestCase (str "DeleteShadowsOlderCompactedValue") DeleteShadowsOlderCompactedValue;
   mkTestCase (str "IteratorReturnsSortedLiveKeysOnly") IteratorReturnsSortedLiveKeysOnly;
   mkTestCase (str "BackgroundCompactionModeIsCorrect")
     (BackgroundCompactionModeIsCorrect (λ i, Nat.eqb (Nat.modulo i 10) 0) 60);
   mkTestCase (str "ErrorIfExistsIsRespected") ErrorIfExistsIsRespected].
Lemma db_test : exits db_tests = 0.
Proof. vm_compute. reflexivity. Qed.
End tests.
