(* ===== verification/DBCorrect.v ===== *)
(** * Correctness of the database

    The properties of [class DB], stated on its contract, each with a run on
    the sample database. *)

From S2P Require Import Prelude Slice Status OrderedMap MemTable WriteBatch FileSystem Wal.
From S2P Require Import SSTable SSTableSpec Version DB DBPaths Layers DBInv DBFlush DBReaders.
From S2P Require Import Merge DBCompact DBRead DBWrite DBOpen DBSpec DBSession Concurrency Sample.
From S2P Require Import SampleRuns.

(** ** Lemmas *)

Definition sample_system : system := mkSystem sample1.1 sample1.2 true.
Lemma sample_simulates : simulates sample_system (mkAmap sample_map false).
Proof.
  split; [apply safe_represents, sample1_safe|by vm_compute|].
  intros _. eexists _, _. split; vm_compute; reflexivity.
Qed.

(** ** The database is a map with atomic operations *)

(** Linearizability: when no I/O fails, every interleaving of client
    calls, background rounds and shutdown behaves like a map with atomic
    operations; each call returns what the map says. *)
Theorem atomic_map_refinement {O : Oracle} `{!FaultFree O} s a ls s' :
  simulates s a → steps s ls s' → ∃ a', asteps a ls a' ∧ simulates s' a'.
Proof. apply steps_simulates. Qed.

Definition after_flush : DB * World := after_run (@Flush faultless) sample1.
Lemma atomic_map_refinement_witness :
  ∃ s' a', asteps (mkAmap sample_map false)
      [LFlush OK; LGet (str "k2") [] (OK, str "v2"); LGet (str "k3") [] (NotFound (str "k3"), [])] a' ∧
    simulates s' a'.
Proof.
  eexists. eapply (@atomic_map_refinement faultless _ sample_system); [apply sample_simulates|].
  eapply steps_cons; [apply (@run_flush faultless OK); vm_compute; reflexivity|].
  eapply steps_cons; [apply (@run_get faultless); vm_compute; reflexivity|].
  eapply steps_cons; [apply (@run_get faultless); vm_compute; reflexivity|]. constructor.
Defined.

(** Crash safety: run the system under any pattern of I/O failures in
    which every write is acknowledged, let one more step fail at any point (a
    crash is the failure of everything from some call on), and open the
    database again: it holds exactly the acknowledged writes, or these and the
    unacknowledged one. *)
Theorem crash_recovery (O1 O2 : Oracle) `{!FaultFree O2} s ls s1 l s2 m options c stable :
  safe (s_db s) (w_disk (s_world s)) m →
  @steps O1 s ls s1 → writes_acked ls → @step O1 s1 l s2 →
  good_path (db_path_ (s_db s)) → options_ok options →
  create_if_missing options = true → error_if_exists options = false →
  let m1 := fold_left map_op (written ls) m in
  wp (@Open O2 options (db_path_ (s_db s)))
    (λ '(st, odb) w', ∃ db, st = OK ∧ odb = Some db ∧
       (represents db (w_disk w') m1 ∨
        represents db (w_disk w') (fold_left map_op (written [l]) m1)))
    (mkWorld (w_disk (s_world s2)) c stable).
Proof.
  intros Hs Hsteps Hack Hstep Hg Ho Hc He m1.
  destruct (safe_steps _ _ _ _ Hsteps Hs Hack) as [Hs1 Hp].
  destruct (last_step _ _ _ _ Hs1 Hstep) as [Hwf Hrec]. rewrite Hp in Hrec. fold m1 in Hrec.
  assert (∃ m2, recoverable (w_disk (s_world s2)) (db_path_ (s_db s)) m2 ∧
    (m2 = m1 ∨ m2 = fold_left map_op (written [l]) m1)) as (m2 & Hrec2 & Hm2).
  { destruct Hrec; eexists; (split; [done|auto]). }
  eapply wp_mono; [by apply (open_recoverable _ _ m2)|].
  intros [st odb] w' [Hres Hsome].
  destruct (Hsome _ (open_allowed_any _ _ _ Hc He)) as [db ->].
  destruct Hres as (-> & _ & _ & Hrep). destruct (Hrep _) as [Hr _].
  exists db. split_and!; [done|done|]. destruct Hm2 as [->| ->]; auto.
Qed.

(** The process dies in the middle of writing the log record of a batch. *)
Lemma crash_recovery_witness : ∃ s2,
  wp (@Open faultless sample_options sample_path)
    (λ '(st, odb) w', ∃ db, st = OK ∧ odb = Some db ∧
       (represents db (w_disk w') sample_map ∨
        represents db (w_disk w') (fold_left map_op [OpDelete (str "k1")] sample_map)))
    (booted (w_disk (s_world s2))).
Proof.
  eexists.
  refine (crash_recovery (dying (S (w_clock sample1.2))) faultless sample_system [] _
    (LWrite [OpDelete (str "k1")] _) _ sample_map sample_options 0 ∅ sample1_safe (steps_nil _) _ _ _
    sample_options_ok eq_refl eq_refl).
  - intros ops r Hin. inversion Hin.
  - apply (@run_write (dying (S (w_clock sample1.2))) (mkWriteOptions true));
      [split; [done|]| |]; vm_compute; reflexivity.
  - vm_compute. intros [=].
Defined.

(** ** The operations, one by one *)

(** C8. [Get] on an open database, when no call of the system fails, returns
    the value last written, or NotFound; it changes nothing. *)
Theorem Get_correct {O : Oracle} `{!FaultFree O} db w m key value :
  represents db (w_disk w) m → closed_ db = false →
  wp (Get key value) (λ r '(db', w'), r = get_result m key value ∧ db' = db ∧ w_disk w' = w_disk w)
    (db, w).
Proof.
  intros (tabs & Hok & <-) Hcl. eapply wp_mono; [by apply (Get_spec db tabs)|].
  intros r [db' w'] (-> & Ed & Hp & _). split_and!; [by apply Hp|done|done].
Qed.

Lemma Get_correct_witness :
  wp (@Get faultless (str "k1") []) (λ r '(db', w'), r = (OK, str "v1") ∧ db' = sample1.1 ∧
    w_disk w' = w_disk sample1.2) (sample1.1, sample1.2).
Proof.
  apply (@Get_correct faultless _ sample1.1 sample1.2 sample_map);
    [apply safe_represents, sample1_safe|vm_compute; reflexivity].
Defined.

(** C9. [Write] under any failures: an acknowledged batch is applied and
    durable; after a failed one the database shows all of the batch or none of
    it, and so does a recovery.  With a positive compaction trigger the call
    returns. *)
Theorem Write_atomic {O : Oracle} db w m opts ops :
  safe db (w_disk w) m → closed_ db = false → batch_fits ops → has_room db ops = true →
  let m' := fold_left map_op ops m in
  wp (Write opts (batch_of ops)) (λ r '(db', w'),
    (r = Some OK → safe db' (w_disk w') m') ∧
    (represents db' (w_disk w') m ∨ represents db' (w_disk w') m') ∧
    (recoverable (w_disk w') (db_path_ db) m ∨ recoverable (w_disk w') (db_path_ db) m') ∧
    (compaction_ok (options_ db) → r ≠ None)) (db, w).
Proof.
  intros. eapply wp_mono; [by apply Write_safe|]. intros r [db' w'] (Hack & ?).
  split; [|done]. intros ->. by apply Hack.
Qed.

Lemma Write_atomic_witness :
  wp (@Write (failing_at 40) (mkWriteOptions true) (batch_of [OpDelete (str "k1")])) (λ r '(db', w'),
    (r = Some OK → safe db' (w_disk w') (fold_left map_op [OpDelete (str "k1")] sample_map)) ∧
    (represents db' (w_disk w') sample_map ∨
     represents db' (w_disk w') (fold_left map_op [OpDelete (str "k1")] sample_map)) ∧
    (recoverable (w_disk w') (db_path_ sample1.1) sample_map ∨
     recoverable (w_disk w') (db_path_ sample1.1) (fold_left map_op [OpDelete (str "k1")] sample_map)) ∧
    (compaction_ok (options_ sample1.1) → r ≠ None)) (sample1.1, sample1.2).
Proof.
  apply (@Write_atomic (failing_at 40)); [apply sample1_safe|vm_compute; reflexivity| |].
  - split; [done|vm_compute; reflexivity].
  - vm_compute; reflexivity.
Defined.

(** C10. [FlushMemTableLocked] under any failures keeps the contents and what a
    recovery finds; when it succeeds the memtable is empty. *)
Theorem FlushMemTableLocked_safe {O : Oracle} db w m :
  safe db (w_disk w) m → has_room db [] = true →
  wp FlushMemTableLocked (λ s '(db', w'), safe db' (w_disk w') m ∧
    (ok s = true → EntryCount (memtable_ db') = 0) ∧ (FaultFree O → s = OK)) (db, w).
Proof.
  intros (tabs & Hok & Em & Hd) Hr.
  eapply wp_mono; [by eapply (FlushMemTableLocked_spec db tabs), has_room_limits|].
  intros s [db' w'] (tabs' & Hm & _ & _ & Hs & Hff). split_and!; [by eapply maintained_safe| |].
  - intros E%Hs%MemTable_empty_true. unfold EntryCount. by rewrite E.
  - intros Hff'. by apply Hff.
Qed.

Lemma FlushMemTableLocked_safe_witness :
  wp (@FlushMemTableLocked (dying 30)) (λ s '(db', w'), safe db' (w_disk w') sample_map ∧
    (ok s = true → EntryCount (memtable_ db') = 0) ∧ (FaultFree (dying 30) → s = OK))
    (sample1.1, sample1.2).
Proof. apply (@FlushMemTableLocked_safe (dying 30)); [apply sample1_safe|vm_compute; reflexivity]. Defined.

(** C11. [CompactLocked] under any failures keeps the contents and what a
    recovery finds; when it succeeds the level it was called on is empty. *)
Theorem CompactLocked_safe {O : Oracle} db w m level :
  safe db (w_disk w) m → has_room db [] = true →
  wp (CompactLocked level) (λ s '(db', w'), safe db' (w_disk w') m ∧
    memtable_ db' = memtable_ db ∧
    (ok s = true → (S level < kMaxLevels)%nat → Level (version_ db') level = []) ∧
    (FaultFree O → s = OK)) (db, w).
Proof.
  intros (tabs & Hok & Em & Hd) Hr. destruct (has_room_limits _ _ _ Hok Hr) as [Hw Hn].
  destruct (decide (S level < kMaxLevels)%nat) as [Hl|Hl].
  - pose proof (weights_nonneg (mem_entries (memtable_ db))).
    eapply wp_mono; [apply (CompactLocked_spec level db tabs); [done|done|lia|lia]|].
    intros s [db' w'] (tabs' & Hm & _ & Emem & _ & _ & Hlev & Hff).
    split_and!; [by eapply maintained_safe|done| |done]. intros Hs _. by apply Hlev.
  - unfold CompactLocked. cbv zeta. destruct (Nat.leb_spec kMaxLevels (S level)); [|lia].
    apply wp_ret. split_and!; [by exists tabs|done|done|done].
Qed.

Lemma CompactLocked_safe_witness :
  wp (@CompactLocked faultless 0) (λ s '(db', w'), safe db' (w_disk w') sample_map ∧
    memtable_ db' = memtable_ sample1.1 ∧
    (ok s = true → (1 < kMaxLevels)%nat → Level (version_ db') 0 = []) ∧
    (FaultFree faultless → s = OK)) (sample1.1, sample1.2).
Proof. apply (@CompactLocked_safe faultless); [apply sample1_safe|vm_compute; reflexivity]. Defined.

(** C12. [NewIterator], when no call of the system fails: the iterator visits
    the live keys in increasing order, each once, with their values. *)
Theorem NewIterator_correct {O : Oracle} `{!FaultFree O} db w m :
  represents db (w_disk w) m →
  wp NewIterator (λ it '(db', w'), StronglySorted key_lt (scan it).*1 ∧
    (∀ k v, (k, v) ∈ scan it ↔ m !! k = Some v) ∧ db' = db ∧ w_disk w' = w_disk w) (db, w).
Proof.
  intros (tabs & Hok & <-). eapply wp_mono; [by apply (NewIterator_spec db tabs)|].
  intros it [db' w'] (-> & Ed & _ & Hwf & Hm). split_and!; [done| |done|done].
  intros k v. rewrite <- (Hm _). symmetry. by apply omap_to_gmap_elem.
Qed.

Lemma NewIterator_correct_witness :
  wp (@NewIterator faultless) (λ it '(db', w'), StronglySorted key_lt (scan it).*1 ∧
    (∀ k v, (k, v) ∈ scan it ↔ sample_map !! k = Some v) ∧ db' = sample1.1 ∧
    w_disk w' = w_disk sample1.2) (sample1.1, sample1.2).
Proof. apply (@NewIterator_correct faultless _); apply safe_represents, sample1_safe. Defined.

(** C13. [Open] on the files of a recoverable database, under any failures: an
    object it hands out has lost nothing on disk, and without failures it is
    handed out and holds the recovered contents. *)
Theorem Open_correct {O : Oracle} options path m d c stable : disk_wf d → recoverable d path m →
  good_path path → options_ok options →
  wp (Open options path) (λ '(s, odb) w',
    (∀ db, odb = Some db → s = OK ∧ recoverable (w_disk w') path m) ∧
    (FaultFree O → open_allowed options path d →
       ∃ db, odb = Some db ∧ represents db (w_disk w') m ∧ closed_ db = false)) (mkWorld d c stable).
Proof.
  intros Hwf Hrec Hg Ho. eapply wp_mono; [by apply open_recoverable|].
  intros [s odb] w' [Hres Hsome]. split.
  - intros db ->. by destruct Hres as (-> & _ & ? & _).
  - intros Hff Hal. destruct (Hsome Hff Hal) as [db ->]. exists db.
    destruct Hres as (_ & Hc & _ & Hrep). by destruct (Hrep Hff).
Qed.

Lemma Open_correct_witness :
  wp (@Open faultless sample_options sample_path) (λ '(s, odb) w',
    (∀ db, odb = Some db → s = OK ∧ recoverable (w_disk w') sample_path sample_map) ∧
    (FaultFree faultless → open_allowed sample_options sample_path (w_disk sample1.2) →
       ∃ db, odb = Some db ∧ represents db (w_disk w') sample_map ∧ closed_ db = false))
    (booted (w_disk sample1.2)).
Proof.
  apply (@Open_correct faultless); [|apply (safe_recoverable _ _ _ sample1_safe)|done|apply sample_options_ok].
  destruct sample1_safe as (tabs & [] & _). done.
Defined.

(** C14. [Close], whatever fails in it, then [Open]: nothing is lost. *)
Theorem Close_reopen (O1 O2 : Oracle) `{!FaultFree O2} db w m options c stable :
  safe db (w_disk w) m → closed_ db = false → has_room db [] = true →
  good_path (db_path_ db) → options_ok options →
  create_if_missing options = true → error_if_exists options = false →
  wp (@Close O1) (λ _ '(db1, w1), closed_ db1 = true ∧
    wp (@Open O2 options (db_path_ db)) (λ '(s, odb) w2, ∃ db2, s = OK ∧ odb = Some db2 ∧
      represents db2 (w_disk w2) m ∧ closed_ db2 = false) (mkWorld (w_disk w1) c stable)) (db, w).
Proof.
  intros (tabs & Hok & <- & Hd) Hcl Hr Hg Ho Hc He.
  eapply wp_mono; [by eapply (Close_spec db tabs), Hcl; [|eapply has_room_limits]|].
  intros s [db1 w1] (tabs1 & []). split; [done|].
  assert (recoverable (w_disk w1) (db_path_ db) (contents db tabs)) as Hrec.
  { rewrite <- cl_contents, <- cl_path. apply durable_recoverable. auto. }
  eapply wp_mono; [apply (open_recoverable _ _ (contents db tabs)); [apply cl_ok|done|done|done]|].
  intros [s2 odb] w2 [Hres Hsome]. destruct (Hsome _ (open_allowed_any _ _ _ Hc He)) as [db2 ->].
  destruct Hres as (-> & Hcl2 & _ & Hrep). exists db2. by destruct (Hrep _).
Qed.

Lemma Close_reopen_witness :
  wp (@Close faultless) (λ _ '(db1, w1), closed_ db1 = true ∧
    wp (@Open faultless sample_options (db_path_ sample1.1)) (λ '(s, odb) w2, ∃ db2, s = OK ∧
      odb = Some db2 ∧ represents db2 (w_disk w2) sample_map ∧ closed_ db2 = false)
      (mkWorld (w_disk w1) 7 ∅))
    (sample1.1, sample1.2).
Proof.
  apply (Close_reopen faultless faultless);
    [apply sample1_safe|vm_compute; reflexivity|vm_compute; reflexivity|vm_compute; intros [=]|
     apply sample_options_ok|reflexivity|reflexivity].
Defined.

(** ** The compaction loop *)

Lemma compact_loop_unfold {O : Oracle} fuel s : compact_loop fuel s =
  match NeedsCompactionLocked s.1 with
  | None => (Some OK, s)
  | Some level =>
      match fuel with
      | 0%nat => (None, s)
      | S fuel' => (r ← CompactLocked level; if ok r then compact_loop fuel' else mret (Some r)) s
      end
  end.
Proof.
  destruct fuel; cbn [compact_loop]; unfold mbind, ST_bind, this, gets, mret, ST_ret; cbn;
    by destruct (NeedsCompactionLocked s.1).
Qed.

Lemma compact_loop_more {O : Oracle} f k s r s' :
  compact_loop f s = (Some r, s') → compact_loop (f + k) s = (Some r, s').
Proof.
  revert s. induction f as [|f IH]; intros s; rewrite !compact_loop_unfold;
    destruct (NeedsCompactionLocked s.1); try done.
  cbn [Nat.add]. rewrite !run_bind. destruct (ok _); [apply IH|done].
Qed.

(** C15. With a positive trigger the loop
    [while (NeedsCompactionLocked(&level)) CompactLocked(level)] ends after at
    most five compactions, under any failures: more fuel never changes the
    result. *)
Theorem compact_loop_terminates {O : Oracle} db w m :
  represents db (w_disk w) m → has_room db [] = true → compaction_ok (options_ db) →
  ∃ r s', ∀ fuel, (5 ≤ fuel)%nat → compact_loop fuel (db, w) = (Some r, s').
Proof.
  intros (tabs & Hok & _) Hr Hc. destruct (has_room_limits _ _ _ Hok Hr) as [Hw Hn].
  pose proof (weights_nonneg (mem_entries (memtable_ db))).
  pose proof (compact_loop_spec 5 0 db tabs w Hok ltac:(lia) ltac:(lia) ltac:(unfold kMaxLevels; lia)
    ltac:(lia)) as Hspec.
  unfold wp in Hspec. destruct (compact_loop 5 (db, w)) as [r [db' w']] eqn:E. cbn [fst snd] in Hspec.
  destruct Hspec as (tabs' & (_ & _ & _ & _ & _ & Hnone) & _). destruct r as [r|]; [|by destruct Hnone].
  exists r, (db', w'). intros fuel Hf. replace fuel with (5 + (fuel - 5))%nat by lia.
  by apply compact_loop_more.
Qed.

Lemma compact_loop_terminates_witness :
  ∃ r s', ∀ fuel, (5 ≤ fuel)%nat → @compact_loop (dying 33) fuel (sample1.1, sample1.2) = (Some r, s').
Proof.
  apply (@compact_loop_terminates (dying 33) _ _ sample_map);
    [apply safe_represents, sample1_safe|vm_compute; reflexivity|vm_compute; split; discriminate].
Defined.

(** C16. A successful [Flush] leaves an empty memtable and no level over its
    limit, with the contents unchanged. *)
Theorem Flush_settles {O : Oracle} db w m : safe db (w_disk w) m → has_room db [] = true →
  wp Flush (λ r '(db', w'), safe db' (w_disk w') m ∧
    (r = Some OK → MemTable_empty (memtable_ db') = true ∧
       ∀ level, (S level < kMaxLevels)%nat → overfull db' level = false)) (db, w).
Proof.
  intros (tabs & Hok & Em & Hd) Hr.
  eapply wp_mono; [by eapply (Flush_spec db tabs), has_room_limits|].
  intros r [db' w'] (tabs' & (Hm & _ & _) & Hs). split; [by eapply maintained_safe|]. intros ->.
  destruct (Hs eq_refl) as [He Hn]. split; [done|].
  pose proof (NeedsCompactionLocked_spec db') as H. by rewrite Hn in H.
Qed.

Lemma Flush_settles_witness :
  wp (@Flush faultless) (λ r '(db', w'), safe db' (w_disk w') sample_map ∧
    (r = Some OK → MemTable_empty (memtable_ db') = true ∧
       ∀ level, (S level < kMaxLevels)%nat → overfull db' level = false)) (sample1.1, sample1.2).
Proof. apply (@Flush_settles faultless); [apply sample1_safe|vm_compute; reflexivity]. Defined.

(** An empty database: nothing in memory, no tables. *)
Definition is_empty (db : DB) : Prop :=
  MemTable_empty (memtable_ db) = true ∧
  ∀ l, Level (version_ db) l = [] ∧ readers_at db l = [].

Lemma set_level_empty l db : is_empty db → is_empty (set_level l [] [] db).
Proof.
  intros [Hm Hl]. split; [done|]. intros l'. destruct (decide (l = l')) as [<-|Hne].
  - split; unfold Level, readers_at, set_level; cbn; rewrite nth_lookup;
      (destruct (decide (l < length (levels_ (version_ db)))%nat); destruct (decide (l < length (open_readers_ db)))%nat;
       rewrite ?list_lookup_insert_eq by done; rewrite ?list_insert_ge by lia; try done;
       rewrite <- nth_lookup; apply Hl).
  - rewrite (readers_set_ne db l l' [] [] Hne). unfold set_level.
    cbn [version_ set_version set_readers]. rewrite Level_set_ne by done. apply Hl.
Qed.

Lemma compact_empty {O : Oracle} `{!FaultFree O} db w : is_empty db → disk_wf (w_disk w) →
  wp (CompactLocked 0) (λ s '(db', w'), s = OK ∧ is_empty db' ∧ disk_wf (w_disk w') ∧
    options_ db' = options_ db) (db, w).
Proof.
  intros He Hwf. pose proof He as [_ Hl]. unfold CompactLocked. cbv zeta. cbn [Nat.leb kMaxLevels].
  step_this. step_this. destruct (Hl 0%nat) as [EL0 ER0], (Hl 1%nat) as [EL1 ER1].
  rewrite EL0, ER0, ER1. do 2 (apply wp_bind, wp_lift, wp_ret; cbn [negb]). step_this.
  apply wp_bind, wp_ret. cbn [negb]. apply wp_bind, wp_ret. cbn [negb new_files new_readers].
  step_this. rewrite EL0, EL1. step_update. step_update.
  set (db' := set_level 1 [] [] (set_level 0 [] [] db)).
  assert (is_empty db') as He' by (by do 2 apply set_level_empty).
  apply wp_check. unfold save_version. step_this. step_this. apply wp_lift.
  eapply wp_mono; [by apply Version_Save_spec|]. intros s w' (Hwf' & _ & _ & Hff).
  rewrite (Hff _). cbn. by split_and!.
Qed.

(** With a trigger of zero or less the loop never ends: every flush of an
    empty database compacts level 0 forever. *)
Theorem compact_loop_diverges {O : Oracle} `{!FaultFree O} db w fuel :
  is_empty db → disk_wf (w_disk w) → l0_compaction_trigger (options_ db) ≤ 0 →
  (Flush (db, w)).1 = None ∧ (compact_loop fuel (db, w)).1 = None.
Proof.
  intros He Hwf Ht.
  assert (∀ fuel, (compact_loop fuel (db, w)).1 = None) as Hloop.
  { clear fuel. intros fuel. revert db w He Hwf Ht. induction fuel as [|fuel IH]; intros db w He Hwf Ht;
      rewrite compact_loop_unfold; cbn [fst]; unfold NeedsCompactionLocked;
      rewrite (proj1 (proj2 He 0%nat)); change (to_int (zlen (@nil FileMetaData))) with 0;
      (destruct (Z.leb_spec (l0_compaction_trigger (options_ db)) 0); [|lia]); [done|].
    pose proof (compact_empty db w He Hwf) as H1. unfold wp in H1. rewrite run_bind.
    destruct (CompactLocked 0 (db, w)) as [s [db' w']]. cbn [fst snd] in *.
    destruct H1 as (-> & He' & Hwf' & Eo). rewrite ok_OK. apply IH; [done|done|by rewrite Eo]. }
  split; [|apply Hloop]. unfold Flush. rewrite run_bind.
  assert (FlushMemTableLocked (db, w) = (OK, (db, w))) as ->; [|apply Hloop].
  unfold FlushMemTableLocked. rewrite run_bind. cbn [this gets fst snd]. by rewrite (proj1 He).
Qed.

Definition zero_trigger_options : Options := mkOptions true false 100 0 10 1000 10 false false.
Definition zero_trigger : DB * World := opened faultless zero_trigger_options sample_path empty_world.
Lemma compact_loop_diverges_witness :
  (@Flush faultless (zero_trigger.1, zero_trigger.2)).1 = None ∧
  (@compact_loop faultless 1000 (zero_trigger.1, zero_trigger.2)).1 = None.
Proof.
  apply (@compact_loop_diverges faultless _).
  - split; [vm_compute; reflexivity|]. intros l. do 6 (destruct l as [|l]; [vm_compute; by split|]).
    split; vm_compute; by destruct l.
  - assert (persisted empty_disk sample_path Version_new (λ _, [])) as Hp by by apply persisted_none.
    destruct (opened_post faultless zero_trigger_options sample_path empty_world _ _ good_sample_path
      sample_options_ok empty_disk_wf Hp ltac:(eexists; vm_compute; reflexivity)) as [? ? ? ? []]. done.
  - vm_compute. discriminate.
Defined.
