(* ===== verification/StorageLemmas.v ===== *)
(** * Lemmas shared by the properties of the storage layer

    Disks with one file, and what a log reader makes of torn and corrupted
    records. *)

From S2P Require Import Prelude Status Coding Crc32c FileSystem Wal.

(** A disk with one file. *)
Definition one_file (path c : bytes) : Disk :=
  mkDisk {[canon path := 0%nat]} {[0%nat := c]} 1 ∅.
Definition on_file (path c : bytes) : World := booted (one_file path c).

Lemma one_file_wf path c : disk_wf (one_file path c).
Proof.
  split; cbn.
  - intros p i [<- <-]%lookup_singleton_Some. lia.
  - intros i x [<- <-]%lookup_singleton_Some. lia.
  - intros p q i [<- <-]%lookup_singleton_Some [<- _]%lookup_singleton_Some. done.
Qed.

Lemma one_file_content path c : content (one_file path c) path = Some c.
Proof.
  unfold content, resolve, one_file. cbn. rewrite lookup_singleton_eq. cbn. unfold icontent. cbn.
  by rewrite lookup_singleton_eq.
Qed.

Lemma content_resolve d path c : content d path = Some c →
  ∃ i, resolve d path = Some i ∧ icontent d i = c.
Proof. unfold content. destruct (resolve d path) as [i|]; [|done]. intros [= E]. by exists i. Qed.

Lemma file_content_of d path c : content d path = Some c → file_content d (canon path) = c.
Proof. intros (i & Hr & Hc)%content_resolve. by rewrite (file_content_ino _ _ _ Hr). Qed.

(** What a log file can hold while [data] is being appended. *)
Lemma append_records rs data k : Forall (λ r, zlen r < 2 ^ 32) rs → zlen data < 2 ^ 32 →
  records (log_of rs ++ take k (record data)) =
  if (k <? length (record data))%nat then rs else rs ++ [data].
Proof.
  intros Hrs Hd. rewrite records_log_of by done. destruct (Nat.ltb_spec k (length (record data))).
  - by rewrite records_torn, app_nil_r.
  - rewrite take_ge by done. pose proof (records_cons data [] Hd) as E.
    rewrite app_nil_r, records_nil in E. by rewrite E.
Qed.

Lemma wal_at_prefix p wal d c : wal_at p wal d c → file_content d p `prefix_of` c.
Proof.
  intros (f & _ & Hp & <-). rewrite (file_content_ino _ _ _ Hp). by apply prefix_app_r.
Qed.

Lemma prefix_of_take (x l : bytes) k : x `prefix_of` take k l → ∃ j, x = take j l.
Proof.
  intros [y E]. exists (length x). rewrite <- (take_drop k l), E.
  rewrite <- app_assoc. by rewrite take_app_length.
Qed.

(** A changed checksum is noticed, and so is a changed payload. *)
Lemma records_mismatch crc data rest : zlen data < 2 ^ 32 → length crc = 4%nat →
  Unmask (DecodeFixed32 crc) ≠ Value (framed data) →
  records (crc ++ le_bytes 4 (wrap32 (zlen data)) ++ data ++ rest) = [].
Proof.
  intros Hd Hl Hne. rewrite records_unfold. cbv zeta.
  rewrite (app_assoc crc), (take_zlen_app 8), (drop_zlen_app 8)
    by (by rewrite length_app, le_bytes_length, Hl).
  case_match; [done|]. rewrite drop_app_length' by done.
  rewrite <- (app_nil_r (le_bytes 4 _)), DecodeFixed32_le, wrap32_id by (unfold is_u32; lia || apply wrap32_u32).
  rewrite ztake_app, Z.ltb_irrefl. rewrite app_nil_r.
  assert (DecodeFixed32 (crc ++ le_bytes 4 (wrap32 (zlen data))) = DecodeFixed32 crc) as E.
  { unfold DecodeFixed32. by rewrite take_app_le by lia. }
  rewrite wrap32_id in E by (unfold is_u32; lia). rewrite E.
  unfold framed in Hne. rewrite wrap32_id in Hne by (unfold is_u32; lia).
  by destruct (Z.eqb_spec (Value (PutFixed32 [] (zlen data) ++ data)) (Unmask (DecodeFixed32 crc))); [congruence|].
Qed.

Lemma crc_bytes_mismatch data crc : length crc = 4%nat →
  crc ≠ le_bytes 4 (Mask (Value (framed data))) → Unmask (DecodeFixed32 crc) ≠ Value (framed data).
Proof.
  intros Hl Hne E. apply Hne. apply (f_equal Mask) in E.
  rewrite Mask_Unmask_aux in E by apply DecodeFixed32_u32. rewrite <- E. unfold DecodeFixed32.
  rewrite take_ge by lia. rewrite <- (le_bytes_val crc) at 1. by rewrite Hl.
Qed.

Lemma framed_byte_mismatch data k a b : data !! k = Some a → b ≠ a →
  Value (framed data) ≠ Value (framed (<[k := b]> data)).
Proof.
  intros Hk Hne. unfold framed. rewrite length_insert. pose proof (lookup_lt_Some _ _ _ Hk).
  rewrite <- (take_drop_middle data k a Hk) at 2. rewrite insert_take_drop by done.
  rewrite !app_assoc. by intros ?%Value_single_byte.
Qed.

(** A changed byte of a record, but for its length field, makes it unreadable. *)
Lemma corrupt_record data rest k a b : zlen data < 2 ^ 32 →
  record data !! k = Some a → (k < 4 ∨ 8 ≤ k)%nat → b ≠ a →
  records (<[k := b]> (record data) ++ rest) = [].
Proof.
  intros Hd Hk Hpos Hne.
  rewrite record_unfold in *. set (crc := le_bytes 4 (Mask _)) in *.
  assert (length crc = 4%nat) as Hl by apply le_bytes_length. destruct Hpos as [Hpos|Hpos].
  - rewrite insert_app_l, <- !app_assoc by lia. rewrite lookup_app_l in Hk by lia.
    apply records_mismatch; [done|by rewrite length_insert|]. apply crc_bytes_mismatch; [by rewrite length_insert|].
    intros E. fold crc in E. rewrite <- E in Hk. rewrite list_lookup_insert_eq in Hk by lia. congruence.
  - rewrite (insert_app_r_alt crc), insert_app_r_alt by (rewrite ?le_bytes_length; lia).
    rewrite !lookup_app_r in Hk by (rewrite ?le_bytes_length; lia). rewrite !le_bytes_length in *. rewrite Hl in *.
    set (j := (k - 4 - 4)%nat) in *. rewrite <- !app_assoc, <- (length_insert data j b).
    apply records_mismatch; [by rewrite length_insert|done|]. unfold crc.
    rewrite <- (app_nil_r (le_bytes 4 _)), DecodeFixed32_le by apply Mask_u32.
    rewrite Unmask_Mask_aux by apply Value_u32. by eapply framed_byte_mismatch.
Qed.

(** What a replay without failures hands to the callback. *)
Lemma ReplayAll_content {O : Oracle} `{!FaultFree O} {T} path (callback : bytes → T → T) t c w :
  disk_wf (w_disk w) → content (w_disk w) path = Some c →
  wp (ReplayAll path callback t) (λ '(s, t') w', s = OK ∧
    t' = fold_left (λ t r, callback r t) (records c) t) w.
Proof.
  intros Hwf Hc. eapply wp_mono; [by apply ReplayAll_spec|].
  intros [s t'] w' (_ & _ & rs & -> & _ & Hff). destruct (Hff _) as [-> ->].
  by rewrite (file_content_of _ _ _ Hc).
Qed.

