(* ===== verification/StorageCorrect.v ===== *)
(** * Correctness of the storage layer

    The properties of the files the database is made of: the write-ahead log,
    the manifest and the sorted tables.  Unless a theorem asks for
    [FaultFree], it holds under every pattern of I/O failures. *)

From S2P Require Import Prelude Slice Status OrderedMap Coding Crc32c Bloom FileSystem Wal.
From S2P Require Import SSTable SSTableSpec Version DBSession Sample StorageLemmas.

(** ** The write-ahead log *)

(** C23. Replaying, when no read fails, a log whose last append was cut
    anywhere hands out the complete records before the cut, and the last one
    only if it is whole. *)
Theorem wal_torn_tail {O : Oracle} `{!FaultFree O} {T} path (callback : bytes → T → T) t rs data k w :
  disk_wf (w_disk w) → content (w_disk w) path = Some (log_of rs ++ take k (record data)) →
  Forall (λ r, zlen r < 2 ^ 32) rs → zlen data < 2 ^ 32 →
  wp (ReplayAll path callback t) (λ '(s, t') w', s = OK ∧
    t' = fold_left (λ t r, callback r t)
           (if (k <? length (record data))%nat then rs else rs ++ [data]) t) w.
Proof.
  intros Hwf Hc Hrs Hd. eapply wp_mono; [by eapply ReplayAll_content|].
  intros [s t'] w' [-> ->]. by rewrite append_records.
Qed.

Lemma wal_torn_tail_witness :
  wp (@ReplayAll faultless (list bytes) (str "log") (λ r out, out ++ [r]) [])
    (λ '(s, out) w', s = OK ∧ out = fold_left (λ out r, out ++ [r])
       (if (9 <? length (record (str "delete")))%nat then [str "put"; []]
        else [str "put"; []] ++ [str "delete"]) [])
    (on_file (str "log") (log_of [str "put"; []] ++ take 9 (record (str "delete")))).
Proof.
  apply (@wal_torn_tail faultless _ (list bytes) _ _ [] [str "put"; []] (str "delete") 9);
    [apply one_file_wf|apply one_file_content|repeat constructor|vm_compute; reflexivity].
Defined.

(** C24. A changed byte in the checksum or in the payload of a record stops a
    replay without read errors there: it hands out the records before,
    whatever follows. *)
Theorem wal_corruption_detected {O : Oracle} `{!FaultFree O} {T} path (callback : bytes → T → T) t
    rs data rest k a b w :
  disk_wf (w_disk w) → content (w_disk w) path = Some (log_of rs ++ <[k := b]> (record data) ++ rest) →
  Forall (λ r, zlen r < 2 ^ 32) rs → zlen data < 2 ^ 32 →
  record data !! k = Some a → (k < 4 ∨ 8 ≤ k)%nat → b ≠ a →
  wp (ReplayAll path callback t) (λ '(s, t') w', s = OK ∧
    t' = fold_left (λ t r, callback r t) rs t) w.
Proof.
  intros Hwf Hc Hrs Hd Hk Hpos Hne. eapply wp_mono; [by eapply ReplayAll_content|].
  intros [s t'] w' [-> ->]. by rewrite records_log_of, (corrupt_record _ _ _ a), app_nil_r.
Qed.

Lemma wal_corruption_detected_witness :
  wp (@ReplayAll faultless Z (str "log") (λ r n, n + zlen r) 0)
    (λ '(s, n) w', s = OK ∧ n = fold_left (λ n r, n + zlen r) [str "put"] 0)
    (on_file (str "log") (log_of [str "put"] ++ <[9%nat := x00]> (record (str "delete")) ++ log_of [str "more"])).
Proof.
  apply (@wal_corruption_detected faultless _ Z _ _ 0 [str "put"] (str "delete") (log_of [str "more"]) 9 x65 x00);
    [apply one_file_wf|apply one_file_content|repeat constructor|vm_compute; reflexivity|
     vm_compute; reflexivity|right; lia|discriminate].
Defined.

(** C25. [AddRecord] under any failures changes no other file and leaves a log
    that is read as the old records or these and the new one; when it returns
    OK, the new record is in the file. *)
Theorem Wal_AddRecord_atomic {O : Oracle} path wal rs data sync w :
  disk_wf (w_disk w) → wal_flushed (canon path) wal (w_disk w) (log_of rs) →
  Forall (λ r, zlen r < 2 ^ 32) rs → zlen data < 2 ^ 32 →
  wp (Wal_AddRecord wal data sync) (λ '(s, wal') w',
    only_paths {[canon path]} (w_disk w) (w_disk w') ∧
    (let found := records (file_content (w_disk w') (canon path)) in
     found = rs ∨ found = rs ++ [data]) ∧
    (ok s = true → wal_flushed (canon path) wal' (w_disk w') (log_of (rs ++ [data]))) ∧
    (FaultFree O → s = OK)) w.
Proof.
  intros Hwf Hat Hrs Hd.
  eapply wp_mono; [by eapply Wal_AddRecord_spec, wal_flushed_at|].
  intros [s wal'] w' ([Hw [x Hx]] & [k Hk] & Hok & Hff).
  split_and!; [apply Hw| |by rewrite log_of_snoc|done]. cbv zeta.
  apply wal_at_prefix in Hk. rewrite Hx in Hk |- *. rewrite (wal_flushed_content _ _ _ _ Hat) in *.
  apply prefix_app_inv, prefix_of_take in Hk as [j ->]. rewrite append_records by done.
  case_match; auto.
Qed.

Definition open_log : WriteAheadLog := mkWal (Some (mkFILE 0 0 [])) (str "log").
Lemma Wal_AddRecord_atomic_witness :
  wp (@Wal_AddRecord (λ _, mkOutcome false 5 3) open_log (str "delete") true) (λ '(s, wal') w',
    only_paths {[canon (str "log")]} (one_file (str "log") (log_of [str "put"])) (w_disk w') ∧
    (let found := records (file_content (w_disk w') (canon (str "log"))) in
     found = [str "put"] ∨ found = [str "put"] ++ [str "delete"]) ∧
    (ok s = true → wal_flushed (canon (str "log")) wal' (w_disk w') (log_of ([str "put"] ++ [str "delete"]))) ∧
    (FaultFree (λ _, mkOutcome false 5 3) → s = OK)) (on_file (str "log") (log_of [str "put"])).
Proof.
  apply (@Wal_AddRecord_atomic (λ _, mkOutcome false 5 3));
    [apply one_file_wf| |repeat constructor|vm_compute; reflexivity].
  eexists. split_and!; vm_compute; reflexivity.
Defined.

(** Adding records one after the other. *)
Section sessions.
Context {O : Oracle}.
Fixpoint add_all (wal : WriteAheadLog) (rs : list bytes) (sync : bool) : ST World (Status * WriteAheadLog) :=
  match rs with
  | [] => mret (OK, wal)
  | r :: rs' =>
      '(s, wal) ← Wal_AddRecord wal r sync;
      if ok s then add_all wal rs' sync else mret (s, wal)
  end.

(** A session: open the log, add records, close it; then replay it. *)
Definition wal_session (path : bytes) (rs : list bytes) (sync : bool) : ST World (list Status * list bytes) :=
  '(s1, wal) ← Wal_Open Wal_new path;
  '(s2, wal) ← add_all wal rs sync;
  '(s3, _) ← Wal_Close wal;
  '(s4, out) ← ReplayAll path (λ r out, out ++ [r]) [];
  mret ([s1; s2; s3; s4], out).

Lemma add_all_spec `{!FaultFree O} p sync rs : ∀ wal old w, disk_wf (w_disk w) →
  wal_flushed p wal (w_disk w) (log_of old) →
  wp (add_all wal rs sync) (λ '(s, wal') w', s = OK ∧ disk_wf (w_disk w') ∧
    wal_flushed p wal' (w_disk w') (log_of (old ++ rs))) w.
Proof.
  induction rs as [|r rs IH]; intros wal old w Hwf Hat; [apply wp_ret; by rewrite app_nil_r|].
  cbn [add_all]. apply wp_bind. eapply wp_mono; [by eapply Wal_AddRecord_spec, wal_flushed_at|].
  intros [s wal'] w' ([Hw _] & _ & Hok & Hff). rewrite (Hff _) in *. cbn [ok].
  specialize (Hok eq_refl). rewrite <- log_of_snoc in Hok.
  rewrite (app_assoc old [r] rs : old ++ r :: rs = _). apply IH; [apply Hw|done].
Qed.

Lemma apply_records_snoc rs out : apply_records (λ r out, out ++ [r]) rs out = out ++ rs.
Proof.
  revert out. induction rs as [|r rs IH]; intros out; cbn; [by rewrite app_nil_r|].
  fold (apply_records (λ r out, out ++ [r]) rs (out ++ [r])). by rewrite IH, <- app_assoc.
Qed.
End sessions.

(** C26. Round trip, when nothing fails: records added to a log, over any
    records it already holds, are replayed after them, in order. *)
Theorem wal_roundtrip {O : Oracle} `{!FaultFree O} path old rs sync w :
  disk_wf (w_disk w) → file_content (w_disk w) (canon path) = log_of old →
  Forall (λ r, zlen r < 2 ^ 32) (old ++ rs) →
  wp (wal_session path rs sync) (λ r w', r = ([OK; OK; OK; OK], old ++ rs)) w.
Proof.
  intros Hwf Hold Hrs. unfold wal_session.
  apply wp_bind. eapply wp_mono; [by apply Wal_Open_spec|].
  intros [s1 wal] w1 (Hwf1 & _ & _ & _ & Hat & Hff). rewrite (Hff _), ok_OK in *. rewrite Hold in Hat.
  apply wp_bind. eapply wp_mono; [by eapply add_all_spec|].
  intros [s2 wal2] w2 (-> & Hwf2 & Hat2).
  apply wp_bind. eapply wp_mono; [by eapply Wal_Close_spec, wal_flushed_at|].
  intros [s3 wal3] w3 ([Hw3 _] & _ & _ & Hc & Hff3). rewrite (Hff3 _) in *.
  apply wp_bind. eapply wp_mono; [apply ReplayAll_spec, Hw3|].
  intros [s4 out] w4 (_ & _ & rs4 & -> & _ & Hff4). destruct (Hff4 _) as [-> ->].
  rewrite (Hc eq_refl), apply_records_snoc. apply wp_ret.
  rewrite <- (app_nil_r (log_of _)), records_log_of, records_nil, app_nil_r by done. done.
Qed.

Lemma wal_roundtrip_witness :
  wp (@wal_session faultless (str "log") [str "b"; []] true)
    (λ r w', r = ([OK; OK; OK; OK], [str "a"] ++ [str "b"; []])) (on_file (str "log") (log_of [str "a"])).
Proof.
  apply (@wal_roundtrip faultless _);
    [apply one_file_wf|apply file_content_of, one_file_content|repeat constructor].
Defined.

(** [ReplayAll] under any failures, on any file: the callback gets a
    prefix of the file's valid records, in order, and all of them when no call
    fails; the disk is unchanged. *)
Theorem ReplayAll_prefix {O : Oracle} {T} path (callback : bytes → T → T) t w : disk_wf (w_disk w) →
  wp (ReplayAll path callback t) (λ '(s, t') w', w_disk w' = w_disk w ∧
    ∃ rs, t' = fold_left (λ t r, callback r t) rs t ∧
      rs `prefix_of` records (file_content (w_disk w) (canon path)) ∧
      (FaultFree O → s = OK ∧ rs = records (file_content (w_disk w) (canon path)))) w.
Proof. intros Hwf. eapply wp_mono; [by apply ReplayAll_spec|]. by intros [s t'] w' (_ & ? & ?). Qed.

Definition torn_log : World := on_file (str "log") (log_of [str "a"; str "bc"] ++ [x07]).
Lemma torn_log_wf : disk_wf (w_disk torn_log).
Proof. apply one_file_wf. Qed.
Lemma ReplayAll_prefix_witness :
  wp (@ReplayAll (failing_at 3) Z (str "log") (λ r n, n + zlen r) 0) (λ '(s, n) w',
    w_disk w' = w_disk torn_log ∧
    ∃ rs, n = fold_left (λ n r, n + zlen r) rs 0 ∧
      rs `prefix_of` records (file_content (w_disk torn_log) (canon (str "log"))) ∧
      (FaultFree (failing_at 3) → s = OK ∧
       rs = records (file_content (w_disk torn_log) (canon (str "log"))))) torn_log.
Proof. exact (@ReplayAll_prefix (failing_at 3) Z _ (λ r n, n + zlen r) 0 torn_log torn_log_wf). Defined.

(** ** The manifest *)

(** [Load] of a file that fails the checksum test. *)
Lemma Version_Load_unchecked {O : Oracle} v0 path c w :
  content (w_disk w) path = Some c → manifest_checks c = false →
  wp (Version_Load v0 path) (λ '(s, v') w', w_disk w' = w_disk w ∧ ok s = false ∧ v' = v0 ∧
    (FaultFree O → IsCorruption s = true)) w.
Proof.
  intros (i & Hr & Hi)%content_resolve Hbad. unfold Version_Load.
  apply wp_bind. eapply wp_mono; [apply fopen_rb_spec|].
  intros [f|[]] w1 [Ed1 H1]; [|congruence|apply wp_ret; rewrite Ed1; by split_and!].
  destruct H1 as (Hr1 & Hp1 & Hb1). rewrite Hr in Hr1. injection Hr1 as ->.
  apply wp_bind. eapply wp_mono; [apply fseek_end_spec|].
  intros [b2 f2] w2 (Ed2 & Ei2 & Eb2 & Hp2 & _). rewrite Ed1 in *.
  apply wp_bind. eapply wp_mono; [apply ftell_spec|]. intros sz w3 [Ed3 ->]. rewrite Ed2 in *.
  apply wp_bind. eapply wp_mono; [apply fseek_set_spec|].
  intros [b4 f4] w4 (Ed4 & Ei4 & Eb4 & Hp4 & _). rewrite Ed3 in *.
  apply wp_bind. eapply wp_mono; [apply fread_spec|].
  intros [buf f5] w5 (Ed5 & Ei5 & Eb5 & Ep5 & Hpre5 & Hfull5 & _). rewrite Ed4 in *.
  apply wp_bind. eapply wp_mono; [apply fclose_read_spec; congruence|].
  intros b6 w6 Ed6. rewrite Ed5 in *. rewrite Ei4, Ei2, Hi in *.
  assert (w_disk w6 = w_disk w) as Ew by congruence.
  destruct (negb (zlen buf =? f_pos f2) || (f_pos f2 <? 4)) eqn:Elen; [by apply wp_ret|].
  apply orb_false_iff in Elen as [Elen%negb_false_iff%Z.eqb_eq E4%Z.ltb_ge].
  destruct b2; [|lia]. assert (buf = c) as ->.
  { destruct b4; [destruct Hp4 as [Hp4 _]|]; rewrite Hp4, Hp2 in *.
    - rewrite zdrop_nonpos, ztake_all in * by lia. by apply Hfull5.
    - rewrite zdrop_all in Hpre5 by lia. cbn [ztake] in Hpre5. apply prefix_nil_inv in Hpre5 as ->.
      cbn [length] in *. lia. }
  unfold manifest_checks in Hbad. destruct (Z.ltb_spec (zlen c) 4); [lia|]. cbn [negb andb] in Hbad.
  rewrite Hbad. cbn [negb]. by apply wp_ret.
Qed.

(** C27. Saving a version replaces the manifest in one step: whatever fails,
    a later [Load] finds the new version if [Save] returned OK and the old one
    otherwise, never a mixture. *)
Theorem Version_Save_atomic (O1 O2 : Oracle) v0 v vi path w :
  disk_wf (w_disk w) → version_fits v0 → version_fits v →
  content (w_disk w) path = Some (manifest_bytes v0) →
  wp (@Version_Save O1 v path) (λ s w1, ∀ clock stable,
    wp (@Version_Load O2 vi path) (λ '(s', v') w2,
      (ok s' = true → v' = if ok s then v else v0) ∧ (FaultFree O2 → s' = OK))
      (mkWorld (w_disk w1) clock stable)) w.
Proof.
  intros Hwf H0 H1 Hc. eapply wp_mono; [by apply Version_Save_spec|].
  intros s w1 (_ & _ & Hs & _) clock stable. eapply wp_mono.
  - apply (Version_Load_spec (if ok s then v else v0)); [by destruct (ok s)|].
    rewrite Hc in Hs. by destruct (ok s).
  - intros [s' v'] w2 (_ & _ & Hv & Hff). split; [|done]. intros E. by rewrite E in Hv.
Qed.

Definition sample_version : Version :=
  set_Level (mkVersion 8 (replicate kMaxLevels [])) 0 [mkMeta 7 (str "a") (str "z") 99].
Lemma sample_version_fits : version_fits sample_version.
Proof.
  split; [done|done|]. repeat (constructor; [split; [done|repeat constructor; done]|]). constructor.
Qed.

Lemma Version_Save_atomic_witness :
  wp (@Version_Save (failing_at 2) sample_version (str "M")) (λ s w1, ∀ clock stable,
    wp (@Version_Load faultless Version_new (str "M")) (λ '(s', v') w2,
      (ok s' = true → v' = if ok s then sample_version else Version_new) ∧
      (FaultFree faultless → s' = OK)) (mkWorld (w_disk w1) clock stable))
    (on_file (str "M") (manifest_bytes Version_new)).
Proof.
  apply (Version_Save_atomic (failing_at 2) faultless);
    [apply one_file_wf|apply version_new_fits|apply sample_version_fits|apply one_file_content].
Defined.

(** Round trip: without failures, on any disk, the version loaded after a
    save is the one saved, and no file but the manifest and its temporary
    changed. *)
Theorem Version_roundtrip {O : Oracle} `{!FaultFree O} v vi path w :
  disk_wf (w_disk w) → version_fits v →
  wp (s ← Version_Save v path; l ← Version_Load vi path; mret (s, l)) (λ r w',
    r = (OK, (OK, v)) ∧
    ∀ other, canon other ≠ canon path → canon other ≠ canon (tmp_of path) →
      content (w_disk w') other = content (w_disk w) other) w.
Proof.
  intros Hwf Hv. apply wp_bind. eapply wp_mono; [by apply Version_Save_spec|].
  intros s w1 (Hwf1 & Hop & Hs & Hff). rewrite (Hff _), ok_OK in *.
  apply wp_bind. eapply wp_mono; [by apply Version_Load_spec|].
  intros [s' v'] w2 (Ed & _ & Hv' & Hff2). rewrite (Hff2 _), ok_OK in *. subst v'. apply wp_ret.
  split; [done|]. intros other H1 H2. rewrite Ed. eapply only_paths_content; [done|done|]. set_solver.
Qed.

Lemma Version_roundtrip_witness :
  wp (s ← @Version_Save faultless sample_version (str "M"); l ← @Version_Load faultless Version_new (str "M");
      mret (s, l)) (λ r w', r = (OK, (OK, sample_version)) ∧
    ∀ other, canon other ≠ canon (str "M") → canon other ≠ canon (tmp_of (str "M")) →
      content (w_disk w') other = content empty_disk other) (booted empty_disk).
Proof. apply (@Version_roundtrip faultless _); [apply empty_disk_wf|apply sample_version_fits]. Defined.

(** C28. A manifest with one changed byte, anywhere, is rejected: [Load]
    fails, reports corruption when no call fails, and leaves the object as it
    was. *)
Theorem manifest_corruption_detected {O : Oracle} v0 v path pre a b suf w :
  manifest_bytes v = pre ++ a :: suf → b ≠ a →
  content (w_disk w) path = Some (pre ++ b :: suf) →
  wp (Version_Load v0 path) (λ '(s, v') w', ok s = false ∧ v' = v0 ∧ w_disk w' = w_disk w ∧
    (FaultFree O → IsCorruption s = true)) w.
Proof.
  intros Hm Hne Hc. eapply wp_mono; [eapply Version_Load_unchecked; [done|]|].
  - destruct (manifest_checks (pre ++ b :: suf)) eqn:E; [|done]. destruct Hne.
    pose proof (manifest_bytes_checks v) as Hv. rewrite Hm in Hv. by eapply manifest_checks_byte.
  - intros [s v'] w' (? & ? & ? & ?). by split_and!.
Qed.

Definition corrupt_manifest : World :=
  on_file (str "M") (take 10 (manifest_bytes sample_version) ++ xff :: drop 11 (manifest_bytes sample_version)).
Lemma manifest_corruption_detected_witness :
  wp (@Version_Load faultless Version_new (str "M")) (λ '(s, v') w', ok s = false ∧ v' = Version_new ∧
    w_disk w' = w_disk corrupt_manifest ∧ (FaultFree faultless → IsCorruption s = true)) corrupt_manifest.
Proof.
  apply (@manifest_corruption_detected faultless Version_new sample_version (str "M")
    (take 10 (manifest_bytes sample_version)) x6c xff (drop 11 (manifest_bytes sample_version)));
    [vm_compute; reflexivity|discriminate|apply one_file_content].
Defined.

(** ** Sorted tables *)

(** The search of [Get] on the sorted index, against a linear scan. *)
Lemma drop_lower_bound (idx : list (bytes * Z)) key : StronglySorted key_lt idx.*1 →
  drop (lower_bound idx key) idx = omap_lower_bound key idx.
Proof.
  intros Hs. destruct (lower_bound_spec idx key Hs) as [Hlo Hhi].
  destruct (omap_lower_bound_suffix key idx) as (pre & E & Hpre).
  pose proof (omap_lower_bound_ge key idx Hs) as Hge. set (p := lower_bound idx key) in *.
  assert (length pre ≤ p)%nat as Hle.
  { destruct (decide (length pre ≤ p)%nat) as [|Hn]; [done|]. exfalso.
    destruct (lookup_lt_is_Some_2 pre p) as [[k o] Hp]; [lia|].
    apply (Hhi p k o); [lia|rewrite E; by apply lookup_app_l_Some|].
    apply (Forall_forall (λ k', key_lt k' key) pre.*1); [done|]. apply list_elem_of_lookup_2 with p.
    by rewrite list_lookup_fmap, Hp. }
  destruct (omap_lower_bound key idx) as [|[k o] l].
  { rewrite app_nil_r in E. rewrite drop_ge; [done|]. by rewrite E. }
  assert (p ≤ length pre)%nat.
  { destruct (decide (p ≤ length pre)%nat) as [|Hn]; [done|]. exfalso.
    apply Forall_cons in Hge as [Hk _]. apply Hk, (Hlo (length pre) _ o); [lia|].
    rewrite E. by rewrite lookup_app_r, Nat.sub_diag by lia. }
  assert (p = length pre) as -> by lia. rewrite E at 1. by rewrite drop_app_length.
Qed.

(** C29. Round trip under any failures: a table that was written, opened and
    read with every call returning OK yields exactly the entries given; without
    failures every call returns OK. *)
Theorem SSTable_roundtrip {O : Oracle} path es b w : disk_wf (w_disk w) → table_wf es b →
  wp (SSTableWriter_Write path es b) (λ s w1, (FaultFree O → s = OK) ∧ (ok s = true →
    wp (SSTableReader_Open path) (λ '(s2, r) w2, (FaultFree O → s2 = OK) ∧ (ok s2 = true →
      head (e_key <$> es) = Some (min_key_ r) ∧ last (e_key <$> es) = Some (max_key_ r) ∧
      wp (SSTableReader_ReadAll r) (λ '(s3, out) w3, (FaultFree O → s3 = OK) ∧
        (ok s3 = true → out = es)) w2)) w1)) w.
Proof.
  intros Hwf Ht. eapply wp_mono; [by apply SSTableWriter_Write_spec|].
  intros s w1 (_ & _ & Hc & Hff). split; [done|]. intros (i & Hr & Hi)%Hc%content_resolve.
  eapply wp_mono; [by eapply SSTableReader_Open_spec|].
  intros [s2 r] w2 (Ed2 & Hok2 & Hff2). split; [done|]. intros Hrf%Hok2.
  pose proof Hrf as (_ & _ & Hmin & Hmax & _). split_and!; [done|done|].
  eapply wp_mono; [eapply (SSTableReader_ReadAll_spec es b i); [done|done|by rewrite Ed2]|].
  intros [s3 out] w3 (_ & ? & ?). by split.
Qed.

Definition sample_table : list SSTableEntry :=
  [mkEntry (str "a") EntryType_kPut (str "1"); mkEntry (str "b") EntryType_kDelete [];
   mkEntry (str "c") EntryType_kPut []].
Lemma sample_table_wf : table_wf sample_table 10.
Proof.
  split; [done|vm_compute; repeat constructor| |vm_compute; reflexivity|vm_compute; repeat split; intros [=]].
  repeat (constructor; [split_and!; [reflexivity..|vm_compute; auto]|]). constructor.
Qed.

Lemma SSTable_roundtrip_witness :
  wp (@SSTableWriter_Write (failing_at 9) (str "t.sst") sample_table 10) (λ s w1,
    (FaultFree (failing_at 9) → s = OK) ∧ (ok s = true →
    wp (@SSTableReader_Open (failing_at 9) (str "t.sst")) (λ '(s2, r) w2,
      (FaultFree (failing_at 9) → s2 = OK) ∧ (ok s2 = true →
      head (e_key <$> sample_table) = Some (min_key_ r) ∧
      last (e_key <$> sample_table) = Some (max_key_ r) ∧
      wp (@SSTableReader_ReadAll (failing_at 9) r) (λ '(s3, out) w3,
        (FaultFree (failing_at 9) → s3 = OK) ∧ (ok s3 = true → out = sample_table)) w2)) w1))
    (booted empty_disk).
Proof. apply (@SSTable_roundtrip (failing_at 9)); [apply empty_disk_wf|apply sample_table_wf]. Defined.

(** C30. A point lookup in a table never gives a wrong answer, whatever fails:
    if it reports the key, the value or the tombstone is the one stored, and a
    missing key is never reported; without failures it finds every stored key. *)
Theorem SSTableReader_Get_correct {O : Oracle} path es b key value w : table_wf es b →
  content (w_disk w) path = Some (table_bytes es b) →
  wp (SSTableReader_Open path) (λ '(s, r) w1, ok s = true →
    wp (SSTableReader_Get r key value false) (λ '(found, value', del) w2,
      (found = true → ∃ e, e ∈ es ∧ e_key e = key ∧ del = bool_decide (e_type e = EntryType_kDelete) ∧
         value' = if del then value else e_value e) ∧
      (FaultFree O → found = bool_decide (key ∈ e_key <$> es))) w1) w.
Proof.
  intros Ht (i & Hr & Hi)%content_resolve. eapply wp_mono; [by eapply SSTableReader_Open_spec|].
  intros [s r] w1 (Ed & Hok & _) Hrf%Hok. eapply wp_mono; [by eapply SSTableReader_Get_spec; [| |rewrite Ed]|].
  intros [[found value'] del] w2 [_ H]. destruct (table_layer es !! key) as [x|] eqn:E.
  - destruct H as (Hf & _ & Hff). apply table_layer_elem in E as (e & Hin & <- & <-); [|apply Ht]. split.
    + intros Hfound. apply Hf in Hfound. exists e. unfold entry_opt, get_answer in Hfound.
      destruct (decide (e_type e = EntryType_kDelete)) as [Ee|Ee]; injection Hfound as -> ->;
        by rewrite ?(bool_decide_eq_true_2 _ Ee), ?(bool_decide_eq_false_2 _ Ee).
    + intros Hff'. rewrite Hff by done. symmetry. apply bool_decide_eq_true, list_elem_of_fmap. by exists e.
  - destruct H as [-> _]. split; [done|]. intros _. symmetry. apply bool_decide_eq_false.
    by apply table_layer_None.
Qed.

Lemma SSTableReader_Get_correct_witness :
  wp (@SSTableReader_Open faultless (str "t.sst")) (λ '(s, r) w1, ok s = true →
    wp (@SSTableReader_Get faultless r (str "b") (str "old") false) (λ '(found, value', del) w2,
      (found = true → ∃ e, e ∈ sample_table ∧ e_key e = str "b" ∧
         del = bool_decide (e_type e = EntryType_kDelete) ∧
         value' = if del then str "old" else e_value e) ∧
      (FaultFree faultless → found = bool_decide (str "b" ∈ e_key <$> sample_table))) w1)
    (on_file (str "t.sst") (table_bytes sample_table 10)).
Proof.
  apply (@SSTableReader_Get_correct faultless _ _ 10); [apply sample_table_wf|apply one_file_content].
Defined.

(** [Open] refuses a file that is shorter than a footer or does not end
    with the magic number: never OK, and Corruption when no call fails. *)
Theorem SSTableReader_Open_rejects {O : Oracle} path c w : content (w_disk w) path = Some c →
  zlen c < kSSTableFooterSize ∨ DecodeFixed64 (zdrop (zlen c - 8) c) ≠ kSSTableMagic →
  wp (SSTableReader_Open path) (λ '(s, r) w', ok s = false ∧ file_handle_ r = None ∧
    w_disk w' = w_disk w ∧ (FaultFree O → IsCorruption s = true)) w.
Proof.
  intros (i & Hr & Hi)%content_resolve Hbad. unfold SSTableReader_Open, kSSTableFooterSize in *. cbv zeta.
  apply wp_bind. eapply wp_mono; [apply fopen_rb_spec|].
  intros [f|[]] w1 [Ed1 H1]; [|congruence|apply wp_ret; rewrite Ed1; by split_and!].
  destruct H1 as (Hr1 & _ & Hb1). rewrite Hr in Hr1. injection Hr1 as ->.
  apply wp_bind. eapply wp_mono; [apply fseek_end_spec|].
  intros [bb f2] w2 (Ed2 & Ei2 & Eb2 & Hpos2 & Hff2). rewrite Ed1, Hb1 in *.
  destruct bb; cbn [negb].
  2: { apply close_fail; [done|]. intros w' Ed. split_and!; [done|done|congruence|].
       intros Hff. by specialize (Hff2 Hff). }
  apply wp_bind. eapply wp_mono; [apply ftell_spec|]. intros sz w3 (Ed3 & ->). rewrite Ed2, Hpos2, Hi in *.
  destruct (Z.ltb_spec (zlen c) 40).
  { apply close_fail; [done|]. intros w' Ed. split_and!; [done|done|congruence|done]. }
  destruct Hbad as [?|Hbad]; [lia|].
  apply wp_bind. eapply wp_mono; [apply fseek_set_spec|].
  intros [bb f4] w4 (Ed4 & Ei4 & Eb4 & Hpos4 & Hff4). rewrite Ed3, Eb2, Ei2 in *.
  destruct bb; cbn [negb].
  2: { apply close_fail; [done|]. intros w' Ed. split_and!; [done|done|congruence|].
       intros Hff. by specialize (Hff4 Hff ltac:(lia)). }
  destruct Hpos4 as [Hp4 _].
  apply wp_bind. eapply wp_mono; [apply fread_spec|].
  intros [footer f5] w5 (Ed5 & Ei5 & Eb5 & _ & _ & Hfull5 & _). rewrite Ed4, Ei4, Eb4, Hp4, Hi in *.
  assert (zlen (zdrop (zlen c - 40) c) = 40) as Hl.
  { pose proof (f_equal length (ztake_zdrop (zlen c - 40) c)) as E. rewrite length_app in E.
    pose proof (ztake_length (zlen c - 40) c ltac:(lia)). lia. }
  rewrite ztake_all in Hfull5 by lia.
  destruct (Z.eqb_spec (zlen footer) 40) as [E5|E5]; cbn [negb].
  2: { apply close_fail; [done|]. intros w' Ed. split_and!; [done|done|congruence|done]. }
  rewrite (Hfull5 ltac:(lia)). unfold open_sections. cbv zeta.
  assert (drop 32 (zdrop (zlen c - 40) c) = zdrop (zlen c - 8) c) as ->.
  { replace (zlen c - 8) with (zlen c - 40 + 32) by lia. rewrite <- zdrop_zdrop by lia.
    symmetry. set (l := zdrop (zlen c - 40) c) in *. rewrite <- (take_drop 32 l) at 1.
    apply drop_zlen_app. rewrite length_take. lia. }
  destruct (Z.eqb_spec (DecodeFixed64 (zdrop (zlen c - 8) c)) kSSTableMagic); [done|]. cbn [negb].
  apply close_fail; [done|]. intros w' Ed. split_and!; [done|done|congruence|done].
Qed.

Lemma SSTableReader_Open_rejects_witness :
  wp (@SSTableReader_Open faultless (str "t.sst")) (λ '(s, r) w', ok s = false ∧
    file_handle_ r = None ∧ w_disk w' = one_file (str "t.sst") (str "garbage") ∧
    (FaultFree faultless → IsCorruption s = true)) (on_file (str "t.sst") (str "garbage")).
Proof.
  apply (@SSTableReader_Open_rejects faultless _ (str "garbage"));
    [apply one_file_content|left; vm_compute; reflexivity].
Defined.

(** The halving search of [Get] finds what a linear scan finds: the first
    index entry whose key is not below the one searched. *)
Theorem lower_bound_correct (index : list (bytes * Z)) key : StronglySorted key_lt index.*1 →
  drop (lower_bound index key) index = omap_lower_bound key index.
Proof. apply drop_lower_bound. Qed.

Lemma lower_bound_correct_witness :
  drop (lower_bound [(str "a", 0); (str "c", 9); (str "d", 20)] (str "b"))
    [(str "a", 0); (str "c", 9); (str "d", 20)] = [(str "c", 9); (str "d", 20)].
Proof. apply lower_bound_correct. vm_compute. repeat constructor. Defined.
