(* ===== verification/PowerCorrect.v ===== *)
(** * Correctness across power failures

    What [sync] buys, and where it ends: synced writes survive a power failure
    until the next flush, which moves them to files that are never synced; and
    the log of a new database is a name in a directory that is never synced. *)

From S2P Require Import Prelude Slice Status OrderedMap MemTable WriteBatch FileSystem Wal.
From S2P Require Import SSTable SSTableSpec Version DB DBPaths Layers DBInv DBFlush DBReaders.
From S2P Require Import Merge DBCompact DBRead DBWrite DBOpen DBSpec PowerLoss DBSession Unsynced Sample.



(** ** Flushing *)

(** C7. The flush undoes what [sync] promised.  Take an open database all of whose
    files, the log included, are on stable storage (files that do not exist
    yet have no stable content, and no temporary manifest is left over), with
    writes in its memtable: no power failure can lose any of them.  Then it is
    closed, nothing fails and [Close] returns OK.  Now a power failure may keep what was synced and nothing
    else; the next [Open] fails, and the one after it succeeds and finds an
    empty database: the writes are lost, and so is everything flushed before. *)
Theorem flush_loses_synced_writes (O1 O2 : Oracle) `{!FaultFree O1} `{!FaultFree O2} db w m options :
  safe db (w_disk w) m → closed_ db = false → has_room db [] = true →
  MemTable_empty (memtable_ db) = false →
  settled_but ∅ w → (∀ i, (d_next (w_disk w) ≤ i)%nat → stable_content w i = []) →
  d_files (w_disk w) !! canon (tmp_of (manifest_path (db_path_ db))) = None →
  good_path (db_path_ db) → options_ok options →
  create_if_missing options = true → error_if_exists options = false →
  (∀ d, power_loss w d → recoverable d (db_path_ db) m) ∧
  wp (@Close O1) (λ s '(_, w'), s = OK ∧ power_loss w' (only_stable w') ∧
    wp (@Open O2 options (db_path_ db)) (λ '(s1, odb1) w1, ok s1 = false ∧ odb1 = None ∧
      wp (@Open O2 options (db_path_ db)) (λ '(s2, odb2) w2, ∃ db2, s2 = OK ∧ odb2 = Some db2 ∧
        represents db2 (w_disk w2) ∅) w1)
      (booted (only_stable w'))) (db, w).
Proof.
  intros Hsafe Hcl Hroom Hmt Hse Hst Htmp Hg Ho Hc He. split.
  { intros d Hpl. destruct (safe_recoverable _ _ _ Hsafe) as (v & tabs & Hp & <-). by eapply settled_recovers. }
  destruct Hsafe as (tabs & Hok & <- & Hdur).
  eapply wp_mono; [apply (Close_wiped (O := O1) db tabs); try done; by eapply has_room_limits|].
  intros s [db' w'] [-> Hwi]. split_and!; [done|apply only_stable_power_loss|].
  eapply wp_mono; [by apply (Open_wiped (O := O2) options (db_path_ db))|].
  intros [s1 odb1] w1 (Es1 & -> & Hwf1 & Hr1). split_and!; [done|done|].
  eapply wp_mono; [by apply (open_recoverable (O := O2) _ _ ∅ options)|].
  intros [s2 odb2] w2 [Hres Hsome]. destruct (Hsome _ (open_allowed_any _ _ _ Hc He)) as [db2 ->].
  destruct Hres as (-> & _ & _ & Hrep). destruct (Hrep _). by exists db2.
Qed.

(** A synced [Put] on the sample database. *)
Definition put_ops : list op := [OpPut (str "k4") (str "v4")].
Definition synced_put : DB * World :=
  after_run (@Write faultless (mkWriteOptions true) (batch_of put_ops)) (sample1.1, booted (w_disk sample1.2)).
Lemma put_fits : batch_fits put_ops.
Proof. repeat constructor; try done; vm_compute; reflexivity. Qed.
Lemma synced_put_safe : safe synced_put.1 (w_disk synced_put.2) (fold_left map_op put_ops sample_map).
Proof.
  apply safe_write; [exact sample1_safe|by vm_compute|exact put_fits|by vm_compute|by vm_compute].
Qed.
Lemma flush_loses_synced_writes_witness :
  (∀ d, power_loss synced_put.2 d → recoverable d (db_path_ synced_put.1) (fold_left map_op put_ops sample_map)) ∧
  wp (@Close faultless) (λ s '(_, w'), s = OK ∧ power_loss w' (only_stable w') ∧
    wp (@Open faultless sample_options (db_path_ synced_put.1)) (λ '(s1, odb1) w1, ok s1 = false ∧ odb1 = None ∧
      wp (@Open faultless sample_options (db_path_ synced_put.1)) (λ '(s2, odb2) w2, ∃ db2, s2 = OK ∧
        odb2 = Some db2 ∧ represents db2 (w_disk w2) ∅) w1)
      (booted (only_stable w'))) (synced_put.1, synced_put.2).
Proof.
  apply (flush_loses_synced_writes faultless faultless);
    [exact synced_put_safe|vm_compute; reflexivity|vm_compute; reflexivity|vm_compute; reflexivity|
     apply settled_all; vm_compute; reflexivity|apply stable_below; vm_compute; reflexivity|
     vm_compute; reflexivity|vm_compute; discriminate|exact sample_options_ok|reflexivity|reflexivity].
Defined.

(** ** The directory *)

(** A new database, a synced and acknowledged [Put], and a power failure that
    keeps what was synced but forgets the names made since the start: the log is
    synced, its directory entry is not. *)
Definition new_db : DB * World := opened faultless sample_options sample_path empty_world.
Definition first_put : DB * World :=
  after_run (@Put faultless (mkWriteOptions true) (str "k1") (str "v1")) new_db.
Definition forgotten : Disk := only_stable_since (w_disk empty_world) first_put.2.

Theorem directory_entry_lost :
  (@Put faultless (mkWriteOptions true) (str "k1") (str "v1") new_db).1 = Some OK ∧
  power_loss_since (w_disk empty_world) first_put.2 forgotten ∧
  (@Get faultless (str "k1") [] (opened faultless sample_options sample_path (booted forgotten))).1 =
    (NotFound (str "k1"), []).
Proof.
  split_and!; [vm_compute; reflexivity|apply only_stable_since_loss|vm_compute; reflexivity].
Qed.
