(* ===== verification/Findings.v ===== *)
(** * What the code does against its documentation

    Behaviours that lose data or answer with old data: appending after a torn
    log record (left by a crash or by a short write), a table that cannot be
    read, an [Open] that fails, and a database path with a trailing slash.  The
    numbered theorems hold of every database that meets their conditions; the
    others are runs of the model.  The hypotheses of the theorems of
    [DBCorrect] exclude these cases: [safe] asks for a clean log, a [Get] is
    exact when the tables can be read, [Open_correct] says nothing of the disk
    after an error, and [good_path] excludes the trailing slash.  Three more are
    elsewhere: a flush and a directory that are not synced in [PowerCorrect],
    and [Close] from two threads at the end of [ThreadsCorrect]. *)

From S2P Require Import Prelude Slice Status OrderedMap Coding Crc32c MemTable WriteBatch.
From S2P Require Import FileSystem Wal SSTable Version DB DBPaths DBInv DBWrite DBOpen DBSpec.
From S2P Require Import DBFlush DBCompact DBRead QuietWrite ReadErrors Layers DBSession Sample StorageLemmas.

(** ** Lemmas *)

(** A record cut inside its payload claims the bytes that follow it. *)
Lemma torn_record_claims data k rest : zlen data < 2 ^ 32 →
  (8 ≤ k)%nat → Z.of_nat k + zlen rest < zlen (record data) →
  records (take k (record data) ++ rest) = [].
Proof.
  intros Hd Hk Hrest. pose proof (record_length data) as Hl. pose proof (header_of_length data) as Hh.
  assert (take k (record data) ++ rest = header_of data ++ (take (k - 8) data ++ rest)) as ->.
  { rewrite record_header, take_app, take_ge, <- app_assoc by lia. do 3 f_equal; lia. }
  rewrite records_unfold. cbv zeta. rewrite (take_zlen_app 8), (drop_zlen_app 8) by done.
  rewrite Hh. cbn [Z.ltb Z.compare Pos.compare Pos.compare_cont].
  destruct (header_decode data [] Hd) as [_ E]. rewrite app_nil_r in E. rewrite E.
  assert (zlen (take (k - 8) data ++ rest) < zlen data) as Hs
    by (rewrite length_app, length_take; lia).
  rewrite ztake_all by lia. by destruct (Z.ltb_spec (zlen (take (k - 8) data ++ rest)) (zlen data)); [|lia].
Qed.

(** A flush brings no level over its limit: room for one more table in L0. *)
Definition stays_small (db : DB) : bool :=
  match NeedsCompactionLocked db with
  | None => to_int (zlen (Level (version_ db) 0) + 1) <? l0_compaction_trigger (options_ db)
  | Some _ => false
  end.

Lemma needs_compaction_from_ext db db' n lvl target : options_ db' = options_ db →
  (∀ l, (lvl ≤ l)%nat → Level (version_ db') l = Level (version_ db) l) →
  needs_compaction_from db' n lvl target = needs_compaction_from db n lvl target.
Proof.
  intros Eo. revert lvl target. induction n as [|n IH]; intros lvl target El; [done|].
  cbn [needs_compaction_from]. rewrite El, Eo, IH; [done| |done]. intros l Hl. apply El. lia.
Qed.

Lemma needs_push db db' fm rd : options_ db' = options_ db →
  version_ db' = version_ (push_l0 fm rd (bump db)) → length (levels_ (version_ db)) = kMaxLevels →
  stays_small db = true → NeedsCompactionLocked db' = None.
Proof.
  intros Eo Ev Hl. unfold stays_small, NeedsCompactionLocked. rewrite Eo.
  rewrite (needs_compaction_from_ext db db'); [|done|].
  2: { intros l Hl1. rewrite Ev. unfold push_l0. cbn [version_ set_level set_version set_readers].
       by rewrite Level_set_ne by lia. }
  rewrite Ev. unfold push_l0. cbn [version_ set_level set_version set_readers].
  rewrite Level_set_eq by (cbn; rewrite Hl; unfold kMaxLevels; lia).
  rewrite length_app, Nat2Z.inj_add. cbn [length].
  destruct (_ <=? _); [done|]. destruct (needs_compaction_from _ _ _ _); [done|].
  intros Ht%Z.ltb_lt. rewrite (proj2 (Z.leb_gt _ _)); [done|exact Ht].
Qed.

(** A [Flush] without failures and without a compaction. *)
Lemma Flush_ready {O : Oracle} `{!FaultFree O} db tabs w : db_ok db tabs (w_disk w) →
  within_limits db tabs → MemTable_empty (memtable_ db) = false → stays_small db = true →
  wp Flush (λ r '(db', w'), r = Some OK ∧ ∃ t, db_ok db' (push_tab t tabs) (w_disk w') ∧
    tbl_layer t = mem_layer (memtable_ db) ∧ MemTable_empty (memtable_ db') = true ∧
    closed_ db' = closed_ db ∧ contents db' (push_tab t tabs) = contents db tabs) (db, w).
Proof.
  intros Hok Hlim Hne Hsmall. unfold Flush. apply wp_bind.
  eapply wp_mono; [by apply (flush_nonempty_spec db tabs)|].
  intros s [db2 w2] (tabs' & (Hm & _ & _ & Hemp2 & Hff) & Hinto). destruct (Hff _) as (-> & _).
  destruct (Hinto eq_refl) as (t & -> & Ht & fm & rd & Ev2). rewrite ok_OK. cbn [negb].
  pose proof Hm as [[_ Eo2 _ _ _ _ Ecl2] Hok2 Ec2 _ _].
  assert (NeedsCompactionLocked db2 = None) as Hnc by (eapply needs_push; [done..|apply Hok|done]).
  unfold loop_fuel, kMaxLevels. cbn [compact_loop]. step_this. rewrite Hnc. apply wp_ret.
  split; [done|]. exists t. specialize (Hemp2 eq_refl). by split_and!.
Qed.

Definition op_key (o : op) : bytes := match o with OpPut k _ => k | OpDelete k => k end.
Lemma layer_ops_key ops L key : key ∈ op_key <$> ops ∨ is_Some (L !! key) →
  is_Some (fold_left layer_op ops L !! key).
Proof.
  revert L. induction ops as [|o ops IH]; intros L; cbn [fold_left fmap list_fmap].
  - intros [H|H]; [inversion H|done].
  - intros H. apply IH. destruct H as [[->|H]%elem_of_cons|[x H]]; [right|by left|right].
    + destruct o; cbn; rewrite lookup_insert_eq; eauto.
    + destruct o as [k v|k]; cbn; (destruct (decide (k = key)) as [<-|];
        [rewrite lookup_insert_eq|rewrite lookup_insert_ne by done]; eauto).
Qed.

(** ** Torn records *)

(** The log is not truncated at a torn record: records appended after it
    are not replayed as long as they fit in the part that was cut off. *)
Theorem torn_record_hides {O : Oracle} `{!FaultFree O} {T} path (callback : bytes → T → T) t
    rs data k later w :
  disk_wf (w_disk w) →
  content (w_disk w) path = Some (log_of rs ++ take k (record data) ++ log_of later) →
  Forall (λ r, zlen r < 2 ^ 32) rs → zlen data < 2 ^ 32 →
  (8 ≤ k)%nat → Z.of_nat k + zlen (log_of later) < zlen (record data) →
  wp (ReplayAll path callback t) (λ '(s, t') w', s = OK ∧
    t' = fold_left (λ t r, callback r t) rs t) w.
Proof.
  intros Hwf Hc Hrs Hd Hk Hl. eapply wp_mono; [by eapply ReplayAll_content|].
  intros [s t'] w' [-> ->]. by rewrite records_log_of, torn_record_claims, app_nil_r.
Qed.

Definition long_record : bytes := replicate 60 x61.
Lemma torn_record_hides_witness :
  wp (@ReplayAll faultless Z (str "log") (λ r n, n + 1) 0)
    (λ '(s, n) w', s = OK ∧ n = fold_left (λ n r, n + 1) [str "first"] 0)
    (on_file (str "log") (log_of [str "first"] ++ take 20 (record long_record) ++ log_of [str "x"; str "y"])).
Proof.
  apply (@torn_record_hides faultless _ Z _ (λ _ n, n + 1) 0 [str "first"] long_record 20 [str "x"; str "y"]);
    [apply one_file_wf|apply one_file_content|repeat constructor|vm_compute; reflexivity|lia|
     vm_compute; reflexivity].
Defined.

(** ** Lemmas: recovering from a log with a tail that is not replayed *)

Lemma opened_recovers O `{!FaultFree O} options path d v tabs : good_path path → options_ok options →
  create_if_missing options = true → error_if_exists options = false → disk_wf d →
  persisted d path v tabs → let s := opened O options path (booted d) in
  is_Some (@Open O options path (booted d)).1.2 ∧
  open_post (O := O) options path v tabs d s.1 (w_disk s.2).
Proof.
  intros Hg Ho Hc He Hwf Hp s. pose proof (Open_spec options path v tabs (booted d) Hg Ho Hwf Hp) as H.
  assert (is_Some (@Open O options path (booted d)).1.2) as Hs.
  { unfold wp in H. destruct (Open options path (booted d)) as [[st odb] w']. cbn [fst snd] in *.
    apply H; [done|by apply open_allowed_any]. }
  split; [done|]. by apply (opened_post O options path (booted d)).
Qed.

(** A log whose tail has no records: recovery finds what is before it. *)
Lemma opened_tail O `{!FaultFree O} options path d v tabs rs tail : good_path path → options_ok options →
  create_if_missing options = true → error_if_exists options = false → disk_wf d →
  persisted d path v tabs → Forall (λ r, zlen r < 2 ^ 32) rs →
  wal_content d path = log_of rs ++ tail → records tail = [] →
  let s := opened O options path (booted d) in
  is_Some (@Open O options path (booted d)).1.2 ∧
  db_path_ s.1 = path ∧ closed_ s.1 = false ∧ db_ok s.1 tabs (w_disk s.2) ∧
  contents s.1 tabs = live (wal_layer (log_of rs) ∪ tables_layer tabs) ∧
  persisted (w_disk s.2) path v tabs ∧ log_ready s.1 (w_disk s.2) (log_of rs ++ tail).
Proof.
  intros Hg Ho Hc He Hwf Hp Hrs Hw Ht s.
  destruct (opened_recovers O options path d v tabs Hg Ho Hc He Hwf Hp) as [Hs Hpost]. fold s in Hpost.
  destruct Hpost as [Ep _ Hcl _ Hok _ (_ & Hp' & _) Ec _ _ Hl _]. rewrite Hw in Hl.
  split_and!; [done..| |done|by rewrite <- Ep in Hl].
  rewrite (Ec _). unfold recovered. by rewrite Hw, wal_layer_app, wal_ops_records, Ht by done.
Qed.

(** C31. A [Write] that is not acknowledged, because the process dies in it or a
    call fails, leaves [k] bytes of its record in the log, the header
    included.  The database is opened again and holds [m].  A second [Write] is
    acknowledged, synced or not, and its record is shorter than what is missing of
    the first.  After the next [Open] the database holds [m]: the second write
    is lost. *)
Theorem acknowledged_write_lost (O1 O2 : Oracle) `{!FaultFree O2} db w m opts ops k options opts' ops' :
  let path := db_path_ db in
  let s1 := after_run (@Write O1 opts (batch_of ops)) (db, w) in
  let s2 := opened O2 options path (booted (w_disk s1.2)) in
  let s3 := after_run (@Write O2 opts' (batch_of ops')) s2 in
  let s4 := opened O2 options path (booted (w_disk s3.2)) in
  safe db (w_disk w) m → closed_ db = false → batch_fits ops → quiet db ops = true →
  good_path path → options_ok options →
  create_if_missing options = true → error_if_exists options = false →
  acked (@Write O1 opts (batch_of ops) (db, w)).1 = false →
  wal_content (w_disk s1.2) path =
    wal_content (w_disk w) path ++ take k (record (rep_ (batch_of ops))) →
  (8 ≤ k)%nat → batch_fits ops' → quiet s2.1 ops' = true →
  Z.of_nat k + zlen (record (rep_ (batch_of ops'))) < zlen (record (rep_ (batch_of ops))) →
  represents s2.1 (w_disk s2.2) m ∧
  (@Write O2 opts' (batch_of ops') s2).1 = Some OK ∧
  represents s3.1 (w_disk s3.2) (fold_left map_op ops' m) ∧
  is_Some (@Open O2 options path (booted (w_disk s3.2))).1.2 ∧
  represents s4.1 (w_disk s4.2) m.
Proof.
  intros path s1 s2 s3 s4 (tabs & Hok & <- & v & ptabs & rs & Hp & _ & Hclean & Em & _).
  intros Hcl Hb Hq Hg Ho Hcr Her Hun Hlog Hk Hb' Hq' Hlen. pose proof Hclean as (Hrs & Hlog0 & _).
  pose proof (ok_disk _ _ _ Hok) as Hwf. fold path in Hlog0. rewrite Hlog0 in Hlog.
  pose proof (Write_torn (O := O1) db tabs w opts ops rs Hok Hclean Hcl Hb Hq) as H1. unfold wp in H1.
  fold (after_run (@Write O1 opts (batch_of ops)) (db, w)) in H1. fold s1 in H1.
  rewrite (surjective_pairing s1) in H1. destruct (H1 Hun) as (Hwf1 & Hop1 & _).
  assert (persisted (w_disk s1.2) path v ptabs) as Hp1
    by (eapply persisted_frame; [exact Hwf|done|apply avoids_wal|apply manifest_not_wal|done]).
  destruct (opened_tail O2 options path _ v ptabs rs _ Hg Ho Hcr Her Hwf1 Hp1 Hrs Hlog)
    as (_ & Ep2 & Hcl2 & Hok2 & Ec2 & Hp2 & Hl2).
  { rewrite <- (app_nil_r (take k _)). apply torn_record_claims; [apply Hb|done|]. cbn. lia. }
  fold s2 in Ep2, Hcl2, Hok2, Ec2, Hp2, Hl2. rewrite Em in Ec2. split; [by exists ptabs|].
  pose proof (Write_ready (O := O2) s2.1 ptabs s2.2 opts' ops' _ Hok2 Hl2 Hcl2 Hb' Hq') as H3. unfold wp in H3.
  rewrite <- surjective_pairing in H3. fold (after_run (@Write O2 opts' (batch_of ops')) s2) in H3. fold s3 in H3.
  rewrite (surjective_pairing s3), Ec2, Ep2 in H3.
  destruct H3 as (Er3 & (wal3 & Edb3) & Hok3 & Ec3 & Hop3 & Hl3%log_ready_content).
  split; [done|]. split; [by exists ptabs|].
  assert (db_path_ s3.1 = path) as Ep3
    by (rewrite Edb3; destruct (applied_fields ops' (set_wal wal3 s2.1)) as (_ & -> & _); exact Ep2).
  rewrite Ep3, <- app_assoc in Hl3.
  assert (persisted (w_disk s3.2) path v ptabs) as Hp3
    by (eapply persisted_frame; [apply Hok2|done|apply avoids_wal|apply manifest_not_wal|done]).
  destruct (opened_tail O2 options path _ v ptabs rs _ Hg Ho Hcr Her (ok_disk _ _ _ Hok3) Hp3 Hrs Hl3)
    as (Hs4 & _ & _ & Hok4 & Ec4 & _); [by apply torn_record_claims; [apply Hb|..]|].
  fold s4 in Hok4, Ec4. split; [done|]. exists ptabs. split; [done|]. by rewrite Ec4, Em.
Qed.

(** A process dies while [Write] appends a record: 20 bytes reach the file. *)
Definition torn_write : Oracle := λ k,
  if (k <? w_clock sample1.2)%nat then mkOutcome true 0 0 else mkOutcome false 100 20.
Definition long_ops : list op := [OpPut (str "k3") long_record].
Definition long_batch : WriteBatch := batch_of long_ops.
Definition torn_disk : Disk :=
  w_disk (after_run (@Write torn_write (mkWriteOptions true) long_batch) (sample1.1, sample1.2)).2.
Definition reopened : DB * World := opened faultless sample_options sample_path (booted torn_disk).
Definition written_again : DB * World :=
  after_run (@Write faultless (mkWriteOptions true) (batch_of [OpPut (str "k4") (str "v4")])) reopened.
(** The process dies after the second write; the database is opened again. *)
Definition recovered_again : DB * World :=
  opened faultless sample_options sample_path (booted (w_disk written_again.2)).

Lemma acknowledged_write_lost_witness :
  (@Write faultless (mkWriteOptions true) (batch_of [OpPut (str "k4") (str "v4")]) reopened).1 = Some OK ∧
  represents written_again.1 (w_disk written_again.2) (<[str "k4" := str "v4"]> sample_map) ∧
  represents recovered_again.1 (w_disk recovered_again.2) sample_map ∧ sample_map !! str "k4" = None.
Proof.
  destruct (acknowledged_write_lost torn_write faultless sample1.1 sample1.2 sample_map (mkWriteOptions true)
    long_ops 20 sample_options (mkWriteOptions true) [OpPut (str "k4") (str "v4")] sample1_safe)
    as (_ & E & R3 & _ & R4).
  - vm_compute; reflexivity.
  - split; [done|vm_compute; reflexivity].
  - vm_compute; reflexivity.
  - vm_compute. intros [=].
  - exact sample_options_ok.
  - reflexivity.
  - reflexivity.
  - vm_compute; reflexivity.
  - vm_compute; reflexivity.
  - lia.
  - split; [done|vm_compute; reflexivity].
  - vm_compute; reflexivity.
  - vm_compute; reflexivity.
  - split_and!; [exact E|exact R3|exact R4|vm_compute; reflexivity].
Defined.

(** A short write in a running process: one [fwrite] fails with 20 bytes in the
    file, as on a full disk, and nothing fails after it. *)
Definition short_write : Oracle := λ k,
  if (k =? w_clock sample1.2)%nat then mkOutcome false 20 20 else mkOutcome true 0 0.
Definition after_short_write : DB * World :=
  after_run (@Write short_write (mkWriteOptions true) long_batch) sample1.
Definition then_put : DB * World :=
  after_run (@Put short_write (mkWriteOptions true) (str "k4") (str "v4")) after_short_write.
Definition recovered_after : DB * World :=
  opened faultless sample_options sample_path (booted (w_disk then_put.2)).

(** The batch is refused, the process goes on, and a later [Put] is synced and
    acknowledged; its record lies behind the torn one, and a recovery does not
    find it. *)
Theorem short_write_hides_later_writes :
  (ok <$> (@Write short_write (mkWriteOptions true) long_batch sample1).1) = Some false ∧
  (@Put short_write (mkWriteOptions true) (str "k4") (str "v4") after_short_write).1 = Some OK ∧
  (@Get faultless (str "k4") [] then_put).1 = (OK, str "v4") ∧
  (@Get faultless (str "k4") [] recovered_after).1 = (NotFound (str "k4"), []).
Proof. split_and!; vm_compute; reflexivity. Qed.

(** ** A failing [Open] *)

Definition flushed : DB * World := after_run (@Flush faultless) sample1.
(** The first call of [Version::Load] in [Open] fails with [EIO]. *)
Definition failed_open : World := (@Open (failing_at 1) sample_options sample_path
  (booted (w_disk (after_run (@Close faultless) flushed).2))).2.
Definition opened_later : DB * World :=
  opened faultless sample_options sample_path (booted (w_disk failed_open)).

(** An [Open] that fails to read the manifest of a closed database
    overwrites it with an empty one, and the next [Open] deletes the tables:
    every key is gone. *)
Theorem failed_open_loses_data :
  ok (@Open (failing_at 1) sample_options sample_path
    (booted (w_disk (after_run (@Close faultless) flushed).2))).1.1 = false ∧
  content (w_disk failed_open) (manifest_path sample_path) = Some (manifest_bytes Version_new) ∧
  content (w_disk failed_open) (sst_path sample_path 1) ≠ None ∧
  content (w_disk opened_later.2) (sst_path sample_path 1) = None ∧
  (@Get faultless (str "k1") [] opened_later).1 = (NotFound (str "k1"), []).
Proof. split_and!; vm_compute; (reflexivity || intros [=]). Qed.

(** ** A path with a trailing slash *)

Definition slash_path : bytes := str "db/".
Definition slash_run : DB * World :=
  after_run (@Flush faultless)
    (after_run (@Put faultless (mkWriteOptions true) (str "k1") (str "v1"))
      (opened faultless sample_options slash_path empty_world)).
Definition slash_closed : World := (after_run (@Close faultless) slash_run).2.

(** With a trailing slash in the path, [Open] on a closed database
    deletes the tables its own manifest lists, and fails. *)
Theorem trailing_slash_loses_tables :
  content (w_disk slash_closed) (sst_path slash_path 1) ≠ None ∧
  ok (@Open faultless sample_options slash_path (booted (w_disk slash_closed))).1.1 = false ∧
  content (w_disk (@Open faultless sample_options slash_path (booted (w_disk slash_closed))).2)
    (sst_path slash_path 1) = None.
Proof. split_and!; vm_compute; (reflexivity || intros [=]). Qed.

(** ** A read error *)

(** Databases to start from. *)
Lemma opened_safe options : options_ok options →
  is_Some (@Open faultless options sample_path empty_world).1.2 →
  safe (opened faultless options sample_path empty_world).1
    (w_disk (opened faultless options sample_path empty_world).2) ∅.
Proof.
  intros Ho Hs. assert (persisted empty_disk sample_path Version_new (λ _, [])) as Hp by by apply persisted_none.
  destruct (opened_post faultless options sample_path empty_world _ _ good_sample_path Ho
    empty_disk_wf Hp Hs).
  exists (λ _, []). split_and!; [done| |].
  - rewrite op_contents by apply _. by apply recovered_none.
  - by apply op_durable; [apply _|].
Qed.

Lemma safe_flush O db w m : safe db (w_disk w) m → has_room db [] = true →
  safe (after_run (@Flush O) (db, w)).1 (w_disk (after_run (@Flush O) (db, w)).2) m.
Proof.
  intros (tabs & Hok & Em & Hd) Hr.
  pose proof (Flush_spec db tabs w Hok (has_room_limits _ _ _ Hok Hr)) as H.
  unfold wp, after_run in *. destruct (Flush (db, w)) as [r [db' w']]. cbn [fst snd] in *.
  destruct H as (tabs' & (Hm & _) & _). by eapply maintained_safe.
Qed.

(** C32. [Get] takes a read error for an absent key.  A batch [ops] is written to a
    database that holds [m] and has nothing in its memtable, and flushed, both
    with success and without a compaction.  If the first read of a [Get] for a
    key of [ops] fails, and no other, the answer is what [m] says of the key:
    the overwritten value with OK, or a deleted key as present. *)
Theorem read_error_returns_stale_value (O1 O2 : Oracle) `{!FaultFree O1} db w m opts ops key value :
  safe db (w_disk w) m → wal_open db → closed_ db = false → MemTable_empty (memtable_ db) = true →
  batch_fits ops → has_room db ops = true → quiet db ops = true → stays_small db = true →
  key ∈ op_key <$> ops →
  let s1 := after_run (@Write O1 opts (batch_of ops)) (db, w) in
  let s2 := after_run (@Flush O1) s1 in
  fails_next O2 s2.2 →
  (@Write O1 opts (batch_of ops) (db, w)).1 = Some OK ∧ (@Flush O1 s1).1 = Some OK ∧
  represents s2.1 (w_disk s2.2) (fold_left map_op ops m) ∧
  (@Get O2 key value s2).1 = get_result m key value.
Proof.
  intros (tabs & Hok & Em & v & ptabs & rs & _ & _ & Hclean & _) Hwo Hcl Hemp Hb Hroom Hq Hsmall Hkey s1 s2 Hf.
  pose proof (Write_ready (O := O1) db tabs w opts ops _ Hok (wal_clean_ready _ _ _ Hclean Hwo) Hcl Hb Hq) as H1.
  subst s2 s1. unfold wp, after_run in *. destruct (Write opts (batch_of ops) (db, w)) as [r1 [db1 w1]].
  cbn [fst snd] in *. destruct H1 as (-> & (wal & ->) & Hok1 & Ec1 & _). split; [done|].
  set (db1 := applied ops (set_wal wal db)) in *.
  assert (memtable_ db1 = fold_left h_apply ops (memtable_ db)) as Emt
    by apply (applied_memtable ops (set_wal wal db)).
  destruct (applied_fields ops (set_wal wal db)) as (Eo & _ & Ecl). fold db1 in Eo, Ecl.
  pose proof (applied_version ops (set_wal wal db)) as Ev. fold db1 in Ev. cbn in Eo, Ecl, Ev.
  destruct (has_room_write _ _ _ _ Hok Hroom) as [Hw Hn]. pose proof (ops_apply_weight ops (memtable_ db)).
  pose proof (Flush_ready (O := O1) db1 tabs w1 Hok1) as H2. unfold wp in H2.
  destruct (@Flush O1 (db1, w1)) as [r2 [db2 w2]]. cbn [fst snd] in *.
  destruct H2 as (-> & t & Hok2 & Ht & Hemp2 & Ecl2 & Ec2).
  { split; [rewrite Emt; lia|by rewrite Ev]. }
  { rewrite Emt. apply ops_apply_nonempty, Hb. }
  { unfold stays_small, NeedsCompactionLocked in *. rewrite Ev, Eo.
    by rewrite (needs_compaction_from_ext db) by (done || intros; by rewrite Ev). }
  split; [done|]. split; [exists (push_tab t tabs); split; [done|]; by rewrite Ec2, Ec1, Em|].
  assert (mem_layer (memtable_ db2) = ∅) as Hml by by apply mem_layer_empty.
  assert (mem_layer (memtable_ db) = ∅) as Hml0 by by apply mem_layer_empty.
  rewrite (Get_next_fails O2 db2 t tabs key value w2); [|done|congruence|by rewrite Hml| |done].
  - rewrite <- Em. unfold contents. by rewrite Hml0, (left_id_L ∅ (∪)).
  - rewrite Ht, Emt, mem_apply_layer by apply Hok. apply layer_ops_key. by left.
Qed.

(** A database with room for more tables in L0: "v2" under "k1" is in a table
    when "v3" is written and flushed. *)
Definition roomy_options : Options := mkOptions true false 100 4 10 1000 10 false false.
Definition roomy0 : DB * World := opened faultless roomy_options sample_path empty_world.
Definition roomy1 : DB * World :=
  after_run (@Write faultless (mkWriteOptions false) (batch_of [OpPut (str "k1") (str "v2")])) roomy0.
Definition roomy2 : DB * World := after_run (@Flush faultless) roomy1.
Definition overwritten : DB * World :=
  after_run (@Flush faultless)
    (after_run (@Write faultless (mkWriteOptions true) (batch_of [OpPut (str "k1") (str "v3")]))
       (roomy2.1, roomy2.2)).
Definition read_error : Oracle := failing_at (w_clock overwritten.2).

Lemma roomy2_safe : safe roomy2.1 (w_disk roomy2.2) {[str "k1" := str "v2"]}.
Proof.
  assert (safe roomy0.1 (w_disk roomy0.2) ∅) as H0.
  { apply opened_safe; [split; [done|reflexivity]|vm_compute; by eexists]. }
  unfold roomy2. rewrite (surjective_pairing roomy1). apply safe_flush; [|by vm_compute].
  unfold roomy1. rewrite (surjective_pairing roomy0).
  apply (safe_write faultless _ [OpPut (str "k1") (str "v2")] _ _ ∅ H0); [by vm_compute| |by vm_compute|by vm_compute].
  split; [done|]. vm_compute. reflexivity.
Qed.

Lemma read_error_returns_stale_value_witness :
  (@Get faultless (str "k1") [] overwritten).1 = (OK, str "v3") ∧
  (@Get read_error (str "k1") [] overwritten).1 = (OK, str "v2").
Proof.
  split; [vm_compute; reflexivity|].
  destruct (read_error_returns_stale_value faultless read_error roomy2.1 roomy2.2
    {[str "k1" := str "v2"]} (mkWriteOptions true) [OpPut (str "k1") (str "v3")] (str "k1") [] roomy2_safe)
    as (_ & _ & _ & E).
  - eexists _, _. split; vm_compute; reflexivity.
  - vm_compute; reflexivity.
  - vm_compute; reflexivity.
  - split; [done|vm_compute; reflexivity].
  - vm_compute; reflexivity.
  - vm_compute; reflexivity.
  - vm_compute; reflexivity.
  - left.
  - split; [vm_compute; reflexivity|]. intros k Hk. unfold read_error, failing_at. cbn [o_ok].
    apply negb_true_iff, Nat.eqb_neq. intros ->. by apply Nat.lt_irrefl in Hk.
  - etransitivity; [exact E|vm_compute; reflexivity].
Defined.
