(* ===== verification/CodecCorrect.v ===== *)
(** * Correctness of the encodings and the in-memory structures

    The properties of the byte formats, the checksum, the Bloom filter, write
    batches, the memtable, the iterator and the file names. *)

From S2P Require Import Prelude Slice Status OrderedMap Coding Crc32c Crc32cSpec Bloom MemTable.
From S2P Require Import WriteBatch FileSystem SSTable Pointers Version DB DBPaths DBSession Sample.

(** ** Lemmas *)

(** A decoder does not look beyond what it consumes. *)
Lemma varint_loop_app wrap last shift result p v q rest :
  varint_loop wrap last shift result p = Some (v, q) →
  varint_loop wrap last shift result (p ++ rest) = Some (v, q ++ rest).
Proof.
  revert shift result. induction p as [|b p IH]; intros shift result; [done|]. cbn [app varint_loop].
  case_match; [|done]. case_match; [apply IH|]. by intros [= <- <-].
Qed.

Lemma GetLengthPrefixedSlice_app p s q rest : GetLengthPrefixedSlice p = Some (s, q) →
  GetLengthPrefixedSlice (p ++ rest) = Some (s, q ++ rest).
Proof.
  unfold GetLengthPrefixedSlice. destruct (GetVarint32Ptr p) as [[len p']|] eqn:E; [|done].
  pose proof (GetVarint32Ptr_suffix _ _ _ E) as [Hu _]. unfold is_u32 in Hu.
  unfold GetVarint32Ptr in *. rewrite (varint_loop_app _ _ _ _ _ _ _ rest E), !length_app, !Nat2Z.inj_add.
  destruct (Z.ltb_spec (zlen p) (zlen p - zlen p' + len)); [done|]. intros [= <- <-].
  destruct (Z.ltb_spec (zlen p + zlen rest) (zlen p + zlen rest - (zlen p' + zlen rest) + len)); [lia|].
  pose proof (ztake_length len p' ltac:(lia)) as Hl. pose proof (ztake_zdrop len p') as Es.
  rewrite ztake_app_le by lia. do 2 f_equal.
  rewrite <- Es at 1. rewrite <- app_assoc. apply drop_zlen_app. lia.
Qed.

(** A varint decoder reads one byte per seven bits of the shift. *)
Lemma varint_loop_length wrap last shift result p v q :
  varint_loop wrap last shift result p = Some (v, q) →
  zlen q < zlen p ∧ 7 * (zlen p - zlen q) ≤ last - shift + 7.
Proof.
  revert shift result. induction p as [|b p IH]; intros shift result; [done|]. cbn [varint_loop length].
  destruct (Z.leb_spec shift last); [|done]. case_match.
  - intros Hl%IH. lia.
  - intros [= _ <-]. lia.
Qed.

(** The pointer behind a varint. *)
Lemma after_varint mem input pre (v : Z) q n (P : Z → Prop) (Q : bytes → Prop) :
  views mem input (pre ++ q) → zlen q < zlen (pre ++ q) ∧ 7 * (zlen (pre ++ q) - zlen q) ≤ n → P v → Q q →
  data_ input < end_ input - zlen q ≤ end_ input ∧ end_ input - zlen q - data_ input ≤ n / 7 ∧ P v ∧
  ∃ rest, views mem (mkSliceRep (end_ input - zlen q) (end_ input - (end_ input - zlen q))) rest ∧ Q rest.
Proof.
  intros Hv [H1 H2] HP HQ. pose proof (views_bounds _ _ _ Hv) as (_ & _ & _ & Es).
  apply Z.div_le_lower_bound in H2; [|done]. unfold end_ in *. split_and!; [lia..|done|].
  exists q. split; [|done]. apply views_suffix in Hv. unfold suffix_rep, end_ in Hv.
  replace (data_ input + size_ input - (data_ input + size_ input - zlen q)) with (zlen q) by lia.
  exact Hv.
Qed.

(** ** Integers and strings *)

(** C33. Varints: what is appended is read back, with the rest of the input,
    at both widths, in at most five and ten bytes. *)
Theorem varint_roundtrip dst v rest :
  (is_u32 v → ∃ enc, PutVarint32 dst v = dst ++ enc ∧ (1 ≤ length enc ≤ 5)%nat ∧
     GetVarint32Ptr (enc ++ rest) = Some (v, rest)) ∧
  (is_u64 v → ∃ enc, PutVarint64 dst v = dst ++ enc ∧ (1 ≤ length enc ≤ 10)%nat ∧
     GetVarint64Ptr (enc ++ rest) = Some (v, rest)).
Proof.
  split; intros Hv; eexists; (split; [done|split; [apply varint_bytes_length|]]).
  - by apply GetVarint32_bytes.
  - by apply GetVarint64_bytes.
Qed.

Lemma varint_roundtrip_witness :
  (∃ enc, PutVarint32 [] 300 = [] ++ enc ∧ (1 ≤ length enc ≤ 5)%nat ∧
     GetVarint32Ptr (enc ++ [x00]) = Some (300, [x00])) ∧
  (∃ enc, PutVarint64 [] 300 = [] ++ enc ∧ (1 ≤ length enc ≤ 10)%nat ∧
     GetVarint64Ptr (enc ++ [x00]) = Some (300, [x00])).
Proof. split; apply (varint_roundtrip [] 300 [x00]); [unfold is_u32|unfold is_u64]; lia. Defined.

(** C34. Decoding any bytes, at any place of a buffer, never reads outside the
    input: the pointer after a varint is at most five (ten) bytes further and not
    beyond the limit; a slice and the new input follow the header and end where
    the input ended.  The results are those of the functions on lists; what
    lies in the buffer outside the input has no influence. *)
Theorem decoders_in_bounds mem input l : views mem input l → zlen mem < 2 ^ 63 →
  match GetVarint32Ptr_at mem (data_ input) (end_ input) with
  | Fault => False
  | Done None => GetVarint32Ptr l = None
  | Done (Some (v, p)) => data_ input < p ≤ end_ input ∧ p - data_ input ≤ 5 ∧ is_u32 v ∧
      ∃ rest, views mem (mkSliceRep p (end_ input - p)) rest ∧ GetVarint32Ptr l = Some (v, rest)
  end ∧
  match GetVarint64Ptr_at mem (data_ input) (end_ input) with
  | Fault => False
  | Done None => GetVarint64Ptr l = None
  | Done (Some (v, p)) => data_ input < p ≤ end_ input ∧ p - data_ input ≤ 10 ∧ is_u64 v ∧
      ∃ rest, views mem (mkSliceRep p (end_ input - p)) rest ∧ GetVarint64Ptr l = Some (v, rest)
  end ∧
  match GetLengthPrefixedSlice_at mem input with
  | Fault => False
  | Done None => GetLengthPrefixedSlice l = None
  | Done (Some (s, rest)) =>
      data_ input < data_ s ∧ end_ s = data_ rest ∧ end_ rest = end_ input ∧
      ∃ v q, views mem s v ∧ views mem rest q ∧ GetLengthPrefixedSlice l = Some (v, q)
  end.
Proof.
  intros Hv Hmem. split_and!.
  - rewrite (GetVarint32Ptr_at_spec _ _ _ Hv). destruct (GetVarint32Ptr l) as [[v q]|] eqn:E; [|done].
    pose proof (GetVarint32Ptr_suffix _ _ _ E) as [Hu (pre & -> & _)].
    apply varint_loop_length in E. by apply (after_varint mem input pre v q 35 is_u32 (λ r, Some (v, q) = Some (v, r))).
  - rewrite (GetVarint64Ptr_at_spec _ _ _ Hv). destruct (GetVarint64Ptr l) as [[v q]|] eqn:E; [|done].
    pose proof (GetVarint64Ptr_suffix _ _ _ E) as [Hu (pre & -> & _)].
    apply varint_loop_length in E. by apply (after_varint mem input pre v q 70 is_u64 (λ r, Some (v, q) = Some (v, r))).
  - rewrite (GetLengthPrefixedSlice_at_spec _ Hmem _ _ Hv).
    destruct (GetLengthPrefixedSlice l) as [[v q]|] eqn:E; [|done].
    destruct (GetLengthPrefixedSlice_views _ _ _ _ _ Hv E) as (? & ? & ? & ? & ?).
    split_and!; [done..|]. by exists v, q.
Qed.

(** Six bytes in the middle of a buffer: a slice of two bytes and the rest. *)
Definition sample_buffer : bytes := str "xx" ++ [x02] ++ str "abcde" ++ str "yy".
Lemma decoders_in_bounds_witness :
  match GetLengthPrefixedSlice_at sample_buffer (mkSliceRep 2 6) with
  | Fault => False
  | Done None => GetLengthPrefixedSlice (x02 :: str "abcde") = None
  | Done (Some (s, rest)) =>
      2 < data_ s ∧ end_ s = data_ rest ∧ end_ rest = 8 ∧
      ∃ v q, views sample_buffer s v ∧ views sample_buffer rest q ∧
        GetLengthPrefixedSlice (x02 :: str "abcde") = Some (v, q)
  end.
Proof.
  apply (decoders_in_bounds sample_buffer (mkSliceRep 2 6) (x02 :: str "abcde"));
    [exists (str "xx"), (str "yy"); split_and!; reflexivity|vm_compute; reflexivity].
Defined.

(** Length-prefixed slices: what is appended is read back with the rest,
    and every truncation of the encoding is rejected. *)
Theorem length_prefixed_roundtrip dst value rest : zlen value < 2 ^ 32 →
  ∃ enc, PutLengthPrefixedSlice dst value = dst ++ enc ∧
    GetLengthPrefixedSlice (enc ++ rest) = Some (value, rest) ∧
    ∀ k, (k < length enc)%nat → GetLengthPrefixedSlice (take k enc) = None.
Proof.
  intros Hv. exists (lp_slice value). split; [apply PutLengthPrefixedSlice_app|].
  split; [by apply GetLengthPrefixedSlice_lp|]. intros k Hk.
  destruct (GetLengthPrefixedSlice (take k (lp_slice value))) as [[s q]|] eqn:E; [|done].
  apply (GetLengthPrefixedSlice_app _ _ _ (drop k (lp_slice value))) in E. rewrite take_drop in E.
  pose proof (GetLengthPrefixedSlice_lp value [] Hv) as E'. rewrite app_nil_r, E in E'.
  injection E' as _ E'. apply app_eq_nil in E' as [_ E'].
  apply (f_equal length) in E'. rewrite length_drop in E'. cbn in E'. lia.
Qed.

Lemma length_prefixed_roundtrip_witness :
  ∃ enc, PutLengthPrefixedSlice (str "x") (str "key") = str "x" ++ enc ∧
    GetLengthPrefixedSlice (enc ++ str "rest") = Some (str "key", str "rest") ∧
    ∀ k, (k < length enc)%nat → GetLengthPrefixedSlice (take k enc) = None.
Proof. apply (length_prefixed_roundtrip (str "x") (str "key")). vm_compute. reflexivity. Defined.

(** ** Checksums and filters *)

(** C35. [Value] is CRC32C: the reflected and inverted remainder of the
    message, preceded by ones, divided by the Castagnoli polynomial, and nothing
    else is.  It is a word and can be computed in pieces; the check value
    is the published one. *)
Theorem crc32c_correct data more c :
  (is_crc32c data c ↔ c = Value data) ∧ is_u32 (Value data) ∧
  Extend (Value data) more = Value (data ++ more) ∧
  Value (str "123456789") = 0xE3069283.
Proof.
  split_and!; [apply Value_crc32c|apply Value_u32|apply Extend_Value|].
  vm_compute. reflexivity.
Qed.

(** Masking a checksum is a bijection of the 32-bit words, undone by
    [Unmask] on both sides. *)
Theorem Mask_bijective x : is_u32 x →
  Unmask (Mask x) = x ∧ Mask (Unmask x) = x ∧ is_u32 (Mask x).
Proof. intros Hx. split_and!; [by apply Unmask_Mask_aux|by apply Mask_Unmask_aux|apply Mask_u32]. Qed.

Lemma Mask_bijective_witness :
  Unmask (Mask 0xE3069283) = 0xE3069283 ∧ Mask (Unmask 0xE3069283) = 0xE3069283 ∧
  is_u32 (Mask 0xE3069283).
Proof. apply (Mask_bijective 0xE3069283). unfold is_u32. lia. Defined.

(** The checksum tells apart byte strings of one length that differ in
    one byte. *)
Theorem crc32c_single_byte data k a b : data !! k = Some a → b ≠ a →
  Value (<[k := b]> data) ≠ Value data.
Proof.
  intros Hk Hne. pose proof (lookup_lt_Some _ _ _ Hk).
  rewrite <- (take_drop_middle data k a Hk) at 2. rewrite insert_take_drop by done.
  by intros ?%Value_single_byte.
Qed.

Lemma crc32c_single_byte_witness : Value (<[2%nat := x00]> (str "clomdb")) ≠ Value (str "clomdb").
Proof. apply (crc32c_single_byte (str "clomdb") 2 x6f x00); [reflexivity|discriminate]. Defined.

(** C36. The Bloom filter has no false negatives, and its size is one byte
    more than its bits need. *)
Theorem bloom_no_false_negatives keys bits_per_key : bloom_fits (zlen keys) bits_per_key →
  zlen (Build keys bits_per_key) = bloom_bytes (zlen keys) bits_per_key + 1 ∧
  ∀ key, key ∈ keys → MayContain (Build keys bits_per_key) key = true.
Proof. intros Hf. split; [by apply Build_length|]. intros key. by apply MayContain_Build. Qed.

Lemma bloom_no_false_negatives_witness :
  zlen (Build [str "a"; str "b"] 10) = bloom_bytes (zlen [str "a"; str "b"]) 10 + 1 ∧
  ∀ key, key ∈ [str "a"; str "b"] → MayContain (Build [str "a"; str "b"] 10) key = true.
Proof. apply bloom_no_false_negatives. vm_compute. split; [intros [=]|reflexivity]. Defined.

(** ** Keys, batches and the memtable *)

(** C37. [Slice::compare] is the lexicographic order on unsigned bytes, [<] is
    a strict total order, and [==] is equality. *)
Theorem Slice_order a b c :
  Slice_compare a b = lex_compare a b ∧ Slice_compare b a = - Slice_compare a b ∧
  (Slice_eqb a b = true ↔ a = b) ∧ (Slice_compare a b = 0 ↔ a = b) ∧
  Slice_ltb a a = false ∧ (Slice_ltb a b = true ∨ a = b ∨ Slice_ltb b a = true) ∧
  (Slice_ltb a b = true → Slice_ltb b c = true → Slice_ltb a c = true) ∧
  (Slice_starts_with a b = true ↔ b `prefix_of` a).
Proof.
  split_and!; [apply Slice_compare_lex| |apply Slice_eqb_eq| | |apply key_lt_trichotomy|
    apply (transitivity (R := key_lt))|apply Slice_starts_with_spec].
  - rewrite !Slice_compare_lex. apply lex_compare_antisym.
  - rewrite Slice_compare_lex. split; [apply lex_compare_eq|]. intros ->. apply lex_compare_refl.
  - apply Slice_ltb_false. by left.
Qed.

Lemma Slice_order_witness : Slice_ltb (str "a") (str "b") = true.
Proof.
  destruct (Slice_order (str "a") (str "ab") (str "b")) as (_ & _ & _ & _ & _ & _ & Ht & _).
  apply Ht; vm_compute; reflexivity.
Defined.

(** C38. [Iterate] hands every handler the operations of the batch in order;
    so does a batch rebuilt from its bytes, as in recovery, although it then
    reports a count mismatch. *)
Theorem Iterate_roundtrip {H} `{Handler H} ops (h : H) : Forall op_fits ops → zlen ops < 2 ^ 64 →
  Iterate (batch_of ops) h = (OK, fold_left h_apply ops h) ∧
  Iterate (SetData WriteBatch_new (Data (batch_of ops))) h =
    (if decide (ops = []) then OK else Corruption (str "WriteBatch count mismatch"),
     fold_left h_apply ops h).
Proof.
  intros Hf Hn. split; [by apply Iterate_batch_of|].
  unfold Iterate, SetData, Data. cbn [rep_ count_ WriteBatch_new].
  rewrite batch_of_rep, Iterate_loop_ops; [|done|lia..].
  rewrite Z.add_0_l. destruct ops as [|o ops]; [done|]. rewrite decide_False by done.
  cbn [length]. by destruct (Z.eqb_spec (Z.of_nat (S (length ops))) 0); [lia|].
Qed.

Lemma Iterate_roundtrip_witness :
  Iterate (batch_of sample_ops) MemTable_new = (OK, fold_left h_apply sample_ops MemTable_new) ∧
  Iterate (SetData WriteBatch_new (Data (batch_of sample_ops))) MemTable_new =
    (if decide (sample_ops = []) then OK else Corruption (str "WriteBatch count mismatch"),
     fold_left h_apply sample_ops MemTable_new).
Proof.
  apply (Iterate_roundtrip (H := MemTable) sample_ops MemTable_new);
    [repeat constructor|vm_compute; reflexivity].
Defined.

(** C39. The memtable is a map from keys to values and tombstones: after any
    [Put]s and [Delete]s, [Get] answers from the last operation on the key. *)
Theorem MemTable_correct mt ops key value del : mem_wf mt →
  let mt' := fold_left h_apply ops mt in
  mem_wf mt' ∧
  MemTable_Get mt' key value del =
    match fold_left layer_op ops (mem_layer mt) !! key with
    | None => (false, value, del)
    | Some None => (true, value, true)
    | Some (Some v) => (true, v, false)
    end.
Proof.
  intros Hwf mt'. assert (mem_wf mt') as Hwf' by by apply mem_apply_wf. split; [done|].
  rewrite MemTable_Get_layer by done. unfold mt'. by rewrite mem_apply_layer.
Qed.

Lemma MemTable_correct_witness :
  let mt' := fold_left h_apply sample_ops MemTable_new in
  mem_wf mt' ∧
  MemTable_Get mt' (str "k1") [] false =
    match fold_left layer_op sample_ops (mem_layer MemTable_new) !! str "k1" with
    | None => (false, [], false)
    | Some None => (true, [], true)
    | Some (Some v) => (true, v, false)
    end.
Proof. apply (MemTable_correct MemTable_new sample_ops). apply mem_wf_new. Defined.

(** C40. After [Seek(target)] the loop over an iterator visits the bindings of
    the snapshot whose keys are not below the target, in order; the position
    before the call does not matter. *)
Theorem Iterator_Seek_correct it target : StronglySorted key_lt (snapshot_ it).*1 →
  scan (Seek it target) = filter (λ kv, ¬ key_lt kv.1 target) (snapshot_ it) ∧
  scan (SeekToFirst (Seek it target)) = snapshot_ it.
Proof.
  intros Hs. rewrite !scan_it. split; [|done]. cbn [it_ Seek].
  destruct (omap_lower_bound_suffix target (snapshot_ it)) as (pre & E & Hpre).
  pose proof (omap_lower_bound_ge target (snapshot_ it) Hs) as Hge.
  set (l := omap_lower_bound target (snapshot_ it)) in *. rewrite E, filter_app.
  rewrite Forall_fmap in Hpre, Hge.
  rewrite (filter_all _ l) by done. rewrite filter_none; [done|].
  eapply Forall_impl; [done|]. intros kv Hkv Hn. by apply Hn.
Qed.

Definition sample_iterator : Iterator :=
  Iterator_new [(str "a", str "1"); (str "c", str "2"); (str "d", str "3")].
Lemma Iterator_Seek_correct_witness :
  scan (Seek sample_iterator (str "b")) =
    filter (λ kv, ¬ key_lt kv.1 (str "b")) (snapshot_ sample_iterator) ∧
  scan (SeekToFirst (Seek sample_iterator (str "b"))) = snapshot_ sample_iterator.
Proof. apply Iterator_Seek_correct. vm_compute. repeat constructor. Defined.

(** ** File names *)

(** The files of a database never collide: tables with different numbers,
    the log, the manifest and its temporary have different canonical paths. *)
Theorem paths_distinct db m n : is_u64 m → is_u64 n →
  (canon (SSTablePath db m) = canon (SSTablePath db n) ↔ m = n) ∧
  canon (SSTablePath db m) ≠ canon (WalPath db) ∧
  canon (SSTablePath db m) ≠ canon (ManifestPath db) ∧
  canon (SSTablePath db m) ≠ canon (tmp_of (ManifestPath db)) ∧
  canon (WalPath db) ≠ canon (ManifestPath db) ∧
  canon (WalPath db) ≠ canon (tmp_of (ManifestPath db)) ∧
  canon (ManifestPath db) ≠ canon (tmp_of (ManifestPath db)).
Proof.
  intros Hm Hn. rewrite !SSTablePath_eq, WalPath_eq, ManifestPath_eq.
  pose proof (sst_not_manifest (db_path_ db) m) as H1. pose proof (wal_not_manifest (db_path_ db)) as H2.
  unfold manifest_files in *. split_and!; try set_solver.
  - split; [by apply sst_path_inj|by intros ->].
  - apply sst_not_wal.
  - apply not_eq_sym, canon_tmp_ne.
Qed.

Lemma paths_distinct_witness :
  let db := DB_new sample_options sample_path in
  (canon (SSTablePath db 7) = canon (SSTablePath db 1000000) ↔ 7 = 1000000) ∧
  canon (SSTablePath db 7) ≠ canon (WalPath db) ∧
  canon (SSTablePath db 7) ≠ canon (ManifestPath db) ∧
  canon (SSTablePath db 7) ≠ canon (tmp_of (ManifestPath db)) ∧
  canon (WalPath db) ≠ canon (ManifestPath db) ∧
  canon (WalPath db) ≠ canon (tmp_of (ManifestPath db)) ∧
  canon (ManifestPath db) ≠ canon (tmp_of (ManifestPath db)).
Proof. apply (paths_distinct (DB_new sample_options sample_path)); unfold is_u64; lia. Defined.
